(* ===== verification/_CoqProject ===== *)
-Q . S2P
Prelude.v
GoStrings.v
Scoring.v
JobQueue.v
RateLimit.v
NsGuards.v
NsCache.v
NsStore.v
Plan.v
Runner.v
Escape.v
Logger.v
Store.v
StoreFacts.v
Sorting.v
Listing.v
ListingFacts.v
Calendar.v
Recurrence.v
RecurrenceFacts.v
Schedules.v
SchedulesFacts.v
Progress.v
Lifecycle.v
LifecycleInvariant.v
LifecycleFacts.v
Recovery.v
Names.v
NamesFacts.v
Packet.v
PacketFacts.v
RecursorCache.v
Recursor.v
RecursorLoop.v
RecursorFacts.v
CnameFacts.v
RecursorCacheFacts.v
Access.v
AccessFacts.v
Query.v
QueryFacts.v
Callers.v
CallersFacts.v
