(* ===== verification/Prelude.v ===== *)
(** * A verification library for gonemaster

    gonemaster tests the health of DNS zones: an engine ([src/engine]) plans and runs test
    cases against the nameservers of a zone and logs what it finds; a server ([src/server])
    queues jobs, runs the engine on them, stores the results, scores them ([src/scoring]) and
    repeats batches on a calendar.  This library models the parts that decide: which test
    cases run, how results are put in order, what is cached and for how long, when a request
    is refused, what a score is, what the store holds, when a schedule fires, where a job is
    at any moment, how a name is looked up from the root.  What only moves bytes is left out
    (see the end).

    ** The files

    [Prelude], [GoStrings] and [Calendar] hold what the rest shares: the [result] type of Go
    functions with errors, [foldM] for loops that may panic, wrap-around of 64-bit integers,
    sums and list lemmas; package [strings] and decimal numbers on byte strings, with case
    mapping of non-ASCII text as the class [GoUnicode]; the proleptic Gregorian calendar.
    [Sorting] has [sort.Slice] with the comparison functions of the code, and pagination by
    a cursor.

    - [Scoring]: [scoring/{config,scoring,bonus}.go].  [Compute] over IEEE doubles
      ([SpecFloat]); the order in which Go ranges over a map is an argument.  Theorems: the
      result does not depend on the order of the entries, but may on the order of the map;
      when the code panics; when the grade is A+.
    - [JobQueue]: [server/queue.go].  The queue with its waiting workers as a transition
      system ([Enqueue], [Dequeue], [Pause], [Resume], [Reorder], [Close]), with any number
      of workers.  No wake-up is lost while at most 1024 goroutines are inside [Dequeue], the
      capacity of the queue's channel; with more, one is lost.  Closing wakes everyone; what
      [Reorder] accepts and what it loses.
    - [RateLimit]: [server/ratelimit.go], [server/limiter.go].  The sliding window refines a
      plain log of requests; the time to retry is honest; a client cannot choose the address
      it is counted under; the engine limiter admits at most its limit.
    - [NsGuards]: [engine/nameserver/{reachability,fast_fail,latency_budget,
      concurrency_cap,limits}.go], a Module each.
    - [NsCache]: the query cache, the error cache and the coalescing of equal queries in
      [engine/nameserver/{state,nameserver}.go]: a FIFO cache, an exact error cache, and a
      protocol of leaders and followers in which nobody waits for ever.
    - [NsStore]: the tables of caches by nameserver and their snapshots, in
      [engine/nameserver/state.go]: caches of different nameservers are never mixed.
    - [Plan]: [engine/plan.go], parts of [engine/engine.go] and [engine/util/helpers.go]:
      what the plan lists against what the run executes.
    - [Runner]: [engine/internal/parallel/parallel.go] as a transition system over every
      interleaving, and [engine/test/internal/runner/runner.go] on top of it: the log of a
      parallel run is the log of the sequential one; the pool ends.
    - [Escape]: [engine/logger/escape.go]: decoding of UTF-8 and the escaping of log
      arguments, against an independent definition of safe text.
    - [Logger]: [engine/logger/{logger,entry}.go] and [engine/test/internal/testcase]: which
      entries are built, in which order callbacks get them, merging the log of a test case.
    - [Store], [StoreFacts]: [server/store.go] ([InMemoryJobStore]) with the data of
      [server/models.go]: jobs, runs, logs, domains, tags, batches, profiles, settings.  An
      invariant over all calls; graduation and the deletion of a batch do what they say; two
      ways in which the run count of a domain goes stale.
    - [Listing], [ListingFacts]: the lists of the same store: [ListJobs] with its filters,
      orders and pages, entries, runs, domains, previews of deletions.  A page of jobs is a
      page of the sorted selection of all jobs, except when a filter selects finished runs.
    - [Progress]: [server/progress.go], [server/progress_write.go]: the tracker of a run and
      the throttle of its writes.
    - [Lifecycle], [LifecycleInvariant], [LifecycleFacts]: [server/worker.go], [cancel.go],
      [reaper.go] and the handlers that create, cancel and remove jobs and that pause, resume
      and reorder the queue.  Every goroutine is a [thread], a point between two accesses to
      the store, the queue or the registry; [advance] is one access, [arrive] a request.  The
      store is the interface [JobStore], whose calls may fail; [LifecycleInvariant.memory_store]
      is [Store].  As long as no access to the store fails and no order of the queue repeats a
      job ([fault] is false), every queued or running job is in one place, the registry is
      exact, a result is final, the workers drain the queue and a cancellation sticks.  Three
      runs show what goes wrong without.
    - [Recovery]: [server/recovery.go] over [JobStore]: what is left after a crash when the
      store is [SQLJobStore]; with any other store nothing is done.
    - [Names], [NamesFacts]: [engine/dnsname], [engine/normalization]: names, common
      suffixes, escaping, normalization; IDNA and addresses are parameters.
    - [Packet], [PacketFacts]: [engine/packet], [engine/ednsopt]: what is read from a
      message, and the OPT record [ApplyExplicit] builds.
    - [RecursorCache], [RecursorCacheFacts]: [engine/recursor/{recursor,referral,cname_error,
      cache_persist}.go] and the cache of [resolve.go]: the nested maps are one map with a
      limit; the referral taken is the deepest live one; keys are read back.
    - [Recursor], [RecursorLoop], [RecursorFacts], [CnameFacts]: [engine/recursor/{recurse,
      resolve}.go]: walks from the root, aliases, addresses of servers without glue,
      [Recurse] and [Parent], in the ordered mode with batches of any size and in the
      unordered mode, where the order of the results and the end of a batch by
      [batchTimeout] are arbitrary.  The servers are an arbitrary oracle.  Lookups end on
      networks of finitely many servers without aliases; with aliases one never returns in
      the ordered mode; what chains of aliases are accepted.
    - [Recurrence], [RecurrenceFacts]: [server/recurrence/recurrence.go].  A zone is a
      function from instants to offsets, and [time.Date] the algorithm of package [time].
      [Next] always returns, and returns the earliest occurrence, across every switch.
    - [Schedules], [SchedulesFacts]: the catalogue of cohorts in [server/store.go], the wire
      form in [server/models.go], the scheduler in [server/scheduler.go].  A tick fires what
      is due, once; as long as nobody writes the schedule, servers that share a store never
      claim an occurrence twice.
    - [Access], [AccessFacts]: [server/{auth,security,public_auth}.go], the chains of
      [server/{server,middleware}.go] and the credential of [server/mcp.go].  No request
      without a valid token gets behind a gate; a login lasts; what passes the check of the
      origin; forwarded headers of strangers reach no handler and change no answer.
    - [Query], [QueryFacts], [Callers], [CallersFacts]: [QueryWithOptions] of
      [engine/nameserver/nameserver.go] and the keys of [query_helpers.go], from the call to
      what is remembered of its result: a caller alone in [Query], any number of callers,
      piece by piece, in [Callers].  What a key tells apart; a query that was answered is not
      sent again by calls that come later; a verdict of a guard is final for calls that have
      not passed it; and what calls at the same time can do nevertheless.

    ** How the parts meet

    [Plan] decides the test cases, [Runner] runs their tasks, each writing to a private log
    that [Logger] merges and [Escape] makes safe to print; [Query] puts the queries of the
    tasks through [NsGuards] and the caches of [NsCache], which [NsStore] shares between
    runs.  On the server, [Access] and [RateLimit] stand before the handlers, [JobQueue] hands jobs to the workers, and
    a finished job graduates in [Store], which calls [Scoring.Compute].  [Schedules] asks
    [Recurrence.Next] for the next run and advances the store by compare and swap.  The
    life of a job from the handler through queue, worker and store to its end is
    [Lifecycle], on [JobQueue] and, through the interface [JobStore], on [Store]; [Progress]
    writes while its engine runs; [Recovery] puts the state back before [Lifecycle.start].
    In the engine, [Names] and [Packet] are the data of [RecursorCache] and [Recursor], whose
    lists of servers pass [NsGuards.Limits].  The composition is in the definitions
    ([GraduateJob] calls [Compute], [fireSchedule] calls [Next]) and in the theorems ([tick_fires_due] rests on the property of [Next] that an
    occurrence is later than the time asked for).

    ** Conventions

    A Go method on shared state under a lock is one function from state to state; code
    between two critical sections is separate steps of a transition relation.  A panic is
    [None] or a constructor of its own, an [error] is [Err].  Integers are [Z]; where the
    code can overflow, the wrap-around is written out ([wrap64] in [Scoring], the saturation
    of [Time.Sub] in [Store], [Recurrence] and [Schedules]).  Counters of 64 bits that only
    count stored objects are unbounded.  Map iteration order is an argument, or universally
    quantified.  Fields that are only copied are type parameters.  What is outside [src]
    (the time zone database, address parsing, the network) is a parameter.

    ** Bounds and fuel

    The number of workers and of threads is not bounded in [JobQueue], [NsGuards] and [Lifecycle].  [no_lost_wakeup] looks at
    runs in which at most 1024 goroutines are inside [Dequeue], the capacity of the channel in
    [queue.go]; nothing in the program keeps it there ([wakeups_dropped]).  [RateLimit.int_seconds] is exact for
    windows below 2^23 seconds.  The scanners of [Escape] and [GoStrings] take the length of
    the string as fuel: each step consumes a byte.  Lookups in [NsStore] follow at most as
    many snapshots as there are stores.  [Recurrence.loop_fuel] covers the days from the
    anchor to three days after the start of the search, and [OutOfFuel] is excluded by
    [next_earliest]; the 64 days of the other rules are those of the code.  Facts about zones
    assume offsets of less than sixteen hours and at most one switch, of at most a day,
    within any six days ([zone_ok]), which [summer_ok] shows of a summer time zone.  The fuel of
    [Recursor.walk] bounds the length of a chain of turns, each a later turn of the same walk or
    the first of a walk it starts: [recurse_terminates] gives an amount from which the result
    is the same, [circle_never_returns] shows there is none for some networks.  [Recursor.follow] has one turn more than its own bound lets it make.

    ** Not modelled

    The test cases themselves ([engine/test/*], some 25 000 lines of DNS checks), zones and
    transports and the DNSSEC helpers of the engine: queries to a network, and what a
    third-party library says of the answers.  The queries of a batch of the recursor take
    effect one after another, and a wait for another walk is one step.  Of the server, [Stop], tickers, the purge loop
    and the preparation of an engine request.  The SQL stores: their logic is text in SQL.
    HTTP routing and decoding, user interfaces, the MCP bridge, command lines, metrics,
    tools: translation between formats; [Access] takes SHA-256, [url.Parse] and the bodies of
    requests as parameters.  Of a query, the answers of undelegated zones, the message
    that is sent, and the queries other names and runs make of the same address.  The analysis projector and its views, profiles and
    their merging, translation of messages. *)

From Stdlib Require Export ZArith Lia Ascii String.
From stdpp Require Export base option list gmap strings fin_maps relations sorting.


#[export] Set Default Proof Using "Type".

(** ** Notations *)

Declare Scope gm_scope.
Delimit Scope gm_scope with gm.
#[global] Open Scope gm_scope.

(** Go functions that return [(value, error)] yield a [result]. *)
Inductive result (A E : Type) : Type :=
| Ok (a : A)
| Err (e : E).
Arguments Ok {A E} a.
Arguments Err {A E} e.

Definition rbind {A B E} (r : result A E) (k : A → result B E) : result B E :=
  match r with Ok a => k a | Err e => Err e end.

Notation "'let?' x ':=' r 'in' k" := (rbind r (λ x, k))
  (at level 10, x pattern, r at level 100, k at level 200,
   format "'let?'  x  ':='  r  'in' '//' k") : gm_scope.

#[export] Instance result_eq_dec {A E} `{EqDecision A, EqDecision E} : EqDecision (result A E).
Proof. solve_decision. Defined.

(** [foldM f a l] threads [f] through [l] and stops at the first [None]: a Go loop
    whose body may panic. *)
Fixpoint foldM {A B} (f : A → B → option A) (a : A) (l : list B) : option A :=
  match l with
  | [] => Some a
  | b :: l' => match f a b with Some a' => foldM f a' l' | None => None end
  end.

(** Lookup in a small map written as a list. *)
Definition assoc {A} (key : string) : list (string * A) → option A :=
  fix go l := match l with
              | [] => None
              | (k, v) :: l => if decide (k = key) then Some v else go l
              end.

(** ** Machine integers *)

(** Go's [int] and [int64]: two's complement on 64 bits. *)
Definition wrap64 (z : Z) : Z := (z + 2 ^ 63) `mod` 2 ^ 64 - 2 ^ 63.
Definition int64_ok (z : Z) : Prop := (- 2 ^ 63 ≤ z < 2 ^ 63)%Z.
(** Go's [uint32] and [uint64]. *)
Definition wrapu32 (z : Z) : Z := z `mod` 2 ^ 32.
Definition wrapu64 (z : Z) : Z := z `mod` 2 ^ 64.

(** ** Tactics *)

(** Case analysis on the scrutinee of a [match] or an [if] of the goal. *)
Ltac go_case :=
  match goal with
  | |- context [match ?x with _ => _ end] =>
      lazymatch x with
      | context [match _ with _ => _ end] => fail
      | _ => destruct x eqn:?
      end
  end.
Ltac go_cases := repeat (go_case; simplify_eq/=).

(** The same in a hypothesis. *)
Ltac go_case_in H :=
  match type of H with
  | context [match ?x with _ => _ end] =>
      lazymatch x with
      | context [match _ with _ => _ end] => fail
      | _ => destruct x eqn:?
      end
  end.
Ltac go_cases_in H := repeat (go_case_in H; simplify_eq/=).

(** Boolean tests of the code as propositions. *)
Ltac breflect :=
  repeat match goal with
  | H : (_ && _)%bool = true |- _ => apply andb_true_iff in H as [? ?]
  | H : (_ || _)%bool = false |- _ => apply orb_false_iff in H as [? ?]
  | H : (_ || _)%bool = true |- _ => apply orb_true_iff in H as [?|?]
  | H : (_ && _)%bool = false |- _ => apply andb_false_iff in H as [?|?]
  | H : negb _ = true |- _ => apply negb_true_iff in H
  | H : negb _ = false |- _ => apply negb_false_iff in H
  | H : (_ <? _)%Z = true |- _ => apply Z.ltb_lt in H
  | H : (_ <? _)%Z = false |- _ => apply Z.ltb_ge in H
  | H : (_ <=? _)%Z = true |- _ => apply Z.leb_le in H
  | H : (_ <=? _)%Z = false |- _ => apply Z.leb_gt in H
  | H : (_ =? _)%Z = true |- _ => apply Z.eqb_eq in H
  | H : (_ =? _)%Z = false |- _ => apply Z.eqb_neq in H
  | H : (_ <? _)%nat = true |- _ => apply Nat.ltb_lt in H
  | H : (_ <? _)%nat = false |- _ => apply Nat.ltb_ge in H
  | H : (_ <=? _)%nat = true |- _ => apply Nat.leb_le in H
  | H : (_ <=? _)%nat = false |- _ => apply Nat.leb_gt in H
  | H : (_ =? _)%nat = true |- _ => apply Nat.eqb_eq in H
  | H : (_ =? _)%nat = false |- _ => apply Nat.eqb_neq in H
  | H : bool_decide _ = true |- _ => apply bool_decide_eq_true in H
  | H : bool_decide _ = false |- _ => apply bool_decide_eq_false in H
  end.

(** ** Hint databases *)

(** [gm] closes the routine side conditions of the components; [gm_arith] normalises
    machine arithmetic. *)
#[export] Set Warnings "-clear-no-such-hyp".

Create HintDb gm discriminated.
Create Rewrite HintDb gm_arith.

(** ** Integers *)

Section integers.
Local Open Scope Z_scope.

Lemma wrap64_id z : int64_ok z → wrap64 z = z.
Proof. unfold wrap64, int64_ok. intros. rewrite Z.mod_small; lia. Qed.

Lemma wrap64_ok z : int64_ok (wrap64 z).
Proof.
  unfold wrap64, int64_ok.
  pose proof (Z.mod_pos_bound (z + 2 ^ 63) (2 ^ 64) ltac:(lia)). lia.
Qed.

Lemma wrap64_cong a b : (a - b) `mod` 2 ^ 64 = 0 → wrap64 a = wrap64 b.
Proof.
  intros H. unfold wrap64. f_equal.
  apply Z.mod_divide in H as [k Hk]; [|lia].
  replace (a + 2 ^ 63) with (b + 2 ^ 63 + k * 2 ^ 64) by lia.
  apply Z.mod_add; lia.
Qed.

Lemma wrap64_add_l a b : wrap64 (wrap64 a + b) = wrap64 (a + b).
Proof.
  apply wrap64_cong. unfold wrap64.
  replace ((a + 2 ^ 63) `mod` 2 ^ 64 - 2 ^ 63 + b - (a + b))
    with ((a + 2 ^ 63) `mod` 2 ^ 64 - (a + 2 ^ 63)) by lia.
  rewrite Zminus_mod_idemp_l, Z.sub_diag. reflexivity.
Qed.

Lemma wrap64_add_r a b : wrap64 (a + wrap64 b) = wrap64 (a + b).
Proof. by rewrite Z.add_comm, wrap64_add_l, Z.add_comm. Qed.

Lemma wrap64_swap a x y : wrap64 (wrap64 (a + x) + y) = wrap64 (wrap64 (a + y) + x).
Proof. rewrite !wrap64_add_l. f_equal. lia. Qed.
End integers.

#[export] Hint Resolve wrap64_ok : gm.
#[export] Hint Rewrite wrap64_add_l wrap64_add_r : gm_arith.

(** ** Option folds *)

Section foldM.
Context {A B : Type} (f : A → B → option A).

Lemma foldM_app a l1 l2 :
  foldM f a (l1 ++ l2) = foldM f a l1 ≫= λ a', foldM f a' l2.
Proof. revert a. induction l1 as [|b l IH]; intros a; simpl; [done|]. by destruct (f a b); simpl. Qed.

Lemma foldM_inv (P : A → Prop) a l a' :
  (∀ x b y, P x → f x b = Some y → P y) → P a → foldM f a l = Some a' → P a'.
Proof.
  intros Hstep. revert a. induction l as [|b l IH]; intros a Ha; simpl; [naive_solver|].
  destruct (f a b) eqn:?; [eauto|done].
Qed.

(** A loop whose body commutes does not depend on the order of its input. *)
Lemma foldM_perm :
  (∀ a x y, f a x ≫= (λ a', f a' y) = f a y ≫= (λ a', f a' x)) →
  ∀ l1 l2, l1 ≡ₚ l2 → ∀ a, foldM f a l1 = foldM f a l2.
Proof.
  intros Hc l1 l2 HP.
  induction HP as [|x l l' _ IH|x y l|l l' l'' _ IH1 _ IH2]; intros a; simpl.
  - done.
  - destruct (f a x); [apply IH|done].
  - specialize (Hc a y x).
    destruct (f a y) as [ay|], (f a x) as [ax|]; simpl in *;
      rewrite ?Hc, <- ?Hc; done.
  - by rewrite IH1, IH2.
Qed.
End foldM.

Lemma forallb_elem {A} (f : A → bool) l x : forallb f l = true → x ∈ l → f x = true.
Proof. rewrite forallb_forall, list_elem_of_In. auto. Qed.

Lemma forallb_false {A} (f : A → bool) l : forallb f l = false → ∃ x, x ∈ l ∧ f x = false.
Proof.
  induction l as [|x l IH]; simpl; [done|]. intros [H|H]%andb_false_iff.
  - exists x. split; [apply list_elem_of_here|done].
  - destruct (IH H) as (y & Hy & Hf). exists y. split; [by apply list_elem_of_further|done].
Qed.

(** ** Transition systems *)

(** Invariants of a transition system, by rule induction on the reachable states. *)
Lemma rtc_invariant {S} (step : S → S → Prop) (P : S → Prop) s s' :
  (∀ x y, P x → step x y → P y) → P s → rtc step s s' → P s'.
Proof. intros Hstep Hs Hr. induction Hr; eauto. Qed.

(** ** Sums *)

Definition zsum (l : list Z) : Z := foldr Z.add 0%Z l.

Section zsum.
Local Open Scope Z_scope.

Lemma zsum_app l1 l2 : zsum (l1 ++ l2) = zsum l1 + zsum l2.
Proof. induction l1 as [|x l IH]; simpl; lia. Qed.

Lemma zsum_nonneg l : Forall (λ x, 0 <= x) l → 0 <= zsum l.
Proof. induction 1; simpl; lia. Qed.
End zsum.
