(* ===== verification/GoStrings.v ===== *)
(** * The parts of Go's [strings] package the program uses, on byte strings.

    A Go string is a sequence of bytes, here a Rocq [string].  [ToUpper] and
    [ToLower] follow Go: an ASCII fast path, and Unicode's case tables otherwise;
    the tables are the parameter [GoUnicode].  [TrimSpace] is exact: it strips the
    UTF-8 encodings of the runes [unicode.IsSpace] accepts. *)

From stdpp Require Import pretty.
From S2P Require Import Prelude.

Local Open Scope string_scope.
Local Open Scope nat_scope.
Local Open Scope list_scope.

#[global] Arguments append !_ _ : simpl nomatch.

(** [unicode.ToUpper] and [unicode.ToLower] mapped over the runes of a string that
    is not ASCII, and [unicode.SimpleFold] over those of two. *)
Class GoUnicode := {
  map_upper : string → string;
  map_lower : string → string;
  map_folds : string → string → bool
}.

(** Case tables that leave every rune alone, for evaluating the model on concrete
    ASCII inputs. *)
Definition ascii_unicode : GoUnicode := 
  {| map_upper := λ s, s; map_lower := λ s, s; map_folds := String.eqb |}.

(** ** Bytes *)

Definition byte_code (c : ascii) : N := N_of_ascii c.
Definition is_upper_byte (c : ascii) : bool := ((65 <=? byte_code c) && (byte_code c <=? 90))%N.
Definition is_lower_byte (c : ascii) : bool := ((97 <=? byte_code c) && (byte_code c <=? 122))%N.
Definition is_digit_byte (c : ascii) : bool := ((48 <=? byte_code c) && (byte_code c <=? 57))%N.
Definition byte_upper (c : ascii) : ascii :=
  if is_lower_byte c then ascii_of_N (byte_code c - 32) else c.
Definition byte_lower (c : ascii) : ascii :=
  if is_upper_byte c then ascii_of_N (byte_code c + 32) else c.
Definition is_ascii_byte (c : ascii) : bool := (byte_code c <? 128)%N.

(** ** Strings as byte sequences *)

Fixpoint string_map (f : ascii → ascii) (s : string) : string :=
  match s with
  | EmptyString => EmptyString
  | String c s' => String (f c) (string_map f s')
  end.

Fixpoint string_forallb (f : ascii → bool) (s : string) : bool :=
  match s with
  | EmptyString => true
  | String c s' => f c && string_forallb f s'
  end.

Definition is_ascii (s : string) : bool := string_forallb is_ascii_byte s.

(** [strings.ToUpper], [strings.ToLower]. *)
Definition to_upper `{GoUnicode} (s : string) : string :=
  if is_ascii s then string_map byte_upper s else map_upper s.
Definition to_lower `{GoUnicode} (s : string) : string :=
  if is_ascii s then string_map byte_lower s else map_lower s.

(** [strings.EqualFold] *)
Definition EqualFold `{GoUnicode} (s t : string) : bool :=
  if is_ascii s && is_ascii t then bool_decide (to_lower s = to_lower t) else map_folds s t.

Fixpoint has_prefix (p s : string) : bool :=
  match p, s with
  | EmptyString, _ => true
  | String c p', String d s' => bool_decide (c = d) && has_prefix p' s'
  | String _ _, EmptyString => false
  end.

Fixpoint drop_bytes (n : nat) (s : string) : string :=
  match n, s with
  | S n', String _ s' => drop_bytes n' s'
  | _, _ => s
  end.

Fixpoint take_bytes (n : nat) (s : string) : string :=
  match n, s with
  | S n', String c s' => String c (take_bytes n' s')
  | _, _ => EmptyString
  end.

(** [strings.Contains]. *)
Fixpoint contains (s sub : string) : bool :=
  has_prefix sub s ||
  match s with
  | EmptyString => false
  | String _ s' => contains s' sub
  end.

Definition contains_byte (c : ascii) (s : string) : bool :=
  negb (string_forallb (λ d, negb (bool_decide (c = d))) s).

Fixpoint rev_append (s acc : string) : string :=
  match s with
  | EmptyString => acc
  | String c s' => rev_append s' (String c acc)
  end.
Definition string_rev (s : string) : string := rev_append s EmptyString.

Definition has_suffix (p s : string) : bool := has_prefix (string_rev p) (string_rev s).

(** [strings.TrimSuffix] and [strings.TrimPrefix]. *)
Definition trim_suffix (s suf : string) : string :=
  if has_suffix suf s then take_bytes (String.length s - String.length suf) s else s.
Definition trim_prefix (s pre : string) : string :=
  if has_prefix pre s then drop_bytes (String.length pre) s else s.

(** [strings.Split(s, sep)] for a one byte separator, and [strings.Join]. *)
Fixpoint split (sep : ascii) (s : string) : list string :=
  match s with
  | EmptyString => [EmptyString]
  | String c s' =>
      if bool_decide (c = sep) then EmptyString :: split sep s'
      else match split sep s' with
           | [] => [String c EmptyString]
           | p :: ps => String c p :: ps
           end
  end.

Fixpoint join (sep : string) (l : list string) : string :=
  match l with
  | [] => EmptyString
  | [p] => p
  | p :: ps => (p +:+ sep +:+ join sep ps)
  end.

(** ** [strings.TrimSpace] *)

Definition bytes (l : list N) : string := foldr (λ n s, String (ascii_of_N n) s) EmptyString l.

(** The UTF-8 encodings of the runes for which [unicode.IsSpace] holds. *)
Definition space_encodings : list string :=
  map bytes
    ([[9]; [10]; [11]; [12]; [13]; [32]; [194; 133]; [194; 160]; [225; 154; 128]]
     ++ map (λ n, [226; 128; n]) [128; 129; 130; 131; 132; 133; 134; 135; 136; 137; 138; 168; 169; 175]
     ++ [[226; 129; 159]; [227; 128; 128]])%N.

(** Remove encodings of [encs] from the front, at most [fuel] times; a string has at
    most as many as it has bytes. *)
Fixpoint trim_left_fuel (encs : list string) (fuel : nat) (s : string) : string :=
  match fuel with
  | O => s
  | S fuel' =>
      match list_find (λ e, has_prefix e s = true) encs with
      | Some (_, e) => trim_left_fuel encs fuel' (drop_bytes (String.length e) s)
      | None => s
      end
  end.
Definition trim_left (encs : list string) (s : string) : string :=
  trim_left_fuel encs (String.length s) s.
Definition trim_right (encs : list string) (s : string) : string :=
  string_rev (trim_left (map string_rev encs) (string_rev s)).
Definition trim_with (encs : list string) (s : string) : string :=
  trim_right encs (trim_left encs s).
Definition trim_space (s : string) : string := trim_with space_encodings s.

(** ** Lemmas *)

Lemma byte_upper_idemp c : byte_upper (byte_upper c) = byte_upper c.
Proof. destruct c as [[] [] [] [] [] [] [] []]; reflexivity. Qed.
Lemma byte_lower_idemp c : byte_lower (byte_lower c) = byte_lower c.
Proof. destruct c as [[] [] [] [] [] [] [] []]; reflexivity. Qed.
Lemma byte_upper_lower c : byte_upper (byte_lower c) = byte_upper c.
Proof. destruct c as [[] [] [] [] [] [] [] []]; reflexivity. Qed.
Lemma byte_upper_ascii c : is_ascii_byte (byte_upper c) = is_ascii_byte c.
Proof. destruct c as [[] [] [] [] [] [] [] []]; reflexivity. Qed.
Lemma byte_lower_ascii c : is_ascii_byte (byte_lower c) = is_ascii_byte c.
Proof. destruct c as [[] [] [] [] [] [] [] []]; reflexivity. Qed.

Lemma string_map_id f s : (∀ c, f c = c) → string_map f s = s.
Proof. intros Hf. induction s as [|c s IH]; simpl; [done|]. by rewrite Hf, IH. Qed.

Lemma string_map_comp f g s : string_map f (string_map g s) = string_map (λ c, f (g c)) s.
Proof. induction s as [|c s IH]; simpl; [done|]. by rewrite IH. Qed.

Lemma string_map_ext f g s : (∀ c, f c = g c) → string_map f s = string_map g s.
Proof. intros Hf. induction s as [|c s IH]; simpl; [done|]. by rewrite Hf, IH. Qed.

Lemma string_map_length f s : String.length (string_map f s) = String.length s.
Proof. induction s as [|c s IH]; simpl; congruence. Qed.

Lemma string_forallb_map f g s :
  string_forallb f (string_map g s) = string_forallb (λ c, f (g c)) s.
Proof. induction s as [|c s IH]; simpl; [done|]. by rewrite IH. Qed.

Lemma string_forallb_ext f g s : (∀ c, f c = g c) → string_forallb f s = string_forallb g s.
Proof. intros Hf. induction s as [|c s IH]; simpl; [done|]. by rewrite Hf, IH. Qed.

Lemma string_forallb_impl (f g : ascii → bool) s :
  (∀ c, f c = true → g c = true) → string_forallb f s = true → string_forallb g s = true.
Proof.
  intros Hf. induction s as [|c s IH]; simpl; [done|].
  rewrite !andb_true_iff. intros [? ?]; auto.
Qed.

Lemma string_forallb_app f s t :
  string_forallb f (s +:+ t) = string_forallb f s && string_forallb f t.
Proof. induction s as [|c s IH]; simpl; [done|]. by rewrite IH, andb_assoc. Qed.

Section case_mapping.
Context `{GoUnicode}.

Lemma to_upper_ascii s : is_ascii s = true → to_upper s = string_map byte_upper s.
Proof. unfold to_upper. by intros ->. Qed.
Lemma to_lower_ascii s : is_ascii s = true → to_lower s = string_map byte_lower s.
Proof. unfold to_lower. by intros ->. Qed.

Lemma is_ascii_to_lower s : is_ascii s = true → is_ascii (to_lower s) = true.
Proof.
  intros Hs. rewrite to_lower_ascii by done. unfold is_ascii in *.
  rewrite string_forallb_map, (string_forallb_ext _ is_ascii_byte); [done|].
  apply byte_lower_ascii.
Qed.

Lemma to_lower_idemp s : is_ascii s = true → to_lower (to_lower s) = to_lower s.
Proof.
  intros Hs. rewrite (to_lower_ascii (to_lower s)) by by apply is_ascii_to_lower.
  rewrite !to_lower_ascii by done. rewrite string_map_comp.
  apply string_map_ext, byte_lower_idemp.
Qed.

Lemma is_ascii_to_upper s : is_ascii s = true → is_ascii (to_upper s) = true.
Proof.
  intros Hs. rewrite to_upper_ascii by done. unfold is_ascii in *.
  rewrite string_forallb_map, (string_forallb_ext _ is_ascii_byte); [done|].
  apply byte_upper_ascii.
Qed.

Lemma to_upper_idemp s : is_ascii s = true → to_upper (to_upper s) = to_upper s.
Proof.
  intros Hs. rewrite (to_upper_ascii (to_upper s)) by by apply is_ascii_to_upper.
  rewrite !to_upper_ascii by done. rewrite string_map_comp.
  apply string_map_ext, byte_upper_idemp.
Qed.

Lemma to_lower_length s : is_ascii s = true → String.length (to_lower s) = String.length s.
Proof. intros. by rewrite to_lower_ascii, string_map_length. Qed.
End case_mapping.

Lemma split_not_nil sep s : split sep s ≠ [].
Proof. induction s as [|c s IH]; simpl; [done|]. go_cases; done. Qed.

Lemma string_app_empty_r (s : string) : s +:+ "" = s.
Proof. induction s as [|c s IH]; simpl; [done|]. by rewrite IH. Qed.

Lemma join_cons sep p ps : ps ≠ [] → join sep (p :: ps) = p +:+ sep +:+ join sep ps.
Proof. by destruct ps. Qed.

(** [strings.Join(strings.Split(s, sep), sep) = s]. *)
Lemma join_split sep s : join (String sep "") (split sep s) = s.
Proof.
  induction s as [|c s IH]; [done|]. cbn [split].
  destruct (bool_decide (c = sep)) eqn:E; breflect; subst.
  - rewrite join_cons by apply split_not_nil. simpl. by rewrite IH.
  - destruct (split sep s) as [|p [|q ps]] eqn:Hs; simpl in *; [by destruct (split_not_nil sep s)|..];
      by rewrite IH.
Qed.

Lemma split_byte_free sep s : contains_byte sep s = false → split sep s = [s].
Proof.
  unfold contains_byte. induction s as [|c s IH]; [done|]. cbn [split string_forallb].
  intros H%negb_false_iff. apply andb_true_iff in H as [H1 H2].
  apply negb_true_iff, bool_decide_eq_false in H1.
  rewrite bool_decide_eq_false_2 by congruence. rewrite IH; [done|]. by rewrite H2.
Qed.

Lemma split_app sep s t :
  contains_byte sep s = false → split sep (s +:+ String sep t) = s :: split sep t.
Proof.
  unfold contains_byte. induction s as [|c s IH]; cbn [split string_forallb].
  - intros _. simpl. by rewrite bool_decide_eq_true_2.
  - intros H%negb_false_iff. apply andb_true_iff in H as [H1 H2].
    apply negb_true_iff, bool_decide_eq_false in H1. simpl.
    rewrite bool_decide_eq_false_2 by congruence. rewrite IH; [done|]. by rewrite H2.
Qed.

Lemma split_app_any sep s t : split sep (s +:+ String sep t) = split sep s ++ split sep t.
Proof.
  induction s as [|c s IH]; cbn [split append].
  - by rewrite bool_decide_eq_true_2.
  - destruct (bool_decide (c = sep)); [by rewrite IH|].
    destruct (split sep s) as [|p ps] eqn:E; [by destruct (split_not_nil sep s)|].
    by rewrite IH.
Qed.

(** [strings.Split] undoes [strings.Join] on parts free of the separator. *)
Lemma split_join sep l :
  l ≠ [] → Forall (λ p, contains_byte sep p = false) l → split sep (join (String sep "") l) = l.
Proof.
  intros Hne Hl. induction Hl as [|p ps Hp Hps IH]; [done|].
  destruct (decide (ps = [])) as [->|Hps'].
  - by apply split_byte_free.
  - rewrite join_cons by done. simpl. rewrite split_app by done. by rewrite IH.
Qed.

(** No part of a split contains the separator. *)
Lemma split_free sep s : Forall (λ p, contains_byte sep p = false) (split sep s).
Proof.
  induction s as [|c s IH]; cbn [split]; [by repeat constructor|].
  destruct (bool_decide (c = sep)) eqn:E; breflect; [by constructor|].
  destruct (split sep s) as [|p ps] eqn:Hs; [by destruct (split_not_nil sep s)|].
  inversion IH as [|? ? Hp Hps]; subst. constructor; [|done].
  unfold contains_byte in *. simpl. rewrite bool_decide_eq_false_2 by congruence. done.
Qed.

Lemma string_app_length (s t : string) :
  String.length (s +:+ t) = String.length s + String.length t.
Proof. induction s as [|c s IH]; simpl; congruence. Qed.

#[export] Hint Resolve split_not_nil split_free : gm.

Lemma string_app_assoc (s t u : string) : (s +:+ t) +:+ u = s +:+ (t +:+ u).
Proof. induction s as [|c s IH]; simpl; [done|]. by rewrite IH. Qed.

(** [strings.LastIndex(s, sep)] for one byte: what stands before and behind it. *)
Fixpoint last_index (sep : ascii) (s : string) : option (string * string) :=
  match s with
  | "" => None
  | String c rest =>
      match last_index sep rest with
      | Some (a, b) => Some (String c a, b)
      | None => if bool_decide (c = sep) then Some ("", rest) else None
      end
  end.

(** [strings.IndexByte]: what stands before and behind the first [sep]. *)
Fixpoint first_index (sep : ascii) (s : string) : option (string * string) :=
  match s with
  | "" => None
  | String c rest =>
      if bool_decide (c = sep) then Some ("", rest)
      else match first_index sep rest with
           | Some (a, b) => Some (String c a, b)
           | None => None
           end
  end.

Lemma last_index_none sep s : contains_byte sep s = false → last_index sep s = None.
Proof.
  unfold contains_byte. induction s as [|c s IH]; [done|]. cbn [string_forallb last_index].
  intros Hc. apply negb_false_iff, andb_true_iff in Hc as [Hc Hs].
  rewrite IH by (by apply negb_false_iff). apply negb_true_iff, bool_decide_eq_false in Hc.
  by rewrite bool_decide_eq_false_2 by congruence.
Qed.

Lemma last_index_app sep a b : contains_byte sep b = false → last_index sep (a +:+ String sep b) = Some (a, b).
Proof.
  intros Hb. induction a as [|c a IH].
  - cbn [append last_index]. rewrite last_index_none by done. by rewrite bool_decide_eq_true_2.
  - change (String c a +:+ String sep b) with (String c (a +:+ String sep b)). cbn [last_index]. by rewrite IH.
Qed.

Lemma string_rev_cons c s : string_rev (String c s) = string_rev s +:+ String c "".
Proof.
  unfold string_rev. cut (∀ acc, rev_append s acc = rev_append s "" +:+ acc); [intros E; apply E|].
  induction s as [|d s IH]; intros acc; simpl; [done|]. rewrite IH, (IH (String d "")).
  by rewrite string_app_assoc.
Qed.

Lemma string_rev_app s t : string_rev (s +:+ t) = string_rev t +:+ string_rev s.
Proof.
  induction s as [|c s IH]; [by rewrite string_app_empty_r|].
  change (String c s +:+ t) with (String c (s +:+ t)). rewrite !string_rev_cons, IH.
  by rewrite string_app_assoc.
Qed.

Lemma string_rev_involutive s : string_rev (string_rev s) = s.
Proof. induction s as [|c s IH]; [done|]. by rewrite string_rev_cons, string_rev_app, IH. Qed.

Lemma has_prefix_iff p s : has_prefix p s = true ↔ ∃ r, s = p +:+ r.
Proof.
  revert s. induction p as [|c p IH]; intros s; simpl; [naive_solver|].
  destruct s as [|d s]; [split; [done|naive_solver]|].
  rewrite andb_true_iff, bool_decide_eq_true, IH. split; [naive_solver|].
  intros [r ?]. simplify_eq. eauto.
Qed.

Lemma has_suffix_iff p s : has_suffix p s = true ↔ ∃ r, s = r +:+ p.
Proof.
  unfold has_suffix. rewrite has_prefix_iff. split; intros [r Hr].
  - exists (string_rev r). rewrite <- (string_rev_involutive s), Hr, string_rev_app.
    by rewrite string_rev_involutive.
  - exists (string_rev r). by rewrite Hr, string_rev_app.
Qed.

Lemma take_bytes_length n s : (n <= String.length s)%nat → String.length (take_bytes n s) = n.
Proof.
  revert n. induction s as [|c s IH]; intros [|n] Hn; simpl in *; try done; [lia|]. by rewrite IH by lia.
Qed.

Lemma take_bytes_exact s t : take_bytes (String.length s) (s +:+ t) = s.
Proof. induction s as [|c s IH]; simpl; [by destruct t|]. by rewrite IH. Qed.

Lemma trim_suffix_app s p : trim_suffix (s +:+ p) p = s.
Proof.
  unfold trim_suffix. rewrite (proj2 (has_suffix_iff _ _)) by eauto.
  rewrite string_app_length, Nat.add_sub. apply take_bytes_exact.
Qed.

Lemma trim_suffix_none s p : has_suffix p s = false → trim_suffix s p = s.
Proof. unfold trim_suffix. by intros ->. Qed.

Lemma string_app_inj_r (s t p : string) : s +:+ p = t +:+ p → s = t.
Proof. intros E. rewrite <- (trim_suffix_app s p), E. apply trim_suffix_app. Qed.

Lemma trim_prefix_app p s : trim_prefix (p +:+ s) p = s.
Proof.
  unfold trim_prefix. rewrite (proj2 (has_prefix_iff _ _)) by eauto.
  induction p as [|c p IH]; [by destruct s|done].
Qed.

Lemma first_index_app sep a b : contains_byte sep a = false → first_index sep (a +:+ String sep b) = Some (a, b).
Proof.
  unfold contains_byte. induction a as [|c a IH].
  - intros _. cbn [append first_index]. by rewrite bool_decide_eq_true_2.
  - cbn [string_forallb]. intros Hc. apply negb_false_iff, andb_true_iff in Hc as [Hc Ha].
    apply negb_true_iff, bool_decide_eq_false in Hc.
    change (String c a +:+ String sep b) with (String c (a +:+ String sep b)). cbn [first_index].
    rewrite bool_decide_eq_false_2 by congruence. by rewrite IH by (by apply negb_false_iff).
Qed.

(** *** Trimming a string whose ends are not trimmed *)

(** Does [s] start with a byte in [f], if it has one?  Does no string of [encs]? *)
Definition edge (f : ascii → bool) (s : string) : bool := match s with String c _ => f c | "" => true end.
Definition starts_out (f : ascii → bool) (encs : list string) : bool :=
  forallb (λ e, match e with String c _ => negb (f c) | "" => false end) encs.

Lemma trim_left_edge f encs s fuel : starts_out f encs = true → edge f s = true → trim_left_fuel encs fuel s = s.
Proof.
  intros He Hs. destruct fuel as [|fuel]; [done|]. cbn [trim_left_fuel].
  destruct (list_find _ encs) as [[i e]|] eqn:E; [|done]. exfalso.
  apply list_find_Some in E as (Hi & Hp & _). apply list_elem_of_lookup_2, list_elem_of_In in Hi.
  pose proof (proj1 (forallb_forall _ _) He e Hi) as Hc. simpl in Hc.
  destruct e as [|c e]; [done|]. apply has_prefix_iff in Hp as [r ->]. simpl in Hs. by rewrite Hs in Hc.
Qed.

Lemma trim_edges f encs s :
  starts_out f encs = true → starts_out f (map string_rev encs) = true →
  edge f s = true → edge f (string_rev s) = true → trim_with encs s = s.
Proof.
  intros H1 H2 H3 H4. unfold trim_with, trim_right, trim_left.
  rewrite (trim_left_edge f encs s) by done. rewrite (trim_left_edge f) by done. apply string_rev_involutive.
Qed.

Lemma string_forallb_rev f s : string_forallb f (string_rev s) = string_forallb f s.
Proof.
  induction s as [|c s IH]; [done|]. rewrite string_rev_cons, string_forallb_app, IH. simpl.
  by rewrite andb_true_r, andb_comm.
Qed.

Lemma forallb_edge f s : string_forallb f s = true → edge f s = true.
Proof. destruct s; [done|]. by intros [? _]%andb_true_iff. Qed.

(** Printable ASCII without the space. *)
Definition graphic (c : ascii) : bool := ((33 <=? byte_code c) && (byte_code c <=? 126))%N.

Lemma trim_space_edges s : edge graphic s = true → edge graphic (string_rev s) = true → trim_space s = s.
Proof. intros. apply (trim_edges graphic); done || (vm_compute; reflexivity). Qed.

Lemma trim_space_graphic s : string_forallb graphic s = true → trim_space s = s.
Proof. intros. apply trim_space_edges; apply forallb_edge; by rewrite ?string_forallb_rev. Qed.

(** ** Hosts and ports: [net.SplitHostPort] *)

(** The text of a [net.AddrError]. *)
Definition addr_error (hostport reason : string) : string :=
  if decide (hostport = "") then reason else "address " +:+ hostport +:+ ": " +:+ reason.

(** The error is the text of the Go error. *)
Definition SplitHostPort (hostport : string) : result (string * string) string :=
  let fail reason := Err (addr_error hostport reason) in
  match last_index ":" hostport with
  | None => fail "missing port in address"
  | Some (before, port) =>
      match hostport with
      | String "[" rest =>
          match first_index "]" rest with
          | None => fail "missing ']' in address"
          | Some (host, behind) =>
              if decide (behind = "") then fail "missing port in address"
              else if decide (behind = String ":" port) then
                if contains_byte "[" rest then fail "unexpected '[' in address"
                else if contains_byte "]" behind then fail "unexpected ']' in address"
                else Ok (host, port)
              else if has_prefix ":" behind then fail "too many colons in address"
              else fail "missing port in address"
          end
      | _ =>
          if contains_byte ":" before then fail "too many colons in address"
          else if contains_byte "[" hostport then fail "unexpected '[' in address"
          else if contains_byte "]" hostport then fail "unexpected ']' in address"
          else Ok (before, port)
      end
  end.

(** ** Decimal numbers: package [strconv] *)

Section decimal.
Local Open Scope Z_scope.

(** [strconv.Itoa] *)
Definition Itoa (n : Z) : string := pretty n.

Definition digit_value (c : ascii) : option Z :=
  if is_digit_byte c then Some (Z.of_N (byte_code c) - 48) else None.

(** The decimal number a non-empty string of digits stands for. *)
Fixpoint digits_from (acc : Z) (s : string) : option Z :=
  match s with
  | "" => Some acc
  | String c s => d ← digit_value c; digits_from (10 * acc + d) s
  end%string.
Definition digits (s : string) : option Z := if decide (s = "")%string then None else digits_from 0 s.

(** [strconv.Atoi], for numbers that fit. *)
Definition Atoi (s : string) : option Z :=
  match s with
  | String "-" r => Z.opp <$> digits r
  | String "+" r => digits r
  | _ => digits s
  end.

(** [strconv.Atoi] with its range check. *)
Definition Atoi64 (s : string) : option Z :=
  match Atoi s with
  | Some n => if (- 2 ^ 63 <=? n) && (n <? 2 ^ 63) then Some n else None
  | None => None
  end.

Lemma digits_pretty x : ∀ s, digits_from 0 (pretty_N_go x s) = digits_from (Z.of_N x) s.
Proof.
  induction (N.lt_wf_0 x) as [x _ IH]. intros s.
  destruct (decide (x = 0)%N) as [->|Hx]; [by rewrite pretty_N_go_0|].
  rewrite pretty_N_go_step by lia. rewrite IH by (apply N.div_lt; lia).
  cbn [digits_from].
  assert (Hc : digit_value (pretty_N_char (x `mod` 10)) = Some (Z.of_N (x `mod` 10))).
  { assert (x `mod` 10 < 10)%N as Hm by (apply N.mod_lt; lia). revert Hm.
    generalize (x `mod` 10)%N. intros y Hy.
    assert (y = 0 ∨ y = 1 ∨ y = 2 ∨ y = 3 ∨ y = 4 ∨ y = 5 ∨ y = 6 ∨ y = 7 ∨ y = 8 ∨ y = 9)%N as Hy' by lia.
    repeat (destruct Hy' as [->|Hy']; [done|]). by subst. }
  rewrite Hc. simpl. f_equal. pose proof (N.div_mod x 10 ltac:(lia)). lia.
Qed.

(** The text of a positive number starts with a digit. *)
Lemma pretty_head x : ∀ s, (0 < x)%N → ∃ n r, pretty_N_go x s = String (pretty_N_char n) r ∧ (n < 10)%N.
Proof.
  induction (N.lt_wf_0 x) as [x _ IH]. intros s Hx. rewrite pretty_N_go_step by done.
  destruct (decide (x / 10 = 0)%N) as [->|Hd].
  - rewrite pretty_N_go_0. eexists _, _. split; [done|]. apply N.mod_lt; lia.
  - apply IH; [apply N.div_lt; lia|]. by apply N.neq_0_lt_0.
Qed.

(** [Atoi] reads back what [Itoa] writes. *)
Lemma Atoi_Itoa n : 0 ≤ n < 2 ^ 63 → Atoi64 (Itoa n) = Some n ∧ Itoa n ≠ ""%string.
Proof.
  intros Hn. unfold Atoi64, Itoa. destruct n as [|p|p]; [by split|..]; [|lia].
  change (pretty (Z.pos p)) with (pretty_N_go (N.pos p) ""%string).
  destruct (pretty_head (N.pos p) ""%string ltac:(lia)) as (d & r & Hr & Hd).
  assert (Ha : Atoi (pretty_N_go (N.pos p) ""%string) = digits_from 0 (pretty_N_go (N.pos p) ""%string)).
  { rewrite Hr. unfold Atoi, digits.
    assert (d = 0 ∨ d = 1 ∨ d = 2 ∨ d = 3 ∨ d = 4 ∨ d = 5 ∨ d = 6 ∨ d = 7 ∨ d = 8 ∨ d = 9)%N as Hy by lia.
    repeat (destruct Hy as [->|Hy]; [done|]). by subst. }
  rewrite Ha, digits_pretty. cbn [digits_from].
  rewrite (proj2 (Z.leb_le _ _)), (proj2 (Z.ltb_lt _ _)) by lia. split; [done|]. by rewrite Hr.
Qed.
End decimal.
