(* ===== verification/Scoring.v ===== *)
(** * Package [scoring]: numeric score and letter grade of a run

    [scoring/config.go], [scoring/scoring.go], [scoring/bonus.go].  [float64] is
    IEEE binary64, computed by the Standard Library's [SpecFloat]; a Go map that the
    code ranges over comes with the order of iteration as an explicit argument; a
    nil dereference is the [None] of [option]. *)

From Stdlib Require Import SpecFloat.
From S2P Require Import Prelude GoStrings.

Local Open Scope string_scope.
Local Open Scope Z_scope.
Local Open Scope list_scope.

(** ** binary64 *)

Definition float64 : Type := spec_float.
Definition f_add : float64 → float64 → float64 := SFadd 53 1024.
Definition f_mul : float64 → float64 → float64 := SFmul 53 1024.
Definition f_div : float64 → float64 → float64 := SFdiv 53 1024.
Definition f_gt (x y : float64) : bool := SFltb y x.
(** Go's [float64(z)] for an integer [z]: round to nearest even. *)
Definition f_of_int (z : Z) : float64 := binary_normalize 53 1024 z 0 false.
(** The literal [n/d]: both are exact, so the rounded quotient is the nearest double. *)
Definition f_lit (n d : Z) : float64 := f_div (f_of_int n) (f_of_int d).

(** Truncation towards zero of a finite value. *)
Definition f_trunc (s : bool) (m : positive) (e : Z) : Z :=
  let v := if 0 <=? e then Z.pos m * 2 ^ e else Z.pos m / 2 ^ (- e) in
  if s then - v else v.

(** Go's [int(x)].  Outside the range of [int] the language leaves the result to the
    implementation: the parameter [oob]. *)
Definition f_to_int (oob : float64 → Z) (x : float64) : Z :=
  match x with
  | S754_zero _ => 0
  | S754_finite s m e =>
      let v := f_trunc s m e in
      if (- 2 ^ 63 <=? v) && (v <? 2 ^ 63) then v else oob x
  | _ => oob x
  end.

(** ** Configuration: [scoring/config.go] *)

Record GradeBand := { Grade : string; MinScore : Z }.

Record BonusCriteriaConfig := {
  NoWarningsOrErrors : bool;
  DNSSECEnabled : bool;
  StrongAlgorithm : bool;
  NSEC3NonOptout : bool;
  CDSCDNSKEYPublished : bool;
  IPv6AllNameservers : bool;
  ASDiversity : bool
}.

Record Config := {
  SeverityPenalties : gmap string Z;
  CategoryWeights : gmap string float64;
  ModuleCategories : gmap string string;
  TagPenalties : gmap string Z;
  GradeBands : list GradeBand;
  BonusCriteria : BonusCriteriaConfig
}.

(** The retired tags and their current names, in the order of the source. *)
Definition renamedTags : list (string * string) :=
  [ ("IN_BAILIWICK_ADDR_MISMATCH", "IN_DOMAIN_ADDR_MISMATCH");
    ("OUT_OF_BAILIWICK_ADDR_MISMATCH", "NOT_IN_DOMAIN_ADDR_MISMATCH");
    ("IN_BAILIWICK_GLUE_MISSING", "IN_DOMAIN_GLUE_MISSING") ].

Definition migrate_tag (penalties : gmap string Z) (p : string * string) : gmap string Z :=
  let '(old, current) := p in
  match penalties !! old with
  | None => penalties
  | Some penalty =>
      let penalties := delete old penalties in
      match penalties !! current with
      | None => <[current := penalty]> penalties
      | Some _ => penalties
      end
  end.

(** [order] is the order in which the loop ranges over [renamedTags]. *)
Definition migrateRenamedTags (order : list (string * string)) (penalties : gmap string Z)
  : gmap string Z := foldl migrate_tag penalties order.

Definition default_weights : list (string * float64) :=
  [ ("dnssec", f_lit 15 10); ("nameserver_health", f_lit 12 10);
    ("connectivity", f_lit 1 1); ("zone_consistency", f_lit 8 10) ].

Definition DefaultConfig : Config := {|
  SeverityPenalties :=
    list_to_map [("NOTICE", 1); ("WARNING", 5); ("ERROR", 20); ("CRITICAL", 0)];
  CategoryWeights := list_to_map default_weights;
  ModuleCategories :=
    list_to_map
      [ ("DNSSEC", "dnssec"); ("NAMESERVER", "nameserver_health");
        ("BASIC", "nameserver_health"); ("DELEGATION", "nameserver_health");
        ("CONNECTIVITY", "connectivity"); ("ADDRESS", "connectivity");
        ("CONSISTENCY", "zone_consistency"); ("ZONE", "zone_consistency");
        ("SYNTAX", "zone_consistency") ];
  TagPenalties :=
    list_to_map
      [ ("CN05_ANSWER_NEEDS_TCP", 0); ("DS07_NOT_SIGNED", 20);
        ("DS07_NO_DS_FOR_SIGNED_ZONE", 20);
        ("DS02_RSA_EXPONENT_UNSUPPORTED", 0); ("DS08_RSA_EXPONENT_UNSUPPORTED", 0);
        ("DS09_RSA_EXPONENT_UNSUPPORTED", 0); ("DNSKEY_RSA_EXPONENT_LARGE", 0);
        ("DS19_BLOCKLIST_NOT_FOUND", 0);
        ("NO_IPV6_NS_CHILD", 20); ("NO_IPV6_NS_DEL", 20);
        ("N15_SOFTWARE_VERSION", 0); ("N16_HAS_NSID", 0);
        ("N18_EXTENDED_ERROR_REPORTED", 0); ("N18_FILTERED_RESPONSE", 0);
        ("N18_NO_EXTENDED_ERROR", 0); ("N18_NO_RESPONSE", 0);
        ("N18_RESOLVER_BEHAVIOR_REPORTED", 0); ("N18_SERVER_ERROR_REPORTED", 0);
        ("Z11_SPF_UNKNOWN_MODIFIER", 0); ("Z13_SPF_MACRO_TARGET", 0) ];
  GradeBands :=
    [ {| Grade := "A"; MinScore := 90 |}; {| Grade := "B"; MinScore := 75 |};
      {| Grade := "C"; MinScore := 60 |}; {| Grade := "D"; MinScore := 40 |};
      {| Grade := "F"; MinScore := 0 |} ];
  BonusCriteria :=
    {| NoWarningsOrErrors := true; DNSSECEnabled := true; StrongAlgorithm := true;
       NSEC3NonOptout := true; CDSCDNSKEYPublished := true; IPv6AllNameservers := true;
       ASDiversity := true |}
|}.

(** ** Entries and results: [scoring/scoring.go] *)

Record Entry := { Module : string; Tag : string; Level : string }.

Record CategoryResult := { Score : Z; Penalties : Z; EntryCount : Z; Tested : bool }.

(** A criterion is [*bool]: [None] is the nil pointer, "not applicable". *)
Record BonusResult := { Eligible : bool; Criteria : gmap string (option bool) }.

Record Result := {
  RScore : Z;
  RGrade : string;
  Categories : gmap string CategoryResult;
  Bonus : BonusResult;
  DisabledStacks : list string
}.

Record catAccum := {
  penalties : Z;
  entryCount : Z;
  totalEntries : Z;
  acc_hasCritical : bool
}.

Definition catAccum0 : catAccum :=
  {| penalties := 0; entryCount := 0; totalEntries := 0; acc_hasCritical := false |}.

(** The local variables of the loop over the entries. *)
Record scan := {
  cats : gmap string catAccum;
  hasCritical : bool;
  ipv4Disabled : bool;
  ipv6Disabled : bool
}.

Section scoring.
Context `{GoUnicode}.

Definition isTLDZone (domain : string) : bool :=
  let d := trim_suffix domain "." in negb (contains d ".").

(** [scoreToGrade]: the first band whose minimum the score reaches. *)
Fixpoint scoreToGrade (score : Z) (bands : list GradeBand) : string :=
  match bands with
  | [] => "F"
  | band :: bands' =>
      if MinScore band <=? score then Grade band else scoreToGrade score bands'
  end.

(** The override table first, then the severity table. *)
Definition entry_penalty (cfg : Config) (e : Entry) : option Z :=
  match TagPenalties cfg !! to_upper (Tag e) with
  | Some p => Some p
  | None => SeverityPenalties cfg !! to_upper (Level e)
  end.

Definition is_critical (e : Entry) : bool := bool_decide (to_upper (Level e) = "CRITICAL").

(** What one entry adds to the accumulator of its category. *)
Definition accumulate (cfg : Config) (e : Entry) (a : catAccum) : catAccum :=
  let a := {| penalties := penalties a; entryCount := entryCount a;
              totalEntries := wrap64 (totalEntries a + 1);
              acc_hasCritical := acc_hasCritical a || is_critical e |} in
  match entry_penalty cfg e with
  | None => a
  | Some p =>
      if p =? 0 then a
      else {| penalties := wrap64 (penalties a + p);
              entryCount := wrap64 (entryCount a + 1);
              totalEntries := totalEntries a; acc_hasCritical := acc_hasCritical a |}
  end.

(** One iteration of the loop over the entries; [None] is the nil dereference of
    [accum.totalEntries++] when the module's category has no weight. *)
Definition scan_entry (cfg : Config) (st : scan) (e : Entry) : option scan :=
  let tag := to_upper (Tag e) in
  let st := {| cats := cats st;
               hasCritical := hasCritical st || is_critical e;
               ipv4Disabled := ipv4Disabled st ||
                 bool_decide (tag ∈ ["IPV4_DISABLED"; "CN01_IPV4_DISABLED"]);
               ipv6Disabled := ipv6Disabled st ||
                 bool_decide (tag ∈ ["IPV6_DISABLED"; "CN01_IPV6_DISABLED"]) |} in
  match ModuleCategories cfg !! to_upper (Module e) with
  | None => Some st
  | Some cat =>
      match cats st !! cat with
      | None => None
      | Some a =>
          Some {| cats := <[cat := accumulate cfg e a]> (cats st);
                  hasCritical := hasCritical st;
                  ipv4Disabled := ipv4Disabled st; ipv6Disabled := ipv6Disabled st |}
      end
  end.

Definition scan0 (cfg : Config) : scan :=
  {| cats := (λ _, catAccum0) <$> CategoryWeights cfg;
     hasCritical := false; ipv4Disabled := false; ipv6Disabled := false |}.

(** The sub-score of a category. *)
Definition categoryResult (critical : bool) (a : catAccum) : CategoryResult :=
  let subScore := Z.max (wrap64 (100 - penalties a)) 0 in
  {| Score := if critical then 0 else subScore;
     Penalties := penalties a; EntryCount := entryCount a;
     Tested := 0 <? totalEntries a |}.

Definition weigh (critical : bool) (cs : gmap string catAccum)
    (sums : float64 * float64) (cw : string * float64) : float64 * float64 :=
  let '(weightedSum, totalWeight) := sums in
  let '(cat, weight) := cw in
  let a := default catAccum0 (cs !! cat) in
  (f_add weightedSum (f_mul (f_of_int (Score (categoryResult critical a))) weight),
   f_add totalWeight weight).

(** The weighted mean of the sub-scores, truncated and clamped.  [order] is the
    order in which the loop ranges over [CategoryWeights]. *)
Definition aggregate (oob : float64 → Z) (order : list (string * float64))
    (critical : bool) (cs : gmap string catAccum) : Z :=
  let '(weightedSum, totalWeight) :=
    foldl (weigh critical cs) (S754_zero false, S754_zero false) order in
  let agg := if f_gt totalWeight (S754_zero false)
             then f_to_int oob (f_div weightedSum totalWeight) else 0 in
  let agg := if 100 <? agg then 100 else agg in
  let agg := if agg <? 0 then 0 else agg in
  if critical && (10 <? agg) then 10 else agg.

(** ** A+ criteria: [scoring/bonus.go] *)

(** The [map[string]bool] of tags, as the set of its true keys. *)
Definition tag_set (entries : list Entry) : gset string :=
  list_to_set ((λ e, to_upper (Tag e)) <$> entries).
Definition has_tag (tags : gset string) (t : string) : bool := bool_decide (t ∈ tags).

Definition noWarningsOrErrors (entries : list Entry) : bool :=
  forallb (λ e, negb (bool_decide (to_upper (Level e) ∈ ["WARNING"; "ERROR"; "CRITICAL"])))
    entries.

Definition dnssecEnabled (tags : gset string) : option bool :=
  if has_tag tags "DS07_SIGNED" then Some true else Some false.

Definition weakTags : list string :=
  ["DS05_ALGO_DEPRECATED"; "DS05_ALGO_NOT_RECOMMENDED"; "DS01_DS_ALGO_DEPRECATED"].

Definition strongAlgorithm (tags : gset string) : option bool :=
  if existsb (has_tag tags) weakTags then Some false
  else if has_tag tags "DS05_ALGO_OK" || has_tag tags "DS01_DS_ALGO_OK" then Some true
  else Some false.

Definition nsec3NonOptout (tags : gset string) : option bool :=
  if has_tag tags "DS03_NSEC3_OPT_OUT_ENABLED_TLD" then None
  else if has_tag tags "DS03_NSEC3_OPT_OUT_ENABLED_NON_TLD" then Some false
  else if has_tag tags "DS03_NSEC3_OPT_OUT_DISABLED" || has_tag tags "DS03_NO_NSEC3"
  then Some true
  else Some false.

Definition cdsPositives : list string :=
  ["DS15_HAS_CDS_AND_CDNSKEY"; "DS15_HAS_CDS_NO_CDNSKEY"; "DS15_HAS_CDNSKEY_NO_CDS"].

Definition cdsCDNSKEYPublished (domain : string) (tags : gset string) : option bool :=
  if isTLDZone domain then None
  else if existsb (has_tag tags) cdsPositives then Some true
  else if has_tag tags "DS18_NO_CDS_CDNSKEY_BUT_ROLLOVER_EVIDENCE" then None
  else Some false.

Definition ipv6AllNameservers (tags : gset string) : option bool :=
  if has_tag tags "IPV6_DISABLED" || has_tag tags "CN01_IPV6_DISABLED" then Some false
  else if has_tag tags "IPV6_ONE_ASN" || has_tag tags "IPV6_SAME_ASN"
          || has_tag tags "IPV6_DIFFERENT_ASN"
  then Some true
  else None.

Definition asDiversity (tags : gset string) : option bool :=
  if has_tag tags "IPV4_DIFFERENT_ASN" || has_tag tags "IPV6_DIFFERENT_ASN" then Some true
  else
    let hasIPv4Single := has_tag tags "IPV4_ONE_ASN" || has_tag tags "IPV4_SAME_ASN" in
    let hasIPv6Single := has_tag tags "IPV6_ONE_ASN" || has_tag tags "IPV6_SAME_ASN" in
    if hasIPv4Single || hasIPv6Single then Some false else Some false.

(** No criterion is an explicit [false]; the loop ranges over the map. *)
Definition allCriteriaMet (criteria : gmap string (option bool)) : bool :=
  forallb (λ kv, match kv.2 with None => true | Some b => b end) (map_to_list criteria).

Definition criterion (on : bool) (name : string) (v : option bool)
    (m : gmap string (option bool)) : gmap string (option bool) :=
  if on then <[name := v]> m else m.

Definition evaluateBonus (domain : string) (entries : list Entry) (score : Z)
    (cfg : BonusCriteriaConfig) : BonusResult :=
  let tags := tag_set entries in
  let criteria : gmap string (option bool) := ∅ in
  let criteria := criterion (NoWarningsOrErrors cfg) "no_warnings_or_errors"
                    (Some (noWarningsOrErrors entries)) criteria in
  let criteria := criterion (DNSSECEnabled cfg) "dnssec_enabled"
                    (dnssecEnabled tags) criteria in
  let criteria := criterion (StrongAlgorithm cfg) "strong_algorithm"
                    (strongAlgorithm tags) criteria in
  let criteria := criterion (NSEC3NonOptout cfg) "nsec3_non_optout"
                    (nsec3NonOptout tags) criteria in
  let criteria := criterion (CDSCDNSKEYPublished cfg) "cds_cdnskey_published"
                    (cdsCDNSKEYPublished domain tags) criteria in
  let criteria := criterion (IPv6AllNameservers cfg) "ipv6_all_nameservers"
                    (ipv6AllNameservers tags) criteria in
  let criteria := criterion (ASDiversity cfg) "as_diversity"
                    (asDiversity tags) criteria in
  {| Eligible := (score =? 100) && allCriteriaMet criteria; Criteria := criteria |}.

(** ** [Compute] *)

Definition finish (oob : float64 → Z) (order : list (string * float64))
    (domain : string) (entries : list Entry) (cfg : Config) (st : scan) : Result :=
  let agg := aggregate oob order (hasCritical st) (cats st) in
  let grade := scoreToGrade agg (GradeBands cfg) in
  let bonus := evaluateBonus domain entries agg (BonusCriteria cfg) in
  {| RScore := agg;
     RGrade := if Eligible bonus then "A+" else grade;
     Categories := categoryResult (hasCritical st) <$> cats st;
     Bonus := bonus;
     DisabledStacks := (if ipv4Disabled st then ["ipv4"] else [])
                       ++ (if ipv6Disabled st then ["ipv6"] else []) |}.

Definition Compute (oob : float64 → Z) (order : list (string * float64))
    (domain : string) (entries : list Entry) (cfg : Config) : option Result :=
  match foldM (scan_entry cfg) (scan0 cfg) entries with
  | None => None
  | Some st => Some (finish oob order domain entries cfg st)
  end.
End scoring.

(** * Properties *)

Section properties.
Context `{GoUnicode}.
Implicit Types (cfg : Config) (e : Entry) (es : list Entry) (st : scan).

(** ** The loop over the entries *)

(** The entries whose module feeds category [cat]. *)
Definition in_category cfg (cat : string) e : bool :=
  bool_decide (ModuleCategories cfg !! to_upper (Module e) = Some cat).
Definition category_entries cfg (cat : string) es : list Entry :=
  List.filter (in_category cfg cat) es.

(** An entry whose module maps to a category without a weight. *)
Definition orphan cfg e : Prop :=
  ∃ cat, ModuleCategories cfg !! to_upper (Module e) = Some cat
         ∧ CategoryWeights cfg !! cat = None.

Lemma scan_entry_dom cfg st e st' :
  scan_entry cfg st e = Some st' → dom (cats st') = dom (cats st).
Proof.
  unfold scan_entry. intros Hs. go_cases_in Hs; simpl; try done.
  rewrite dom_insert_L. apply elem_of_dom_2 in Heqo0. set_solver.
Qed.

Lemma scan_dom cfg st es st' :
  foldM (scan_entry cfg) st es = Some st' → dom (cats st') = dom (cats st).
Proof.
  intros Hs. eapply (foldM_inv _ (λ x, dom (cats x) = dom (cats st))); [|done|exact Hs].
  intros x e y Hx Hy. by rewrite (scan_entry_dom _ _ _ _ Hy).
Qed.

Lemma scan_entry_None cfg st e :
  scan_entry cfg st e = None ↔
  ∃ cat, ModuleCategories cfg !! to_upper (Module e) = Some cat ∧ cats st !! cat = None.
Proof. unfold scan_entry. simpl. split; [intros Hs; go_cases_in Hs; eauto|]. intros (cat&->&->). done. Qed.

Lemma scan_None cfg st es :
  foldM (scan_entry cfg) st es = None ↔
  ∃ e cat, e ∈ es ∧ ModuleCategories cfg !! to_upper (Module e) = Some cat
           ∧ cat ∉ dom (cats st).
Proof.
  revert st. induction es as [|e es IH]; intros st; simpl.
  { split; [done|]. intros (e&cat&He&_). set_solver. }
  destruct (scan_entry cfg st e) as [st'|] eqn:Hs.
  - rewrite IH, (scan_entry_dom _ _ _ _ Hs). split; intros (e'&cat&He&Hm&Hd); exists e', cat.
    + set_solver.
    + apply elem_of_cons in He as [->|He]; [|done].
      assert (Hn : scan_entry cfg st e = None) by
        (apply scan_entry_None; exists cat; split; [done|by apply not_elem_of_dom]).
      congruence.
  - apply scan_entry_None in Hs as (cat&Hm&Hn). split; [|done]. intros _.
    exists e, cat. split; [set_solver|]. split; [done|]. by apply not_elem_of_dom.
Qed.

Lemma scan0_dom cfg : dom (cats (scan0 cfg)) = dom (CategoryWeights cfg).
Proof. apply dom_fmap_L. Qed.

(** The accumulator of a category folds the entries of that category only. *)
Lemma scan_category cfg st es st' cat :
  foldM (scan_entry cfg) st es = Some st' →
  cats st' !! cat =
    (λ a, foldl (λ a e, accumulate cfg e a) a (category_entries cfg cat es)) <$> cats st !! cat.
Proof.
  revert st. induction es as [|e es IH]; intros st; simpl.
  { intros [= ->]. by destruct (cats st' !! cat). }
  destruct (scan_entry cfg st e) as [st1|] eqn:Hs; [|done].
  intros Hf. rewrite (IH _ Hf). unfold category_entries, in_category. simpl.
  unfold scan_entry in Hs. simpl in Hs.
  destruct (ModuleCategories cfg !! to_upper (Module e)) as [c|] eqn:Hm; simplify_eq/=.
  - destruct (cats st !! c) as [a|] eqn:Hc; simplify_eq/=.
    destruct (decide (c = cat)) as [->|Hne].
    + rewrite lookup_insert_eq, Hc, bool_decide_eq_true_2 by done. done.
    + rewrite lookup_insert_ne, bool_decide_eq_false_2 by congruence. done.
  - done.
Qed.

Lemma scan_critical cfg st es st' :
  foldM (scan_entry cfg) st es = Some st' →
  hasCritical st' = hasCritical st || existsb is_critical es.
Proof.
  revert st. induction es as [|e es IH]; intros st; simpl.
  { intros [= ->]. by rewrite orb_false_r. }
  destruct (scan_entry cfg st e) as [st1|] eqn:Hs; [|done].
  intros Hf. rewrite (IH _ Hf), orb_assoc. f_equal.
  unfold scan_entry in Hs. go_cases_in Hs; done.
Qed.

Lemma existsb_not_critical es :
  Forall (λ e, is_critical e = false) es → existsb is_critical es = false.
Proof. induction 1 as [|e es' He _ IH]; simpl; [done|]. by rewrite He. Qed.

Lemma accumulate_swap cfg e1 e2 a :
  accumulate cfg e2 (accumulate cfg e1 a) = accumulate cfg e1 (accumulate cfg e2 a).
Proof.
  unfold accumulate. go_cases; f_equal; try apply wrap64_swap;
    rewrite <- !orb_assoc; f_equal; apply orb_comm.
Qed.

Lemma scan_entry_swap cfg st e1 e2 :
  scan_entry cfg st e1 ≫= (λ s, scan_entry cfg s e2)
  = scan_entry cfg st e2 ≫= (λ s, scan_entry cfg s e1).
Proof.
  assert (Hor : ∀ a b c, (a || b || c) = (a || c || b))
    by (intros [] [] []; reflexivity).
  unfold scan_entry; simpl.
  destruct (ModuleCategories cfg !! to_upper (Module e1)) as [c1|];
  destruct (ModuleCategories cfg !! to_upper (Module e2)) as [c2|]; simpl.
  2,3: by go_cases; simplify_eq; f_equal; f_equal; apply Hor.
  2: by f_equal; f_equal; apply Hor.
  destruct (decide (c1 = c2)) as [->|Hne].
  - destruct (cats st !! c2) as [a|]; simpl; [|done].
    rewrite !lookup_insert_eq, !insert_insert_eq, accumulate_swap.
    f_equal; f_equal; apply Hor.
  - destruct (cats st !! c1) as [a1|] eqn:H1, (cats st !! c2) as [a2|] eqn:H2; simpl;
      rewrite ?lookup_insert_ne, ?H1, ?H2 by congruence; simpl;
      rewrite ?lookup_insert_ne, ?H1, ?H2 by congruence; try done.
    f_equal; f_equal; try apply Hor. by apply insert_insert_ne.
Qed.

Lemma tag_set_perm es1 es2 : es1 ≡ₚ es2 → tag_set es1 = tag_set es2.
Proof. intros HP. unfold tag_set. apply list_to_set_perm_L. by rewrite HP. Qed.

Lemma forallb_perm {A} (f : A → bool) l1 l2 : l1 ≡ₚ l2 → forallb f l1 = forallb f l2.
Proof.
  induction 1 as [|x l l' _ IH|x y l|]; simpl; try congruence.
  by rewrite !andb_assoc, (andb_comm (f x)).
Qed.

Lemma evaluateBonus_perm domain es1 es2 score bc :
  es1 ≡ₚ es2 → evaluateBonus domain es1 score bc = evaluateBonus domain es2 score bc.
Proof.
  intros HP. unfold evaluateBonus.
  by rewrite (tag_set_perm _ _ HP), (forallb_perm _ _ _ HP : noWarningsOrErrors _ = noWarningsOrErrors _).
Qed.

(** the result of a run, and whether scoring it panics, does not depend on the
    order in which the parallel test cases logged their entries. *)
Theorem compute_entry_order oob order domain es1 es2 cfg :
  es1 ≡ₚ es2 → Compute oob order domain es1 cfg = Compute oob order domain es2 cfg.
Proof.
  intros HP. unfold Compute.
  rewrite (foldM_perm _ (scan_entry_swap cfg) _ _ HP).
  destruct (foldM _ _ es2) as [st|]; [|done].
  unfold finish. by rewrite (evaluateBonus_perm _ _ _ _ _ HP).
Qed.

(** ** Panic freedom *)

(** [Compute] panics exactly when some entry's module maps to a category that
    has no weight; nothing in [LoadConfig] or in the settings handler excludes such
    a configuration. *)
Theorem compute_panics_iff oob order domain es cfg :
  Compute oob order domain es cfg = None ↔ Exists (orphan cfg) es.
Proof.
  unfold Compute. rewrite Exists_exists.
  destruct (foldM _ _ es) as [st|] eqn:Hs.
  - split; [done|]. intros (e&He&cat&Hm&Hw). exfalso.
    enough (foldM (scan_entry cfg) (scan0 cfg) es = None) by congruence.
    apply scan_None. exists e, cat. rewrite scan0_dom, not_elem_of_dom. done.
  - split; [|done]. intros _. apply scan_None in Hs as (e&cat&He&Hm&Hd).
    exists e. split; [done|]. exists cat. rewrite scan0_dom, not_elem_of_dom in Hd. done.
Qed.

(** ** Category sub-scores *)

(** The points an entry costs the category it belongs to. *)
Definition points cfg e : Z := default 0 (entry_penalty cfg e).

Lemma accumulate_penalties cfg e a :
  int64_ok (penalties a) →
  penalties (accumulate cfg e a) = wrap64 (penalties a + points cfg e).
Proof.
  intros Ha. unfold accumulate, points.
  destruct (entry_penalty cfg e) as [p|]; simpl; [destruct (Z.eqb_spec p 0) as [->|]; simpl|];
    try done; by rewrite Z.add_0_r, wrap64_id.
Qed.

Lemma accumulate_all_penalties cfg l a :
  int64_ok (penalties a) →
  penalties (foldl (λ a e, accumulate cfg e a) a l)
    = wrap64 (penalties a + zsum (map (points cfg) l)).
Proof.
  revert a. induction l as [|e l IH]; intros a Ha; simpl.
  - by rewrite Z.add_0_r, wrap64_id.
  - rewrite IH; rewrite accumulate_penalties by done; [|auto with gm].
    rewrite wrap64_add_l. f_equal. lia.
Qed.

Lemma compute_Some oob order domain es cfg r :
  Compute oob order domain es cfg = Some r →
  ∃ st, foldM (scan_entry cfg) (scan0 cfg) es = Some st
        ∧ r = finish oob order domain es cfg st.
Proof. unfold Compute. destruct (foldM _ _ es) eqn:?; naive_solver. Qed.

(** Every weighted category has a result, computed from its own entries alone. *)
Lemma compute_category oob order domain es cfg r cat :
  Compute oob order domain es cfg = Some r →
  Categories r !! cat =
    (λ _, categoryResult (existsb is_critical es)
            (foldl (λ a e, accumulate cfg e a) catAccum0 (category_entries cfg cat es)))
    <$> CategoryWeights cfg !! cat.
Proof.
  intros (st&Hs&->)%compute_Some. simpl. rewrite lookup_fmap.
  rewrite (scan_category _ _ _ _ cat Hs), (scan_critical _ _ _ _ Hs). simpl.
  rewrite lookup_fmap. by destruct (CategoryWeights cfg !! cat).
Qed.

(** the sub-score of every weighted category of a run without CRITICAL entries
    is [max (0, 100 - sum of the points of its own entries)], computed in 64-bit
    arithmetic; it lies in [0, 100] as long as no penalty is negative and the sum
    does not overflow. *)
Theorem category_subscore oob order domain es cfg r cat w :
  Compute oob order domain es cfg = Some r →
  CategoryWeights cfg !! cat = Some w →
  Forall (λ e, is_critical e = false) es →
  ∃ c, Categories r !! cat = Some c
    ∧ Penalties c = wrap64 (zsum (map (points cfg) (category_entries cfg cat es)))
    ∧ Score c = Z.max (wrap64 (100 - Penalties c)) 0
    ∧ (Forall (λ e, 0 <= points cfg e) es →
       zsum (map (points cfg) (category_entries cfg cat es)) < 2 ^ 63 →
       0 <= Score c <= 100
       ∧ Penalties c = zsum (map (points cfg) (category_entries cfg cat es))).
Proof.
  intros Hc Hw Hcrit. eexists. split; [by rewrite (compute_category _ _ _ _ _ _ _ Hc), Hw|].
  rewrite (existsb_not_critical _ Hcrit). simpl. set (l := category_entries cfg cat es).
  rewrite accumulate_all_penalties by (unfold int64_ok; simpl; lia). simpl.
  split; [done|]. split; [done|]. intros Hpos Hlt.
  assert (0 <= zsum (map (points cfg) l)).
  { apply zsum_nonneg, Forall_map. unfold l, category_entries.
    rewrite Forall_forall in Hpos |- *. intros e He. apply Hpos.
    rewrite list_elem_of_In in He |- *. by apply filter_In in He as [? _]. }
  rewrite !wrap64_id by (unfold int64_ok in *; rewrite ?wrap64_id; unfold int64_ok; lia). lia.
Qed.

(** ** The aggregate *)

Lemma aggregate_bounds oob order critical cs :
  0 <= aggregate oob order critical cs <= if critical then 10 else 100.
Proof.
  unfold aggregate. destruct (foldl _ _ order) as [ws tw].
  set (a := if f_gt tw _ then _ else 0). clearbody a.
  destruct (Z.ltb_spec 100 a); [rewrite (proj2 (Z.ltb_ge 100 0)) by lia|destruct (Z.ltb_spec a 0)];
    destruct critical; simpl; try (destruct (Z.ltb_spec 10 a)); simpl; lia.
Qed.

Lemma aggregate_ext oob order critical cs1 cs2 :
  Forall (λ cw, Score (categoryResult critical (default catAccum0 (cs1 !! cw.1)))
                = Score (categoryResult critical (default catAccum0 (cs2 !! cw.1)))) order →
  aggregate oob order critical cs1 = aggregate oob order critical cs2.
Proof.
  intros Ho. unfold aggregate.
  assert (Hf : ∀ s, foldl (weigh critical cs1) s order = foldl (weigh critical cs2) s order).
  { induction Ho as [|[cat w] o Hcw _ IH]; intros [ws tw]; simpl in *; [done|].
    rewrite Hcw. apply IH. }
  by rewrite Hf.
Qed.

(** [order] is one of the orders in which Go may range over the default weights. *)
Definition default_order (order : list (string * float64)) : Prop :=
  order ≡ₚ map_to_list (CategoryWeights DefaultConfig).

Lemma default_order_permutations order :
  default_order order ↔ order ∈ permutations default_weights.
Proof.
  unfold default_order. rewrite permutations_Permutation.
  change (CategoryWeights DefaultConfig)
    with (list_to_map (M := gmap string float64) default_weights).
  rewrite map_to_list_to_map; [done|].
  by apply (bool_decide_unpack _), I.
Qed.

(** A test that holds for all 24 orders of the default weights holds for each. *)
Lemma default_order_check (P : list (string * float64) → bool) order :
  forallb P (permutations default_weights) = true → default_order order → P order = true.
Proof.
  rewrite default_order_permutations, forallb_forall, list_elem_of_In. auto.
Qed.

(** Ten times the default weight of a category. *)
Definition weight10 (cat : string) : Z :=
  default 0 (list_to_map (M := gmap string Z)
    [("dnssec", 15); ("nameserver_health", 12); ("connectivity", 10); ("zone_consistency", 8)]
    !! cat).

(** The exact weighted mean, rounded down, when only [cat] lost points. *)
Definition single_mean (cat : string) (s : Z) : Z := (4500 - weight10 cat * (100 - s)) / 45.

(** The aggregate of a run without CRITICAL entries, as a function of the scored
    weights alone; the two sums of the loop do not interact. *)
Definition f_sum (l : list float64) : float64 := foldl f_add (S754_zero false) l.
Definition mean_of (oob : float64 → Z) (weightedSum totalWeight : float64) : Z :=
  let agg := if f_gt totalWeight (S754_zero false)
             then f_to_int oob (f_div weightedSum totalWeight) else 0 in
  let agg := if 100 <? agg then 100 else agg in
  if agg <? 0 then 0 else agg.
Definition product (sw : Z * float64) : float64 := f_mul (f_of_int sw.1) sw.2.
Definition mean (oob : float64 → Z) (l : list (Z * float64)) : Z :=
  mean_of oob (f_sum (product <$> l)) (f_sum (snd <$> l)).

Definition scored (sc : string → Z) (order : list (string * float64)) : list (Z * float64) :=
  (λ cw, (sc cw.1, cw.2)) <$> order.

Lemma aggregate_mean oob order cs sc :
  Forall (λ cw, Score (categoryResult false (default catAccum0 (cs !! cw.1))) = sc cw.1) order →
  aggregate oob order false cs = mean oob (scored sc order).
Proof.
  intros Ho. unfold aggregate, mean, f_sum.
  assert (Hf : ∀ a b, foldl (weigh false cs) (a, b) order =
    (foldl f_add a (product <$> scored sc order), foldl f_add b (snd <$> scored sc order))).
  { induction Ho as [|[cat w] o Hcw _ IH]; intros a b; [done|].
    cbn [foldl scored fmap list_fmap weigh fst snd] in *. rewrite Hcw. apply IH. }
  by rewrite Hf.
Qed.

(** The default weights in binary: 1.5, 1.2, 1.0 and 0.8. *)
Definition w_dnssec : float64 := S754_finite false 6755399441055744 (-52).
Definition w_health : float64 := S754_finite false 5404319552844595 (-52).
Definition w_conn : float64 := S754_finite false 4503599627370496 (-52).
Definition w_zone : float64 := S754_finite false 7205759403792794 (-53).

(** One category at [s], the others at 100, with ten times the weight of the former. *)
Definition single_rows (s : Z) : list (Z * list (Z * float64)) :=
  [ (15, [(s, w_dnssec); (100, w_health); (100, w_conn); (100, w_zone)]);
    (12, [(100, w_dnssec); (s, w_health); (100, w_conn); (100, w_zone)]);
    (10, [(100, w_dnssec); (100, w_health); (s, w_conn); (100, w_zone)]);
    (8, [(100, w_dnssec); (100, w_health); (100, w_conn); (s, w_zone)]) ].

#[local] Instance float64_eq_dec : EqDecision float64.
Proof. solve_decision. Defined.

(** The weighted sums of a row in all orders, the total weights, and the mean of each
    distinct sum. *)
Definition row_sums (row : Z * list (Z * float64)) : list float64 :=
  remove_dups (f_sum <$> permutations (product <$> row.2)).
Definition total_default : float64 := S754_finite false 5066549580791808 (-50).
Definition check_sum (oob : float64 → Z) (s w : Z) (x : float64) : bool :=
  mean_of oob x total_default =? (4500 - w * (100 - s)) / 45.
Definition check_row (oob : float64 → Z) (s : Z) (row : Z * list (Z * float64)) : bool :=
  forallb (check_sum oob s row.1) (row_sums row).
Definition check_score (oob : float64 → Z) (s : Z) : bool :=
  forallb (check_row oob s) (single_rows s).

Lemma check_score_true oob : forallb (check_score oob) (Z.of_nat <$> seq 0 101) = true.
Proof. vm_cast_no_check (eq_refl true). Qed.

Lemma default_totals :
  forallb (λ l, bool_decide (f_sum l = total_default)) (permutations (snd <$> default_weights))
  = true.
Proof. vm_cast_no_check (eq_refl true). Qed.

Lemma check_row_mean oob s row l :
  check_row oob s row = true → l ≡ₚ row.2 → f_sum (snd <$> l) = total_default →
  mean oob l = (4500 - row.1 * (100 - s)) / 45.
Proof.
  intros Hr Hl Ht. unfold mean. rewrite Ht. apply Z.eqb_eq. unfold check_row in Hr.
  refine (forallb_elem _ _ _ Hr _). unfold row_sums.
  apply elem_of_remove_dups, list_elem_of_fmap. eexists. split; [done|].
  apply permutations_Permutation. by rewrite Hl.
Qed.

Definition single_score (cat : string) (s : Z) (c : string) : Z :=
  if decide (c = cat) then s else 100.

Lemma single_row cat w s :
  (cat, w) ∈ default_weights →
  (weight10 cat, scored (single_score cat s) default_weights) ∈ single_rows s.
Proof.
  unfold default_weights at 1. rewrite !elem_of_cons, elem_of_nil.
  intros [Hx|[Hx|[Hx|[Hx|[]]]]]; apply (f_equal fst) in Hx; simpl in Hx; subst cat;
    [do 0 right|do 1 right|do 2 right|do 3 right]; left.
Qed.

Lemma single_category_mean oob order cat w s :
  default_order order → (cat, w) ∈ default_weights → 0 <= s <= 100 →
  mean oob (scored (single_score cat s) order) = single_mean cat s.
Proof.
  intros Ho Hc Hs. apply default_order_permutations, permutations_Permutation in Ho.
  unfold single_mean.
  apply (check_row_mean oob s (weight10 cat, scored (single_score cat s) default_weights)).
  - refine (forallb_elem _ _ _ _ (single_row cat w s Hc)).
    refine (forallb_elem (check_score oob) _ s (check_score_true oob) _).
    apply list_elem_of_fmap. exists (Z.to_nat s). rewrite elem_of_seq. lia.
  - unfold scored. cbn [snd]. by rewrite Ho.
  - refine (bool_decide_eq_true_1 _ (forallb_elem _ _ _ default_totals _)).
    apply permutations_Permutation. unfold scored. rewrite <- list_fmap_compose, Ho. done.
Qed.

Lemma critical_zero_table oob order :
  default_order order → (aggregate oob order true ∅ =? 0) = true.
Proof. apply (default_order_check (λ o, aggregate oob o true ∅ =? 0)). vm_compute. reflexivity. Qed.

(** the score is in [0, 100]; a CRITICAL entry caps it at 10, zeroes every
    sub-score and excludes A+; under the default configuration such a run scores 0
    with grade F, in every order of iteration. *)
Theorem critical_override oob order domain es cfg r :
  Compute oob order domain es cfg = Some r →
  0 <= RScore r <= 100
  ∧ (Exists (λ e, is_critical e = true) es →
     RScore r <= 10
     ∧ Eligible (Bonus r) = false
     ∧ map_Forall (λ _ c, Score c = 0) (Categories r)
     ∧ (cfg = DefaultConfig → default_order order → RScore r = 0 ∧ RGrade r = "F")).
Proof.
  intros (st&Hs&->)%compute_Some. simpl.
  pose proof (aggregate_bounds oob order (hasCritical st) (cats st)) as Hb.
  split; [destruct (hasCritical st); lia|].
  rewrite Exists_exists. intros (e&He&Hcr).
  assert (Hst : hasCritical st = true).
  { rewrite (scan_critical _ _ _ _ Hs). simpl. apply existsb_exists.
    exists e. by rewrite <- list_elem_of_In. }
  rewrite Hst in *. split; [lia|].
  assert (Hne : (aggregate oob order true (cats st) =? 100) = false) by (apply Z.eqb_neq; lia).
  split; [unfold evaluateBonus; simpl; by rewrite Hne|].
  split; [intros c x (a&<-&_)%lookup_fmap_Some; done|].
  intros -> Ho. unfold evaluateBonus. simpl. rewrite Hne. simpl.
  assert (Hz : aggregate oob order true (cats st) = 0).
  { rewrite (aggregate_ext _ _ _ _ ∅) by (by apply Forall_true).
    by apply Z.eqb_eq, critical_zero_table. }
  rewrite Hz. done.
Qed.
End properties.

Section results.
Context `{GoUnicode}.
Implicit Types (cfg : Config) (e : Entry) (es : list Entry) (st : scan).

(** The penalties a category has collected when the loop ends; a category without a
    weight has none. *)
Definition collected (cs : gmap string catAccum) (cat : string) : Z :=
  penalties (default catAccum0 (cs !! cat)).

Lemma scan_collected cfg es st cat w :
  foldM (scan_entry cfg) (scan0 cfg) es = Some st →
  CategoryWeights cfg !! cat = Some w →
  collected (cats st) cat = wrap64 (zsum (map (points cfg) (category_entries cfg cat es))).
Proof.
  intros Hs Hw. unfold collected. rewrite (scan_category _ _ _ _ cat Hs). simpl.
  rewrite lookup_fmap, Hw. simpl. rewrite accumulate_all_penalties; [done|].
  unfold int64_ok. simpl. lia.
Qed.

Lemma points_elsewhere cfg cat c es :
  c ≠ cat →
  Forall (λ e, in_category cfg cat e = false → points cfg e = 0) es →
  zsum (map (points cfg) (category_entries cfg c es)) = 0.
Proof.
  intros Hne Ho. unfold category_entries. induction Ho as [|e es' He _ IH]; simpl; [done|].
  destruct (in_category cfg c e) eqn:Hi; simpl; [|done].
  rewrite IH, He; [done|]. unfold in_category in *. breflect.
  apply bool_decide_eq_false. congruence.
Qed.

Lemma default_weight_lookup cat w :
  (cat, w) ∈ default_weights → CategoryWeights DefaultConfig !! cat = Some w.
Proof.
  intros Hc. change (CategoryWeights DefaultConfig)
    with (list_to_map (M := gmap string float64) default_weights).
  apply elem_of_list_to_map; [by apply (bool_decide_unpack _), I|done].
Qed.

Lemma single_mean_100 cat w s :
  (cat, w) ∈ default_weights → 0 <= s <= 100 → (single_mean cat s = 100 ↔ s = 100).
Proof.
  intros Hcat Hs. assert (Hw : 8 <= weight10 cat <= 15).
  { assert (Hall : Forall (λ cw : string * float64, 8 <= weight10 cw.1 <= 15) default_weights)
      by (by apply (bool_decide_unpack _), I).
    rewrite Forall_forall in Hall. exact (Hall _ Hcat). }
  unfold single_mean. split; [|intros ->; by rewrite Z.sub_diag, Z.mul_0_r].
  intros Hd. assert (4500 - weight10 cat * (100 - s) < 4500 → False); [|nia].
  intros Hlt. assert ((4500 - weight10 cat * (100 - s)) / 45 < 100); [|lia].
  apply Z.div_lt_upper_bound; lia.
Qed.

(** The penalties of a default run whose points all fall in [cat]. *)
Lemma single_collected es st cat w c :
  foldM (scan_entry DefaultConfig) (scan0 DefaultConfig) es = Some st →
  (cat, w) ∈ default_weights →
  Forall (λ e, in_category DefaultConfig cat e = false → points DefaultConfig e = 0) es →
  let lost := zsum (map (points DefaultConfig) (category_entries DefaultConfig cat es)) in
  0 <= lost < 2 ^ 63 →
  c ∈ default_weights.*1 →
  collected (cats st) c = if decide (c = cat) then lost else 0.
Proof.
  intros Hs Hcat Ho lost Hlost ([c' wc]&->&Hc)%list_elem_of_fmap. simpl.
  rewrite (scan_collected _ _ _ c' wc Hs) by by apply default_weight_lookup.
  case_decide as Hd; [subst; fold lost; apply wrap64_id; unfold int64_ok; lia|].
  rewrite (points_elsewhere _ _ _ _ Hd Ho). done.
Qed.

(** under the default configuration a run whose penalties all fall in one
    category scores exactly the weighted mean of the sub-scores, rounded down,
    whatever the order of iteration; it is 100 only when nothing was lost. *)
Theorem single_category_score oob order domain es r cat w :
  Compute oob order domain es DefaultConfig = Some r →
  default_order order →
  (cat, w) ∈ default_weights →
  Forall (λ e, is_critical e = false) es →
  Forall (λ e, in_category DefaultConfig cat e = false → points DefaultConfig e = 0) es →
  let lost := zsum (map (points DefaultConfig) (category_entries DefaultConfig cat es)) in
  0 <= lost < 2 ^ 63 →
  RScore r = single_mean cat (Z.max (100 - lost) 0)
  ∧ (RScore r = 100 ↔ lost = 0).
Proof.
  intros (st&Hs&->)%compute_Some Ho Hcat Hcrit Hother lost Hlost. simpl.
  rewrite (scan_critical _ _ _ _ Hs), (existsb_not_critical _ Hcrit). simpl.
  assert (Hagg : aggregate oob order false (cats st) = single_mean cat (Z.max (100 - lost) 0)).
  { rewrite <- (single_category_mean oob order cat w) by (done || lia).
    apply aggregate_mean, Forall_forall. intros [c wc] Hc. simpl.
    assert (Hc' : c ∈ default_weights.*1).
    { apply default_order_permutations, permutations_Permutation in Ho.
      rewrite Ho in *. apply list_elem_of_fmap. by exists (c, wc). }
    change (penalties (default catAccum0 (cats st !! c))) with (collected (cats st) c).
    rewrite (single_collected _ _ _ _ _ Hs Hcat Hother Hlost Hc'). unfold single_score.
    case_decide; fold lost; rewrite wrap64_id by (unfold int64_ok; lia); lia. }
  rewrite Hagg, (single_mean_100 _ w) by (done || lia). split; [done|lia].
Qed.

(** ** Order dependence of the aggregate *)

Definition repeat_entry (n : nat) (m l : string) : list Entry :=
  replicate n {| Module := m; Tag := "X"; Level := l |}.

(** Sub-scores 0, 72, 80, 17 under the default configuration. *)
Definition tie_entries : list Entry :=
  repeat_entry 5 "DNSSEC" "ERROR" ++
  repeat_entry 1 "NAMESERVER" "ERROR" ++ repeat_entry 1 "NAMESERVER" "WARNING" ++
  repeat_entry 3 "NAMESERVER" "NOTICE" ++
  repeat_entry 1 "ADDRESS" "ERROR" ++
  repeat_entry 4 "ZONE" "ERROR" ++ repeat_entry 3 "ZONE" "NOTICE".

Definition order_a : list (string * float64) := default_weights.
Definition order_b : list (string * float64) :=
  [ ("dnssec", f_lit 15 10); ("nameserver_health", f_lit 12 10);
    ("zone_consistency", f_lit 8 10); ("connectivity", f_lit 1 1) ].

Lemma tie_scores oob :
  (λ st, (aggregate oob order_a (hasCritical st) (cats st),
          aggregate oob order_b (hasCritical st) (cats st)))
    <$> foldM (scan_entry DefaultConfig) (scan0 DefaultConfig) tie_entries = Some (39, 40).
Proof. vm_compute. reflexivity. Qed.

(** the score of a run is not a function of its entries: floating point addition
    is not associative and Go randomises the order in which [Compute] ranges over the
    weights, so one and the same run scores 39 with grade F or 40 with grade D under
    the default configuration. *)
Theorem score_depends_on_map_order oob domain :
  default_order order_a ∧ default_order order_b
  ∧ (∃ r, Compute oob order_a domain tie_entries DefaultConfig = Some r
          ∧ RScore r = 39 ∧ RGrade r = "F")
  ∧ (∃ r, Compute oob order_b domain tie_entries DefaultConfig = Some r
          ∧ RScore r = 40 ∧ RGrade r = "D").
Proof.
  rewrite !default_order_permutations, !permutations_Permutation.
  split; [reflexivity|]. split; [do 2 apply perm_skip; apply perm_swap|].
  generalize (tie_scores oob). unfold Compute.
  generalize (foldM (scan_entry DefaultConfig) (scan0 DefaultConfig) tie_entries).
  intros [st|] Ht; [|discriminate]. apply (f_equal (from_option id (0, 0))) in Ht.
  cbn [from_option fmap option_fmap option_map id] in Ht. injection Ht as Ha Hb.
  split; eexists; (split; [reflexivity|]); unfold finish, evaluateBonus;
    cbn [RScore RGrade Eligible]; rewrite ?Ha, ?Hb; done.
Qed.

(** ** Grades *)

(** with bands in strictly descending order the grade is that of the highest band
    the score reaches, and F below all of them. *)
Theorem grade_of_highest_band score bands :
  StronglySorted (λ b1 b2, MinScore b2 < MinScore b1) bands →
  (∃ b, b ∈ bands ∧ scoreToGrade score bands = Grade b ∧ MinScore b <= score
        ∧ Forall (λ b', MinScore b' <= score → MinScore b' <= MinScore b) bands)
  ∨ (scoreToGrade score bands = "F" ∧ Forall (λ b, score < MinScore b) bands).
Proof.
  induction 1 as [|b bands _ IH Hb]; simpl; [right; done|].
  destruct (Z.leb_spec (MinScore b) score).
  - left. exists b. split; [set_solver|]. repeat split; [done|].
    constructor; [lia|]. eapply Forall_impl; [exact Hb|]. simpl. lia.
  - destruct IH as [(b'&Hin&Hg&Hm&Hall)|[Hg Hall]]; [left|right].
    + exists b'. split; [set_solver|]. repeat split; [done..|]. constructor; [lia|done].
    + split; [done|]. by constructor.
Qed.

(** ** A+ *)

Lemma allCriteriaMet_forall m : allCriteriaMet m = true ↔ map_Forall (λ _ v, (v ≠ Some false)) m.
Proof.
  unfold allCriteriaMet. rewrite forallb_forall, map_Forall_to_list, Forall_forall.
  setoid_rewrite list_elem_of_In.
  split; intros Hm [k v] Hk; specialize (Hm _ Hk); simpl in *; destruct v as [[]|]; done.
Qed.

Lemma allCriteriaMet_criterion name v m :
  m !! name = None →
  allCriteriaMet (criterion true name v m) = true ↔ (v ≠ Some false) ∧ allCriteriaMet m = true.
Proof. intros Hm. rewrite !allCriteriaMet_forall. simpl. by apply map_Forall_insert. Qed.

Lemma has_tag_true tags t : has_tag tags t = true ↔ t ∈ tags.
Proof. unfold has_tag. by rewrite bool_decide_eq_true. Qed.
Lemma has_tag_false tags t : has_tag tags t = false ↔ t ∉ tags.
Proof. unfold has_tag. by rewrite bool_decide_eq_false. Qed.

Lemma existsb_has_tag tags l : existsb (has_tag tags) l = true ↔ ∃ t, t ∈ l ∧ t ∈ tags.
Proof.
  rewrite existsb_exists. setoid_rewrite has_tag_true.
  by setoid_rewrite list_elem_of_In.
Qed.

(** What each criterion demands of the tags of a run. *)
Definition strong_ok (tags : gset string) : Prop :=
  (∀ t, t ∈ weakTags → t ∉ tags) ∧ ("DS05_ALGO_OK" ∈ tags ∨ "DS01_DS_ALGO_OK" ∈ tags).
Definition nsec3_ok (tags : gset string) : Prop :=
  "DS03_NSEC3_OPT_OUT_ENABLED_TLD" ∈ tags
  ∨ (("DS03_NSEC3_OPT_OUT_ENABLED_NON_TLD" ∉ tags)
     ∧ ("DS03_NSEC3_OPT_OUT_DISABLED" ∈ tags ∨ "DS03_NO_NSEC3" ∈ tags)).
Definition cds_ok (domain : string) (tags : gset string) : Prop :=
  isTLDZone domain = true ∨ (∃ t, t ∈ cdsPositives ∧ t ∈ tags)
  ∨ "DS18_NO_CDS_CDNSKEY_BUT_ROLLOVER_EVIDENCE" ∈ tags.

Ltac tag_cases :=
  repeat match goal with
  | |- context [has_tag ?s ?t] =>
      let Ht := fresh "Ht" in
      destruct (has_tag s t) eqn:Ht; [apply has_tag_true in Ht|apply has_tag_false in Ht]; simpl
  end.

Lemma dnssecEnabled_ok tags : (dnssecEnabled tags ≠ Some false) ↔ "DS07_SIGNED" ∈ tags.
Proof. unfold dnssecEnabled. tag_cases; naive_solver. Qed.

Lemma strongAlgorithm_ok tags : (strongAlgorithm tags ≠ Some false) ↔ strong_ok tags.
Proof.
  unfold strongAlgorithm, strong_ok.
  destruct (existsb (has_tag tags) weakTags) eqn:Hw.
  - apply existsb_has_tag in Hw as (t&?&?). naive_solver.
  - assert (∀ t, t ∈ weakTags → t ∉ tags).
    { intros t Hl Ht. enough (existsb (has_tag tags) weakTags = true) by congruence.
      apply existsb_has_tag; eauto. }
    tag_cases; naive_solver.
Qed.

Lemma nsec3NonOptout_ok tags : (nsec3NonOptout tags ≠ Some false) ↔ nsec3_ok tags.
Proof. unfold nsec3NonOptout, nsec3_ok. tag_cases; naive_solver. Qed.

Lemma cdsCDNSKEYPublished_ok domain tags :
  (cdsCDNSKEYPublished domain tags ≠ Some false) ↔ cds_ok domain tags.
Proof.
  unfold cdsCDNSKEYPublished, cds_ok. destruct (isTLDZone domain); [naive_solver|].
  destruct (existsb (has_tag tags) cdsPositives) eqn:Hw.
  - apply existsb_has_tag in Hw. naive_solver.
  - assert (¬ ∃ t, t ∈ cdsPositives ∧ t ∈ tags) by (rewrite <- existsb_has_tag; congruence).
    tag_cases; naive_solver.
Qed.

Lemma ipv6AllNameservers_ok tags :
  (ipv6AllNameservers tags ≠ Some false) ↔ ("IPV6_DISABLED" ∉ tags) ∧ ("CN01_IPV6_DISABLED" ∉ tags).
Proof. unfold ipv6AllNameservers. tag_cases; naive_solver. Qed.

Lemma asDiversity_ok tags :
  (asDiversity tags ≠ Some false) ↔ "IPV4_DIFFERENT_ASN" ∈ tags ∨ "IPV6_DIFFERENT_ASN" ∈ tags.
Proof. unfold asDiversity. tag_cases; naive_solver. Qed.

Lemma noWarningsOrErrors_ok es :
  (Some (noWarningsOrErrors es) ≠ Some false) ↔
  Forall (λ e, to_upper (Level e) ∉ ["WARNING"; "ERROR"; "CRITICAL"]) es.
Proof.
  unfold noWarningsOrErrors. induction es as [|e es IH]; simpl; [naive_solver|].
  rewrite Forall_cons, <- IH. destruct (bool_decide _) eqn:Hd; breflect; simpl; naive_solver.
Qed.

Lemma finish_aplus oob order domain es st :
  (RGrade (finish oob order domain es DefaultConfig st) = "A+") ↔
  Eligible (evaluateBonus domain es (aggregate oob order (hasCritical st) (cats st))
              (BonusCriteria DefaultConfig)) = true.
Proof.
  unfold finish. cbn [RGrade]. set (b := Eligible _). clearbody b.
  destruct b; [by split|]. split; [|done].
  unfold DefaultConfig. cbn [GradeBands scoreToGrade MinScore Grade].
  repeat case_match; intros; simplify_eq.
Qed.

(** under the default configuration a run earns A+ exactly when it scores 100,
    logged nothing at WARNING or above, the zone is signed with strong algorithms and
    no NSEC3 opt-out, publishes CDS or CDNSKEY (unless it is a TLD or in a rollover),
    IPv6 was not disabled, and its name servers span several AS. *)
Theorem aplus_iff oob order domain es r :
  Compute oob order domain es DefaultConfig = Some r →
  (RGrade r = "A+") ↔
    RScore r = 100
    ∧ Forall (λ e, to_upper (Level e) ∉ ["WARNING"; "ERROR"; "CRITICAL"]) es
    ∧ "DS07_SIGNED" ∈ tag_set es ∧ strong_ok (tag_set es) ∧ nsec3_ok (tag_set es)
    ∧ cds_ok domain (tag_set es)
    ∧ (("IPV6_DISABLED" ∉ tag_set es) ∧ ("CN01_IPV6_DISABLED" ∉ tag_set es))
    ∧ ("IPV4_DIFFERENT_ASN" ∈ tag_set es ∨ "IPV6_DIFFERENT_ASN" ∈ tag_set es).
Proof.
  intros (st&_&->)%compute_Some.
  set (agg := aggregate oob order (hasCritical st) (cats st)).
  rewrite (finish_aplus _ _ _ _ _ : _ ↔ Eligible (evaluateBonus domain es agg _) = true).
  unfold evaluateBonus. cbn [Eligible]. rewrite andb_true_iff, Z.eqb_eq.
  rewrite !allCriteriaMet_criterion by reflexivity.
  rewrite noWarningsOrErrors_ok, dnssecEnabled_ok, strongAlgorithm_ok, nsec3NonOptout_ok,
    cdsCDNSKEYPublished_ok, ipv6AllNameservers_ok, asDiversity_ok.
  cbn [RScore finish]. fold agg. assert (allCriteriaMet ∅ = true) by reflexivity. tauto.
Qed.

(** ** Renamed tags *)

Lemma migrate_tag_lookup old current m k :
  old ≠ current →
  migrate_tag m (old, current) !! k =
    if decide (k = old) then None
    else if decide (k = current) then
      match m !! current with Some v => Some v | None => m !! old end
    else m !! k.
Proof.
  intros Hne. unfold migrate_tag. destruct (m !! old) as [v|] eqn:Ho.
  - rewrite lookup_delete_ne by done.
    destruct (m !! current) as [v'|] eqn:Hc; repeat case_decide; subst; simplify_map_eq; done.
  - repeat case_decide; subst; [done| |done]. by destruct (m !! current).
Qed.

(** A list of renames that do not feed each other. *)
Definition renames_ok (l : list (string * string)) : Prop :=
  NoDup (l.*1 ++ l.*2).

Lemma renames_ok_cons old current l :
  renames_ok ((old, current) :: l) →
  (old ≠ current) ∧ ((old ∉ l.*1) ∧ (old ∉ l.*2)) ∧ ((current ∉ l.*1) ∧ (current ∉ l.*2)) ∧ renames_ok l.
Proof.
  unfold renames_ok. rewrite !fmap_cons. simpl.
  rewrite NoDup_cons, NoDup_app, NoDup_cons, not_elem_of_app, not_elem_of_cons.
  intros ([Ho1 [Hne Ho2]]&H1&Hd&Hc&H2).
  assert (Hd' : ∀ x, x ∈ l.*1 → (x ≠ current) ∧ (x ∉ l.*2))
    by (intros x Hx; apply not_elem_of_cons; auto).
  repeat split; try done; [intros Hx; by destruct (Hd' _ Hx)|].
  apply NoDup_app. repeat split; [done| |done]. intros x Hx. by apply Hd'.
Qed.

Lemma migrate_untouched l m k :
  renames_ok l → k ∉ l.*1 → k ∉ l.*2 → migrateRenamedTags l m !! k = m !! k.
Proof.
  revert m. induction l as [|[old current] l IH]; intros m Hl H1 H2; [done|].
  apply renames_ok_cons in Hl as (Hne&_&_&Hl). rewrite fmap_cons, not_elem_of_cons in H1, H2.
  change (migrateRenamedTags ((old, current) :: l) m)
    with (migrateRenamedTags l (migrate_tag m (old, current))).
  cbn [fst snd] in H1, H2. rewrite IH, migrate_tag_lookup by tauto.
  by rewrite !decide_False by tauto.
Qed.

Lemma migrate_pair l m old current :
  renames_ok l → (old, current) ∈ l →
  migrateRenamedTags l m !! old = None
  ∧ migrateRenamedTags l m !! current =
      match m !! current with Some v => Some v | None => m !! old end.
Proof.
  revert m. induction l as [|[o c] l IH]; intros m Hl Hin; [set_solver|].
  apply renames_ok_cons in Hl as (Hne&Ho&Hc&Hl).
  change (migrateRenamedTags ((o, c) :: l) m) with (migrateRenamedTags l (migrate_tag m (o, c))).
  apply elem_of_cons in Hin as [[= -> ->]|Hin].
  - rewrite !migrate_untouched by tauto. rewrite !migrate_tag_lookup by done.
    rewrite decide_True by done. rewrite decide_False, decide_True by done. done.
  - assert ((old ≠ o) ∧ (old ≠ c) ∧ (current ≠ o) ∧ (current ≠ c)) as (?&?&?&?).
    { assert (old ∈ l.*1) by (apply list_elem_of_fmap; by exists (old, current)).
      assert (current ∈ l.*2) by (apply list_elem_of_fmap; by exists (old, current)).
      repeat split; intros ->; tauto. }
    destruct (IH (migrate_tag m (o, c)) Hl Hin) as [-> ->].
    rewrite !migrate_tag_lookup by done. by rewrite !decide_False.
Qed.

(** whatever the order in which the loop ranges over the renamed tags, migrating
    a penalty table drops every retired key, keeps an explicit current key, moves the
    override of a retired key otherwise, and leaves all other keys alone. *)
Theorem migrate_spec order m :
  order ≡ₚ renamedTags →
  (∀ old current, (old, current) ∈ renamedTags →
     migrateRenamedTags order m !! old = None
     ∧ migrateRenamedTags order m !! current =
         match m !! current with Some v => Some v | None => m !! old end)
  ∧ (∀ k, k ∉ renamedTags.*1 → k ∉ renamedTags.*2 → migrateRenamedTags order m !! k = m !! k).
Proof.
  intros HP. assert (Hok : renames_ok order).
  { unfold renames_ok. rewrite HP. by apply (bool_decide_unpack _), I. }
  split.
  - intros old current Hin. apply migrate_pair; [done|]. by rewrite HP.
  - intros k H1 H2. apply migrate_untouched; [done|..]; by rewrite HP.
Qed.
End results.

(** * Witnesses *)

Section witnesses.
#[local] Existing Instance ascii_unicode.

Definition zone_error : Entry := {| Module := "Zone"; Tag := "Z01"; Level := "ERROR" |}.
Definition zone_notice : Entry := {| Module := "zone"; Tag := "Z02"; Level := "notice" |}.
Definition basic_critical : Entry := {| Module := "BASIC"; Tag := "B01"; Level := "CRITICAL" |}.
Definition clean_run : list Entry :=
  (λ t, {| Module := "DNSSEC"; Tag := t; Level := "INFO" |}) <$>
  ["DS07_SIGNED"; "DS05_ALGO_OK"; "DS03_NO_NSEC3"; "DS15_HAS_CDS_AND_CDNSKEY"; "IPV4_DIFFERENT_ASN"].

Lemma compute_entry_order_witness :
  [zone_error; zone_notice] ≡ₚ [zone_notice; zone_error]
  ∧ Compute (λ _, 0) order_a "a.se" [zone_error; zone_notice] DefaultConfig
    = Compute (λ _, 0) order_a "a.se" [zone_notice; zone_error] DefaultConfig.
Proof.
  assert (HP : [zone_error; zone_notice] ≡ₚ [zone_notice; zone_error]) by apply perm_swap.
  split; [exact HP|]. exact (compute_entry_order (λ _, 0) order_a "a.se" _ _ DefaultConfig HP).
Defined.

Lemma default_order_a : default_order order_a.
Proof. apply default_order_permutations, permutations_Permutation. reflexivity. Qed.

Definition run_zone : option Result :=
  Compute (λ _, 0) order_a "a.se" [zone_error; zone_notice] DefaultConfig.
Definition run_critical : option Result :=
  Compute (λ _, 0) order_a "a.se" [basic_critical] DefaultConfig.
Definition run_clean : option Result :=
  Compute (λ _, 0) order_a "a.se" clean_run DefaultConfig.

Lemma category_subscore_witness :
  ∃ r c, run_zone = Some r ∧ Categories r !! "zone_consistency" = Some c ∧ Score c = 79.
Proof.
  destruct run_zone as [r|] eqn:Hr; [|vm_compute in Hr; discriminate].
  destruct (category_subscore (λ _, 0) order_a "a.se" [zone_error; zone_notice] DefaultConfig r
              "zone_consistency" (f_lit 8 10) Hr) as (c&Hc&Hp&Hsc&_);
    [reflexivity|repeat constructor|].
  exists r, c. split; [done|]. split; [exact Hc|]. rewrite Hsc, Hp. vm_compute. reflexivity.
Defined.

Lemma critical_override_witness : ∃ r, run_critical = Some r ∧ RScore r = 0 ∧ RGrade r = "F".
Proof.
  destruct run_critical as [r|] eqn:Hr; [|vm_compute in Hr; discriminate].
  exists r. split; [done|].
  destruct (critical_override (λ _, 0) order_a "a.se" [basic_critical] DefaultConfig r Hr)
    as [_ Hc].
  destruct Hc as (_&_&_&Hd); [by apply Exists_cons_hd|].
  exact (Hd eq_refl default_order_a).
Defined.

Lemma single_category_score_witness : ∃ r, run_zone = Some r ∧ RScore r = 96.
Proof.
  destruct run_zone as [r|] eqn:Hr; [|vm_compute in Hr; discriminate].
  exists r. split; [done|].
  destruct (single_category_score (λ _, 0) order_a "a.se" [zone_error; zone_notice] r
              "zone_consistency" (f_lit 8 10) Hr default_order_a) as [Hs _].
  - do 3 right. left.
  - repeat constructor.
  - repeat constructor; intros Hx; vm_compute in Hx; discriminate.
  - vm_compute. split; [discriminate|reflexivity].
  - rewrite Hs. vm_compute. reflexivity.
Defined.

Lemma grade_of_highest_band_witness :
  StronglySorted (λ b1 b2, MinScore b2 < MinScore b1) (GradeBands DefaultConfig)
  ∧ scoreToGrade 76 (GradeBands DefaultConfig) = "B".
Proof.
  assert (Hs : StronglySorted (λ b1 b2, MinScore b2 < MinScore b1) (GradeBands DefaultConfig))
    by (repeat constructor; simpl; lia).
  split; [exact Hs|].
  destruct (grade_of_highest_band 76 _ Hs) as [(b&_&Hg&_)|[Hg _]]; vm_compute in Hg |- *; congruence.
Defined.

Lemma aplus_iff_witness :
  ∃ r, run_clean = Some r ∧ RGrade r = "A+" ∧ strong_ok (tag_set clean_run).
Proof.
  destruct run_clean as [r|] eqn:Hr; [|vm_compute in Hr; discriminate].
  exists r. split; [done|].
  assert (Hg : RGrade r = "A+") by (vm_compute in Hr; injection Hr as <-; reflexivity).
  split; [exact Hg|].
  unfold run_clean in Hr.
  pose proof (aplus_iff (λ _, 0) order_a "a.se" clean_run r Hr) as [Hx _].
  destruct (Hx Hg) as (_&_&_&Hs&_). exact Hs.
Defined.

Lemma migrate_spec_witness :
  migrateRenamedTags renamedTags {["IN_BAILIWICK_GLUE_MISSING" := 7]}
    !! "IN_DOMAIN_GLUE_MISSING" = Some 7.
Proof.
  destruct (migrate_spec renamedTags {["IN_BAILIWICK_GLUE_MISSING" := 7]} (reflexivity _)) as [Hm _].
  destruct (Hm "IN_BAILIWICK_GLUE_MISSING" "IN_DOMAIN_GLUE_MISSING") as [_ ->]; [|reflexivity].
  do 2 right. left.
Defined.
End witnesses.
