(* ===== verification/JobQueue.v ===== *)
(** * The job queue of the server: [server/queue.go]

    [InMemoryQueue] has two FIFO tiers and a wake-up protocol for blocked consumers: a
    buffered channel of tokens, a count of registered waiters and a close channel.  An
    operation that holds the mutex throughout is a function on the queue; [Dequeue],
    which releases it to wait, is split at the points where it does.  The dequeuers of
    a running server are a transition system over the queue. *)

From S2P Require Import Prelude GoStrings.

Local Open Scope nat_scope.
Local Open Scope list_scope.

(** ** Data *)

(** [JobPriority] is an [int]; every value but [PriorityBatch] goes to the normal tier. *)
Definition JobPriority : Type := Z.
Definition PriorityNormal : JobPriority := 0%Z.
Definition PriorityBatch : JobPriority := 1%Z.

Inductive queue_error :=
| ErrQueueClosed          (* "queue closed" *)
| ErrJobIDRequired        (* "job id required" *)
| ErrNotInQueue           (* "job id not in queue" *)
| ErrLengthMismatch       (* "job id list does not match queue length" *)
| ErrNormalAfterBatch.    (* "cannot place a normal job after a batch job" *)

#[export] Instance queue_error_eq_dec : EqDecision queue_error.
Proof. solve_decision. Defined.

(** [notify] is the number of tokens in the buffered channel, [closed] also stands for
    the closed [closeCh]. *)
Record InMemoryQueue := {
  normal : list string;
  batch : list string;
  paused : bool;
  closed : bool;
  waiters : nat;
  notify : nat
}.

(** The capacity of the channel [NewInMemoryQueue] makes. *)
Definition notify_cap : nat := 1024.
#[global] Opaque notify_cap.

Definition NewInMemoryQueue : InMemoryQueue :=
  {| normal := []; batch := []; paused := false; closed := false; waiters := 0; notify := 0 |}.

Definition set_jobs (q : InMemoryQueue) (n b : list string) : InMemoryQueue :=
  {| normal := n; batch := b; paused := paused q; closed := closed q;
     waiters := waiters q; notify := notify q |}.
Definition set_notify (q : InMemoryQueue) (k : nat) : InMemoryQueue :=
  {| normal := normal q; batch := batch q; paused := paused q; closed := closed q;
     waiters := waiters q; notify := k |}.
Definition set_paused (q : InMemoryQueue) (b : bool) : InMemoryQueue :=
  {| normal := normal q; batch := batch q; paused := b; closed := closed q;
     waiters := waiters q; notify := notify q |}.
Definition set_waiters (q : InMemoryQueue) (k : nat) : InMemoryQueue :=
  {| normal := normal q; batch := batch q; paused := paused q; closed := closed q;
     waiters := k; notify := notify q |}.

(** The queued jobs in the order in which they will be handed out. *)
Definition pending (q : InMemoryQueue) : list string := normal q ++ batch q.

(** ** Signalling *)

(** A non-blocking send on the buffered channel. *)
Definition send_notify (q : InMemoryQueue) : InMemoryQueue :=
  if notify q <? notify_cap then set_notify q (S (notify q)) else q.

Definition signalOneLocked (q : InMemoryQueue) : InMemoryQueue :=
  if waiters q <? 1 then q else send_notify q.

(** The loop returns at the first send that would block; from then on every send would. *)
Fixpoint send_many (k : nat) (q : InMemoryQueue) : InMemoryQueue :=
  match k with
  | O => q
  | S k' => if notify q <? notify_cap then send_many k' (send_notify q) else q
  end.

Definition signalAvailableLocked (q : InMemoryQueue) : InMemoryQueue :=
  let total := length (normal q) + length (batch q) in
  if (waiters q <? 1) || (total <? 1) then q
  else send_many (min (waiters q) total) q.

(** ** Operations *)

Definition Enqueue (q : InMemoryQueue) (jobID : string) (priority : JobPriority)
  : InMemoryQueue * option queue_error :=
  if closed q then (q, Some ErrQueueClosed)
  else
    let q := if Z.eqb priority PriorityBatch
             then set_jobs q (normal q) (batch q ++ [jobID])
             else set_jobs q (normal q ++ [jobID]) (batch q) in
    (if paused q then q else signalOneLocked q, None).

(** The critical section at the head of the loop of [Dequeue]: fail, take a job, or
    register as a waiter and go to sleep. *)
Inductive dequeue_outcome := DqClosed | DqJob (jobID : string) | DqWait.

Definition dequeue_lock (q : InMemoryQueue) : InMemoryQueue * dequeue_outcome :=
  if closed q then (q, DqClosed)
  else
    let wait := (set_waiters q (S (waiters q)), DqWait) in
    if paused q then wait
    else match normal q with
         | jobID :: n => (set_jobs q n (batch q), DqJob jobID)
         | [] => match batch q with
                 | jobID :: b => (set_jobs q [] b, DqJob jobID)
                 | [] => wait
                 end
         end.

(** The critical section after the [select]: the waiter unregisters. *)
Definition dequeue_wake (q : InMemoryQueue) : InMemoryQueue :=
  if 0 <? waiters q then set_waiters q (waiters q - 1) else q.

(** Delete the first occurrence of [jobID], as the index loop does. *)
Fixpoint remove_first (jobID : string) (l : list string) : option (list string) :=
  match l with
  | [] => None
  | id :: l' => if decide (id = jobID) then Some l'
                else match remove_first jobID l' with
                     | Some l'' => Some (id :: l'')
                     | None => None
                     end
  end.

Definition Remove (q : InMemoryQueue) (jobID : string) : InMemoryQueue * option queue_error :=
  if decide (jobID = ""%string) then (q, Some ErrJobIDRequired)
  else if closed q then (q, Some ErrQueueClosed)
  else match remove_first jobID (normal q) with
       | Some n => (set_jobs q n (batch q), None)
       | None => match remove_first jobID (batch q) with
                 | Some b => (set_jobs q (normal q) b, None)
                 | None => (q, Some ErrNotInQueue)
                 end
       end.

Definition Pause (q : InMemoryQueue) : InMemoryQueue * option queue_error :=
  if closed q then (q, Some ErrQueueClosed) else (set_paused q true, None).

Definition Resume (q : InMemoryQueue) : InMemoryQueue * option queue_error :=
  if closed q then (q, Some ErrQueueClosed)
  else (signalAvailableLocked (set_paused q false), None).

(** The map from job id to tier: the batch loop runs last and overwrites. *)
Definition tier_map (q : InMemoryQueue) : gmap string JobPriority :=
  foldl (λ m id, <[id := PriorityBatch]> m)
    (foldl (λ m id, <[id := PriorityNormal]> m) ∅ (normal q)) (batch q).

(** The validation loop over the requested order. *)
Fixpoint check_order (tierOf : gmap string JobPriority) (seenBatch : bool) (ids : list string)
  : option queue_error :=
  match ids with
  | [] => None
  | id :: ids' =>
      match tierOf !! id with
      | None => Some ErrNotInQueue
      | Some tier =>
          if Z.eqb tier PriorityBatch then check_order tierOf true ids'
          else if seenBatch then Some ErrNormalAfterBatch
          else check_order tierOf seenBatch ids'
      end
  end.

Definition is_batch_id (tierOf : gmap string JobPriority) (id : string) : bool :=
  Z.eqb (default 0%Z (tierOf !! id)) PriorityBatch.

Definition Reorder (q : InMemoryQueue) (jobIDs : list string)
  : InMemoryQueue * option queue_error :=
  if closed q then (q, Some ErrQueueClosed)
  else
    let total := length (normal q) + length (batch q) in
    if negb (length jobIDs =? total) then (q, Some ErrLengthMismatch)
    else
      let tierOf := tier_map q in
      match check_order tierOf false jobIDs with
      | Some e => (q, Some e)
      | None =>
          let newNormal := List.filter (λ id, negb (is_batch_id tierOf id)) jobIDs in
          let newBatch := List.filter (is_batch_id tierOf) jobIDs in
          let q := set_jobs q newNormal newBatch in
          (if paused q then q else signalAvailableLocked q, None)
      end.

Definition Close (q : InMemoryQueue) : InMemoryQueue :=
  if closed q then q
  else {| normal := normal q; batch := batch q; paused := paused q; closed := true;
          waiters := waiters q; notify := notify q |}.

(** ** The dequeuers *)

(** A server: the queue and how many dequeuer goroutines are at each point of
    [Dequeue].  [ready]: about to take the mutex at the head of the loop; [parked]:
    blocked in the [select]; [woken]: past the [select] through [notify] or [closeCh],
    not yet unregistered; [leaving]: past it through [ctx.Done()].  [delivered] are
    the jobs handed out so far. *)
Record system := {
  queue : InMemoryQueue;
  ready : nat;
  parked : nat;
  woken : nat;
  leaving : nat;
  delivered : list string
}.

Definition system0 : system :=
  {| queue := NewInMemoryQueue; ready := 0; parked := 0; woken := 0; leaving := 0;
     delivered := [] |}.

Definition with_queue (s : system) (q : InMemoryQueue) : system :=
  {| queue := q; ready := ready s; parked := parked s; woken := woken s;
     leaving := leaving s; delivered := delivered s |}.

(** The steps of the dequeuers between two actions of the producers. *)
Inductive consumer_step : system → system → Prop :=
| step_take s q jobID :
    0 < ready s → dequeue_lock (queue s) = (q, DqJob jobID) →
    consumer_step s
      {| queue := q; ready := ready s - 1; parked := parked s; woken := woken s;
         leaving := leaving s; delivered := delivered s ++ [jobID] |}
| step_park s q :
    0 < ready s → dequeue_lock (queue s) = (q, DqWait) →
    consumer_step s
      {| queue := q; ready := ready s - 1; parked := S (parked s); woken := woken s;
         leaving := leaving s; delivered := delivered s |}
| step_fail s q :
    0 < ready s → dequeue_lock (queue s) = (q, DqClosed) →
    consumer_step s
      {| queue := q; ready := ready s - 1; parked := parked s; woken := woken s;
         leaving := leaving s; delivered := delivered s |}
| step_notified s :
    0 < parked s → 0 < notify (queue s) →
    consumer_step s
      {| queue := set_notify (queue s) (notify (queue s) - 1); ready := ready s;
         parked := parked s - 1; woken := S (woken s); leaving := leaving s;
         delivered := delivered s |}
| step_close_seen s :
    0 < parked s → closed (queue s) = true →
    consumer_step s
      {| queue := queue s; ready := ready s; parked := parked s - 1; woken := S (woken s);
         leaving := leaving s; delivered := delivered s |}
| step_unregister s :
    0 < woken s →
    consumer_step s
      {| queue := dequeue_wake (queue s); ready := S (ready s); parked := parked s;
         woken := woken s - 1; leaving := leaving s; delivered := delivered s |}.

(** Everything that can happen: producers and administrators act on the queue, a
    goroutine calls [Dequeue], a context is canceled. *)
Inductive step : system → system → Prop :=
| step_consumer s s' : consumer_step s s' → step s s'
| step_enqueue s id p : step s (with_queue s (Enqueue (queue s) id p).1)
| step_remove s id : step s (with_queue s (Remove (queue s) id).1)
| step_pause s : step s (with_queue s (Pause (queue s)).1)
| step_resume s : step s (with_queue s (Resume (queue s)).1)
| step_reorder s ids : step s (with_queue s (Reorder (queue s) ids).1)
| step_close s : step s (with_queue s (Close (queue s)))
| step_call s :
    step s
      {| queue := queue s; ready := S (ready s); parked := parked s; woken := woken s;
         leaving := leaving s; delivered := delivered s |}
| step_cancel s :
    0 < parked s →
    step s
      {| queue := queue s; ready := ready s; parked := parked s - 1; woken := woken s;
         leaving := S (leaving s); delivered := delivered s |}
| step_leave s :
    0 < leaving s →
    step s
      {| queue := dequeue_wake (queue s); ready := ready s; parked := parked s;
         woken := woken s; leaving := leaving s - 1; delivered := delivered s |}.

(** The goroutines inside [Dequeue], and the steps while there are at most as many of them
    as the channel [notify] holds tokens. *)
Definition callers (s : system) : nat := ready s + parked s + woken s + leaving s.
Definition crewed_step (s s' : system) : Prop := step s s' ∧ callers s' ≤ notify_cap.

(** ** The signalling operations *)

Lemma cap_pos : 0 < notify_cap.
Proof. apply Nat.ltb_lt. vm_compute. reflexivity. Qed.

Lemma send_many_spec k q :
  notify q ≤ notify_cap →
  send_many k q = set_notify q (min notify_cap (notify q + k)).
Proof.
  revert q. induction k as [|k IH]; intros q Hq; simpl.
  - destruct q as [? ? ? ? ? k]; unfold set_notify; simpl in *. f_equal. lia.
  - destruct (Nat.ltb_spec (notify q) notify_cap) as [Hlt|Hge].
    + unfold send_notify. rewrite (proj2 (Nat.ltb_lt _ _) Hlt).
      rewrite IH by (simpl; lia). unfold set_notify; simpl. f_equal. lia.
    + destruct q as [? ? ? ? ? n]; unfold set_notify; simpl in *. f_equal. lia.
Qed.

(** Signalling only adds tokens. *)
Lemma signalOneLocked_spec q :
  notify q ≤ notify_cap →
  ∃ k, signalOneLocked q = set_notify q k ∧ notify q ≤ k ≤ notify_cap ∧
       (waiters q = 0 ∨ notify q < k ∨ k = notify_cap).
Proof.
  intros Hq. unfold signalOneLocked, send_notify.
  destruct (Nat.ltb_spec (waiters q) 1); [|destruct (Nat.ltb_spec (notify q) notify_cap)].
  - exists (notify q). split; [by destruct q|]. lia.
  - exists (S (notify q)). split; [done|]. lia.
  - exists (notify q). split; [by destruct q|]. lia.
Qed.

Lemma signalAvailableLocked_spec q :
  notify q ≤ notify_cap →
  ∃ k, signalAvailableLocked q = set_notify q k ∧ notify q ≤ k ≤ notify_cap ∧
       (waiters q ≤ k ∨ length (pending q) ≤ k ∨ k = notify_cap).
Proof.
  intros Hq. unfold signalAvailableLocked, pending. rewrite length_app.
  destruct (Nat.ltb_spec (waiters q) 1); simpl.
  { exists (notify q). split; [by destruct q|]. lia. }
  destruct (Nat.ltb_spec (length (normal q) + length (batch q)) 1); simpl.
  { exists (notify q). split; [by destruct q|]. lia. }
  rewrite send_many_spec by done. eexists; split; [done|]. lia.
Qed.

(** ** What the critical sections do to the queued jobs *)

(** The head of the loop of [Dequeue], on each branch. *)
Lemma dequeue_lock_cases q q' o :
  dequeue_lock q = (q', o) →
  match o with
  | DqClosed => closed q = true ∧ q' = q
  | DqJob id => closed q = false ∧ paused q = false ∧ pending q = id :: pending q' ∧
                q' = set_jobs q (normal q') (batch q')
  | DqWait => closed q = false ∧ (paused q = true ∨ pending q = []) ∧
              q' = set_waiters q (S (waiters q))
  end.
Proof.
  unfold dequeue_lock, pending. intros H.
  destruct (closed q); [by simplify_eq|]. destruct (paused q); [naive_solver|].
  destruct (normal q) as [|id n]; [destruct (batch q) as [|id b]|]; simplify_eq/=; auto.
Qed.

Lemma filter_partition_length {A} (f : A → bool) l :
  length (List.filter (λ x, negb (f x)) l) + length (List.filter f l) = length l.
Proof. induction l as [|x l IH]; simpl; [done|]. destruct (f x); simpl; lia. Qed.

(** No operation but [Close] touches [closed], only [Pause] and [Resume] touch
    [paused], and none touches the count of waiters. *)
Lemma remove_first_length id l l' : remove_first id l = Some l' → length l = S (length l').
Proof.
  revert l'. induction l as [|x l IH]; intros l' H; simpl in *; [done|].
  destruct (decide (x = id)); [by simplify_eq|].
  destruct (remove_first id l) eqn:E; simplify_eq/=. by rewrite (IH _ eq_refl).
Qed.

(** ** The wake-up invariant *)

(** The counters agree with the goroutines, and while the queue hands out jobs either
    every queued job has a token or a goroutine on its way to the queue, or every
    parked goroutine has a token. *)
Section good.
(** There have never been more goroutines than the channel holds tokens. *)
Context (crewed : Prop).

Record good (s : system) : Prop := {
  good_waiters : waiters (queue s) = parked s + woken s + leaving s;
  good_notify : notify (queue s) ≤ notify_cap;
  good_threads : crewed → callers s ≤ notify_cap;
  good_wake : crewed → closed (queue s) = false → paused (queue s) = false →
    length (pending (queue s)) ≤ notify (queue s) + woken s + ready s ∨
    parked s ≤ notify (queue s)
}.

Lemma good0 : good system0.
Proof. split; unfold callers; simpl; lia. Qed.

(** What an action of a producer or an administrator may do to the queue so that the
    invariant survives. *)
Lemma good_with_queue s q' :
  good s →
  waiters q' = waiters (queue s) →
  notify (queue s) ≤ notify q' ≤ notify_cap →
  (closed q' = false → paused q' = false →
   (closed (queue s) = false ∧ paused (queue s) = false ∧
    length (pending q') ≤ length (pending (queue s))) ∨
   waiters q' ≤ notify q' ∨ length (pending q') ≤ notify q' ∨ notify q' = notify_cap ∨
   (closed (queue s) = false ∧ paused (queue s) = false ∧
    length (pending q') ≤ S (length (pending (queue s))) ∧ notify (queue s) < notify q')) →
  good (with_queue s q').
Proof.
  intros [Hw Hn Ht Hk] Hw' Hn' Hc. split; [simpl; congruence|simpl; lia|done|]. simpl.
  intros Hcr Hcl Hp. specialize (Hc Hcl Hp). specialize (Ht Hcr). unfold callers in Ht.
  destruct Hc as [(? & ? & ?)|[?|[?|[?|(? & ? & ? & ?)]]]];
    try (destruct (Hk ltac:(done) ltac:(done) ltac:(done))); lia.
Qed.

Lemma good_enqueue s id p : good s → good (with_queue s (Enqueue (queue s) id p).1).
Proof.
  intros H. pose proof (good_notify _ H) as Hn. unfold Enqueue.
  destruct (closed (queue s)) eqn:Hcl; simpl.
  { apply good_with_queue; [done|done|lia|congruence]. }
  set (q1 := if Z.eqb p PriorityBatch then _ else _).
  assert (waiters q1 = waiters (queue s) ∧ notify q1 = notify (queue s) ∧
                closed q1 = false ∧ paused q1 = paused (queue s) ∧
                length (pending q1) = S (length (pending (queue s)))) as (Ew & En & Ec & Ep & El).
  { unfold q1, pending. destruct (Z.eqb p PriorityBatch); simpl;
      rewrite !length_app; simpl; repeat split; auto; lia. }
  clearbody q1. destruct (paused q1) eqn:Hpq; simpl.
  { apply good_with_queue; [done|lia|lia|congruence]. }
  destruct (signalOneLocked_spec q1) as (k & -> & Hk & Hor); [lia|].
  apply good_with_queue; simpl; [done|lia|lia|]. intros _ _.
  destruct Hor as [?|[?|?]]; [right; left; lia|right; right; right; right|auto].
  change (pending (set_notify q1 k)) with (pending q1). rewrite <- Ep. repeat split; auto; lia.
Qed.

Lemma good_remove s id : good s → good (with_queue s (Remove (queue s) id).1).
Proof.
  intros H. pose proof (good_notify _ H). unfold Remove.
  repeat case_match; simpl; apply good_with_queue; simpl; auto; intros ??; left;
    repeat split; auto; unfold pending; simpl; rewrite !length_app;
    repeat match goal with E : remove_first _ _ = Some _ |- _ => apply remove_first_length in E end;
    lia.
Qed.

Lemma good_pause s : good s → good (with_queue s (Pause (queue s)).1).
Proof.
  intros H. pose proof (good_notify _ H). unfold Pause.
  destruct (closed (queue s)) eqn:?; simpl; apply good_with_queue; simpl; auto; congruence.
Qed.

Lemma good_resume s : good s → good (with_queue s (Resume (queue s)).1).
Proof.
  intros H. pose proof (good_notify _ H). unfold Resume.
  destruct (closed (queue s)) eqn:?; simpl; [apply good_with_queue; simpl; auto; congruence|].
  destruct (signalAvailableLocked_spec (set_paused (queue s) false)) as (k & -> & Hk & Hor); [done|].
  simpl in *. apply good_with_queue; simpl; [done|done|lia|]. tauto.
Qed.

Lemma Reorder_ok_inv q ids q' :
  Reorder q ids = (q', None) →
  let f := is_batch_id (tier_map q) in
  let q1 := set_jobs q (List.filter (λ id, negb (f id)) ids) (List.filter f ids) in
  closed q = false ∧ length ids = length (pending q) ∧
  check_order (tier_map q) false ids = None ∧
  q' = (if paused q then q1 else signalAvailableLocked q1).
Proof.
  unfold Reorder, pending. intros H. destruct (closed q); [done|].
  destruct (Nat.eqb_spec (length ids) (length (normal q) + length (batch q))); [|done].
  rewrite length_app. simpl in H.
  destruct (check_order (tier_map q) false ids); simplify_eq/=. auto.
Qed.

Lemma Reorder_err_same q ids q' e : Reorder q ids = (q', Some e) → q' = q.
Proof. unfold Reorder. intros H. repeat case_match; by simplify_eq. Qed.

Lemma good_reorder s ids : good s → good (with_queue s (Reorder (queue s) ids).1).
Proof.
  intros H. pose proof (good_notify _ H).
  destruct (Reorder (queue s) ids) as [q' [e|]] eqn:E; simpl.
  { apply Reorder_err_same in E as ->. apply good_with_queue; auto. }
  apply Reorder_ok_inv in E as (Hc & Hl & _ & ->).
  set (q1 := set_jobs _ _ _).
  assert (length (pending q1) = length (pending (queue s))).
  { rewrite <- Hl. unfold pending, q1; simpl. rewrite length_app. apply filter_partition_length. }
  destruct (paused (queue s)) eqn:Hp; [apply good_with_queue; simpl; auto; congruence|].
  destruct (signalAvailableLocked_spec q1) as (k & -> & Hk & Hor); [done|].
  apply good_with_queue; simpl in *; [done|done|lia|]. tauto.
Qed.

Lemma good_close s : good s → good (with_queue s (Close (queue s))).
Proof.
  intros H. pose proof (good_notify _ H). unfold Close.
  destruct (closed (queue s)) eqn:?; apply good_with_queue; simpl; auto; congruence.
Qed.

Lemma dequeue_wake_spec q : 0 < waiters q → dequeue_wake q = set_waiters q (waiters q - 1).
Proof. unfold dequeue_wake. intros H. by rewrite (proj2 (Nat.ltb_lt _ _) H). Qed.

Lemma good_consumer s s' : good s → consumer_step s s' → good s'.
Proof.
  intros [Hw Hn Ht Hk] Hs. destruct Hs as [s q id Hr E|s q Hr E|s q Hr E|s Hp Hn1|s Hp Hc|s Hwk];
    try apply dequeue_lock_cases in E; try rewrite dequeue_wake_spec by lia;
    try (destruct E as (Hcl & Hpa & Hpe & ->)); try (destruct E as (Hcl & Hor & ->));
    try (destruct E as (Hcl & ->)); split; unfold callers in *; simpl in *; try lia;
    try (intros Hcr; specialize (Ht Hcr); specialize (Hk Hcr)); try lia; try congruence.
  - intros _ _. destruct (Hk Hcl Hpa) as [H|H]; [|lia]. rewrite Hpe in H. simpl in H.
    change (pending (set_jobs (queue s) (normal q) (batch q))) with (pending q). lia.
  - intros _ Hpf. destruct Hor as [?|Hpe]; [congruence|]. left.
    change (pending (set_waiters (queue s) (S (waiters (queue s))))) with (pending (queue s)).
    rewrite Hpe. simpl. lia.
  - change (pending (set_notify (queue s) (notify (queue s) - 1))) with (pending (queue s)).
    intros H1 H2. specialize (Hk H1 H2). lia.
  - change (pending (set_waiters (queue s) (waiters (queue s) - 1))) with (pending (queue s)).
    intros H1 H2. specialize (Hk H1 H2). lia.
Qed.

Lemma good_step s s' : good s → step s s' → (crewed → callers s' ≤ notify_cap) → good s'.
Proof.
  intros H Hs Hcrew. destruct Hs; eauto using good_consumer, good_enqueue, good_remove, good_pause,
    good_resume, good_reorder, good_close; destruct H as [Hw Hn Ht Hk];
    try rewrite dequeue_wake_spec by lia; (split; [simpl in *; lia..|exact Hcrew|]);
    intros Hcr; specialize (Hk Hcr); simpl in *; intros H1 H2; specialize (Hk H1 H2); [lia..|].
  change (pending (set_waiters (queue s) (waiters (queue s) - 1))) with (pending (queue s)). lia.
Qed.

(** ** Runs of the dequeuers *)

(** The dequeuers have handed out the next [k] pending jobs, in order, and changed
    nothing else about the queued jobs. *)
Definition drained (k : nat) (s s' : system) : Prop :=
  delivered s' = delivered s ++ take k (pending (queue s)) ∧
  pending (queue s') = drop k (pending (queue s)) ∧
  closed (queue s') = closed (queue s) ∧ paused (queue s') = paused (queue s).

Lemma drained_same s s' :
  delivered s' = delivered s → pending (queue s') = pending (queue s) →
  closed (queue s') = closed (queue s) → paused (queue s') = paused (queue s) → drained 0 s s'.
Proof. unfold drained. by rewrite take_0, drop_0, app_nil_r. Qed.

Lemma drained_0 s : drained 0 s s.
Proof. by apply drained_same. Qed.

Lemma drained_trans j k s1 s2 s3 : drained j s1 s2 → drained k s2 s3 → drained (j + k) s1 s3.
Proof.
  intros (D1 & P1 & C1 & Q1) (D2 & P2 & C2 & Q2).
  unfold drained. rewrite D2, P2, D1, P1, C2, Q2, C1, Q1, drop_drop.
  split; [|done]. rewrite <- (assoc_L (++)). f_equal. by rewrite take_take_drop.
Qed.

Lemma drained_step s s' : good s → consumer_step s s' → ∃ k, drained k s s'.
Proof.
  intros [Hw _ _ _] Hs. destruct Hs as [s q id Hr E|s q Hr E|s q Hr E|s Hp Hn1|s Hp Hc|s Hwk];
    try apply dequeue_lock_cases in E; try rewrite dequeue_wake_spec by lia.
  - destruct E as (Hcl & Hpa & Hpe & Hq). exists 1. unfold drained. simpl. rewrite Hpe. simpl.
    rewrite drop_0. rewrite Hq. simpl. auto.
  - destruct E as (Hcl & _ & ->). exists 0. by apply drained_same.
  - destruct E as (Hcl & ->). exists 0. by apply drained_same.
  - exists 0. by apply drained_same.
  - exists 0. by apply drained_same.
  - exists 0. by apply drained_same.
Qed.

Lemma drained_run s s' : good s → rtc consumer_step s s' → good s' ∧ ∃ k, drained k s s'.
Proof.
  intros Hg Hr. induction Hr as [s|s1 s2 s3 H12 _ IH]; [eauto using drained_0|].
  destruct (drained_step _ _ Hg H12) as [j Hj].
  destruct IH as [Hg3 [k Hk]]; [by eapply good_consumer|].
  eauto using drained_trans.
Qed.
End good.

Lemma good_reachable s : rtc step system0 s → good False s.
Proof.
  intros H. eapply (rtc_invariant step (good False)); [|apply good0|exact H]. intros x y Hg Hs. by eapply good_step.
Qed.

Lemma good_crewed s : rtc crewed_step system0 s → good True s.
Proof.
  intros H. eapply (rtc_invariant crewed_step (good True)); [|apply good0|exact H].
  intros x y Hg [Hs Hc]. by eapply good_step.
Qed.

(** What remains to be done: when the queue is closed each goroutine only leaves; when
    it is open each token wakes one goroutine, which passes the queue at most once. *)
Definition work (s : system) : nat :=
  if closed (queue s) then 3 * parked s + 2 * woken s + ready s
  else 3 * notify (queue s) + 2 * woken s + ready s.

Lemma work_step s s' : consumer_step s s' → work s' < work s.
Proof.
  intros Hs. unfold work.
  destruct Hs as [s q id Hr E|s q Hr E|s q Hr E|s Hp Hn1|s Hp Hc|s Hwk];
    try apply dequeue_lock_cases in E.
  - destruct E as (Hc & _ & _ & ->). simpl. rewrite Hc. lia.
  - destruct E as (Hc & _ & ->). simpl. rewrite Hc. lia.
  - destruct E as (Hc & ->). simpl. rewrite Hc. lia.
  - simpl. destruct (closed (queue s)); lia.
  - simpl. rewrite Hc. lia.
  - simpl. unfold dequeue_wake. destruct (0 <? waiters (queue s)); simpl;
      destruct (closed (queue s)); lia.
Qed.

(** A closed queue hands out nothing. *)
Lemma closed_step s s' :
  consumer_step s s' → closed (queue s) = true →
  closed (queue s') = true ∧ delivered s' = delivered s.
Proof.
  intros Hs Hc. destruct Hs as [s q id Hl E|s q Hl E|s q Hl E|s Hl Hn1|s Hl Hc'|s Hl];
    try apply dequeue_lock_cases in E; simpl; auto.
  - destruct E; congruence.
  - destruct E; congruence.
  - destruct E as [_ ->]. auto.
  - unfold dequeue_wake. destruct (0 <? waiters (queue s)); simpl; auto.
Qed.

(** A state from which no dequeuer can move. *)
Lemma stuck_inv s :
  nf consumer_step s →
  ready s = 0 ∧ woken s = 0 ∧ (parked s = 0 ∨ notify (queue s) = 0 ∧ closed (queue s) = false).
Proof.
  intros H.
  assert (ready s = 0).
  { destruct (decide (ready s = 0)) as [|Hr]; [done|]. destruct H.
    destruct (dequeue_lock (queue s)) as [q [|id|]] eqn:E; eexists;
      [eapply step_fail|eapply step_take|eapply step_park]; eauto; lia. }
  assert (woken s = 0).
  { destruct (decide (woken s = 0)) as [|Hr]; [done|]. destruct H.
    eexists. apply step_unregister. lia. }
  do 2 (split; [done|]). destruct (decide (parked s = 0)); [auto|]. right. split.
  - destruct (decide (notify (queue s) = 0)) as [|Hn]; [done|]. destruct H.
    eexists. apply step_notified; lia.
  - destruct (closed (queue s)) eqn:?; [|done]. destruct H. eexists. apply step_close_seen; [lia|done].
Qed.

(** ** Theorems on the wake-up protocol *)

(** Whatever the producers and administrators do, once they stop the dequeuers stop
    after finitely many steps: no schedule of [Dequeue] calls spins on stale tokens. *)
Theorem dequeuers_terminate s : sn consumer_step s.
Proof.
  remember (work s) as n eqn:Hn. revert s Hn.
  induction n as [n IH] using lt_wf_ind; intros s ->.
  constructor. intros s' Hs. exact (IH _ (work_step _ _ Hs) _ eq_refl).
Qed.

(** C2: No wake-up is lost while at most 1024 goroutines, the capacity of the channel of
    tokens, are inside [Dequeue] at a time.  From every state of an open, unpaused queue that
    is reachable so, every maximal run of the dequeuers hands out queued jobs in order,
    normal tier before batch tier and each tier first in first out, and ends only when the
    queue is empty or no caller of [Dequeue] is left waiting. *)
Theorem no_lost_wakeup s s' :
  rtc crewed_step system0 s → closed (queue s) = false → paused (queue s) = false →
  rtc consumer_step s s' → nf consumer_step s' →
  ∃ k, delivered s' = delivered s ++ take k (pending (queue s)) ∧
       pending (queue s') = drop k (pending (queue s)) ∧
       (pending (queue s') = [] ∨ ready s' + parked s' + woken s' = 0).
Proof.
  intros Hs Hc Hp Hr Hnf. apply good_crewed in Hs.
  destruct (drained_run _ _ _ Hs Hr) as [Hg (k & Hd & Hpe & Hcl & Hpa)].
  exists k. do 2 (split; [done|]).
  apply stuck_inv in Hnf as (Hre & Hwo & Hor).
  destruct Hor as [?|[Hn _]]; [right; lia|].
  destruct (good_wake _ _ Hg I) as [H|H]; [congruence|congruence| |right; lia].
  left. apply nil_length_inv. lia.
Qed.

(** [Close] releases every caller: from a reachable closed state every maximal run
    of the dequeuers ends with none of them waiting, and hands out nothing. *)
Theorem close_wakes_all s s' :
  rtc step system0 s → closed (queue s) = true →
  rtc consumer_step s s' → nf consumer_step s' →
  ready s' + parked s' + woken s' = 0 ∧ delivered s' = delivered s.
Proof.
  intros Hs Hc Hr Hnf. apply good_reachable in Hs. split.
  - destruct (drained_run _ _ _ Hs Hr) as [_ (k & _ & _ & Hcl & _)].
    apply stuck_inv in Hnf as (Hre & Hwo & Hor). destruct Hor as [?|[_ ?]]; [lia|congruence].
  - clear Hnf Hs. induction Hr as [|s1 s2 s3 H12 _ IH]; [done|].
    destruct (closed_step _ _ H12 Hc) as [H1 H2].
    rewrite <- H2. auto.
Qed.

(** A reachable open queue with a waiting dequeuer and two queued jobs: a caller parks
    on the empty queue, then a batch and a normal job arrive. *)
Definition busy : system :=
  {| queue := {| normal := ["n"%string]; batch := ["b"%string]; paused := false;
                 closed := false; waiters := 1; notify := 2 |};
     ready := 0; parked := 1; woken := 0; leaving := 0; delivered := [] |}.
Definition served : system :=
  {| queue := {| normal := []; batch := ["b"%string]; paused := false;
                 closed := false; waiters := 0; notify := 1 |};
     ready := 0; parked := 0; woken := 0; leaving := 0; delivered := ["n"%string] |}.

Lemma idle_stuck s : ready s = 0 → parked s = 0 → woken s = 0 → nf consumer_step s.
Proof. intros ? ? ? [s' H]. destruct H; lia. Qed.

(** More goroutines than tokens: [n] of them asleep next to [m] jobs and [k] tokens. *)
Definition crowd (b : bool) (n m k : nat) (d : list string) : system :=
  {| queue := {| normal := replicate m "j"%string; batch := []; paused := b; closed := false; waiters := n; notify := k |};
     ready := 0; parked := n; woken := 0; leaving := 0; delivered := d |}.

Lemma crowd_parks n : rtc step system0 (crowd true n 0 0 []).
Proof.
  induction n as [|n IH]; [eapply rtc_l; [apply step_pause|apply rtc_refl]|].
  eapply rtc_r; [eapply rtc_r; [exact IH|apply step_call]|]. apply step_consumer.
  exact (step_park {| queue := queue (crowd true n 0 0 []); ready := 1; parked := n; woken := 0; leaving := 0; delivered := [] |}
    (queue (crowd true (S n) 0 0 [])) ltac:(simpl; lia) eq_refl).
Qed.

Lemma crowd_fills n m : rtc step system0 (crowd true n m 0 []).
Proof.
  induction m as [|m IH]; [apply crowd_parks|]. eapply rtc_r; [exact IH|].
  replace (crowd true n (S m) 0 []) with
    (with_queue (crowd true n m 0 []) (Enqueue (queue (crowd true n m 0 [])) "j" PriorityNormal).1); [apply step_enqueue|].
  unfold crowd, with_queue; simpl. by rewrite <- replicate_cons_app.
Qed.

Lemma crowd_served n m k d :
  rtc consumer_step (crowd false (S n) (S m) (S k) d) (crowd false n m k (d ++ ["j"%string])).
Proof.
  eapply rtc_l; [apply step_notified; simpl; lia|]. eapply rtc_l; [apply step_unregister; simpl; lia|].
  eapply rtc_l; [eapply step_take; [simpl; lia|reflexivity]|].
  unfold crowd, dequeue_wake, set_notify, set_waiters, set_jobs; simpl. rewrite !Nat.sub_0_r. apply rtc_refl.
Qed.

Lemma crowd_serves k : ∀ n m d, ∃ d', rtc consumer_step (crowd false (k + n) (k + m) k d) (crowd false n m 0 d').
Proof.
  induction k as [|k IH]; intros n m d; [exists d; apply rtc_refl|].
  destruct (IH n m (d ++ ["j"%string])) as [d' Hd]. exists d'. etransitivity; [apply crowd_served|exact Hd].
Qed.

(** With more goroutines than the channel holds tokens wake-ups are dropped: [n] goroutines
    go to sleep on a paused queue, [n] jobs arrive, and [Resume] wakes 1024 of them; the
    others sleep on next to the jobs that are left. *)
Theorem wakeups_dropped n : notify_cap ≤ n →
  ∃ s s', rtc step system0 s ∧ closed (queue s) = false ∧ paused (queue s) = false ∧
    rtc consumer_step s s' ∧ nf consumer_step s' ∧
    length (pending (queue s')) = n - notify_cap ∧ parked s' = n - notify_cap.
Proof.
  intros Hn. assert (Hx : ∃ x, n = notify_cap + x) by (exists (n - notify_cap); lia). destruct Hx as [x ->].
  destruct (crowd_serves notify_cap x x []) as [d Hd].
  exists (crowd false (notify_cap + x) (notify_cap + x) notify_cap []), (crowd false x x 0 d). split_and!; [|done|done|exact Hd| | |].
  - eapply rtc_r; [apply (crowd_fills (notify_cap + x) (notify_cap + x))|].
    replace (crowd false _ _ _ _) with
      (with_queue (crowd true (notify_cap + x) (notify_cap + x) 0 []) (Resume (queue (crowd true (notify_cap + x) (notify_cap + x) 0 []))).1);
      [apply step_resume|].
    unfold crowd, with_queue, Resume; simpl. unfold signalAvailableLocked; simpl. rewrite length_replicate.
    pose proof cap_pos. destruct (_ || _) eqn:E; [exfalso; apply orb_true_iff in E as [E|E]; apply Nat.ltb_lt in E; lia|].
    rewrite send_many_spec by (simpl; lia). unfold set_notify, set_paused; simpl. repeat f_equal; lia.
  - intros [s' Hs]. inversion Hs; simpl in *; try lia; congruence.
  - simpl. unfold pending; simpl. rewrite app_nil_r, length_replicate. lia.
  - simpl. lia.
Qed.

#[local] Transparent notify_cap.
Lemma crewed_busy : rtc crewed_step system0 busy.
Proof.
  eapply rtc_l; [split; [apply step_call|unfold callers, notify_cap; simpl; lia]|].
  eapply rtc_l; [split; [apply step_consumer; eapply step_park; [simpl; lia|reflexivity]|unfold callers, notify_cap; simpl; lia]|].
  eapply rtc_l; [split; [apply (step_enqueue _ "b" PriorityBatch)|unfold callers, notify_cap; simpl; lia]|].
  eapply rtc_l; [split; [apply (step_enqueue _ "n" PriorityNormal)|unfold callers, notify_cap; simpl; lia]|]. apply rtc_refl.
Qed.

Lemma busy_reachable : rtc step system0 busy.
Proof. eapply rtc_subrel; [|apply crewed_busy]. by intros x y []. Qed.

Lemma busy_run : rtc consumer_step busy served.
Proof.
  eapply rtc_l; [apply step_notified; simpl; lia|].
  eapply rtc_l; [apply step_unregister; simpl; lia|].
  eapply rtc_l; [eapply step_take; [simpl; lia|reflexivity]|]. apply rtc_refl.
Qed.

Lemma no_lost_wakeup_witness :
  ∃ k, delivered served = delivered busy ++ take k (pending (queue busy)) ∧
       pending (queue served) = drop k (pending (queue busy)) ∧
       (pending (queue served) = [] ∨ ready served + parked served + woken served = 0).
Proof.
  apply (no_lost_wakeup busy served crewed_busy eq_refl eq_refl busy_run).
  by apply idle_stuck.
Defined.

Definition shut : system := with_queue busy (Close (queue busy)).
Definition shut_end : system :=
  {| queue := set_waiters (queue shut) 0; ready := 0; parked := 0; woken := 0; leaving := 0;
     delivered := [] |}.

Lemma shut_reachable : rtc step system0 shut.
Proof. eapply rtc_r; [apply busy_reachable|apply step_close]. Qed.

Lemma shut_run : rtc consumer_step shut shut_end.
Proof.
  eapply rtc_l; [apply step_close_seen; [simpl; lia|reflexivity]|].
  eapply rtc_l; [apply step_unregister; simpl; lia|].
  eapply rtc_l; [eapply step_fail; [simpl; lia|reflexivity]|]. apply rtc_refl.
Qed.

Lemma close_wakes_all_witness :
  ready shut_end + parked shut_end + woken shut_end = 0 ∧ delivered shut_end = delivered shut.
Proof.
  apply (close_wakes_all shut shut_end shut_reachable eq_refl shut_run).
  by apply idle_stuck.
Defined.

(** ** Reordering *)

Lemma foldl_insert_lookup (p : JobPriority) (m : gmap string JobPriority) l id :
  foldl (λ m id, <[id := p]> m) m l !! id = if decide (id ∈ l) then Some p else m !! id.
Proof.
  revert m. induction l as [|x l IH]; intros m; simpl; [done|].
  rewrite IH. destruct (decide (id = x)) as [->|Hne].
  - rewrite lookup_insert_eq. repeat case_decide; set_solver.
  - rewrite lookup_insert_ne by done. repeat case_decide; set_solver.
Qed.

Lemma tier_map_lookup q id :
  tier_map q !! id = if decide (id ∈ batch q) then Some PriorityBatch
                     else if decide (id ∈ normal q) then Some PriorityNormal else None.
Proof. unfold tier_map. by rewrite !foldl_insert_lookup. Qed.

Lemma is_batch_id_spec q id : is_batch_id (tier_map q) id = true ↔ id ∈ batch q.
Proof.
  unfold is_batch_id. rewrite tier_map_lookup. repeat case_decide; simpl; naive_solver.
Qed.

(** The validation loop, read as a specification. *)
Lemma check_order_spec q seen ids :
  check_order (tier_map q) seen ids = None ↔
  ∃ n b, ids = n ++ b ∧ (∀ id, id ∈ n → id ∈ normal q ∧ id ∉ batch q) ∧
         (∀ id, id ∈ b → id ∈ batch q) ∧ (seen = true → n = []).
Proof.
  revert seen. induction ids as [|id ids IH]; intros seen; simpl.
  { split; [intros _; exists [], []; set_solver|done]. }
  rewrite tier_map_lookup. destruct (decide (id ∈ batch q)) as [Hb|Hb]; simpl.
  { rewrite IH. split.
    - intros (n & b & -> & Hn & Hb' & Hs). rewrite (Hs eq_refl). exists [], (id :: b). set_solver.
    - intros ([|x n] & b & E & Hn & Hb' & Hs); simplify_eq/=; [|set_solver].
      exists [], ids. set_solver. }
  destruct (decide (id ∈ normal q)) as [Hq|Hq]; simpl.
  - destruct seen.
    + split; [done|]. intros ([|x n] & b & E & Hn & Hb' & Hs); simplify_eq/=; [set_solver|].
      by specialize (Hs eq_refl).
    + rewrite IH. split.
      * intros (n & b & -> & Hn & Hb' & _). exists (id :: n), b. set_solver.
      * intros ([|x n] & b & E & Hn & Hb' & Hs); simplify_eq/=; [set_solver|].
        exists n, b. set_solver.
  - split; [done|]. intros ([|x n] & b & E & Hn & Hb' & Hs); simplify_eq/=; set_solver.
Qed.

Lemma filter_split (f : string → bool) n b :
  (∀ x, x ∈ n → f x = false) → (∀ x, x ∈ b → f x = true) →
  List.filter f (n ++ b) = b ∧ List.filter (λ x, negb (f x)) (n ++ b) = n.
Proof.
  intros Hn Hb. induction n as [|x n IH]; simpl.
  - induction b as [|y b IHb]; simpl; [done|].
    rewrite (Hb y) by set_solver. simpl. destruct IHb as [-> ->]; [set_solver|done].
  - rewrite (Hn x) by set_solver. simpl. destruct IH as [-> ->]; [set_solver|done].
Qed.

Lemma signalAvailableLocked_jobs q :
  normal (signalAvailableLocked q) = normal q ∧ batch (signalAvailableLocked q) = batch q.
Proof.
  unfold signalAvailableLocked. destruct (_ || _); [done|].
  generalize (min (waiters q) (length (normal q) + length (batch q))); intros k.
  revert q. induction k as [|k IH]; intros q; simpl; [done|].
  destruct (notify q <? notify_cap) eqn:E; [|done].
  destruct (IH (send_notify q)) as [-> ->]. unfold send_notify. by rewrite E.
Qed.

(** The tiers after a successful [Reorder]: the list splits into the tiers' new orders. *)
Lemma Reorder_ok_tiers q ids q' :
  Reorder q ids = (q', None) →
  ids = normal q' ++ batch q' ∧ length ids = length (pending q) ∧
  (∀ id, id ∈ normal q' → id ∈ normal q ∧ id ∉ batch q) ∧
  (∀ id, id ∈ batch q' → id ∈ batch q).
Proof.
  intros H. apply Reorder_ok_inv in H as (_ & Hl & Hck & ->).
  apply check_order_spec in Hck as (n & b & -> & Hn & Hb & _).
  destruct (filter_split (is_batch_id (tier_map q)) n b) as [Hf Hg].
  - intros x Hx. apply not_true_iff_false. rewrite is_batch_id_spec. naive_solver.
  - intros x Hx. apply is_batch_id_spec. auto.
  - set (q1 := set_jobs q _ _).
    assert (normal q1 = n ∧ batch q1 = b) as [En Eb] by (unfold q1; simpl; by rewrite Hf, Hg).
    destruct (signalAvailableLocked_jobs q1) as [Sn Sb].
    destruct (paused q); rewrite ?Sn, ?Sb, ?En, ?Eb; auto.
Qed.

(** Two lists without repetition inside two others, as long together, are those others
    up to order. *)
Lemma split_perm (n b n0 b0 : list string) :
  NoDup n → NoDup b → n ⊆ n0 → b ⊆ b0 → length n + length b = length n0 + length b0 →
  n ≡ₚ n0 ∧ b ≡ₚ b0.
Proof.
  intros Hn Hb Sn Sb Hl.
  apply NoDup_submseteq in Sn; [|done]. apply NoDup_submseteq in Sb; [|done].
  pose proof (submseteq_length _ _ Sn). pose proof (submseteq_length _ _ Sb).
  split; apply submseteq_length_Permutation; auto; lia.
Qed.

(** For a list of distinct job ids [Reorder] succeeds exactly when the list is a
    permutation of the normal tier followed by a permutation of the batch tier, and then
    those become the tiers; otherwise it reports an error and leaves the queue alone. *)
Theorem reorder_distinct_iff q ids :
  closed q = false → NoDup (pending q) → NoDup ids →
  match Reorder q ids with
  | (q', None) => ids = normal q' ++ batch q' ∧ normal q' ≡ₚ normal q ∧ batch q' ≡ₚ batch q
  | (q', Some _) => q' = q ∧ ¬ ∃ n b, ids = n ++ b ∧ n ≡ₚ normal q ∧ b ≡ₚ batch q
  end.
Proof.
  intros Hc Hq Hids. destruct (Reorder q ids) as [q' [e|]] eqn:E.
  - split; [by eapply Reorder_err_same|]. intros (n & b & -> & Hn & Hb).
    assert (check_order (tier_map q) false (n ++ b) = None) as Hck.
    { apply check_order_spec. exists n, b. apply NoDup_app in Hq as (_ & Hd & _).
      split; [done|]. split; [|split; [|done]]; intros id; rewrite ?Hn, ?Hb; naive_solver. }
    unfold Reorder in E. rewrite Hc, Hck, length_app, Hn, Hb, Nat.eqb_refl in E. done.
  - apply Reorder_ok_tiers in E as (-> & Hl & Hn & Hb). split; [done|].
    apply NoDup_app in Hids as (? & _ & ?). unfold pending in Hl. rewrite !length_app in Hl.
    apply split_perm; auto. intros x Hx. by apply Hn.
Qed.

Lemma reorder_distinct_iff_witness :
  let q := {| normal := ["a"; "b"]%string; batch := ["c"]%string; paused := false;
              closed := false; waiters := 3; notify := 0 |} in
  match Reorder q ["b"; "a"; "c"]%string with
  | (q', None) => ["b"; "a"; "c"]%string = normal q' ++ batch q' ∧
                  normal q' ≡ₚ normal q ∧ batch q' ≡ₚ batch q
  | (q', Some _) => q' = q ∧
      ¬ ∃ n b, ["b"; "a"; "c"]%string = n ++ b ∧ n ≡ₚ normal q ∧ b ≡ₚ batch q
  end.
Proof.
  refine (reorder_distinct_iff
    {| normal := ["a"; "b"]%string; batch := ["c"]%string; paused := false;
       closed := false; waiters := 3; notify := 0 |} ["b"; "a"; "c"]%string eq_refl
    _ _); apply (bool_decide_unpack _); exact I.
Defined.

(** [Reorder] does not insist on distinct ids: with two jobs queued a list that names
    one of them twice is accepted, the other is gone from the queue and the repeated one
    will be handed out twice. *)
Theorem reorder_drops_job :
  ∃ q ids q' lost twice,
    closed q = false ∧ NoDup (pending q) ∧ lost ∈ pending q ∧ Reorder q ids = (q', None) ∧
    (lost ∉ pending q') ∧ pending q' = [twice; twice].
Proof.
  exists (set_jobs NewInMemoryQueue ["a"; "b"]%string []), ["a"; "a"]%string,
    (set_jobs NewInMemoryQueue ["a"; "a"]%string []), "b"%string, "a"%string.
  split; [done|]. split; [apply (bool_decide_unpack _); exact I|].
  split; [apply (bool_decide_unpack _); exact I|]. split; [reflexivity|].
  split; [apply (bool_decide_unpack _); exact I|]. done.
Qed.
