(* ===== verification/RateLimit.v ===== *)
(** * The rate limiter of the public API: [server/ratelimit.go], [server/limiter.go]

    [RateLimiter] is a sliding-window limiter per client; times are nanoseconds.  The
    package [net/netip] is the interface [Netip]. *)

From S2P Require Import Prelude GoStrings.

Local Open Scope Z_scope.
Local Open Scope list_scope.

(** ** Data *)

(** [max] is an [int]; [window] a duration in nanoseconds. *)
Record RateLimiter := {
  entries : gmap string (list Z);
  max : Z;
  window : Z
}.

Definition NewRateLimiter (max window : Z) : RateLimiter :=
  {| entries := ∅; max := max; window := window |}.

Definition set_entries (rl : RateLimiter) (m : gmap string (list Z)) : RateLimiter :=
  {| entries := m; max := max rl; window := window rl |}.

Definition Second : Z := 1000000000.

(** [int(d.Seconds())]: truncation to whole seconds.  The [float64] the code goes
    through is exact enough for that below 2^23 seconds (97 days). *)
Definition int_seconds (d : Z) : Z := Z.quot d Second.

(** ** Operations *)

(** [t.After(cutoff)] *)
Definition active (cutoff t : Z) : bool := cutoff <? t.

(** [Allow] at the time [now]: [None] is the panic of [times[0]] on an empty slice,
    otherwise the decision and the number of seconds for [Retry-After]. *)
Definition Allow (rl : RateLimiter) (ip : string) (now : Z)
  : option (RateLimiter * (bool * Z)) :=
  let cutoff := now - window rl in
  let times := List.filter (active cutoff) (default [] (entries rl !! ip)) in
  if max rl <=? Z.of_nat (length times) then
    match times with
    | [] => None
    | t0 :: _ =>
        let ra := Z.max (int_seconds (t0 + window rl - now) + 1) 1 in
        Some (set_entries rl (<[ip := times]> (entries rl)), (false, ra))
    end
  else Some (set_entries rl (<[ip := times ++ [now]]> (entries rl)), (true, 0)).

Definition Keys (rl : RateLimiter) : Z := Z.of_nat (size (entries rl)).

(** [Cleanup] at the time [now]. *)
Definition Cleanup (rl : RateLimiter) (now : Z) : RateLimiter :=
  let cutoff := now - window rl in
  set_entries rl (filter (λ e, existsb (active cutoff) e.2 = true) (entries rl)).

(** [storeLimiter] on the pointer it updates. *)
Definition storeLimiter (p : option RateLimiter) (mx wnd : Z) : option RateLimiter :=
  match p with
  | Some rl => if negb (max rl =? mx) || negb (window rl =? wnd)
               then Some (NewRateLimiter mx wnd) else p
  | None => Some (NewRateLimiter mx wnd)
  end.

(** The part of [PublicAPIConfig] the limiters read, and the limiters of the server. *)
Record PublicAPIConfig := {
  RateLimitEnabled : bool;
  RateLimitMax : Z;
  RateLimitGetMax : Z;
  RateLimitWindow : Z
}.

Record limiters := { rateLimiter : option RateLimiter; getRateLimiter : option RateLimiter }.

Definition applyRateLimit (s : limiters) (api : PublicAPIConfig) : limiters :=
  if RateLimitEnabled api then
    {| rateLimiter := storeLimiter (rateLimiter s) (RateLimitMax api) (RateLimitWindow api);
       getRateLimiter :=
         storeLimiter (getRateLimiter s) (RateLimitGetMax api) (RateLimitWindow api) |}
  else {| rateLimiter := None; getRateLimiter := None |}.

Definition rateLimitKeys (s : limiters) : Z :=
  match rateLimiter s with Some rl => Keys rl | None => 0 end.

Definition cleanupRateLimit (s : limiters) (now : Z) : limiters :=
  {| rateLimiter := (λ rl, Cleanup rl now) <$> rateLimiter s;
     getRateLimiter := (λ rl, Cleanup rl now) <$> getRateLimiter s |}.

(** ** Client addresses *)

(** What the code uses of [net/netip]. *)
Class Netip := {
  Addr : Type;
  Prefix : Type;
  ParseAddr : string → option Addr;
  ParsePrefix : string → option Prefix;
  Unmap : Addr → Addr;
  AddrString : Addr → string;
  Contains : Prefix → Addr → bool;
  (* [PrefixFrom(a, a.BitLen())] *)
  HostPrefix : Addr → Prefix;
  Is6 : Addr → bool;
  Is4In6 : Addr → bool;
  (* [PrefixFrom(a.WithZone(""), 64).Masked().String()] *)
  Masked64 : Addr → string
}.

Section netip.
Context `{Netip}.

Fixpoint parseTrustedProxies (cidrs : list string) : list Prefix :=
  match cidrs with
  | [] => []
  | s :: rest =>
      let s := trim_space s in
      if decide (s = ""%string) then parseTrustedProxies rest
      else match ParsePrefix s with
           | Some p => p :: parseTrustedProxies rest
           | None => match ParseAddr s with
                     | Some a => HostPrefix a :: parseTrustedProxies rest
                     | None => parseTrustedProxies rest
                     end
           end
  end.

Definition ipInPrefixes (addr : Addr) (prefixes : list Prefix) : bool :=
  existsb (λ p, Contains p (Unmap addr)) prefixes.

(** [net.SplitHostPort(r.RemoteAddr)], the address itself when that fails. *)
Definition remote_host (RemoteAddr : string) : string :=
  match SplitHostPort RemoteAddr with Ok (host, _) => host | Err _ => RemoteAddr end.

(** The walk over the hops, the list given from right to left; [remote] answers when
    every hop is trusted. *)
Fixpoint walk_hops (trusted : list Prefix) (remote : string) (hops : list string) : string :=
  match hops with
  | [] => remote
  | part :: rest =>
      let hop := trim_space part in
      if decide (hop = ""%string) then walk_hops trusted remote rest
      else match ParseAddr hop with
           | None => hop
           | Some a => if ipInPrefixes a trusted then walk_hops trusted remote rest
                       else AddrString (Unmap a)
           end
  end.

(** [clientIP] of a request with the given [RemoteAddr] and [X-Forwarded-For]. *)
Definition clientIP (RemoteAddr xff : string) (trusted : list Prefix) : string :=
  let remoteHost := remote_host RemoteAddr in
  match ParseAddr remoteHost with
  | None => remoteHost
  | Some remote =>
      if negb (ipInPrefixes remote trusted) then AddrString (Unmap remote)
      else if decide (xff = ""%string) then AddrString (Unmap remote)
      else walk_hops trusted (AddrString (Unmap remote)) (rev (split "," xff))
  end.

Definition rateLimitKey (ip : string) : string :=
  match ParseAddr ip with
  | None => ip
  | Some addr => if negb (Is6 addr) || Is4In6 addr then ip else Masked64 addr
  end.

(** [allowRequest]: the limiter after the request, whether it passes and the value of
    [Retry-After] when it does not. *)
Definition allowRequest (RemoteAddr xff : string) (now : Z) (trusted : list Prefix)
  (rl : option RateLimiter) : option (option RateLimiter * option Z) :=
  match rl with
  | None => Some (None, None)
  | Some rl =>
      match Allow rl (rateLimitKey (clientIP RemoteAddr xff trusted)) now with
      | None => None
      | Some (rl', (ok, retryAfter)) =>
          Some (Some rl', if ok then None else Some retryAfter)
      end
  end.
End netip.

(** ** The limiter over time *)

(** What happens to a limiter: a request of a client or a sweep of the idle entries. *)
Inductive event := Hit (ip : string) (now : Z) | Sweep (now : Z).

Definition event_time (e : event) : Z := match e with Hit _ t => t | Sweep t => t end.

(** The clock does not go back. *)
Fixpoint timed (t : Z) (evs : list event) : Prop :=
  match evs with
  | [] => True
  | e :: evs => t <= event_time e ∧ timed (event_time e) evs
  end.

(** The run of the limiter: its final state and each request with its decision. *)
Fixpoint serve (rl : RateLimiter) (evs : list event)
  : option (RateLimiter * list (string * Z * bool)) :=
  match evs with
  | [] => Some (rl, [])
  | Sweep now :: evs => serve (Cleanup rl now) evs
  | Hit ip now :: evs =>
      match Allow rl ip now with
      | None => None
      | Some (rl', (ok, _)) =>
          match serve rl' evs with
          | Some (rl'', log) => Some (rl'', (ip, now, ok) :: log)
          | None => None
          end
      end
  end.

(** The contract: a log that is never cut, and a request allowed exactly when fewer than
    [mx] requests of the client were allowed during the last [wnd]. *)
Definition within (wnd now : Z) (hist : list Z) : list Z :=
  List.filter (active (now - wnd)) hist.

Definition log_allow (mx wnd : Z) (hist : list Z) (now : Z) : bool :=
  Z.of_nat (length (within wnd now hist)) <? mx.

Definition log_of (logs : gmap string (list Z)) (ip : string) : list Z :=
  default [] (logs !! ip).

Fixpoint serve_log (mx wnd : Z) (logs : gmap string (list Z)) (evs : list event)
  : list (string * Z * bool) :=
  match evs with
  | [] => []
  | Sweep _ :: evs => serve_log mx wnd logs evs
  | Hit ip now :: evs =>
      let ok := log_allow mx wnd (log_of logs ip) now in
      (ip, now, ok) ::
        serve_log mx wnd
          (if ok then <[ip := log_of logs ip ++ [now]]> logs else logs) evs
  end.

(** *** Filters *)

Lemma filter_active_mono c c' l :
  c <= c' → List.filter (active c') (List.filter (active c) l) = List.filter (active c') l.
Proof.
  intros Hc. induction l as [|t l IH]; simpl; [done|].
  destruct (active c t) eqn:E1; simpl; destruct (active c' t) eqn:E2; rewrite ?IH; auto.
  unfold active in *. breflect. lia.
Qed.

Lemma filter_app_list {A} (f : A → bool) l1 l2 :
  List.filter f (l1 ++ l2) = List.filter f l1 ++ List.filter f l2.
Proof. induction l1 as [|x l IH]; simpl; [done|]. destruct (f x); simpl; congruence. Qed.

Lemma filter_none_mono c c' l :
  c <= c' → existsb (active c) l = false → List.filter (active c') l = [].
Proof.
  intros Hc. induction l as [|t l IH]; simpl; [done|]. intros H. breflect.
  rewrite IH by done. unfold active in *. breflect.
  destruct (c' <? t) eqn:?; [|done]. breflect. lia.
Qed.

Lemma filter_length_le {A} (f : A → bool) l : (length (List.filter f l) <= length l)%nat.
Proof. induction l as [|x l IH]; simpl; [lia|]. destruct (f x); simpl; lia. Qed.

Lemma filter_length_impl {A} (f g : A → bool) l :
  (∀ x, f x = true → g x = true) →
  (length (List.filter f l) <= length (List.filter g l))%nat.
Proof.
  intros Hi. induction l as [|x l IH]; simpl; [lia|].
  destruct (f x) eqn:E; [rewrite (Hi _ E); simpl; lia|]. destruct (g x); simpl; lia.
Qed.

(** *** The limiter keeps what its decisions need of the log *)

(** From [now] on the entries and the log agree on every window. *)
Definition agrees (now : Z) (rl : RateLimiter) (logs : gmap string (list Z)) : Prop :=
  ∀ ip c, now - window rl <= c →
    List.filter (active c) (default [] (entries rl !! ip)) =
    List.filter (active c) (log_of logs ip).

Lemma agrees_later now now' rl logs : now <= now' → agrees now rl logs → agrees now' rl logs.
Proof. intros Hle H ip c Hc. apply H. lia. Qed.

Lemma Cleanup_agrees now rl logs : agrees now rl logs → agrees now (Cleanup rl now) logs.
Proof.
  intros H ip c Hc. simpl in Hc. rewrite <- (H ip c Hc). unfold Cleanup; simpl.
  rewrite map_lookup_filter.
  destruct (entries rl !! ip) as [l|] eqn:E; simpl; [|done].
  case_guard as Hg; simpl; [done|]. symmetry. eapply filter_none_mono; [exact Hc|].
  by apply not_true_iff_false.
Qed.

Lemma Allow_refines rl ip now logs :
  0 < max rl → agrees now rl logs →
  ∃ rl' ra, Allow rl ip now = Some (rl', (log_allow (max rl) (window rl) (log_of logs ip) now, ra)) ∧
    max rl' = max rl ∧ window rl' = window rl ∧
    agrees now rl' (if log_allow (max rl) (window rl) (log_of logs ip) now
                    then <[ip := log_of logs ip ++ [now]]> logs else logs).
Proof.
  intros Hm H. pose proof (H ip (now - window rl) ltac:(lia)) as Hip.
  unfold log_allow, within. rewrite <- Hip. unfold Allow.
  set (times := List.filter _ _) in *.
  destruct (Z.leb_spec (max rl) (Z.of_nat (length times))) as [Hge|Hlt].
  - destruct times as [|t0 ts] eqn:Ht; [simpl in Hge; lia|].
    rewrite (proj2 (Z.ltb_ge _ _) Hge). eexists _, _. do 3 (split; [reflexivity|]).
    intros ip' c Hc. simpl in Hc |- *. destruct (decide (ip' = ip)) as [->|Hne].
    + rewrite lookup_insert_eq. simpl default. rewrite <- (H ip c Hc), <- Ht.
      unfold times. by apply filter_active_mono.
    + rewrite lookup_insert_ne by done. by apply H.
  - rewrite (proj2 (Z.ltb_lt _ _) Hlt). eexists _, _. do 3 (split; [reflexivity|]).
    intros ip' c Hc. unfold log_of. simpl in Hc |- *. destruct (decide (ip' = ip)) as [->|Hne].
    + rewrite !lookup_insert_eq. simpl. rewrite !filter_app_list. f_equal.
      transitivity (List.filter (active c) (default [] (entries rl !! ip))); [|by apply H].
      unfold times. by apply filter_active_mono.
    + rewrite !lookup_insert_ne by done. by apply H.
Qed.

Lemma serve_refines evs : ∀ now rl logs,
  0 < max rl → timed now evs → agrees now rl logs →
  ∃ rl', serve rl evs = Some (rl', serve_log (max rl) (window rl) logs evs) ∧
         max rl' = max rl ∧ window rl' = window rl.
Proof.
  induction evs as [|[ip t|t] evs IH]; intros now rl logs Hm Ht Ha; simpl in *; [eauto|..].
  - destruct Ht as [Hle Ht]. apply (agrees_later _ t) in Ha; [|done].
    destruct (Allow_refines rl ip t logs Hm Ha) as (rl1 & ra & -> & Em & Ew & Ha1).
    destruct (IH t rl1 _ ltac:(lia) Ht Ha1) as (rl2 & -> & Em2 & Ew2).
    rewrite Em, Ew. exists rl2. split; [done|]. split; congruence.
  - destruct Ht as [Hle Ht]. apply (agrees_later _ t) in Ha; [|done].
    apply (IH t (Cleanup rl t)); [done|done|by apply Cleanup_agrees].
Qed.

Lemma agrees_new mx wnd now : agrees now (NewRateLimiter mx wnd) ∅.
Proof. intros ip c _. unfold log_of. simpl. by rewrite lookup_empty. Qed.

(** C3: The limiter, which cuts each entry to the window at every request and drops idle
    entries, decides every request as the log that forgets nothing does: a request
    passes exactly when fewer than [max] requests of the client passed during the
    last [window].  It never panics. *)
Theorem limiter_refines_log mx wnd now evs :
  0 < mx → timed now evs →
  ∃ rl, serve (NewRateLimiter mx wnd) evs = Some (rl, serve_log mx wnd ∅ evs).
Proof.
  intros Hm Ht.
  destruct (serve_refines evs now (NewRateLimiter mx wnd) ∅ Hm Ht) as (rl & H & _);
    eauto using agrees_new.
Qed.

Lemma limiter_refines_log_witness :
  let evs := [Hit "a" 0; Hit "a" 5; Hit "a" 9; Sweep 10; Hit "a" 11; Hit "b" 12] in
  ∃ rl, serve (NewRateLimiter 2 10) evs = Some (rl, serve_log 2 10 ∅ evs).
Proof. apply (limiter_refines_log 2 10 0); [lia|simpl; lia]. Defined.

(** *** No window sees more than [max] requests *)

(** The requests of [ip] that passed in the window of length [wnd] after [a]. *)
Definition passed_in (ip : string) (a wnd : Z) (r : string * Z * bool) : bool :=
  bool_decide (r.1.1 = ip) && r.2 && (a <? r.1.2) && (r.1.2 <=? a + wnd).

Definition in_window (a wnd t : Z) : bool := (a <? t) && (t <=? a + wnd).

Lemma log_of_insert logs ip l i :
  log_of (<[ip := l]> logs) i = if decide (i = ip) then l else log_of logs i.
Proof.
  unfold log_of. case_decide as Hi; [subst; by rewrite lookup_insert_eq|].
  by rewrite lookup_insert_ne.
Qed.

Lemma serve_log_bound mx wnd evs : ∀ now logs,
  0 <= mx → timed now evs →
  (∀ ip, Forall (λ t, t <= now) (log_of logs ip)) →
  (∀ ip a, Z.of_nat (length (List.filter (in_window a wnd) (log_of logs ip))) <= mx) →
  ∀ ip a, Z.of_nat (length (List.filter (in_window a wnd) (log_of logs ip))) +
          Z.of_nat (length (List.filter (passed_in ip a wnd) (serve_log mx wnd logs evs))) <= mx.
Proof.
  induction evs as [|[ip t|t] evs IH]; intros now logs Hm Ht Hf Hb ip' a; simpl.
  - specialize (Hb ip' a). lia.
  - destruct Ht as [Hle Ht]. simpl in Hle, Ht.
    destruct (log_allow mx wnd (log_of logs ip) t) eqn:Ha.
    + set (logs' := <[ip:=_]> logs).
      pose proof (log_of_insert logs ip (log_of logs ip ++ [t])) as El. fold logs' in El.
      specialize (IH t logs' Hm Ht).
      assert (Hf' : ∀ i, Forall (λ x, x <= t) (log_of logs' i)).
      { intros i. rewrite El. assert (∀ i, Forall (λ x, x <= t) (log_of logs i)) by
          (intros j; eapply Forall_impl; [apply Hf|intros; simpl in *; lia]).
        case_decide; [|done]. apply Forall_app; split; [done|]. by repeat constructor. }
      assert (Hb' : ∀ i a, Z.of_nat (length (List.filter (in_window a wnd) (log_of logs' i))) <= mx).
      { intros i b. rewrite El. case_decide as Hi; [|apply Hb]. subst i.
        rewrite filter_app_list, length_app. simpl. specialize (Hb ip b).
        destruct (in_window b wnd t) eqn:Hw; simpl; [|lia].
        unfold log_allow, within in Ha. breflect.
        enough (length (List.filter (in_window b wnd) (log_of logs ip)) <=
                length (List.filter (active (t - wnd)) (log_of logs ip)))%nat by lia.
        apply filter_length_impl. unfold in_window, active in *. intros x Hx. breflect.
        apply Z.ltb_lt. lia. }
      specialize (IH Hf' Hb' ip' a). rewrite El in IH. unfold passed_in at 1; simpl.
      case_decide as Hi.
      * subst ip'. rewrite bool_decide_true by done. simpl.
        rewrite filter_app_list, length_app in IH. simpl in IH.
        unfold in_window at 2 in IH. destruct ((a <? t) && (t <=? a + wnd)); simpl in *; lia.
      * rewrite bool_decide_false by congruence. simpl. lia.
    + unfold passed_in at 1; simpl. rewrite andb_false_r. simpl. eapply IH; eauto.
      intros i; eapply Forall_impl; [apply Hf|intros; simpl in *; lia].
  - destruct Ht as [Hle Ht]. simpl in Hle, Ht. eapply IH; eauto.
    intros i; eapply Forall_impl; [apply Hf|intros; simpl in *; lia].
Qed.

(** Whatever a client does, at most [max] of its requests pass in any window of the
    configured length, wherever it starts. *)
Theorem window_limit mx wnd now evs ip a :
  0 < mx → timed now evs →
  ∃ rl log, serve (NewRateLimiter mx wnd) evs = Some (rl, log) ∧
            Z.of_nat (length (List.filter (passed_in ip a wnd) log)) <= mx.
Proof.
  intros Hm Ht.
  destruct (serve_refines evs now (NewRateLimiter mx wnd) ∅ Hm Ht) as (rl & H & _);
    [apply agrees_new|].
  exists rl, (serve_log mx wnd ∅ evs). split; [exact H|].
  assert (∀ i, log_of ∅ i = []) as E by (intros i; unfold log_of; by rewrite lookup_empty).
  pose proof (serve_log_bound mx wnd evs now ∅ ltac:(lia) Ht) as Hb.
  rewrite <- (Z.add_0_l (Z.of_nat _)). specialize (Hb ltac:(intros i; by rewrite E)).
  assert (H0 : ∀ i b, Z.of_nat (length (List.filter (in_window b wnd) (log_of ∅ i))) <= mx)
    by (intros i b; rewrite E; simpl; lia).
  specialize (Hb H0 ip a). rewrite E in Hb. exact Hb.
Qed.

Lemma window_limit_witness :
  let evs := [Hit "a" 0; Hit "a" 5; Hit "a" 9; Sweep 10; Hit "a" 11; Hit "b" 12] in
  ∃ rl log, serve (NewRateLimiter 2 10) evs = Some (rl, log) ∧
            Z.of_nat (length (List.filter (passed_in "a" 3 10) log)) <= 2.
Proof. apply (window_limit 2 10 0); [lia|simpl; lia]. Defined.

(** *** Retry-After *)

(** What [Allow] and [Cleanup] keep: no entry is longer than [max], and each is in the
    order of time. *)
Definition entries_wf (now : Z) (rl : RateLimiter) : Prop :=
  ∀ ip, let l := default [] (entries rl !! ip) in
    Z.of_nat (length l) <= max rl ∧ StronglySorted Z.le l ∧ Forall (λ t, t <= now) l.

Lemma StronglySorted_filter {A} (R : A → A → Prop) f l :
  StronglySorted R l → StronglySorted R (List.filter f l).
Proof.
  induction 1 as [|x l Hs IH Hf]; simpl; [constructor|].
  destruct (f x); [constructor|]; auto. rewrite Forall_forall in *.
  intros y Hy. apply Hf. apply list_elem_of_In, filter_In in Hy as [Hy _].
  by apply list_elem_of_In.
Qed.

Lemma Forall_filter_list {A} (P : A → Prop) f l : Forall P l → Forall P (List.filter f l).
Proof. induction 1; simpl; [constructor|]. destruct (f x); auto. Qed.

Lemma StronglySorted_snoc t l :
  StronglySorted Z.le l → Forall (λ x, x <= t) l → StronglySorted Z.le (l ++ [t]).
Proof.
  induction 1 as [|x l Hs IH Hf]; intros Ht; simpl; [repeat constructor|].
  inversion_clear Ht. constructor; [auto|]. apply Forall_app; split; [done|]. by constructor.
Qed.

Lemma entries_wf_later now now' rl : now <= now' → entries_wf now rl → entries_wf now' rl.
Proof.
  intros Hle H ip. destruct (H ip) as (? & ? & Hf). do 2 (split; [done|]).
  eapply Forall_impl; [exact Hf|]. simpl. lia.
Qed.

Lemma Allow_wf rl ip now rl' o :
  0 < max rl → entries_wf now rl → Allow rl ip now = Some (rl', o) → entries_wf now rl'.
Proof.
  intros Hm H. unfold Allow. set (times := List.filter _ _).
  destruct (H ip) as (Hl & Hs & Hf).
  assert (Ht : (length times <= length (default [] (entries rl !! ip)))%nat)
    by apply filter_length_le.
  assert (StronglySorted Z.le times) by (by apply StronglySorted_filter).
  assert (Forall (λ t, t <= now) times) by (by apply Forall_filter_list).
  clearbody times.
  destruct (Z.leb_spec (max rl) (Z.of_nat (length times))) as [Hge|Hlt];
    [destruct times as [|t0 ts]; [done|]|]; intros ?; simplify_eq; intros ip'; simpl;
    (destruct (decide (ip' = ip)) as [->|Hne];
     [rewrite lookup_insert_eq; simpl default|rewrite lookup_insert_ne by done; apply H]).
  - simpl in *. split; [lia|]. auto.
  - rewrite length_app. simpl. split; [lia|]. split; [by apply StronglySorted_snoc|].
    apply Forall_app; split; [done|]. by repeat constructor.
Qed.

Lemma Cleanup_wf now rl : 0 < max rl → entries_wf now rl → entries_wf now (Cleanup rl now).
Proof.
  intros Hm H ip. unfold Cleanup; simpl. rewrite map_lookup_filter. specialize (H ip).
  destruct (entries rl !! ip) as [l|] eqn:E; simpl in *; [case_guard; simpl; [done|]|];
    (split; [lia|]; split; constructor).
Qed.

Lemma serve_wf evs : ∀ now rl rl' log,
  0 < max rl → timed now evs → entries_wf now rl → serve rl evs = Some (rl', log) →
  max rl' = max rl ∧ window rl' = window rl ∧
  ∀ t, now <= t → Forall (λ e, event_time e <= t) evs → entries_wf t rl'.
Proof.
  induction evs as [|[ip t|t] evs IH]; intros now rl rl' log Hm Ht Hw E; simpl in *.
  - simplify_eq. split; [done|]. split; [done|]. eauto using entries_wf_later.
  - destruct Ht as [Hle Ht]. destruct (Allow rl ip t) as [[rl1 [ok ra]]|] eqn:Ea; [|done].
    destruct (serve rl1 evs) as [[rl2 log2]|] eqn:Es; simplify_eq.
    assert (max rl1 = max rl ∧ window rl1 = window rl) as [Em Ew].
    { unfold Allow in Ea. repeat case_match; by simplify_eq/=. }
    destruct (IH t rl1 rl' log2) as (Em2 & Ew2 & Hwf); [lia|done| |done|].
    { eapply Allow_wf; [done| |done]. by eapply entries_wf_later. }
    split; [congruence|]. split; [congruence|]. intros u _ Hf. inversion_clear Hf. auto.
  - destruct Ht as [Hle Ht]. destruct (IH t (Cleanup rl t) rl' log) as (? & ? & Hwf); auto.
    { apply Cleanup_wf; [done|]. by eapply entries_wf_later. }
    split; [done|]. split; [done|]. intros u _ Hf. inversion_clear Hf. auto.
Qed.

Lemma new_wf mx wnd now : 0 < mx → entries_wf now (NewRateLimiter mx wnd).
Proof. intros Hm ip. simpl. rewrite lookup_empty. simpl. split; [lia|]. split; constructor. Qed.

Lemma int_seconds_pos d : 0 < d → int_seconds d * Second <= d < (int_seconds d + 1) * Second.
Proof.
  intros Hd. unfold int_seconds, Second. rewrite Z.quot_div_nonneg by lia.
  pose proof (Z.div_mod d 1000000000 ltac:(lia)).
  pose proof (Z.mod_pos_bound d 1000000000 ltac:(lia)). lia.
Qed.

(** A refusal, read off the limiter: the oldest request that still counts determines
    when the next one passes. *)
Lemma Allow_refused rl ip now rl' ra :
  0 < max rl → entries_wf now rl → Allow rl ip now = Some (rl', (false, ra)) →
  ∃ t0 ts, List.filter (active (now - window rl)) (default [] (entries rl !! ip)) = t0 :: ts ∧
    Z.of_nat (length (t0 :: ts)) = max rl ∧ Forall (λ t, t0 <= t) ts ∧ now - window rl < t0 ∧
    rl' = set_entries rl (<[ip := t0 :: ts]> (entries rl)) ∧
    ra = int_seconds (t0 + window rl - now) + 1.
Proof.
  intros Hm Hwf. destruct (Hwf ip) as (Hl & Hs & _).
  apply (StronglySorted_filter _ (active (now - window rl))) in Hs. unfold Allow.
  pose proof (filter_length_le (active (now - window rl)) (default [] (entries rl !! ip))) as Hle.
  assert (Hact : Forall (λ t, now - window rl < t)
    (List.filter (active (now - window rl)) (default [] (entries rl !! ip)))).
  { rewrite Forall_forall. intros t Ht. apply list_elem_of_In, filter_In in Ht as [_ Ht].
    unfold active in Ht. by breflect. }
  destruct (List.filter _ _) as [|t0 ts]; [by case_match|].
  destruct (Z.leb_spec (max rl) (Z.of_nat (length (t0 :: ts)))); [|done].
  intros ?; simplify_eq. exists t0, ts. inversion_clear Hs. inversion_clear Hact.
  split; [done|]. split; [lia|]. split; [done|]. split; [done|]. split; [done|].
  pose proof (int_seconds_pos (t0 + window rl - now) ltac:(lia)) as Hp.
  unfold Second in Hp. lia.
Qed.

(** The [Retry-After] of a refused request is honest: it is at least one second; the
    client's next request passes if it comes after that many seconds, and is refused if
    it comes more than a second earlier. *)
Theorem retry_after_honest mx wnd t evs rl log ip now rl' ra :
  0 < mx → timed t evs → t <= now → Forall (λ e, event_time e <= now) evs →
  serve (NewRateLimiter mx wnd) evs = Some (rl, log) →
  Allow rl ip now = Some (rl', (false, ra)) →
  1 <= ra ∧
  (∀ later, now + ra * Second <= later → ∃ rl'', Allow rl' ip later = Some (rl'', (true, 0))) ∧
  (∀ later, now <= later < now + (ra - 1) * Second →
     ∃ rl'' ra', Allow rl' ip later = Some (rl'', (false, ra'))).
Proof.
  intros Hm Ht Hnow Hf Es Ea.
  apply (serve_wf evs t) in Es as (Em & Ew & Hwf); [|done|done|by apply new_wf].
  simpl in Em, Ew. specialize (Hwf now Hnow Hf).
  apply Allow_refused in Ea as (t0 & ts & _ & Hlen & Hts & Hact & -> & ->); [|lia|done].
  pose proof (int_seconds_pos (t0 + window rl - now) ltac:(lia)) as Hd.
  split; [unfold Second in Hd; lia|]. split; intros later Hl; unfold Allow; simpl entries;
    simpl max; simpl window; rewrite lookup_insert_eq; simpl default.
  - assert (E : List.filter (active (later - window rl)) (t0 :: ts) =
                List.filter (active (later - window rl)) ts).
    { simpl. unfold active at 1. destruct (Z.ltb_spec (later - window rl) t0); [lia|done]. }
    rewrite E. pose proof (filter_length_le (active (later - window rl)) ts).
    simpl in Hlen. destruct (Z.leb_spec (max rl)
      (Z.of_nat (length (List.filter (active (later - window rl)) ts)))); [lia|eauto].
  - assert (E : List.filter (active (later - window rl)) (t0 :: ts) = t0 :: ts).
    { apply forallb_filter_id, forallb_forall. intros x Hx. apply Z.ltb_lt.
      rewrite Forall_forall in Hts. destruct Hx as [->|Hx]; [lia|].
      apply list_elem_of_In in Hx. specialize (Hts x Hx). lia. }
    rewrite E, Hlen, Z.leb_refl. eauto.
Qed.

(** A limiter of one request in three seconds after a request at time 0. *)
Definition limiter_spent : RateLimiter :=
  {| entries := {["a"%string := [0]]}; max := 1; window := 3 * Second |}.

Lemma retry_after_honest_witness :
  serve (NewRateLimiter 1 (3 * Second)) [Hit "a" 0; Sweep 1] =
    Some (limiter_spent, [("a"%string, 0, true)]) ∧
  Allow limiter_spent "a" Second = Some (limiter_spent, (false, 3)) ∧
  1 <= 3 ∧
  (∀ later, Second + 3 * Second <= later →
     ∃ rl', Allow limiter_spent "a" later = Some (rl', (true, 0))) ∧
  (∀ later, Second <= later < Second + (3 - 1) * Second →
     ∃ rl' ra', Allow limiter_spent "a" later = Some (rl', (false, ra'))).
Proof.
  split; [reflexivity|]. split; [reflexivity|].
  apply (retry_after_honest 1 (3 * Second) 0 [Hit "a" 0; Sweep 1] limiter_spent
    [("a"%string, 0, true)] "a" Second limiter_spent 3); try reflexivity;
    [simpl; lia|unfold Second; lia|unfold Second; repeat constructor; simpl; lia].
Defined.

(** With a limit of zero or less, which the configuration file accepts, [Allow] panics
    on a client without requests in the window, its first request included; no other
    call panics. *)
Theorem allow_panics_iff rl ip now :
  Allow rl ip now = None ↔
  max rl <= 0 ∧ Forall (λ t, t <= now - window rl) (default [] (entries rl !! ip)).
Proof.
  unfold Allow. generalize (default [] (entries rl !! ip)); intros l.
  assert (Hnil : List.filter (active (now - window rl)) l = [] ↔
                 Forall (λ t, t <= now - window rl) l).
  { induction l as [|t l IH]; simpl; [split; auto|]. rewrite Forall_cons, <- IH.
    unfold active at 1. destruct (Z.ltb_spec (now - window rl) t); [|naive_solver].
    split; [done|lia]. }
  rewrite <- Hnil. destruct (List.filter _ l) as [|t0 ts]; simpl.
  - change (Z.of_nat 0) with 0. destruct (Z.leb_spec (max rl) 0) as [Hle|Hgt]; [tauto|].
    split; [done|]. intros [Hle _]. lia.
  - destruct (max rl <=? _); (split; [done|]); by intros [_ ?].
Qed.

(** *** Attribution *)

Section attribution.
Context `{Netip}.

(** A hop at which the walk stops. *)
Definition stops (trusted : list Prefix) (part : string) : bool :=
  let hop := trim_space part in
  negb (bool_decide (hop = ""%string)) &&
  match ParseAddr hop with Some a => negb (ipInPrefixes a trusted) | None => true end.

Lemma walk_hops_stops trusted r1 r2 l l1 l2 :
  existsb (stops trusted) l = true →
  walk_hops trusted r1 (l ++ l1) = walk_hops trusted r2 (l ++ l2).
Proof.
  induction l as [|p l IH]; simpl; [done|]. unfold stops at 1. simpl.
  case_decide as Hp; simpl; [rewrite bool_decide_true by done; auto|].
  rewrite bool_decide_false by done. simpl.
  destruct (ParseAddr (trim_space p)) as [a|]; [|done].
  destruct (ipInPrefixes a trusted); simpl; auto.
Qed.

Lemma existsb_rev {A} (f : A → bool) l : existsb f (rev l) = existsb f l.
Proof.
  induction l as [|x l IH]; simpl; [done|].
  rewrite existsb_app, IH. simpl. rewrite orb_false_r. apply orb_comm.
Qed.

(** The address a request is attributed to cannot be spoofed: a client that reaches the
    server directly gets its own address whatever [X-Forwarded-For] says, and once the
    proxies have appended a hop that is not trusted, nothing in front of it counts. *)
Theorem clientIP_unspoofable RemoteAddr trusted :
  (∀ remote xff xff', ParseAddr (remote_host RemoteAddr) = Some remote →
     ipInPrefixes remote trusted = false →
     clientIP RemoteAddr xff trusted = clientIP RemoteAddr xff' trusted) ∧
  (∀ spoof appended, existsb (stops trusted) (split "," appended) = true →
     clientIP RemoteAddr (spoof +:+ String "," appended) trusted =
     clientIP RemoteAddr appended trusted).
Proof.
  split.
  - intros remote xff xff' Hp Hu. unfold clientIP. by rewrite Hp, Hu.
  - intros spoof appended Hs. unfold clientIP.
    destruct (ParseAddr (remote_host RemoteAddr)) as [remote|]; [|done].
    destruct (negb (ipInPrefixes remote trusted)); [done|].
    rewrite (decide_False (P := (spoof +:+ String "," appended) = ""%string))
      by (by destruct spoof).
    rewrite decide_False by (by intros ->).
    rewrite split_app_any, rev_app_distr.
    rewrite <- (app_nil_r (rev (split "," appended))) at 2.
    apply walk_hops_stops. by rewrite existsb_rev.
Qed.
End attribution.

(** Addresses and prefixes as text, for the examples: an address starts with a digit, a
    prefix is a prefix of the text. *)
Definition text_netip : Netip :=
  let digit s := match s with
                 | String c _ => (48 <=? Z.of_nat (nat_of_ascii c)) &&
                                 (Z.of_nat (nat_of_ascii c) <=? 57)
                 | EmptyString => false
                 end in
  {| Addr := string; Prefix := string;
     ParseAddr := λ s, if digit s then Some s else None;
     ParsePrefix := λ s, if has_suffix "." s then Some s else None;
     Unmap := λ a, a; AddrString := λ a, a; Contains := λ p a, has_prefix p a;
     HostPrefix := λ a, a; Is6 := λ _, false; Is4In6 := λ _, false; Masked64 := λ a, a |}.

#[local] Existing Instance text_netip.

Lemma clientIP_unspoofable_witness :
  clientIP "10.0.0.1:443" ("9.9.9.9, 8.8.8.8" +:+ String "," " 203.0.113.9, 10.0.0.2") ["10."%string] =
    clientIP "10.0.0.1:443" " 203.0.113.9, 10.0.0.2" ["10."%string] ∧
  clientIP "10.0.0.1:443" " 203.0.113.9, 10.0.0.2" ["10."%string] = "203.0.113.9"%string.
Proof.
  split; [|reflexivity].
  apply (proj2 (@clientIP_unspoofable text_netip "10.0.0.1:443" ["10."%string])). reflexivity.
Defined.

(** ** The engine limiter *)

(** [engineLimiter]: a buffered channel whose tokens are the running engine jobs. *)
Record engineLimiter := { cap : Z; tokens : Z }.

Definition newEngineLimiter (max : Z) : option engineLimiter :=
  if max <? 1 then None else Some {| cap := max; tokens := 0 |}.

(** [Acquire] sends into the channel; [None] while it would block. *)
Definition Acquire (l : option engineLimiter) : option (option engineLimiter) :=
  match l with
  | None => Some None
  | Some l => if tokens l <? cap l then Some (Some {| cap := cap l; tokens := tokens l + 1 |})
              else None
  end.

(** [Release] receives from it; [None] while it would block. *)
Definition Release (l : option engineLimiter) : option (option engineLimiter) :=
  match l with
  | None => Some None
  | Some l => if 0 <? tokens l then Some (Some {| cap := cap l; tokens := tokens l - 1 |})
              else None
  end.

(** Workers around the limiter: [running] hold a slot. *)
Record pool := { limiter : option engineLimiter; running : Z }.

Inductive pool_step : pool → pool → Prop :=
| pool_start p l : Acquire (limiter p) = Some l →
    pool_step p {| limiter := l; running := running p + 1 |}
| pool_finish p l : 0 < running p → Release (limiter p) = Some l →
    pool_step p {| limiter := l; running := running p - 1 |}.

(** With a limit configured no more engine runs than the limit are in flight, and a
    finished run can always give its slot back: [Release] never blocks. *)
Theorem engine_limit max p :
  1 <= max →
  rtc pool_step {| limiter := newEngineLimiter max; running := 0 |} p →
  0 <= running p <= max ∧ (0 < running p → Release (limiter p) ≠ None) ∧
  (running p < max → Acquire (limiter p) ≠ None).
Proof.
  intros Hm Hr.
  assert (∃ l, limiter p = Some l ∧ cap l = max ∧ tokens l = running p ∧ 0 <= running p <= max)
    as (l & -> & Hc & Ht & Hb).
  { revert Hr. apply (rtc_invariant pool_step
      (λ p, ∃ l, limiter p = Some l ∧ cap l = max ∧ tokens l = running p ∧ 0 <= running p <= max)).
    - intros x y (l & El & Hc & Ht & Hb) Hs.
      inversion Hs as [? l' Ha|? l' Hp Ha]; subst; rewrite El in Ha; simpl in Ha.
      + destruct (Z.ltb_spec (tokens l) (cap l)); simplify_eq. eexists. repeat split; simpl; lia.
      + destruct (Z.ltb_spec 0 (tokens l)); simplify_eq. eexists. repeat split; simpl; lia.
    - unfold newEngineLimiter. destruct (Z.ltb_spec max 1); [lia|]. eexists; simpl.
      repeat split; simpl; lia. }
  split; [done|]. simpl. split; intros H.
  - destruct (Z.ltb_spec 0 (tokens l)); [done|lia].
  - destruct (Z.ltb_spec (tokens l) (cap l)); [done|lia].
Qed.

Lemma engine_limit_witness :
  let p := {| limiter := Some {| cap := 2; tokens := 1 |}; running := 1 |} in
  0 <= running p <= 2 ∧ (0 < running p → Release (limiter p) ≠ None) ∧
  (running p < 2 → Acquire (limiter p) ≠ None).
Proof.
  apply (engine_limit 2); [lia|].
  eapply rtc_l; [|apply rtc_refl].
  apply (pool_start {| limiter := newEngineLimiter 2; running := 0 |}). reflexivity.
Defined.
