(* ===== verification/NsGuards.v ===== *)
(** * Query guards of a nameserver: [engine/nameserver]

    The trackers that decide whether a query is sent at all: [reachability.go],
    [fast_fail.go], [latency_budget.go], [concurrency_cap.go] and [limits.go], with the
    counters ([cacheMetrics] of [state.go]) they share with the caches.  Times and
    durations are nanoseconds; a method of a nil receiver does nothing and is left out. *)

From S2P Require Import Prelude GoStrings.

Local Open Scope Z_scope.
Local Open Scope list_scope.

(** ** Counters *)

(** [cacheMetrics], and the snapshot [CacheMetrics] of it: three [uint64] counters. *)
Record cacheMetrics := { hits : Z; misses : Z; evictions : Z }.

Definition zero_metrics : cacheMetrics := {| hits := 0; misses := 0; evictions := 0 |}.

Definition hit (m : cacheMetrics) : cacheMetrics :=
  {| hits := wrapu64 (hits m + 1); misses := misses m; evictions := evictions m |}.
Definition miss (m : cacheMetrics) : cacheMetrics :=
  {| hits := hits m; misses := wrapu64 (misses m + 1); evictions := evictions m |}.
Definition evict (n : Z) (m : cacheMetrics) : cacheMetrics :=
  if n <=? 0 then m
  else {| hits := hits m; misses := misses m; evictions := wrapu64 (evictions m + n) |}.
Definition reset (m : cacheMetrics) : cacheMetrics := zero_metrics.

(** ** Reachability: [reachability.go] *)

Module Reachability.

Record reachabilityCache := {
  data : gmap string Z;       (* address to the end of its blackout *)
  pending : gmap string Z;    (* address to its first hard error *)
  met : cacheMetrics;
  maxEntries : Z
}.

Definition newReachabilityCacheWithLimit (max : Z) : reachabilityCache :=
  {| data := ∅; pending := ∅; met := zero_metrics; maxEntries := max |}.

Definition defaultReachabilityMaxEntries : Z := 1024.
Definition newReachabilityCache : reachabilityCache :=
  newReachabilityCacheWithLimit defaultReachabilityMaxEntries.

Definition set_data c d m := {| data := d; pending := pending c; met := m; maxEntries := maxEntries c |}.
Definition set_pending c p m := {| data := data c; pending := p; met := m; maxEntries := maxEntries c |}.

Definition shouldSkip (c : reachabilityCache) (addr : string) (now : Z)
  : reachabilityCache * (bool * Z) :=
  if decide (addr = ""%string) then (c, (false, 0))
  else match data c !! addr with
       | None => (set_data c (data c) (miss (met c)), (false, 0))
       | Some expiry =>
           if now <? expiry then (set_data c (data c) (hit (met c)), (true, expiry - now))
           else (set_data c (delete addr (data c)) (miss (evict 1 (met c))), (false, 0))
       end.

Definition sweepLocked (c : reachabilityCache) (now ttl : Z) : reachabilityCache :=
  let data' := filter (λ e, now < e.2) (data c) in
  let pending' := filter (λ e, now - e.2 <= ttl) (pending c) in
  let evicted := Z.of_nat (size (data c) - size data') + Z.of_nat (size (pending c) - size pending') in
  {| data := data'; pending := pending'; met := evict evicted (met c); maxEntries := maxEntries c |}.

(** The two tests of [mark]: the address is in blackout; it has a recent strike. *)
Definition in_blackout (c : reachabilityCache) (addr : string) (now : Z) : bool :=
  match data c !! addr with Some expiry => now <? expiry | None => false end.
Definition has_strike (c : reachabilityCache) (addr : string) (ttl now : Z) : bool :=
  match pending c !! addr with Some firstSeen => now - firstSeen <=? ttl | None => false end.

Section mark.
(** The order in which [range] visits a map. *)
Variable visit : gmap string Z → list (string * Z).

(** The search loop of [evictOldestLocked]. *)
Definition oldest_of (m : gmap string Z) : string * Z :=
  fold_left (λ '(oldestAddr, oldest) '(addr, stamp),
    if bool_decide (oldestAddr = ""%string) || (stamp <? oldest) then (addr, stamp)
    else (oldestAddr, oldest)) (visit m) (""%string, 0).

(** [evictOldestLocked] on one of the two maps. *)
Definition evictOldestLocked (maxEntries : Z) (m : gmap string Z) (met : cacheMetrics)
  : gmap string Z * cacheMetrics :=
  if (maxEntries <=? 0) || (Z.of_nat (size m) <? maxEntries) then (m, met)
  else
    let oldestAddr := (oldest_of m).1 in
    if decide (oldestAddr = ""%string) then (m, met)
    else (delete oldestAddr m, evict 1 met).

Definition mark (c : reachabilityCache) (addr : string) (ttl now : Z) : reachabilityCache :=
  if bool_decide (addr = ""%string) || (ttl <=? 0) then c
  else if in_blackout c addr now then c
  else if has_strike c addr ttl now then
    let c := sweepLocked c now ttl in
    let '(d, m) := evictOldestLocked (maxEntries c) (data c) (met c) in
    {| data := <[addr := now + ttl]> d; pending := delete addr (pending c); met := m;
       maxEntries := maxEntries c |}
  else
    let c := sweepLocked c now ttl in
    let '(p, m) := evictOldestLocked (maxEntries c) (pending c) (met c) in
    {| data := data c; pending := <[addr := now]> p; met := m; maxEntries := maxEntries c |}.
End mark.

Definition observeSuccess (c : reachabilityCache) (addr : string) : reachabilityCache :=
  if decide (addr = ""%string) then c else set_pending c (delete addr (pending c)) (met c).

Definition clear (c : reachabilityCache) : reachabilityCache :=
  {| data := ∅; pending := ∅; met := reset (met c); maxEntries := maxEntries c |}.

Definition len (c : reachabilityCache) : Z * Z :=
  (Z.of_nat (size (data c)), Z.of_nat (size (pending c))).

(** What [errors.As] and [errors.Is] report of an error, and its text. *)
Inductive errno := EHOSTUNREACH | ENETUNREACH | EHOSTDOWN | ENETDOWN.
Record net_error := {
  net_timeout : option bool;   (* [Timeout()] of the [net.Error] in the chain, if any *)
  is_errno : errno → bool;
  error_text : string
}.

Definition isHardNetworkError `{GoUnicode} (err : option net_error) : bool :=
  match err with
  | None => false
  | Some e =>
      if match net_timeout e with Some true => true | _ => false end then false
      else if existsb (is_errno e) [EHOSTUNREACH; ENETUNREACH; EHOSTDOWN; ENETDOWN] then true
      else
        let msg := to_lower (error_text e) in
        contains msg "no route to host" || contains msg "network is unreachable" ||
        contains msg "host is unreachable" || contains msg "host unreachable"
  end.

End Reachability.

(** ** Fast fail: [fast_fail.go] *)

Module FastFail.

Definition isTimeoutPatternError `{GoUnicode} (err : option Reachability.net_error) : bool :=
  match err with
  | None => false
  | Some e =>
      if match Reachability.net_timeout e with Some true => true | _ => false end then true
      else contains (to_lower (Reachability.error_text e)) "timeout"
  end.

Record protocolFastFailState := { consecutiveTimeouts : Z; blocked : bool }.
Record fastFailTracker := { udp : protocolFastFailState; tcp : protocolFastFailState }.

Definition fresh : protocolFastFailState := {| consecutiveTimeouts := 0; blocked := false |}.
Definition tracker0 : fastFailTracker := {| udp := fresh; tcp := fresh |}.

Definition stateForProtocol (t : fastFailTracker) (useTCP : bool) : protocolFastFailState :=
  if useTCP then tcp t else udp t.
Definition set_state (t : fastFailTracker) (useTCP : bool) (s : protocolFastFailState) :=
  if useTCP then {| udp := udp t; tcp := s |} else {| udp := s; tcp := tcp t |}.

Definition shouldSkip (t : fastFailTracker) (useTCP : bool) (threshold : Z) : bool :=
  if threshold <=? 0 then false else blocked (stateForProtocol t useTCP).

Definition sawConsecutiveTimeouts (t : fastFailTracker) (useTCP : bool) : bool :=
  let state := stateForProtocol t useTCP in
  blocked state || (2 <=? consecutiveTimeouts state).

Definition observeResult (t : fastFailTracker) (useTCP timeoutPattern : bool) (threshold : Z)
  : fastFailTracker * bool :=
  if threshold <=? 0 then (t, false)
  else
    let state := stateForProtocol t useTCP in
    if negb timeoutPattern then (set_state t useTCP fresh, false)
    else if blocked state then (t, false)
    else
      let n := wrap64 (consecutiveTimeouts state + 1) in
      if threshold <=? n
      then (set_state t useTCP {| consecutiveTimeouts := 0; blocked := true |}, true)
      else (set_state t useTCP {| consecutiveTimeouts := n; blocked := false |}, false).

End FastFail.

(** ** Latency budget: [latency_budget.go] *)

Module Latency.

Record latencyTracker := { total : Z; blocked : bool }.
Definition tracker0 : latencyTracker := {| total := 0; blocked := false |}.

Definition observe (t : latencyTracker) (elapsed budget : Z) : latencyTracker * bool :=
  if budget <=? 0 then (t, false)
  else if blocked t then (t, false)
  else
    let total' := wrap64 (total t + elapsed) in
    if budget <=? total' then ({| total := total'; blocked := true |}, true)
    else ({| total := total'; blocked := false |}, false).

Definition shouldSkip (t : latencyTracker) (budget : Z) : bool :=
  if budget <=? 0 then false else blocked t.

End Latency.

(** ** Concurrency cap: [concurrency_cap.go] *)

Module ConcurrencyCap.

(** [waitCh] tells whether a channel is there to wait on. *)
Record nameserverConcurrencyCap := { inflight : Z; waitCh : bool }.
Definition cap0 : nameserverConcurrencyCap := {| inflight := 0; waitCh := false |}.

(** The critical section of [acquire]: [true] when a slot was taken, [false] when the
    caller goes to sleep on the channel. *)
Definition acquire_lock (c : nameserverConcurrencyCap) (limit : Z)
  : nameserverConcurrencyCap * bool :=
  if inflight c <? limit then ({| inflight := inflight c + 1; waitCh := waitCh c |}, true)
  else ({| inflight := inflight c; waitCh := true |}, false).

(** [release]: [true] when it closed the channel and so woke the sleepers. *)
Definition release (c : nameserverConcurrencyCap) : nameserverConcurrencyCap * bool :=
  ({| inflight := if 0 <? inflight c then inflight c - 1 else inflight c; waitCh := false |},
   waitCh c).

(** The goroutines of one address, which all pass the same positive [limit]: [trying] are about to take the mutex, [asleep] wait on
    the open channel, [holding] run a query. *)
Record users := { cap : nameserverConcurrencyCap; trying : Z; asleep : Z; holding : Z }.
Definition users0 : users := {| cap := cap0; trying := 0; asleep := 0; holding := 0 |}.

Inductive step (limit : Z) : users → users → Prop :=
| step_call u :
    step limit u {| cap := cap u; trying := trying u + 1; asleep := asleep u; holding := holding u |}
| step_acquire u c :
    0 < trying u → acquire_lock (cap u) limit = (c, true) →
    step limit u {| cap := c; trying := trying u - 1; asleep := asleep u; holding := holding u + 1 |}
| step_sleep u c :
    0 < trying u → acquire_lock (cap u) limit = (c, false) →
    step limit u {| cap := c; trying := trying u - 1; asleep := asleep u + 1; holding := holding u |}
| step_cancel u :
    0 < asleep u →
    step limit u {| cap := cap u; trying := trying u; asleep := asleep u - 1; holding := holding u |}
| step_release u c woke :
    0 < holding u → release (cap u) = (c, woke) →
    step limit u {| cap := c; trying := if (woke : bool) then trying u + asleep u else trying u;
                    asleep := if woke then 0 else asleep u; holding := holding u - 1 |}.

End ConcurrencyCap.

(** ** Fan-out bounds: [limits.go] *)

Module Limits.

Definition MaxNSNames : nat := 32.
Definition MaxNSAddresses : nat := 16.
Definition MaxRunAddresses : nat := 512.

Definition BoundNSNames : string := "ns_names_per_zone".
Definition BoundNSAddresses : string := "addresses_per_ns".
Definition BoundRunAddresses : string := "addresses_per_run".

Section limits.
(** [netip.Addr] with its [String] method; [Log] stands for the identity of a logger. *)
Context {Addr : Type} `{Countable Addr} (AddrString : Addr → string).
Context {Log : Type} `{Countable Log}.

Definition limitKey : Type := Log * string * string.

Record runLimits := { addrs : gset Addr; logged : gset limitKey }.
Definition newRunLimits : runLimits := {| addrs := ∅; logged := ∅ |}.

Definition admits (l : runLimits) (addr : Addr) : runLimits * bool :=
  if decide (addr ∈ addrs l) then (l, true)
  else if (MaxRunAddresses <=? size (addrs l))%nat then (l, false)
  else ({| addrs := {[addr]} ∪ addrs l; logged := logged l |}, true).

Definition first (l : runLimits) (key : limitKey) : runLimits * bool :=
  if decide (key ∈ logged l) then (l, false)
  else ({| addrs := addrs l; logged := {[key]} ∪ logged l |}, true).

(** [limitReached] of a logger of the run: the limits and whether LIMIT_REACHED is logged. *)
Definition limitReached (log : Log) (l : runLimits) (bound domain : string) : runLimits * bool :=
  first l (log, bound, if decide (bound = BoundRunAddresses) then ""%string else domain).

(** [CapNames]: the names kept, and whether the bound is reported. *)
Definition CapNames {T} (names : list T) : list T * bool :=
  if (length names <=? MaxNSNames)%nat then (names, false) else (take MaxNSNames names, true).

(** The order of [slices.SortFunc] with [strings.Compare] on the text of the addresses. *)
Definition addr_le (a b : Addr) : Prop := String.le (AddrString a) (AddrString b).
#[export] Instance addr_le_dec : RelDecision addr_le.
Proof. intros a b. unfold addr_le. apply _. Defined.

(** [slices.Compact] *)
Fixpoint compact (l : list Addr) : list Addr :=
  match l with
  | [] => []
  | a :: rest => match rest with
                 | b :: _ => if decide (a = b) then compact rest else a :: compact rest
                 | [] => [a]
                 end
  end.

Definition CapAddresses (l : list Addr) : list Addr * bool :=
  let out := compact (merge_sort addr_le l) in
  if (length out <=? MaxNSAddresses)%nat then (out, false) else (take MaxNSAddresses out, true).

(** [slices.Sorted(maps.Keys(m))] *)
Definition sorted_names (m : gmap string (list Addr)) : list string :=
  merge_sort String.le (elements (dom m)).

(** [CapNSMap]: the names past the bound are deleted, the addresses of the others cut. *)
Definition CapNSMap (m : gmap string (list Addr)) : gmap string (list Addr) :=
  let names := sorted_names m in
  let cut := drop (length (CapNames names).1) names in
  (λ l, match l with [] => [] | _ => (CapAddresses l).1 end) <$>
    foldl (λ m name, delete name m) m cut.

End limits.
End Limits.

(** ** Reachability: two strikes, bounded memory *)

Module ReachabilityFacts.
Import Reachability.

Section facts.
#[local] Set Default Proof Using "Type*".
Variable visit : gmap string Z → list (string * Z).
Hypothesis visit_perm : ∀ m, visit m ≡ₚ map_to_list m.

(** What happens to the cache of a run. *)
Inductive event :=
| Mark (addr : string) (ttl now : Z)     (* a hard network error *)
| Success (addr : string)                (* an answer *)
| Query (addr : string) (now : Z)        (* a query asks [shouldSkip] *)
| Clear.

#[export] Instance event_eq_dec : EqDecision event.
Proof. solve_decision. Defined.

Definition apply (c : reachabilityCache) (e : event) : reachabilityCache :=
  match e with
  | Mark addr ttl now => mark visit c addr ttl now
  | Success addr => observeSuccess c addr
  | Query addr now => (shouldSkip c addr now).1
  | Clear => clear c
  end.

Definition run (max : Z) (evs : list event) : reachabilityCache :=
  fold_left apply evs (newReachabilityCacheWithLimit max).

Lemma run_snoc max evs e : run max (evs ++ [e]) = apply (run max evs) e.
Proof. unfold run. by rewrite fold_left_app. Qed.

(** *** Eviction *)

(** The search finds an entry of a map without the empty key. *)
Lemma oldest_of_in m :
  m !! ""%string = None → m ≠ ∅ → ∃ t, m !! (oldest_of visit m).1 = Some t.
Proof.
  intros He Hm. unfold oldest_of.
  assert (Hin : ∀ x, x ∈ visit m → m !! x.1 = Some x.2).
  { intros [k v] Hx. rewrite visit_perm in Hx. by apply elem_of_map_to_list in Hx. }
  assert (Hne : visit m ≠ []).
  { intros Hn. apply Hm. apply map_to_list_empty_iff. apply Permutation_nil.
    by rewrite <- Hn, visit_perm. }
  destruct (visit m) as [|[k v] l]; [done|]. clear Hne. simpl.
  assert (Hgen : ∀ l a t, m !! a = Some t → (∀ x, x ∈ l → m !! x.1 = Some x.2) →
    ∃ t', m !! (fold_left (λ '(oldestAddr, oldest) '(addr, stamp),
      if bool_decide (oldestAddr = ""%string) || (stamp <? oldest) then (addr, stamp)
      else (oldestAddr, oldest)) l (a, t)).1 = Some t').
  { clear. induction l as [|[a' t'] l IH]; intros a t Ha Hl; simpl; [eauto|].
    destruct (_ || _); apply IH; eauto using list_elem_of_further.
    apply (Hl (a', t')), list_elem_of_here. }
  apply Hgen; [apply (Hin (k, v)), list_elem_of_here|]. eauto using list_elem_of_further.
Qed.

Lemma evict_spec max m met m' met' :
  m !! ""%string = None → evictOldestLocked visit max m met = (m', met') →
  m' ⊆ m ∧ (0 < max → Z.of_nat (size m) <= max → Z.of_nat (size m') < max).
Proof.
  intros He. unfold evictOldestLocked.
  destruct ((max <=? 0) || (Z.of_nat (size m) <? max)) eqn:E.
  { intros ?; simplify_eq. split; [done|]. intros ??. breflect; lia. }
  breflect. case_decide as Ho; intros ?; simplify_eq.
  - split; [done|]. intros ? Hs. exfalso.
    destruct (oldest_of_in m' He) as [t Ht]; [|congruence].
    intros ->. rewrite map_size_empty in *. lia.
  - split; [apply delete_subseteq|]. intros ? Hs.
    destruct (oldest_of_in m He) as [t Ht].
    { intros ->. rewrite map_size_empty in *. lia. }
    rewrite map_size_delete_Some by eauto. destruct (size m); simpl; lia.
Qed.

(** *** Bounds *)

Record bounded (max : Z) (c : reachabilityCache) : Prop := {
  bounded_max : maxEntries c = max;
  bounded_data : Z.of_nat (size (data c)) <= max;
  bounded_pending : Z.of_nat (size (pending c)) <= max;
  bounded_data_key : data c !! ""%string = None;
  bounded_pending_key : pending c !! ""%string = None
}.

Lemma lookup_filter_None {P : string * Z → Prop} `{∀ x, Decision (P x)} (m : gmap string Z) k :
  m !! k = None → filter P m !! k = None.
Proof. intros Hk. rewrite map_lookup_filter. by rewrite Hk. Qed.

Lemma sweep_bounded max c now ttl : bounded max c → bounded max (sweepLocked c now ttl).
Proof.
  intros [H1 H2 H3 H4 H5]. unfold sweepLocked. split; simpl; eauto using lookup_filter_None.
  - pose proof (map_size_filter (λ e : string * Z, now < e.2) (data c)). lia.
  - pose proof (map_size_filter (λ e : string * Z, now - e.2 <= ttl) (pending c)). lia.
Qed.

Lemma size_insert_lt max (m : gmap string Z) k v :
  Z.of_nat (size m) < max → Z.of_nat (size (<[k := v]> m)) <= max.
Proof.
  intros H. rewrite map_size_insert. destruct (m !! k); simpl; lia.
Qed.

Lemma size_delete (m : gmap string Z) k : (size (delete k m) <= size m)%nat.
Proof. apply map_subseteq_size, delete_subseteq. Qed.

Lemma subset_None (m m' : gmap string Z) k : m' ⊆ m → m !! k = None → m' !! k = None.
Proof. intros Hs Hk. by eapply lookup_weaken_None. Qed.

Lemma apply_bounded max c e : 0 < max → bounded max c → bounded max (apply c e).
Proof.
  intros Hm Hb. destruct e as [addr ttl now|addr|addr now|]; simpl.
  - unfold mark. destruct (bool_decide (addr = ""%string) || (ttl <=? 0)) eqn:E; [done|].
    breflect. destruct (in_blackout c addr now); [done|].
    apply (sweep_bounded _ _ now ttl) in Hb. set (c1 := sweepLocked c now ttl) in *.
    clearbody c1. destruct Hb as [H1 H2 H3 H4 H5]. rewrite H1.
    destruct (has_strike c addr ttl now).
    + destruct (evictOldestLocked visit max (data c1) (met c1)) as [d m] eqn:Ee.
      apply evict_spec in Ee as [Hs Hsz]; [|done]. split; simpl; auto.
      * apply size_insert_lt. auto.
      * pose proof (size_delete (pending c1) addr). lia.
      * rewrite lookup_insert_ne by done. by eapply subset_None.
      * eapply subset_None; [apply delete_subseteq|done].
    + destruct (evictOldestLocked visit max (pending c1) (met c1)) as [d m] eqn:Ee.
      apply evict_spec in Ee as [Hs Hsz]; [|done]. split; simpl; auto.
      * apply size_insert_lt. auto.
      * rewrite lookup_insert_ne by done. by eapply subset_None.
  - unfold observeSuccess. case_decide; [done|]. destruct Hb as [H1 H2 H3 H4 H5].
    split; simpl; auto; [pose proof (size_delete (pending c) addr); lia|].
    eapply subset_None; [apply delete_subseteq|done].
  - unfold shouldSkip. case_decide; [done|]. destruct Hb as [H1 H2 H3 H4 H5].
    destruct (data c !! addr) as [x|]; [destruct (now <? x)|]; simpl; split; simpl; auto.
    + pose proof (size_delete (data c) addr). lia.
    + eapply subset_None; [apply delete_subseteq|done].
  - split; simpl; rewrite ?map_size_empty, ?lookup_empty; auto; try lia. apply Hb.
Qed.

Lemma sub_refl (m : gmap string Z) : m ⊆ m.
Proof. reflexivity. Qed.

(** *** Where strikes and blackouts come from *)

Definition quiet (addr : string) (e : event) : Prop := e ≠ Success addr ∧ e ≠ Clear.

Definition struck (evs : list event) (addr : string) (t : Z) : Prop :=
  ∃ pre ttl post, evs = pre ++ Mark addr ttl t :: post ∧ Forall (quiet addr) post.

Definition two_strikes (evs : list event) (addr : string) (expiry : Z) : Prop :=
  ∃ pre ttl1 t1 mid ttl t2 post,
    evs = pre ++ Mark addr ttl1 t1 :: mid ++ Mark addr ttl t2 :: post ∧
    Forall (quiet addr) mid ∧ t2 - t1 <= ttl ∧ expiry = t2 + ttl ∧ Forall (λ e, e ≠ Clear) post.

Record justified (evs : list event) (c : reachabilityCache) : Prop := {
  justified_pending : ∀ addr t, pending c !! addr = Some t → struck evs addr t;
  justified_data : ∀ addr x, data c !! addr = Some x → two_strikes evs addr x
}.

Lemma struck_snoc evs e addr t : quiet addr e → struck evs addr t → struck (evs ++ [e]) addr t.
Proof.
  intros He (pre & ttl & post & -> & Hp). exists pre, ttl, (post ++ [e]).
  rewrite <- (assoc_L (++)). split; [done|]. apply Forall_app; auto.
Qed.

Lemma two_strikes_snoc evs e addr x :
  e ≠ Clear → two_strikes evs addr x → two_strikes (evs ++ [e]) addr x.
Proof.
  intros He (pre & ttl1 & t1 & mid & ttl & t2 & post & -> & Hm & Ht & Hx & Hp).
  exists pre, ttl1, t1, mid, ttl, t2, (post ++ [e]).
  split; [by rewrite <- !(assoc_L (++)), <- app_comm_cons, <- !(assoc_L (++))|].
  do 3 (split; [done|]). apply Forall_app; auto.
Qed.

Lemma two_strikes_new evs addr ttl t1 t2 :
  struck evs addr t1 → t2 - t1 <= ttl → two_strikes (evs ++ [Mark addr ttl t2]) addr (t2 + ttl).
Proof.
  intros (pre & ttl1 & post & -> & Hp) Ht. exists pre, ttl1, t1, post, ttl, t2, [].
  split; [by rewrite <- (assoc_L (++)), <- app_comm_cons|]. auto.
Qed.

Lemma mark_quiet addr ttl t a : quiet a (Mark addr ttl t).
Proof. by split. Qed.

Lemma justified_subset evs e c d p m :
  e ≠ Clear → (∀ a t, p !! a = Some t → quiet a e) → d ⊆ data c → p ⊆ pending c →
  justified evs c →
  justified (evs ++ [e]) {| data := d; pending := p; met := m; maxEntries := maxEntries c |}.
Proof.
  intros He Hq Hd Hp [Jp Jd]. split; simpl; intros a x Ha.
  - apply struck_snoc; [eauto|]. apply Jp. by eapply lookup_weaken.
  - apply two_strikes_snoc; [done|]. apply Jd. by eapply lookup_weaken.
Qed.

Lemma sweep_justified evs c now ttl :
  justified evs c → justified evs (sweepLocked c now ttl).
Proof.
  intros [Jp Jd]. split; simpl; intros a x Ha; apply map_lookup_filter_Some in Ha as [Ha _]; auto.
Qed.

Lemma mark_justified max evs c addr ttl now :
  bounded max c → justified evs c →
  justified (evs ++ [Mark addr ttl now]) (mark visit c addr ttl now).
Proof.
  intros Hb J. assert (Hsame : justified (evs ++ [Mark addr ttl now]) c).
  { destruct c as [d p m x].
    exact (justified_subset _ (Mark addr ttl now) (Build_reachabilityCache d p m x) d p m ltac:(done)
             (λ a _ _, mark_quiet addr ttl now a) (sub_refl _) (sub_refl _) J). }
  unfold mark. destruct (_ || _); [done|]. destruct (in_blackout c addr now); [done|].
  pose proof (sweep_justified _ _ now ttl J) as J1.
  apply (sweep_bounded _ _ now ttl) in Hb.
  destruct (has_strike c addr ttl now) eqn:Hs.
  - unfold has_strike in Hs. destruct (pending c !! addr) as [t1|] eqn:Hp; [|done].
    apply (justified_pending _ _ J) in Hp. breflect.
    destruct (evictOldestLocked visit _ _ _) as [d m] eqn:Ee.
    apply evict_spec in Ee as [Hsub _]; [|apply Hb].
    pose proof (justified_subset _ (Mark addr ttl now) _ d _ m ltac:(done)
      (λ a _ _, mark_quiet addr ttl now a) Hsub (sub_refl _) J1) as [Jp Jd]. simpl in Jp, Jd.
    split; simpl; intros a x Ha.
    + apply lookup_delete_Some in Ha as [_ Ha]. auto.
    + apply lookup_insert_Some in Ha as [[<- <-]|[_ Ha]]; [by apply two_strikes_new with t1|auto].
  - destruct (evictOldestLocked visit _ _ _) as [p m] eqn:Ee.
    apply evict_spec in Ee as [Hsub _]; [|apply Hb].
    pose proof (justified_subset _ (Mark addr ttl now) _ _ p m ltac:(done)
      (λ a _ _, mark_quiet addr ttl now a) (sub_refl _) Hsub J1) as [Jp Jd]. simpl in Jp, Jd.
    split; simpl; intros a x Ha; [|auto].
    apply lookup_insert_Some in Ha as [[<- <-]|[_ Ha]]; [|auto].
    exists evs, ttl, []. auto.
Qed.

Lemma run_justified max evs : 0 < max → bounded max (run max evs) ∧ justified evs (run max evs).
Proof.
  intros Hm. induction evs as [|e evs IH] using rev_ind.
  { split; [split; simpl; rewrite ?map_size_empty, ?lookup_empty; auto; lia|].
    split; simpl; intros a x Ha; by rewrite lookup_empty in Ha. }
  rewrite run_snoc. destruct IH as [Hb J]. split; [by apply apply_bounded|].
  set (c := run max evs) in *. clearbody c.
  assert (Hid : e ≠ Clear → (∀ a t, pending c !! a = Some t → quiet a e) →
    justified (evs ++ [e]) c).
  { intros He Hq. destruct c as [d p m x].
    exact (justified_subset _ e (Build_reachabilityCache d p m x) d p m He Hq (sub_refl _) (sub_refl _) J). }
  destruct e as [addr ttl now|addr|addr now|]; simpl.
  - by eapply mark_justified.
  - unfold observeSuccess. case_decide as Ha.
    + subst. apply Hid; [done|]. intros a t Hat. split; [|done]. intros [= <-].
      by rewrite (bounded_pending_key _ _ Hb) in Hat.
    + apply justified_subset; [done| |done|apply delete_subseteq|done].
      intros a t Hat. apply lookup_delete_Some in Hat as [Hne _]. split; congruence.
  - unfold shouldSkip. case_decide; [by apply Hid|].
    destruct (data c !! addr) as [x|]; [destruct (now <? x)|]; simpl;
      (apply justified_subset; [done|by intros| |done|done]); first [apply sub_refl|apply delete_subseteq].
  - split; simpl; intros a x Ha; by rewrite lookup_empty in Ha.
Qed.

(** A blackout is never the work of one error: when [shouldSkip] turns a query to an
    address away there were two hard errors of that address, the second within its
    [ttl] of the first and with no answer in between, and that [ttl] still runs. *)
Theorem blackout_needs_two_strikes max evs addr now :
  0 < max → (shouldSkip (run max evs) addr now).2.1 = true →
  ∃ expiry, two_strikes evs addr expiry ∧ now < expiry ∧
            (shouldSkip (run max evs) addr now).2.2 = expiry - now.
Proof.
  intros Hm Hs. destruct (run_justified max evs Hm) as [_ [_ Jd]]. revert Hs.
  unfold shouldSkip. case_decide; [done|].
  destruct (data (run max evs) !! addr) as [x|] eqn:E; [|done].
  destruct (Z.ltb_spec now x); [|done]. intros _. exists x. auto.
Qed.

(** Neither the blackouts nor the pending strikes of a run outgrow the limit, whatever
    addresses fail and in whatever order the map is searched for its oldest entry. *)
Theorem reachability_bounded max evs :
  0 < max →
  0 <= (len (run max evs)).1 <= max ∧ 0 <= (len (run max evs)).2 <= max.
Proof.
  intros Hm. destruct (run_justified max evs Hm) as [[_ Hd Hp _ _] _]. simpl. lia.
Qed.
End facts.

(** Two errors of one address 5 apart, with a success of another address in between. *)
Definition strikes : list event := [Mark "a" 10 100; Success "b"; Mark "a" 10 105].

Lemma blackout_needs_two_strikes_witness :
  ∃ expiry, two_strikes strikes "a" expiry ∧ 110 < expiry ∧
            (shouldSkip (run map_to_list 8 strikes) "a" 110).2.2 = expiry - 110.
Proof.
  apply (blackout_needs_two_strikes map_to_list (λ m, Permutation_refl _) 8 strikes "a" 110);
    [lia|reflexivity].
Defined.

Lemma reachability_bounded_witness :
  let evs := [Mark "a" 10 100; Mark "b" 10 101; Mark "c" 10 102] in
  0 <= (len (run map_to_list 2 evs)).1 <= 2 ∧ 0 <= (len (run map_to_list 2 evs)).2 <= 2.
Proof. apply (reachability_bounded map_to_list (λ m, Permutation_refl _)). lia. Defined.

End ReachabilityFacts.

(** ** Fast fail: exactly at the threshold *)

Module FastFailFacts.
Import FastFail.

(** A run of attempts, each with its protocol and whether it timed out. *)
Definition run (threshold : Z) (tr : list (bool * bool)) : fastFailTracker :=
  fold_left (λ t a, (observeResult t a.1 a.2 threshold).1) tr tracker0.

(** The timeouts of one protocol since its last other outcome. *)
Definition trailing (useTCP : bool) (tr : list (bool * bool)) : Z :=
  fold_left (λ (n : Z) (a : bool * bool), if Bool.eqb a.1 useTCP then if a.2 then n + 1 else 0 else n) tr 0.

Lemma trailing_snoc useTCP tr a :
  trailing useTCP (tr ++ [a]) =
  if Bool.eqb a.1 useTCP then if a.2 then trailing useTCP tr + 1 else 0 else trailing useTCP tr.
Proof. unfold trailing. by rewrite fold_left_app. Qed.

Lemma fail_run_snoc threshold tr a :
  run threshold (tr ++ [a]) = (observeResult (run threshold tr) a.1 a.2 threshold).1.
Proof. unfold run. by rewrite fold_left_app. Qed.

Lemma state_set t p q s :
  stateForProtocol (set_state t p s) q = if Bool.eqb p q then s else stateForProtocol t q.
Proof. by destruct p, q. Qed.

(** The tracker as a function of the trailing timeouts. *)
Definition state_of (threshold n : Z) : protocolFastFailState :=
  if threshold <=? n then {| consecutiveTimeouts := 0; blocked := true |}
  else {| consecutiveTimeouts := n; blocked := false |}.

Lemma observe_spec threshold t p to n :
  0 < threshold < 2 ^ 63 → 0 <= n → stateForProtocol t p = state_of threshold n →
  ∃ s, observeResult t p to threshold = (s, to && (n + 1 =? threshold)) ∧
       ∀ q, stateForProtocol s q = if Bool.eqb p q
                                   then state_of threshold (if to then n + 1 else 0)
                                   else stateForProtocol t q.
Proof.
  intros Ht Hn Hs. unfold observeResult. destruct (Z.leb_spec threshold 0); [lia|].
  rewrite Hs. destruct to; simpl.
  - unfold state_of. destruct (Z.leb_spec threshold n) as [Hle|Hgt]; simpl.
    + exists t. split; [f_equal; symmetry; apply Z.eqb_neq; lia|]. intros q.
      destruct (Bool.eqb p q) eqn:E; [|done]. apply Bool.eqb_prop in E as <-. rewrite Hs.
      unfold state_of. by destruct (Z.leb_spec threshold n), (Z.leb_spec threshold (n + 1)); try lia.
    + rewrite wrap64_id by (unfold int64_ok; lia).
      destruct (Z.leb_spec threshold (n + 1)); simpl;
        (eexists; split; [f_equal; symmetry; first [apply Z.eqb_eq; lia|apply Z.eqb_neq; lia]|]);
        intros q; apply state_set.
  - eexists; split; [done|]. intros q. rewrite state_set.
    unfold state_of. destruct (Z.leb_spec threshold 0); [lia|done].
Qed.

Lemma trailing_nonneg p tr : 0 <= trailing p tr.
Proof.
  induction tr as [|a tr IH] using rev_ind; [done|]. rewrite trailing_snoc.
  destruct (Bool.eqb a.1 p), a.2; lia.
Qed.

Lemma run_state threshold tr p :
  0 < threshold < 2 ^ 63 →
  stateForProtocol (run threshold tr) p = state_of threshold (trailing p tr).
Proof.
  intros Ht. revert p. induction tr as [|a tr IH] using rev_ind; intros p.
  - unfold state_of, trailing; simpl. destruct (Z.leb_spec threshold 0); [lia|by destruct p].
  - rewrite fail_run_snoc, trailing_snoc.
    destruct (observe_spec threshold (run threshold tr) a.1 a.2 (trailing a.1 tr))
      as (s & -> & Hs); [done|apply trailing_nonneg|apply IH|].
    simpl. rewrite Hs. destruct (Bool.eqb a.1 p) eqn:E; [|apply IH].
    by apply Bool.eqb_prop in E as ->.
Qed.

(** After any run of attempts a protocol is skipped exactly when its last [threshold]
    outcomes were timeouts, the block is reported exactly once, by the attempt that
    completes them, and the error-cache debounce holds from the second timeout on (from
    the first when the threshold is one); the protocols do not affect each other. *)
Theorem fast_fail_exact threshold tr useTCP timeout :
  0 < threshold < 2 ^ 63 →
  let t := run threshold tr in
  shouldSkip t useTCP threshold = (threshold <=? trailing useTCP tr) ∧
  (observeResult t useTCP timeout threshold).2 =
    timeout && (trailing useTCP tr + 1 =? threshold) ∧
  sawConsecutiveTimeouts t useTCP = (Z.min threshold 2 <=? trailing useTCP tr).
Proof.
  intros Ht. pose proof (run_state threshold tr useTCP Ht) as Hs.
  pose proof (trailing_nonneg useTCP tr) as Hn.
  destruct (observe_spec threshold (run threshold tr) useTCP timeout (trailing useTCP tr))
    as (s & Ho & _); [done|done|done|].
  cbv zeta. rewrite Ho. unfold shouldSkip, sawConsecutiveTimeouts. rewrite Hs.
  destruct (Z.leb_spec threshold 0); [lia|]. unfold state_of.
  destruct (Z.leb_spec threshold (trailing useTCP tr)); simpl; repeat split; auto.
  - symmetry. apply Z.leb_le. lia.
  - destruct (Z.leb_spec 2 (trailing useTCP tr)); symmetry; [apply Z.leb_le|apply Z.leb_gt]; lia.
Qed.

Lemma fast_fail_exact_witness :
  let tr := [(false, true); (true, true); (false, true)] in
  shouldSkip (run 3 tr) false 3 = (3 <=? trailing false tr) ∧
  (observeResult (run 3 tr) false true 3).2 = true && (trailing false tr + 1 =? 3) ∧
  sawConsecutiveTimeouts (run 3 tr) false = (Z.min 3 2 <=? trailing false tr).
Proof. apply (fast_fail_exact 3 [(false, true); (true, true); (false, true)] false true). lia. Defined.

End FastFailFacts.

(** ** Concurrency cap: bounded, and nobody sleeps on a free slot *)

Module ConcurrencyCapFacts.
Import ConcurrencyCap.

Record inv (limit : Z) (u : users) : Prop := {
  inv_held : inflight (cap u) = holding u;
  inv_limit : 0 <= holding u <= limit;
  inv_counts : 0 <= trying u ∧ 0 <= asleep u;
  inv_sleep : 0 < asleep u → waitCh (cap u) = true ∧ holding u = limit
}.

Lemma inv_step limit u u' : inv limit u → step limit u u' → inv limit u'.
Proof.
  intros [H1 H2 [H3 H4] H5] Hs. inversion Hs as [|? c Hp Ha|? c Hp Ha|? Hp|? c w Hp Ha]; subst;
    unfold acquire_lock, release in *.
  - split; simpl; auto; lia.
  - destruct (Z.ltb_spec (inflight (cap u)) limit); [|done]. simplify_eq.
    split; simpl; try lia.
  - destruct (Z.ltb_spec (inflight (cap u)) limit); [done|]. simplify_eq.
    split; simpl; try lia.
  - split; simpl; auto; lia.
  - simplify_eq. destruct (Z.ltb_spec 0 (inflight (cap u))); [|lia].
    destruct (waitCh (cap u)) eqn:Hw; split; simpl; try lia; intros Ha; lia || (destruct H5; [lia|congruence]).
Qed.

(** C39: At most [limit] queries to an address are in flight, and a caller sleeps only while
    all slots are held, each by a query whose [release] wakes every sleeper: no caller
    sleeps next to a free slot. *)
Theorem concurrency_cap_safe limit u :
  0 < limit → rtc (step limit) users0 u →
  0 <= holding u <= limit ∧ inflight (cap u) = holding u ∧
  (0 < asleep u → holding u = limit ∧
     ∀ c woke, release (cap u) = (c, woke) → woke = true ∧ (acquire_lock c limit).2 = true).
Proof.
  intros Hl Hr. assert (inv limit u) as [H1 H2 [H3 H4] H5].
  { revert Hr. apply rtc_invariant; [apply inv_step|]. split; simpl; lia. }
  split; [done|]. split; [done|]. intros Ha. destruct (H5 Ha) as [Hw Hh]. split; [done|].
  unfold release, acquire_lock. intros c woke E. injection E as <- <-. split; [done|]. simpl.
  destruct (Z.ltb_spec 0 (inflight (cap u))); [|lia].
  destruct (Z.ltb_spec (inflight (cap u) - 1) limit); [done|lia].
Qed.

Lemma concurrency_cap_safe_witness :
  let u := {| cap := {| inflight := 1; waitCh := true |}; trying := 0; asleep := 1; holding := 1 |} in
  0 <= holding u <= 1 ∧ inflight (cap u) = holding u ∧
  (0 < asleep u → holding u = 1 ∧
     ∀ c woke, release (cap u) = (c, woke) → woke = true ∧ (acquire_lock c 1).2 = true).
Proof.
  apply (concurrency_cap_safe 1); [lia|].
  eapply rtc_l; [apply step_call|]. eapply rtc_l; [apply step_call|].
  eapply rtc_l; [eapply step_acquire; [simpl; lia|reflexivity]|].
  eapply rtc_l; [eapply step_sleep; [simpl; lia|reflexivity]|]. apply rtc_refl.
Defined.

End ConcurrencyCapFacts.

(** ** Fan-out bounds *)

Module LimitsFacts.
Import Limits.

Lemma CapNames_take {T} (names : list T) :
  CapNames names = (take MaxNSNames names, (MaxNSNames <? length names)%nat).
Proof.
  unfold CapNames. destruct (Nat.leb_spec (length names) MaxNSNames).
  - rewrite take_ge by done. f_equal. symmetry. by apply Nat.ltb_ge.
  - f_equal. symmetry. by apply Nat.ltb_lt.
Qed.

Lemma foldl_delete_lookup {V} (cut : list string) (m : gmap string V) n :
  foldl (λ m name, delete name m) m cut !! n = if decide (n ∈ cut) then None else m !! n.
Proof.
  revert m. induction cut as [|c cut IH]; intros m; simpl; [done|]. rewrite IH.
  destruct (decide (n = c)) as [->|Hne].
  - rewrite lookup_delete_eq. repeat case_decide; set_solver.
  - rewrite lookup_delete_ne by done. repeat case_decide; set_solver.
Qed.

Section facts.
#[local] Set Default Proof Using "Type*".
Context {Addr : Type} `{Countable Addr} (AddrString : Addr → string).
Context {Log : Type} `{Countable Log}.
(** Two addresses with the same text are the same address. *)
Context `{!Inj (=) (=) AddrString}.

#[local] Abbreviation le := (addr_le AddrString).

#[export] Instance addr_le_trans : Transitive le.
Proof. intros a b c. unfold addr_le. apply String.le_po. Qed.
#[export] Instance addr_le_total : Total le.
Proof. intros a b. unfold addr_le. apply String.le_total. Qed.
Lemma addr_le_antisymm a b : le a b → le b a → a = b.
Proof. unfold addr_le. intros H1 H2. apply (inj AddrString). by apply (anti_symm String.le). Qed.
#[export] Instance addr_le_anti : AntiSymm (=) le.
Proof. intros a b. apply addr_le_antisymm. Qed.

Lemma compact_elem (l : list Addr) a : a ∈ compact l ↔ a ∈ l.
Proof.
  induction l as [|b l IH]; simpl; [done|].
  destruct l as [|c l]; [done|]. case_decide as Hbc; [subst; rewrite IH|]; set_solver.
Qed.

Lemma compact_sorted l : StronglySorted le l → StronglySorted le (compact l) ∧ NoDup (compact l).
Proof.
  induction 1 as [|a l Hs IH Hf]; simpl; [split; constructor|]. destruct IH as [IHs IHn].
  destruct l as [|b l]; [split; repeat constructor; set_solver|]. case_decide as Hab; [done|].
  assert (Hf' : Forall (le a) (compact (b :: l))).
  { rewrite Forall_forall in *. intros x Hx. apply Hf. by apply compact_elem. }
  split; constructor; auto. rewrite compact_elem. intros Ha.
  apply Hab, addr_le_antisymm; [by inversion Hf|].
  inversion Hs as [|? ? ? Hb]; subst. apply elem_of_cons in Ha as [->|Ha]; [done|].
  rewrite Forall_forall in Hb. auto.
Qed.

(** The sorted addresses without repetition. *)
Definition sorted_unique (l : list Addr) : list Addr := compact (merge_sort le l).

Lemma sorted_unique_spec l :
  StronglySorted le (sorted_unique l) ∧ NoDup (sorted_unique l) ∧
  ∀ a, a ∈ sorted_unique l ↔ a ∈ l.
Proof.
  unfold sorted_unique. destruct (compact_sorted (merge_sort le l)) as [Hs Hn].
  { apply StronglySorted_merge_sort; apply _. }
  split; [done|]. split; [done|]. intros a. by rewrite compact_elem, merge_sort_Permutation.
Qed.

Lemma sorted_unique_ext l1 l2 :
  (∀ a, a ∈ l1 ↔ a ∈ l2) → sorted_unique l1 = sorted_unique l2.
Proof.
  intros He. destruct (sorted_unique_spec l1) as (S1 & N1 & E1), (sorted_unique_spec l2) as (S2 & N2 & E2).
  apply (StronglySorted_unique le); auto. apply NoDup_Permutation; auto.
  intros a. by rewrite E1, E2.
Qed.

Lemma CapAddresses_take l :
  CapAddresses AddrString l =
    (take MaxNSAddresses (sorted_unique l), (MaxNSAddresses <? length (sorted_unique l))%nat).
Proof.
  unfold CapAddresses. fold (sorted_unique l).
  destruct (Nat.leb_spec (length (sorted_unique l)) MaxNSAddresses).
  - rewrite take_ge by done. f_equal. symmetry. by apply Nat.ltb_ge.
  - f_equal. symmetry. by apply Nat.ltb_lt.
Qed.

(** [CapAddresses] is canonical: its result depends only on which addresses it is
    given, not on their order or repetition; it holds at most 16 of them, each once and
    in the order of their text, and every address it leaves out comes after all it keeps;
    the bound is reported exactly when something is left out. *)
Theorem CapAddresses_canonical l :
  let out := (CapAddresses AddrString l).1 in
  (∀ l', (∀ a, a ∈ l ↔ a ∈ l') → CapAddresses AddrString l' = CapAddresses AddrString l) ∧
  (length out <= 16)%nat ∧ NoDup out ∧ StronglySorted le out ∧ (∀ a, a ∈ out → a ∈ l) ∧
  (∀ a b, a ∈ out → b ∈ l → b ∉ out → le a b) ∧
  ((CapAddresses AddrString l).2 = true ↔ ∃ b, b ∈ l ∧ (b ∉ out)).
Proof.
  destruct (sorted_unique_spec l) as (Hs & Hn & He). rewrite CapAddresses_take. simpl.
  rewrite <- (take_drop MaxNSAddresses (sorted_unique l)) in Hs, Hn.
  pose proof (take_drop MaxNSAddresses (sorted_unique l)) as Htd.
  assert (Hin : ∀ a, a ∈ l ↔ a ∈ take MaxNSAddresses (sorted_unique l) ∨
                               a ∈ drop MaxNSAddresses (sorted_unique l)).
  { intros a. by rewrite <- He, <- elem_of_app, Htd. }
  split; [|split; [|split; [|split; [|split; [|split]]]]].
  - intros l' Hl. by rewrite CapAddresses_take, (sorted_unique_ext l l').
  - rewrite length_take. unfold MaxNSAddresses. lia.
  - by apply NoDup_app in Hn as [? _].
  - by apply StronglySorted_app_1_l in Hs.
  - intros a Ha. apply Hin. auto.
  - intros a b Ha Hb Hout. apply Hin in Hb as [?|Hb]; [done|].
    by eapply StronglySorted_app_1_elem_of.
  - rewrite Nat.ltb_lt. apply NoDup_app in Hn as (_ & Hd & _). split.
    + intros Hlt. destruct (drop MaxNSAddresses (sorted_unique l)) as [|b d] eqn:E.
      { apply (f_equal length) in E. rewrite length_drop in E. simpl in E. lia. }
      exists b. split; [apply Hin; right; set_solver|]. intros Hb. apply (Hd b Hb). set_solver.
    + intros (b & Hb & Hout). apply Hin in Hb as [?|Hb]; [done|].
      apply list_elem_of_lookup_1 in Hb as [i Hi]. apply lookup_lt_Some in Hi.
      rewrite length_drop in Hi. lia.
Qed.

(** *** Name maps *)

Lemma sorted_names_spec (m : gmap string (list Addr)) :
  StronglySorted String.le (sorted_names m) ∧ NoDup (sorted_names m) ∧
  ∀ n, n ∈ sorted_names m ↔ n ∈ dom m.
Proof.
  unfold sorted_names. split; [apply StronglySorted_merge_sort; apply _|].
  split; [rewrite merge_sort_Permutation; apply NoDup_elements|].
  intros n. by rewrite merge_sort_Permutation, elem_of_elements.
Qed.

Lemma CapNSMap_lookup m n :
  CapNSMap AddrString m !! n =
    if decide (n ∈ take MaxNSNames (sorted_names m))
    then (λ l, (CapAddresses AddrString l).1) <$> m !! n else None.
Proof.
  destruct (sorted_names_spec m) as (_ & Hn & He). unfold CapNSMap.
  rewrite CapNames_take. simpl fst. rewrite lookup_fmap, foldl_delete_lookup, length_take.
  assert (Hdrop : drop (MaxNSNames `min` length (sorted_names m)) (sorted_names m) =
                  drop MaxNSNames (sorted_names m)).
  { destruct (Nat.le_gt_cases MaxNSNames (length (sorted_names m))); [f_equal; lia|].
    rewrite !drop_ge by lia. done. }
  rewrite Hdrop. specialize (He n).
  rewrite <- (take_drop MaxNSNames (sorted_names m)), elem_of_app in He.
  rewrite <- (take_drop MaxNSNames (sorted_names m)) in Hn.
  apply NoDup_app in Hn as (_ & Hd & _). specialize (Hd n).
  case_decide as Hc; case_decide as Ht; simpl; try naive_solver.
  - destruct (m !! n) as [[|a l]|] eqn:E; done.
  - destruct (m !! n) as [l|] eqn:E; simpl; [|done].
    apply elem_of_dom_2 in E. naive_solver.
Qed.

(** [CapNSMap] keeps at most 32 names, the first in order, and for each of them the
    capped addresses; nothing is invented. *)
Theorem CapNSMap_bounded m :
  let r := CapNSMap AddrString m in
  (size r <= 32)%nat ∧
  (∀ n l, r !! n = Some l →
     ∃ l0, m !! n = Some l0 ∧ l = (CapAddresses AddrString l0).1 ∧ (length l <= 16)%nat) ∧
  (∀ n n', n ∈ dom r → n' ∈ dom m → n' ∉ dom r → String.le n n').
Proof.
  destruct (sorted_names_spec m) as (Hs & Hn & He). intros r.
  assert (Hdom : ∀ n, n ∈ dom r ↔ n ∈ take MaxNSNames (sorted_names m)).
  { intros n. unfold r. rewrite elem_of_dom, CapNSMap_lookup. case_decide as Hc; [|naive_solver].
    split; [done|]. intros _. rewrite fmap_is_Some. apply elem_of_dom, He.
    rewrite <- (take_drop MaxNSNames (sorted_names m)). set_solver. }
  split; [|split].
  - rewrite <- size_dom. transitivity (length (take MaxNSNames (sorted_names m))).
    + transitivity (size (list_to_set (take MaxNSNames (sorted_names m)) : gset string)).
      * apply subseteq_size. intros n Hr. apply elem_of_list_to_set. by apply Hdom.
      * rewrite <- (take_drop MaxNSNames (sorted_names m)) in Hn. apply NoDup_app in Hn as [Hn _].
        by rewrite size_list_to_set.
    + rewrite length_take. unfold MaxNSNames. lia.
  - intros n l. unfold r. rewrite CapNSMap_lookup. case_decide; [|done].
    intros (l0 & -> & ?)%fmap_Some. exists l0. do 2 (split; [done|]). subst l.
    rewrite CapAddresses_take. simpl. rewrite length_take. unfold MaxNSAddresses. lia.
  - intros n n' Hin Hm Hout. rewrite Hdom in *. apply He in Hm.
    rewrite <- (take_drop MaxNSNames (sorted_names m)) in Hm, Hs.
    apply elem_of_app in Hm as [?|Hm]; [done|]. by eapply StronglySorted_app_1_elem_of.
Qed.

End facts.

(** *** Addresses of a run *)

Section admits.
Context {Addr : Type} `{Countable Addr} {Log : Type} `{Countable Log}.

Definition admit_all (l : list Addr) : runLimits (Addr:=Addr) (Log:=Log) :=
  fold_left (λ s a, (admits s a).1) l newRunLimits.

#[local] Opaque MaxRunAddresses.
Lemma max_run : MaxRunAddresses = 512%nat.
Proof. reflexivity. Qed.

#[local] Abbreviation limits := (runLimits (Addr:=Addr) (Log:=Log)).

Lemma admit_verdict (s : limits) a :
  (admits s a).2 = true ↔ a ∈ addrs s ∨ (size (addrs s) < 512)%nat.
Proof.
  pose proof max_run as Hc. unfold admits. case_decide; simpl; [tauto|].
  destruct (Nat.leb_spec MaxRunAddresses (size (addrs s))); simpl;
    [|split; [intros _; right; lia|done]]. split; [done|]. intros [?|?]; [done|lia].
Qed.

Lemma admit_grows (s : limits) b :
  (size (addrs s) <= 512)%nat →
  (size (addrs (admits s b).1) <= 512)%nat ∧ addrs s ⊆ addrs (admits s b).1 ∧
  ((size (addrs s) = 512)%nat → addrs (admits s b).1 = addrs s).
Proof.
  pose proof max_run as Hc. intros Hs. unfold admits. case_decide as Hb; simpl; [done|].
  destruct (Nat.leb_spec MaxRunAddresses (size (addrs s))); simpl; [done|].
  rewrite size_union, size_singleton by set_solver. split; [lia|]. split; [set_solver|lia].
Qed.

Lemma admit_list_grows l : ∀ s : limits, (size (addrs s) <= 512)%nat →
  let s' := fold_left (λ s a, (admits s a).1) l s in
  (size (addrs s') <= 512)%nat ∧ addrs s ⊆ addrs s' ∧
  ((size (addrs s) = 512)%nat → addrs s' = addrs s).
Proof.
  induction l as [|b l IH]; intros s Hs; simpl; [done|].
  destruct (admit_grows s b Hs) as (H1 & H2 & H3). destruct (IH _ H1) as (I1 & I2 & I3).
  split; [done|]. split; [set_solver|]. intros E. rewrite <- (H3 E). apply I3. by rewrite H3.
Qed.

(** A run queries at most 512 addresses: an address is admitted exactly when it was
    admitted before or fewer than 512 were, and neither verdict is ever taken back. *)
Theorem admit_first_512 l later a :
  let s := admit_all l in
  (size (addrs s) <= 512)%nat ∧
  ((admits s a).2 = true ↔ a ∈ addrs s ∨ (size (addrs s) < 512)%nat) ∧
  (a ∈ addrs s → a ∈ addrs (admit_all (l ++ later))) ∧
  ((admits s a).2 = false → (admits (admit_all (l ++ later)) a).2 = false).
Proof.
  assert (Hsz : (size (addrs (admit_all l)) <= 512)%nat).
  { apply admit_list_grows. cbn [newRunLimits addrs]. rewrite size_empty. lia. }
  intros s. split; [done|]. split; [apply admit_verdict|].
  unfold admit_all. rewrite fold_left_app. fold (admit_all l). fold s.
  destruct (admit_list_grows later s Hsz) as (I1 & I2 & I3). split; [set_solver|].
  rewrite <- !not_true_iff_false, !admit_verdict. intros Hno [Hin|Hlt]; apply Hno.
  - destruct (decide (size (addrs s) = 512%nat)) as [E|E]; [rewrite I3 in Hin; auto|].
    right. fold s in Hsz. lia.
  - right. apply subseteq_size in I2. lia.
Qed.
End admits.

#[local] Instance id_string_inj : Inj (=) (=) (λ s : string, s).
Proof. intros x y H. exact H. Qed.

Lemma CapAddresses_canonical_witness :
  CapAddresses (λ s : string, s) ["b"; "a"; "b"]%string =
    CapAddresses (λ s : string, s) ["a"; "b"]%string ∧
  (CapAddresses (λ s : string, s) ["b"; "a"; "b"]%string).1 = ["a"; "b"]%string.
Proof.
  split; [|reflexivity].
  apply (proj1 (CapAddresses_canonical (λ s : string, s) ["a"; "b"]%string)). set_solver.
Defined.

Lemma CapNSMap_bounded_witness :
  let m := {["ns1"%string := ["b"; "a"; "b"]%string; "ns2"%string := []]} in
  (size (CapNSMap (λ s : string, s) m) <= 32)%nat.
Proof.
  apply (proj1 (CapNSMap_bounded (λ s : string, s)
    {["ns1"%string := ["b"; "a"; "b"]%string; "ns2"%string := []]})).
Defined.
End LimitsFacts.
