(* ===== verification/NsCache.v ===== *)
(** * Query and error caches of an address: [engine/nameserver/state.go]

    [queryCache] is a bounded FIFO of responses with a table of queries in flight, so
    that concurrent identical queries are sent once; [errorCache] remembers failures for
    a while.  Both report to counters that several stores may observe: a counter is
    named by a [counter], its value lives in the table [counters].  A response is of
    the type [Packet]; a cached [None] is the nil marker of a query without response.
    A nil map reads as the empty one, so the two are not told apart. *)

From S2P Require Import Prelude GoStrings NsGuards.

Local Open Scope Z_scope.
Local Open Scope list_scope.

(** ** Counters *)

(** The pointer to the query or error counters of a store. *)
Inductive counter := QueryMetricsOf (store : nat) | ErrorMetricsOf (store : nat).

#[export] Instance counter_eq_dec : EqDecision counter.
Proof. solve_decision. Defined.
#[export] Program Instance counter_countable : Countable counter :=
  inj_countable' (λ c, match c with QueryMetricsOf n => (false, n) | ErrorMetricsOf n => (true, n) end)
    (λ p, if p.1 : bool then ErrorMetricsOf p.2 else QueryMetricsOf p.2) _.
Next Obligation. by intros []. Qed.

Abbreviation counters := (gmap counter cacheMetrics).

Definition bump (f : cacheMetrics → cacheMetrics) (M : counters) (c : counter) : counters :=
  <[c := f (default zero_metrics (M !! c))]> M.

(** [observeHitLocked], [observeMissLocked], [observeEvictLocked]: the owner's counters
    first, then every observer's. *)
Definition observe (met : option counter) (observers : gset counter)
  (f : cacheMetrics → cacheMetrics) (M : counters) : counters :=
  foldl (bump f) (match met with Some c => bump f M c | None => M end) (elements observers).

(** ** The query cache *)

Module QueryCache.
Section cache.
Context {Packet : Type}.

Record queryCache := {
  data : gmap string (option Packet);
  order : list string;
  met : option counter;
  inflight : gmap string nat;      (* key to the query in flight *)
  observers : gset counter
}.

Definition newQueryCache (met : option counter) : queryCache :=
  {| data := ∅; order := []; met := met; inflight := ∅; observers := ∅ |}.

Definition set_data (c : queryCache) d o : queryCache :=
  {| data := d; order := o; met := met c; inflight := inflight c; observers := observers c |}.
Definition set_inflight (c : queryCache) i : queryCache :=
  {| data := data c; order := order c; met := met c; inflight := i; observers := observers c |}.
Definition set_observers (c : queryCache) o : queryCache :=
  {| data := data c; order := order c; met := met c; inflight := inflight c; observers := o |}.

Definition observed (c : queryCache) := observe (met c) (observers c).

Definition get (c : queryCache) (M : counters) (key : string) : counters * option (option Packet) :=
  match data c !! key with
  | Some value => (observed c hit M, Some value)
  | None => (observed c miss M, None)
  end.

(** [set] under the cap [max] ([QueryCacheMaxEntries]); [None] is the panic of slicing
    [order] past its end. *)
Definition set (max : Z) (c : queryCache) (M : counters) (key : string) (value : option Packet)
  : option (queryCache * counters) :=
  let o := match data c !! key with Some _ => order c | None => order c ++ [key] end in
  let d := <[key := value]> (data c) in
  if (0 <? max) && (max <? Z.of_nat (size d)) then
    let drop_n := (size d - Z.to_nat max)%nat in
    if (length o <? drop_n)%nat then None
    else Some (set_data c (foldl (λ m k, delete k m) d (take drop_n o)) (drop drop_n o),
               observed c (evict (Z.of_nat drop_n)) M)
  else Some (set_data c d o, M).

Definition clear (c : queryCache) (M : counters) : queryCache * counters :=
  (set_inflight (set_data c ∅ []) ∅, observed c (evict (Z.of_nat (size (data c)))) M).

Definition clearData (c : queryCache) (M : counters) : queryCache * counters :=
  (set_data c ∅ [], observed c (evict (Z.of_nat (size (data c)))) M).

Definition addObserver (c : queryCache) (o : counter) : queryCache :=
  set_observers c ({[o]} ∪ observers c).
Definition removeObserver (c : queryCache) (o : counter) : queryCache :=
  set_observers c (observers c ∖ {[o]}).

(** *** Queries in flight *)

(** [done] tells whether the channel is closed; [err] is the error text. *)
Record inflightQuery := {
  done : bool;
  resp : option Packet;
  err : option string;
  abandoned : bool
}.

Definition newInflight : inflightQuery :=
  {| done := false; resp := None; err := None; abandoned := false |}.

(** The allocated [inflightQuery] objects. *)
#[local] Abbreviation flights := (gmap nat inflightQuery).

(** [waitOrRegister]: the query and whether the caller is to wait for it. *)
Definition waitOrRegister (c : queryCache) (F : flights) (key : string)
  : queryCache * flights * nat * bool :=
  match inflight c !! key with
  | Some i => (c, F, i, true)
  | None =>
      let i := fresh (dom F) in
      (set_inflight c (<[key := i]> (inflight c)), <[i := newInflight]> F, i, false)
  end.

(** [close] of a channel: closing it twice panics. *)
Definition close_with (F : flights) (i : nat) (f : inflightQuery → inflightQuery)
  : option flights :=
  match F !! i with
  | Some q => if done q then None else Some (<[i := f q]> F)
  | None => None
  end.

Definition finish (c : queryCache) (F : flights) (key : string) (resp : option Packet)
  (err : option string) : option (queryCache * flights) :=
  match inflight c !! key with
  | None => Some (c, F)
  | Some i =>
      match close_with F i (λ q, {| done := true; resp := resp; err := err;
                                    abandoned := abandoned q |}) with
      | None => None
      | Some F' => Some (set_inflight c (delete key (inflight c)), F')
      end
  end.

Definition abandon (c : queryCache) (F : flights) (key : string) (i : nat)
  : option (queryCache * flights) :=
  if decide (inflight c !! key = Some i) then
    match close_with F i (λ q, {| done := true; resp := resp q; err := err q;
                                  abandoned := true |}) with
    | None => None
    | Some F' => Some (set_inflight c (delete key (inflight c)), F')
    end
  else Some (c, F).

End cache.
End QueryCache.

(** ** The error cache *)

Module ErrorCache.

Record errorCache := {
  data : gmap string Z;            (* key to the time its entry expires *)
  met : option counter;
  observers : gset counter
}.

Definition newErrorCache (met : option counter) : errorCache :=
  {| data := ∅; met := met; observers := ∅ |}.

Definition set_data (c : errorCache) d : errorCache :=
  {| data := d; met := met c; observers := observers c |}.

Definition observed (c : errorCache) := observe (met c) (observers c).

Definition shouldSkip (c : errorCache) (M : counters) (key : string) (now : Z)
  : errorCache * counters * (bool * Z) :=
  match data c !! key with
  | None => (c, observed c miss M, (false, 0))
  | Some expiry =>
      if expiry <? now
      then (set_data c (delete key (data c)), observed c miss (observed c (evict 1) M), (false, 0))
      else (c, observed c hit M, (true, expiry - now))
  end.

(** [set] at the time [now]: entries that have expired go first. *)
Definition set (c : errorCache) (M : counters) (key : string) (ttl now : Z)
  : errorCache * counters :=
  if ttl <=? 0 then (c, M)
  else
    let d := filter (λ e, now <= e.2) (data c) in
    let evicted := Z.of_nat (size (data c) - size d) in
    (set_data c (<[key := now + ttl]> d),
     if 0 <? evicted then observed c (evict evicted) M else M).

Definition clear (c : errorCache) (M : counters) : errorCache * counters :=
  (set_data c ∅, observed c (evict (Z.of_nat (size (data c)))) M).

Definition addObserver (c : errorCache) (o : counter) : errorCache :=
  {| data := data c; met := met c; observers := {[o]} ∪ observers c |}.
Definition removeObserver (c : errorCache) (o : counter) : errorCache :=
  {| data := data c; met := met c; observers := observers c ∖ {[o]} |}.

End ErrorCache.

(** ** Coalesced queries *)

(** The part of [QueryWithOptions] in [nameserver.go] from the in-flight loop on, for the
    goroutines of one cache.  A leader has registered its query; it ends by [finish]
    (whose arguments are the response it got, or none and an error, the error of its own
    canceled context included) and then by the deferred [abandon], or by a panic, when
    only [abandon] runs.  A waiter waits for the channel of its query. *)
Module Coalesce.
Import QueryCache.

Section coalesce.
Context {Packet : Type}.

(** What a caller of [QueryWithOptions] gets. *)
Inductive outcome :=
| Answer (key : string) (resp : option Packet) (err : option string)
| CtxDone.

Record goroutines := {
  cache : queryCache (Packet:=Packet);
  flight : gmap nat (inflightQuery (Packet:=Packet));
  starting : list string;                 (* about to call [waitOrRegister] *)
  leading : list (string * nat);          (* registered, [finish] not called *)
  ending : list (string * nat);           (* [finish] called, [abandon] not yet *)
  waiting : list (string * nat);
  (* how each finished waiter's query ended, in order *)
  outcomes : list (nat * outcome)
}.

Definition start (met : option counter) : goroutines :=
  {| cache := newQueryCache met; flight := ∅; starting := []; leading := []; ending := [];
     waiting := []; outcomes := [] |}.

(** [None]: the step panics. *)
Inductive step : goroutines → option goroutines → Prop :=
| step_call s key :
    step s (Some {| cache := cache s; flight := flight s; starting := key :: starting s;
                    leading := leading s; ending := ending s; waiting := waiting s;
                    outcomes := outcomes s |})
| step_register s l1 key l2 c F i wait :
    starting s = l1 ++ key :: l2 →
    waitOrRegister (cache s) (flight s) key = (c, F, i, wait) →
    step s (Some {| cache := c; flight := F; starting := l1 ++ l2;
                    leading := if wait then leading s else (key, i) :: leading s;
                    ending := ending s;
                    waiting := if wait then (key, i) :: waiting s else waiting s;
                    outcomes := outcomes s |})
| step_finish s l1 key i l2 resp err :
    leading s = l1 ++ (key, i) :: l2 →
    step s ((λ '(c, F), {| cache := c; flight := F; starting := starting s;
                           leading := l1 ++ l2; ending := (key, i) :: ending s;
                           waiting := waiting s; outcomes := outcomes s |})
            <$> finish (cache s) (flight s) key resp err)
| step_return s l1 key i l2 :
    ending s = l1 ++ (key, i) :: l2 →
    step s ((λ '(c, F), {| cache := c; flight := F; starting := starting s;
                           leading := leading s; ending := l1 ++ l2;
                           waiting := waiting s; outcomes := outcomes s |})
            <$> abandon (cache s) (flight s) key i)
| step_panic s l1 key i l2 :
    leading s = l1 ++ (key, i) :: l2 →
    step s ((λ '(c, F), {| cache := c; flight := F; starting := starting s;
                           leading := l1 ++ l2; ending := ending s;
                           waiting := waiting s; outcomes := outcomes s |})
            <$> abandon (cache s) (flight s) key i)
| step_wake s l1 key i l2 q :
    waiting s = l1 ++ (key, i) :: l2 → flight s !! i = Some q → done q = true →
    step s (Some {| cache := cache s; flight := flight s;
                    starting := if abandoned q then key :: starting s else starting s;
                    leading := leading s; ending := ending s; waiting := l1 ++ l2;
                    outcomes := if abandoned q then outcomes s
                                else outcomes s ++ [(i, Answer key (resp q) (err q))] |})
| step_cancel s l1 key i l2 :
    waiting s = l1 ++ (key, i) :: l2 →
    step s (Some {| cache := cache s; flight := flight s; starting := starting s;
                    leading := leading s; ending := ending s; waiting := l1 ++ l2;
                    outcomes := outcomes s ++ [(i, CtxDone)] |}).

End coalesce.
End Coalesce.

(** ** The query cache is a bounded FIFO *)

Module QueryCacheFacts.
Import QueryCache.

Section facts.
Context {Packet : Type}.
#[local] Abbreviation cache := (queryCache (Packet:=Packet)).

Record wf (c : cache) : Prop := {
  wf_nodup : NoDup (order c);
  wf_order : ∀ k, k ∈ order c ↔ is_Some (data c !! k)
}.

Lemma wf_size c : wf c → size (data c) = length (order c).
Proof.
  intros [Hn Ho]. rewrite <- size_dom.
  assert (dom (data c) = list_to_set (order c)) as ->.
  { apply set_eq. intros k. by rewrite elem_of_dom, elem_of_list_to_set, Ho. }
  by apply size_list_to_set.
Qed.

Lemma wf_new m : wf (newQueryCache m).
Proof. split; simpl; [constructor|]. intros k. rewrite lookup_empty. split; [set_solver|by intros []]. Qed.

Lemma cache_delete_lookup {V} (cut : list string) (m : gmap string V) n :
  foldl (λ m k, delete k m) m cut !! n = if decide (n ∈ cut) then None else m !! n.
Proof. apply LimitsFacts.foldl_delete_lookup. Qed.

Lemma drop_keeps (o : list string) n k :
  NoDup o → k ∈ o → (k ∈ drop n o ↔ k ∉ take n o).
Proof.
  intros Hn Hk. rewrite <- (take_drop n o) in Hn, Hk. apply NoDup_app in Hn as (_ & Hd & _).
  apply elem_of_app in Hk. specialize (Hd k). tauto.
Qed.

(** The insertion order after [set], before eviction. *)
Definition set_order (c : cache) (key : string) : list string :=
  match data c !! key with Some _ => order c | None => order c ++ [key] end.

Lemma set_order_spec c key value :
  wf c → wf (set_data c (<[key := value]> (data c)) (set_order c key)).
Proof.
  intros [Hn Ho]. unfold set_order. destruct (data c !! key) as [x|] eqn:E; split; simpl.
  - done.
  - intros k. rewrite Ho. destruct (decide (k = key)) as [->|Hne].
    + rewrite lookup_insert_eq, E. split; eauto.
    + by rewrite lookup_insert_ne.
  - apply NoDup_app. split; [done|]. split; [|apply NoDup_singleton].
    intros k Hk ->%list_elem_of_singleton. apply Ho in Hk. rewrite E in Hk. by destruct Hk.
  - intros k. rewrite elem_of_app, list_elem_of_singleton, Ho.
    destruct (decide (k = key)) as [->|Hne].
    + rewrite lookup_insert_eq. split; eauto.
    + rewrite lookup_insert_ne by done. tauto.
Qed.

(** How many of the oldest entries [set] evicts. *)
Definition excess (max : Z) (n : nat) : nat := if 0 <? max then (n - Z.to_nat max)%nat else 0%nat.

Lemma set_spec max c M key value :
  wf c →
  ∃ c' M', set max c M key value = Some (c', M') ∧ wf c' ∧
    order c' = drop (excess max (length (set_order c key))) (set_order c key) ∧
    (∀ k, k ∈ order c' → data c' !! k = <[key := value]> (data c) !! k) ∧
    inflight c' = inflight c ∧ met c' = met c ∧ observers c' = observers c.
Proof.
  intros Hwf. pose proof (set_order_spec c key value Hwf) as Hw.
  pose proof (wf_size _ Hw) as Hsz. simpl in Hsz. destruct Hw as [Hn Ho]. simpl in Hn, Ho.
  unfold set. fold (set_order c key). unfold excess.
  set (o := set_order c key) in *. set (d := <[key:=value]> (data c)) in *.
  destruct (Z.ltb_spec 0 max) as [Hm|Hm]; simpl; [destruct (Z.ltb_spec max (Z.of_nat (size d)))|].
  - rewrite Hsz. destruct (Nat.ltb_spec (length o) (length o - Z.to_nat max)); [lia|].
    set (n := (length o - Z.to_nat max)%nat). eexists _, _. split; [reflexivity|]. simpl.
    assert (Hd : ∀ k, k ∈ drop n o → foldl (λ m k, delete k m) d (take n o) !! k = d !! k).
    { intros k Hk. rewrite cache_delete_lookup, decide_False; [done|].
      apply drop_keeps; [done| |done]. rewrite <- (take_drop n o). set_solver. }
    split; [|auto]. split; simpl.
    + rewrite <- (take_drop n o) in Hn. by apply NoDup_app in Hn as (_ & _ & ?).
    + intros k. split.
      * intros Hk. rewrite Hd by done. apply Ho. rewrite <- (take_drop n o). set_solver.
      * rewrite cache_delete_lookup. case_decide as Hk; [by intros []|].
        intros Hs%Ho. by apply drop_keeps.
  - eexists _, _. split; [reflexivity|]. simpl.
    assert (length o - Z.to_nat max = 0)%nat as -> by lia. rewrite drop_0. by repeat split; try apply Ho.
  - eexists _, _. split; [reflexivity|]. simpl. rewrite drop_0. by repeat split; try apply Ho.
Qed.

(** *** The specification *)

(** The entries from the oldest to the newest; an update keeps its place. *)
Definition fifo : Type := list (string * option Packet).

Fixpoint fifo_get (l : fifo) (key : string) : option (option Packet) :=
  match l with
  | [] => None
  | (k, value) :: l => if decide (k = key) then Some value else fifo_get l key
  end.

Definition fifo_set (max : Z) (l : fifo) (key : string) (value : option Packet) : fifo :=
  let l := if decide (key ∈ l.*1)
           then (λ e, if decide (e.1 = key) then (key, value) else e) <$> l
           else l ++ [(key, value)] in
  drop (excess max (length l)) l.

Inductive op :=
| Get (key : string)
| Set_ (key : string) (value : option Packet)
| Clear
| ClearData.

(** The run of the code and of the specification: what the [Get]s return. *)
Fixpoint run (max : Z) (c : cache) (M : counters) (ops : list op)
  : option (cache * list (option (option Packet))) :=
  match ops with
  | [] => Some (c, [])
  | Get key :: ops =>
      let '(M, v) := get c M key in
      match run max c M ops with Some (c', vs) => Some (c', v :: vs) | None => None end
  | Set_ key value :: ops =>
      match set max c M key value with Some (c, M) => run max c M ops | None => None end
  | Clear :: ops => let '(c, M) := clear c M in run max c M ops
  | ClearData :: ops => let '(c, M) := clearData c M in run max c M ops
  end.

Fixpoint fifo_run (max : Z) (l : fifo) (ops : list op) : fifo * list (option (option Packet)) :=
  match ops with
  | [] => (l, [])
  | Get key :: ops => let '(l', vs) := fifo_run max l ops in (l', fifo_get l key :: vs)
  | Set_ key value :: ops => fifo_run max (fifo_set max l key value) ops
  | Clear :: ops | ClearData :: ops => fifo_run max [] ops
  end.

(** The queue a cache stands for. *)
Definition entry (m : gmap string (option Packet)) (k : string) : string * option Packet :=
  (k, default None (m !! k)).
Definition fifo_of (c : cache) : fifo := entry (data c) <$> order c.

Lemma fifo_get_entry m (o : list string) key :
  fifo_get (entry m <$> o) key = if decide (key ∈ o) then Some (default None (m !! key)) else None.
Proof.
  induction o as [|k o IH]; [done|].
  change (entry m <$> k :: o) with ((k, default None (m !! k)) :: (entry m <$> o)).
  cbn [fifo_get]. rewrite IH.
  destruct (decide (k = key)) as [->|Hne]; repeat case_decide; set_solver.
Qed.

Lemma fifo_get_spec c key : wf c → fifo_get (fifo_of c) key = data c !! key.
Proof.
  intros [_ Ho]. unfold fifo_of. rewrite fifo_get_entry. specialize (Ho key).
  case_decide as Hk; destruct (data c !! key) as [v|]; simpl; try done.
  - apply Ho in Hk. by destruct Hk.
  - exfalso. apply Hk, Ho. eauto.
Qed.

Lemma fifo_keys (c : cache) : (fifo_of c).*1 = order c.
Proof.
  unfold fifo_of. rewrite <- list_fmap_compose.
  transitivity (id <$> order c); [by apply list_fmap_ext|apply list_fmap_id].
Qed.

Lemma fifo_of_ext c d (o : list string) :
  (∀ k, k ∈ o → data c !! k = d !! k) → order c = o → fifo_of c = entry d <$> o.
Proof.
  intros Hd <-. unfold fifo_of. apply list_fmap_ext. intros i k Hk. unfold entry.
  rewrite Hd; [done|]. by eapply list_elem_of_lookup_2.
Qed.

Lemma fifo_set_spec max c M key value c' M' :
  wf c → set max c M key value = Some (c', M') →
  wf c' ∧ fifo_of c' = fifo_set max (fifo_of c) key value.
Proof.
  intros Hwf Hs.
  destruct (set_spec max c M key value Hwf) as (c1 & M1 & E & Hw & Ho & Hd & _).
  rewrite E in Hs. simplify_eq. split; [done|].
  set (d := <[key := value]> (data c)) in *. set (o := set_order c key) in *.
  rewrite (fifo_of_ext c' d _ Hd eq_refl), Ho, fmap_drop. unfold fifo_set.
  assert (Hl : (if decide (key ∈ (fifo_of c).*1)
                then (λ e, if decide (e.1 = key) then (key, value) else e) <$> fifo_of c
                else fifo_of c ++ [(key, value)]) = entry d <$> o); [|by rewrite Hl, length_fmap].
  rewrite fifo_keys. unfold o, set_order, d. destruct Hwf as [_ Hor]. specialize (Hor key).
  case_decide as Hk; destruct (data c !! key) as [v|] eqn:Ev.
  - unfold fifo_of. rewrite <- list_fmap_compose. apply list_fmap_ext. intros i k Hi.
    unfold compose, entry. simpl. case_decide as Hkk; [subst; by rewrite lookup_insert_eq|].
    by rewrite lookup_insert_ne.
  - apply Hor in Hk. by destruct Hk.
  - exfalso. apply Hk, Hor. eauto.
  - rewrite fmap_app. simpl. unfold entry at 2. rewrite lookup_insert_eq. simpl. f_equal.
    unfold fifo_of. apply list_fmap_ext. intros i k Hi. unfold entry.
    rewrite lookup_insert_ne; [done|]. intros ->. by apply Hk, list_elem_of_lookup_2 with i.
Qed.

Lemma run_refines max ops : ∀ c M, wf c →
  ∃ c', run max c M ops = Some (c', (fifo_run max (fifo_of c) ops).2) ∧ wf c' ∧
        fifo_of c' = (fifo_run max (fifo_of c) ops).1.
Proof.
  induction ops as [|[key|key value| |] ops IH]; intros c M Hwf; simpl; [eauto|..].
  - destruct (get c M key) as [M1 v] eqn:Eg.
    destruct (IH c M1 Hwf) as (c' & E & Hw & Hf). rewrite E.
    destruct (fifo_run max (fifo_of c) ops) as [l' vs]; simpl in *. exists c'.
    split; [|done]. do 3 f_equal. rewrite fifo_get_spec by done.
    unfold get in Eg. destruct (data c !! key); by simplify_eq.
  - destruct (set_spec max c M key value Hwf) as (c1 & M1 & E & _). rewrite E.
    destruct (fifo_set_spec max c M key value c1 M1 Hwf E) as [Hw Hf]. rewrite <- Hf. by apply IH.
  - apply (IH (set_inflight (set_data c ∅ []) ∅) _). split; simpl; [constructor|].
    intros k. rewrite lookup_empty. split; [set_solver|by intros []].
  - apply (IH (set_data c ∅ []) _). split; simpl; [constructor|].
    intros k. rewrite lookup_empty. split; [set_solver|by intros []].
Qed.

Lemma fifo_run_length max ops : ∀ l,
  0 < max → Z.of_nat (length l) <= max → Z.of_nat (length (fifo_run max l ops).1) <= max.
Proof.
  induction ops as [|[key|key value| |] ops IH]; intros l Hm Hl; simpl; [done|..].
  - specialize (IH l Hm Hl). by destruct (fifo_run max l ops).
  - apply IH; [done|]. unfold fifo_set, excess. destruct (Z.ltb_spec 0 max); [|lia].
    rewrite length_drop. lia.
  - apply IH; simpl; lia.
  - apply IH; simpl; lia.
Qed.

(** C15: The query cache is a bounded first-in first-out map: over any run of operations it
    returns what the queue of its entries returns, evicts exactly the oldest ones past
    [max], never holds more than [max], and the bookkeeping that evicts never fails. *)
Theorem query_cache_is_fifo max m M ops :
  0 < max →
  ∃ c', run max (newQueryCache m) M ops = Some (c', (fifo_run max [] ops).2) ∧
        fifo_of c' = (fifo_run max [] ops).1 ∧ Z.of_nat (size (data c')) <= max.
Proof.
  intros Hm. destruct (run_refines max ops (newQueryCache m) M (wf_new m)) as (c' & E & Hw & Hf).
  exists c'. split; [exact E|]. split; [exact Hf|].
  rewrite (wf_size _ Hw), <- fifo_keys, length_fmap, Hf.
  apply fifo_run_length; [done|]. unfold fifo_of. simpl. lia.
Qed.
End facts.

Lemma query_cache_is_fifo_witness :
  let ops := [Set_ "a" (Some 1); Set_ "b" (Some 2); Set_ "a" (Some 3); Set_ "c" None;
              Get "a"; Get "b"; Get "c"] in
  (∃ c', run 2 (newQueryCache None) ∅ ops = Some (c', (fifo_run 2 [] ops).2) ∧
         fifo_of c' = (fifo_run 2 [] ops).1 ∧ Z.of_nat (size (data c')) <= 2) ∧
  (fifo_run 2 [] ops).2 = [None; Some (Some 2); Some None].
Proof. split; [apply query_cache_is_fifo; lia|reflexivity]. Defined.
End QueryCacheFacts.

(** ** The error cache forgets nothing that still counts *)

Module ErrorCacheFacts.
Import ErrorCache.

Inductive op :=
| Set_ (key : string) (ttl now : Z)
| Skip (key : string) (now : Z)
| Clear.

(** The clock does not go back. *)
Fixpoint timed (t : Z) (ops : list op) : Prop :=
  match ops with
  | [] => True
  | Set_ _ _ now :: ops | Skip _ now :: ops => t <= now ∧ timed now ops
  | Clear :: ops => timed t ops
  end.

(** The answers of the code, and those of a table from which nothing is ever swept. *)
Fixpoint run (c : errorCache) (M : counters) (ops : list op) : list (bool * Z) :=
  match ops with
  | [] => []
  | Set_ key ttl now :: ops => let '(c, M) := set c M key ttl now in run c M ops
  | Skip key now :: ops => let '(c, M, r) := shouldSkip c M key now in r :: run c M ops
  | Clear :: ops => let '(c, M) := clear c M in run c M ops
  end.

Definition table_skip (T : gmap string Z) (key : string) (now : Z) : bool * Z :=
  match T !! key with
  | Some expiry => if expiry <? now then (false, 0) else (true, expiry - now)
  | None => (false, 0)
  end.

Fixpoint table_run (T : gmap string Z) (ops : list op) : list (bool * Z) :=
  match ops with
  | [] => []
  | Set_ key ttl now :: ops => table_run (if ttl <=? 0 then T else <[key := now + ttl]> T) ops
  | Skip key now :: ops => table_skip T key now :: table_run T ops
  | Clear :: ops => table_run ∅ ops
  end.

(** What the cache lacks of the table has expired. *)
Definition covers (now : Z) (d T : gmap string Z) : Prop :=
  ∀ k, d !! k = T !! k ∨ d !! k = None ∧ ∃ x, T !! k = Some x ∧ x < now.

Lemma covers_later now now' d T : now <= now' → covers now d T → covers now' d T.
Proof. intros Hle H k. destruct (H k) as [?|(? & x & ? & ?)]; [auto|]. right. eauto with lia. Qed.

Lemma covers_insert now d T k x : covers now d T → covers now (<[k := x]> d) (<[k := x]> T).
Proof.
  intros H k'. destruct (decide (k' = k)) as [->|]; [rewrite !lookup_insert_eq; auto|].
  rewrite !lookup_insert_ne by done. apply H.
Qed.

Lemma covers_filter now d T :
  covers now d T → covers now (filter (λ e : string * Z, now <= e.2) d) T.
Proof.
  intros H k. rewrite map_lookup_filter.
  destruct (H k) as [E|(E & x & Hx & Hlt)]; rewrite E; simpl; [|eauto].
  destruct (T !! k) as [x|] eqn:Ex; simpl; [|auto].
  case_guard; simpl; [auto|]. right. split; [done|]. exists x. split; [done|]. simpl in *. lia.
Qed.

Lemma covers_delete now d T k x : covers now d T → d !! k = Some x → x < now → covers now (delete k d) T.
Proof.
  intros H Hk Hx k'. destruct (decide (k' = k)) as [->|]; [|rewrite lookup_delete_ne by done; apply H].
  rewrite lookup_delete_eq. right. split; [done|]. exists x. split; [|done].
  destruct (H k) as [<-|[? _]]; congruence.
Qed.

Lemma run_covers ops : ∀ now c M T,
  timed now ops → covers now (data c) T → run c M ops = table_run T ops.
Proof.
  induction ops as [|[key ttl t|key t|] ops IH]; intros now c M T Ht Hc; simpl in *; [done|..].
  - destruct Ht as [Hle Ht]. apply (covers_later _ t) in Hc; [|done]. unfold set.
    destruct (ttl <=? 0); eapply IH; eauto. simpl. by apply covers_insert, covers_filter.
  - destruct Ht as [Hle Ht]. apply (covers_later _ t) in Hc; [|done]. unfold shouldSkip, table_skip.
    destruct (data c !! key) as [x|] eqn:E.
    + destruct (Hc key) as [Ek|[? _]]; [|congruence]. rewrite <- Ek, E.
      destruct (Z.ltb_spec x t); f_equal; eapply IH; eauto. simpl. by eapply covers_delete.
    + f_equal; [|by eapply IH]. destruct (Hc key) as [Ek|(_ & x & -> & Hlt)]; [by rewrite <- Ek, E|].
      destruct (Z.ltb_spec x t); [done|lia].
  - eapply IH; eauto. intros k. simpl. auto.
Qed.

(** Sweeping expired entries on every write and deleting them on every lookup changes
    no answer: over any run with a monotone clock a key is skipped exactly when the last
    failure recorded for it is no older than its time to live, for the rest of that time. *)
Theorem error_cache_exact now m M ops :
  timed now ops → run (newErrorCache m) M ops = table_run ∅ ops.
Proof. intros Ht. eapply run_covers; [done|]. intros k. auto. Qed.

Lemma error_cache_exact_witness :
  let ops := [Set_ "a" 10 0; Set_ "b" 3 2; Skip "b" 5; Skip "b" 6; Set_ "c" 1 9; Skip "a" 10] in
  run (newErrorCache None) ∅ ops = table_run ∅ ops ∧
  table_run ∅ ops = [(true, 0); (false, 0); (true, 0)].
Proof. split; [apply (error_cache_exact 0); simpl; lia|reflexivity]. Defined.
End ErrorCacheFacts.

(** ** Coalescing *)

Module CoalesceFacts.
Import QueryCache Coalesce.

Section facts.
Context {Packet : Type}.
#[local] Abbreviation goroutines := (goroutines (Packet:=Packet)).

(** The reachable states; a step that panics ends the program. *)
Inductive reachable (met : option counter) : goroutines → Prop :=
| reach_start : reachable met (start met)
| reach_step s s' : reachable met s → step s (Some s') → reachable met s'.

(** Every query in the table is open and has its leader; every open query is in the
    table; who waits waits for a query that exists. *)
Record good (s : goroutines) : Prop := {
  good_table : ∀ key i, inflight (cache s) !! key = Some i →
    (key, i) ∈ leading s ∧ ∃ q, flight s !! i = Some q ∧ done q = false;
  good_leading : ∀ key i, (key, i) ∈ leading s → inflight (cache s) !! key = Some i;
  good_nodup : NoDup (leading s);
  good_waiting : ∀ key i, (key, i) ∈ waiting s → ∃ q, flight s !! i = Some q ∧
    (done q = false → inflight (cache s) !! key = Some i);
  good_ending : ∀ key i, (key, i) ∈ ending s → ∃ q, flight s !! i = Some q ∧ done q = true;
  good_inj : ∀ k1 k2 i, inflight (cache s) !! k1 = Some i → inflight (cache s) !! k2 = Some i → k1 = k2
}.

Lemma good_start met : good (start met).
Proof.
  split; simpl; try (intros *; rewrite ?lookup_empty; try done; by intros ?%elem_of_nil).
  constructor.
Qed.

Lemma close_open (F : gmap nat (inflightQuery (Packet:=Packet))) i q f :
  F !! i = Some q → done q = false → close_with F i f = Some (<[i := f q]> F).
Proof. intros E Ho. unfold close_with. by rewrite E, Ho. Qed.

Lemma elem_of_middle {A} (l1 l2 : list A) x y :
  y ∈ l1 ++ x :: l2 ↔ y = x ∨ y ∈ l1 ++ l2.
Proof. rewrite !elem_of_app, elem_of_cons. tauto. Qed.

(** Ending a query of the table: [finish] and [abandon] close the same channel. *)
Lemma flight_close s l1 key i l2 q :
  good s → leading s = l1 ++ (key, i) :: l2 → done q = true →
  ∀ e, e = ending s ∨ e = (key, i) :: ending s →
  good {| cache := set_inflight (cache s) (delete key (inflight (cache s)));
          flight := <[i := q]> (flight s); starting := starting s; leading := l1 ++ l2;
          ending := e; waiting := waiting s; outcomes := outcomes s |}.
Proof.
  intros [Ht Hl Hn Hw He Hi] El Hq e Hee.
  assert (Hki : inflight (cache s) !! key = Some i) by (apply Hl; rewrite El; set_solver).
  rewrite El in Hn. apply NoDup_app in Hn as (N1 & N12 & N2). apply NoDup_cons in N2 as [N2 N3].
  assert (Hout : (key, i) ∉ l1 ++ l2).
  { rewrite elem_of_app. intros [Hin|Hin]; [|done]. apply (N12 _ Hin). set_solver. }
  split; cbn [cache flight leading ending waiting inflight set_inflight].
  - intros k j [Hne Hk]%lookup_delete_Some. destruct (Ht k j Hk) as [Hin (q0 & Hq0 & Ho)].
    rewrite El, elem_of_middle in Hin. destruct Hin as [?|Hin]; [congruence|]. split; [done|].
    exists q0. rewrite lookup_insert_ne; [done|]. intros <-. by apply Hne, (Hi key k i).
  - intros k j Hin. apply lookup_delete_Some.
    assert (inflight (cache s) !! k = Some j) as Hk by (apply Hl; rewrite El, elem_of_middle; auto).
    split; [|done]. intros <-. rewrite Hki in Hk. by simplify_eq.
  - apply NoDup_app. split; [done|]. split; [|done]. intros x Hx Hx2. apply (N12 _ Hx). set_solver.
  - intros k j Hin. destruct (Hw k j Hin) as (q0 & Hq0 & Ho).
    destruct (decide (j = i)) as [->|Hj]; [rewrite lookup_insert_eq; eexists; split; [done|congruence]|].
    rewrite lookup_insert_ne by done. exists q0. split; [done|]. intros Hd.
    rewrite lookup_delete_ne; [auto|]. intros <-. specialize (Ho Hd). congruence.
  - intros k j Hin. assert (j = i ∨ (k, j) ∈ ending s) as [->|Hold] by (destruct Hee; set_solver).
    + exists q. by rewrite lookup_insert_eq.
    + destruct (decide (j = i)) as [->|Hj]; [exists q; by rewrite lookup_insert_eq|].
      rewrite lookup_insert_ne by done. eauto.
  - intros k1 k2 j [_ H1]%lookup_delete_Some [_ H2]%lookup_delete_Some. eauto.
Qed.

(** Ending a query that is no longer in the table changes nothing. *)
Lemma good_same s s' :
  good s → cache s' = cache s → flight s' = flight s → leading s' = leading s →
  (∀ x, x ∈ waiting s' → x ∈ waiting s) → (∀ x, x ∈ ending s' → x ∈ ending s) → good s'.
Proof.
  intros [Ht Hl Hn Hw He Hi] Ec Ef El Ew Ee. split; rewrite ?Ec, ?Ef, ?El; eauto.
Qed.

Lemma leading_open s l1 key i l2 :
  good s → leading s = l1 ++ (key, i) :: l2 →
  inflight (cache s) !! key = Some i ∧ ∃ q, flight s !! i = Some q ∧ done q = false.
Proof.
  intros G El. assert (inflight (cache s) !! key = Some i) as Hk.
  { apply (good_leading _ G). rewrite El. set_solver. }
  split; [done|]. by apply (good_table _ G key i).
Qed.

Lemma abandon_ending s l1 key i l2 :
  good s → ending s = l1 ++ (key, i) :: l2 →
  abandon (cache s) (flight s) key i = Some (cache s, flight s).
Proof.
  intros G El. unfold abandon. rewrite decide_False; [done|]. intros Hk.
  destruct (good_table _ G _ _ Hk) as (_ & q & Hq & Ho).
  destruct (good_ending _ G key i) as (q' & Hq' & Hd); [rewrite El; set_solver|]. congruence.
Qed.

Lemma abandon_leading (s : goroutines) key i (q : inflightQuery (Packet:=Packet)) :
  inflight (cache s) !! key = Some i → flight s !! i = Some q → done q = false →
  abandon (cache s) (flight s) key i =
    Some (set_inflight (cache s) (delete key (inflight (cache s))),
          <[i := {| done := true; resp := resp q; err := err q; abandoned := true |}]> (flight s)).
Proof.
  intros Hk Hq Ho. unfold abandon. rewrite decide_True by done. by rewrite (close_open _ _ q).
Qed.

Lemma finish_leading (s : goroutines) key i (q : inflightQuery (Packet:=Packet)) r e :
  inflight (cache s) !! key = Some i → flight s !! i = Some q → done q = false →
  finish (cache s) (flight s) key r e =
    Some (set_inflight (cache s) (delete key (inflight (cache s))),
          <[i := {| done := true; resp := r; err := e; abandoned := abandoned q |}]> (flight s)).
Proof. intros Hk Hq Ho. unfold finish. by rewrite Hk, (close_open _ _ q). Qed.

(** No channel is closed twice. *)
Lemma good_no_panic s : good s → ¬ step s None.
Proof.
  intros G Hs. inversion Hs as [| |? ? key i ? r e El E0 Ef|? ? key i ? El E0 Ef|? ? key i ? El E0 Ef| |]; subst.
  - destruct (leading_open _ _ _ _ _ G El) as (Hk & q & Hq & Ho).
    by rewrite (finish_leading _ _ i q) in Ef by done.
  - by rewrite (abandon_ending _ _ _ _ _ G El) in Ef.
  - destruct (leading_open _ _ _ _ _ G El) as (Hk & q & Hq & Ho).
    by rewrite (abandon_leading _ _ _ q) in Ef by done.
Qed.

Lemma good_register s key c F i wait l :
  good s → waitOrRegister (cache s) (flight s) key = (c, F, i, wait) →
  good {| cache := c; flight := F; starting := l;
          leading := if wait then leading s else (key, i) :: leading s;
          ending := ending s;
          waiting := if wait then (key, i) :: waiting s else waiting s;
          outcomes := outcomes s |}.
Proof.
  intros [Ht Hl Hn Hw He Hi] E. unfold waitOrRegister in E.
  destruct (inflight (cache s) !! key) as [j|] eqn:Ek; simplify_eq.
  - split; cbn; eauto. intros k j [[= -> ->]|Hin]%elem_of_cons; [|eauto].
    destruct (Ht key i Ek) as (_ & q & Hq & _). eauto.
  - assert (Hnew : flight s !! fresh (dom (flight s)) = None)
      by (apply not_elem_of_dom, is_fresh).
    set (i := fresh (dom (flight s))) in *. clearbody i.
    assert (Hne : ∀ k j, inflight (cache s) !! k = Some j → j ≠ i).
    { intros k j Hk ->. destruct (Ht _ _ Hk) as (_ & q & Hq & _). congruence. }
    split; cbn [cache flight leading ending waiting inflight set_inflight].
    + intros k j [[<- <-]|[Hk Hj]]%lookup_insert_Some.
      * split; [set_solver|]. exists newInflight. by rewrite lookup_insert_eq.
      * destruct (Ht k j Hj) as [Hin Hq]. split; [set_solver|].
        rewrite lookup_insert_ne; [done|]. intros <-. by apply (Hne k i).
    + intros k j [[= -> ->]|Hin]%elem_of_cons; [by rewrite lookup_insert_eq|].
      specialize (Hl k j Hin). rewrite lookup_insert_ne; [done|]. intros <-. congruence.
    + constructor; [|done]. intros Hin%Hl. congruence.
    + intros k j Hin. destruct (Hw k j Hin) as (q & Hq & Ho). exists q.
      rewrite lookup_insert_ne by congruence. split; [done|]. intros Hd. specialize (Ho Hd).
      rewrite lookup_insert_ne; [done|]. intros <-. congruence.
    + intros k j Hin. destruct (He k j Hin) as (q & Hq & Ho). exists q.
      by rewrite lookup_insert_ne by congruence.
    + intros k1 k2 j [[<- <-]|[? H1]]%lookup_insert_Some [[<- E2]|[? H2]]%lookup_insert_Some; eauto;
        exfalso; subst; eapply Hne; eauto.
Qed.

Lemma flight_step s s' : good s → step s (Some s') → good s'.
Proof.
  intros G Hs. inversion Hs as [|? ? key ? c F i w Es E|? ? key i ? r e El E0 Ef|? ? key i ? El E0 Ea
    |? ? key i ? El E0 Ea|? ? key i ? q El Hq Hd|? ? key i ? El]; subst.
  - eapply good_same; eauto.
  - by eapply good_register.
  - destruct (leading_open _ _ _ _ _ G El) as (Hk & q & Hq & Ho).
    rewrite (finish_leading _ _ i q) in Ef by done. simplify_eq/=. by eapply flight_close; eauto.
  - rewrite (abandon_ending _ _ _ _ _ G El) in Ea. simplify_eq/=.
    eapply good_same; eauto. intros x Hx. rewrite El, elem_of_middle. auto.
  - destruct (leading_open _ _ _ _ _ G El) as (Hk & q & Hq & Ho).
    rewrite (abandon_leading _ _ _ q) in Ea by done. simplify_eq/=. by eapply flight_close; eauto.
  - eapply good_same; eauto. intros x Hx. rewrite El, elem_of_middle. auto.
  - eapply good_same; eauto. intros x Hx. rewrite El, elem_of_middle. auto.
Qed.

Lemma flight_reachable met s : reachable met s → good s.
Proof. induction 1; eauto using good_start, flight_step. Qed.

(** C38: Coalescing of identical queries is safe and live: no interleaving closes a channel
    twice; a key has at most one query in flight; and a waiter is never left behind,
    the channel it waits on being closed or its leader still at work, in which case both
    ways the leader can end close that channel. *)
Theorem coalesce_safe_live met s :
  reachable met s →
  ¬ step s None ∧
  (∀ key i j, (key, i) ∈ leading s → (key, j) ∈ leading s → i = j) ∧
  (∀ key i, (key, i) ∈ waiting s →
     ∃ q, flight s !! i = Some q ∧
       (done q = true ∨
        (key, i) ∈ leading s ∧
        (∀ r e, ∃ c F q', finish (cache s) (flight s) key r e = Some (c, F) ∧
                F !! i = Some q' ∧ done q' = true ∧ resp q' = r ∧ err q' = e) ∧
        (∃ c F q', abandon (cache s) (flight s) key i = Some (c, F) ∧
                F !! i = Some q' ∧ done q' = true ∧ abandoned q' = true))).
Proof.
  intros G%flight_reachable. split; [by apply good_no_panic|]. split.
  - intros key i j Hi%(good_leading _ G) Hj%(good_leading _ G). congruence.
  - intros key i Hin. destruct (good_waiting _ G _ _ Hin) as (q & Hq & Ho).
    exists q. split; [done|]. destruct (done q) eqn:Hd; [auto|]. right.
    specialize (Ho eq_refl). split; [by apply (good_table _ G key i)|]. split.
    + intros r e. rewrite (finish_leading _ _ i q) by done. eexists _, _, _.
      split; [reflexivity|]. rewrite lookup_insert_eq. by repeat split.
    + rewrite (abandon_leading _ _ i q) by done. eexists _, _, _.
      split; [reflexivity|]. rewrite lookup_insert_eq. by repeat split.
Qed.
End facts.

(** Two callers of one key: the second waits for the first. *)
Definition callers (ks : list string) : goroutines (Packet:=Z) :=
  {| cache := newQueryCache None; flight := ∅; starting := ks; leading := [];
     ending := []; waiting := []; outcomes := [] |}.
Definition callers_led (ks : list string) (w : list (string * nat)) : goroutines (Packet:=Z) :=
  {| cache := set_inflight (newQueryCache None) {["k"%string := 0%nat]};
     flight := {[0%nat := newInflight]}; starting := ks; leading := [("k"%string, 0%nat)];
     ending := []; waiting := w; outcomes := [] |}.
Definition two_callers : goroutines (Packet:=Z) := callers_led [] [("k"%string, 0%nat)].

Lemma two_callers_reachable : reachable None two_callers.
Proof.
  assert (H0 : reachable (Packet:=Z) None (callers [])) by apply reach_start.
  assert (H1 : reachable None (callers ["k"%string])) by exact (reach_step _ _ _ H0 (step_call _ "k"%string)).
  assert (H2 : reachable None (callers ["k"; "k"]%string)) by exact (reach_step _ _ _ H1 (step_call _ "k"%string)).
  assert (H3 : reachable None (callers_led ["k"%string] [])).
  { apply (reach_step _ _ _ H2). exact (step_register (callers ["k"; "k"]%string) [] "k" ["k"%string]
      (set_inflight (newQueryCache None) {["k"%string := 0%nat]}) {[0%nat := newInflight]} 0%nat false
      eq_refl eq_refl). }
  apply (reach_step _ _ _ H3). exact (step_register (callers_led ["k"%string] []) [] "k" []
      (set_inflight (newQueryCache None) {["k"%string := 0%nat]}) {[0%nat := newInflight]} 0%nat true
      eq_refl eq_refl).
Qed.

Lemma coalesce_safe_live_witness :
  (¬ step two_callers None) ∧ ("k"%string, 0%nat) ∈ waiting two_callers ∧
  ∃ q, flight two_callers !! 0%nat = Some q ∧
    (done q = true ∨ ("k"%string, 0%nat) ∈ leading two_callers).
Proof.
  destruct (coalesce_safe_live None two_callers two_callers_reachable) as (Hp & _ & Hw).
  split; [exact Hp|]. split; [set_solver|].
  destruct (Hw "k"%string 0%nat) as (q & Hq & Ho); [set_solver|].
  exists q. split; [exact Hq|]. tauto.
Defined.
End CoalesceFacts.
