(* ===== verification/NsStore.v ===== *)
(** * The cache stores of the runs: [CacheStore] in [engine/nameserver/state.go]

    A store maps nameserver addresses to their caches.  The server keeps a warm store;
    each run works on a snapshot that takes query caches and concurrency caps from the
    store it was made from, and so shares them with other runs.  The sharing is by
    pointer: the stores, caches and caps live in a [world] and refer to each other by
    number.  The methods of a nil store, which do nothing, are left out. *)

From S2P Require Import Prelude GoStrings NsGuards NsCache.

Local Open Scope Z_scope.
Local Open Scope list_scope.

Section world.
Context {Packet : Type}.

(** [queryMetrics] and [errorMetrics] are the counters [QueryMetricsOf] and
    [ErrorMetricsOf] of the world, [limits] is modelled in [NsGuards.Limits]; neither is
    shared.  A nameserver object is a number. *)
Record CacheStore := {
  objectCache : gmap string (gmap string nat);
  cacheByAddress : gmap string nat;
  errorCacheByAddr : gmap string nat;
  concurrencyByAddr : gmap string nat;
  observedQueries : gmap string nat;
  observedErrors : gmap string nat;
  addrLastAccess : gmap string Z;
  warmAddrTTL : Z;
  sharedParent : option nat;
  reachability : Reachability.reachabilityCache;
  queryTimes : gmap string (list Z);
  queryTimeouts : gmap string Z;
  queryRefused : gmap string Z
}.

Record world := {
  stores : list CacheStore;
  queryCaches : list (QueryCache.queryCache (Packet:=Packet));
  errorCaches : list ErrorCache.errorCache;
  caps : list ConcurrencyCap.nameserverConcurrencyCap;
  metrics : counters
}.

Definition world0 : world :=
  {| stores := []; queryCaches := []; errorCaches := []; caps := []; metrics := ∅ |}.

Definition set_store (w : world) (s : nat) (c : CacheStore) : world :=
  {| stores := <[s := c]> (stores w); queryCaches := queryCaches w; errorCaches := errorCaches w;
     caps := caps w; metrics := metrics w |}.
Definition set_query (w : world) (i : nat) q : world :=
  {| stores := stores w; queryCaches := <[i := q]> (queryCaches w); errorCaches := errorCaches w;
     caps := caps w; metrics := metrics w |}.
Definition set_error (w : world) (i : nat) q : world :=
  {| stores := stores w; queryCaches := queryCaches w; errorCaches := <[i := q]> (errorCaches w);
     caps := caps w; metrics := metrics w |}.
(** Allocation: the new object gets the next number. *)
Definition alloc_query (w : world) q : world :=
  {| stores := stores w; queryCaches := queryCaches w ++ [q]; errorCaches := errorCaches w;
     caps := caps w; metrics := metrics w |}.
Definition alloc_error (w : world) q : world :=
  {| stores := stores w; queryCaches := queryCaches w; errorCaches := errorCaches w ++ [q];
     caps := caps w; metrics := metrics w |}.
Definition alloc_cap (w : world) c : world :=
  {| stores := stores w; queryCaches := queryCaches w; errorCaches := errorCaches w;
     caps := caps w ++ [c]; metrics := metrics w |}.
Definition set_metrics (w : world) (m : counters) : world :=
  {| stores := stores w; queryCaches := queryCaches w; errorCaches := errorCaches w;
     caps := caps w; metrics := m |}.

Definition emptyStore (parent : option nat) : CacheStore :=
  {| objectCache := ∅; cacheByAddress := ∅; errorCacheByAddr := ∅; concurrencyByAddr := ∅;
     observedQueries := ∅; observedErrors := ∅; addrLastAccess := ∅; warmAddrTTL := 0;
     sharedParent := parent; reachability := Reachability.newReachabilityCache;
     queryTimes := ∅; queryTimeouts := ∅; queryRefused := ∅ |}.

Definition new_store (w : world) (parent : option nat) : world * nat :=
  ({| stores := stores w ++ [emptyStore parent]; queryCaches := queryCaches w;
      errorCaches := errorCaches w; caps := caps w; metrics := metrics w |}, length (stores w)).

Definition NewCacheStore (w : world) : world * nat := new_store w None.
Definition SnapshotForRun (w : world) (c : nat) : world * nat := new_store w (Some c).

(** ** Updates of one field *)

Definition upd_cacheByAddress c m := {| objectCache := objectCache c; cacheByAddress := m;
  errorCacheByAddr := errorCacheByAddr c; concurrencyByAddr := concurrencyByAddr c;
  observedQueries := observedQueries c; observedErrors := observedErrors c;
  addrLastAccess := addrLastAccess c; warmAddrTTL := warmAddrTTL c; sharedParent := sharedParent c;
  reachability := reachability c; queryTimes := queryTimes c; queryTimeouts := queryTimeouts c;
  queryRefused := queryRefused c |}.
Definition upd_errorCacheByAddr c m := {| objectCache := objectCache c;
  cacheByAddress := cacheByAddress c; errorCacheByAddr := m; concurrencyByAddr := concurrencyByAddr c;
  observedQueries := observedQueries c; observedErrors := observedErrors c;
  addrLastAccess := addrLastAccess c; warmAddrTTL := warmAddrTTL c; sharedParent := sharedParent c;
  reachability := reachability c; queryTimes := queryTimes c; queryTimeouts := queryTimeouts c;
  queryRefused := queryRefused c |}.
Definition upd_concurrencyByAddr c m := {| objectCache := objectCache c;
  cacheByAddress := cacheByAddress c; errorCacheByAddr := errorCacheByAddr c; concurrencyByAddr := m;
  observedQueries := observedQueries c; observedErrors := observedErrors c;
  addrLastAccess := addrLastAccess c; warmAddrTTL := warmAddrTTL c; sharedParent := sharedParent c;
  reachability := reachability c; queryTimes := queryTimes c; queryTimeouts := queryTimeouts c;
  queryRefused := queryRefused c |}.
Definition upd_observed c q e := {| objectCache := objectCache c;
  cacheByAddress := cacheByAddress c; errorCacheByAddr := errorCacheByAddr c;
  concurrencyByAddr := concurrencyByAddr c; observedQueries := q; observedErrors := e;
  addrLastAccess := addrLastAccess c; warmAddrTTL := warmAddrTTL c; sharedParent := sharedParent c;
  reachability := reachability c; queryTimes := queryTimes c; queryTimeouts := queryTimeouts c;
  queryRefused := queryRefused c |}.
Definition upd_access c m := {| objectCache := objectCache c;
  cacheByAddress := cacheByAddress c; errorCacheByAddr := errorCacheByAddr c;
  concurrencyByAddr := concurrencyByAddr c; observedQueries := observedQueries c;
  observedErrors := observedErrors c; addrLastAccess := m; warmAddrTTL := warmAddrTTL c;
  sharedParent := sharedParent c; reachability := reachability c; queryTimes := queryTimes c;
  queryTimeouts := queryTimeouts c; queryRefused := queryRefused c |}.
Definition upd_objects c m := {| objectCache := m;
  cacheByAddress := cacheByAddress c; errorCacheByAddr := errorCacheByAddr c;
  concurrencyByAddr := concurrencyByAddr c; observedQueries := observedQueries c;
  observedErrors := observedErrors c; addrLastAccess := addrLastAccess c;
  warmAddrTTL := warmAddrTTL c; sharedParent := sharedParent c; reachability := reachability c;
  queryTimes := queryTimes c; queryTimeouts := queryTimeouts c; queryRefused := queryRefused c |}.
Definition SetWarmAddrTTL c ttl := {| objectCache := objectCache c;
  cacheByAddress := cacheByAddress c; errorCacheByAddr := errorCacheByAddr c;
  concurrencyByAddr := concurrencyByAddr c; observedQueries := observedQueries c;
  observedErrors := observedErrors c; addrLastAccess := addrLastAccess c; warmAddrTTL := ttl;
  sharedParent := sharedParent c; reachability := reachability c; queryTimes := queryTimes c;
  queryTimeouts := queryTimeouts c; queryRefused := queryRefused c |}.
Definition upd_times c t o r := {| objectCache := objectCache c;
  cacheByAddress := cacheByAddress c; errorCacheByAddr := errorCacheByAddr c;
  concurrencyByAddr := concurrencyByAddr c; observedQueries := observedQueries c;
  observedErrors := observedErrors c; addrLastAccess := addrLastAccess c;
  warmAddrTTL := warmAddrTTL c; sharedParent := sharedParent c; reachability := reachability c;
  queryTimes := t; queryTimeouts := o; queryRefused := r |}.

(** ** Statistics of a run *)

Definition RecordQueryTime c (key : string) (d : Z) : CacheStore :=
  upd_times c (<[key := default [] (queryTimes c !! key) ++ [d]]> (queryTimes c))
    (queryTimeouts c) (queryRefused c).
Definition RecordQueryTimeout c (key : string) : CacheStore :=
  upd_times c (queryTimes c)
    (<[key := wrap64 (default 0 (queryTimeouts c !! key) + 1)]> (queryTimeouts c)) (queryRefused c).
Definition RecordQueryRefused c (key : string) : CacheStore :=
  upd_times c (queryTimes c) (queryTimeouts c)
    (<[key := wrap64 (default 0 (queryRefused c !! key) + 1)]> (queryRefused c)).

(** [QueryTimings], [QueryTimeouts] and [QueryRefused] copy the table. *)
Definition QueryTimings (c : CacheStore) := queryTimes c.
Definition QueryTimeouts (c : CacheStore) := queryTimeouts c.
Definition QueryRefused (c : CacheStore) := queryRefused c.

(** ** Caches of an address *)

Definition touchAddrLocked (c : CacheStore) (addr : string) (now : Z) : CacheStore :=
  upd_access c (<[addr := now]> (addrLastAccess c)).

(** [cacheForAddressWithStatus]: the world, the cache and whether it is new.  The
    parent is asked first; a store is younger than its parent, so that [fuel] larger
    than the number of the store reaches the end of the chain; [None] when there is no
    such store or the fuel is spent. *)
Fixpoint cache_for (fuel : nat) (w : world) (c : nat) (addr : string) (now : Z)
  : option (world * nat * bool) :=
  match fuel with
  | O => None
  | S fuel =>
      st ← stores w !! c;
      match cacheByAddress st !! addr with
      | Some i => Some (set_store w c (touchAddrLocked st addr now), i, false)
      | None =>
          '(w, parentCache) ←
            match sharedParent st with
            | Some p => '(w, i, _) ← cache_for fuel w p addr now; Some (w, Some i)
            | None => Some (w, None)
            end;
          match parentCache with
          | Some i =>
              q ← queryCaches w !! i;
              let w := set_query w i (QueryCache.addObserver q (QueryMetricsOf c)) in
              let st := upd_cacheByAddress st (<[addr := i]> (cacheByAddress st)) in
              let st := upd_observed st (<[addr := i]> (observedQueries st)) (observedErrors st) in
              Some (set_store w c (touchAddrLocked st addr now), i, false)
          | None =>
              let i := length (queryCaches w) in
              let w := alloc_query w (QueryCache.newQueryCache (Some (QueryMetricsOf c))) in
              let st := upd_cacheByAddress st (<[addr := i]> (cacheByAddress st)) in
              Some (set_store w c (touchAddrLocked st addr now), i, true)
          end
      end
  end.

Definition cacheForAddressWithStatus (w : world) (c : nat) (addr : string) (now : Z) :=
  cache_for (S c) w c addr now.

Definition cacheForAddress (w : world) (c : nat) (addr : string) (now : Z)
  : option (world * nat) :=
  '(w, i, _) ← cacheForAddressWithStatus w c addr now; Some (w, i).

Definition errorCacheForAddress (w : world) (c : nat) (addr : string) (now : Z)
  : option (world * nat) :=
  st ← stores w !! c;
  match errorCacheByAddr st !! addr with
  | Some i => Some (set_store w c (touchAddrLocked st addr now), i)
  | None =>
      let i := length (errorCaches w) in
      let w := alloc_error w (ErrorCache.newErrorCache (Some (ErrorMetricsOf c))) in
      let st := upd_errorCacheByAddr st (<[addr := i]> (errorCacheByAddr st)) in
      Some (set_store w c (touchAddrLocked st addr now), i)
  end.

Fixpoint cap_for (fuel : nat) (w : world) (c : nat) (addr : string)
  : option (world * nat) :=
  match fuel with
  | O => None
  | S fuel =>
      st ← stores w !! c;
      match concurrencyByAddr st !! addr with
      | Some i => Some (w, i)
      | None =>
          '(w, parentCap) ←
            match sharedParent st with
            | Some p => '(w, i) ← cap_for fuel w p addr; Some (w, Some i)
            | None => Some (w, None)
            end;
          match parentCap with
          | Some i =>
              Some (set_store w c (upd_concurrencyByAddr st (<[addr := i]> (concurrencyByAddr st))), i)
          | None =>
              let i := length (caps w) in
              let w := alloc_cap w ConcurrencyCap.cap0 in
              Some (set_store w c (upd_concurrencyByAddr st (<[addr := i]> (concurrencyByAddr st))), i)
          end
      end
  end.

Definition concurrencyCapForAddress (w : world) (c : nat) (addr : string) :=
  cap_for (S c) w c addr.

Definition cachedNameserver (c : CacheStore) (nameKey addr : string) : option nat :=
  objectCache c !! nameKey ≫= λ byName, byName !! addr.

Definition storeNameserver (c : CacheStore) (nameKey addr : string) (ns : nat) : CacheStore :=
  upd_objects c (<[nameKey := <[addr := ns]> (default ∅ (objectCache c !! nameKey))]> (objectCache c)).

(** ** Sharing between stores *)

(** Apply a function to the query (error) caches with the given numbers. *)
Definition on_queries (f : QueryCache.queryCache → QueryCache.queryCache) (l : list nat)
  (w : world) : world :=
  foldl (λ w i, match queryCaches w !! i with Some q => set_query w i (f q) | None => w end) w l.
Definition on_errors (f : ErrorCache.errorCache → ErrorCache.errorCache) (l : list nat)
  (w : world) : world :=
  foldl (λ w i, match errorCaches w !! i with Some q => set_error w i (f q) | None => w end) w l.

Definition numbers (m : gmap string nat) : list nat := snd <$> map_to_list m.

Definition DetachSharedMetricObservers (w : world) (c : nat) : option world :=
  st ← stores w !! c;
  let w := set_store w c (upd_observed st ∅ ∅) in
  let w := on_queries (λ q, QueryCache.removeObserver q (QueryMetricsOf c))
             (numbers (observedQueries st)) w in
  Some (on_errors (λ q, ErrorCache.removeObserver q (ErrorMetricsOf c))
          (numbers (observedErrors st)) w).

(** Clear a cache of the world and count its evictions. *)
Definition clear_query_with (f : QueryCache.queryCache → counters → QueryCache.queryCache * counters)
  (w : world) (i : nat) : world :=
  match queryCaches w !! i with
  | Some q => let '(q, M) := f q (metrics w) in set_metrics (set_query w i q) M
  | None => w
  end.
Definition clear_error (w : world) (i : nat) : world :=
  match errorCaches w !! i with
  | Some q => let '(q, M) := ErrorCache.clear q (metrics w) in set_metrics (set_error w i q) M
  | None => w
  end.

(** The body of the loop of [evictStaleAddrsLocked]. *)
Definition evict_addr (cutoff : Z) (c : nat) (w : world) (e : string * Z) : world :=
  match stores w !! c with
  | None => w
  | Some st =>
      if e.2 <? cutoff then
        let w := match cacheByAddress st !! e.1 with
                 | Some i => clear_query_with QueryCache.clearData w i | None => w end in
        let w := match errorCacheByAddr st !! e.1 with Some i => clear_error w i | None => w end in
        set_store w c (upd_access st (delete e.1 (addrLastAccess st)))
      else w
  end.

Definition evictStaleAddrsLocked (w : world) (c : nat) (now : Z) : world :=
  match stores w !! c with
  | None => w
  | Some st =>
      if warmAddrTTL st <=? 0 then w
      else foldl (evict_addr (now - warmAddrTTL st) c) w (map_to_list (addrLastAccess st))
  end.

(** The later of two accesses. *)
Definition later_access (ours theirs : option Z) : option Z :=
  match ours, theirs with
  | Some t, Some t' => Some (if t <? t' then t' else t)
  | Some t, None => Some t
  | None, t' => t'
  end.

(** The two copying loops of [MergeWarmDataFrom]: what [c] has stays. *)
Definition adopt_query (c : nat) (now : Z) (w : world) (e : string * nat) : world :=
  match stores w !! c, queryCaches w !! e.2 with
  | Some st, Some q =>
      match cacheByAddress st !! e.1 with
      | Some _ => w
      | None =>
          let q := {| QueryCache.data := QueryCache.data q; QueryCache.order := QueryCache.order q;
                      QueryCache.met := Some (QueryMetricsOf c);
                      QueryCache.inflight := QueryCache.inflight q;
                      QueryCache.observers := QueryCache.observers q |} in
          let st := upd_cacheByAddress st (<[e.1 := e.2]> (cacheByAddress st)) in
          let st := match addrLastAccess st !! e.1 with
                    | Some _ => st | None => touchAddrLocked st e.1 now end in
          set_store (set_query w e.2 q) c st
      end
  | _, _ => w
  end.
Definition adopt_cap (c : nat) (w : world) (e : string * nat) : world :=
  match stores w !! c with
  | Some st => match concurrencyByAddr st !! e.1 with
               | Some _ => w
               | None => set_store w c (upd_concurrencyByAddr st
                           (<[e.1 := e.2]> (concurrencyByAddr st)))
               end
  | None => w
  end.

Definition MergeWarmDataFrom (w : world) (c other : nat) (now : Z) : option world :=
  if decide (c = other) then Some w
  else
    st ← stores w !! c;
    o ← stores w !! other;
    let w := set_store w c (upd_access st
               (merge later_access (addrLastAccess st) (addrLastAccess o))) in
    let w := evictStaleAddrsLocked w c now in
    let w := foldl (adopt_query c now) w (map_to_list (cacheByAddress o)) in
    Some (foldl (adopt_cap c) w (map_to_list (concurrencyByAddr o))).

Definition Empty (w : world) (c : nat) : option world :=
  st ← stores w !! c;
  let w := foldl (clear_query_with QueryCache.clear) w (numbers (cacheByAddress st)) in
  let w := foldl clear_error w (numbers (errorCacheByAddr st)) in
  Some (set_store w c
    (upd_access (upd_objects (upd_errorCacheByAddr (upd_cacheByAddress st ∅) ∅) ∅) ∅)).

(** ** Reading *)

Definition metrics_of (w : world) (k : counter) : cacheMetrics :=
  default zero_metrics (metrics w !! k).
Definition QueryMetrics (w : world) (c : nat) : cacheMetrics := metrics_of w (QueryMetricsOf c).
Definition ErrorMetrics (w : world) (c : nat) : cacheMetrics := metrics_of w (ErrorMetricsOf c).
Definition ReachabilityMetrics (c : CacheStore) : cacheMetrics :=
  Reachability.met (reachability c).

(** The addresses with a cache in the store or in one it descends from. *)
Fixpoint addresses (f : CacheStore → gmap string nat) (fuel : nat) (w : world) (c : nat)
  : gset string :=
  match fuel, stores w !! c with
  | S fuel, Some st => dom (f st) ∪ match sharedParent st with
                                    | Some p => addresses f fuel w p
                                    | None => ∅
                                    end
  | _, _ => ∅
  end.
Definition AddressCacheCount (w : world) (c : nat) : Z :=
  Z.of_nat (size (addresses cacheByAddress (S c) w c)).
Definition ErrorCacheCount (w : world) (c : nat) : Z :=
  Z.of_nat (size (addresses errorCacheByAddr (S c) w c)).
Definition NameserverObjectCount (c : CacheStore) : Z :=
  zsum ((λ m : string * gmap string nat, Z.of_nat (size m.2)) <$> map_to_list (objectCache c)).

(** ** What can happen *)

(** The operations of the stores in any order; each takes existing stores. *)
Inductive step : world → world → Prop :=
| step_new w : step w (NewCacheStore w).1
| step_snapshot w c : (c < length (stores w))%nat → step w (SnapshotForRun w c).1
| step_cache w c addr now w' i : cacheForAddress w c addr now = Some (w', i) → step w w'
| step_error w c addr now w' i : errorCacheForAddress w c addr now = Some (w', i) → step w w'
| step_cap w c addr w' i : concurrencyCapForAddress w c addr = Some (w', i) → step w w'
| step_detach w c w' : DetachSharedMetricObservers w c = Some w' → step w w'
| step_merge w c other now w' : MergeWarmDataFrom w c other now = Some w' → step w w'
| step_empty w c w' : Empty w c = Some w' → step w w'
| step_ttl w c st ttl : stores w !! c = Some st → step w (set_store w c (SetWarmAddrTTL st ttl))
| step_object w c st nameKey addr ns : stores w !! c = Some st →
    step w (set_store w c (storeNameserver st nameKey addr ns))
| step_time w c st key d : stores w !! c = Some st →
    step w (set_store w c (RecordQueryTime st key d))
| step_timeout w c st key : stores w !! c = Some st →
    step w (set_store w c (RecordQueryTimeout st key))
| step_refused w c st key : stores w !! c = Some st →
    step w (set_store w c (RecordQueryRefused st key)).

End world.

(** ** Which store refers to which cache *)

Section facts.
Context {Packet : Type}.
#[local] Abbreviation world := (world (Packet:=Packet)).

(** The tables of a store that refer to other objects, and how many objects there are. *)
Record tables := {
  queries : gmap string nat;
  errors : gmap string nat;
  slots : gmap string nat;
  parent : option nat
}.
Record view := { tabs : list tables; nq : nat; ne : nat; nc : nat }.

Definition tables_of (st : CacheStore) : tables :=
  {| queries := cacheByAddress st; errors := errorCacheByAddr st;
     slots := concurrencyByAddr st; parent := sharedParent st |}.
Definition view_of (w : world) : view :=
  {| tabs := tables_of <$> stores w; nq := length (queryCaches w);
     ne := length (errorCaches w); nc := length (caps w) |}.

(** A store is younger than its parent; a table refers to existing objects; query caches
    and caps belong to one address, error caches to one store and one address. *)
Record good (v : view) : Prop := {
  good_parent : ∀ s t p, tabs v !! s = Some t → parent t = Some p → (p < s)%nat;
  good_q : ∀ s t a i, tabs v !! s = Some t → queries t !! a = Some i → (i < nq v)%nat;
  good_e : ∀ s t a i, tabs v !! s = Some t → errors t !! a = Some i → (i < ne v)%nat;
  good_c : ∀ s t a i, tabs v !! s = Some t → slots t !! a = Some i → (i < nc v)%nat;
  good_qa : ∀ s t s' t' a a' i, tabs v !! s = Some t → tabs v !! s' = Some t' →
    queries t !! a = Some i → queries t' !! a' = Some i → a = a';
  good_ca : ∀ s t s' t' a a' i, tabs v !! s = Some t → tabs v !! s' = Some t' →
    slots t !! a = Some i → slots t' !! a' = Some i → a = a';
  good_ea : ∀ s t s' t' a a' i, tabs v !! s = Some t → tabs v !! s' = Some t' →
    errors t !! a = Some i → errors t' !! a' = Some i → s = s' ∧ a = a'
}.

(** *** Views of updated worlds *)

Definition set_tab (v : view) (s : nat) (t : tables) : view :=
  {| tabs := <[s := t]> (tabs v); nq := nq v; ne := ne v; nc := nc v |}.

Lemma view_set_store (w : world) s st :
  view_of (set_store w s st) = set_tab (view_of w) s (tables_of st).
Proof. unfold view_of, set_tab; simpl. by rewrite list_fmap_insert. Qed.

Lemma view_tab (w : world) s st : stores w !! s = Some st → tabs (view_of w) !! s = Some (tables_of st).
Proof. intros H. simpl. by rewrite list_lookup_fmap, H. Qed.

Lemma view_tab_inv (w : world) s t :
  tabs (view_of w) !! s = Some t → ∃ st, stores w !! s = Some st ∧ t = tables_of st.
Proof. simpl. rewrite list_lookup_fmap. intros (st & H & ->)%fmap_Some. eauto. Qed.

(** An update that leaves the tables of the store alone. *)
Lemma view_same_store (w : world) s st st' :
  stores w !! s = Some st → tables_of st' = tables_of st →
  view_of (set_store w s st') = view_of w.
Proof.
  intros H E. rewrite view_set_store, E. unfold set_tab.
  rewrite list_insert_id by by apply view_tab. done.
Qed.

Lemma view_set_query (w : world) i q : view_of (set_query w i q) = view_of w.
Proof. unfold view_of; simpl. by rewrite length_insert. Qed.
Lemma view_set_error (w : world) i q : view_of (set_error w i q) = view_of w.
Proof. unfold view_of; simpl. by rewrite length_insert. Qed.

Lemma view_clear_query f (w : world) i : view_of (clear_query_with f w i) = view_of w.
Proof.
  unfold clear_query_with. destruct (queryCaches w !! i) as [q|]; [|done].
  destruct (f q (metrics w)) as [q' M]. apply (view_set_query w i q').
Qed.
Lemma view_clear_error (w : world) i : view_of (clear_error w i) = view_of w.
Proof.
  unfold clear_error. destruct (errorCaches w !! i) as [q|]; [|done].
  destruct (ErrorCache.clear q (metrics w)) as [q' M]. apply (view_set_error w i q').
Qed.

Lemma view_fold {A} (f : world → A → world) l w :
  (∀ w a, view_of (f w a) = view_of w) → view_of (foldl f w l) = view_of w.
Proof. intros H. revert w. induction l as [|a l IH]; intros w; simpl; [done|]. by rewrite IH. Qed.

Lemma view_on_queries f l (w : world) : view_of (on_queries f l w) = view_of w.
Proof.
  apply view_fold. intros w' i. destruct (queryCaches w' !! i); [apply view_set_query|done].
Qed.
Lemma view_on_errors f l (w : world) : view_of (on_errors f l w) = view_of w.
Proof.
  apply view_fold. intros w' i. destruct (errorCaches w' !! i); [apply view_set_error|done].
Qed.

Lemma view_store_of (w w' : world) s st :
  view_of w' = view_of w → stores w !! s = Some st →
  ∃ st', stores w' !! s = Some st' ∧ tables_of st' = tables_of st.
Proof.
  intros E H. apply view_tab in H. rewrite <- E in H. apply view_tab_inv in H as (st' & H & E').
  eauto.
Qed.

Lemma view_evict_addr cutoff c (w : world) e : view_of (evict_addr cutoff c w e) = view_of w.
Proof.
  unfold evict_addr. destruct (stores w !! c) as [st|] eqn:Hst; [|done].
  destruct (e.2 <? cutoff); [|done].
  set (w1 := match cacheByAddress st !! e.1 with Some i => _ | None => w end).
  assert (H1 : view_of w1 = view_of w) by (unfold w1; case_match; [apply view_clear_query|done]).
  set (w2 := match errorCacheByAddr st !! e.1 with Some i => _ | None => w1 end).
  assert (H2 : view_of w2 = view_of w)
    by (unfold w2; case_match; [rewrite view_clear_error|]; done).
  destruct (view_store_of w w2 c st H2 Hst) as (st2 & Hst2 & E).
  by rewrite (view_same_store w2 c st2) by done.
Qed.

Lemma view_evict (w : world) c now : view_of (evictStaleAddrsLocked w c now) = view_of w.
Proof.
  unfold evictStaleAddrsLocked. destruct (stores w !! c); [|done].
  destruct (_ <=? 0); [done|]. apply view_fold. intros. apply view_evict_addr.
Qed.

(** *** Updates that keep the references good *)

Lemma good_new v p :
  good v → (∀ x, p = Some x → (x < length (tabs v))%nat) →
  good {| tabs := tabs v ++ [{| queries := ∅; errors := ∅; slots := ∅; parent := p |}];
          nq := nq v; ne := ne v; nc := nc v |}.
Proof.
  intros [G1 G2 G3 G4 G5 G6 G7] Hp.
  assert (Hl : ∀ s t, (tabs v ++ [{| queries := ∅; errors := ∅; slots := ∅; parent := p |}]) !! s = Some t →
    tabs v !! s = Some t ∨ s = length (tabs v) ∧ t = {| queries := ∅; errors := ∅; slots := ∅; parent := p |}).
  { intros s t [H|[H1 H2]]%lookup_app_Some; [auto|]. right.
    apply list_lookup_singleton_Some in H2 as [? <-]. split; [lia|done]. }
  split; simpl.
  - intros s t x [H|[-> ->]]%Hl Hx; eauto.
  - intros s t a i [H|[-> ->]]%Hl Hx; eauto. simpl in Hx. by rewrite lookup_empty in Hx.
  - intros s t a i [H|[-> ->]]%Hl Hx; eauto. simpl in Hx. by rewrite lookup_empty in Hx.
  - intros s t a i [H|[-> ->]]%Hl Hx; eauto. simpl in Hx. by rewrite lookup_empty in Hx.
  - intros s t s' t' a a' i [H|[-> ->]]%Hl [H'|[-> ->]]%Hl Hx Hx'; eauto;
      simpl in *; by rewrite ?lookup_empty in *.
  - intros s t s' t' a a' i [H|[-> ->]]%Hl [H'|[-> ->]]%Hl Hx Hx'; eauto;
      simpl in *; by rewrite ?lookup_empty in *.
  - intros s t s' t' a a' i [H|[-> ->]]%Hl [H'|[-> ->]]%Hl Hx Hx'; eauto;
      simpl in *; by rewrite ?lookup_empty in *.
Qed.

(** Replace the tables of a store: every reference of the new ones is either an old one
    of this store, or the reference of some store for the same address (query caches and
    caps), or to a new object. *)
Lemma good_set v s t t' nq' ne' nc' :
  good v → tabs v !! s = Some t → parent t' = parent t →
  (nq v ≤ nq')%nat → (ne v ≤ ne')%nat → (nc v ≤ nc')%nat →
  (∀ a i, queries t' !! a = Some i → (i < nq')%nat ∧
     ((∃ s0 t0, tabs v !! s0 = Some t0 ∧ queries t0 !! a = Some i) ∨
      (nq v ≤ i)%nat ∧ ∀ a', queries t' !! a' = Some i → a' = a)) →
  (∀ a i, slots t' !! a = Some i → (i < nc')%nat ∧
     ((∃ s0 t0, tabs v !! s0 = Some t0 ∧ slots t0 !! a = Some i) ∨
      (nc v ≤ i)%nat ∧ ∀ a', slots t' !! a' = Some i → a' = a)) →
  (∀ a i, errors t' !! a = Some i → (i < ne')%nat ∧
     (errors t !! a = Some i ∨ (ne v ≤ i)%nat ∧ ∀ a', errors t' !! a' = Some i → a' = a)) →
  good {| tabs := <[s := t']> (tabs v); nq := nq'; ne := ne'; nc := nc' |}.
Proof.
  intros [G1 G2 G3 G4 G5 G6 G7] Hs Hp Lq Le Lc Hq Hc He.
  assert (Hl : ∀ x y, <[s := t']> (tabs v) !! x = Some y →
    x = s ∧ y = t' ∨ x ≠ s ∧ tabs v !! x = Some y).
  { intros x y H. destruct (decide (x = s)) as [->|Hne].
    - left. rewrite list_lookup_insert_eq in H by (by eapply lookup_lt_Some). by simplify_eq.
    - right. rewrite list_lookup_insert_ne in H by done. auto. }
  split; simpl.
  - intros x y p [[-> ->]|[_ H]]%Hl Hx; [rewrite Hp in Hx|]; eauto.
  - intros x y a i [[-> ->]|[_ H]]%Hl Hx; [by apply Hq in Hx as [? _]|].
    specialize (G2 _ _ _ _ H Hx). lia.
  - intros x y a i [[-> ->]|[_ H]]%Hl Hx; [by apply He in Hx as [? _]|].
    specialize (G3 _ _ _ _ H Hx). lia.
  - intros x y a i [[-> ->]|[_ H]]%Hl Hx; [by apply Hc in Hx as [? _]|].
    specialize (G4 _ _ _ _ H Hx). lia.
  - intros x y x' y' a a' i [[-> ->]|[_ H]]%Hl [[-> ->]|[_ H']]%Hl Hx Hx'; [| | |eauto].
    + destruct (Hq _ _ Hx) as [_ [(s0 & t0 & H0 & E0)|[Hi Hu]]]; [|symmetry; auto].
      destruct (Hq _ _ Hx') as [_ [(s1 & t1 & H1 & E1)|[Hi Hu]]]; [eauto|].
      specialize (G2 _ _ _ _ H0 E0). lia.
    + destruct (Hq _ _ Hx) as [_ [(s0 & t0 & H0 & E0)|[Hi Hu]]]; [eauto|].
      specialize (G2 _ _ _ _ H' Hx'). lia.
    + destruct (Hq _ _ Hx') as [_ [(s0 & t0 & H0 & E0)|[Hi Hu]]]; [eauto|].
      specialize (G2 _ _ _ _ H Hx). lia.
  - intros x y x' y' a a' i [[-> ->]|[_ H]]%Hl [[-> ->]|[_ H']]%Hl Hx Hx'; [| | |eauto].
    + destruct (Hc _ _ Hx) as [_ [(s0 & t0 & H0 & E0)|[Hi Hu]]]; [|symmetry; auto].
      destruct (Hc _ _ Hx') as [_ [(s1 & t1 & H1 & E1)|[Hi Hu]]]; [eauto|].
      specialize (G4 _ _ _ _ H0 E0). lia.
    + destruct (Hc _ _ Hx) as [_ [(s0 & t0 & H0 & E0)|[Hi Hu]]]; [eauto|].
      specialize (G4 _ _ _ _ H' Hx'). lia.
    + destruct (Hc _ _ Hx') as [_ [(s0 & t0 & H0 & E0)|[Hi Hu]]]; [eauto|].
      specialize (G4 _ _ _ _ H Hx). lia.
  - intros x y x' y' a a' i [[-> ->]|[Hn H]]%Hl [[-> ->]|[Hn' H']]%Hl Hx Hx'; [| | |eauto].
    + split; [done|]. destruct (He _ _ Hx) as [_ [E0|[Hi Hu]]]; [|symmetry; auto].
      destruct (He _ _ Hx') as [_ [E1|[Hi Hu]]]; [by destruct (G7 _ _ _ _ _ _ _ Hs Hs E0 E1)|].
      specialize (G3 _ _ _ _ Hs E0). lia.
    + destruct (He _ _ Hx) as [_ [E0|[Hi Hu]]]; [eauto|]. specialize (G3 _ _ _ _ H' Hx'). lia.
    + destruct (He _ _ Hx') as [_ [E0|[Hi Hu]]]; [eauto|]. specialize (G3 _ _ _ _ H Hx). lia.
Qed.

(** *** The operations *)

(** Entering a query cache, a cap or an error cache in the tables of a store. *)
Lemma good_enter_query v s t a i n :
  good v → tabs v !! s = Some t → (nq v ≤ n)%nat → (i < n)%nat →
  ((∃ s0 t0, tabs v !! s0 = Some t0 ∧ queries t0 !! a = Some i) ∨ (nq v ≤ i)%nat) →
  good {| tabs := <[s := {| queries := <[a := i]> (queries t); errors := errors t;
                            slots := slots t; parent := parent t |}]> (tabs v);
          nq := n; ne := ne v; nc := nc v |}.
Proof.
  intros G Hs Hn Hi Ho. apply (good_set _ _ t); auto; simpl.
  - intros a' i' [[<- <-]|[Hne H]]%lookup_insert_Some.
    + split; [done|]. destruct Ho as [?|Hge]; [auto|]. right. split; [done|].
      intros a' [[<- _]|[_ H]]%lookup_insert_Some; [done|]. apply (good_q _ G _ _ _ _ Hs) in H. lia.
    + pose proof (good_q _ G _ _ _ _ Hs H). split; [lia|eauto].
  - intros a' i' H. pose proof (good_c _ G _ _ _ _ Hs H). split; [lia|eauto].
  - intros a' i' H. pose proof (good_e _ G _ _ _ _ Hs H). split; [lia|eauto].
Qed.

Lemma good_enter_cap v s t a i n :
  good v → tabs v !! s = Some t → (nc v ≤ n)%nat → (i < n)%nat →
  ((∃ s0 t0, tabs v !! s0 = Some t0 ∧ slots t0 !! a = Some i) ∨ (nc v ≤ i)%nat) →
  good {| tabs := <[s := {| queries := queries t; errors := errors t;
                            slots := <[a := i]> (slots t); parent := parent t |}]> (tabs v);
          nq := nq v; ne := ne v; nc := n |}.
Proof.
  intros G Hs Hn Hi Ho. apply (good_set _ _ t); auto; simpl.
  - intros a' i' H. pose proof (good_q _ G _ _ _ _ Hs H). split; [lia|eauto].
  - intros a' i' [[<- <-]|[Hne H]]%lookup_insert_Some.
    + split; [done|]. destruct Ho as [?|Hge]; [auto|]. right. split; [done|].
      intros a' [[<- _]|[_ H]]%lookup_insert_Some; [done|]. apply (good_c _ G _ _ _ _ Hs) in H. lia.
    + pose proof (good_c _ G _ _ _ _ Hs H). split; [lia|eauto].
  - intros a' i' H. pose proof (good_e _ G _ _ _ _ Hs H). split; [lia|eauto].
Qed.

Lemma good_new_error v s t a :
  good v → tabs v !! s = Some t →
  good {| tabs := <[s := {| queries := queries t; errors := <[a := ne v]> (errors t);
                            slots := slots t; parent := parent t |}]> (tabs v);
          nq := nq v; ne := S (ne v); nc := nc v |}.
Proof.
  intros G Hs. apply (good_set _ _ t); auto; simpl.
  - intros a' i' H. pose proof (good_q _ G _ _ _ _ Hs H). split; [lia|eauto].
  - intros a' i' H. pose proof (good_c _ G _ _ _ _ Hs H). split; [lia|eauto].
  - intros a' i' [[<- <-]|[Hne H]]%lookup_insert_Some.
    + split; [lia|]. right. split; [done|].
      intros a' [[<- _]|[_ H]]%lookup_insert_Some; [done|]. apply (good_e _ G _ _ _ _ Hs) in H. lia.
    + pose proof (good_e _ G _ _ _ _ Hs H). split; [lia|eauto].
Qed.

(** What [cacheForAddress] does to the world: the store has the cache, and so has its
    parent; tables only grow, and younger stores are untouched. *)
Record asked (w w' : world) (c : nat) (addr : string) (i : nat) : Prop := {
  asked_good : good (view_of w');
  asked_has : ∃ st, stores w' !! c = Some st ∧ cacheByAddress st !! addr = Some i;
  asked_num : (i < length (queryCaches w'))%nat;
  asked_younger : ∀ s, (c < s)%nat → stores w' !! s = stores w !! s;
  asked_grow : ∀ s st a j, stores w !! s = Some st → cacheByAddress st !! a = Some j →
    ∃ st', stores w' !! s = Some st' ∧ cacheByAddress st' !! a = Some j;
  asked_len : length (stores w') = length (stores w)
}.

(** A store touched and given a cache for an address it had none for. *)
Lemma asked_enter (w0 w w' : world) c st st' addr i :
  good (view_of w') → stores w !! c = Some st → cacheByAddress st !! addr = None →
  (∀ s, (c < s)%nat → stores w !! s = stores w0 !! s) →
  (∀ s st a j, stores w0 !! s = Some st → cacheByAddress st !! a = Some j →
    ∃ st', stores w !! s = Some st' ∧ cacheByAddress st' !! a = Some j) →
  length (stores w) = length (stores w0) → (i < length (queryCaches w'))%nat →
  stores w' = <[c := st']> (stores w) → cacheByAddress st' = <[addr := i]> (cacheByAddress st) →
  asked w0 w' c addr i.
Proof.
  intros G Hst Hno Hy Hg Hl Hi Es Ec.
  assert (Hc : (c < length (stores w))%nat) by (by eapply lookup_lt_Some).
  split; auto.
  - exists st'. rewrite Es, list_lookup_insert_eq by done. split; [done|].
    by rewrite Ec, lookup_insert_eq.
  - intros s Hs. rewrite Es, list_lookup_insert_ne by lia. auto.
  - intros s st0 a j H0 Hj. destruct (Hg _ _ _ _ H0 Hj) as (st1 & H1 & Hj1). rewrite Es.
    destruct (decide (s = c)) as [->|Hne].
    + rewrite list_lookup_insert_eq by done. exists st'. split; [done|].
      rewrite Hst in H1. simplify_eq. rewrite Ec, lookup_insert_ne; [done|]. congruence.
    + rewrite list_lookup_insert_ne by done. eauto.
  - by rewrite Es, length_insert.
Qed.

Lemma cache_for_spec fuel : ∀ (w : world) c addr now,
  good (view_of w) → (c < length (stores w))%nat → (c < fuel)%nat →
  ∃ w' i b, cache_for fuel w c addr now = Some (w', i, b) ∧ asked w w' c addr i ∧
    (∀ st p, stores w !! c = Some st → cacheByAddress st !! addr = None → sharedParent st = Some p →
       ∃ stp, stores w' !! p = Some stp ∧ cacheByAddress stp !! addr = Some i).
Proof.
  induction fuel as [|fuel IH]; intros w c addr now G Hc Hf; [lia|]. cbn [cache_for].
  destruct (lookup_lt_is_Some_2 _ _ Hc) as [st Hst]. rewrite Hst. cbn [mbind option_bind].
  pose proof (view_tab _ _ _ Hst) as Ht.
  destruct (cacheByAddress st !! addr) as [i|] eqn:Hi.
  { eexists _, i, _. split; [reflexivity|]. split; [|congruence].
    assert (Hv : view_of (set_store w c (touchAddrLocked st addr now)) = view_of w)
      by (by apply (view_same_store w c st)).
    split.
    - by rewrite Hv.
    - eexists. simpl. rewrite list_lookup_insert_eq by done. done.
    - apply (good_q _ G _ _ _ _ Ht Hi).
    - intros s Hs. simpl. apply list_lookup_insert_ne. lia.
    - intros s st0 a j H0 Hj. simpl. destruct (decide (s = c)) as [->|Hne].
      + rewrite list_lookup_insert_eq by done. simplify_eq. eauto.
      + rewrite list_lookup_insert_ne by done. eauto.
    - simpl. apply length_insert. }
  destruct (sharedParent st) as [p|] eqn:Hp; cbn [mbind option_bind].
  - pose proof (good_parent _ G _ _ _ Ht Hp) as Hpc.
    destruct (IH w p addr now G) as (w1 & i & b & -> & [G1 (stp & Hstp & Hip) Hn1 Hy1 Hg1 Hl1] & _); [lia|lia|].
    cbn [mbind option_bind].
    destruct (lookup_lt_is_Some_2 (queryCaches w1) i Hn1) as [q ->]. cbn [mbind option_bind].
    rewrite <- (Hy1 c) in Hst by lia. eexists _, i, _. split; [reflexivity|]. split.
    + eapply (asked_enter w w1 _ c st _ addr i); [|done|done| |done|done| |reflexivity|reflexivity].
      * rewrite view_set_store. apply (good_enter_query (view_of w1) c (tables_of st) addr i
          (length (queryCaches w1))) in G1; [|by apply view_tab|done|done|].
        -- unfold set_tab, view_of in *. simpl in *. by rewrite length_insert.
        -- left. exists p, (tables_of stp). split; [by apply view_tab|done].
      * intros s Hs. apply Hy1. lia.
      * simpl. by rewrite length_insert.
    + intros st0 p0 H0 _ Hp0. simplify_eq.
      exists stp. simpl. rewrite list_lookup_insert_ne by lia. done.
  - eexists _, _, _. split; [reflexivity|]. split; [|congruence].
    eapply (asked_enter w w _ c st _ addr); [|done|done|done|eauto|done| |reflexivity|reflexivity].
    + rewrite view_set_store.
      apply (good_enter_query (view_of w) c (tables_of st) addr (length (queryCaches w))
        (S (length (queryCaches w)))) in G; [|by apply view_tab|simpl; lia|lia|right; simpl; lia].
      unfold set_tab, view_of in *. simpl in *. rewrite length_app. simpl. by rewrite Nat.add_1_r.
    + simpl. rewrite length_app. simpl. lia.
Qed.

Lemma cap_for_spec fuel : ∀ (w : world) c addr w' i,
  good (view_of w) → cap_for fuel w c addr = Some (w', i) →
  good (view_of w') ∧ (i < length (caps w'))%nat ∧ length (stores w') = length (stores w) ∧
  (∃ st, stores w' !! c = Some st ∧ concurrencyByAddr st !! addr = Some i) ∧
  ∀ s, (c < s)%nat → stores w' !! s = stores w !! s.
Proof.
  induction fuel as [|fuel IH]; intros w c addr w' i G E; cbn [cap_for] in E; [done|].
  destruct (stores w !! c) as [st|] eqn:Hst; [|done]. cbn [mbind option_bind] in E.
  pose proof (view_tab _ _ _ Hst) as Ht. pose proof (lookup_lt_Some _ _ _ Hst) as Hlt.
  destruct (concurrencyByAddr st !! addr) as [j|] eqn:Hj.
  { simplify_eq. split; [done|]. split; [apply (good_c _ G _ _ _ _ Ht Hj)|]. eauto. }
  destruct (sharedParent st) as [p|] eqn:Hp; cbn [mbind option_bind] in E.
  - destruct (cap_for fuel w p addr) as [[w1 k]|] eqn:E1; cbn [mbind option_bind] in E; [|done].
    simplify_eq. pose proof (good_parent _ G _ _ _ Ht Hp) as Hpc.
    destruct (IH _ _ _ _ _ G E1) as (G1 & Hk & Hl & (stp & Hstp & Hpk) & Hy).
    assert (Hst1 : stores w1 !! c = Some st) by (rewrite Hy; [done|lia]).
    split; [|split; [done|split; [|split]]].
    + rewrite view_set_store. apply (good_enter_cap (view_of w1) c (tables_of st) addr i
        (length (caps w1))) in G1; [exact G1|by apply view_tab|done|done|].
      left. exists p, (tables_of stp). split; [by apply view_tab|done].
    + simpl. by rewrite length_insert.
    + eexists. simpl. rewrite list_lookup_insert_eq by lia. split; [done|]. simpl.
      by rewrite lookup_insert_eq.
    + intros s Hs. simpl. rewrite list_lookup_insert_ne by lia. apply Hy. lia.
  - simplify_eq. split; [|split; [|split; [|split]]].
    + rewrite view_set_store.
      apply (good_enter_cap (view_of w) c (tables_of st) addr (length (caps w))
        (S (length (caps w)))) in G; [|done|simpl; lia|lia|right; simpl; lia].
      unfold set_tab, view_of in *. simpl in *. rewrite length_app. simpl. by rewrite Nat.add_1_r.
    + simpl. rewrite length_app. simpl. lia.
    + simpl. by rewrite length_insert.
    + eexists. simpl. rewrite list_lookup_insert_eq by done. split; [done|]. simpl.
      by rewrite lookup_insert_eq.
    + intros s Hs. simpl. by rewrite list_lookup_insert_ne by lia.
Qed.

Lemma error_for_spec (w : world) c addr now w' i :
  good (view_of w) → errorCacheForAddress w c addr now = Some (w', i) →
  good (view_of w') ∧ length (stores w') = length (stores w) ∧
  (∃ st, stores w' !! c = Some st ∧ errorCacheByAddr st !! addr = Some i) ∧
  ∀ s st a j, stores w !! s = Some st → errorCacheByAddr st !! a = Some j →
    ∃ st', stores w' !! s = Some st' ∧ errorCacheByAddr st' !! a = Some j.
Proof.
  intros G E. unfold errorCacheForAddress in E.
  destruct (stores w !! c) as [st|] eqn:Hst; [|done]. cbn [mbind option_bind] in E.
  pose proof (view_tab _ _ _ Hst) as Ht. pose proof (lookup_lt_Some _ _ _ Hst) as Hlt.
  assert (Hkeep : ∀ st' : CacheStore, (∀ a j, errorCacheByAddr st !! a = Some j →
      errorCacheByAddr st' !! a = Some j) →
    ∀ s st0 a j, stores w !! s = Some st0 → errorCacheByAddr st0 !! a = Some j →
    ∃ st1, <[c := st']> (stores w) !! s = Some st1 ∧ errorCacheByAddr st1 !! a = Some j).
  { intros st' Hk s st0 a j H0 Hj. destruct (decide (s = c)) as [->|Hne].
    - rewrite list_lookup_insert_eq by done. simplify_eq. eauto.
    - rewrite list_lookup_insert_ne by done. eauto. }
  destruct (errorCacheByAddr st !! addr) as [j|] eqn:Hj; simplify_eq.
  - split; [by rewrite (view_same_store w c st)|]. split; [simpl; apply length_insert|].
    split; [eexists; simpl; by rewrite list_lookup_insert_eq by done|]. by apply Hkeep.
  - split; [|split; [simpl; apply length_insert|split]].
    + rewrite view_set_store.
      apply (good_new_error (view_of w) c (tables_of st) addr) in G; [|done].
      unfold set_tab, view_of in *. simpl in *. rewrite length_app. simpl. by rewrite Nat.add_1_r.
    + eexists. simpl. rewrite list_lookup_insert_eq by done. split; [done|]. simpl.
      by rewrite lookup_insert_eq.
    + apply Hkeep. simpl. intros a j Ha. rewrite lookup_insert_ne; [done|]. congruence.
Qed.

(** The loops of [MergeWarmDataFrom]: the other store keeps what the loop copies. *)
Lemma adopt_query_good c now o to_ l : ∀ (w : world),
  c ≠ o → good (view_of w) → tabs (view_of w) !! o = Some to_ →
  (∀ e, e ∈ l → queries to_ !! e.1 = Some e.2) →
  good (view_of (foldl (adopt_query c now) w l)) ∧
  tabs (view_of (foldl (adopt_query c now) w l)) !! o = Some to_.
Proof.
  induction l as [|e l IH]; intros w Hne G Ho Hl; [done|]. cbn [foldl].
  assert (He : queries to_ !! e.1 = Some e.2) by (apply Hl, list_elem_of_here).
  assert (H1 : good (view_of (adopt_query c now w e)) ∧
               tabs (view_of (adopt_query c now w e)) !! o = Some to_); [|by apply IH; try apply H1; eauto using list_elem_of_further].
  unfold adopt_query. destruct (stores w !! c) as [st|] eqn:Hst; [|done].
  destruct (queryCaches w !! e.2) as [q|] eqn:Hq; [|done].
  destruct (cacheByAddress st !! e.1) eqn:Hno; [done|].
  set (st' := match addrLastAccess _ !! e.1 with Some _ => _ | None => _ end).
  assert (Ht : tables_of st' = {| queries := <[e.1 := e.2]> (cacheByAddress st);
    errors := errorCacheByAddr st; slots := concurrencyByAddr st; parent := sharedParent st |})
    by (unfold st'; by case_match).
  rewrite view_set_store, view_set_query, Ht. split.
  - pose proof (good_enter_query (view_of w) c (tables_of st) e.1 e.2 (nq (view_of w))) as He'.
    apply He'; auto; [by apply view_tab|by eapply lookup_lt_Some|eauto].
  - simpl. by rewrite list_lookup_insert_ne.
Qed.

Lemma adopt_cap_good c o to_ l : ∀ (w : world),
  c ≠ o → good (view_of w) → tabs (view_of w) !! o = Some to_ →
  (∀ e, e ∈ l → slots to_ !! e.1 = Some e.2) → good (view_of (foldl (adopt_cap c) w l)).
Proof.
  induction l as [|e l IH]; intros w Hne G Ho Hl; [done|]. cbn [foldl].
  assert (He : slots to_ !! e.1 = Some e.2) by (apply Hl, list_elem_of_here).
  assert (H1 : good (view_of (adopt_cap c w e)) ∧ tabs (view_of (adopt_cap c w e)) !! o = Some to_);
    [|by apply IH; try apply H1; eauto using list_elem_of_further].
  unfold adopt_cap. destruct (stores w !! c) as [st|] eqn:Hst; [|done].
  destruct (concurrencyByAddr st !! e.1) eqn:Hno; [done|].
  rewrite view_set_store. split.
  - pose proof (good_enter_cap (view_of w) c (tables_of st) e.1 e.2 (nc (view_of w))) as He'.
    apply He'; auto; [by apply view_tab|by apply (good_c _ G _ _ _ _ Ho He)|eauto].
  - simpl. by rewrite list_lookup_insert_ne.
Qed.

Lemma merge_good (w : world) c other now w' :
  good (view_of w) → MergeWarmDataFrom w c other now = Some w' → good (view_of w').
Proof.
  intros G E. unfold MergeWarmDataFrom in E. case_decide as Hne; [by simplify_eq|].
  destruct (stores w !! c) as [st|] eqn:Hst; [|done]. cbn [mbind option_bind] in E.
  destruct (stores w !! other) as [o|] eqn:Ho; [|done]. cbn [mbind option_bind] in E.
  set (w1 := set_store w c _) in E.
  assert (Hv1 : view_of w1 = view_of w) by (by apply (view_same_store w c st)).
  assert (Hv2 : view_of (evictStaleAddrsLocked w1 c now) = view_of w) by by rewrite view_evict.
  set (w2 := evictStaleAddrsLocked w1 c now) in *. clearbody w2. injection E as <-.
  destruct (adopt_query_good c now other (tables_of o) (map_to_list (cacheByAddress o)) w2)
    as [G3 H3]; [done|by rewrite Hv2|rewrite Hv2; by apply view_tab|..].
  { intros [a i] Ha. by apply elem_of_map_to_list in Ha. }
  eapply adopt_cap_good; [done|done|done|].
  intros [a i] Ha. by apply elem_of_map_to_list in Ha.
Qed.

Lemma empty_good (w : world) c w' : good (view_of w) → Empty w c = Some w' → good (view_of w').
Proof.
  intros G E. unfold Empty in E. destruct (stores w !! c) as [st|] eqn:Hst; [|done].
  cbn [mbind option_bind] in E. set (w2 := foldl clear_error _ _) in E.
  assert (Hv : view_of w2 = view_of w).
  { unfold w2. rewrite (view_fold clear_error) by apply view_clear_error.
    apply view_fold. intros. apply view_clear_query. }
  injection E as <-. rewrite view_set_store, Hv. apply (good_set _ _ (tables_of st)); auto;
    [by apply view_tab|..]; simpl; intros a i H; rewrite ?lookup_empty in H; try done.
  pose proof (good_c _ G _ _ _ _ (view_tab _ _ _ Hst) H). split; [done|].
  left. exists c, (tables_of st). split; [by apply view_tab|done].
Qed.

Lemma store_good_step (w w' : world) : good (view_of w) → step w w' → good (view_of w').
Proof.
  intros G Hs. destruct Hs as [w|w c Hc|w c addr now w' i E|w c addr now w' i E|w c addr w' i E
    |w c w' E|w c other now w' E|w c w' E|w c st ttl E|w c st nameKey addr ns E|w c st key d E
    |w c st key E|w c st key E].
  - unfold view_of. simpl. rewrite fmap_app. by apply (good_new (view_of w) None).
  - unfold view_of. simpl. rewrite fmap_app. apply (good_new (view_of w) (Some c) G).
    intros x [= <-]. simpl. by rewrite length_fmap.
  - unfold cacheForAddress, cacheForAddressWithStatus in E.
    destruct (Nat.lt_ge_cases c (length (stores w))) as [Hc|Hc].
    + destruct (cache_for_spec (S c) w c addr now G Hc) as (w1 & j & b & E1 & A & _); [lia|].
      rewrite E1 in E. cbn [mbind option_bind] in E. simplify_eq. apply A.
    + cbn [cache_for] in E. rewrite lookup_ge_None_2 in E by lia. done.
  - by eapply error_for_spec.
  - by eapply cap_for_spec.
  - unfold DetachSharedMetricObservers in E. destruct (stores w !! c) as [st|] eqn:Hst; [|done].
    cbn [mbind option_bind] in E. simplify_eq. rewrite view_on_errors, view_on_queries.
    by rewrite (view_same_store w c st).
  - by eapply merge_good.
  - by eapply empty_good.
  - by rewrite (view_same_store w c st).
  - by rewrite (view_same_store w c st).
  - by rewrite (view_same_store w c st).
  - by rewrite (view_same_store w c st).
  - by rewrite (view_same_store w c st).
Qed.

Lemma store_good_reachable (w : world) : rtc step world0 w → good (view_of w).
Proof.
  intros Hr. apply (rtc_invariant step (λ w, good (view_of w)) world0); [apply store_good_step| |done].
  split; simpl; intros *; by rewrite lookup_nil.
Qed.

(** Whatever the runs do with their stores, no cache serves two addresses: a query
    cache or a concurrency cap may be shared between stores, but only for one address,
    and an error cache is never shared at all, neither with a parent nor by a merge. *)
Theorem caches_never_mixed (w : world) s st s' st' a a' i :
  rtc step world0 w → stores w !! s = Some st → stores w !! s' = Some st' →
  (cacheByAddress st !! a = Some i → cacheByAddress st' !! a' = Some i → a = a') ∧
  (concurrencyByAddr st !! a = Some i → concurrencyByAddr st' !! a' = Some i → a = a') ∧
  (errorCacheByAddr st !! a = Some i → errorCacheByAddr st' !! a' = Some i → s = s' ∧ a = a').
Proof.
  intros G%store_good_reachable H H'. apply view_tab in H, H'. split; [|split]; intros Hi Hi'.
  - exact (good_qa _ G _ _ _ _ _ _ _ H H' Hi Hi').
  - exact (good_ca _ G _ _ _ _ _ _ _ H H' Hi Hi').
  - exact (good_ea _ G _ _ _ _ _ _ _ H H' Hi Hi').
Qed.

Lemma error_for_total (w : world) c addr now :
  (c < length (stores w))%nat → ∃ w' i, errorCacheForAddress w c addr now = Some (w', i).
Proof.
  intros [st Hst]%lookup_lt_is_Some_2. unfold errorCacheForAddress. rewrite Hst.
  cbn [mbind option_bind]. case_match; eauto.
Qed.

Lemma two_snapshots (w : world) c :
  (c < length (stores w))%nat → good (view_of w) →
  let w2 := (SnapshotForRun (SnapshotForRun w c).1 c).1 in
  let n := length (stores w) in
  good (view_of w2) ∧ length (stores w2) = S (S n) ∧
  stores w2 !! n = Some (emptyStore (Some c)) ∧ stores w2 !! S n = Some (emptyStore (Some c)).
Proof.
  intros Hc G. split; [|split; [|split]].
  - eapply store_good_step; [eapply store_good_step; [exact G|by apply step_snapshot]|].
    apply step_snapshot. simpl. rewrite length_app. simpl. lia.
  - simpl. rewrite !length_app. simpl. lia.
  - simpl. rewrite lookup_app_l by (rewrite length_app; simpl; lia).
    by rewrite lookup_app_r, Nat.sub_diag by lia.
  - simpl. rewrite lookup_app_r by (rewrite length_app; simpl; lia).
    rewrite length_app. simpl. by replace (S (length (stores w)) - (length (stores w) + 1))%nat with 0%nat by lia.
Qed.

(** Two runs that snapshot the same store share the query cache of every address, so
    that their identical queries are sent once; they never share an error cache.  The
    lookup always succeeds: the chain of parents ends. *)
Theorem snapshots_share_queries_not_errors (w : world) c addr t1 t2 t3 t4 :
  rtc step world0 w → (c < length (stores w))%nat →
  let '(w1, s1) := SnapshotForRun w c in
  let '(w2, s2) := SnapshotForRun w1 c in
  ∃ w3 i w4 w5 e1 w6 e2,
    cacheForAddress w2 s1 addr t1 = Some (w3, i) ∧ cacheForAddress w3 s2 addr t2 = Some (w4, i) ∧
    errorCacheForAddress w4 s1 addr t3 = Some (w5, e1) ∧
    errorCacheForAddress w5 s2 addr t4 = Some (w6, e2) ∧ e1 ≠ e2.
Proof.
  intros G%store_good_reachable Hc.
  change (SnapshotForRun w c) with ((SnapshotForRun w c).1, length (stores w)).
  cbv beta iota. set (w1 := (SnapshotForRun w c).1).
  change (SnapshotForRun w1 c) with ((SnapshotForRun w1 c).1, length (stores w1)).
  cbv beta iota. set (w2 := (SnapshotForRun w1 c).1).
  destruct (two_snapshots w c Hc G) as (G2 & Hl2 & H1 & H2). fold w1 w2 in G2, Hl2, H1, H2.
  replace (length (stores w1)) with (S (length (stores w)))
    by (unfold w1; simpl; rewrite length_app; simpl; lia).
  set (n := length (stores w)) in *.
  unfold cacheForAddress, cacheForAddressWithStatus.
  destruct (cache_for_spec (S n) w2 n addr t1 G2) as (w3 & i & b & E3 & A3 & P3); [lia|lia|].
  destruct (P3 _ c H1 (lookup_empty _) eq_refl) as (stp & Hstp & Hi).
  pose proof (asked_younger _ _ _ _ _ A3 (S n) ltac:(lia)) as Hy. rewrite H2 in Hy.
  destruct (cache_for_spec (S (S n)) w3 (S n) addr t2) as (w4 & j & b' & E4 & A4 & P4);
    [apply A3|rewrite (asked_len _ _ _ _ _ A3); lia|lia|].
  destruct (P4 _ c Hy (lookup_empty _) eq_refl) as (stp' & Hstp' & Hj).
  destruct (asked_grow _ _ _ _ _ A4 _ _ _ _ Hstp Hi) as (stp2 & Hs2 & Hi2).
  rewrite Hstp' in Hs2. injection Hs2 as <-. rewrite Hj in Hi2. injection Hi2 as ->.
  assert (L4 : length (stores w4) = S (S n))
    by (rewrite (asked_len _ _ _ _ _ A4), (asked_len _ _ _ _ _ A3); lia).
  destruct (error_for_total w4 n addr t3) as (w5 & e1 & E5); [lia|].
  destruct (error_for_spec _ _ _ _ _ _ (asked_good _ _ _ _ _ A4) E5) as (G5 & L5 & (st5 & S5 & F5) & _).
  destruct (error_for_total w5 (S n) addr t4) as (w6 & e2 & E6); [lia|].
  destruct (error_for_spec _ _ _ _ _ _ G5 E6) as (G6 & _ & (st6 & S6 & F6) & K6).
  destruct (K6 _ _ _ _ S5 F5) as (st7 & S7 & F7).
  exists w3, i, w4, w5, e1, w6, e2. rewrite E3, E4. split; [done|]. split; [done|].
  split; [exact E5|]. split; [exact E6|]. intros ->.
  destruct (good_ea _ G6 n (tables_of st7) (S n) (tables_of st6) addr addr e2) as [Hns _];
    [by apply view_tab|by apply view_tab|done|done|]. lia.
Qed.
End facts.

(** A warm store, a run on it that has used an address, and the run merged back. *)
Definition warm : world (Packet:=unit) := (NewCacheStore world0).1.
Definition used : option (world (Packet:=unit)) :=
  '(w, _) ← cacheForAddress (SnapshotForRun warm 0).1 1 "192.0.2.1" 5;
  '(w, _) ← errorCacheForAddress w 1 "192.0.2.1" 6;
  MergeWarmDataFrom w 0 1 7.

Lemma used_reachable w : used = Some w → rtc step world0 w.
Proof.
  unfold used. intros H.
  assert (H0 : rtc step world0 (SnapshotForRun warm 0).1).
  { eapply rtc_l; [apply step_new|]. eapply rtc_l; [|apply rtc_refl].
    apply (step_snapshot warm 0). simpl. lia. }
  destruct (cacheForAddress _ 1 _ _) as [[w1 i]|] eqn:E1; [|done]. cbn [mbind option_bind] in H.
  destruct (errorCacheForAddress w1 1 _ _) as [[w2 j]|] eqn:E2; [|done].
  cbn [mbind option_bind] in H.
  eapply rtc_r; [eapply rtc_r; [eapply rtc_r; [exact H0|by eapply step_cache]|by eapply step_error]|].
  by eapply step_merge.
Qed.

Lemma caches_never_mixed_witness :
  ∃ w st st' i, used = Some w ∧ stores w !! 0%nat = Some st ∧ stores w !! 1%nat = Some st' ∧
    cacheByAddress st !! "192.0.2.1"%string = Some i ∧
    cacheByAddress st' !! "192.0.2.1"%string = Some i ∧
    (∀ e, errorCacheByAddr st !! "192.0.2.1"%string = Some e →
          errorCacheByAddr st' !! "192.0.2.1"%string = Some e → 0%nat = 1%nat).
Proof.
  assert (Hu : ∃ w st st' i, used = Some w ∧ stores w !! 0%nat = Some st ∧ stores w !! 1%nat = Some st' ∧
    cacheByAddress st !! "192.0.2.1"%string = Some i ∧
    cacheByAddress st' !! "192.0.2.1"%string = Some i)
    by (eexists _, _, _, _; by split_and!).
  destruct Hu as (w & st & st' & i & Hw & H0 & H1 & Hi & Hi').
  exists w, st, st', i. do 5 (split; [assumption|]). intros e He He'.
  apply (caches_never_mixed w 0 st 1 st' "192.0.2.1" "192.0.2.1" e (used_reachable w Hw) H0 H1);
    assumption.
Defined.

Lemma snapshots_share_queries_not_errors_witness :
  let '(w1, s1) := SnapshotForRun warm 0 in
  let '(w2, s2) := SnapshotForRun w1 0 in
  ∃ w3 i w4 w5 e1 w6 e2,
    cacheForAddress w2 s1 "192.0.2.1" 1 = Some (w3, i) ∧
    cacheForAddress w3 s2 "192.0.2.1" 2 = Some (w4, i) ∧
    errorCacheForAddress w4 s1 "192.0.2.1" 3 = Some (w5, e1) ∧
    errorCacheForAddress w5 s2 "192.0.2.1" 4 = Some (w6, e2) ∧ e1 ≠ e2.
Proof.
  apply (snapshots_share_queries_not_errors warm 0 "192.0.2.1" 1 2 3 4).
  - eapply rtc_l; [apply step_new|apply rtc_refl].
  - simpl. lia.
Defined.
