(* ===== verification/Plan.v ===== *)
(** * Which test cases a request runs: [engine/plan.go] and [engine/engine.go]

    The server asks [PlannedTestcases] what a request will run, to show its progress;
    the run itself goes through [normalizeRequest] and [buildProfile], which leave the
    selection in the profile's [test_cases], and each test module asks
    [util.ShouldRunTest].  A request is given with the [test_cases] of the profile it
    selects (the default profile merged with the override, or the error of loading it),
    an item being [None] when it is not a string. *)

From S2P Require Import Prelude GoStrings.

Local Open Scope list_scope.

(** ** Tables *)

Definition basicTests : list string :=
  ["basic01"; "basic02"; "basic03"]%string.
Definition syntaxTests : list string :=
  ["syntax01"; "syntax02"; "syntax03"; "syntax04"; "syntax05"; "syntax06";
   "syntax07"; "syntax08"]%string.
Definition addressTests : list string :=
  ["address01"; "address02"; "address03"]%string.
Definition connectivityTests : list string :=
  ["connectivity01"; "connectivity02"; "connectivity03"; "connectivity04";
   "connectivity05"]%string.
Definition consistencyTests : list string :=
  ["consistency01"; "consistency02"; "consistency03"; "consistency04";
   "consistency05"; "consistency06"]%string.
Definition delegationTests : list string :=
  ["delegation01"; "delegation02"; "delegation03"; "delegation04"; "delegation05";
   "delegation06"; "delegation07"]%string.
Definition dnssecTests : list string :=
  ["dnssec01"; "dnssec02"; "dnssec03"; "dnssec04"; "dnssec05"; "dnssec06";
   "dnssec07"; "dnssec08"; "dnssec09"; "dnssec10"; "dnssec11"; "dnssec13";
   "dnssec14"; "dnssec15"; "dnssec16"; "dnssec17"; "dnssec18"; "dnssec19";
   "dnssec20"; "dnssec21"; "dnssec22"; "dnssec23"; "dnssec24"]%string.
Definition zoneTests : list string :=
  ["zone01"; "zone02"; "zone03"; "zone04"; "zone05"; "zone06"; "zone07"; "zone08";
   "zone09"; "zone10"; "zone11"; "zone12"; "zone13"; "zone14"; "zone15"]%string.
Definition nameserverTests : list string :=
  ["nameserver01"; "nameserver02"; "nameserver03"; "nameserver04"; "nameserver05";
   "nameserver06"; "nameserver07"; "nameserver08"; "nameserver09"; "nameserver10";
   "nameserver11"; "nameserver12"; "nameserver13"; "nameserver15"; "nameserver16";
   "nameserver17"; "nameserver18"]%string.

Inductive plan_error :=
| UnknownModule (module : string)
| UnknownTestcase (name : string)
| WrongModule (name module : string)
| UnknownExcluded (name : string)
| TestcaseExcluded (name : string)
| ModuleExcluded (module : string)
| AllExcluded
| UnknownMinLevel (level : string)
| ProfileError (text : string).

#[export] Instance plan_error_eq_dec : EqDecision plan_error.
Proof. solve_decision. Defined.

(** The part of [RunRequest] that matters here, and the test cases of its profile. *)
Record RunRequest := {
  Module_ : string;
  Testcases : list string;
  Exclude : list string;
  MinLevel : string;
  profile_cases : result (list (option string)) string
}.

(** ** Names *)

Fixpoint suffix_digits (rev : string) : string :=
  match rev with
  | String c rest => if is_digit_byte c then String c (suffix_digits rest) else EmptyString
  | EmptyString => EmptyString
  end.

Fixpoint digits_value (acc : Z) (s : string) : Z :=
  match s with
  | String c rest => digits_value (acc * 10 + (Z.of_N (byte_code c) - 48)) rest
  | EmptyString => acc
  end.

(** [strconv.Atoi] of a non-empty string of digits. *)
Definition atoi_digits (s : string) : option Z :=
  let n := digits_value 0 s in if (n <? 2 ^ 63)%Z then Some n else None.

Definition splitTestcaseNumber (name : string) : string * Z * bool :=
  let digits := string_rev (suffix_digits (string_rev name)) in
  if decide (digits = ""%string) then (name, 0%Z, false)
  else match atoi_digits digits with
       | None => (name, 0%Z, false)
       | Some num => (take_bytes (String.length name - String.length digits) name, num, true)
       end.

(** The comparison function of [dnssecTestcaseNames]. *)
Definition testcase_less (a b : string) : bool :=
  let '(prefixI, numI, okI) := splitTestcaseNumber a in
  let '(prefixJ, numJ, okJ) := splitTestcaseNumber b in
  if bool_decide (prefixI = prefixJ) && okI && okJ && negb (numI =? numJ)%Z then (numI <? numJ)%Z
  else String.ltb a b.

Definition testcase_le (a b : string) : Prop := testcase_less b a = false.
#[export] Instance testcase_le_dec : RelDecision testcase_le.
Proof. intros a b. unfold testcase_le. apply _. Defined.

Definition dnssecTestcaseNames : list string := merge_sort testcase_le dnssecTests.

Definition module_table : list (string * list string) :=
  [("basic"%string,
    ["basic01"; "basic02"; "basic03"]%string);
   ("syntax"%string,
    ["syntax01"; "syntax02"; "syntax03"; "syntax04"; "syntax05"; "syntax06";
     "syntax07"; "syntax08"]%string);
   ("address"%string,
    ["address01"; "address02"; "address03"]%string);
   ("connectivity"%string,
    ["connectivity01"; "connectivity02"; "connectivity03"; "connectivity04";
     "connectivity05"]%string);
   ("consistency"%string,
    ["consistency01"; "consistency02"; "consistency03"; "consistency04";
     "consistency05"; "consistency06"]%string);
   ("dnssec"%string, dnssecTestcaseNames);
   ("delegation"%string,
    ["delegation01"; "delegation02"; "delegation03"; "delegation04";
     "delegation05"; "delegation06"; "delegation07"]%string);
   ("nameserver"%string,
    ["nameserver01"; "nameserver02"; "nameserver03"; "nameserver04";
     "nameserver05"; "nameserver06"; "nameserver07"; "nameserver08";
     "nameserver09"; "nameserver10"; "nameserver11"; "nameserver12";
     "nameserver13"; "nameserver15"; "nameserver16"; "nameserver17"; "nameserver18"]%string);
   ("zone"%string,
    ["zone01"; "zone02"; "zone03"; "zone04"; "zone05"; "zone06"; "zone07";
     "zone08"; "zone09"; "zone10"; "zone11"; "zone12"; "zone13"; "zone14"; "zone15"]%string)].

Definition moduleTestcases (module : string) : option (list string) := assoc module module_table.

(** The cases of a module, none for an unknown one (a nil slice). *)
Definition cases_of (module : string) : list string := default [] (moduleTestcases module).

Definition moduleOrder : list string :=
  ["basic"; "address"; "connectivity"; "consistency"; "delegation"; "dnssec"; "nameserver";
   "syntax"; "zone"]%string.

Definition moduleDisplayNames : list (string * string) :=
  [("basic", "Basic"); ("syntax", "Syntax"); ("address", "Address");
   ("connectivity", "Connectivity"); ("consistency", "Consistency"); ("dnssec", "DNSSEC");
   ("delegation", "Delegation"); ("nameserver", "Nameserver"); ("zone", "Zone")]%string.

Definition testcaseModule (testcase : string) : string :=
  if bool_decide (testcase ∈ basicTests) then "basic"
  else if bool_decide (testcase ∈ syntaxTests) then "syntax"
  else if bool_decide (testcase ∈ addressTests) then "address"
  else if bool_decide (testcase ∈ connectivityTests) then "connectivity"
  else if bool_decide (testcase ∈ consistencyTests) then "consistency"
  else if bool_decide (testcase ∈ dnssecTests) then "dnssec"
  else if bool_decide (testcase ∈ delegationTests) then "delegation"
  else if bool_decide (testcase ∈ nameserverTests) then "nameserver"
  else if bool_decide (testcase ∈ zoneTests) then "zone"
  else "".

Definition titleCase `{GoUnicode} (value : string) : string :=
  match value with
  | EmptyString => ""
  | String c rest => (to_upper (String c "") +:+ rest)%string
  end.

Definition moduleDisplayName `{GoUnicode} (moduleName : string) : string :=
  default (titleCase moduleName) (assoc moduleName moduleDisplayNames).

Definition testcaseDisplayName `{GoUnicode} (testcase : string) : string :=
  if has_prefix "dnssec" testcase
  then ("DNSSEC" +:+ drop_bytes (String.length "dnssec") testcase)%string
  else titleCase testcase.

(** Every known test case, in module order; the ones a test selects, in that order. *)
Definition all_cases : list string := moduleOrder ≫= cases_of.
Definition in_plan_order (selected : string → bool) : list string :=
  moduleOrder ≫= λ m, List.filter selected (cases_of m).

Definition AvailableTestcases `{GoUnicode} : list string :=
  moduleOrder ≫= λ m, (λ tc, (moduleDisplayName m +:+ ":" +:+ testcaseDisplayName tc)%string) <$> cases_of m.

Section plan.
Context `{GoUnicode}.

(** [strings.ToLower(strings.TrimSpace(s))] *)
Definition norm (s : string) : string := to_lower (trim_space s).

Definition mem (name : string) (l : list string) : bool := bool_decide (name ∈ l).

(** ** Planning: [plan.go] *)

(** The loop over [req.Testcases]: the names in order of first mention; [check] raises
    the error for an unknown name or one of another module. *)
Fixpoint select_testcases (module : string) (raws : list string) (ordered : list string)
  : result (list string) plan_error :=
  match raws with
  | [] => Ok ordered
  | raw :: raws =>
      let name := norm raw in
      if decide (name = "")%string then select_testcases module raws ordered
      else
        let testModule := testcaseModule name in
        if decide (testModule = "")%string then Err (UnknownTestcase name)
        else if bool_decide (module ≠ "")%string && bool_decide (module ≠ testModule)
             then Err (WrongModule name module)
        else select_testcases module raws (if mem name ordered then ordered else ordered ++ [name])
  end.

(** The names the profile enables. *)
Definition enabled_names (items : list (option string)) : list string :=
  List.filter (λ n, negb (bool_decide (n = "")%string))
    (omap (λ item, norm <$> item) items).

Definition plannedSelection (req : RunRequest) : result (list string) plan_error :=
  let module := norm (Module_ req) in
  if bool_decide (module ≠ "")%string && bool_decide (moduleTestcases module = None)
  then Err (UnknownModule module)
  else
    match Testcases req with
    | _ :: _ =>
        let? ordered := select_testcases module (Testcases req) [] in
        let planned := in_plan_order (λ name, mem name ordered) in
        Ok (match planned with [] => ordered | _ => planned end)
    | [] =>
        if decide (module = "")%string then
          match profile_cases req with
          | Err e => Err (ProfileError e)
          | Ok items => Ok (in_plan_order (λ name, mem name (enabled_names items)))
          end
        else Ok (cases_of module)
    end.

(** ** Exclusions: [engine.go] *)

(** The names one value of [--exclude] stands for. *)
Fixpoint expand_names (raws : list string) : result (list string) plan_error :=
  match raws with
  | [] => Ok []
  | raw :: raws =>
      let name := norm raw in
      if decide (name = "")%string then expand_names raws
      else match moduleTestcases name with
           | Some cases => let? rest := expand_names raws in Ok (cases ++ rest)
           | None =>
               if decide (testcaseModule name = "")%string then Err (UnknownExcluded name)
               else let? rest := expand_names raws in Ok (name :: rest)
           end
  end.

Definition ExpandExclusions (values : list string) : result (list string) plan_error :=
  let? excluded := expand_names (values ≫= split ",") in
  Ok (in_plan_order (λ tc, mem tc excluded)).

Definition exclusionSet (req : RunRequest) (module : string) (testcases : list string)
  : result (list string) plan_error :=
  let? excluded := ExpandExclusions (Exclude req) in
  match list_find (λ name, mem name excluded = true) testcases with
  | Some (_, name) => Err (TestcaseExcluded name)
  | None =>
      if bool_decide (module ≠ "")%string && bool_decide (testcases = []) &&
         forallb (λ tc, mem tc excluded) (cases_of module)
      then Err (ModuleExcluded module)
      else Ok excluded
  end.

Definition PlannedTestcases (req : RunRequest) : result (list string) plan_error :=
  let? planned := plannedSelection req in
  let explicit := match Testcases req with [] => [] | _ => planned end in
  let? excluded := exclusionSet req (norm (Module_ req)) explicit in
  match excluded with
  | [] => Ok planned
  | _ => match List.filter (λ name, negb (mem name excluded)) planned with
         | [] => Err AllExcluded
         | planned => Ok planned
         end
  end.

(** ** The run: [engine.go] *)

Definition levels : list string :=
  ["DEBUG3"; "DEBUG2"; "DEBUG"; "INFO"; "NOTICE"; "WARNING"; "ERROR"; "CRITICAL"]%string.

(** The loop over [req.Testcases] of [normalizeRequest]. *)
Fixpoint normalize_testcases (module : string) (raws : list string) (testcases : list string)
  : result (list string) plan_error :=
  match raws with
  | [] => Ok testcases
  | raw :: raws =>
      let name := norm raw in
      if decide (name = "")%string then normalize_testcases module raws testcases
      else if mem name testcases then normalize_testcases module raws testcases
      else
        let testModule := testcaseModule name in
        if decide (testModule = "")%string then Err (UnknownTestcase name)
        else if bool_decide (module ≠ "")%string && bool_decide (module ≠ testModule)
             then Err (WrongModule name module)
        else normalize_testcases module raws (testcases ++ [name])
  end.

Definition normalizeRequest (req : RunRequest) : result (string * list string) plan_error :=
  let module := norm (Module_ req) in
  if bool_decide (module ≠ "")%string && bool_decide (moduleTestcases module = None)
  then Err (UnknownModule module)
  else
    let minLevel := to_upper (trim_space (MinLevel req)) in
    if bool_decide (minLevel ≠ "")%string && negb (mem minLevel levels)
    then Err (UnknownMinLevel (MinLevel req))
    else
      let? testcases := normalize_testcases module (Testcases req) [] in
      Ok (module, testcases).

(** The name of an item of the profile, as [excludeFromProfile] reads it. *)
Definition item_name (item : option string) : string := norm (default ""%string item).

Definition excludeFromProfile (items : list (option string)) (excluded : list string)
  : result (list (option string)) plan_error :=
  match excluded with
  | [] => Ok items
  | _ =>
      let kept := List.filter (λ item, negb (mem (item_name item) excluded)) items in
      if existsb (λ item, negb (bool_decide (testcaseModule (item_name item) = ""%string))) kept
      then Ok kept else Err AllExcluded
  end.

(** The [test_cases] part of [buildProfile]. *)
Definition buildProfile (req : RunRequest) (module : string) (testcases : list string)
  : result (list (option string)) plan_error :=
  match profile_cases req with
  | Err e => Err (ProfileError e)
  | Ok items =>
      let items := match testcases with
                   | _ :: _ => Some <$> testcases
                   | [] => if bool_decide (module ≠ "")%string
                           then match moduleTestcases module with
                                | Some cases => Some <$> cases
                                | None => items
                                end
                           else items
                   end in
      let? excluded := exclusionSet req module testcases in
      excludeFromProfile items excluded
  end.

(** The [test_cases] of the profile a run uses. *)
Definition run_profile (req : RunRequest) : result (list (option string)) plan_error :=
  let? mt := normalizeRequest req in buildProfile req mt.1 mt.2.

(** [util.ShouldRunTest] *)
Definition ShouldRunTest (items : list (option string)) (testName : string) : bool :=
  negb (bool_decide (testName = "")%string) &&
  existsb (λ item, bool_decide (item = Some testName)) items.
End plan.

(** ** The tables agree *)

#[local] Existing Instance ascii_unicode.

(** The checks below evaluate the tables once; [norm] on a literal ASCII name does not
    use the Unicode tables. *)
Lemma mem_spec n l : mem n l = true ↔ n ∈ l.
Proof. apply bool_decide_eq_true. Qed.
Lemma mem_false n l : mem n l = false ↔ n ∉ l.
Proof. apply bool_decide_eq_false. Qed.

Definition known_tests : list string :=
  basicTests ++ syntaxTests ++ addressTests ++ connectivityTests ++ consistencyTests ++
  dnssecTests ++ delegationTests ++ nameserverTests ++ zoneTests.

Definition all_cases_table : list string := Eval vm_compute in all_cases.
Lemma all_cases_eq : all_cases = all_cases_table.
Proof. vm_compute. reflexivity. Qed.

Lemma known_in_table : forallb (λ n, mem n all_cases_table) known_tests = true.
Proof. vm_compute. reflexivity. Qed.
Lemma table_known : forallb (λ n, negb (bool_decide (testcaseModule n = ""%string))) all_cases_table = true.
Proof. vm_compute. reflexivity. Qed.
Lemma table_trimmed :
  forallb (λ n, is_ascii n && bool_decide (trim_space n = n) && bool_decide (string_map byte_lower n = n) &&
                negb (bool_decide (n = ""%string))) all_cases_table = true.
Proof. vm_compute. reflexivity. Qed.
Lemma table_nodup : NoDup all_cases_table.
Proof. apply (bool_decide_unpack _). vm_compute. exact I. Qed.
Lemma modules_in_order : forallb (λ m, mem m.1 moduleOrder) module_table = true.
Proof. vm_compute. reflexivity. Qed.

(** ** Lemmas on the tables *)

Section facts.
Context `{GoUnicode}.

Lemma known_iff n : testcaseModule n ≠ ""%string ↔ n ∈ all_cases.
Proof.
  rewrite all_cases_eq. split.
  - intros Hn. apply mem_spec. apply (forallb_elem _ _ n known_in_table). revert Hn.
    unfold testcaseModule, known_tests. rewrite !elem_of_app.
    repeat case_bool_decide; try tauto; done.
  - intros Hn E. pose proof (forallb_elem _ _ n table_known Hn) as Hk. simpl in Hk.
    by rewrite bool_decide_true in Hk.
Qed.

Lemma known_nonempty n : n ∈ all_cases → n ≠ ""%string.
Proof. intros Hn%known_iff ->. by apply Hn. Qed.

Lemma norm_known n : n ∈ all_cases → norm n = n ∧ n ≠ ""%string.
Proof.
  rewrite all_cases_eq. intros Hn. pose proof (forallb_elem _ _ n table_trimmed Hn) as Hk.
  simpl in Hk. apply andb_true_iff in Hk as [Hk H4]. apply andb_true_iff in Hk as [Hk H3].
  apply andb_true_iff in Hk as [H1 H2]. apply bool_decide_eq_true in H2, H3.
  apply negb_true_iff, bool_decide_eq_false in H4. split; [|done].
  unfold norm. by rewrite H2, to_lower_ascii.
Qed.

Lemma assoc_in {A} key (l : list (string * A)) v : assoc key l = Some v → (key, v) ∈ l.
Proof.
  induction l as [|[k x] l IH]; simpl; [done|]. case_decide; intros E.
  - simplify_eq. apply list_elem_of_here.
  - apply list_elem_of_further. auto.
Qed.

Lemma module_known m cases : moduleTestcases m = Some cases → m ∈ moduleOrder.
Proof.
  intros Hm%assoc_in. apply mem_spec. exact (forallb_elem _ _ (m, cases) modules_in_order Hm).
Qed.

Lemma cases_in_all m n : n ∈ cases_of m → n ∈ all_cases.
Proof.
  unfold cases_of. destruct (moduleTestcases m) as [cases|] eqn:E; simpl; [|by rewrite elem_of_nil].
  intros Hn. unfold all_cases. apply list_elem_of_bind. exists m. split; [|by eapply module_known].
  unfold cases_of. by rewrite E.
Qed.

Lemma filter_In {A} (f : A → bool) l x : x ∈ List.filter f l ↔ x ∈ l ∧ f x = true.
Proof. by rewrite !list_elem_of_In, filter_In. Qed.

Lemma in_plan_order_filter sel : in_plan_order sel = List.filter sel all_cases.
Proof.
  unfold in_plan_order, all_cases. induction moduleOrder as [|m l IH]; [done|].
  rewrite !bind_cons, IH. generalize (cases_of m); intros c.
  induction c as [|x c IHc]; [done|]. cbn [List.filter app]. destruct (sel x); cbn [app]; by rewrite IHc.
Qed.

Lemma in_plan_order_elem sel n : n ∈ in_plan_order sel ↔ n ∈ all_cases ∧ sel n = true.
Proof. by rewrite in_plan_order_filter, filter_In. Qed.

(** *** The two loops over the named test cases *)

Definition fits (module name : string) : Prop :=
  testcaseModule name ≠ ""%string ∧ (module = ""%string ∨ module = testcaseModule name).

Lemma loops_agree module raws : ∀ acc, (∀ n, n ∈ acc → fits module n) →
  select_testcases module raws acc = normalize_testcases module raws acc ∧
  (∀ l, select_testcases module raws acc = Ok l → (∀ n, n ∈ l → fits module n) ∧
     (∀ n, n ∈ acc → n ∈ l) ∧ (∀ raw, raw ∈ raws → norm raw ≠ ""%string → norm raw ∈ l)).
Proof.
  induction raws as [|raw raws IH]; intros acc Hacc; simpl.
  { split; [done|]. intros l [= <-]. split; [done|]. split; [done|]. by intros r Hr%elem_of_nil. }
  case_decide as He.
  { destruct (IH acc Hacc) as [E Hl]. split; [done|]. intros l Hs.
    destruct (Hl l Hs) as (H1 & H2 & H3). split; [done|]. split; [done|].
    intros r [->|Hr]%elem_of_cons; [done|auto]. }
  assert (Hstop : testcaseModule (norm raw) = ""%string ∨
    bool_decide (module ≠ "")%string && bool_decide (module ≠ testcaseModule (norm raw)) = true →
    mem (norm raw) acc = false).
  { intros Hbad. apply mem_false. intros [Hf1 Hf2]%Hacc. destruct Hbad as [?|Hbad]; [done|].
    breflect. naive_solver. }
  destruct (decide (testcaseModule (norm raw) = ""%string)) as [Hk|Hk].
  { rewrite Hstop by auto. by split. }
  destruct (bool_decide _ && bool_decide _) eqn:Hm.
  { rewrite Hstop by auto. by split. }
  assert (Hfit : fits module (norm raw)).
  { split; [done|]. apply andb_false_iff in Hm as [Hm|Hm]; apply bool_decide_eq_false in Hm;
      [left|right]; by apply dec_stable. }
  destruct (mem (norm raw) acc) eqn:Hin.
  - apply mem_spec in Hin. destruct (IH acc Hacc) as [E Hl]. split; [done|]. intros l Hs.
    destruct (Hl l Hs) as (H1 & H2 & H3). split; [done|]. split; [done|].
    intros r [->|Hr]%elem_of_cons; auto.
  - destruct (IH (acc ++ [norm raw])) as [E Hl].
    { intros n [Hn|Hn%list_elem_of_singleton]%elem_of_app; [auto|by subst]. }
    split; [done|]. intros l Hs. destruct (Hl l Hs) as (H1 & H2 & H3). split; [done|].
    split; [intros n Hn; apply H2; set_solver|].
    intros r [->|Hr]%elem_of_cons; [intros _; apply H2; set_solver|auto].
Qed.

(** *** Exclusion *)

Lemma exclusionSet_ok req module l excluded :
  exclusionSet req module l = Ok excluded →
  ExpandExclusions (Exclude req) = Ok excluded ∧ (∀ n, n ∈ l → n ∉ excluded) ∧
  (module ≠ ""%string → l = [] → ∃ n, n ∈ cases_of module ∧ (n ∉ excluded)).
Proof.
  unfold exclusionSet. destruct (ExpandExclusions (Exclude req)) as [ex|]; simpl; [|done].
  destruct (list_find (λ name, mem name ex = true) l) as [[i n]|] eqn:Ef; [done|].
  destruct (_ && forallb _ _) eqn:Ea; [done|]. intros [= ->]. split; [done|]. split.
  - intros n Hn Hx. apply list_find_None in Ef. rewrite Forall_forall in Ef.
    apply (Ef n Hn). by apply mem_spec.
  - intros Hm ->. rewrite bool_decide_true, bool_decide_true in Ea by done. simpl in Ea.
    apply forallb_false in Ea as (n & Hn & Hx).
    exists n. split; [done|]. by apply mem_false.
Qed.

Lemma exclusionSet_same_elems req module l1 l2 :
  l1 ≠ [] → l2 ≠ [] → (∀ n, n ∈ l1 ↔ n ∈ l2) →
  match exclusionSet req module l1, exclusionSet req module l2 with
  | Ok e1, Ok e2 => e1 = e2 | Err _, Err _ => True | _, _ => False end.
Proof.
  intros N1 N2 He. unfold exclusionSet. destruct (ExpandExclusions (Exclude req)) as [ex|]; simpl; [|done].
  assert (Hb : ∀ l : list string, l ≠ [] → bool_decide (module ≠ "")%string && bool_decide (l = []) &&
     forallb (λ tc, mem tc ex) (cases_of module) = false).
  { intros l Hl. rewrite (bool_decide_false (l = [])) by done. by rewrite andb_false_r. }
  rewrite (Hb l1), (Hb l2) by done.
  destruct (list_find _ l1) as [[i n]|] eqn:E1, (list_find _ l2) as [[j m]|] eqn:E2; auto.
  - apply list_find_Some in E1 as (H1 & Hn & _). apply list_find_None in E2.
    rewrite Forall_forall in E2. apply (E2 n); [|done]. apply He. by eapply list_elem_of_lookup_2.
  - apply list_find_Some in E2 as (H1 & Hn & _). apply list_find_None in E1.
    rewrite Forall_forall in E1. apply (E1 m); [|done]. apply He. by eapply list_elem_of_lookup_2.
Qed.

Lemma ShouldRunTest_spec items n :
  n ∈ all_cases → ShouldRunTest items n = true ↔ Some n ∈ items.
Proof.
  intros Hn. pose proof (known_nonempty n Hn) as Hne. unfold ShouldRunTest.
  rewrite bool_decide_false by done. simpl. rewrite existsb_exists. split.
  - intros (x & Hx & Hd). apply bool_decide_eq_true in Hd as ->. by apply list_elem_of_In.
  - intros Hx. exists (Some n). rewrite bool_decide_true by done. by rewrite <- list_elem_of_In.
Qed.

(** ** The plan and the run *)

(** What both sides do with the exclusions once they have the selection: [planned] names
    the selected cases, [items] is what the run puts in the profile. *)
Definition same_outcome (p : result (list string) plan_error)
  (r : result (list (option string)) plan_error) : Prop :=
  match p, r with
  | Ok planned, Ok items =>
      planned `sublist_of` all_cases ∧
      ∀ tc, tc ∈ all_cases → (tc ∈ planned ↔ ShouldRunTest items tc = true)
  | Err _, Err _ => True
  | _, _ => False
  end.

(** The exclusion step of the plan. *)
Definition exclude_plan (planned excluded : list string) : result (list string) plan_error :=
  match excluded with
  | [] => Ok planned
  | _ => match List.filter (λ name, negb (mem name excluded)) planned with
         | [] => Err AllExcluded
         | planned => Ok planned
         end
  end.

Lemma filter_sublist {A} (f : A → bool) l : List.filter f l `sublist_of` l.
Proof.
  induction l as [|x l IH]; simpl; [constructor|]. destruct (f x); by constructor.
Qed.

Lemma cases_sublist m : m ∈ moduleOrder → cases_of m `sublist_of` all_cases.
Proof.
  intros (l1 & l2 & E)%list_elem_of_split. unfold all_cases. rewrite E, bind_app, bind_cons.
  apply sublist_inserts_l, sublist_inserts_r. done.
Qed.

(** If [items] names, in normal form, exactly the planned cases (and perhaps names that
    are no test cases), then excluding from both sides keeps them in step. *)
Lemma exclusion_in_step planned items excluded :
  planned `sublist_of` all_cases → (∀ n, n ∈ planned → n ∈ all_cases) →
  (∀ item, item ∈ items → ∃ n, item = Some n ∧ norm n = n) →
  (∀ n, n ∈ all_cases → n ∈ planned ↔ Some n ∈ items) →
  same_outcome (exclude_plan planned excluded) (excludeFromProfile items excluded).
Proof.
  intros Hsh Hkn Hnorm Hsame. unfold exclude_plan, excludeFromProfile.
  destruct excluded as [|e ex]; [split; [done|]; intros tc Htc; by rewrite ShouldRunTest_spec, Hsame|].
  set (excluded := e :: ex). clearbody excluded.
  set (kept := List.filter (λ item, negb (mem (item_name item) excluded)) items).
  set (left := List.filter (λ name, negb (mem name excluded)) planned).
  assert (Hk : ∀ n, n ∈ all_cases → n ∈ left ↔ Some n ∈ kept).
  { intros n Hn. unfold left, kept. rewrite !filter_In, Hsame by done.
    unfold item_name. simpl. by rewrite (proj1 (norm_known n Hn)). }
  assert (Hex : existsb (λ item, negb (bool_decide (testcaseModule (item_name item) = ""%string))) kept
                = negb (bool_decide (left = []))).
  { apply eq_true_iff_eq. rewrite existsb_exists, negb_true_iff, bool_decide_eq_false. split.
    - intros (item & Hin & Hm) Hl. apply list_elem_of_In in Hin.
      pose proof Hin as Hin2. unfold kept in Hin. apply filter_In in Hin as [Hin _].
      destruct (Hnorm _ Hin) as (n & -> & Hn). unfold item_name in Hm. simpl in Hm. rewrite Hn in Hm.
      apply negb_true_iff, bool_decide_eq_false in Hm. apply known_iff in Hm.
      apply Hk in Hin2; [|done]. rewrite Hl in Hin2. by apply elem_of_nil in Hin2.
    - intros Hl. destruct left as [|n l] eqn:El; [done|].
      assert (Hn : n ∈ all_cases).
      { apply Hkn. assert (n ∈ left) as Hn by (rewrite El; apply list_elem_of_here).
        unfold left in Hn. by apply filter_In in Hn as [? _]. }
      exists (Some n). split; [apply list_elem_of_In, Hk; [done|apply list_elem_of_here]|].
      unfold item_name. simpl. rewrite (proj1 (norm_known n Hn)).
      rewrite bool_decide_false; [done|]. by apply known_iff. }
  rewrite Hex. destruct left as [|n l] eqn:El; simpl; [done|]. split.
  - rewrite <- El. etransitivity; [apply filter_sublist|done].
  - intros tc Htc. by rewrite ShouldRunTest_spec, <- Hk.
Qed.

(** *** Requests the plan is meant for *)

Record plannable (req : RunRequest) : Prop := {
  plannable_level : to_upper (trim_space (MinLevel req)) = ""%string ∨
                    to_upper (trim_space (MinLevel req)) ∈ levels;
  plannable_names : Testcases req = [] ∨ ∃ raw, raw ∈ Testcases req ∧ norm raw ≠ ""%string;
  plannable_profile : ∃ items, profile_cases req = Ok items ∧
                      ∀ item, item ∈ items → ∃ n, item = Some n ∧ norm n = n
}.

Lemma level_check req :
  plannable req →
  bool_decide (to_upper (trim_space (MinLevel req)) ≠ "")%string &&
  negb (mem (to_upper (trim_space (MinLevel req))) levels) = false.
Proof.
  intros [[E|E] _ _].
  - rewrite E. reflexivity.
  - rewrite (proj2 (mem_spec _ _) E). apply andb_false_r.
Qed.

(** The requests that name test cases. *)
Lemma named_in_step req module l items :
  (∀ n, n ∈ l → fits module n) → l ≠ [] →
  let q := in_plan_order (λ name, mem name l) in
  let planned := match q with [] => l | _ => q end in
  same_outcome (let? excluded := exclusionSet req module planned in exclude_plan planned excluded)
    (let? excluded := exclusionSet req module l in
     excludeFromProfile (match l with [] => items | _ => Some <$> l end) excluded).
Proof.
  intros Hfit Hne. cbv zeta.
  assert (Hkn : ∀ n, n ∈ l → n ∈ all_cases) by (intros n Hn; apply known_iff, (Hfit n Hn)).
  set (p := in_plan_order (λ name, mem name l)).
  assert (Hp : ∀ n, n ∈ p ↔ n ∈ l).
  { intros n. unfold p. rewrite in_plan_order_elem, mem_spec. naive_solver. }
  assert (Hpn : p ≠ []).
  { destruct l as [|x l']; [done|]. intros E. specialize (Hp x). rewrite E, elem_of_nil in Hp.
    apply Hp. apply list_elem_of_here. }
  assert (Hsub : p `sublist_of` all_cases)
    by (unfold p; rewrite in_plan_order_filter; apply filter_sublist).
  clearbody p.
  assert (match p with [] => l | _ => p end = p) as -> by (by destruct p).
  assert (match l with [] => items | _ => Some <$> l end = Some <$> l) as -> by (by destruct l).
  pose proof (exclusionSet_same_elems req module p l Hpn Hne Hp) as He.
  destruct (exclusionSet req module p) as [e1|] eqn:E1, (exclusionSet req module l) as [e2|];
    try done. simpl. subst e2.
  apply exclusion_in_step; [done|..].
  - intros n Hn%Hp. auto.
  - intros item (n & -> & Hn)%list_elem_of_fmap. exists n. split; [done|]. by apply norm_known, Hkn.
  - intros n Hn. rewrite Hp, list_elem_of_fmap. naive_solver.
Qed.

(** C1: The plan agrees with the profile of the run: for a well-formed request, whose profile
    names its test cases in the normal form, [PlannedTestcases] fails exactly when the selection
    or the exclusions of the run would be refused; otherwise the plan lists, in module order
    and once each, exactly the test cases that [ShouldRunTest] lets pass, exclusions included.
    A test case that passes can still be skipped by its module ([CanContinue], or a condition
    of the module), and a run can fail in the settings of its profile; both are not part of
    this. *)
Theorem plan_matches_run req : plannable req → same_outcome (PlannedTestcases req) (run_profile req).
Proof.
  intros P. pose proof (level_check req P) as Hlev.
  destruct P as [_ Hnames (items & Hprof & Hnorm)].
  unfold PlannedTestcases, run_profile, plannedSelection, normalizeRequest. rewrite Hlev.
  set (module := norm (Module_ req)).
  destruct (bool_decide (module ≠ "")%string && bool_decide (moduleTestcases module = None)) eqn:Hmod;
    [done|].
  destruct (loops_agree module (Testcases req) []) as [E Hsel]; [by intros n ?%elem_of_nil|].
  rewrite <- E. unfold buildProfile. destruct (Testcases req) as [|r0 raws] eqn:Et.
  - simpl. rewrite Hprof. destruct (decide (module = ""%string)) as [Hm|Hm].
    + rewrite Hm. rewrite bool_decide_false by (by intros []). simpl rbind at 2.
      change (snd ("", [])) with (@nil string).
      destruct (exclusionSet req "" []) as [ex|] eqn:Ex; [|done]. simpl.
      apply exclusion_in_step; [rewrite in_plan_order_filter; apply filter_sublist| |done|].
      * intros n Hn. by apply in_plan_order_elem in Hn as [? _].
      * intros n Hn. rewrite in_plan_order_elem, mem_spec. unfold enabled_names.
        rewrite filter_In, negb_true_iff, bool_decide_eq_false, list_elem_of_omap.
        split; [|intros Hin; split; [done|]; split; [|by apply known_nonempty]].
        -- intros (_ & (item & Hin & Ei) & _). destruct (Hnorm _ Hin) as (m & -> & Em).
           simpl in Ei. rewrite Em in Ei. by simplify_eq.
        -- exists (Some n). split; [done|]. simpl. by rewrite (proj1 (norm_known n Hn)).
    + rewrite bool_decide_true by done. rewrite bool_decide_true in Hmod by done. simpl in Hmod.
      apply bool_decide_eq_false in Hmod.
      destruct (moduleTestcases module) as [cases|] eqn:Ec; [|done]. simpl.
      assert (Hc : cases_of module = cases) by (unfold cases_of; by rewrite Ec). rewrite Hc.
      destruct (exclusionSet req module []) as [ex|] eqn:Ex; [|done]. simpl.
      apply exclusion_in_step; rewrite <- Hc.
      * apply cases_sublist. by eapply module_known.
      * apply cases_in_all.
      * intros item (n & -> & Hn)%list_elem_of_fmap. exists n. split; [done|].
        by apply norm_known, (cases_in_all module).
      * intros n Hn. rewrite list_elem_of_fmap. naive_solver.
  - destruct (select_testcases module (r0 :: raws) []) as [l|] eqn:Es; [|done].
    destruct (Hsel l eq_refl) as (Hfit & _ & Hin). simpl. rewrite Hprof.
    assert (Hne : l ≠ []).
    { destruct Hnames as [?|(raw & Hr & Hn)]; [done|]. specialize (Hin raw Hr Hn).
      intros ->. by apply elem_of_nil in Hin. }
    apply (named_in_step req module l _ Hfit Hne).
Qed.
End facts.

Definition request (module : string) (testcases exclude : list string)
  (items : list (option string)) : RunRequest :=
  {| Module_ := module; Testcases := testcases; Exclude := exclude; MinLevel := "info";
     profile_cases := Ok items |}.

Definition sample : RunRequest :=
  request "" [" Zone01"; "basic02"; "zone01"]%string ["syntax,basic01"]%string [Some "zone02"%string].

Lemma plan_matches_run_witness :
  same_outcome (PlannedTestcases sample) (run_profile sample) ∧
  PlannedTestcases sample = Ok ["basic02"; "zone01"]%string.
Proof.
  split; [|vm_compute; reflexivity]. apply plan_matches_run. split.
  - right. apply (bool_decide_unpack _). vm_compute. exact I.
  - right. exists "basic02"%string. split; [apply (bool_decide_unpack _); vm_compute; exact I|].
    vm_compute. discriminate.
  - exists [Some "zone02"%string]. split; [reflexivity|].
    intros item ->%list_elem_of_singleton. exists "zone02"%string. split; [reflexivity|].
    vm_compute. reflexivity.
Defined.

(** Outside those requests the plan and the run part.  A profile that spells a test
    case with a capital has it planned but not run, because [ShouldRunTest] compares
    names as they are; a request whose only named test case is blank has nothing planned
    while the run takes every test case of the profile. *)
Theorem plan_diverges :
  (∃ req items, PlannedTestcases req = Ok ["basic01"%string] ∧ run_profile req = Ok items ∧
     ShouldRunTest items "basic01" = false) ∧
  (∃ req items, PlannedTestcases req = Ok [] ∧ run_profile req = Ok items ∧
     ShouldRunTest items "basic01" = true).
Proof.
  split.
  - exists (request "" [] [] [Some "Basic01"%string]), [Some "Basic01"%string].
    split; [vm_compute; reflexivity|]. split; vm_compute; reflexivity.
  - exists (request "" [" "%string] [] [Some "basic01"%string]), [Some "basic01"%string].
    split; [vm_compute; reflexivity|]. split; vm_compute; reflexivity.
Qed.
