(* ===== verification/Runner.v ===== *)
(** * Running tasks: [engine/internal/parallel/parallel.go] and
    [engine/test/internal/runner/runner.go]

    [RunOrdered] hands tasks to a pool of goroutines over an unbuffered channel.  Its
    goroutines are modelled as a transition system whose steps are the actions other
    goroutines can observe: the dispatcher's look at the context, the hand-over of an
    index, the end of a task (its result written), the worker's look at that result, the
    worker's end, and a cancellation coming from the caller.  A list of events is an
    interleaving; [step] is executable.

    A task is a function of whether it saw its context canceled: that is all it can learn
    from the other tasks.  It returns a value with an error, or panics. *)

From S2P Require Import Prelude.

Module Parallel.

(** [Result[T]]; [V] is the type of values and [E] that of errors. *)
Record Result (V E : Type) := { Value : V; Err : option E }.
Arguments Value {V E} _.
Arguments Err {V E} _.
#[global] Arguments Build_Result {V E} _ _.

Inductive task_end (V E P : Type) :=
| Returned (r : Result V E)
| Panicked (p : P).
Arguments Returned {V E P} r.
Arguments Panicked {V E P} p.

Abbreviation Task V E P := (bool → task_end V E P) (only parsing).

Record Options := { Limit : Z; CancelOnError : bool }.

(** A worker waits on the channel, runs a task, has written its result, or is gone. *)
Inductive worker := Idle | Running (idx : nat) | Wrote (idx : nat) | Exited.

#[export] Instance worker_eq_dec : EqDecision worker.
Proof. solve_decision. Defined.

(** The dispatcher is before the test of loop index [i], blocked sending [i], or has
    closed the channel. *)
Inductive dispatcher := Testing (i : nat) | Sending (i : nat) | Closed.

#[export] Instance dispatcher_eq_dec : EqDecision dispatcher.
Proof. solve_decision. Defined.

Inductive event (E : Type) :=
| Dispatch                          (* the dispatcher's loop test *)
| Send (w : nat)                    (* worker [w] receives the index *)
| Finish (w : nat) (seen : bool)    (* its task ends, having seen the cancellation or not *)
| Look (w : nat)                    (* it looks at the result and may cancel *)
| Exit (w : nat)                    (* it finds the channel closed *)
| CallerCancel (e : E).             (* the caller's context ends *)
Arguments Dispatch {E}.
Arguments Send {E} w.
Arguments Finish {E} w seen.
Arguments Look {E} w.
Arguments Exit {E} w.
Arguments CallerCancel {E} e.

Section parallel.
Context {V E P : Type}.
(** [context.Canceled], and the zero value of the result type. *)
Context (canceled : E) (zero : V).
Context (tasks : list (Task V E P)) (coe : bool).

Record state := {
  disp : dispatcher;
  workers : list worker;
  results : list (Result V E);
  ctx_err : option E;
  caught : option P
}.

Definition zero_result : Result V E := {| Value := zero; Err := None |}.

Definition start (limit : nat) : state :=
  {| disp := Testing 0; workers := replicate limit Idle;
     results := replicate (length tasks) zero_result; ctx_err := None; caught := None |}.

Definition set_worker (s : state) (w : nat) (x : worker) : state :=
  {| disp := disp s; workers := <[w := x]> (workers s); results := results s;
     ctx_err := ctx_err s; caught := caught s |}.

(** [cancel()]: the first cancellation of a context stays. *)
Definition cancel (s : state) : state :=
  {| disp := disp s; workers := workers s; results := results s;
     ctx_err := Some (default canceled (ctx_err s)); caught := caught s |}.

Definition set_disp (s : state) (d : dispatcher) : state :=
  {| disp := d; workers := workers s; results := results s;
     ctx_err := ctx_err s; caught := caught s |}.

(** Mark the tasks from [i] on with the context error. *)
Definition mark (i : nat) (e : E) (rs : list (Result V E)) : list (Result V E) :=
  take i rs ++ ((λ r, {| Value := Value r; Err := Some e |}) <$> drop i rs).

(** The dispatcher's loop test at index [i]. *)
Definition dispatch (s : state) (i : nat) : state :=
  if decide (i < length tasks) then
    match ctx_err s with
    | Some e => {| disp := Closed; workers := workers s; results := mark i e (results s);
                   ctx_err := ctx_err s; caught := caught s |}
    | None => set_disp s (Sending i)
    end
  else set_disp s Closed.

(** The end of task [idx]: its result is written, or its panic kept if it is the first. *)
Definition finish_task (s : state) (idx : nat) (r : task_end V E P) : state :=
  match r with
  | Returned r => {| disp := disp s; workers := workers s; results := <[idx := r]> (results s);
                     ctx_err := ctx_err s; caught := caught s |}
  | Panicked p => {| disp := disp s; workers := workers s; results := results s;
                     ctx_err := ctx_err s; caught := Some (default p (caught s)) |}
  end.

(** [caught.Caught() || (results[idx].Err != nil && opts.CancelOnError)] *)
Definition must_cancel (s : state) (idx : nat) : bool :=
  bool_decide (is_Some (caught s)) ||
  match results s !! idx with
  | Some r => bool_decide (is_Some (Err r)) && coe
  | None => false
  end.

Definition step (ev : event E) (s : state) : option state :=
  match ev with
  | Dispatch => match disp s with Testing i => Some (dispatch s i) | _ => None end
  | Send w =>
      match disp s, workers s !! w with
      | Sending i, Some Idle => Some (set_worker (set_disp s (Testing (S i))) w (Running i))
      | _, _ => None
      end
  | Finish w seen =>
      match workers s !! w with
      | Some (Running idx) =>
          if seen && bool_decide (ctx_err s = None) then None
          else match tasks !! idx with
               | Some task => Some (finish_task (set_worker s w (Wrote idx)) idx (task seen))
               | None => None
               end
      | _ => None
      end
  | Look w =>
      match workers s !! w with
      | Some (Wrote idx) =>
          Some (set_worker (if must_cancel s idx then cancel s else s) w Idle)
      | _ => None
      end
  | Exit w =>
      match disp s, workers s !! w with
      | Closed, Some Idle => Some (set_worker s w Exited)
      | _, _ => None
      end
  | CallerCancel e =>
      match ctx_err s with
      | None => Some {| disp := disp s; workers := workers s; results := results s;
                        ctx_err := Some e; caught := caught s |}
      | Some _ => None
      end
  end.

(** An interleaving, from the start. *)
Definition runs (evs : list (event E)) (s : state) : option state :=
  foldM (λ s ev, step ev s) s evs.

(** [wg.Wait()] returns and [caught.Rethrow()] has nothing to raise, or raises. *)
Definition final (s : state) : bool :=
  bool_decide (disp s = Closed) && forallb (λ w, bool_decide (w = Exited)) (workers s).

Definition outcome (s : state) : list (Result V E) + P :=
  match caught s with Some p => inr p | None => inl (results s) end.

(** [runSequential]: [err_at i] is what [ctx.Err()] gives before task [i], and [seen i]
    whether task [i] saw the caller's cancellation. *)
Fixpoint run_from (err_at : nat → option E) (seen : nat → bool) (i : nat)
  (ts : list (Task V E P)) : list (Result V E) + P :=
  match ts with
  | [] => inl []
  | task :: ts =>
      let rest := run_from err_at seen (S i) ts in
      let and_rest r := match rest with inl rs => inl (r :: rs) | inr p => inr p end in
      match err_at i with
      | Some e => and_rest {| Value := zero; Err := Some e |}
      | None =>
          match task (seen i) with
          | Panicked p => inr p
          | Returned r =>
              if bool_decide (is_Some (Err r)) && coe
              then inl (r :: ((λ _, {| Value := zero;
                                       Err := Some (default canceled (err_at (S i))) |}) <$> ts))
              else and_rest r
          end
      end
  end.

Definition runSequential (err_at : nat → option E) (seen : nat → bool) : list (Result V E) + P :=
  run_from err_at seen 0 tasks.

(** What the scheduler and the caller decide in a call of [RunOrdered]. *)
Record schedule := { err_at : nat → option E; seen_by : nat → bool; events : list (event E) }.

(** [RunOrdered], under a schedule; [None] when the schedule is not one of a whole call. *)
Definition RunOrdered (limit : Z) (sch : schedule) : option (list (Result V E) + P) :=
  match tasks with
  | [] => Some (inl [])
  | _ :: _ =>
      if (limit <=? 1)%Z then Some (runSequential (err_at sch) (seen_by sch))
      else
        let limit := if (limit >? Z.of_nat (length tasks))%Z then length tasks else Z.to_nat limit in
        match runs (events sch) (start limit) with
        | Some s => if final s then Some (outcome s) else None
        | None => None
        end
  end.

(** The caller's context does not end during the call. *)
Definition is_caller (ev : event E) : bool := match ev with CallerCancel _ => true | _ => false end.
Definition undisturbed (sch : schedule) : Prop :=
  (∀ i, err_at sch i = None) ∧ (∀ i, seen_by sch i = false) ∧ existsb is_caller (events sch) = false.
End parallel.
End Parallel.

(** ** [runner.Run] *)

Module Runner.
Import Parallel.

(** A log entry is any type: [Run] only moves them. *)
Section runner.
Context {Entry E P : Type} (canceled : E).

(** The loop over the results. *)
Fixpoint merge (coe : bool) (rs : list (Result (list Entry) E)) (out : list Entry)
  (firstErr : option E) : list Entry * option E :=
  match rs with
  | [] => (out, firstErr)
  | res :: rs =>
      let firstErr := match firstErr with None => Err res | Some e => Some e end in
      let out := out ++ Value res in
      if bool_decide (is_Some firstErr) && coe then (out, firstErr)
      else merge coe rs out firstErr
  end.

(** [Run]: a task's value is what its private logger holds when it ends. *)
Definition Run (tasks : list (Task (list Entry) E P)) (coe : bool) (parallel : Z)
  (sch : schedule (E := E)) : option ((list Entry * option E) + P) :=
  match tasks with
  | [] => Some (inl ([], None))
  | _ :: _ =>
      match RunOrdered canceled [] tasks coe (Z.max parallel 1) sch with
      | Some (inl rs) => Some (inl (merge coe rs [] None))
      | Some (inr p) => Some (inr p)
      | None => None
      end
  end.
End runner.
End Runner.

(** ** The pool *)

Module ParallelFacts.
Import Parallel.
Section facts.
Context {V E P : Type} (canceled : E) (zero : V) (tasks : list (Task V E P)) (coe : bool).

Abbreviation state := (state (V := V) (E := E) (P := P)).
Implicit Types s : state.
Abbreviation zero_result := (zero_result zero).
Abbreviation step := (step canceled tasks coe).
Abbreviation runs := (runs canceled tasks coe).
Abbreviation start := (start zero tasks).

(** How many tasks were handed out. *)
Definition dispatched (d : dispatcher) (k : nat) (s : state) : Prop :=
  match d with
  | Testing i => i = k
  | Sending i => i = k ∧ k < length tasks
  | Closed => k = length tasks ∨ is_Some (ctx_err s)
  end.

Definition holds (s : state) (w idx : nat) : Prop :=
  workers s !! w = Some (Running idx) ∨ workers s !! w = Some (Wrote idx).

(** One run of task [idx] accounts for its slot. *)
Definition accounted (s : state) (idx : nat) : Prop :=
  ∃ task seen, tasks !! idx = Some task ∧ (seen = true → is_Some (ctx_err s)) ∧
    match task seen with
    | Returned r => results s !! idx = Some r
    | Panicked _ => results s !! idx = Some zero_result ∧ is_Some (caught s)
    end.

(** Why the pool cancels its own context. *)
Definition culprit (k idx : nat) : Prop :=
  idx < k ∧ ∃ task seen, tasks !! idx = Some task ∧
    match task seen with Returned r => coe = true ∧ is_Some (Err r) | Panicked _ => True end.

Record inv (d : bool) (k : nat) (s : state) : Prop := {
  inv_len : length (results s) = length tasks;
  inv_bound : k ≤ length tasks;
  inv_disp : dispatched (disp s) k s;
  inv_once : ∀ w w' idx, holds s w idx → holds s w' idx → w = w';
  inv_holds : ∀ w idx, holds s w idx → idx < k;
  inv_running : ∀ w idx, workers s !! w = Some (Running idx) → results s !! idx = Some zero_result;
  inv_done : ∀ idx, idx < k → (∃ w, workers s !! w = Some (Running idx)) ∨ accounted s idx;
  inv_rest : ∀ idx, k ≤ idx < length tasks →
    results s !! idx =
      Some {| Value := zero; Err := if decide (disp s = Closed) then ctx_err s else None |};
  inv_caught : ∀ p, caught s = Some p → ∃ idx task seen, idx < k ∧ tasks !! idx = Some task ∧
    task seen = Panicked p;
  inv_cancel : ∀ e, ctx_err s = Some e → d = true ∨ (e = canceled ∧ ∃ idx, culprit k idx);
  inv_exited : ∀ w, workers s !! w = Some Exited → disp s = Closed
}.

Lemma inv_start limit : inv false 0 (start limit).
Proof.
  split; simpl; try lia; try done.
  - by rewrite length_replicate.
  - intros w w' idx [H|H]; apply lookup_replicate in H as [? _]; congruence.
  - intros w idx [H|H]; apply lookup_replicate in H as [? _]; congruence.
  - intros w idx [? _]%lookup_replicate; congruence.
  - intros idx Hi. apply lookup_replicate. split; [done|lia].
  - intros w [? _]%lookup_replicate; congruence.
Qed.

Lemma holds_set s w x w' idx :
  holds (set_worker s w x) w' idx →
  (w' = w ∧ (x = Running idx ∨ x = Wrote idx)) ∨ (w ≠ w' ∧ holds s w' idx).
Proof.
  unfold holds. simpl. rewrite !list_lookup_insert_Some. naive_solver.
Qed.

Lemma running_set s w x w' idx :
  workers (set_worker s w x) !! w' = Some (Running idx) →
  (w' = w ∧ x = Running idx) ∨ (w ≠ w' ∧ workers s !! w' = Some (Running idx)).
Proof. simpl. rewrite list_lookup_insert_Some. naive_solver. Qed.

Lemma culprit_mono k k' idx : k ≤ k' → culprit k idx → culprit k' idx.
Proof. intros ? [? ?]. split; [lia|done]. Qed.

(** *** The steps keep the invariant *)

Lemma mark_lookup i e (rs : list (Result V E)) idx r :
  rs !! idx = Some r →
  mark i e rs !! idx = Some (if decide (idx < i) then r else {| Value := Value r; Err := Some e |}).
Proof.
  intros Hr. pose proof (lookup_lt_Some _ _ _ Hr). unfold mark. case_decide.
  - rewrite lookup_app_l by (rewrite length_take; lia). by rewrite lookup_take_lt by lia.
  - rewrite lookup_app_r, length_take by (rewrite length_take; lia).
    rewrite Nat.min_l by lia. rewrite list_lookup_fmap, lookup_drop.
    replace (i + (idx - i)) with idx by lia. by rewrite Hr.
Qed.

Lemma length_mark i e (rs : list (Result V E)) : length (mark i e rs) = length rs.
Proof. unfold mark. rewrite length_app, length_fmap, length_take, length_drop. lia. Qed.

Lemma inv_dispatch d k s : inv d k s → disp s = Testing k → inv d k (dispatch tasks s k).
Proof.
  intros I Ed. destruct I as [Hl Hb Hd Ho Hh Hr Hdn Hrest Hc Hx He]. unfold dispatch.
  assert (Hnc : disp s ≠ Closed) by congruence.
  assert (Hnx : ∀ w, workers s !! w ≠ Some Exited) by (intros w Hw; by apply He in Hw).
  destruct (decide (k < length tasks)) as [Hlt|Hge]; [destruct (ctx_err s) as [e|] eqn:Ec|];
    (split; simpl; [try done..|by intros w ?%Hnx]).
  - by rewrite length_mark.
  - right. by eexists.
  - intros w idx Hw. rewrite (mark_lookup _ _ _ _ _ (Hr w idx Hw)). rewrite decide_True; [done|].
    apply (Hh w). by left.
  - intros idx Hi. destruct (Hdn idx Hi) as [?|(task & seen & Ht & Hs & Hm)]; [by left|right].
    exists task, seen. split; [done|]. split; [done|]. simpl. destruct (task seen);
      [by rewrite (mark_lookup _ _ _ _ _ Hm), decide_True by done|].
    destruct Hm as [Hm ?]. by rewrite (mark_lookup _ _ _ _ _ Hm), decide_True by done.
  - intros idx Hi. rewrite (mark_lookup _ _ _ _ _ (Hrest idx Hi)). simpl.
    rewrite decide_False by lia. done.
  - intros idx Hi. rewrite (Hrest idx Hi). by rewrite !decide_False by done.
  - intros e ?; congruence.
  - left. lia.
  - intros idx Hi. lia.
Qed.

(** The context ends, for a reason. *)
Lemma inv_ctx d d' k s e :
  inv d k s → ctx_err s = None →
  (d' = true ∨ (e = canceled ∧ ∃ idx, culprit k idx)) →
  inv d' k {| disp := disp s; workers := workers s; results := results s;
              ctx_err := Some e; caught := caught s |}.
Proof.
  intros [Hl Hb Hd Ho Hh Hr Hdn Hrest Hc Hx He] Ec Hwhy. split; simpl; try done.
  - destruct (disp s); try done. right. by eexists.
  - intros idx Hi. destruct (Hdn idx Hi) as [?|(task & seen & Ht & Hs & Hm)]; [by left|right].
    exists task, seen. split; [done|]. split; [intros _; by eexists|done].
  - intros idx Hi. rewrite (Hrest idx Hi), Ec. destruct (decide (disp s = Closed)) as [E0|E0]; [|done].
    rewrite E0 in Hd. destruct Hd as [?|[? ?]]; [lia|congruence].
  - intros e' ?; simplify_eq. done.
Qed.

Lemma inv_cancel_call d k s idx : inv d k s → culprit k idx → inv d k (cancel canceled s).
Proof.
  intros I Hcu. unfold cancel. destruct (ctx_err s) as [e|] eqn:Ec; simpl.
  - rewrite <- Ec. by destruct s.
  - apply (inv_ctx d); eauto.
Qed.

Lemma inv_send d k s w :
  inv d k s → disp s = Sending k → workers s !! w = Some Idle →
  inv d (S k) (set_worker (set_disp s (Testing (S k))) w (Running k)).
Proof.
  intros [Hl Hb Hd Ho Hh Hr Hdn Hrest Hc Hx He] Ed Hw. rewrite Ed in Hd. simpl in Hd.
  assert (Hnh : ∀ w', ¬ holds s w' k) by (intros w' Hw'; apply Hh in Hw'; lia).
  split; simpl; try done; try lia.
  - intros w1 w2 idx [[-> H1]|[N1 H1]]%holds_set [[-> H2]|[N2 H2]]%holds_set; [done| | |by apply (Ho w1 w2 idx)].
    + destruct H1; simplify_eq. by destruct (Hnh w2).
    + destruct H2; simplify_eq. by destruct (Hnh w1).
  - intros w1 idx [[-> [H1|H1]]|[_ H1]]%holds_set; simplify_eq; [lia|]. apply Hh in H1. lia.
  - intros w1 idx [[-> H1]|[_ H1]]%running_set; simplify_eq; [|eauto].
    rewrite Hrest by lia. by rewrite Ed.
  - intros idx Hi. destruct (decide (idx = k)) as [->|].
    + left. exists w. by apply list_lookup_insert_eq, (lookup_lt_Some _ _ Idle).
    + destruct (Hdn idx) as [[w' Hw']|?]; [lia|left|by right]. exists w'.
      rewrite list_lookup_insert_ne; [done|]. intros <-. congruence.
  - intros idx Hi. rewrite Hrest by lia. by rewrite Ed.
  - intros p (idx & task & seen & Hi & ?)%Hc. exists idx, task, seen. split; [lia|done].
  - intros e [?|(? & idx & [Hi Hcu])]%Hx; [by left|right]. split; [done|]. exists idx.
    split; [lia|done].
  - intros w' [(-> & ? & ?)|[_ H1]]%list_lookup_insert_Some; [done|]. apply He in H1. congruence.
Qed.

Lemma inv_look d k s w idx :
  inv d k s → workers s !! w = Some (Wrote idx) → inv d k (set_worker s w Idle).
Proof.
  intros [Hl Hb Hd Ho Hh Hr Hdn Hrest Hc Hx He] Hw. split; simpl; try done.
  - intros w1 w2 i [[-> [|]]|[N1 H1]]%holds_set [[-> [|]]|[N2 H2]]%holds_set; try done.
    by apply (Ho w1 w2 i).
  - intros w1 i [[-> [|]]|[_ H1]]%holds_set; try done. by apply (Hh w1).
  - intros w1 i [[-> ?]|[_ H1]]%running_set; [done|eauto].
  - intros i Hi. destruct (Hdn i Hi) as [[w' Hw']|?]; [left|by right]. exists w'.
    rewrite list_lookup_insert_ne; [done|]. intros <-. congruence.
  - intros w' [(-> & ? & ?)|[_ H1]]%list_lookup_insert_Some; [done|eauto].
Qed.

Lemma inv_exit d k s w :
  inv d k s → disp s = Closed → workers s !! w = Some Idle → inv d k (set_worker s w Exited).
Proof.
  intros [Hl Hb Hd Ho Hh Hr Hdn Hrest Hc Hx He] Ed Hw. split; simpl; try done.
  - intros w1 w2 i [[-> [|]]|[N1 H1]]%holds_set [[-> [|]]|[N2 H2]]%holds_set; try done.
    by apply (Ho w1 w2 i).
  - intros w1 i [[-> [|]]|[_ H1]]%holds_set; try done. by apply (Hh w1).
  - intros w1 i [[-> ?]|[_ H1]]%running_set; [done|eauto].
  - intros i Hi. destruct (Hdn i Hi) as [[w' Hw']|?]; [left|by right]. exists w'.
    rewrite list_lookup_insert_ne; [done|]. intros <-. congruence.
Qed.

(** A worker's hold on its task is all that its ending changes. *)
Lemma wrote_holds s w idx w' i :
  holds s w idx → holds (set_worker s w (Wrote idx)) w' i → holds s w' i.
Proof.
  intros Hw [[-> [|]]|[_ H]]%holds_set; [done|by simplify_eq|done].
Qed.

Lemma finish_task_ctx s idx r : ctx_err (finish_task s idx r) = ctx_err s.
Proof. by destruct r. Qed.
Lemma finish_task_disp s idx r : disp (finish_task s idx r) = disp s.
Proof. by destruct r. Qed.
Lemma finish_task_workers s idx r : workers (finish_task s idx r) = workers s.
Proof. by destruct r. Qed.
Lemma finish_task_other s idx r i : i ≠ idx → results (finish_task s idx r) !! i = results s !! i.
Proof. intros ?. destruct r; simpl; [|done]. by rewrite list_lookup_insert_ne. Qed.
Lemma finish_task_caught s idx r :
  is_Some (caught s) → is_Some (caught (finish_task s idx r)).
Proof. by destruct r. Qed.

(** What is known of another task stays known. *)
Lemma accounted_other s w idx r i :
  i ≠ idx → accounted s i → accounted (finish_task (set_worker s w (Wrote idx)) idx r) i.
Proof.
  intros Hi (task & seen & Ht & Hs & Hm). exists task, seen.
  rewrite finish_task_ctx, finish_task_other by done. split; [done|]. split; [done|]. simpl.
  destruct (task seen); [done|]. destruct Hm as [? ?]. split; [done|]. by apply finish_task_caught.
Qed.

Lemma inv_finish d k s w idx task seen :
  inv d k s → workers s !! w = Some (Running idx) → tasks !! idx = Some task →
  (seen = true → is_Some (ctx_err s)) →
  inv d k (finish_task (set_worker s w (Wrote idx)) idx (task seen)).
Proof.
  intros [Hl Hb Hd Ho Hh Hr Hdn Hrest Hc Hx He] Hw Ht Hseen.
  assert (Hw' : holds s w idx) by (by left). pose proof (Hh _ _ Hw') as Hlt.
  assert (Hold : ∀ w' i, holds (finish_task (set_worker s w (Wrote idx)) idx (task seen)) w' i →
                 holds s w' i).
  { intros w' i Hi. apply (wrote_holds s w idx w' i Hw'). unfold holds in *.
    by rewrite finish_task_workers in Hi. }
  split; rewrite ?finish_task_disp, ?finish_task_ctx.
  - destruct (task seen); simpl; [by rewrite length_insert|done].
  - done.
  - unfold dispatched in *. by rewrite finish_task_ctx.
  - intros w1 w2 i H1 H2. apply (Ho w1 w2 i); auto.
  - intros w1 i H1. apply (Hh w1); auto.
  - intros w1 i. rewrite finish_task_workers. intros [[-> ?]|[N1 H1]]%running_set; [done|].
    rewrite finish_task_other; [by apply (Hr w1)|]. intros ->. apply N1, (Ho w w1 idx); [done|by left].
  - intros i Hi. rewrite finish_task_workers. destruct (decide (i = idx)) as [->|Hne].
    + right. exists task, seen. rewrite finish_task_ctx. split; [done|]. split; [done|].
      destruct (task seen) as [r|p]; simpl.
      * apply list_lookup_insert_eq. rewrite Hl. lia.
      * split; [by apply (Hr w)|]. by eexists.
    + destruct (Hdn i Hi) as [[w1 H1]|Ha]; [left|right; by apply accounted_other].
      exists w1. simpl. rewrite list_lookup_insert_ne; [done|]. intros <-. congruence.
  - intros i Hi. rewrite finish_task_other by lia. by apply Hrest.
  - intros p Hp. destruct (task seen) as [r|p'] eqn:Et; simpl in Hp; [by apply Hc|].
    destruct (caught s) as [p0|] eqn:Ec; simpl in Hp; simplify_eq; [by apply Hc|].
    by exists idx, task, seen.
  - done.
  - intros w1. rewrite finish_task_workers. simpl.
    intros [(-> & ? & ?)|[_ H1]]%list_lookup_insert_Some; [done|eauto].
Qed.

Lemma must_cancel_culprit d k s w idx :
  inv d k s → workers s !! w = Some (Wrote idx) → must_cancel coe s idx = true →
  ∃ i, culprit k i.
Proof.
  intros I Hw. assert (Hh : holds s w idx) by (by right).
  unfold must_cancel. intros [Hc|Hc]%orb_true_iff.
  - apply bool_decide_eq_true in Hc as [p Hp].
    destruct (inv_caught _ _ _ I p Hp) as (i & task & seen & Hi & Ht & Et).
    exists i. split; [done|]. exists task, seen. by rewrite Et.
  - exists idx. pose proof (inv_holds _ _ _ I w idx Hh) as Hi. split; [done|].
    destruct (inv_done _ _ _ I idx Hi) as [[w' Hw']|(task & seen & Ht & _ & Hm)].
    + assert (w' = w) as -> by (apply (inv_once _ _ _ I w' w idx); [by left|done]). congruence.
    + exists task, seen. split; [done|]. destruct (task seen); [|done]. rewrite Hm in Hc.
      apply andb_true_iff in Hc as [Hc ->]. by apply bool_decide_eq_true in Hc.
Qed.

Lemma pool_step d k s ev s' :
  inv d k s → step ev s = Some s' → ∃ k', inv (d || is_caller ev) k' s' ∧ k ≤ k'.
Proof.
  intros I. destruct ev as [|w|w seen|w|w|e]; simpl; rewrite ?orb_false_r.
  - destruct (disp s) eqn:Ed; try done. intros ?; simplify_eq. exists k. split; [|done].
    pose proof (inv_disp _ _ _ I) as Hd. rewrite Ed in Hd. simpl in Hd. subst. by apply inv_dispatch.
  - destruct (disp s) eqn:Ed; try done. destruct (workers s !! w) as [[]|] eqn:Ew; try done.
    intros ?; simplify_eq. pose proof (inv_disp _ _ _ I) as Hd. rewrite Ed in Hd.
    destruct Hd as [-> ?]. exists (S k). split; [by apply inv_send|lia].
  - destruct (workers s !! w) as [[|idx| |]|] eqn:Ew; try done.
    destruct (seen && bool_decide (ctx_err s = None)) eqn:Es; [done|].
    destruct (tasks !! idx) as [task|] eqn:Et; [|done]. intros ?; simplify_eq. exists k.
    split; [|done]. apply inv_finish; try done. intros ->. apply bool_decide_eq_false in Es.
    by apply not_eq_None_Some.
  - destruct (workers s !! w) as [[| |idx|]|] eqn:Ew; try done. intros ?; simplify_eq. exists k.
    split; [|done]. destruct (must_cancel coe s idx) eqn:Em; [|by eapply inv_look].
    destruct (must_cancel_culprit _ _ _ _ _ I Ew Em) as [i Hi].
    eapply inv_look; [by eapply inv_cancel_call|done].
  - destruct (disp s) eqn:Ed; try done. destruct (workers s !! w) as [[]|] eqn:Ew; try done.
    intros ?; simplify_eq. exists k. split; [by apply inv_exit|done].
  - destruct (ctx_err s) eqn:Ec; [done|]. intros ?; simplify_eq. exists k. split; [|done].
    apply (inv_ctx d); [done..|]. left. apply orb_true_r.
Qed.

Lemma inv_runs evs s s' d k :
  inv d k s → runs evs s = Some s' → ∃ k', inv (d || existsb is_caller evs) k' s'.
Proof.
  unfold Parallel.runs. revert s d k. induction evs as [|ev evs IH]; intros s d k I; simpl.
  - intros [= <-]. exists k. by rewrite orb_false_r.
  - destruct (step ev s) as [s1|] eqn:E0; [|done]. intros Hr.
    destruct (pool_step _ _ _ _ _ I E0) as (k1 & I1 & _). rewrite orb_assoc. by apply (IH s1 _ k1).
Qed.

(** *** The end of a call *)

(** Slot [idx] after the pool has ended, [k] tasks having been handed out. *)
Definition slot (k : nat) (s : state) (idx : nat) : Prop :=
  if decide (idx < k) then accounted s idx
  else ∃ e, ctx_err s = Some e ∧ results s !! idx = Some {| Value := zero; Err := Some e |}.

Lemma final_spec s :
  final s = true ↔ disp s = Closed ∧ ∀ w x, workers s !! w = Some x → x = Exited.
Proof.
  unfold final. rewrite andb_true_iff, bool_decide_eq_true, forallb_forall.
  apply and_iff_compat_l. split.
  - intros Hf w x Hx. apply (bool_decide_eq_true (x = Exited)), Hf, list_elem_of_In.
    by eapply list_elem_of_lookup_2.
  - intros Hf x Hx%list_elem_of_In%list_elem_of_lookup. apply bool_decide_eq_true.
    destruct Hx as [w Hw]. eauto.
Qed.

Lemma final_slots d k s idx : inv d k s → final s = true → idx < length tasks → slot k s idx.
Proof.
  intros I [Ed Hw]%final_spec Hi. unfold slot. case_decide as Hk.
  - destruct (inv_done _ _ _ I idx Hk) as [[w Hr]|]; [|done]. by apply Hw in Hr.
  - pose proof (inv_disp _ _ _ I) as Hd. rewrite Ed in Hd. destruct Hd as [?|[e He]]; [lia|].
    exists e. split; [done|]. rewrite (inv_rest _ _ _ I) by lia. by rewrite decide_True, He.
Qed.

(** *** Termination *)

Definition worker_weight (w : worker) : nat :=
  match w with Running _ => 3 | Wrote _ => 2 | Idle => 1 | Exited => 0 end.
Definition disp_weight (d : dispatcher) : nat :=
  match d with
  | Testing i => 4 * (length tasks - i) + 2
  | Sending i => 4 * (length tasks - i) + 1
  | Closed => 0
  end.
Definition weight (s : state) : nat :=
  disp_weight (disp s) + sum_list_with worker_weight (workers s) +
  match ctx_err s with None => 1 | Some _ => 0 end.

Lemma weight_workers (ws : list worker) w x y :
  ws !! w = Some x →
  sum_list_with worker_weight (<[w := y]> ws) + worker_weight x =
  sum_list_with worker_weight ws + worker_weight y.
Proof.
  revert w. induction ws as [|z ws IH]; intros [|w] H; simplify_eq/=; [lia|].
  specialize (IH w H). lia.
Qed.

Lemma step_weight d k s ev s' : inv d k s → step ev s = Some s' → weight s' < weight s.
Proof.
  intros I. unfold weight. destruct ev as [|w|w seen|w|w|e]; simpl.
  - destruct (disp s) eqn:Ed; try done. intros ?; simplify_eq. unfold dispatch.
    case_decide; [destruct (ctx_err s) eqn:Ec|]; simpl; rewrite ?Ec; lia.
  - destruct (disp s) eqn:Ed; try done. destruct (workers s !! w) as [[]|] eqn:Ew; try done.
    intros ?; simplify_eq. pose proof (inv_disp _ _ _ I) as Hd. rewrite Ed in Hd. destruct Hd as [-> Hlt].
    pose proof (weight_workers _ _ _ (Running k) Ew) as Hx. simpl in *. lia.
  - destruct (workers s !! w) as [[|idx| |]|] eqn:Ew; try done.
    destruct (seen && bool_decide (ctx_err s = None)); [done|].
    destruct (tasks !! idx) as [task|]; [|done]. intros ?; simplify_eq.
    pose proof (weight_workers _ _ _ (Wrote idx) Ew) as Hx.
    rewrite finish_task_disp, finish_task_workers, finish_task_ctx. simpl in *. lia.
  - destruct (workers s !! w) as [[| |idx|]|] eqn:Ew; try done. intros ?; simplify_eq.
    pose proof (weight_workers _ _ _ Idle Ew) as Hx.
    destruct (must_cancel coe s idx), (ctx_err s) eqn:Ec; simpl in *; rewrite ?Ec; simpl; lia.
  - destruct (disp s) eqn:Ed; try done. destruct (workers s !! w) as [[]|] eqn:Ew; try done.
    intros ?; simplify_eq. pose proof (weight_workers _ _ _ Exited Ew) as Hx. simpl in *.
    rewrite Ed. simpl. lia.
  - destruct (ctx_err s) eqn:Ec; [done|]. intros ?; simplify_eq. simpl. lia.
Qed.

Lemma runs_weight evs s s' d k :
  inv d k s → runs evs s = Some s' → length evs + weight s' ≤ weight s.
Proof.
  unfold Parallel.runs. revert s d k. induction evs as [|ev evs IH]; intros s d k I; simpl.
  - intros [= <-]. lia.
  - destruct (step ev s) as [s1|] eqn:E0; [|done]. intros Hr.
    pose proof (step_weight _ _ _ _ _ I E0). destruct (pool_step _ _ _ _ _ I E0) as (k1 & I1 & _).
    specialize (IH s1 _ k1 I1 Hr). lia.
Qed.

Lemma weight_start limit : weight (start limit) = 4 * length tasks + 3 + limit.
Proof.
  unfold weight. simpl.
  assert (sum_list_with worker_weight (replicate limit Idle) = limit) as -> by
    (induction limit as [|n IH]; simpl in *; lia).
  lia.
Qed.

Lemma finish_length s idx r : length (workers (finish_task s idx r)) = length (workers s).
Proof. by rewrite finish_task_workers. Qed.

Lemma step_workers ev s s' : step ev s = Some s' → length (workers s') = length (workers s).
Proof.
  destruct ev as [|w|w seen|w|w|e]; simpl; intros H; go_cases_in H;
    rewrite ?finish_length; simpl; rewrite ?length_insert; try done.
  - unfold dispatch. by go_cases.
  - by destruct (must_cancel coe s idx).
Qed.

Lemma runs_workers evs s s' : runs evs s = Some s' → length (workers s') = length (workers s).
Proof.
  intros H. eapply (foldM_inv _ (λ x, length (workers x) = length (workers s))); [|done|exact H].
  intros x ev y Hx Hs. apply step_workers in Hs. congruence.
Qed.

(** Some goroutine of the pool can always take a step. *)
Lemma pool_progress d k s :
  inv d k s → workers s ≠ [] → final s = true ∨ ∃ ev s', is_caller ev = false ∧ step ev s = Some s'.
Proof.
  intros I Hne. destruct (decide (final s = true)) as [|Hf]; [by left|right].
  assert (Hbusy : ∀ w idx, workers s !! w = Some (Running idx) ∨ workers s !! w = Some (Wrote idx) →
            ∃ ev s', is_caller ev = false ∧ step ev s = Some s').
  { intros w idx [Hw|Hw]; [exists (Finish w false)|exists (Look w)]; simpl; rewrite Hw; [|by eexists].
    assert (idx < k) by (apply (inv_holds _ _ _ I w); by left). pose proof (inv_bound _ _ _ I).
    destruct (tasks !! idx) as [t|] eqn:Ht; [by eexists|]. apply lookup_ge_None in Ht. lia. }
  assert (Hx : ∀ w x, workers s !! w = Some x → x ≠ Exited ∨ disp s = Closed).
  { intros w x Hw. destruct (decide (x = Exited)) as [->|]; [right; by eapply inv_exited|by left]. }
  destruct (disp s) as [i|i|] eqn:Ed.
  - exists Dispatch. simpl. rewrite Ed. by eexists.
  - destruct (workers s) as [|x ws] eqn:Ew; [done|]. destruct (Hx 0 x eq_refl) as [Hx0|?]; [|done].
    destruct x as [|idx|idx|]; [|by apply (Hbusy 0 idx); left|by apply (Hbusy 0 idx); right|done].
    exists (Send 0). simpl. rewrite Ed, Ew. by eexists.
  - assert (∃ w x, workers s !! w = Some x ∧ x ≠ Exited) as (w & x & Hw & Hxe).
    { destruct (forallb (λ w, bool_decide (w = Exited)) (workers s)) eqn:Ef.
      - destruct Hf. unfold final. by rewrite Ed, Ef.
      - apply forallb_false in Ef as (x & [w Hw]%list_elem_of_lookup & Hn).
        exists w, x. split; [done|]. by apply bool_decide_eq_false in Hn. }
    destruct x as [|idx|idx|]; [|by apply (Hbusy w idx); left|by apply (Hbusy w idx); right|done].
    exists (Exit w). simpl. rewrite Ed, Hw. by eexists.
Qed.

(** A pool of [limit] goroutines over [n] tasks always ends: no interleaving has more
    than [4 n + 3 + limit] steps, and as long as the pool has not ended some goroutine of
    it can move, without waiting for the caller. *)
Theorem pool_terminates limit evs s :
  0 < limit → runs evs (start limit) = Some s →
  length evs ≤ 4 * length tasks + 3 + limit ∧
  (final s = true ∨ ∃ ev s', is_caller ev = false ∧ step ev s = Some s').
Proof.
  intros Hl Hr. pose proof (inv_start limit) as I0. split.
  - pose proof (runs_weight _ _ _ _ _ I0 Hr) as H. rewrite weight_start in H. lia.
  - destruct (inv_runs _ _ _ _ _ I0 Hr) as [k I]. apply (pool_progress _ _ _ I).
    apply runs_workers in Hr. simpl in Hr. rewrite length_replicate in Hr.
    intros E0. rewrite E0 in Hr. simpl in Hr. lia.
Qed.

(** When a pool has ended, the tasks handed out are a prefix: each of them ran and its
    slot holds what that run returned, unless it panicked; the others were dropped with
    the error of a canceled context in their slots.  The call panics exactly when a task
    that ran did, and without a cancellation by the caller tasks are dropped only after a
    task failed (with [CancelOnError]) or panicked. *)
Theorem pool_results limit evs s :
  runs evs (start limit) = Some s → final s = true →
  ∃ k, k ≤ length tasks ∧
    length (results s) = length tasks ∧
    (∀ idx, idx < length tasks → slot k s idx) ∧
    (∀ rs, outcome s = inl rs → rs = results s ∧
       ∀ idx, idx < k → ∃ task seen r, tasks !! idx = Some task ∧ task seen = Returned r ∧
         rs !! idx = Some r) ∧
    (∀ p, outcome s = inr p → ∃ idx task seen, idx < k ∧ tasks !! idx = Some task ∧
       task seen = Panicked p) ∧
    (k < length tasks → existsb is_caller evs = true ∨ ∃ idx, culprit k idx).
Proof.
  intros Hr Hf. destruct (inv_runs _ _ _ _ _ (inv_start limit) Hr) as [k I]. simpl in I.
  assert (Hs : ∀ idx, idx < length tasks → slot k s idx) by (intros; by eapply final_slots).
  exists k. split; [by eapply inv_bound|]. split; [by eapply inv_len|]. split; [done|].
  unfold outcome. split; [|split].
  - intros rs Ho. destruct (caught s) eqn:Ec; [done|]. simplify_eq. split; [done|].
    intros idx Hi. pose proof (inv_bound _ _ _ I). specialize (Hs idx ltac:(lia)).
    unfold slot in Hs. rewrite decide_True in Hs by done.
    destruct Hs as (task & seen & Ht & _ & Hm). exists task, seen.
    destruct (task seen) as [r|p]; [by exists r|]. destruct Hm as [_ [? ?]]. congruence.
  - intros p Ho. destruct (caught s) eqn:Ec; simplify_eq. by eapply inv_caught.
  - intros Hk. specialize (Hs k Hk). unfold slot in Hs. rewrite decide_False in Hs by lia.
    destruct Hs as (e & He & _). apply (inv_cancel _ _ _ I) in He. tauto.
Qed.
End facts.

(** *** The same log as one task at a time *)

Section merging.
Context {Entry E P : Type} (canceled : E).
Abbreviation result := (Result (list Entry) E).
Abbreviation task := (Task (list Entry) E P).
Import Runner.

(** Two lists of results that [Run] cannot tell apart: equal up to where it stops. *)
Inductive agree (coe : bool) : list result → list result → Prop :=
| agree_nil : agree coe [] []
| agree_stop r rs rs' : coe = true → is_Some (Err r) → agree coe (r :: rs) (r :: rs')
| agree_cons r rs rs' : agree coe rs rs' → agree coe (r :: rs) (r :: rs').

Lemma merge_agree coe rs rs' :
  agree coe rs rs' → ∀ out e, merge coe rs out e = merge coe rs' out e.
Proof.
  induction 1 as [|r rs rs' -> He|r rs rs' _ IH]; intros out e; simpl; [done| |].
  - assert (is_Some (match e with Some e => Some e | None => Err r end)) as Hs by (destruct e; [by eexists|done]).
    by rewrite bool_decide_true.
  - case_match; [done|apply IH].
Qed.

Lemma agree_prefix coe k rs rs' :
  length rs = length rs' → (∀ idx, idx < k → rs !! idx = rs' !! idx) →
  (k < length rs' → coe = true ∧ ∃ idx r, idx < k ∧ rs' !! idx = Some r ∧ is_Some (Err r)) →
  agree coe rs rs'.
Proof.
  revert k rs'. induction rs as [|r rs IH]; intros k [|r' rs'] Hl Heq Hk; simplify_eq/=; [constructor|].
  destruct k as [|k]; [destruct Hk as (_ & idx & _ & ? & _); lia|].
  pose proof (Heq 0 ltac:(lia)) as ?; simplify_eq/=.
  destruct (decide (coe = true ∧ is_Some (Err r'))) as [[-> He]|Hn]; [by apply agree_stop|].
  apply agree_cons, (IH k); [done| |].
  - intros idx Hi. apply (Heq (S idx)). lia.
  - intros Hlt. destruct Hk as (Hc & [|idx] & r & Hi & Hr & He); [lia|..]; simplify_eq/=.
    + by destruct Hn.
    + split; [done|]. exists idx, r. split; [lia|done].
Qed.

(** What each task returns when its context is not canceled. *)
Definition own_result (t : task) : result :=
  match t false with Returned r => r | Panicked _ => zero_result [] end.

(** Tasks that end in peace: none panics, and where an error cancels the rest, none lets
    the cancellation show. *)
Definition calm (coe : bool) (tasks : list task) : Prop :=
  ∀ idx t, tasks !! idx = Some t →
    (∀ seen, ∃ r, t seen = Returned r) ∧ (coe = true → t true = t false).

Lemma calm_own coe tasks idx t seen :
  calm coe tasks → tasks !! idx = Some t → (coe = false → seen = false) →
  t seen = Returned (own_result t).
Proof.
  intros Hc Ht Hs. destruct (Hc idx t Ht) as [Hr Ht2]. destruct (Hr false) as [r Hf].
  unfold own_result. rewrite Hf. destruct seen, coe; try done.
  - by rewrite Ht2.
  - by specialize (Hs eq_refl).
Qed.

Lemma sequential_agrees coe err_at seen i tasks :
  (∀ j, err_at j = None) → (∀ j, seen j = false) → calm coe tasks →
  ∃ rs, run_from canceled [] coe err_at seen i tasks = inl rs ∧
        agree coe rs (own_result <$> tasks).
Proof.
  intros He Hs. revert i. induction tasks as [|t ts IH]; intros i Hc; simpl.
  - exists []. split; [done|constructor].
  - destruct (IH (S i)) as (rs & E0 & Ha); [intros idx; apply (Hc (S idx))|].
    rewrite He, Hs, (calm_own coe (t :: ts) 0 t false) by done. rewrite E0.
    destruct (bool_decide (is_Some (Err (own_result t))) && coe) eqn:Es; breflect;
      (eexists; split; [done|]); [by apply agree_stop|by apply agree_cons..].
Qed.

Lemma calm_culprit coe tasks k idx :
  calm coe tasks → culprit tasks coe k idx →
  coe = true ∧ idx < k ∧ ∃ r, (own_result <$> tasks) !! idx = Some r ∧ is_Some (Err r).
Proof.
  intros Hc (Hi & t & seen & Ht & Hm). destruct (Hc idx t Ht) as [Hr _].
  destruct (Hr seen) as [r E0]. rewrite E0 in Hm. destruct Hm as [-> Hm].
  split; [done|]. split; [done|]. exists (own_result t). rewrite list_lookup_fmap, Ht.
  split; [done|]. rewrite (calm_own true tasks idx t seen Hc Ht) in E0 by done. by simplify_eq.
Qed.

(** A pool that the caller leaves alone gives results that [Run] cannot tell from those
    of the tasks on their own. *)
Lemma pool_agrees coe tasks limit evs s :
  calm coe tasks → existsb is_caller evs = false →
  runs canceled tasks coe evs (start [] tasks limit) = Some s → final s = true →
  ∃ rs, outcome s = inl rs ∧ agree coe rs (own_result <$> tasks).
Proof.
  intros Hc Hev Hr Hf.
  destruct (inv_runs canceled [] tasks coe _ _ _ _ _ (inv_start canceled [] tasks coe limit) Hr) as [k I].
  rewrite Hev in I. simpl in I. unfold outcome. destruct (caught s) as [p|] eqn:Ec.
  - destruct (inv_caught _ _ _ _ _ _ _ I p Ec) as (idx & t & seen & _ & Ht & E0).
    destruct (Hc idx t Ht) as [Hnp _]. destruct (Hnp seen). congruence.
  - exists (results s). split; [done|].
    assert (Hcx : ∀ e, ctx_err s = Some e → ∃ idx, culprit tasks coe k idx).
    { intros e He. apply (inv_cancel _ _ _ _ _ _ _ I) in He as [?|[_ ?]]; done. }
    apply (agree_prefix coe k).
    + rewrite (inv_len _ _ _ _ _ _ _ I). by rewrite length_fmap.
    + intros idx Hi. pose proof (inv_bound _ _ _ _ _ _ _ I).
      pose proof (final_slots _ _ _ _ _ _ _ idx I Hf ltac:(lia)) as Hs. unfold slot in Hs.
      rewrite decide_True in Hs by done. destruct Hs as (t & seen & Ht & Hs & Hm).
      rewrite (calm_own coe tasks idx t seen Hc Ht) in Hm.
      * by rewrite list_lookup_fmap, Ht.
      * intros ->. destruct seen; [|done]. destruct (Hs eq_refl) as [e He].
        apply Hcx in He as [i Hcu]. by apply (calm_culprit _ _ _ _ Hc) in Hcu as [? _].
    + rewrite length_fmap. intros Hk.
      pose proof (final_slots _ _ _ _ _ _ _ k I Hf Hk) as Hs. unfold slot in Hs.
      rewrite decide_False in Hs by lia. destruct Hs as (e & He & _).
      apply Hcx in He as [i Hcu]. apply (calm_culprit _ _ _ _ Hc) in Hcu as (? & ? & r & ? & ?).
      split; [done|]. by exists i, r.
Qed.

(** C16: For calm tasks, and a caller that does not cancel, [Run] returns the log entries
    and the error of running the tasks one after the other, whatever the number of
    goroutines and however they are scheduled. *)
Theorem run_deterministic coe tasks parallel sch out :
  calm coe tasks → undisturbed sch → Run canceled tasks coe parallel sch = Some out →
  out = inl (merge coe (own_result <$> tasks) [] None).
Proof.
  intros Hc (He & Hs & Hev). unfold Run, RunOrdered. destruct tasks as [|t ts] eqn:Et; [by intros ?; simplify_eq|].
  rewrite <- Et in *. clear Et t ts. destruct (Z.max parallel 1 <=? 1)%Z.
  - destruct (sequential_agrees coe _ _ 0 tasks He Hs Hc) as (rs & E0 & Ha).
    unfold runSequential. rewrite E0. intros ?; simplify_eq. by rewrite (merge_agree _ _ _ Ha).
  - destruct (runs _ _ _ _ _) as [s|] eqn:Er; [|done]. destruct (final s) eqn:Ef; [|done].
    destruct (pool_agrees _ _ _ _ _ Hc Hev Er Ef) as (rs & E0 & Ha). rewrite E0.
    intros ?; simplify_eq. by rewrite (merge_agree _ _ _ Ha).
Qed.
End merging.

(** *** Concrete calls *)

Definition log_task (entries : list nat) (err : option string) : Task (list nat) string nat :=
  λ _, Returned {| Value := entries; Err := err |}.
(** A task that gives up when its context is canceled. *)
Definition polite_task (entries : list nat) (canceled : string) : Task (list nat) string nat :=
  λ seen, if seen then Returned {| Value := []; Err := Some canceled |}
          else Returned {| Value := entries; Err := None |}.

Definition two_workers : list (event string) :=
  [Dispatch; Send 0; Dispatch; Send 1; Dispatch; Finish 1 false; Look 1; Finish 0 false; Look 0;
   Exit 0; Exit 1].
Definition second_first : list (event string) :=
  [Dispatch; Send 0; Dispatch; Send 1; Dispatch; Finish 1 false; Look 1; Finish 0 true; Look 0;
   Exit 0; Exit 1].
Definition quiet (evs : list (event string)) : schedule (E := string) :=
  {| err_at := λ _, None; seen_by := λ _, false; events := evs |}.
Definition sample_tasks : list (Task (list nat) string nat) :=
  [log_task [1; 2] None; log_task [3] (Some "timeout"%string)].

Definition final_sample : option (state (V := list nat) (E := string) (P := nat)) :=
  runs "canceled"%string sample_tasks true two_workers (start [] sample_tasks 2).

Lemma pool_terminates_witness :
  ∃ s, final_sample = Some s ∧ length two_workers ≤ 4 * length sample_tasks + 3 + 2 ∧ final s = true.
Proof.
  destruct final_sample as [s|] eqn:E0; [|vm_compute in E0; discriminate].
  exists s. split; [reflexivity|]. split.
  - apply (pool_terminates "canceled"%string [] sample_tasks true 2 two_workers s); [lia|exact E0].
  - vm_compute in E0. injection E0 as <-. reflexivity.
Defined.

Lemma pool_results_witness :
  ∃ s k, final_sample = Some s ∧ k ≤ length sample_tasks ∧ length (results s) = length sample_tasks.
Proof.
  destruct final_sample as [s|] eqn:E0; [|vm_compute in E0; discriminate].
  exists s. destruct (pool_results "canceled"%string [] sample_tasks true 2 two_workers s) as (k & Hk & Hl & _).
  - exact E0.
  - vm_compute in E0. injection E0 as <-. reflexivity.
  - exists k. split; [reflexivity|]. split; assumption.
Defined.

Lemma run_deterministic_witness :
  Runner.Run "canceled"%string sample_tasks true 2 (quiet two_workers) = Some (inl ([1; 2; 3], Some "timeout"%string)) ∧
  inl ([1; 2; 3], Some "timeout"%string) =
    (inl (Runner.merge true (own_result <$> sample_tasks) [] None) : (list nat * option string) + nat).
Proof.
  assert (E0 : Runner.Run "canceled"%string sample_tasks true 2 (quiet two_workers) =
               Some (inl ([1; 2; 3], Some "timeout"%string))) by (vm_compute; reflexivity).
  split; [exact E0|].
  apply (run_deterministic "canceled"%string true sample_tasks 2 (quiet two_workers)).
  - intros idx t Ht. destruct idx as [|[|idx]]; simpl in Ht; try discriminate; injection Ht as <-;
      (split; [intros []; eexists; reflexivity|reflexivity]).
  - split; [reflexivity|]. split; reflexivity.
  - exact E0.
Defined.

(** A task that honours the cancellation breaks the promise that [CancelOnError]
    matches sequential behaviour: when a later task fails first, the earlier one gives up,
    and [Run] returns neither its entries nor the error, but the cancellation. *)
Theorem run_masks_error :
  ∃ (tasks : list (Task (list nat) string nat)) sch, undisturbed sch ∧
    Runner.Run "context canceled"%string tasks true 1 sch = Some (inl ([1; 2; 3], Some "timeout"%string)) ∧
    Runner.Run "context canceled"%string tasks true 2 sch = Some (inl ([], Some "context canceled"%string)).
Proof.
  exists [polite_task [1; 2] "context canceled"%string; log_task [3] (Some "timeout"%string)], (quiet second_first).
  split; [by split; [|split]|]. split; vm_compute; reflexivity.
Qed.
End ParallelFacts.
