(* ===== verification/Escape.v ===== *)
(** * Escaping of log arguments: [engine/logger/escape.go]

    Every string a log entry carries is passed through [escapeText], because it may come
    from a name server.  Go strings are byte strings; [decode_rune] is
    [utf8.DecodeRuneInString], written out from the table of well-formed UTF-8. *)

From S2P Require Import Prelude GoStrings.

Local Open Scope list_scope.

(** ** UTF-8 *)

Definition RuneError : N := 65533.

(** What a first byte announces: the size, the range of the second byte and the bits of
    the rune in the first. *)
Inductive lead := Ascii | Bad | Multi (size : nat) (lo hi : N) (bits : N).

Definition lead_of (c : N) : lead :=
  (if c <? 128 then Ascii
   else if c <? 194 then Bad
   else if c <? 224 then Multi 2 128 191 (c - 192)
   else if c =? 224 then Multi 3 160 191 0
   else if c =? 237 then Multi 3 128 159 13
   else if c <? 240 then Multi 3 128 191 (c - 224)
   else if c =? 240 then Multi 4 144 191 0
   else if c <? 244 then Multi 4 128 191 (c - 240)
   else if c =? 244 then Multi 4 128 143 4
   else Bad)%N.

Definition is_cont (c : N) : bool := ((128 <=? c) && (c <=? 191))%N.

(** The rune made of [bits] and [n] more continuation bytes. *)
Fixpoint continue_rune (n : nat) (bits : N) (s : string) : option N :=
  match n with
  | O => Some bits
  | S n =>
      match s with
      | String c s =>
          if is_cont (byte_code c) then continue_rune n (bits * 64 + (byte_code c - 128))%N s
          else None
      | EmptyString => None
      end
  end.

(** [utf8.DecodeRuneInString]: the first rune and its size; a byte that starts no
    well-formed sequence is [RuneError] of size 1. *)
Definition decode_rune (s : string) : N * nat :=
  match s with
  | EmptyString => (RuneError, 0)
  | String c rest =>
      match lead_of (byte_code c) with
      | Ascii => (byte_code c, 1)
      | Bad => (RuneError, 1)
      | Multi size lo hi bits =>
          match rest with
          | String d _ =>
              if (lo <=? byte_code d)%N && (byte_code d <=? hi)%N then
                match continue_rune (size - 1) bits rest with
                | Some r => (r, size)
                | None => (RuneError, 1)
                end
              else (RuneError, 1)
          | EmptyString => (RuneError, 1)
          end
      end
  end.

(** ** [escapeText] *)

Definition unsafeRune (r : N) (size : nat) : bool :=
  (bool_decide (r = RuneError) && bool_decide (size = 1)) || (r <? 32)%N || (r =? 127)%N ||
  ((128 <=? r) && (r <=? 159))%N.

Definition digit (n : N) : ascii := ascii_of_N (48 + n).

(** One octet as [\DDD]. *)
Definition escape_octet (c : ascii) : string :=
  let n := byte_code c in
  String "\" (String (digit (n / 100)) (String (digit (n / 10 mod 10)) (String (digit (n mod 10)) ""))).

Definition escape_octets (s : string) : string :=
  string_rec (λ _, string) EmptyString (λ c _ out, (escape_octet c +:+ out)%string) s.

(** The first loop: the index of the first unsafe rune; a string has at most as many runes
    as bytes, which bounds [fuel]. *)
Fixpoint safe_prefix (fuel : nat) (s : string) : nat :=
  match fuel, s with
  | S fuel, String _ _ =>
      let '(r, size) := decode_rune s in
      if unsafeRune r size then 0 else size + safe_prefix fuel (drop_bytes size s)
  | _, _ => 0
  end.

(** The second loop: what it appends to the builder. *)
Fixpoint escape_rest (fuel : nat) (s : string) : string :=
  match fuel, s with
  | S fuel, String _ _ =>
      let '(r, size) := decode_rune s in
      ((if unsafeRune r size then escape_octets (take_bytes size s) else take_bytes size s)
       +:+ escape_rest fuel (drop_bytes size s))%string
  | _, _ => EmptyString
  end.

Definition escapeText (s : string) : string * bool :=
  let i := safe_prefix (String.length s) s in
  if decide (i = String.length s) then (s, false)
  else ((take_bytes i s +:+ escape_rest (String.length s) (drop_bytes i s))%string, true).

(** ** Arguments *)

#[local] Set Warnings "-register-all".

(** A value of the argument map; other dynamic types are left alone. *)
Inductive value :=
| VString (s : string)
| VStrings (l : list string)
| VList (l : list value)
| VMap (m : list (string * value))
| VMaps (l : list (list (string * value)))
| VOther (text : string).

(** [escapeSlice]: the elements that change are replaced in a copy. *)
Definition escapeSlice {A} (esc : A → A * bool) : list A → list A * bool :=
  fix go l := match l with
              | [] => ([], false)
              | x :: l => let '(x', changed) := esc x in
                          let '(l', changed') := go l in
                          ((if changed then x' else x) :: l', changed || changed')
              end.

(** The loop of [escapeMap], the same over the values of a map. *)
Definition escapeMap_with (esc : value → value * bool) : list (string * value) → list (string * value) * bool :=
  escapeSlice (λ kv, match kv with (k, v) => let '(v', changed) := esc v in ((k, v'), changed) end).

Fixpoint escapeValue (v : value) : value * bool :=
  match v with
  | VString s => let '(s', changed) := escapeText s in (VString s', changed)
  | VStrings l => let '(l', changed) := escapeSlice escapeText l in (VStrings l', changed)
  | VList l => let '(l', changed) := escapeSlice escapeValue l in (VList l', changed)
  | VMap m => let '(m', changed) := escapeMap_with escapeValue m in (VMap m', changed)
  | VMaps l => let '(l', changed) := escapeSlice (escapeMap_with escapeValue) l in (VMaps l', changed)
  | VOther _ => (v, false)
  end.

Definition escapeMap : list (string * value) → list (string * value) * bool := escapeMap_with escapeValue.

(** [escapeArgs] on the arguments of an entry. *)
Definition escapeArgs (args : list (string * value)) : list (string * value) :=
  (escapeMap args).1.

Example escape_newline : (escapeText (bytes [97; 10; 98]%N)).1 = "a\010b"%string.
Proof. vm_compute. reflexivity. Qed.

(** ** Decoding *)

Lemma take_drop_bytes n s : (take_bytes n s +:+ drop_bytes n s)%string = s.
Proof. revert n. induction s as [|c s IH]; intros [|n]; simpl; [done..|]. by rewrite IH. Qed.
Lemma drop_bytes_length n s : String.length (drop_bytes n s) = String.length s - n.
Proof. revert n. induction s as [|c s IH]; intros [|n]; simpl; auto. Qed.
Lemma take_bytes_app n s t : n ≤ String.length s → take_bytes n (s +:+ t)%string = take_bytes n s.
Proof. revert n. induction s as [|c s IH]; intros [|n] H; simpl in *; try lia; [by destruct t|done|by rewrite IH by lia]. Qed.
Lemma drop_bytes_app n s t :
  n ≤ String.length s → drop_bytes n (s +:+ t)%string = (drop_bytes n s +:+ t)%string.
Proof. revert n. induction s as [|c s IH]; intros [|n] H; simpl in *; try lia; [by destruct t|done|by rewrite IH by lia]. Qed.
Lemma drop_bytes_all s : drop_bytes (String.length s) s = EmptyString.
Proof. induction s; simpl; auto. Qed.
Lemma take_bytes_all s : take_bytes (String.length s) s = s.
Proof. induction s as [|c s IH]; simpl; [done|]. by rewrite IH. Qed.
Lemma take_take_bytes n s : take_bytes n (take_bytes n s) = take_bytes n s.
Proof. revert n. induction s as [|c s IH]; intros [|n]; simpl; [done..|]. by rewrite IH. Qed.

Lemma take_take_add n m s : take_bytes n (take_bytes (n + m) s) = take_bytes n s.
Proof. revert n. induction s as [|c s IH]; intros [|n]; simpl; [done|done|by destruct m|by rewrite IH]. Qed.
Lemma drop_take_add n m s : drop_bytes n (take_bytes (n + m) s) = take_bytes m (drop_bytes n s).
Proof. revert n. induction s as [|c s IH]; intros [|n]; simpl; [done|by destruct m|done|apply IH]. Qed.

Lemma continue_length n bits s r : continue_rune n bits s = Some r → n ≤ String.length s.
Proof.
  revert bits s. induction n as [|n IH]; intros bits s; simpl; [lia|].
  destruct s as [|c s]; [done|]. destruct (is_cont (byte_code c)); [|done].
  intros H%IH. simpl. lia.
Qed.

Lemma continue_local n bits s s' r :
  continue_rune n bits s = Some r → take_bytes n s = take_bytes n s' → continue_rune n bits s' = Some r.
Proof.
  revert bits s s'. induction n as [|n IH]; intros bits s s'; simpl; [done|].
  destruct s as [|c s]; [done|]. destruct s' as [|c' s']; [done|].
  intros Hr [= <- Ht]. destruct (is_cont (byte_code c)); [|done]. by apply (IH _ s).
Qed.

Lemma lead_size c size lo hi bits : lead_of c = Multi size lo hi bits → 2 ≤ size.
Proof. unfold lead_of. intros H. go_cases_in H; lia. Qed.

(** A rune has between one byte and all of them. *)
Lemma decode_size s r size : decode_rune s = (r, size) → s ≠ EmptyString → 1 ≤ size ≤ String.length s.
Proof.
  destruct s as [|c rest]; [done|]. intros H _. cbn [decode_rune] in H. simpl.
  destruct (lead_of (byte_code c)) as [| |sz lo hi bits] eqn:El; simplify_eq; [lia..|].
  destruct rest as [|d rest]; simplify_eq; [simpl; lia|].
  destruct ((lo <=? byte_code d)%N && (byte_code d <=? hi)%N); simplify_eq; [|lia].
  destruct (continue_rune _ _ _) eqn:Ec; simplify_eq; [|lia].
  apply continue_length in Ec. apply lead_size in El. lia.
Qed.

(** A well-formed rune depends on its own bytes only. *)
Lemma decode_local s s' r size :
  decode_rune s = (r, size) → unsafeRune r size = false → s ≠ EmptyString →
  take_bytes size s = take_bytes size s' → decode_rune s' = (r, size).
Proof.
  destruct s as [|c rest]; [done|]. intros H Hu _ Ht.
  assert (Hbad : (r, size) ≠ (RuneError, 1)) by (intros [= -> ->]; discriminate Hu).
  assert (1 ≤ size) by (apply decode_size in H; [lia|done]).
  destruct size as [|size]; [lia|]. destruct s' as [|c' rest']; [done|]. simpl in Ht.
  injection Ht as <- Ht. cbn [decode_rune] in *.
  destruct (lead_of (byte_code c)) as [| |sz lo hi bits] eqn:El; try congruence.
  pose proof (lead_size _ _ _ _ _ El) as Hsz.
  destruct rest as [|d rest]; [congruence|].
  destruct ((lo <=? byte_code d)%N && (byte_code d <=? hi)%N) eqn:Ed; [|congruence].
  destruct (continue_rune (sz - 1) bits (String d rest)) as [r'|] eqn:Ec; [|congruence].
  injection H as -> ->. replace (S size - 1) with size in * by lia.
  pose proof (continue_local _ _ _ _ _ Ec Ht) as Ec'.
  destruct size as [|n]; [lia|]. destruct rest' as [|d' rest']; [done|].
  simpl in Ht. injection Ht as <- Ht. by rewrite Ed, Ec'.
Qed.

(** ** Texts without unsafe runes *)

(** Runes that may stand in a log: well-formed, and no C0 or C1 control or DEL. *)
Definition allowed (r : N) (size : nat) : Prop :=
  (r, size) ≠ (RuneError, 1) ∧ (32 ≤ r)%N ∧ r ≠ 127%N ∧ (r < 128 ∨ 160 ≤ r)%N.

Inductive safe : string → Prop :=
| safe_empty : safe EmptyString
| safe_rune s r size :
    s ≠ EmptyString → decode_rune s = (r, size) → allowed r size →
    safe (drop_bytes size s) → safe s.

Lemma unsafe_allowed r size : unsafeRune r size = false ↔ allowed r size.
Proof.
  unfold unsafeRune, allowed. rewrite !orb_false_iff, !andb_false_iff, !bool_decide_eq_false.
  rewrite N.ltb_ge, N.eqb_neq, !N.leb_gt.
  split; [intros [[[H1 H2] H3] H4]|intros (H1 & H2 & H3 & H4)].
  - split; [intros [= -> ->]; tauto|]. split; [done|]. split; [done|]. lia.
  - split; [split; [split|]|]; try done; [|lia].
    destruct (decide (r = RuneError)) as [->|]; [right|by left]. intros ->. by apply H1.
Qed.

Lemma safe_unsafe s r size :
  s ≠ EmptyString → decode_rune s = (r, size) → unsafeRune r size = false →
  safe (drop_bytes size s) → safe s.
Proof. intros Hne Hd Hu%unsafe_allowed Hs. by apply (safe_rune _ r size). Qed.

Lemma safe_app s t : safe s → safe t → safe (s +:+ t)%string.
Proof.
  intros Hs Ht. induction Hs as [|s r size Hne Hd Hu%unsafe_allowed _ IH]; [done|].
  pose proof (decode_size _ _ _ Hd Hne) as Hsz.
  apply (safe_unsafe _ r size); [by destruct s| |done|].
  - apply (decode_local s); try done. by rewrite take_bytes_app by lia.
  - by rewrite drop_bytes_app by lia.
Qed.

Lemma safe_take s r size :
  s ≠ EmptyString → decode_rune s = (r, size) → unsafeRune r size = false → safe (take_bytes size s).
Proof.
  intros Hne Hd Hu. pose proof (decode_size _ _ _ Hd Hne) as Hsz.
  pose proof (take_bytes_length size s ltac:(lia)) as Hl.
  apply (safe_unsafe _ r size); [|..|].
  - intros E. rewrite E in Hl. simpl in Hl. lia.
  - apply (decode_local s); try done. by rewrite take_take_bytes.
  - done.
  - rewrite <- Hl at 1. rewrite drop_bytes_all. constructor.
Qed.

(** Bytes that are safe on their own. *)
Definition printable (c : ascii) : bool := ((32 <=? byte_code c) && (byte_code c <? 127))%N.

Lemma safe_printable s : string_forallb printable s = true → safe s.
Proof.
  induction s as [|c s IH]; simpl; [constructor|]. intros [Hc Hs]%andb_true_iff.
  unfold printable in Hc. apply andb_true_iff in Hc as [H1%N.leb_le H2%N.ltb_lt].
  apply (safe_unsafe _ (byte_code c) 1); [done| | |by apply IH].
  - cbn [decode_rune]. unfold lead_of. rewrite (proj2 (N.ltb_lt _ 128)) by lia. done.
  - unfold unsafeRune, RuneError. rewrite bool_decide_false by lia.
    rewrite (proj2 (N.ltb_ge _ 32)), (proj2 (N.eqb_neq _ 127)), (proj2 (N.leb_gt 128 _)) by lia. done.
Qed.

Lemma escape_octet_printable c : string_forallb printable (escape_octet c) = true.
Proof. destruct c as [[] [] [] [] [] [] [] []]; reflexivity. Qed.

Lemma escape_octets_safe s : safe (escape_octets s).
Proof.
  apply safe_printable. induction s as [|c s IH]; [done|].
  change (escape_octets (String c s)) with (escape_octet c +:+ escape_octets s)%string.
  by rewrite string_forallb_app, escape_octet_printable, IH.
Qed.

Lemma escape_rest_safe fuel s : safe (escape_rest fuel s).
Proof.
  revert s. induction fuel as [|fuel IH]; intros s; cbn [escape_rest]; [constructor|].
  destruct s as [|c rest]; [constructor|]. destruct (decode_rune (String c rest)) as [r size] eqn:Ed.
  apply safe_app; [|apply IH]. destruct (unsafeRune r size) eqn:Eu; [apply escape_octets_safe|].
  by apply (safe_take _ r).
Qed.

(** ** [escapeText] *)

Lemma safe_inv s r size :
  safe s → s ≠ EmptyString → decode_rune s = (r, size) →
  unsafeRune r size = false ∧ safe (drop_bytes size s).
Proof. intros [|s' r' size' _ Hd' Hu%unsafe_allowed Hs] Hne Hd; [done|]. rewrite Hd in Hd'. by simplify_eq. Qed.

Lemma safe_prefix_spec fuel s :
  String.length s ≤ fuel →
  safe_prefix fuel s ≤ String.length s ∧ safe (take_bytes (safe_prefix fuel s) s) ∧
  (safe_prefix fuel s = String.length s ↔ safe s).
Proof.
  revert s. induction fuel as [|fuel IH]; intros s Hl.
  - destruct s; [|simpl in Hl; lia]. simpl. split; [lia|]. split; [constructor|].
    split; [constructor|done].
  - destruct s as [|c rest]; [simpl; split; [lia|]; split; [constructor|]; split; [constructor|done]|].
    set (s := String c rest) in *. assert (Hne : s ≠ EmptyString) by done.
    assert (safe_prefix (S fuel) s =
            let '(r, size) := decode_rune s in
            if unsafeRune r size then 0 else size + safe_prefix fuel (drop_bytes size s)) as -> by done.
    destruct (decode_rune s) as [r size] eqn:Ed. pose proof (decode_size _ _ _ Ed Hne) as Hsz.
    destruct (unsafeRune r size) eqn:Eu.
    + split; [lia|]. split; [constructor|]. split; [subst s; simpl; lia|].
      intros Hs. destruct (safe_inv _ _ _ Hs Hne Ed) as [? _]. congruence.
    + pose proof (drop_bytes_length size s) as Hd.
      destruct (IH (drop_bytes size s)) as (H1 & H2 & H3); [lia|]. split; [lia|]. split.
      * apply (safe_unsafe _ r size).
        -- intros E. apply (f_equal String.length) in E. rewrite take_bytes_length in E by lia.
           simpl in E. lia.
        -- apply (decode_local s); try done. by rewrite take_take_add.
        -- done.
        -- by rewrite drop_take_add.
      * split.
        -- intros E. apply (safe_unsafe _ r size); try done. apply H3. lia.
        -- intros Hs. destruct (safe_inv _ _ _ Hs Hne Ed) as [_ Hs']. apply H3 in Hs'. lia.
Qed.

Lemma escape_rest_safe_id fuel s : String.length s ≤ fuel → safe s → escape_rest fuel s = s.
Proof.
  revert s. induction fuel as [|fuel IH]; intros s Hl Hs.
  - destruct s; [done|simpl in Hl; lia].
  - destruct Hs as [|s r size Hne Hd Hu%unsafe_allowed Hs]; [done|].
    pose proof (decode_size _ _ _ Hd Hne) as Hsz. pose proof (drop_bytes_length size s) as Hdl.
    destruct s as [|c rest]; [done|]. cbn [escape_rest]. rewrite Hd, Hu, IH; [|lia|done].
    apply take_drop_bytes.
Qed.

(** The text with every unsafe rune escaped: the second loop from the start. *)
Definition escape_all (s : string) : string := escape_rest (String.length s) s.

Lemma escape_rest_fuel fuel s : String.length s ≤ fuel → escape_rest fuel s = escape_all s.
Proof.
  unfold escape_all. enough (H : ∀ n m, String.length s ≤ n → String.length s ≤ m →
    escape_rest n s = escape_rest m s) by (intros; by apply H).
  intros n. revert s. induction n as [|n IH]; intros s [|m] Hn Hm; try (destruct s; [done|simpl in *; lia]).
  destruct s as [|c rest]; [done|]. cbn [escape_rest].
  destruct (decode_rune (String c rest)) as [r size] eqn:Ed.
  pose proof (decode_size _ _ _ Ed ltac:(done)) as Hsz.
  pose proof (drop_bytes_length size (String c rest)) as Hdl. f_equal. apply IH; lia.
Qed.

Lemma escape_all_step s r size :
  s ≠ EmptyString → decode_rune s = (r, size) →
  escape_all s = ((if unsafeRune r size then escape_octets (take_bytes size s) else take_bytes size s)
                  +:+ escape_all (drop_bytes size s))%string.
Proof.
  intros Hne Hd. pose proof (decode_size _ _ _ Hd Hne) as Hsz.
  pose proof (drop_bytes_length size s) as Hdl. unfold escape_all at 1.
  destruct s as [|c rest]; [done|]. cbn [String.length escape_rest]. rewrite Hd.
  rewrite escape_rest_fuel; [done|]. simpl String.length in *. lia.
Qed.

Lemma take_app_drop n m s : (take_bytes n s +:+ take_bytes m (drop_bytes n s) = take_bytes (n + m) s)%string.
Proof. revert n. induction s as [|c s IH]; intros [|n]; simpl; [by destruct m|by destruct m|done|by rewrite IH]. Qed.

Lemma drop_drop_bytes n m s : drop_bytes m (drop_bytes n s) = drop_bytes (n + m) s.
Proof. revert n. induction s as [|c s IH]; intros [|n]; simpl; [by destruct m|by destruct m|done|apply IH]. Qed.

(** The safe runes in front are written as they are. *)
Lemma escape_all_prefix fuel s :
  escape_all s = (take_bytes (safe_prefix fuel s) s +:+ escape_all (drop_bytes (safe_prefix fuel s) s))%string.
Proof.
  revert s. induction fuel as [|fuel IH]; intros s; [by destruct s|]. destruct s as [|c rest]; [done|].
  cbn [safe_prefix]. destruct (decode_rune (String c rest)) as [r size] eqn:Ed.
  destruct (unsafeRune r size) eqn:Eu; [done|].
  rewrite (escape_all_step _ r size) at 1 by done. rewrite Eu, (IH (drop_bytes size _)).
  by rewrite <- string_app_assoc, take_app_drop, drop_drop_bytes.
Qed.

Lemma escapeText_spec s :
  (escapeText s).1 = escape_all s ∧ ((escapeText s).2 = false ↔ safe s).
Proof.
  unfold escapeText. destruct (safe_prefix_spec (String.length s) s) as (Hle & _ & Hiff); [done|].
  case_decide as E0; simpl.
  - apply Hiff in E0. split; [|done]. unfold escape_all. by rewrite escape_rest_safe_id.
  - split; [|split; [done|]; by intros ?%Hiff].
    rewrite (escape_all_prefix (String.length s) s) at 1. f_equal. apply escape_rest_fuel.
    rewrite drop_bytes_length. lia.
Qed.

Lemma escape_all_safe s : safe (escape_all s).
Proof. apply escape_rest_safe. Qed.
Lemma escape_all_id s : safe s → escape_all s = s.
Proof. intros. by apply escape_rest_safe_id. Qed.

(** C40: What [escapeText] returns is well-formed UTF-8 without C0 or C1 control characters
    or DEL, so it cannot start a line or a terminal sequence; text that was so already is
    returned as it is, unmarked, and is the only text that is; the search for a safe
    prefix makes no difference, and escaping twice is escaping once. *)
Theorem escape_text_safe s :
  let '(out, changed) := escapeText s in
  safe out ∧ out = escape_all s ∧ (changed = false ↔ safe s) ∧ (changed = true ↔ out ≠ s) ∧
  escapeText out = (out, false).
Proof.
  destruct (escapeText s) as [out changed] eqn:E0. destruct (escapeText_spec s) as [H1 H2].
  rewrite E0 in H1, H2. simpl in H1, H2. subst out. pose proof (escape_all_safe s) as Hs.
  split; [done|]. split; [done|]. split; [done|]. split.
  - split.
    + intros -> E. rewrite E in Hs. apply H2 in Hs. done.
    + intros Hne. destruct changed; [done|]. destruct Hne. by apply escape_all_id, H2.
  - destruct (escapeText (escape_all s)) as [o c] eqn:E1. destruct (escapeText_spec (escape_all s)) as [H3 H4].
    rewrite E1 in H3, H4. simpl in H3, H4. rewrite escape_all_id in H3 by done. subst o.
    f_equal. by apply H4.
Qed.

(** ** [escapeArgs] *)

(** Every string of a value, at any depth, satisfies [safe]. *)
Fixpoint safe_value (v : value) : Prop :=
  match v with
  | VString s => safe s
  | VStrings l => Forall safe l
  | VList l => foldr (λ v P, safe_value v ∧ P) True l
  | VMap m => foldr (λ kv P, match kv with (_, v) => safe_value v ∧ P end) True m
  | VMaps l => foldr (λ m P, foldr (λ kv P, match kv with (_, v) => safe_value v ∧ P end) True m ∧ P) True l
  | VOther _ => True
  end.

(** What an escaping function owes: safe output, and no mark exactly on safe input, which
    it returns as it is. *)
Definition escapes {A} (ok : A → Prop) (esc : A → A * bool) (x : A) : Prop :=
  ok (if (esc x).2 then (esc x).1 else x) ∧ ((esc x).2 = false ↔ ok x) ∧
  ((esc x).2 = false → (esc x).1 = x).

Lemma escapeText_escapes s : escapes safe escapeText s.
Proof.
  destruct (escapeText_spec s) as [H1 H2]. unfold escapes. rewrite H1. split; [|split; [done|]].
  - destruct (escapeText s).2; [apply escape_all_safe|by apply H2].
  - intros Hs%H2. by apply escape_all_id.
Qed.

Lemma escapeSlice_escapes {A} (ok : A → Prop) esc l :
  Forall (escapes ok esc) l →
  escapes (Forall ok) (escapeSlice esc) l ∧ Forall ok (escapeSlice esc l).1.
Proof.
  induction 1 as [|x l (H1 & H2 & H3) _ [(H4 & H5 & H6) H7]]; [by repeat split; constructor|].
  unfold escapes in *. cbn [escapeSlice]. fold (escapeSlice esc).
  destruct (esc x) as [x' c], (escapeSlice esc l) as [l' c']. simpl in *.
  split; [split; [|split]|].
  - destruct c, c'; simpl; constructor; done.
  - rewrite orb_false_iff, Forall_cons, H2, H5. done.
  - intros [-> ->]%orb_false_iff. by rewrite H6.
  - constructor; done.
Qed.

Lemma foldr_Forall {A} (f : A → Prop) l : foldr (λ x P, f x ∧ P) True l ↔ Forall f l.
Proof. induction l as [|x l IH]; simpl; [by split; constructor|]. by rewrite Forall_cons, IH. Qed.

(** Induction over values, through the lists and maps they hold. *)
Section value_induction.
Context (P : value → Prop).
Context (HS : ∀ s, P (VString s)) (HSs : ∀ l, P (VStrings l)) (HO : ∀ t, P (VOther t)).
Context (HL : ∀ l, Forall P l → P (VList l)).
Context (HM : ∀ m, Forall (λ kv, P kv.2) m → P (VMap m)).
Context (HMs : ∀ l, Forall (Forall (λ kv : string * value, P kv.2)) l → P (VMaps l)).

Definition value_induct : ∀ v, P v :=
  fix go v :=
    let go_map := fix go_map (m : list (string * value)) : Forall (λ kv, P kv.2) m :=
      match m with
      | [] => List.Forall_nil _
      | kv :: m => @List.Forall_cons _ _ kv m (match kv return P kv.2 with (_, v) => go v end) (go_map m)
      end in
    match v with
    | VString s => HS s
    | VStrings l => HSs l
    | VList l => HL l ((fix go_list l : Forall P l :=
                          match l with
                          | [] => List.Forall_nil _
                          | v :: l => @List.Forall_cons _ _ v l (go v) (go_list l)
                          end) l)
    | VMap m => HM m (go_map m)
    | VMaps l => HMs l ((fix go_maps l : Forall (Forall (λ kv : string * value, P kv.2)) l :=
                           match l with
                           | [] => List.Forall_nil _
                           | m :: l => @List.Forall_cons _ _ m l (go_map m) (go_maps l)
                           end) l)
    | VOther t => HO t
    end.
End value_induction.

Definition safe_map (m : list (string * value)) : Prop := Forall (λ kv, safe_value kv.2) m.

Lemma safe_value_map m : safe_value (VMap m) ↔ safe_map m.
Proof.
  unfold safe_map. rewrite <- foldr_Forall. simpl.
  induction m as [|[k v] m IH]; simpl; [done|]. by rewrite IH.
Qed.
Lemma safe_value_list l : safe_value (VList l) ↔ Forall safe_value l.
Proof. apply (foldr_Forall safe_value). Qed.
Lemma safe_value_maps l : safe_value (VMaps l) ↔ Forall safe_map l.
Proof.
  induction l as [|m l IH]; [by split; constructor|].
  rewrite Forall_cons, <- IH, <- safe_value_map. done.
Qed.

Lemma escapes_wrap {A} (ok : A → Prop) esc (x : A) (w : A → value) v :
  escapes ok esc x → (∀ y, safe_value (w y) ↔ ok y) → v = w x →
  escapeValue v = (let '(y, c) := esc x in (w y, c)) → escapes safe_value escapeValue v.
Proof.
  intros (H1 & H2 & H3) Hw -> E0. unfold escapes. rewrite E0. destruct (esc x) as [y c].
  simpl in *. split; [|split].
  - destruct c; by apply Hw.
  - by rewrite H2, Hw.
  - intros Hc. by rewrite H3.
Qed.

Lemma escapeMap_escapes m :
  Forall (λ kv, escapes safe_value escapeValue kv.2) m → escapes safe_map escapeMap m.
Proof.
  intros Hm. apply escapeSlice_escapes. eapply Forall_impl; [exact Hm|].
  intros [k v] (H1 & H2 & H3). unfold escapes. simpl in *. destruct (escapeValue v) as [v' c].
  simpl in *. split; [by destruct c|]. split; [done|]. intros Hc. by rewrite H3.
Qed.

Lemma escapeValue_escapes v : escapes safe_value escapeValue v.
Proof.
  induction v as [s|l|t|l IH|m IH|l IH] using value_induct.
  - by apply (escapes_wrap safe escapeText s VString); [apply escapeText_escapes|..].
  - apply (escapes_wrap (Forall safe) (escapeSlice escapeText) l VStrings); [|done..].
    apply escapeSlice_escapes, Forall_true. intros. apply escapeText_escapes.
  - unfold escapes. simpl. tauto.
  - apply (escapes_wrap (Forall safe_value) (escapeSlice escapeValue) l VList);
      [by apply escapeSlice_escapes|apply safe_value_list|done..].
  - apply (escapes_wrap safe_map escapeMap m VMap);
      [by apply escapeMap_escapes|apply safe_value_map|done..].
  - apply (escapes_wrap (Forall safe_map) (escapeSlice escapeMap) l VMaps);
      [|apply safe_value_maps|done..].
    apply escapeSlice_escapes. eapply Forall_impl; [exact IH|]. apply escapeMap_escapes.
Qed.

(** No argument of a log entry, at any depth, carries an unescaped control character
    or malformed UTF-8, and arguments that carry none are stored as they are. *)
Theorem escape_args_safe args :
  safe_map (escapeArgs args) ∧ (safe_map args → escapeArgs args = args) ∧
  (escapeArgs args).*1 = args.*1.
Proof.
  destruct (escapeMap_escapes args) as (H1 & H2 & H3).
  { apply Forall_true. intros. apply escapeValue_escapes. }
  unfold escapeArgs. split; [|split].
  - destruct (escapeMap args).2 eqn:E0; [done|]. rewrite H3 by done. by apply H2.
  - intros Ha%H2. auto.
  - clear. unfold escapeMap, escapeMap_with. induction args as [|[k v] args IH]; [done|].
    simpl. destruct (escapeValue v) as [v' c].
    destruct (escapeSlice _ args) as [l' c'] eqn:E0. simpl in *. destruct c; simpl; by f_equal.
Qed.
