(* ===== verification/Logger.v ===== *)
(** * The engine's logger: [engine/logger/logger.go], [engine/logger/entry.go] and the
    test case wrapper [engine/test/internal/testcase/testcase.go]

    [Module Logger]: entries, their levels, the filter rules of the profile and the
    capture level.  [Module Callbacks]: how entries reach the callback when goroutines add
    entries, and callbacks run, concurrently.  [Module Testcase]: how the private log of
    a test case is merged into its parent's. *)

From S2P Require Import Prelude GoStrings Escape.

Local Open Scope list_scope.

Module Logger.

(** [numericLevels] *)
Definition numericLevels : list (string * Z) :=
  [("DEBUG3", -2); ("DEBUG2", -1); ("DEBUG", 0); ("INFO", 1); ("NOTICE", 2); ("WARNING", 3);
   ("ERROR", 4); ("CRITICAL", 5)]%string%Z.
Definition numeric (level : string) : option Z := assoc level numericLevels.

Abbreviation levels_config := (gmap string (gmap string string)).

(** [profile.LogFilterRule] *)
Record LogFilterRule := { When : list (string * value); Set_ : string }.
Abbreviation filter_config := (gmap string (gmap string (list LogFilterRule))).

(** [Entry]; [Args] is [None] for a nil map, [level] is [Some] once it is set. *)
Record Entry := {
  Tag : string;
  Args : option (list (string * value));
  Timestamp : Z;
  Testcase : string;
  Module_ : string;
  level : option string;
  levelConfig : levels_config
}.

(** The configuration a [Logger] holds under [configMu], with its defaults. *)
Record Config := {
  logFilter : filter_config;
  testLevels : levels_config;
  captureFloor : Z;
  hasCapture : bool;
  defaultModule : string;
  defaultTestcase : string
}.

(** [New] *)
Definition new_config : Config :=
  {| logFilter := ∅; testLevels := ∅; captureFloor := 0; hasCapture := false;
     defaultModule := "System"; defaultTestcase := "Unspecified" |}.

Definition key_le (a b : string * string) : Prop := String.leb a.1 b.1 = true.
#[export] Instance key_le_dec : RelDecision key_le.
Proof. intros a b. unfold key_le. apply _. Defined.

(** [fmt.Sprint] of a value: what [%v] prints. *)
Fixpoint sprint (v : value) : string :=
  let sprint_map m :=
    ("map[" +:+ join " " ((λ kv, (kv.1 +:+ ":" +:+ kv.2)%string) <$>
      merge_sort key_le
        ((λ kv, match kv with (k, v) => (k, sprint v) end) <$> m)) +:+ "]")%string in
  match v with
  | VString s => s
  | VStrings l => ("[" +:+ join " " l +:+ "]")%string
  | VList l => ("[" +:+ join " " (sprint <$> l) +:+ "]")%string
  | VMap m => sprint_map m
  | VMaps l => ("[" +:+ join " " (sprint_map <$> l) +:+ "]")%string
  | VOther t => t
  end.

Section logger.
Context `{GoUnicode}.

Definition levelForTag (cfg : levels_config) (module tag : string) : string :=
  match cfg !! to_upper module ≫= lookup (to_upper tag) with
  | Some value => to_upper value
  | None => "DEBUG"
  end.

(** [newEntryWithTimestamp]; the errors are the names of the missing fields. *)
Definition newEntryWithTimestamp (tag : string) (args : option (list (string * value)))
  (testcase module : string) (timestamp : Z) (cfg : levels_config) : result Entry string :=
  if decide (tag = "")%string then Err "tag is required"%string
  else if decide (testcase = "")%string then Err "testcase is required"%string
  else if decide (module = "")%string then Err "module is required"%string
  else Ok {| Tag := to_upper tag; Args := escapeArgs <$> args; Timestamp := timestamp;
             Testcase := testcase; Module_ := module; level := None; levelConfig := cfg |}.

(** [Entry.setLevel]; [Entry.Level] and [Entry.NumericLevel], which keep the level in the
    entry and panic ([None]) when the profile names an unknown one. *)
Definition setLevel (e : Entry) (l : string) : Entry :=
  {| Tag := Tag e; Args := Args e; Timestamp := Timestamp e; Testcase := Testcase e;
     Module_ := Module_ e; level := Some (to_upper l); levelConfig := levelConfig e |}.

Definition keep_level (e : Entry) (l : string) : Entry :=
  {| Tag := Tag e; Args := Args e; Timestamp := Timestamp e; Testcase := Testcase e;
     Module_ := Module_ e; level := Some l; levelConfig := levelConfig e |}.

Definition Level (e : Entry) : option (string * Entry) :=
  match level e with
  | Some l => Some (l, e)
  | None =>
      let l := levelForTag (levelConfig e) (Module_ e) (Tag e) in
      match numeric l with
      | Some _ => Some (l, keep_level e l)
      | None => None
      end
  end.

Definition NumericLevel (e : Entry) : option (Z * Entry) :=
  match Level e with
  | Some (l, e) => Some (default 0%Z (numeric l), e)
  | None => None
  end.

(** [matchCondition], [ruleMatches] and [checkFilter]: the first rule that matches. *)
Definition matchCondition (cond v : value) : bool :=
  match cond with
  | VList items => existsb (λ item, bool_decide (sprint item = sprint v)) items
  | VStrings items => bool_decide (sprint v ∈ items)
  | _ => bool_decide (sprint cond = sprint v)
  end.

Definition ruleMatches (e : Entry) (rule : LogFilterRule) : bool :=
  match Args e with
  | None => false
  | Some args =>
      forallb (λ kc, match assoc kc.1 args with
                     | Some v => matchCondition kc.2 v
                     | None => false
                     end) (When rule)
  end.

Definition rules_for (filter : filter_config) (module tag : string) : list LogFilterRule :=
  default [] (filter !! to_upper module ≫= lookup (to_upper tag)).

Definition checkFilter (e : Entry) (filter : filter_config) : Entry :=
  match list_find (λ r, ruleMatches e r = true) (rules_for filter (Module_ e) (Tag e)) with
  | Some (_, r) => setLevel e (Set_ r)
  | None => e
  end.

(** [Logger.captured]; [None] is a panic of [NumericLevel]. *)
Definition captured (c : Config) (e : Entry) : option (bool * Entry) :=
  if hasCapture c then
    match NumericLevel e with
    | Some (l, e) => Some ((captureFloor c <=? l)%Z, e)
    | None => None
    end
  else Some (true, e).

(** [Logger.Wants] *)
Definition Wants (c : Config) (module tag : string) : bool :=
  if hasCapture c then
    let module := if decide (module = "")%string then defaultModule c else module in
    match rules_for (logFilter c) module tag with
    | _ :: _ => true
    | [] =>
        match numeric (levelForTag (testLevels c) module tag) with
        | Some value => (captureFloor c <=? value)%Z
        | None => true
        end
    end
  else true.

(** What [Add] and [AddWithoutCallback] do before they take the entry lock: the entry, and
    whether it is to be stored. *)
Definition prepare (c : Config) (tag : string) (args : option (list (string * value)))
  (module testcase : string) (now : Z) : result (option (bool * Entry)) string :=
  let module := if decide (module = "")%string then defaultModule c else module in
  let testcase := if decide (testcase = "")%string then defaultTestcase c else testcase in
  let? e := newEntryWithTimestamp (to_upper tag) args testcase module now (testLevels c) in
  Ok (captured c (checkFilter e (logFilter c))).

(** [SetProfile], [SetCaptureLevel] and [CopyConfigFrom]. *)
Definition SetProfile (c : Config) (filter : filter_config) (lv : levels_config) : Config :=
  {| logFilter := filter; testLevels := lv; captureFloor := captureFloor c;
     hasCapture := hasCapture c; defaultModule := defaultModule c;
     defaultTestcase := defaultTestcase c |}.

Definition set_capture (c : Config) (floor : Z) (has : bool) : Config :=
  {| logFilter := logFilter c; testLevels := testLevels c; captureFloor := floor;
     hasCapture := has; defaultModule := defaultModule c; defaultTestcase := defaultTestcase c |}.

Definition SetCaptureLevel (c : Config) (l : string) : result Config string :=
  let l := to_upper (trim_space l) in
  if decide (l = "")%string then Ok (set_capture c 0 false)
  else match numeric l with
       | Some v => Ok (set_capture c v true)
       | None => Err l
       end.

Definition CopyConfigFrom (c other : Config) : Config :=
  {| logFilter := logFilter other; testLevels := testLevels other;
     captureFloor := captureFloor other; hasCapture := hasCapture other;
     defaultModule := defaultModule c; defaultTestcase := defaultTestcase c |}.

(** [GetMaxLevel]; [None] is a panic of [NumericLevel].  The reverse table is a map from
    distinct numbers, so the order in which it is filled does not matter. *)
Definition GetMaxLevel (entries : list Entry) : option string :=
  match foldM (λ m e, match NumericLevel e with Some (l, _) => Some (Z.max m l) | None => None end)
          0%Z entries with
  | Some m => Some (default ""%string
                (fst <$> (snd <$> list_find (λ kv : string * Z, kv.2 = m) numericLevels)))
  | None => None
  end.
End logger.
End Logger.

Module LoggerFacts.
Import Logger.
Section facts.
Context `{GoUnicode}.

(** An entry whose level no rule has set takes the level of its tag. *)
Lemma captured_fresh c e :
  level e = None → hasCapture c = true →
  captured c e = match numeric (levelForTag (levelConfig e) (Module_ e) (Tag e)) with
                 | Some v => Some ((captureFloor c <=? v)%Z,
                                   keep_level e (levelForTag (levelConfig e) (Module_ e) (Tag e)))
                 | None => None
                 end.
Proof.
  intros He Hc. unfold captured, NumericLevel, Level. rewrite Hc, He.
  by destruct (numeric _) as [v|] eqn:Ev; [rewrite Ev|].
Qed.

Lemma prepare_ok c tag args module testcase now r :
  prepare c tag args module testcase now = Ok r →
  ∃ e, r = captured c (checkFilter e (logFilter c)) ∧ level e = None ∧
    Tag e = to_upper (to_upper tag) ∧ levelConfig e = testLevels c ∧
    Module_ e = (if decide (module = "")%string then defaultModule c else module).
Proof.
  unfold prepare, newEntryWithTimestamp. intros E.
  destruct (decide (to_upper tag = "")%string); [done|].
  destruct (decide ((if decide (testcase = "")%string then _ else _) = "")%string); [done|].
  destruct (decide ((if decide (module = "")%string then _ else _) = "")%string); [done|].
  injection E as <-. by eexists.
Qed.

(** [Wants] may be used to skip building the arguments of an entry: when it says no,
    [Add] would neither store the entry nor pass it to the callback, nor panic, whatever
    the arguments.  Without a filter rule for the tag, and with a level the profile names
    correctly, it is the decision [Add] makes. *)
Theorem wants_exact c tag args module testcase now r :
  is_ascii tag = true → prepare c tag args module testcase now = Ok r →
  let m := if decide (module = "")%string then defaultModule c else module in
  (Wants c module tag = false → ∃ e, r = Some (false, e)) ∧
  (rules_for (logFilter c) m tag = [] → is_Some (numeric (levelForTag (testLevels c) m tag)) →
   ∃ e, r = Some (Wants c module tag, e)).
Proof.
  intros Ha (e & -> & He & Ht & Hcfg & Hm)%prepare_ok. cbv zeta. unfold Wants.
  set (m := if decide (module = "")%string then defaultModule c else module) in *. clearbody m.
  assert (Hr : rules_for (logFilter c) (Module_ e) (Tag e) = rules_for (logFilter c) m tag)
    by (unfold rules_for; by rewrite Hm, Ht, !to_upper_idemp by (try apply is_ascii_to_upper; done)).
  assert (Hl : levelForTag (levelConfig e) (Module_ e) (Tag e) = levelForTag (testLevels c) m tag)
    by (unfold levelForTag; by rewrite Hm, Ht, Hcfg, !to_upper_idemp by (try apply is_ascii_to_upper; done)).
  unfold checkFilter. rewrite Hr. destruct (hasCapture c) eqn:Ec.
  - destruct (rules_for (logFilter c) m tag) as [|rule rules]; [|split; [done|discriminate]].
    simpl. rewrite captured_fresh, Hl by done.
    destruct (numeric (levelForTag (testLevels c) m tag)) as [v|]; split.
    + intros ->. by eexists.
    + intros _ _. by eexists.
    + done.
    + by intros _ [? ?].
  - split; [done|]. intros Hnil _. rewrite Hnil. simpl. unfold captured. rewrite Ec. by eexists.
Qed.
End facts.

#[local] Existing Instance ascii_unicode.

Definition notice_only : Config :=
  {| logFilter := ∅; testLevels := {["SYSTEM" := {["QUERY" := "debug"]}]}; captureFloor := 2;
     hasCapture := true; defaultModule := "System"; defaultTestcase := "Unspecified" |}%string.

Lemma wants_exact_witness :
  Wants notice_only "" "query" = false ∧
  ∃ r e, prepare notice_only "query" None "" "" 5 = Ok r ∧ r = Some (false, e).
Proof.
  assert (E : ∃ r, prepare notice_only "query" None "" "" 5 = Ok r) by (eexists; vm_compute; reflexivity).
  destruct E as [r E]. split; [vm_compute; reflexivity|].
  destruct (wants_exact notice_only "query" None "" "" 5 r) as [Hw _]; [reflexivity|exact E|].
  destruct Hw as [e He]; [vm_compute; reflexivity|]. exists r, e. split; [exact E|exact He].
Defined.
End LoggerFacts.

(** ** Delivery to the callback *)

Module Callbacks.

(** A goroutine in [runCallbacks], at the lock that reads the callback, in the call, at
    the lock after a call that returned nil, at the lock that records a failed one, or at
    the [Add] that reports the failure. *)
Inductive phase (Entry : Type) :=
| Read (e : Entry) | Calling (e : Entry) | Next | Failed | Reporting.
Arguments Read {Entry} e.
Arguments Calling {Entry} e.
Arguments Next {Entry}.
Arguments Failed {Entry}.
Arguments Reporting {Entry}.

Section callbacks.
Context {Entry : Type}.

(** The fields under [mu], the goroutines in [runCallbacks], and the calls the callback has
    received. *)
Record logger := {
  entries : list Entry;
  Callback : bool;
  callbackRunning : bool;
  pending : list Entry;
  runners : list (phase Entry);
  delivered : list Entry
}.

Definition new_logger (callback : bool) : logger :=
  {| entries := []; Callback := callback; callbackRunning := false; pending := [];
     runners := []; delivered := [] |}.

(** The critical section of [Add] and [appendExisting], for a captured entry. *)
Definition append_entry (l : logger) (e : Entry) : logger :=
  if negb (Callback l) then
    {| entries := entries l ++ [e]; Callback := false; callbackRunning := callbackRunning l;
       pending := pending l; runners := runners l; delivered := delivered l |}
  else if callbackRunning l then
    {| entries := entries l ++ [e]; Callback := true; callbackRunning := true;
       pending := pending l ++ [e]; runners := runners l; delivered := delivered l |}
  else
    {| entries := entries l ++ [e]; Callback := true; callbackRunning := true;
       pending := pending l; runners := runners l ++ [Read e]; delivered := delivered l |}.

(** That of [AddWithoutCallback] and [AppendWithoutCallback]. *)
Definition append_silent (l : logger) (es : list Entry) : logger :=
  {| entries := entries l ++ es; Callback := Callback l; callbackRunning := callbackRunning l;
     pending := pending l; runners := runners l; delivered := delivered l |}.

Definition ClearHistory (l : logger) : logger :=
  {| entries := []; Callback := Callback l; callbackRunning := callbackRunning l;
     pending := pending l; runners := runners l; delivered := delivered l |}.

Definition set_runner (l : logger) (g : nat) (p : phase Entry) : logger :=
  {| entries := entries l; Callback := Callback l; callbackRunning := callbackRunning l;
     pending := pending l; runners := <[g := p]> (runners l); delivered := delivered l |}.

Definition end_runner (l : logger) (g : nat) : logger :=
  {| entries := entries l; Callback := Callback l; callbackRunning := callbackRunning l;
     pending := pending l; runners := delete g (runners l); delivered := delivered l |}.

Inductive event :=
| Append (e : Entry)                   (* a captured entry, from any goroutine *)
| AppendSilent (es : list Entry)
| Clear
| ReadCallback (g : nat)               (* goroutine [g] reads the callback *)
| CallbackEnds (g : nat) (ok : bool)   (* its call returns; an error or a panic is not ok *)
| NextPending (g : nat)                (* it takes the next pending entry *)
| RecordFailure (g : nat)              (* it takes the callback out *)
| ReportFailure (g : nat) (e : option Entry).  (* its LOGGER_CALLBACK_ERROR, if captured *)

(** [runCallbacks], and the calls of the other goroutines. *)
Definition step (ev : event) (l : logger) : option logger :=
  match ev with
  | Append e => Some (append_entry l e)
  | AppendSilent es => Some (append_silent l es)
  | Clear => Some (ClearHistory l)
  | ReadCallback g =>
      match runners l !! g with
      | Some (Read e) =>
          if Callback l then
            let l := set_runner l g (Calling e) in
            Some {| entries := entries l; Callback := Callback l; callbackRunning := callbackRunning l;
                    pending := pending l; runners := runners l; delivered := delivered l ++ [e] |}
          else
            let l := end_runner l g in
            Some {| entries := entries l; Callback := Callback l; callbackRunning := false;
                    pending := []; runners := runners l; delivered := delivered l |}
      | _ => None
      end
  | CallbackEnds g ok =>
      match runners l !! g with
      | Some (Calling _) => Some (set_runner l g (if ok then Next else Failed))
      | _ => None
      end
  | NextPending g =>
      match runners l !! g with
      | Some Next =>
          match pending l with
          | [] =>
              let l := end_runner l g in
              Some {| entries := entries l; Callback := Callback l; callbackRunning := false;
                      pending := []; runners := runners l; delivered := delivered l |}
          | e :: rest =>
              let l := set_runner l g (Read e) in
              Some {| entries := entries l; Callback := Callback l; callbackRunning := callbackRunning l;
                      pending := rest; runners := runners l; delivered := delivered l |}
          end
      | _ => None
      end
  | RecordFailure g =>
      match runners l !! g with
      | Some Failed =>
          let l := set_runner l g Reporting in
          Some {| entries := entries l; Callback := false; callbackRunning := false;
                  pending := []; runners := runners l; delivered := delivered l |}
      | _ => None
      end
  | ReportFailure g e =>
      match runners l !! g with
      | Some Reporting =>
          let l := end_runner l g in
          Some (match e with Some e => append_entry l e | None => l end)
      | _ => None
      end
  end.

Definition runs (evs : list event) (l : logger) : option logger :=
  foldM (λ l ev, step ev l) l evs.
End callbacks.
Arguments logger : clear implicits.
Arguments event : clear implicits.
End Callbacks.

Module CallbacksFacts.
Import Callbacks.
Section facts.
Context {Entry : Type}.
Implicit Types (l : logger Entry) (evs : list (event Entry)).

(** What the events log for the callback, and what they leave in the log. *)
Definition logged_of (ev : event Entry) : list Entry :=
  match ev with Append e | ReportFailure _ (Some e) => [e] | _ => [] end.
Definition logged evs : list Entry := evs ≫= logged_of.
Definition store_event (log : list Entry) (ev : event Entry) : list Entry :=
  match ev with AppendSilent es => log ++ es | Clear => [] | _ => log ++ logged_of ev end.
Definition stored evs : list Entry := foldl store_event [] evs.

(** The entry of a goroutine that has not called the callback with it yet. *)
Definition held (p : phase Entry) : list Entry := match p with Read e => [e] | _ => [] end.

(** With the callback in place at most one goroutine works for it, exactly while
    [callbackRunning]; what was logged is delivered, in hand or pending, in this order.
    Without it nothing waits, nobody calls, and what was delivered was logged first. *)
Definition inv (log : list Entry) l : Prop :=
  if Callback l then
    (callbackRunning l = false ∧ runners l = [] ∧ pending l = [] ∧ log = delivered l) ∨
    (∃ p, callbackRunning l = true ∧ runners l = [p] ∧ p ≠ Reporting ∧
          log = delivered l ++ held p ++ pending l)
  else callbackRunning l = false ∧ pending l = [] ∧
       (runners l = [] ∨ runners l = [Reporting]) ∧ delivered l `prefix_of` log.

Lemma single_lookup {A} (x y : A) g : [x] !! g = Some y → g = 0 ∧ x = y.
Proof. destruct g as [|g]; simpl; [naive_solver|by rewrite lookup_nil]. Qed.

Lemma inv_append log l e : inv log l → inv (log ++ [e]) (append_entry l e).
Proof.
  unfold inv, append_entry. destruct (Callback l) eqn:Ec; simpl.
  - intros [(-> & -> & -> & ->)|(p & -> & -> & Hp & ->)]; right.
    + exists (Read e). done.
    + exists p. by rewrite <- !app_assoc.
  - intros (? & ? & ? & ?). split_and!; try done. by apply prefix_app_r.
Qed.

(** The goroutine's entry is where the invariant says. *)
Lemma inv_runner log l g p :
  inv log l → runners l !! g = Some p →
  g = 0 ∧ runners l = [p] ∧
  ((Callback l = true ∧ callbackRunning l = true ∧ p ≠ Reporting ∧
    log = delivered l ++ held p ++ pending l) ∨
   (Callback l = false ∧ callbackRunning l = false ∧ p = Reporting ∧ pending l = [] ∧
    delivered l `prefix_of` log)).
Proof.
  unfold inv. destruct (Callback l).
  - intros [(_ & Hr & _)|(p' & Hc & Hr & Hp & Ho)]; rewrite Hr; [done|].
    intros [-> ->]%single_lookup. split; [done|]. split; [done|]. by left.
  - intros (Hc & Hpe & [Hr|Hr] & Hd); rewrite Hr; [done|].
    intros [-> ->]%single_lookup. split; [done|]. split; [done|]. by right.
Qed.

Lemma delivery_step log l ev l' : inv log l → step ev l = Some l' → inv (log ++ logged_of ev) l'.
Proof.
  intros I. destruct ev as [e|es| |g|g ok|g|g|g e]; simpl.
  1: intros [= <-]; by apply inv_append.
  1-2: rewrite app_nil_r; by intros [= <-].
  all: destruct (runners l !! g) as [p|] eqn:Eg; [|done];
    destruct (inv_runner _ _ _ _ I Eg) as (-> & Hr & [(Hc & Hru & Hp & Ho)|(Hc & Hru & -> & Hpe & Hd)]);
    try done; try (destruct p; done); try (destruct p; try done; []); try rewrite app_nil_r.
  - rewrite Hc. intros [= <-]. unfold inv. simpl. rewrite ?Hc, ?Hr. right. exists (Calling e).
    split; [done|]. split; [done|]. split; [done|]. rewrite Ho. simpl. by rewrite <- app_assoc.
  - intros [= <-]. unfold inv. simpl. rewrite ?Hc, ?Hr. right. eexists.
    split; [done|]. split; [done|]. split; [by destruct ok|]. rewrite Ho. by destruct ok.
  - destruct (pending l) as [|e rest] eqn:Epe; intros [= <-]; unfold inv; simpl; rewrite ?Hc, ?Hr.
    + left. rewrite Ho. simpl. by rewrite app_nil_r.
    + right. exists (Read e). rewrite Ho. done.
  - intros [= <-]. unfold inv. simpl. rewrite Hr, Ho. split; [done|]. split; [done|].
    split; [by right|]. by apply prefix_app_r.
  - assert (Hend : inv log (end_runner l 0)).
    { unfold inv. simpl. rewrite ?Hc, ?Hr. split; [done|]. split; [done|]. split; [by left|done]. }
    destruct e as [e|]; intros [= <-]; [by apply inv_append|by rewrite app_nil_r].
Qed.

Lemma stored_step l ev l' : step ev l = Some l' → entries l' = store_event (entries l) ev.
Proof.
  assert (Ha : ∀ l e, entries (append_entry l e) = entries l ++ [e]) by (intros l0 e; unfold append_entry; by repeat case_match).
  destruct ev as [e|es| |g|g ok|g|g|g [e|]]; simpl; intros E; repeat case_match; simplify_eq; simpl;
    rewrite ?Ha, ?app_nil_r; done.
Qed.

Lemma runs_facts evs : ∀ log l0 l,
  inv log l0 → runs evs l0 = Some l → inv (log ++ logged evs) l ∧ entries l = foldl store_event (entries l0) evs.
Proof.
  unfold runs, logged. induction evs as [|ev evs IH]; intros log l0 l I; simpl.
  - intros [= <-]. by rewrite app_nil_r.
  - destruct (step ev l0) as [l1|] eqn:E1; [|done]. intros Hr.
    rewrite <- (stored_step _ _ _ E1), app_assoc. by eapply IH; [eapply delivery_step|].
Qed.

Lemma inv_new c : inv [] (new_logger c : logger Entry).
Proof. unfold inv, new_logger. destruct c; simpl; [by left|]. split_and!; [done|done|by left|done]. Qed.

(** C37: Every captured entry is stored, in the order in which the goroutines append, and
    the callback sees the entries that are to go to it in that order, each at most once and
    one call at a time, even when several goroutines log and the callback logs itself.  As
    long as no call has failed, none is left out: what the callback has not seen is in the
    hands of the one goroutine that calls it or pending, a goroutine that works for it can go
    on, and when none does it has seen everything. *)
Theorem callbacks_in_order c evs l :
  runs evs (new_logger c) = Some l →
  entries l = stored evs ∧ delivered l `prefix_of` logged evs ∧ length (runners l) ≤ 1 ∧
  (Callback l = true → callbackRunning l = false → delivered l = logged evs) ∧
  (callbackRunning l = true → ∃ g ev l', ev ∈ [ReadCallback g; CallbackEnds g true; NextPending g; RecordFailure g] ∧
     step ev l = Some l').
Proof.
  intros Hr. destruct (runs_facts evs [] _ _ (inv_new c) Hr) as [I ->]. split; [done|]. simpl in I.
  unfold inv in I. destruct (Callback l) eqn:Ec.
  - destruct I as [(Hc & Hru & Hp & Ho)|(p & Hc & Hru & Hp & Ho)]; rewrite Hc, Hru, Ho.
    + split; [done|]. split; [simpl; lia|]. done.
    + split; [by apply prefix_app_r|]. split; [done|]. split; [done|]. intros _. exists 0.
      assert (H0 : runners l !! 0 = Some p) by (by rewrite Hru).
      destruct p; [exists (ReadCallback 0)|exists (CallbackEnds 0 true)|exists (NextPending 0)|exists (RecordFailure 0)|done];
        simpl; rewrite H0, ?Ec; try (destruct (pending l)); eexists; (split; [set_solver|done]).
  - destruct I as (Hc & Hp & Hru & Hd). rewrite Hc. split; [done|].
    split; [destruct Hru as [-> | ->]; simpl; lia|]. done.
Qed.
End facts.

Definition busy_log : list (event nat) :=
  [Append 1; ReadCallback 0; Append 2; Append 3; CallbackEnds 0 true; NextPending 0; AppendSilent [9];
   ReadCallback 0; CallbackEnds 0 true; NextPending 0; ReadCallback 0; CallbackEnds 0 true; NextPending 0].

Lemma callbacks_in_order_witness :
  ∃ l, runs busy_log (new_logger true) = Some l ∧ delivered l = [1; 2; 3] ∧ entries l = [1; 2; 3; 9].
Proof.
  destruct (runs busy_log (new_logger true)) as [l|] eqn:E; [|vm_compute in E; discriminate].
  exists l. split; [reflexivity|]. destruct (callbacks_in_order true busy_log l E) as (He & _ & _ & Hd & _).
  vm_compute in E. injection E as <-. split; [apply Hd; reflexivity|exact He].
Defined.
End CallbacksFacts.

(** ** [testcase.Run] *)

Module Testcase.
Section testcase.
(** Entries are pointers, compared by identity; [ts] is the timestamp. *)
Context {Entry : Type} `{EqDecision Entry} (ts : Entry → Z).

(** [sort.SliceStable] by timestamp. *)
Fixpoint insert_stable (e : Entry) (l : list Entry) : list Entry :=
  match l with
  | [] => [e]
  | x :: l => if (ts e <? ts x)%Z then e :: x :: l else x :: insert_stable e l
  end.
Definition sort_stable (l : list Entry) : list Entry := foldl (λ acc e, insert_stable e acc) [] l.

(** The entries of the private log that the test case does not return. *)
Definition extras_of (entries : list (option Entry)) (buf : list Entry) : list Entry :=
  List.filter (λ e, negb (bool_decide (Some e ∈ entries))) buf.

(** The extras that go before an entry, and the rest. *)
Fixpoint take_before (t : Z) (extras : list Entry) : list Entry * list Entry :=
  match extras with
  | x :: rest => if (ts x <? t)%Z then let '(a, b) := take_before t rest in (x :: a, b)
                 else ([], extras)
  | [] => ([], [])
  end.

Fixpoint merge_entries (entries : list (option Entry)) (extras : list Entry) : list (option Entry) :=
  match entries with
  | [] => Some <$> extras
  | None :: entries => None :: merge_entries entries extras
  | Some e :: entries =>
      let '(before, extras) := take_before (ts e) extras in
      (Some <$> before) ++ Some e :: merge_entries entries extras
  end.

(** The entries [Run] returns; [None] is a test case that returned a nil slice. *)
Definition merged (entries : option (list (option Entry))) (buf : list Entry) : list (option Entry) :=
  match entries with
  | None => Some <$> buf
  | Some entries =>
      match extras_of entries buf with
      | [] => entries
      | extras => merge_entries entries (sort_stable extras)
      end
  end.

(** A call of [Append] or, when [silent], of [AppendWithoutCallback] on the parent. *)
Record append_call := { appended : Entry; silent : bool }.

(** [useSilentAppend] is whether the parent has a callback, which the private log shares. *)
Definition flush (useSilentAppend : bool) (entries : list (option Entry)) (buf : list Entry) : list append_call :=
  let loud := (λ e, {| appended := e; silent := false |}) <$> omap id entries in
  if useSilentAppend && negb (bool_decide (buf = []))
  then (λ e, {| appended := e; silent := bool_decide (e ∈ buf) |}) <$> omap id entries
  else loud.

(** The whole call, for a test case that logged [buf] and returned [entries]: what [Run]
    returns and what it does to the parent. *)
Definition Run (useSilentAppend : bool) (entries : option (list (option Entry))) (buf : list Entry)
  : list (option Entry) * list append_call :=
  let out := merged entries buf in (out, flush useSilentAppend out buf).

(** Every call of the callback for this test case: the private log's, then the parent's. *)
Definition callback_calls (useSilentAppend : bool) (entries : option (list (option Entry))) (buf : list Entry)
  : list Entry :=
  if useSilentAppend
  then buf ++ (appended <$> List.filter (λ c, negb (silent c)) (Run useSilentAppend entries buf).2)
  else [].
End testcase.
End Testcase.

Module TestcaseFacts.
Import Testcase.
Section facts.
Context {Entry : Type} `{EqDecision Entry} (ts : Entry → Z).

Lemma insert_stable_perm e l : insert_stable ts e l ≡ₚ e :: l.
Proof.
  induction l as [|x l IH]; simpl; [done|]. case_match; [done|].
  rewrite IH. apply Permutation_swap.
Qed.

Lemma sort_stable_perm l : sort_stable ts l ≡ₚ l.
Proof.
  unfold sort_stable. assert (H : ∀ acc, foldl (λ acc e, insert_stable ts e acc) acc l ≡ₚ acc ++ l).
  { induction l as [|x l IH]; intros acc; simpl; [by rewrite app_nil_r|].
    rewrite IH, insert_stable_perm. apply Permutation_middle. }
  apply (H []).
Qed.

(** Sorted by timestamp. *)
Abbreviation by_time := (StronglySorted (λ a b : Entry, (ts a ≤ ts b)%Z)).

Lemma insert_stable_sorted e l : by_time l → by_time (insert_stable ts e l).
Proof.
  induction 1 as [|x l Hs IH Hx]; simpl; [by repeat constructor|].
  destruct (ts e <? ts x)%Z eqn:E; breflect.
  - constructor; [by constructor|]. constructor; [lia|]. eapply Forall_impl; [exact Hx|]. simpl. lia.
  - constructor; [done|]. rewrite insert_stable_perm. constructor; [lia|done].
Qed.

Lemma sort_stable_sorted l : by_time (sort_stable ts l).
Proof.
  unfold sort_stable. assert (H : ∀ acc, by_time acc → by_time (foldl (λ acc e, insert_stable ts e acc) acc l)).
  { induction l as [|x l IH]; intros acc Ha; simpl; [done|]. by apply IH, insert_stable_sorted. }
  apply H. constructor.
Qed.

Lemma take_before_spec t extras a b :
  take_before ts t extras = (a, b) →
  extras = a ++ b ∧ Forall (λ x, (ts x < t)%Z) a ∧ (∀ x b', b = x :: b' → (t ≤ ts x)%Z).
Proof.
  revert a b. induction extras as [|x l IH]; intros a b; simpl; [by intros [= <- <-]|].
  destruct (ts x <? t)%Z eqn:E; breflect.
  - destruct (take_before ts t l) as [a' b'] eqn:Et. intros [= <- <-].
    destruct (IH a' b' eq_refl) as (-> & Ha & Hb). split; [done|]. split; [by constructor|done].
  - intros [= <- <-]. split; [done|]. split; [constructor|]. intros ? ? [= <- _]. done.
Qed.

Lemma merge_entries_perm entries extras :
  merge_entries ts entries extras ≡ₚ entries ++ (Some <$> extras).
Proof.
  revert extras. induction entries as [|[e|] entries IH]; intros extras; simpl; [done| |by rewrite IH].
  destruct (take_before ts (ts e) extras) as [a b] eqn:Et.
  apply take_before_spec in Et as (-> & _ & _). rewrite IH, fmap_app.
  rewrite <- Permutation_middle. constructor. rewrite !(assoc_L (++)).
  apply Permutation_app_tail, Permutation_app_comm.
Qed.

(** Neither list is reordered. *)
Lemma merge_entries_sublist entries extras :
  entries `sublist_of` merge_entries ts entries extras ∧
  (Some <$> extras) `sublist_of` merge_entries ts entries extras.
Proof.
  revert extras. induction entries as [|[e|] entries IH]; intros extras; simpl.
  - split; [apply sublist_nil_l|done].
  - destruct (take_before ts (ts e) extras) as [a b] eqn:Et.
    apply take_before_spec in Et as (-> & _ & _). destruct (IH b) as [H1 H2]. split.
    + by apply sublist_inserts_l, sublist_skip.
    + rewrite fmap_app. by apply sublist_app, sublist_cons.
  - destruct (IH extras) as [H1 H2]. split; [by apply sublist_skip|by apply sublist_cons].
Qed.

Lemma merge_entries_sorted entries extras :
  by_time entries → by_time extras →
  ∃ out, merge_entries ts (Some <$> entries) extras = Some <$> out ∧ by_time out.
Proof.
  intros He. revert extras. induction He as [|e l Hl IH Hel]; intros extras Hx; [by exists extras|].
  rewrite fmap_cons. cbn [merge_entries].
  destruct (take_before ts (ts e) extras) as [a b] eqn:Et.
  apply take_before_spec in Et as (-> & Ha & Hb). apply StronglySorted_app in Hx as (Hab & Hsa & Hsb).
  destruct (IH b Hsb) as (out & Eo & Ho). exists (a ++ e :: out).
  split; [by rewrite Eo, fmap_app, fmap_cons|].
  assert (Hin : ∀ x, x ∈ out → x ∈ l ∨ x ∈ b).
  { intros x Hin. pose proof (merge_entries_perm (Some <$> l) b) as Hp. rewrite Eo in Hp.
    assert (Hs : Some x ∈ (Some <$> l) ++ (Some <$> b)) by (rewrite <- Hp; by apply list_elem_of_fmap_2).
    apply elem_of_app in Hs as [(y & Ey & ?)%list_elem_of_fmap|(y & Ey & ?)%list_elem_of_fmap]; injection Ey as ->; auto. }
  assert (Hge : ∀ x, x ∈ b → (ts e ≤ ts x)%Z).
  { destruct b as [|y b]; [by intros x ?%elem_of_nil|]. specialize (Hb y b eq_refl).
    apply StronglySorted_inv in Hsb as [_ Hy]. rewrite Forall_forall in Hy.
    intros x [->|Hx]%elem_of_cons; [done|]. specialize (Hy x Hx). simpl in Hy. lia. }
  assert (Heo : Forall (λ x, (ts e ≤ ts x)%Z) out).
  { apply Forall_forall. intros x [Hxl|Hxb]%Hin; [|auto]. rewrite Forall_forall in Hel. by apply Hel. }
  apply StronglySorted_app. split; [|split; [done|by constructor]].
  intros x y Hxa Hy. rewrite Forall_forall in Ha. specialize (Ha x Hxa). simpl in Ha.
  apply elem_of_cons in Hy as [->|Hy]; [lia|]. rewrite Forall_forall in Heo. specialize (Heo y Hy). simpl in Heo. lia.
Qed.

(** The entries a test case returned, without the nil ones. *)
Definition returned (entries : option (list (option Entry))) : list (option Entry) := default [] entries.

Lemma merged_perm entries buf :
  merged ts entries buf ≡ₚ returned entries ++ (Some <$> extras_of (returned entries) buf).
Proof.
  destruct entries as [entries|]; simpl.
  - destruct (extras_of entries buf) as [|x xs] eqn:E; [by rewrite app_nil_r|].
    by rewrite merge_entries_perm, sort_stable_perm.
  - unfold extras_of. assert (Hf : List.filter (λ e, negb (bool_decide (Some e ∈ []))) buf = buf); [|by rewrite Hf].
    induction buf as [|e buf IH]; simpl; [done|]. by f_equal.
Qed.

Lemma extras_elem (entries : list (option Entry)) (buf : list Entry) e : e ∈ extras_of entries buf ↔ e ∈ buf ∧ Some e ∉ entries.
Proof.
  unfold extras_of. rewrite list_elem_of_In, filter_In, <- list_elem_of_In.
  by rewrite negb_true_iff, bool_decide_eq_false.
Qed.

Lemma omap_id_elem {A} (l : list (option A)) e : e ∈ omap id l ↔ Some e ∈ l.
Proof. rewrite list_elem_of_omap. naive_solver. Qed.

Lemma merged_elem entries buf e :
  e ∈ omap id (merged ts entries buf) ↔ Some e ∈ returned entries ∨ e ∈ buf.
Proof.
  rewrite omap_id_elem, merged_perm, elem_of_app, list_elem_of_fmap. split.
  - intros [?|(y & [= <-] & [? _]%extras_elem)]; auto.
  - intros [?|Hb]; [by left|]. destruct (decide (Some e ∈ returned entries)) as [?|Hn]; [by left|right].
    exists e. split; [done|]. by apply extras_elem.
Qed.

Lemma merged_nodup entries buf :
  NoDup (omap id (returned entries)) → NoDup buf → NoDup (omap id (merged ts entries buf)).
Proof.
  intros He Hb. rewrite merged_perm, omap_app. apply NoDup_app. split; [done|].
  assert (Hx : omap id (Some <$> extras_of (returned entries) buf) = extras_of (returned entries) buf).
  { induction (extras_of (returned entries) buf) as [|x l IH]; simpl; [done|]. by f_equal. }
  rewrite Hx. split.
  - intros e Hin [_ Hn]%extras_elem. by apply omap_id_elem in Hin.
  - unfold extras_of. apply NoDup_ListNoDup, List.NoDup_filter, NoDup_ListNoDup. done.
Qed.

(** [testcase.Run] returns what the test case returned together with what it logged
    without returning it, each once and in the test case's order; entries sorted by time
    stay sorted. *)
Theorem testcase_merge entries buf :
  let out := merged ts entries buf in
  out ≡ₚ returned entries ++ (Some <$> extras_of (returned entries) buf) ∧
  returned entries `sublist_of` out ∧
  (∀ e, Some e ∈ out ↔ Some e ∈ returned entries ∨ e ∈ buf) ∧
  (∀ es, entries = Some (Some <$> es) → by_time es → ∃ es', out = Some <$> es' ∧ by_time es').
Proof.
  cbv zeta. split; [apply merged_perm|]. split; [|split].
  - destruct entries as [entries|]; simpl; [|apply sublist_nil_l].
    destruct (extras_of entries buf) as [|x xs] eqn:E; [done|]. apply merge_entries_sublist.
  - intros e. rewrite <- omap_id_elem. apply merged_elem.
  - intros es -> Hs. unfold merged. destruct (extras_of (Some <$> es) buf) as [|x xs] eqn:E; [by exists es|].
    apply merge_entries_sorted; [done|apply sort_stable_sorted].
Qed.

(** Every entry of a test case reaches the parent log once, in the merged order, and,
    where there is a callback that does not fail, the callback once: from the private log
    if it went through it, and otherwise from the parent. *)
Theorem testcase_delivers_once shared entries buf :
  NoDup (omap id (returned entries)) → NoDup buf →
  let '(out, calls) := Run ts shared entries buf in
  appended <$> calls = omap id out ∧ NoDup (appended <$> calls) ∧
  (∀ e, e ∈ appended <$> calls ↔ Some e ∈ returned entries ∨ e ∈ buf) ∧
  (shared = true → callback_calls ts shared entries buf ≡ₚ omap id out).
Proof.
  intros He Hb. unfold Run. pose proof (merged_nodup entries buf He Hb) as Hn.
  assert (Ha : appended <$> flush shared (merged ts entries buf) buf = omap id (merged ts entries buf)).
  { unfold flush. destruct (shared && negb (bool_decide (buf = []))); rewrite <- list_fmap_compose;
      apply list_fmap_id. }
  rewrite Ha. split; [done|]. split; [done|]. split; [apply merged_elem|].
  intros ->. unfold callback_calls, Run. simpl. unfold flush. simpl.
  set (es := omap id (merged ts entries buf)) in *.
  assert (Hsub : ∀ e, e ∈ buf → e ∈ es) by (intros e ?; apply merged_elem; by right).
  destruct (decide (buf = [])) as [->|Hbne].
  - rewrite bool_decide_true by done. simpl. clearbody es. clear.
    assert (E : appended <$> List.filter (λ c, negb (silent c)) ((λ e : Entry, {| appended := e; silent := false |}) <$> es) = es); [|by rewrite E].
    induction es as [|e es IH]; simpl; [done|]. by f_equal.
  - rewrite bool_decide_false by done. simpl.
    assert (E : appended <$> List.filter (λ c, negb (silent c)) ((λ e, {| appended := e; silent := bool_decide (e ∈ buf) |}) <$> es)
                = List.filter (λ e, negb (bool_decide (e ∈ buf))) es).
    { clear. induction es as [|e es IH]; simpl; [done|]. destruct (bool_decide (e ∈ buf)); simpl; [done|]. by f_equal. }
    rewrite E. apply NoDup_Permutation; [|done|].
    + apply NoDup_app. split; [done|]. split; [|by apply NoDup_ListNoDup, List.NoDup_filter, NoDup_ListNoDup].
      intros e Hin Hf. apply list_elem_of_In, filter_In in Hf as [_ Hf].
      by rewrite bool_decide_true in Hf.
    + intros e. rewrite elem_of_app, (list_elem_of_In (List.filter _ _)), filter_In, <- list_elem_of_In.
      rewrite negb_true_iff, bool_decide_eq_false. destruct (decide (e ∈ buf)); naive_solver.
Qed.
End facts.

Lemma testcase_delivers_once_witness :
  NoDup (omap id (returned (Some [Some 5; None; Some 2]%Z))) ∧
  (appended <$> (Run id true (Some [Some 5; None; Some 2]%Z) [2; 3]%Z).2 = [3; 5; 2]%Z).
Proof.
  assert (H1 : NoDup (omap id (returned (Some [Some 5; None; Some 2]%Z))))
    by (apply (bool_decide_unpack _); vm_compute; exact I).
  split; [exact H1|].
  assert (H2 : NoDup [2; 3]%Z) by (apply (bool_decide_unpack _); vm_compute; exact I).
  destruct (testcase_delivers_once id true (Some [Some 5; None; Some 2]%Z) [2; 3]%Z H1 H2) as (Ha & _).
  etransitivity; [exact Ha|]. vm_compute. reflexivity.
Defined.
End TestcaseFacts.
