(* ===== verification/Store.v ===== *)
(** * The job store: [server/store.go]

    [InMemoryJobStore], the store of a server without a database and the reference for the
    SQL stores: jobs in flight, the runs they graduate into, the registry of domains, tags,
    batches, profiles and settings.  Every method holds the store's lock, so each is one
    step.  The tables that belong together form a record of their own.

    Times are nanoseconds since Go's zero time, so [0] is the unset one.  Fields that the
    store only copies are gathered in [copied] (from a job to its run) and in parameters:
    [X] for what the store does not read of a log entry, [N] for a nameserver timing, [C]
    for the configuration of a job.  A [*Domain] is registered under its name and under its
    number; here the name leads to the number. *)

From S2P Require Import Prelude GoStrings Scoring.
From Stdlib Require Import SpecFloat.

Local Open Scope list_scope.

Definition zero_time : Z := 0.

(** ** Data: [server/models.go] *)

Inductive JobStatus :=
| JobQueued | JobRunning | JobSucceeded | JobFailed | JobCanceled | JobExpired | JobPaused.

#[export] Instance JobStatus_eq_dec : EqDecision JobStatus.
Proof. solve_decision. Defined.

Definition status_string (st : JobStatus) : string :=
  match st with
  | JobQueued => "queued" | JobRunning => "running" | JobSucceeded => "succeeded"
  | JobFailed => "failed" | JobCanceled => "canceled" | JobExpired => "expired"
  | JobPaused => "paused"
  end.

Definition isTerminalStatus (st : JobStatus) : bool :=
  match st with
  | JobSucceeded | JobFailed | JobCanceled | JobExpired => true
  | JobQueued | JobRunning | JobPaused => false
  end.

Section data.
Context {X N C : Type}.

(** [engine.LogEntry] *)
Record LogEntry := { le_Module : string; le_Tag : string; le_Level : string; le_rest : X }.

(** What [GraduateJob] and [jobFromRun] copy between a job and its run. *)
Record copied := {
  c_Priority : Z;
  c_Profile : string;
  c_ProfileName : string;
  c_EffectiveProfile : string;
  c_NameserverTimings : list N;
  c_Error : string;
  c_ClientIP : string;
  c_ClientUserAgent : string;
  c_ClientVia : string
}.

Record Job := {
  j_ID : string;
  j_PublicID : string;
  j_BatchID : string;
  j_DomainID : Z;
  j_Domain : string;
  j_Status : JobStatus;
  j_FinishedAt : Z;
  j_SeverityTotals : option (Z * Z * Z * Z);
  j_CreatedAt : Z;
  j_StartedAt : Z;
  j_Progress : Z;
  j_ProfileID : option Z;
  j_copied : copied;
  j_Score : option Z;
  j_Grade : option string;
  j_config : C;
  j_DNSSECChainJSON : string
}.

(** The severities are NOTICE, WARNING, ERROR and CRITICAL. *)
Record Run := {
  r_ID : string;
  r_DomainID : Z;
  r_Domain : string;
  r_BatchID : string;
  r_Status : JobStatus;
  r_CreatedAt : Z;
  r_StartedAt : Z;
  r_FinishedAt : Z;
  r_DurationMs : Z;
  r_Sev : Z * Z * Z * Z;
  r_WorstLevel : string;
  r_EntryCount : Z;
  r_ProfileID : option Z;
  r_copied : copied;
  r_PublicID : string;
  r_Score : option Z;
  r_Grade : option string
}.

(** A stored entry: a row of the log of a run. *)
Record Entry := { e_ID : Z; e_RunID : string; e_DomainID : Z; e_log : LogEntry }.

Record Domain := {
  d_ID : Z;
  d_Name : string;
  d_LatestRunID : string;
  d_LatestRunAt : Z;
  d_LatestStatus : string;
  d_LatestLevel : string;
  d_LatestScore : option Z;
  d_LatestGrade : option string;
  d_CreatedAt : Z;
  d_RunCount : Z
}.

Record Tag := { t_Description : string; t_CreatedAt : Z; t_DefaultProfileID : option Z }.

Record Batch := {
  b_ID : string; b_Tag : string; b_CreatedAt : Z; b_DomainCount : Z; b_Description : string;
  b_SnapshotIntent : bool; b_Origin : string
}.

Record StoredProfile := {
  p_ID : Z; p_Name : string; p_Description : string; p_Config : string; p_Public : bool;
  p_SchemaVersion : string; p_CreatedAt : Z; p_UpdatedAt : Z
}.

(** ** The tables of [InMemoryJobStore] *)

Record job_tables := { jobs : gmap string Job; publicIDs : gmap string string }.
Record run_tables := {
  runs : gmap string Run;
  runPublicIDs : gmap string string;
  entries : gmap string (list Entry);
  dnssecChains : gmap string string;
  entryCounter : Z
}.
Record domain_tables := { domains : gmap string Z; domainsByID : gmap Z Domain; domainCounter : Z }.
Record tag_tables := {
  tags : gmap string Tag; domainTags : gmap Z (list string); tagDomains : gmap string (list Z)
}.
Record profile_tables := { profiles : gmap Z StoredProfile; profileCounter : Z }.

Record store := {
  scoringCfg : Scoring.Config;
  jt : job_tables;
  rt : run_tables;
  dt : domain_tables;
  tt : tag_tables;
  pt : profile_tables;
  batches : gmap string Batch;
  settings : gmap string string
}.
End data.
Arguments LogEntry : clear implicits.
Arguments copied : clear implicits.
Arguments Job : clear implicits.
Arguments Run : clear implicits.
Arguments Entry : clear implicits.
Arguments job_tables : clear implicits.
Arguments run_tables : clear implicits.
Arguments store : clear implicits.

Section operations.
Context `{GoUnicode} {X N C : Type} (jc_zero : C).
(** What the scoring leaves open: conversions out of range and the order of map iteration. *)
Context (oob : spec_float → Z) (weights : list (string * spec_float)).
Implicit Types (s : store X N C) (job : Job N C) (run : Run N).

Definition with_jt s t : store X N C :=
  {| scoringCfg := scoringCfg s; jt := t; rt := rt s; dt := dt s; tt := tt s; pt := pt s;
     batches := batches s; settings := settings s |}.
Definition with_rt s t : store X N C :=
  {| scoringCfg := scoringCfg s; jt := jt s; rt := t; dt := dt s; tt := tt s; pt := pt s;
     batches := batches s; settings := settings s |}.
Definition with_dt s t : store X N C :=
  {| scoringCfg := scoringCfg s; jt := jt s; rt := rt s; dt := t; tt := tt s; pt := pt s;
     batches := batches s; settings := settings s |}.
Definition with_tt s t : store X N C :=
  {| scoringCfg := scoringCfg s; jt := jt s; rt := rt s; dt := dt s; tt := t; pt := pt s;
     batches := batches s; settings := settings s |}.
Definition with_pt s t : store X N C :=
  {| scoringCfg := scoringCfg s; jt := jt s; rt := rt s; dt := dt s; tt := tt s; pt := t;
     batches := batches s; settings := settings s |}.
Definition with_batches s b : store X N C :=
  {| scoringCfg := scoringCfg s; jt := jt s; rt := rt s; dt := dt s; tt := tt s; pt := pt s;
     batches := b; settings := settings s |}.
Definition with_settings s m : store X N C :=
  {| scoringCfg := scoringCfg s; jt := jt s; rt := rt s; dt := dt s; tt := tt s; pt := pt s;
     batches := batches s; settings := m |}.

Definition NewInMemoryJobStore : store X N C :=
  {| scoringCfg := DefaultConfig;
     jt := {| jobs := ∅; publicIDs := ∅ |};
     rt := {| runs := ∅; runPublicIDs := ∅; entries := ∅; dnssecChains := ∅; entryCounter := 0 |};
     dt := {| domains := ∅; domainsByID := ∅; domainCounter := 0 |};
     tt := {| tags := ∅; domainTags := ∅; tagDomains := ∅ |};
     pt := {| profiles := ∅; profileCounter := 0 |};
     batches := ∅; settings := ∅ |}.

Definition SetScoringConfig s (cfg : Scoring.Config) : store X N C :=
  {| scoringCfg := cfg; jt := jt s; rt := rt s; dt := dt s; tt := tt s; pt := pt s;
     batches := batches s; settings := settings s |}.

(** *** Jobs *)

Definition with_PublicID job (p : string) : Job N C :=
  {| j_ID := j_ID job; j_PublicID := p; j_BatchID := j_BatchID job; j_DomainID := j_DomainID job;
     j_Domain := j_Domain job; j_Status := j_Status job; j_FinishedAt := j_FinishedAt job;
     j_SeverityTotals := j_SeverityTotals job; j_CreatedAt := j_CreatedAt job;
     j_StartedAt := j_StartedAt job; j_Progress := j_Progress job; j_ProfileID := j_ProfileID job;
     j_copied := j_copied job; j_Score := j_Score job; j_Grade := j_Grade job;
     j_config := j_config job; j_DNSSECChainJSON := j_DNSSECChainJSON job |}.

Definition with_ProfileID job (p : option Z) : Job N C :=
  {| j_ID := j_ID job; j_PublicID := j_PublicID job; j_BatchID := j_BatchID job; j_DomainID := j_DomainID job;
     j_Domain := j_Domain job; j_Status := j_Status job; j_FinishedAt := j_FinishedAt job;
     j_SeverityTotals := j_SeverityTotals job; j_CreatedAt := j_CreatedAt job;
     j_StartedAt := j_StartedAt job; j_Progress := j_Progress job; j_ProfileID := p;
     j_copied := j_copied job; j_Score := j_Score job; j_Grade := j_Grade job;
     j_config := j_config job; j_DNSSECChainJSON := j_DNSSECChainJSON job |}.

(** [Create]; [generated] is what [GeneratePublicID] returns. *)
Definition Create s job (generated : string) : result (store X N C * Job N C) string :=
  match jobs (jt s) !! j_ID job with
  | Some _ => Err "job already exists"%string
  | None =>
      let job := if decide (j_PublicID job = "")%string then with_PublicID job generated else job in
      Ok (with_jt s {| jobs := <[j_ID job := job]> (jobs (jt s));
                       publicIDs := <[j_PublicID job := j_ID job]> (publicIDs (jt s)) |}, job)
  end.

Definition Update s job : result (store X N C) string :=
  match jobs (jt s) !! j_ID job with
  | None => Err "job not found"%string
  | Some _ => Ok (with_jt s {| jobs := <[j_ID job := job]> (jobs (jt s)); publicIDs := publicIDs (jt s) |})
  end.

Definition jobFromRun run : Job N C :=
  {| j_ID := r_ID run; j_PublicID := r_PublicID run; j_BatchID := r_BatchID run;
     j_DomainID := r_DomainID run; j_Domain := r_Domain run; j_Status := r_Status run;
     j_FinishedAt := r_FinishedAt run; j_SeverityTotals := Some (r_Sev run);
     j_CreatedAt := r_CreatedAt run; j_StartedAt := r_StartedAt run; j_Progress := 100;
     j_ProfileID := r_ProfileID run; j_copied := r_copied run; j_Score := r_Score run;
     j_Grade := r_Grade run; j_config := jc_zero; j_DNSSECChainJSON := "" |}.

Definition Get s (id : string) : option (Job N C) :=
  match jobs (jt s) !! id with
  | Some job => Some job
  | None => jobFromRun <$> runs (rt s) !! id
  end.

Definition GetByPublicID s (p : string) : option (Job N C) :=
  match publicIDs (jt s) !! p ≫= λ id, jobs (jt s) !! id with
  | Some job => Some job
  | None => jobFromRun <$> (runPublicIDs (rt s) !! p ≫= λ id, runs (rt s) !! id)
  end.

Definition GetRun s (id : string) : option (Run N) := runs (rt s) !! id.
Definition GetRunByPublicID s (p : string) : option (Run N) :=
  runPublicIDs (rt s) !! p ≫= λ id, runs (rt s) !! id.

Definition CountOutstandingJobsForBatch s (batchID : string) : Z :=
  Z.of_nat (size (filter (λ ij : string * Job N C,
    j_BatchID ij.2 = batchID ∧ j_Status ij.2 ∈ [JobQueued; JobRunning; JobPaused]) (jobs (jt s)))).

(** *** Domains *)

Definition getOrCreateDomainLocked s (name : string) (now : Z) : store X N C * Z :=
  match domains (dt s) !! name with
  | Some i => (s, i)
  | None =>
      let i := (domainCounter (dt s) + 1)%Z in
      (with_dt s {| domains := <[name := i]> (domains (dt s));
                    domainsByID := <[i := {| d_ID := i; d_Name := name; d_LatestRunID := "";
                        d_LatestRunAt := zero_time; d_LatestStatus := ""; d_LatestLevel := "";
                        d_LatestScore := None; d_LatestGrade := None; d_CreatedAt := now;
                        d_RunCount := 0 |}]> (domainsByID (dt s));
                    domainCounter := i |}, i)
  end.

Definition put_domain s (i : Z) (d : Domain) : store X N C :=
  with_dt s {| domains := domains (dt s); domainsByID := <[i := d]> (domainsByID (dt s));
               domainCounter := domainCounter (dt s) |}.

Definition GetDomain s (i : Z) : option (Domain * list string) :=
  (λ d, (d, default [] (domainTags (tt s) !! d_ID d))) <$> domainsByID (dt s) !! i.
Definition GetDomainByName s (name : string) : option (Domain * list string) :=
  domains (dt s) !! name ≫= GetDomain s.

Definition UpdateDomainLatest s (i : Z) (runID : string) (finishedAt : Z) (status level : string)
  : result (store X N C) string :=
  match domainsByID (dt s) !! i with
  | None => Err "domain not found"%string
  | Some d =>
      Ok (put_domain s i
        {| d_ID := d_ID d; d_Name := d_Name d; d_LatestRunID := runID; d_LatestRunAt := finishedAt;
           d_LatestStatus := status; d_LatestLevel := level; d_LatestScore := d_LatestScore d;
           d_LatestGrade := d_LatestGrade d; d_CreatedAt := d_CreatedAt d;
           d_RunCount := d_RunCount d + 1 |})
  end.

(** *** Graduation *)

Definition severity (level : string) (e : LogEntry X) : bool :=
  bool_decide (to_upper (trim_space (le_Level e)) = level).
Definition count_severity (level : string) (es : list (LogEntry X)) : Z :=
  Z.of_nat (length (List.filter (severity level) es)).

Definition computeWorstLevel (sev : Z * Z * Z * Z) : string :=
  let '(notice, warning, errCount, critical) := sev in
  if (0 <? critical)%Z then "CRITICAL"
  else if (0 <? errCount)%Z then "ERROR"
  else if (0 <? warning)%Z then "WARNING"
  else if (0 <? notice)%Z then "NOTICE"
  else "".

(** [Time.Sub], which saturates, and [Duration.Milliseconds]. *)
Definition sub_time (a b : Z) : Z := Z.max (- 2 ^ 63) (Z.min (2 ^ 63 - 1) (a - b)).
Definition durationMs job : Z :=
  if decide (j_StartedAt job = zero_time ∨ j_FinishedAt job = zero_time) then 0
  else Z.quot (sub_time (j_FinishedAt job) (j_StartedAt job)) 1000000.

Definition scoring_entry (e : LogEntry X) : Scoring.Entry :=
  {| Scoring.Module := le_Module e; Scoring.Tag := le_Tag e; Scoring.Level := le_Level e |}.

(** The score of a run; [None] is a panic of [scoring.Compute]. *)
Definition score_of (cfg : Scoring.Config) (st : JobStatus) (domain : string) (es : list (LogEntry X))
  : option (option (Z * string)) :=
  if decide (st = JobSucceeded) then
    match Scoring.Compute oob weights domain (scoring_entry <$> es) cfg with
    | Some r => Some (Some (Scoring.RScore r, Scoring.RGrade r))
    | None => None
    end
  else Some None.

Definition run_of job (domainID : Z) (es : list (LogEntry X)) (score : option (Z * string)) : Run N :=
  let sev := (count_severity "NOTICE" es, count_severity "WARNING" es,
              count_severity "ERROR" es, count_severity "CRITICAL" es) in
  {| r_ID := j_ID job; r_DomainID := domainID; r_Domain := j_Domain job; r_BatchID := j_BatchID job;
     r_Status := j_Status job; r_CreatedAt := j_CreatedAt job; r_StartedAt := j_StartedAt job;
     r_FinishedAt := j_FinishedAt job; r_DurationMs := durationMs job; r_Sev := sev;
     r_WorstLevel := computeWorstLevel sev; r_EntryCount := Z.of_nat (length es);
     r_ProfileID := j_ProfileID job; r_copied := j_copied job; r_PublicID := j_PublicID job;
     r_Score := fst <$> score; r_Grade := snd <$> score |}.

(** The rows of the log, numbered from the counter. *)
Definition stored_entries (first : Z) (runID : string) (domainID : Z) (es : list (LogEntry X))
  : list (Entry X) :=
  imap (λ n e, {| e_ID := first + 1 + Z.of_nat n; e_RunID := runID; e_DomainID := domainID; e_log := e |}) es.

Definition latest_of (d : Domain) run : Domain :=
  {| d_ID := d_ID d; d_Name := d_Name d; d_LatestRunID := r_ID run; d_LatestRunAt := r_FinishedAt run;
     d_LatestStatus := status_string (r_Status run); d_LatestLevel := r_WorstLevel run;
     d_LatestScore := r_Score run; d_LatestGrade := r_Grade run; d_CreatedAt := d_CreatedAt d;
     d_RunCount := d_RunCount d |}.

Definition bump (d : Domain) (n : Z) : Domain :=
  {| d_ID := d_ID d; d_Name := d_Name d; d_LatestRunID := d_LatestRunID d; d_LatestRunAt := d_LatestRunAt d;
     d_LatestStatus := d_LatestStatus d; d_LatestLevel := d_LatestLevel d;
     d_LatestScore := d_LatestScore d; d_LatestGrade := d_LatestGrade d; d_CreatedAt := d_CreatedAt d;
     d_RunCount := n |}.

Inductive graduation := Graduated | NotFound | GradPanic.

Definition GraduateJob s job (es : list (LogEntry X)) (now : Z) : store X N C * graduation :=
  match jobs (jt s) !! j_ID job with
  | None => (s, NotFound)
  | Some _ =>
      let '(s, i) := getOrCreateDomainLocked s (j_Domain job) now in
      match score_of (scoringCfg s) (j_Status job) (j_Domain job) es, domainsByID (dt s) !! i with
      | Some score, Some d =>
          let run := run_of job i es score in
          let s := put_domain s i (bump (latest_of d run) (d_RunCount d + 1)) in
          let r := rt s in
          let s := with_rt s
            {| runs := <[r_ID run := run]> (runs r);
               runPublicIDs := if decide (r_PublicID run = "")%string then runPublicIDs r
                               else <[r_PublicID run := r_ID run]> (runPublicIDs r);
               entries := <[r_ID run := stored_entries (entryCounter r) (r_ID run) i es]> (entries r);
               dnssecChains := if decide (j_DNSSECChainJSON job = "")%string then dnssecChains r
                               else <[r_ID run := j_DNSSECChainJSON job]> (dnssecChains r);
               entryCounter := entryCounter r + Z.of_nat (length es) |} in
          (with_jt s {| jobs := delete (j_ID job) (jobs (jt s));
                        publicIDs := delete (j_PublicID job) (publicIDs (jt s)) |}, Graduated)
      | _, _ => (s, GradPanic)
      end
  end.

Definition GetRunDNSSECChain s (runID : string) : option string := dnssecChains (rt s) !! runID.

(** *** Tags *)

Definition put_tag s (name : string) (t : Tag) : store X N C :=
  with_tt s {| tags := <[name := t]> (tags (tt s)); domainTags := domainTags (tt s);
               tagDomains := tagDomains (tt s) |}.

Definition CreateTag s (name description : string) (now : Z) : result (store X N C) string :=
  match tags (tt s) !! name with
  | Some _ => Err "tag already exists"%string
  | None => Ok (put_tag s name {| t_Description := description; t_CreatedAt := now; t_DefaultProfileID := None |})
  end.

Definition tags_of s (i : Z) : list string := default [] (domainTags (tt s) !! i).
Definition domains_of s (tag : string) : list Z := default [] (tagDomains (tt s) !! tag).

Definition tag_domain (tag : string) s (i : Z) : store X N C :=
  if decide (tag ∈ tags_of s i) then s
  else with_tt s {| tags := tags (tt s);
                    domainTags := <[i := tags_of s i ++ [tag]]> (domainTags (tt s));
                    tagDomains := <[tag := domains_of s tag ++ [i]]> (tagDomains (tt s)) |}.

Definition TagDomains s (tag : string) (ids : list Z) (now : Z) : store X N C :=
  let s := match tags (tt s) !! tag with
           | Some _ => s
           | None => put_tag s tag {| t_Description := ""; t_CreatedAt := now; t_DefaultProfileID := None |}
           end in
  foldl (tag_domain tag) s ids.

(** [GetTag]: the tag with its count of domains. *)
Definition GetTag s (name : string) : option (Tag * Z) :=
  (λ t, (t, Z.of_nat (length (domains_of s name)))) <$> tags (tt s) !! name.

Definition UpdateTag s (name description : string) : result (store X N C) string :=
  match tags (tt s) !! name with
  | None => Err "tag not found"%string
  | Some t => Ok (put_tag s name {| t_Description := description; t_CreatedAt := t_CreatedAt t;
                                    t_DefaultProfileID := t_DefaultProfileID t |})
  end.

Definition set_default_profile (t : Tag) (p : option Z) : Tag :=
  {| t_Description := t_Description t; t_CreatedAt := t_CreatedAt t; t_DefaultProfileID := p |}.

Definition SetTagDefaultProfile s (name : string) (p : option Z) : result (store X N C) string :=
  match tags (tt s) !! name with
  | None => Err "tag not found"%string
  | Some t =>
      match p with
      | Some i => match profiles (pt s) !! i with
                  | None => Err "profile not found"%string
                  | Some _ => Ok (put_tag s name (set_default_profile t p))
                  end
      | None => Ok (put_tag s name (set_default_profile t p))
      end
  end.

Definition without (tag : string) (l : list string) : list string :=
  List.filter (λ t, negb (bool_decide (t = tag))) l.

(** Drop a tag from the list of one domain. *)
Definition untag_domain (tag : string) s (i : Z) : store X N C :=
  with_tt s {| tags := tags (tt s); domainTags := <[i := without tag (tags_of s i)]> (domainTags (tt s));
               tagDomains := tagDomains (tt s) |}.

Definition DeleteTag s (name : string) : result (store X N C) string :=
  match tags (tt s) !! name with
  | None => Err "tag not found"%string
  | Some _ =>
      let s := foldl (untag_domain name) s (domains_of s name) in
      Ok (with_tt s {| tags := delete name (tags (tt s)); domainTags := domainTags (tt s);
                       tagDomains := delete name (tagDomains (tt s)) |})
  end.

Definition UntagDomains s (tag : string) (ids : list Z) : store X N C :=
  let kept := List.filter (λ i, negb (bool_decide (i ∈ ids))) (domains_of s tag) in
  let s := with_tt s {| tags := tags (tt s); domainTags := domainTags (tt s);
                        tagDomains := <[tag := kept]> (tagDomains (tt s)) |} in
  foldl (untag_domain tag) s ids.

(** *** Batches *)

Definition CreateBatch s (b : Batch) : store X N C := with_batches s (<[b_ID b := b]> (batches s)).
Definition GetBatch s (id : string) : option Batch := batches s !! id.

Definition SetBatchSnapshotIntent s (id : string) (intent : bool) : result (store X N C) string :=
  match batches s !! id with
  | None => Err "batch not found"%string
  | Some b => Ok (with_batches s (<[id := {| b_ID := b_ID b; b_Tag := b_Tag b; b_CreatedAt := b_CreatedAt b;
                     b_DomainCount := b_DomainCount b; b_Description := b_Description b;
                     b_SnapshotIntent := intent; b_Origin := b_Origin b |}]> (batches s)))
  end.

Definition in_batch (batchID : string) (ir : string * Run N) : Prop := r_BatchID ir.2 = batchID.
#[export] Instance in_batch_dec batchID ir : Decision (in_batch batchID ir).
Proof. unfold in_batch. apply _. Defined.

Definition BatchHasRuns s (batchID : string) : bool :=
  if decide (batchID = "")%string then false
  else bool_decide (filter (in_batch batchID) (runs (rt s)) ≠ ∅).

Definition public_ids (gone : gmap string (Run N)) : list string :=
  (λ ir : string * Run N, r_PublicID ir.2) <$> map_to_list gone.
Definition nonempty (l : list string) : list string :=
  List.filter (λ p, negb (bool_decide (p = "")%string)) l.

(** Remove runs, with the public identifiers [pids], their entries and chains. *)
Definition delete_runs s (gone : gmap string (Run N)) (pids : list string) : store X N C :=
  let r := rt s in
  let ids := (λ ir : string * Run N, ir.1) <$> map_to_list gone in
  with_rt s {| runs := foldr delete (runs r) ids;
               runPublicIDs := foldr delete (runPublicIDs r) pids;
               entries := foldr delete (entries r) ids;
               dnssecChains := foldr delete (dnssecChains r) ids;
               entryCounter := entryCounter r |}.

(** The most recent of the runs of a domain, the first met of equals; [order] is the order
    in which the map of runs is iterated. *)
Definition later (i : Z) (best : option (Run N)) (run : Run N) : option (Run N) :=
  if decide (r_DomainID run = i) then
    match best with
    | None => Some run
    | Some b => if (r_FinishedAt b <? r_FinishedAt run)%Z then Some run else best
    end
  else best.
Definition best_run (i : Z) (order : list (Run N)) : option (Run N) := foldl (later i) None order.

Definition runs_of s (i : Z) : Z :=
  Z.of_nat (size (filter (λ ir : string * Run N, r_DomainID ir.2 = i) (runs (rt s)))).

Definition no_latest (d : Domain) : Domain :=
  {| d_ID := d_ID d; d_Name := d_Name d; d_LatestRunID := ""; d_LatestRunAt := zero_time;
     d_LatestStatus := ""; d_LatestLevel := ""; d_LatestScore := None; d_LatestGrade := None;
     d_CreatedAt := d_CreatedAt d; d_RunCount := d_RunCount d |}.

(** The loop body of [DeleteBatch] for one affected domain. *)
Definition refresh_domain (gone : gmap string (Run N)) (order : Z → list (Run N)) s (i : Z) : store X N C :=
  match domainsByID (dt s) !! i with
  | None => s
  | Some d =>
      match gone !! d_LatestRunID d with
      | None => s
      | Some _ =>
          let d := match best_run i (order i) with
                   | Some run => latest_of (no_latest d) run
                   | None => no_latest d
                   end in
          put_domain s i (bump d (runs_of s i))
      end
  end.

(** [DeleteBatch]; [order] gives, for each domain, the order in which the remaining runs
    are visited. *)
Definition DeleteBatch s (batchID : string) (order : Z → list (Run N)) : result (store X N C) string :=
  if decide (batchID = "")%string then Err "batch id is required"%string
  else
    let gone := filter (in_batch batchID) (runs (rt s)) in
    let affected := list_to_set (C := gset Z) ((λ ir : string * Run N, r_DomainID ir.2) <$> map_to_list gone) ∖ {[0%Z]} in
    let s := delete_runs s gone (nonempty (public_ids gone)) in
    let gone_jobs := filter (λ ij : string * Job N C, j_BatchID ij.2 = batchID) (jobs (jt s)) in
    let s := with_jt s
      {| jobs := filter (λ ij : string * Job N C, ¬ j_BatchID ij.2 = batchID) (jobs (jt s));
         publicIDs := foldr delete (publicIDs (jt s))
           (nonempty ((λ ij : string * Job N C, j_PublicID ij.2) <$> map_to_list gone_jobs)) |} in
    let s := with_batches s (delete batchID (batches s)) in
    Ok (foldl (refresh_domain gone order) s (elements affected)).

(** *** Profiles and settings *)

Definition CreateProfile s (p : StoredProfile) (now : Z) : result (store X N C * StoredProfile) string :=
  if decide (map_Exists (λ _ q, p_Name q = p_Name p) (profiles (pt s))) then
    Err "profile name already exists"%string
  else
    let i := (profileCounter (pt s) + 1)%Z in
    let p := {| p_ID := i; p_Name := p_Name p; p_Description := p_Description p; p_Config := p_Config p;
                p_Public := p_Public p; p_SchemaVersion := p_SchemaVersion p;
                p_CreatedAt := if decide (p_CreatedAt p = zero_time) then now else p_CreatedAt p;
                p_UpdatedAt := if decide (p_UpdatedAt p = zero_time) then now else p_UpdatedAt p |} in
    Ok (with_pt s {| profiles := <[i := p]> (profiles (pt s)); profileCounter := i |}, p).

Definition UpdateProfile s (p : StoredProfile) (now : Z) : result (store X N C) string :=
  match profiles (pt s) !! p_ID p with
  | None => Err "profile not found"%string
  | Some _ =>
      if decide (map_Exists (λ _ q, p_Name q = p_Name p ∧ p_ID q ≠ p_ID p) (profiles (pt s))) then
        Err "profile name already exists"%string
      else
        let p' := {| p_ID := p_ID p; p_Name := p_Name p; p_Description := p_Description p;
                     p_Config := p_Config p; p_Public := p_Public p; p_SchemaVersion := p_SchemaVersion p;
                     p_CreatedAt := p_CreatedAt p; p_UpdatedAt := now |} in
        Ok (with_pt s {| profiles := <[p_ID p := p']> (profiles (pt s)); profileCounter := profileCounter (pt s) |})
  end.

Definition forget_profile_run (i : Z) run : Run N :=
  if decide (r_ProfileID run = Some i) then
    {| r_ID := r_ID run; r_DomainID := r_DomainID run; r_Domain := r_Domain run; r_BatchID := r_BatchID run;
       r_Status := r_Status run; r_CreatedAt := r_CreatedAt run; r_StartedAt := r_StartedAt run;
       r_FinishedAt := r_FinishedAt run; r_DurationMs := r_DurationMs run; r_Sev := r_Sev run;
       r_WorstLevel := r_WorstLevel run; r_EntryCount := r_EntryCount run; r_ProfileID := None;
       r_copied := r_copied run; r_PublicID := r_PublicID run; r_Score := r_Score run; r_Grade := r_Grade run |}
  else run.
Definition forget_profile_job (i : Z) job : Job N C :=
  if decide (j_ProfileID job = Some i) then with_ProfileID job None else job.
Definition forget_profile_tag (i : Z) (t : Tag) : Tag :=
  if decide (t_DefaultProfileID t = Some i) then set_default_profile t None else t.

Definition DeleteProfile s (i : Z) : result (store X N C) string :=
  match profiles (pt s) !! i with
  | None => Err "profile not found"%string
  | Some _ =>
      let s := with_pt s {| profiles := delete i (profiles (pt s)); profileCounter := profileCounter (pt s) |} in
      let s := with_tt s {| tags := forget_profile_tag i <$> tags (tt s); domainTags := domainTags (tt s);
                            tagDomains := tagDomains (tt s) |} in
      let s := with_jt s {| jobs := forget_profile_job i <$> jobs (jt s); publicIDs := publicIDs (jt s) |} in
      Ok (with_rt s {| runs := forget_profile_run i <$> runs (rt s); runPublicIDs := runPublicIDs (rt s);
                       entries := entries (rt s); dnssecChains := dnssecChains (rt s);
                       entryCounter := entryCounter (rt s) |})
  end.

Definition GetProfile s (i : Z) : option StoredProfile := profiles (pt s) !! i.

Definition GetSetting s (key : string) : option string := settings s !! key.
Definition SetSetting s (key v : string) : store X N C := with_settings s (<[key := v]> (settings s)).
Definition DeleteSetting s (key : string) : result (store X N C) string :=
  match settings s !! key with
  | None => Err "setting not found"%string
  | Some _ => Ok (with_settings s (delete key (settings s)))
  end.

(** *** Purging: the store and the number of runs deleted *)

Definition purge s (stale : string * Run N → Prop) `{∀ ir, Decision (stale ir)} : store X N C * Z :=
  let gone := filter stale (runs (rt s)) in (delete_runs s gone (public_ids gone), Z.of_nat (size gone)).

Definition older_than (cutoff : Z) (ir : string * Run N) : Prop :=
  isTerminalStatus (r_Status ir.2) = true ∧ r_FinishedAt ir.2 ≠ zero_time ∧ (r_FinishedAt ir.2 < cutoff)%Z.
#[export] Instance older_than_dec cutoff ir : Decision (older_than cutoff ir).
Proof. unfold older_than. apply _. Defined.

Definition PurgeOlderThan s (cutoff : Z) : store X N C * Z := purge s (older_than cutoff).

Definition tagged_run (ids : list Z) (ir : string * Run N) : Prop :=
  isTerminalStatus (r_Status ir.2) = true ∧ r_DomainID ir.2 ∈ ids.
#[export] Instance tagged_run_dec ids ir : Decision (tagged_run ids ir).
Proof. unfold tagged_run. apply _. Defined.

Definition PurgeByTag s (tag : string) : store X N C * Z := purge s (tagged_run (domains_of s tag)).
End operations.
