(* ===== verification/StoreFacts.v ===== *)
(** * The job store is consistent, and its operations do what they promise

    The well-formedness of the tables of [Store.v], the calls of the store as a step
    relation, the preservation of the one by the other, and the contracts of graduation, of
    the deletion of a batch and of the purges. *)

From S2P Require Import Prelude GoStrings Scoring Store.
From Stdlib Require Import SpecFloat.

Local Open Scope list_scope.

(** ** Consistency *)

(** The index of public identifiers matches the jobs. *)
Record jobs_wf {N C} (t : job_tables N C) : Prop := {
  jw_id : ∀ id j, jobs t !! id = Some j → j_ID j = id ∧ publicIDs t !! j_PublicID j = Some id;
  jw_public : ∀ p id, publicIDs t !! p = Some id → p ≠ ""%string ∧ ∃ j, jobs t !! id = Some j ∧ j_PublicID j = p
}.

(** The same for runs; a run has a log of the length it says, whose rows name it and its
    domain, and what is not a run has neither log nor chain; rows are numbered uniquely. *)
Record runs_wf {X N} (t : run_tables X N) : Prop := {
  rw_id : ∀ id r, runs t !! id = Some r →
    r_ID r = id ∧ r_PublicID r ≠ ""%string ∧ runPublicIDs t !! r_PublicID r = Some id;
  rw_public : ∀ p id, runPublicIDs t !! p = Some id → ∃ r, runs t !! id = Some r ∧ r_PublicID r = p;
  rw_entries : ∀ id r, runs t !! id = Some r → ∃ es, entries t !! id = Some es ∧
    Z.of_nat (length es) = r_EntryCount r ∧
    ∀ n e, es !! n = Some e → e_RunID e = id ∧ e_DomainID e = r_DomainID r ∧ (0 < e_ID e ≤ entryCounter t)%Z;
  rw_none : ∀ id, runs t !! id = None → entries t !! id = None ∧ dnssecChains t !! id = None;
  rw_unique : ∀ id1 es1 n1 e1 id2 es2 n2 e2,
    entries t !! id1 = Some es1 → es1 !! n1 = Some e1 →
    entries t !! id2 = Some es2 → es2 !! n2 = Some e2 → e_ID e1 = e_ID e2 → id1 = id2 ∧ n1 = n2;
  rw_counter : (0 ≤ entryCounter t)%Z
}.

(** Names and numbers of domains correspond one to one. *)
Record domains_wf (t : domain_tables) : Prop := {
  dw_name : ∀ n i, domains t !! n = Some i → ∃ d, domainsByID t !! i = Some d ∧ d_Name d = n;
  dw_id : ∀ i d, domainsByID t !! i = Some d →
    d_ID d = i ∧ (0 < i ≤ domainCounter t)%Z ∧ domains t !! d_Name d = Some i;
  dw_counter : (0 ≤ domainCounter t)%Z
}.

(** The two sides of the tag relation agree, without repetitions, on tags that exist. *)
Record tags_wf (t : tag_tables) : Prop := {
  tw_agree : ∀ tag i, tag ∈ default [] (domainTags t !! i) ↔ i ∈ default [] (tagDomains t !! tag);
  tw_tags : ∀ i, NoDup (default [] (domainTags t !! i));
  tw_domains : ∀ tag, NoDup (default [] (tagDomains t !! tag));
  tw_exists : ∀ tag i, i ∈ default [] (tagDomains t !! tag) → is_Some (tags t !! tag)
}.

Record profiles_wf (t : profile_tables) : Prop := {
  pw_id : ∀ i p, profiles t !! i = Some p → p_ID p = i ∧ (0 < i ≤ profileCounter t)%Z;
  pw_name : ∀ i j p q, profiles t !! i = Some p → profiles t !! j = Some q → p_Name p = p_Name q → i = j;
  pw_counter : (0 ≤ profileCounter t)%Z
}.

Record store_wf {X N C} (s : store X N C) : Prop := {
  wf_jobs : jobs_wf (jt s);
  wf_runs : runs_wf (rt s);
  wf_domains : domains_wf (dt s);
  wf_tags : tags_wf (tt s);
  wf_profiles : profiles_wf (pt s);
  (* no identifier names both a job and a run *)
  wf_disjoint : ∀ id j, jobs (jt s) !! id = Some j → runs (rt s) !! id = None;
  wf_public : ∀ p id, publicIDs (jt s) !! p = Some id → runPublicIDs (rt s) !! p = None;
  (* a run belongs to a domain of its name *)
  wf_run_domain : ∀ id r, runs (rt s) !! id = Some r →
    ∃ d, domainsByID (dt s) !! r_DomainID r = Some d ∧ d_Name d = r_Domain r;
  (* the default profile of a tag exists *)
  wf_default : ∀ n t i, tags (tt s) !! n = Some t → t_DefaultProfileID t = Some i →
    is_Some (profiles (pt s) !! i)
}.

Section consistency.
Context `{GoUnicode} {X N C : Type} (oob : spec_float → Z) (weights : list (string * spec_float)).
Implicit Types (s : store X N C) (job : Job N C) (run : Run N).

(** A call of a method that changes the store.  The premises are the callers' part:
    identifiers of new jobs and generated public identifiers are fresh, and a job handed
    back has the public identifier it was stored with. *)
Inductive step : store X N C → store X N C → Prop :=
| step_create s job generated s' job' :
    runs (rt s) !! j_ID job = None →
    (let p := if decide (j_PublicID job = "")%string then generated else j_PublicID job in
     p ≠ ""%string ∧ publicIDs (jt s) !! p = None ∧ runPublicIDs (rt s) !! p = None) →
    Create s job generated = Ok (s', job') → step s s'
| step_update s job old s' :
    jobs (jt s) !! j_ID job = Some old → j_PublicID job = j_PublicID old →
    Update s job = Ok s' → step s s'
| step_graduate s job es now :
    (∀ old, jobs (jt s) !! j_ID job = Some old → j_PublicID job = j_PublicID old) →
    step s (GraduateJob oob weights s job es now).1
| step_domain s name now : step s (getOrCreateDomainLocked s name now).1
| step_latest s i runID t st l s' : UpdateDomainLatest s i runID t st l = Ok s' → step s s'
| step_create_tag s n d now s' : CreateTag s n d now = Ok s' → step s s'
| step_tag s tag ids now : step s (TagDomains s tag ids now)
| step_update_tag s n d s' : UpdateTag s n d = Ok s' → step s s'
| step_default s n p s' : SetTagDefaultProfile s n p = Ok s' → step s s'
| step_delete_tag s n s' : DeleteTag s n = Ok s' → step s s'
| step_untag s tag ids : step s (UntagDomains s tag ids)
| step_create_batch s b : step s (CreateBatch s b)
| step_intent s b i s' : SetBatchSnapshotIntent s b i = Ok s' → step s s'
| step_delete_batch s b order s' : DeleteBatch s b order = Ok s' → step s s'
| step_create_profile s p now s' p' : CreateProfile s p now = Ok (s', p') → step s s'
| step_update_profile s p now s' : UpdateProfile s p now = Ok s' → step s s'
| step_delete_profile s i s' : DeleteProfile s i = Ok s' → step s s'
| step_set s k v : step s (SetSetting s k v)
| step_unset s k s' : DeleteSetting s k = Ok s' → step s s'
| step_purge_old s cutoff : step s (PurgeOlderThan s cutoff).1
| step_purge_tag s tag : step s (PurgeByTag s tag).1
| step_scoring s cfg : step s (SetScoringConfig s cfg).

Lemma empty_store_wf : store_wf (NewInMemoryJobStore : store X N C).
Proof.
  split; try split; simpl; intros *; rewrite ?lookup_empty; try done; try (by intros ?).
  - split; by intros ?%elem_of_nil.
  - constructor.
  - constructor.
  - by intros ?%elem_of_nil.
Qed.

(** *** Jobs *)

Lemma create_wf s job generated s' job' :
  store_wf s → runs (rt s) !! j_ID job = None →
  (let p := if decide (j_PublicID job = "")%string then generated else j_PublicID job in
   p ≠ ""%string ∧ publicIDs (jt s) !! p = None ∧ runPublicIDs (rt s) !! p = None) →
  Create s job generated = Ok (s', job') → store_wf s'.
Proof.
  intros [[J1 J2] HR HD HT HP Hdis Hpub Hrd Hdef] Hr Hp. unfold Create.
  destruct (jobs (jt s) !! j_ID job) eqn:Ej; [done|].
  set (job1 := if decide (j_PublicID job = "")%string then with_PublicID job generated else job).
  assert (Hid : j_ID job1 = j_ID job) by (unfold job1; by case_decide).
  assert (Hpid : j_PublicID job1 = if decide (j_PublicID job = "")%string then generated else j_PublicID job)
    by (unfold job1; by case_decide).
  rewrite <- Hpid, <- Hid in *. clearbody job1. destruct Hp as (Hne & Hp1 & Hp2). intros [= <- <-].
  split; simpl; try done.
  - split; simpl.
    + intros id j [[<- <-]|[Hi Hj]]%lookup_insert_Some; [by rewrite lookup_insert_eq|].
      destruct (J1 id j Hj) as [? Hq]. split; [done|]. rewrite lookup_insert_ne; [done|]. congruence.
    + intros p id [[<- <-]|[Hi Hj]]%lookup_insert_Some.
      * split; [done|]. exists job1. by rewrite lookup_insert_eq.
      * destruct (J2 p id Hj) as (? & j & Hj2 & <-). split; [done|]. exists j.
        rewrite lookup_insert_ne; [done|]. congruence.
  - intros id j [[<- <-]|[Hi Hj]]%lookup_insert_Some; [done|eauto].
  - intros p id [[<- <-]|[Hi Hj]]%lookup_insert_Some; [done|eauto].
Qed.

(** Replacing jobs by others of the same identifiers. *)
Lemma jobs_wf_fmap (t : job_tables N C) (f : Job N C → Job N C) :
  (∀ j, j_ID (f j) = j_ID j ∧ j_PublicID (f j) = j_PublicID j) →
  jobs_wf t → jobs_wf {| jobs := f <$> jobs t; publicIDs := publicIDs t |}.
Proof.
  intros Hf [J1 J2]. split; simpl.
  - intros id j. rewrite lookup_fmap. intros (j0 & Hj & ->)%fmap_Some. destruct (Hf j0) as [-> ->]. auto.
  - intros p id Hp. destruct (J2 p id Hp) as (? & j & Hj & <-). split; [done|]. exists (f j).
    rewrite lookup_fmap, Hj. split; [done|]. apply Hf.
Qed.

Lemma update_wf s job old s' :
  store_wf s → jobs (jt s) !! j_ID job = Some old → j_PublicID job = j_PublicID old →
  Update s job = Ok s' → store_wf s'.
Proof.
  intros [[J1 J2] HR HD HT HP Hdis Hpub Hrd Hdef] Ho Hp. unfold Update. rewrite Ho. intros [= <-].
  destruct (J1 _ _ Ho) as [_ Hpo]. split; simpl; try done.
  - split; simpl.
    + intros id j [[<- <-]|[Hi Hj]]%lookup_insert_Some; [by rewrite Hp|auto].
    + intros p id Hq. destruct (J2 p id Hq) as (? & j & Hj & <-). split; [done|].
      destruct (decide (id = j_ID job)) as [->|Hne].
      * exists job. rewrite lookup_insert_eq. split; [done|]. congruence.
      * exists j. by rewrite lookup_insert_ne.
  - intros id j [[<- <-]|[Hi Hj]]%lookup_insert_Some; eauto.
Qed.

(** *** Domains *)

Lemma domain_wf s name now :
  store_wf s →
  let '(s', i) := getOrCreateDomainLocked s name now in
  store_wf s' ∧ jt s' = jt s ∧ rt s' = rt s ∧ scoringCfg s' = scoringCfg s ∧ tt s' = tt s ∧
  (∀ j d, domainsByID (dt s) !! j = Some d → domainsByID (dt s') !! j = Some d) ∧
  ∃ d, domainsByID (dt s') !! i = Some d ∧ d_Name d = name.
Proof.
  intros [HJ HR [D1 D2 D3] HT HP Hdis Hpub Hrd Hdef]. unfold getOrCreateDomainLocked.
  destruct (domains (dt s) !! name) as [i|] eqn:En.
  - split; [by split|]. do 4 (split; [done|]). split; [done|]. eauto.
  - set (i := (domainCounter (dt s) + 1)%Z).
    assert (Hfresh : ∀ d, domainsByID (dt s) !! i ≠ Some d)
      by (intros d Hd; destruct (D2 _ _ Hd) as (_ & ? & _); unfold i in *; lia).
    assert (Hold : ∀ j d, domainsByID (dt s) !! j = Some d → j ≠ i) by (intros j d Hd ->; by apply (Hfresh d)).
    split; [|do 4 (split; [done|]); split].
    + split; simpl; try done.
      * split; simpl.
        -- intros n j [[<- <-]|[Hn Hj]]%lookup_insert_Some; [eexists; by rewrite lookup_insert_eq|].
           destruct (D1 n j Hj) as (d & Hd & ?). exists d. rewrite lookup_insert_ne; [done|].
           intros <-. by apply (Hfresh d).
        -- intros j d [[<- <-]|[Hn Hj]]%lookup_insert_Some; simpl.
           ++ split; [done|]. rewrite lookup_insert_eq. split; [unfold i; lia|done].
           ++ destruct (D2 j d Hj) as (? & ? & Hdn). split; [done|]. split; [unfold i; lia|].
              rewrite lookup_insert_ne; [done|]. congruence.
        -- unfold i. lia.
      * intros id r Hr. destruct (Hrd id r Hr) as (d & Hd & ?). exists d. rewrite lookup_insert_ne; [done|].
        intros E. by apply (Hold _ _ Hd).
    + intros j d Hd. simpl. rewrite lookup_insert_ne; [done|]. intros E. by apply (Hold _ _ Hd).
    + simpl. eexists. by rewrite lookup_insert_eq.
Qed.

(** A domain may change in everything but its number and name. *)
Lemma put_domain_wf s i d d' :
  store_wf s → domainsByID (dt s) !! i = Some d → d_ID d' = d_ID d → d_Name d' = d_Name d →
  store_wf (put_domain s i d').
Proof.
  intros [HJ HR [D1 D2 D3] HT HP Hdis Hpub Hrd Hdef] Hd Hid Hn. split; simpl; try done.
  - split; simpl; [..|done].
    + intros n j Hj. destruct (D1 n j Hj) as (e & He & <-). destruct (decide (i = j)) as [<-|Hne].
      * exists d'. rewrite lookup_insert_eq. split; [done|]. congruence.
      * exists e. by rewrite lookup_insert_ne.
    + intros j e [[<- <-]|[Hne He]]%lookup_insert_Some; [|auto]. rewrite Hid, Hn. auto.
  - intros id r Hr. destruct (Hrd id r Hr) as (e & He & <-). destruct (decide (i = r_DomainID r)) as [->|Hne].
    + exists d'. rewrite lookup_insert_eq. split; [done|]. congruence.
    + exists e. by rewrite lookup_insert_ne.
Qed.

Lemma latest_wf s i runID t st l s' :
  store_wf s → UpdateDomainLatest s i runID t st l = Ok s' → store_wf s'.
Proof.
  intros W. unfold UpdateDomainLatest. destruct (domainsByID (dt s) !! i) as [d|] eqn:Ed; [|done].
  intros [= <-]. by apply (put_domain_wf s i d).
Qed.

(** *** Graduation *)

Lemma stored_entries_lookup first runID i (es : list (LogEntry X)) n e :
  stored_entries first runID i es !! n = Some e →
  e_RunID e = runID ∧ e_DomainID e = i ∧ e_ID e = (first + 1 + Z.of_nat n)%Z ∧ n < length es.
Proof.
  unfold stored_entries. rewrite list_lookup_imap. intros (x & Hx & ->)%fmap_Some. simpl.
  apply lookup_lt_Some in Hx. done.
Qed.

(** Adding a run to the tables of the runs. *)
Lemma add_run_wf (t : run_tables X N) run es chains :
  runs_wf t → runs t !! r_ID run = None → runPublicIDs t !! r_PublicID run = None →
  r_PublicID run ≠ ""%string → r_EntryCount run = Z.of_nat (length es) →
  (∀ id, id ≠ r_ID run → chains !! id = dnssecChains t !! id) →
  runs_wf {| runs := <[r_ID run := run]> (runs t);
             runPublicIDs := <[r_PublicID run := r_ID run]> (runPublicIDs t);
             entries := <[r_ID run := stored_entries (entryCounter t) (r_ID run) (r_DomainID run) es]> (entries t);
             dnssecChains := chains;
             entryCounter := entryCounter t + Z.of_nat (length es) |}.
Proof.
  intros [R1 R2 R3 R4 R5 R6] Hr Hp Hpne Hc Hch. split; simpl.
  - intros id r [[<- <-]|[Hne Hi]]%lookup_insert_Some; [by rewrite lookup_insert_eq|].
    destruct (R1 id r Hi) as (? & ? & Hq). split; [done|]. split; [done|]. rewrite lookup_insert_ne; congruence.
  - intros p id [[<- <-]|[Hne Hi]]%lookup_insert_Some; [exists run; by rewrite lookup_insert_eq|].
    destruct (R2 p id Hi) as (r & Hi2 & <-). exists r. rewrite lookup_insert_ne; [done|]. congruence.
  - intros id r [[<- <-]|[Hne Hi]]%lookup_insert_Some.
    + eexists. rewrite lookup_insert_eq. split; [done|]. unfold stored_entries at 1. rewrite length_imap.
      split; [done|]. intros n e (? & ? & -> & ?)%stored_entries_lookup. split; [done|]. split; [done|]. lia.
    + destruct (R3 id r Hi) as (l & Hl & Hn & He). exists l. rewrite lookup_insert_ne by done.
      split; [done|]. split; [done|]. intros n e Hne2. destruct (He n e Hne2) as (? & ? & ?).
      split; [done|]. split; [done|]. lia.
  - intros id [Hi Hne]%lookup_insert_None. rewrite lookup_insert_ne, Hch by done. auto.
  - assert (Hold : ∀ id l n e, entries t !! id = Some l → l !! n = Some e → (e_ID e ≤ entryCounter t)%Z).
    { intros id l n e Hl He. destruct (runs t !! id) as [r|] eqn:Er.
      - destruct (R3 id r Er) as (l' & Hl' & _ & Hb). rewrite Hl in Hl'. injection Hl' as <-. apply (Hb n e He).
      - destruct (R4 id Er). congruence. }
    intros id1 es1 n1 e1 id2 es2 n2 e2 H1 He1 H2 He2 E.
    apply lookup_insert_Some in H1 as [[<- <-]|[Hn1 H1]], H2 as [[<- <-]|[Hn2 H2]];
      try apply stored_entries_lookup in He1 as (_ & _ & I1 & _); try apply stored_entries_lookup in He2 as (_ & _ & I2 & _).
    + split; [done|]. lia.
    + pose proof (Hold _ _ _ _ H2 He2). lia.
    + pose proof (Hold _ _ _ _ H1 He1). lia.
    + by eapply R5.
  - lia.
Qed.

Lemma remove_job_wf (t : job_tables N C) job old :
  jobs_wf t → jobs t !! j_ID job = Some old → j_PublicID job = j_PublicID old →
  jobs_wf {| jobs := delete (j_ID job) (jobs t); publicIDs := delete (j_PublicID job) (publicIDs t) |}.
Proof.
  intros [J1 J2] Ho Hp. destruct (J1 _ _ Ho) as [_ Hpo]. split; simpl.
  - intros id j [Hne Hj]%lookup_delete_Some. destruct (J1 id j Hj) as [? Hq]. split; [done|].
    rewrite lookup_delete_ne; [done|]. congruence.
  - intros p id [Hne Hi]%lookup_delete_Some. destruct (J2 p id Hi) as (? & j & Hj & <-).
    split; [done|]. exists j. rewrite lookup_delete_ne; [done|]. intros <-.
    rewrite Ho in Hj. injection Hj as <-. congruence.
Qed.

(** What a graduation does, on every branch. *)
Lemma graduate_cases s job es now :
  store_wf s → (∀ old, jobs (jt s) !! j_ID job = Some old → j_PublicID job = j_PublicID old) →
  let '(s', g) := GraduateJob oob weights s job es now in
  store_wf s' ∧
  match g with
  | NotFound => jobs (jt s) !! j_ID job = None ∧ s' = s
  | GradPanic => score_of oob weights (scoringCfg s) (j_Status job) (j_Domain job) es = None ∧
      jt s' = jt s ∧ rt s' = rt s
  | Graduated => ∃ i d score,
      score_of oob weights (scoringCfg s) (j_Status job) (j_Domain job) es = Some score ∧
      domainsByID (dt (getOrCreateDomainLocked s (j_Domain job) now).1) !! i = Some d ∧
      d_Name d = j_Domain job ∧
      runs (rt s') = <[j_ID job := run_of job i es score]> (runs (rt s)) ∧
      entries (rt s') = <[j_ID job := stored_entries (entryCounter (rt s)) (j_ID job) i es]> (entries (rt s)) ∧
      jobs (jt s') = delete (j_ID job) (jobs (jt s)) ∧
      publicIDs (jt s') !! j_PublicID job = None ∧
      runPublicIDs (rt s') !! j_PublicID job = Some (j_ID job) ∧
      domainsByID (dt s') !! i = Some (bump (latest_of d (run_of job i es score)) (d_RunCount d + 1))
  end.
Proof.
  intros W Hpub. unfold GraduateJob. destruct (jobs (jt s) !! j_ID job) as [old|] eqn:Ej; [|done].
  specialize (Hpub old eq_refl). pose proof (domain_wf s (j_Domain job) now W) as Hd.
  destruct (getOrCreateDomainLocked s (j_Domain job) now) as [s1 i].
  destruct Hd as (W1 & Ejt & Ert & Ecfg & Ett & Hkeep & d & Hd & Hn). rewrite Ecfg.
  destruct (score_of oob weights (scoringCfg s) (j_Status job) (j_Domain job) es) as [score|] eqn:Es;
    [|by rewrite Ejt, Ert].
  rewrite Hd. simpl. destruct (jw_id _ (wf_jobs _ W) _ _ Ej) as [_ Hpi].
  destruct (jw_public _ (wf_jobs _ W) _ _ Hpi) as [Hne _]. rewrite <- Hpub in Hpi, Hne.
  rewrite (decide_False (P := j_PublicID job = ""%string)) by done. split.
  - pose proof (put_domain_wf s1 i d (bump (latest_of d (run_of job i es score)) (d_RunCount d + 1))
      W1 Hd eq_refl eq_refl) as [HJ HR HD HT HP Hdis Hpb Hrd Hdef]. simpl in *.
    split; simpl; try done; rewrite ?Ejt in *.
    + by apply (remove_job_wf _ job old).
    + apply (add_run_wf (rt s1) (run_of job i es score) es); simpl; try done.
      * by apply (Hdis _ old).
      * by apply (Hpb _ (j_ID job)).
      * intros id Hid. case_decide; [done|]. by rewrite lookup_insert_ne.
    + intros id j [Hne2 Hj]%lookup_delete_Some. rewrite lookup_insert_ne by done. by apply (Hdis id j).
    + intros p id [Hne2 Hp]%lookup_delete_Some. rewrite lookup_insert_ne by done. by apply (Hpb p id).
    + intros id r [[<- <-]|[Hne2 Hr]]%lookup_insert_Some; [|by apply (Hrd id r)].
      eexists. simpl. rewrite lookup_insert_eq. done.
  - exists i, d, score. split; [done|]. split; [done|]. split; [done|]. rewrite Ejt, Ert.
    split; [done|]. split; [done|]. split; [done|]. rewrite lookup_delete_eq, lookup_insert_eq.
    split; [done|]. split; [done|]. by rewrite lookup_insert_eq.
Qed.

(** *** Deleting runs *)

Lemma foldr_delete_lookup {K A} `{Countable K} (m : gmap K A) (ks : list K) k :
  foldr delete m ks !! k = if decide (k ∈ ks) then None else m !! k.
Proof.
  induction ks as [|k' ks IH]; simpl; [done|].
  destruct (decide (k = k')) as [->|Hne].
  - rewrite lookup_delete_eq, decide_True; [done|]. apply list_elem_of_here.
  - rewrite lookup_delete_ne, IH by done. apply decide_ext. rewrite elem_of_cons. naive_solver.
Qed.

Lemma ids_elem {A} (m : gmap string A) id :
  id ∈ (λ ir : string * A, ir.1) <$> map_to_list m ↔ is_Some (m !! id).
Proof.
  rewrite list_elem_of_fmap. split.
  - intros ([i r] & -> & Hi%elem_of_map_to_list). by exists r.
  - intros [r Hr]. exists (id, r). split; [done|]. by apply elem_of_map_to_list.
Qed.

Lemma public_ids_elem (m : gmap string (Run N)) p :
  p ∈ public_ids m ↔ ∃ id r, m !! id = Some r ∧ r_PublicID r = p.
Proof.
  unfold public_ids. rewrite list_elem_of_fmap. split.
  - intros ([i r] & -> & Hi%elem_of_map_to_list). by exists i, r.
  - intros (id & r & Hr & <-). exists (id, r). split; [done|]. by apply elem_of_map_to_list.
Qed.

Lemma nonempty_elem p l : p ∈ nonempty l ↔ p ∈ l ∧ p ≠ ""%string.
Proof.
  unfold nonempty. rewrite list_elem_of_In, filter_In, <- list_elem_of_In.
  by rewrite negb_true_iff, bool_decide_eq_false.
Qed.

(** The rows of the deleted runs are gone, all others are untouched. *)
Lemma delete_runs_lookup s (gone : gmap string (Run N)) pids id :
  runs (rt (delete_runs s gone pids)) !! id = (if decide (is_Some (gone !! id)) then None else runs (rt s) !! id) ∧
  entries (rt (delete_runs s gone pids)) !! id = (if decide (is_Some (gone !! id)) then None else entries (rt s) !! id) ∧
  dnssecChains (rt (delete_runs s gone pids)) !! id =
    (if decide (is_Some (gone !! id)) then None else dnssecChains (rt s) !! id).
Proof.
  simpl. rewrite !foldr_delete_lookup.
  rewrite !(decide_ext _ _ _ _ (ids_elem gone id)). done.
Qed.

Lemma runPublicIDs_delete s (gone : gmap string (Run N)) pids p :
  runPublicIDs (rt (delete_runs s gone pids)) !! p = if decide (p ∈ pids) then None else runPublicIDs (rt s) !! p.
Proof. simpl. apply foldr_delete_lookup. Qed.

Lemma delete_runs_wf s (gone : gmap string (Run N)) pids :
  store_wf s → gone ⊆ runs (rt s) → (∀ p, p ∈ pids ↔ p ∈ public_ids gone) →
  store_wf (delete_runs s gone pids).
Proof.
  intros [HJ [R1 R2 R3 R4 R5 R6] HD HT HP Hdis Hpub Hrd Hdef] Hsub Hpids.
  assert (Hk : ∀ id r, runs (rt (delete_runs s gone pids)) !! id = Some r →
    gone !! id = None ∧ runs (rt s) !! id = Some r).
  { intros id r. rewrite (proj1 (delete_runs_lookup s gone pids id)).
    destruct (gone !! id); [by rewrite decide_True|]. rewrite decide_False; [done|]. by intros []. }
  assert (Hpk : ∀ p id, runPublicIDs (rt (delete_runs s gone pids)) !! p = Some id →
    (p ∉ pids) ∧ runPublicIDs (rt s) !! p = Some id).
  { intros p id. rewrite runPublicIDs_delete. by case_decide. }
  assert (Hstay : ∀ id r, runs (rt s) !! id = Some r → gone !! id = None → r_PublicID r ∉ pids).
  { intros id r Hr Hg (id2 & r2 & Hr2 & E)%Hpids%public_ids_elem.
    pose proof (lookup_weaken _ _ _ _ Hr2 Hsub) as Hr3.
    destruct (R1 _ _ Hr) as (_ & _ & Hp1). destruct (R1 _ _ Hr3) as (_ & _ & Hp2). congruence. }
  split; try done.
  - split; [..|done].
    + intros id r [Hg Hr]%Hk. destruct (R1 id r Hr) as (? & ? & Hp). split; [done|]. split; [done|].
      rewrite runPublicIDs_delete, decide_False; [done|]. by eapply Hstay.
    + intros p id [Hn Hp]%Hpk. destruct (R2 p id Hp) as (r & Hr & <-). exists r. split; [|done].
      rewrite (proj1 (delete_runs_lookup s gone pids id)), decide_False; [done|]. intros [r' Hg].
      apply Hn, Hpids, public_ids_elem. exists id, r'. split; [done|].
      pose proof (lookup_weaken _ _ _ _ Hg Hsub). congruence.
    + intros id r [Hg Hr]%Hk. destruct (R3 id r Hr) as (es & He & ?). exists es. split; [|done].
      destruct (delete_runs_lookup s gone pids id) as (_ & -> & _). rewrite decide_False; [done|].
      rewrite Hg. by intros [].
    + intros id. destruct (delete_runs_lookup s gone pids id) as (-> & -> & ->).
      case_decide; [done|]. apply R4.
    + intros id1 es1 n1 e1 id2 es2 n2 e2.
      destruct (delete_runs_lookup s gone pids id1) as (_ & -> & _).
      destruct (delete_runs_lookup s gone pids id2) as (_ & -> & _).
      case_decide; [done|]. intros H1 H2. case_decide; [done|]. eauto.
  - intros id j Hj. rewrite (proj1 (delete_runs_lookup s gone pids id)).
    case_decide; [done|]. by apply (Hdis id j).
  - intros p id Hp. rewrite runPublicIDs_delete. case_decide; [done|]. by apply (Hpub p id).
  - intros id r [_ Hr]%Hk. by apply (Hrd id r).
Qed.

Lemma public_nonempty s (gone : gmap string (Run N)) p :
  store_wf s → gone ⊆ runs (rt s) → (p ∈ nonempty (public_ids gone) ↔ p ∈ public_ids gone).
Proof.
  intros W Hsub. rewrite nonempty_elem, public_ids_elem. split; [tauto|].
  intros (id & r & Hr & <-). split; [eauto|].
  by destruct (rw_id _ (wf_runs _ W) _ _ (lookup_weaken _ _ _ _ Hr Hsub)) as (_ & ? & _).
Qed.

Lemma purge_wf s (stale : string * Run N → Prop) `{∀ ir, Decision (stale ir)} :
  store_wf s → store_wf (purge s stale).1.
Proof. intros W. apply delete_runs_wf; [done|apply map_filter_subseteq|done]. Qed.

(** *** Tags *)

Lemma put_tag_wf s name t :
  store_wf s → (∀ i, t_DefaultProfileID t = Some i → is_Some (profiles (pt s) !! i)) →
  store_wf (put_tag s name t).
Proof.
  intros [HJ HR HD [T1 T2 T3 T4] HP Hdis Hpub Hrd Hdef] Ht. split; try done; simpl.
  - split; simpl; try done. intros tag i Hi%T4. destruct (decide (name = tag)) as [->|];
      [rewrite lookup_insert_eq; by eexists|by rewrite lookup_insert_ne].
  - intros n t' i [[<- <-]|[_ Ht']]%lookup_insert_Some; [apply Ht|by apply (Hdef n)].
Qed.

(** Changes of the two sides of the relation that keep them together. *)
Lemma relation_wf s (dts : gmap Z (list string)) (tds : gmap string (list Z)) :
  store_wf s → tags_wf {| tags := tags (tt s); domainTags := dts; tagDomains := tds |} →
  store_wf (with_tt s {| tags := tags (tt s); domainTags := dts; tagDomains := tds |}).
Proof. intros [HJ HR HD HT HP Hdis Hpub Hrd Hdef] W. by split. Qed.

Lemma default_insert {K A} `{Countable K} (m : gmap K (list A)) k l k' :
  default [] (<[k := l]> m !! k') = if decide (k = k') then l else default [] (m !! k').
Proof. case_decide as E; [subst; by rewrite lookup_insert_eq|by rewrite lookup_insert_ne]. Qed.

Lemma NoDup_snoc {A} (l : list A) x : NoDup l → x ∉ l → NoDup (l ++ [x]).
Proof.
  intros Hl Hx. apply NoDup_app. split; [done|]. split; [|apply NoDup_singleton].
  intros y Hy ->%list_elem_of_singleton. done.
Qed.

Lemma tag_domain_wf tag s i :
  store_wf s → is_Some (tags (tt s) !! tag) →
  store_wf (tag_domain tag s i) ∧ tags (tt (tag_domain tag s i)) = tags (tt s).
Proof.
  intros W Ht. unfold tag_domain. case_decide as Hin; [done|]. split; [|done].
  apply relation_wf; [done|]. destruct (wf_tags _ W) as [T1 T2 T3 T4].
  assert (Hni : i ∉ domains_of s tag) by (intros Hi%T1; done).
  split; simpl.
  - intros tag' i'. rewrite !default_insert. unfold tags_of, domains_of.
    destruct (decide (i = i')) as [<-|Hi], (decide (tag = tag')) as [<-|Hg];
      rewrite ?elem_of_app, ?list_elem_of_singleton, ?T1; naive_solver.
  - intros i'. rewrite default_insert. case_decide; [apply NoDup_snoc; [apply T2|done]|apply T2].
  - intros tag'. rewrite default_insert. case_decide; [apply NoDup_snoc; [apply T3|done]|apply T3].
  - intros tag' i'. rewrite default_insert. case_decide; [by subst|apply T4].
Qed.

Lemma tag_domains_wf s tag ids now : store_wf s → store_wf (TagDomains s tag ids now).
Proof.
  intros W. unfold TagDomains. set (s1 := match tags (tt s) !! tag with Some _ => s | None => _ end).
  assert (store_wf s1 ∧ is_Some (tags (tt s1) !! tag)) as [W1 Ht].
  { unfold s1. destruct (tags (tt s) !! tag) eqn:E; [by rewrite E; eauto|]. split.
    - apply put_tag_wf; [done|]. done.
    - simpl. rewrite lookup_insert_eq. by eexists. }
  clearbody s1. clear W. revert s1 W1 Ht. induction ids as [|i ids IH]; intros s1 W1 Ht; simpl; [done|].
  destruct (tag_domain_wf tag s1 i W1 Ht) as [W2 E]. apply IH; [done|]. by rewrite E.
Qed.

Lemma without_elem tag t l : t ∈ without tag l ↔ t ∈ l ∧ t ≠ tag.
Proof.
  unfold without. rewrite list_elem_of_In, filter_In, <- list_elem_of_In.
  by rewrite negb_true_iff, bool_decide_eq_false.
Qed.

Lemma without_nodup tag l : NoDup l → NoDup (without tag l).
Proof. intros. by apply NoDup_ListNoDup, List.NoDup_filter, NoDup_ListNoDup. Qed.

(** Dropping a tag from the lists of some domains. *)
Lemma untag_spec tag ids s :
  ∃ dts, foldl (untag_domain tag) s ids =
      with_tt s {| tags := tags (tt s); domainTags := dts; tagDomains := tagDomains (tt s) |} ∧
    (∀ i t, t ∈ default [] (dts !! i) ↔ t ∈ tags_of s i ∧ (t ≠ tag ∨ i ∉ ids)) ∧
    (∀ i, NoDup (tags_of s i) → NoDup (default [] (dts !! i))).
Proof.
  revert s. induction ids as [|i ids IH]; intros s; simpl.
  - exists (domainTags (tt s)). split; [by destruct s as [? ? ? ? []]|]. split; [|done].
    intros i t. unfold tags_of. split; [|tauto]. intros ?. split; [done|]. right. by intros ?%elem_of_nil.
  - destruct (IH (untag_domain tag s i)) as (dts & E & Hin & Hnd). exists dts.
    split; [by rewrite E|]. unfold tags_of in *. simpl in *. split.
    + intros j t. rewrite Hin, default_insert. destruct (decide (i = j)) as [<-|Hne].
      * rewrite without_elem. rewrite elem_of_cons. naive_solver.
      * rewrite elem_of_cons. naive_solver.
    + intros j Hj. apply Hnd. rewrite default_insert. case_decide; [|done]. subst. by apply without_nodup.
Qed.

Lemma delete_tag_wf s name s' : store_wf s → DeleteTag s name = Ok s' → store_wf s'.
Proof.
  intros W. unfold DeleteTag. destruct (tags (tt s) !! name) as [tg|] eqn:Et; [|done].
  destruct (untag_spec name (domains_of s name) s) as (dts & -> & Hin & Hnd). simpl. intros [= <-].
  pose proof W as [HJ HR HD [T1 T2 T3 T4] HP Hdis Hpub Hrd Hdef]. split; try done; simpl.
  - assert (Hd : ∀ tag, default [] (delete name (tagDomains (tt s)) !! tag) =
                        if decide (name = tag) then [] else domains_of s tag).
    { intros tag. case_decide as E; [subst; by rewrite lookup_delete_eq|by rewrite lookup_delete_ne]. }
    split; simpl.
    + intros tag i. rewrite Hin, Hd. unfold tags_of. rewrite T1. unfold domains_of.
      case_decide as E; [subst|naive_solver]. rewrite elem_of_nil. tauto.
    + intros i. apply Hnd, T2.
    + intros tag. rewrite Hd. case_decide; [constructor|apply T3].
    + intros tag i. rewrite Hd. case_decide as E; [by intros ?%elem_of_nil|].
      intros Hi%T4. by rewrite lookup_delete_ne.
  - intros n t i [_ Ht]%lookup_delete_Some. by apply (Hdef n).
Qed.

Lemma untag_wf s tag ids : store_wf s → store_wf (UntagDomains s tag ids).
Proof.
  intros W. unfold UntagDomains. set (kept := List.filter _ _).
  assert (Hk : ∀ i, i ∈ kept ↔ i ∈ domains_of s tag ∧ i ∉ ids).
  { intros i. unfold kept. rewrite list_elem_of_In, filter_In, <- list_elem_of_In.
    by rewrite negb_true_iff, bool_decide_eq_false. }
  assert (Hkn : NoDup kept).
  { apply NoDup_ListNoDup, List.NoDup_filter, NoDup_ListNoDup, (tw_domains _ (wf_tags _ W)). }
  clearbody kept.
  match goal with |- store_wf (foldl _ ?x _) => destruct (untag_spec tag ids x) as (dts & -> & Hin & Hnd) end.
  pose proof W as [HJ HR HD [T1 T2 T3 T4] HP Hdis Hpub Hrd Hdef].
  apply (relation_wf s); [done|]. simpl in *. split; simpl.
  - intros t i. rewrite Hin, default_insert. unfold tags_of. simpl. rewrite T1.
    case_decide as E; [subst; rewrite Hk; unfold domains_of; tauto|naive_solver].
  - intros i. apply Hnd, T2.
  - intros t. rewrite default_insert. case_decide; [done|apply T3].
  - intros t i. rewrite default_insert. case_decide as E; [subst; intros [Hi _]%Hk|intros Hi]; by apply (T4 _ i).
Qed.

(** *** Profiles *)

Lemma create_profile_wf s p now s' p' : store_wf s → CreateProfile s p now = Ok (s', p') → store_wf s'.
Proof.
  intros [HJ HR HD HT [P1 P2 P3] Hdis Hpub Hrd Hdef]. unfold CreateProfile.
  case_decide as Hn; [done|]. cbv zeta. intros [= <- _]. set (i := (profileCounter (pt s) + 1)%Z).
  assert (Hfresh : ∀ q, profiles (pt s) !! i ≠ Some q)
    by (intros q Hq; destruct (P1 _ _ Hq); unfold i in *; lia).
  assert (Hnew : ∀ j q, profiles (pt s) !! j = Some q → p_Name q ≠ p_Name p)
    by (intros j q Hq E; apply Hn; exists j, q; done).
  split; try done; simpl.
  - split; simpl.
    + intros j q [[<- <-]|[Hne Hq]]%lookup_insert_Some; simpl; [split; [done|unfold i; lia]|].
      destruct (P1 j q Hq). split; [done|unfold i; lia].
    + intros j k q q' [[<- <-]|[Hj Hq]]%lookup_insert_Some [[<- <-]|[Hk Hq']]%lookup_insert_Some; simpl.
      * done.
      * intros E. by destruct (Hnew k q' Hq').
      * intros E. by destruct (Hnew j q Hq).
      * by apply (P2 j k q q').
    + unfold i. lia.
  - intros n t j Ht Hp. destruct (decide (i = j)) as [<-|]; [rewrite lookup_insert_eq; by eexists|].
    rewrite lookup_insert_ne by done. by apply (Hdef n t).
Qed.

Lemma update_profile_wf s p now s' : store_wf s → UpdateProfile s p now = Ok s' → store_wf s'.
Proof.
  intros [HJ HR HD HT [P1 P2 P3] Hdis Hpub Hrd Hdef]. unfold UpdateProfile.
  destruct (profiles (pt s) !! p_ID p) as [old|] eqn:Eo; [|done].
  case_decide as Hn; [done|]. cbv zeta. intros [= <-].
  assert (Hother : ∀ j q, profiles (pt s) !! j = Some q → p_Name q = p_Name p → j = p_ID p).
  { intros j q Hq E. destruct (decide (p_ID q = p_ID p)) as [Hid|Hid].
    - destruct (P1 j q Hq). congruence.
    - destruct Hn. by exists j, q. }
  split; try done; simpl.
  - split; simpl; [| |done].
    + intros j q [[<- <-]|[Hne Hq]]%lookup_insert_Some; simpl; [|auto]. split; [done|]. by apply (P1 _ old).
    + intros j k q q' [[<- <-]|[Hj Hq]]%lookup_insert_Some [[<- <-]|[Hk Hq']]%lookup_insert_Some; simpl; intros E.
      * done.
      * by symmetry; apply (Hother k q').
      * by apply (Hother j q).
      * by apply (P2 j k q q').
  - intros n t j Ht Hp. destruct (decide (p_ID p = j)) as [<-|]; [rewrite lookup_insert_eq; by eexists|].
    rewrite lookup_insert_ne by done. by apply (Hdef n t).
Qed.

Lemma runs_wf_fmap (t : run_tables X N) (f : Run N → Run N) :
  (∀ r, r_ID (f r) = r_ID r ∧ r_PublicID (f r) = r_PublicID r ∧ r_EntryCount (f r) = r_EntryCount r ∧
        r_DomainID (f r) = r_DomainID r) →
  runs_wf t →
  runs_wf {| runs := f <$> runs t; runPublicIDs := runPublicIDs t; entries := entries t;
             dnssecChains := dnssecChains t; entryCounter := entryCounter t |}.
Proof.
  intros Hf [R1 R2 R3 R4 R5 R6]. split; simpl; try done.
  - intros id r. rewrite lookup_fmap. intros (r0 & Hr & ->)%fmap_Some. destruct (Hf r0) as (-> & -> & _). auto.
  - intros p id Hp. destruct (R2 p id Hp) as (r & Hr & <-). exists (f r). rewrite lookup_fmap, Hr.
    split; [done|]. apply Hf.
  - intros id r. rewrite lookup_fmap. intros (r0 & Hr & ->)%fmap_Some.
    destruct (Hf r0) as (_ & _ & -> & ->). auto.
  - intros id. rewrite lookup_fmap. intros Hn%fmap_None. auto.
Qed.

Lemma forget_profile_run_same i r :
  let r' := forget_profile_run (N := N) i r in
  r_ID r' = r_ID r ∧ r_PublicID r' = r_PublicID r ∧ r_EntryCount r' = r_EntryCount r ∧
  r_DomainID r' = r_DomainID r.
Proof. unfold forget_profile_run. by case_decide. Qed.

Lemma delete_profile_wf s i s' : store_wf s → DeleteProfile s i = Ok s' → store_wf s'.
Proof.
  intros [HJ HR HD [T1 T2 T3 T4] [P1 P2 P3] Hdis Hpub Hrd Hdef]. unfold DeleteProfile.
  destruct (profiles (pt s) !! i) as [p|] eqn:Ep; [|done]. intros [= <-].
  split; simpl; try done.
  - apply jobs_wf_fmap; [|done]. intros j. unfold forget_profile_job. by case_decide.
  - apply runs_wf_fmap; [apply forget_profile_run_same|done].
  - split; simpl; try done. intros tag j Hj%T4. rewrite lookup_fmap. by apply fmap_is_Some.
  - split; simpl; try done.
    + intros j q [_ Hq]%lookup_delete_Some. auto.
    + intros j k q q' [_ Hq]%lookup_delete_Some [_ Hq']%lookup_delete_Some. by apply P2.
  - intros id j. rewrite !lookup_fmap. intros (j0 & Hj & _)%fmap_Some. by rewrite (Hdis id j0 Hj).
  - intros id r. rewrite lookup_fmap. intros (r0 & Hr & ->)%fmap_Some.
    destruct (Hrd id r0 Hr) as (d & Hd & Hn). exists d. destruct (forget_profile_run_same i r0) as (_ & _ & _ & ->).
    split; [done|]. rewrite Hn. unfold forget_profile_run. by case_decide.
  - intros n t j. rewrite lookup_fmap. intros (t0 & Ht & ->)%fmap_Some. unfold forget_profile_tag.
    case_decide as E; [done|]. intros Hp. rewrite lookup_delete_ne; [by apply (Hdef n t0)|]. congruence.
Qed.

(** *** Deleting a batch *)

Lemma jobs_wf_filter (t : job_tables N C) (P : string * Job N C → Prop) `{∀ ij, Decision (P ij)} pids :
  jobs_wf t →
  (∀ p, p ∈ pids ↔ ∃ id j, jobs t !! id = Some j ∧ ¬ P (id, j) ∧ j_PublicID j = p) →
  jobs_wf {| jobs := filter P (jobs t); publicIDs := foldr delete (publicIDs t) pids |}.
Proof.
  intros [J1 J2] Hp. split; simpl.
  - intros id j [Hj HP]%map_lookup_filter_Some. destruct (J1 id j Hj) as [? Hq]. split; [done|].
    rewrite foldr_delete_lookup, decide_False; [done|]. intros (id' & j' & Hj' & Hn & E)%Hp.
    destruct (J1 id' j' Hj') as [_ Hq']. rewrite E, Hq in Hq'. injection Hq' as <-. by simplify_eq.
  - intros p id. rewrite foldr_delete_lookup. case_decide as Hn; [done|]. intros Hi.
    destruct (J2 p id Hi) as (? & j & Hj & <-). split; [done|]. exists j. split; [|done].
    apply map_lookup_filter_Some. split; [done|]. destruct (decide (P (id, j))) as [|HnP]; [done|].
    destruct Hn. apply Hp. eauto.
Qed.

Lemma refresh_domain_wf gone order s i : store_wf s → store_wf (refresh_domain gone order s i).
Proof.
  intros W. unfold refresh_domain. destruct (domainsByID (dt s) !! i) as [d|] eqn:Ed; [|done].
  destruct (gone !! d_LatestRunID d); [|done]. apply (put_domain_wf s i d); try done; by destruct (best_run i (order i)).
Qed.

(** [DeleteBatch] before it looks at the domains. *)
Definition drop_batch s (batchID : string) : store X N C :=
  let gone := filter (in_batch batchID) (runs (rt s)) in
  let s := delete_runs s gone (nonempty (public_ids gone)) in
  let gone_jobs := filter (λ ij : string * Job N C, j_BatchID ij.2 = batchID) (jobs (jt s)) in
  let s := with_jt s
    {| jobs := filter (λ ij : string * Job N C, ¬ j_BatchID ij.2 = batchID) (jobs (jt s));
       publicIDs := foldr delete (publicIDs (jt s))
         (nonempty ((λ ij : string * Job N C, j_PublicID ij.2) <$> map_to_list gone_jobs)) |} in
  with_batches s (delete batchID (batches s)).

Lemma drop_batch_wf s batchID : store_wf s → store_wf (drop_batch s batchID).
Proof.
  intros W. unfold drop_batch. set (gone := filter (in_batch batchID) (runs (rt s))).
  assert (Hsub : gone ⊆ runs (rt s)) by apply map_filter_subseteq.
  pose proof (delete_runs_wf s gone (nonempty (public_ids gone)) W Hsub (λ p, public_nonempty s gone p W Hsub))
    as [HJ HR HD HT HP Hdis Hpub Hrd Hdef].
  split; try done; simpl.
  - apply (jobs_wf_filter (jt s)); [done|]. intros p. rewrite nonempty_elem, list_elem_of_fmap. split.
    + intros [([id j] & -> & Hj%elem_of_map_to_list%map_lookup_filter_Some) _]. destruct Hj as [Hj Hb].
      exists id, j. split; [done|]. simpl in *. split; [by intros []|done].
    + intros (id & j & Hj & Hb & <-). simpl in Hb. split.
      * exists (id, j). split; [done|]. apply elem_of_map_to_list, map_lookup_filter_Some. split; [done|].
        simpl. by apply dec_stable.
      * destruct (jw_id _ HJ id j Hj) as [_ Hq]. by destruct (jw_public _ HJ _ _ Hq).
  - intros id j [Hj _]%map_lookup_filter_Some. by apply (Hdis id j).
  - intros p id. rewrite foldr_delete_lookup. case_decide; [done|]. apply Hpub.
Qed.

Lemma delete_batch_eq s batchID order s' :
  DeleteBatch s batchID order = Ok s' →
  ∃ affected, s' = foldl (refresh_domain (filter (in_batch batchID) (runs (rt s))) order) (drop_batch s batchID) affected ∧
    NoDup affected ∧
    ∀ i, i ∈ affected ↔ i ≠ 0%Z ∧ ∃ id r, runs (rt s) !! id = Some r ∧ r_BatchID r = batchID ∧ r_DomainID r = i.
Proof.
  unfold DeleteBatch. case_decide; [done|]. intros [= <-]. eexists. split; [reflexivity|].
  split; [apply NoDup_elements|]. intros i. rewrite elem_of_elements, elem_of_difference, elem_of_list_to_set, elem_of_singleton.
  rewrite list_elem_of_fmap. split.
  - intros [([id r] & -> & Hr%elem_of_map_to_list%map_lookup_filter_Some) Hn]. split; [done|].
    destruct Hr as [Hr Hb]. by exists id, r.
  - intros (Hn & id & r & Hr & Hb & <-). split; [|done]. exists (id, r). split; [done|].
    by apply elem_of_map_to_list, map_lookup_filter_Some.
Qed.

Lemma delete_batch_wf s batchID order s' : store_wf s → DeleteBatch s batchID order = Ok s' → store_wf s'.
Proof.
  intros W (affected & -> & _ & _)%delete_batch_eq. generalize (drop_batch_wf s batchID W).
  generalize (drop_batch s batchID) as s0.
  induction affected as [|i l IH]; intros s0 W0; simpl; [done|]. by apply IH, refresh_domain_wf.
Qed.

Lemma step_wf s s' : step s s' → store_wf s → store_wf s'.
Proof.
  intros Hst W. destruct Hst as [| |s job es now Hpub| | | | | | | | | | | | | | | | | | |].
  - by eapply create_wf.
  - by eapply update_wf.
  - pose proof (graduate_cases s job es now W Hpub) as Hg.
    destruct (GraduateJob oob weights s job es now). apply Hg.
  - pose proof (domain_wf s name now W) as Hd. destruct (getOrCreateDomainLocked s name now). apply Hd.
  - by eapply latest_wf.
  - unfold CreateTag in *. case_match; simplify_eq. by apply put_tag_wf.
  - by apply tag_domains_wf.
  - unfold UpdateTag in *. case_match; simplify_eq. apply put_tag_wf; [done|]. intros i Hi. by eapply (wf_default _ W).
  - unfold SetTagDefaultProfile in *. case_match; [|done].
    case_match; [|simplify_eq; by apply put_tag_wf].
    case_match eqn:Hp; simplify_eq. apply put_tag_wf; [done|]. simpl. intros i [= <-]. by rewrite Hp.
  - by eapply delete_tag_wf.
  - by apply untag_wf.
  - destruct W. by split.
  - unfold SetBatchSnapshotIntent in *. case_match; simplify_eq. destruct W. by split.
  - by eapply delete_batch_wf.
  - by eapply create_profile_wf.
  - by eapply update_profile_wf.
  - by eapply delete_profile_wf.
  - destruct W. by split.
  - unfold DeleteSetting in *. case_match; simplify_eq. destruct W. by split.
  - by apply purge_wf.
  - by apply purge_wf.
  - destruct W. by split.
Qed.

Lemma steps_wf s s' : rtc step s s' → store_wf s → store_wf s'.
Proof. induction 1; eauto using step_wf. Qed.

(** C17: whatever sequence of calls a server makes on a new store, as long as new jobs and
    generated public identifiers have fresh identifiers and a job handed back has the public
    identifier it was stored with, public identifiers and
    jobs correspond, public identifiers and runs correspond, no identifier names a job and a
    run, every run has the log it counts with rows numbered uniquely, every run belongs to a
    registered domain of its name, names and numbers of domains correspond, the two sides of
    the tag relation agree on existing tags without repetition, profile names are unique and
    the default profile of a tag exists.  The latest run and the number of runs a domain
    records are not among this. *)
Theorem store_consistent s : rtc step NewInMemoryJobStore s → store_wf s.
Proof. intros Hs. apply (steps_wf _ _ Hs), empty_store_wf. Qed.

(** *** Graduation *)
Variable jc_zero : C.

(** C18: a graduated job is read back, by its identifier and by its public identifier, as a
    job that is done with the same identity, batch, domain name, status, times, profile and
    copied fields, the severity counts of its log and the score of the run; its log is
    stored in order; every other identifier reads as before; and it cannot be graduated
    again. *)
Theorem graduate_roundtrip s job es now s' :
  store_wf s → (∀ old, jobs (jt s) !! j_ID job = Some old → j_PublicID job = j_PublicID old) →
  GraduateJob oob weights s job es now = (s', Graduated) →
  (∃ job', Get jc_zero s' (j_ID job) = Some job' ∧ GetByPublicID jc_zero s' (j_PublicID job) = Some job' ∧
     (j_ID job', j_PublicID job', j_BatchID job', j_Domain job', j_Status job') =
       (j_ID job, j_PublicID job, j_BatchID job, j_Domain job, j_Status job) ∧
     (j_CreatedAt job', j_StartedAt job', j_FinishedAt job', j_ProfileID job', j_copied job') =
       (j_CreatedAt job, j_StartedAt job, j_FinishedAt job, j_ProfileID job, j_copied job) ∧
     j_Progress job' = 100%Z ∧
     j_SeverityTotals job' = Some (count_severity "NOTICE" es, count_severity "WARNING" es,
                                   count_severity "ERROR" es, count_severity "CRITICAL" es) ∧
     score_of oob weights (scoringCfg s) (j_Status job) (j_Domain job) es =
       Some (match j_Score job', j_Grade job' with Some n, Some g => Some (n, g) | _, _ => None end)) ∧
  e_log <$> default [] (entries (rt s') !! j_ID job) = es ∧
  (∀ id, id ≠ j_ID job → Get jc_zero s' id = Get jc_zero s id) ∧
  (∀ es' now', GraduateJob oob weights s' job es' now' = (s', NotFound)).
Proof.
  intros W Hpub Hg. pose proof (graduate_cases s job es now W Hpub) as H0. rewrite Hg in H0.
  destruct H0 as (W' & i & d & score & Hs & Hd & Hn & Hr & He & Hj & Hp & Hrp & _).
  assert (Hnone : jobs (jt s') !! j_ID job = None) by (rewrite Hj; apply lookup_delete_eq).
  split; [|split; [|split]].
  - exists (jobFromRun jc_zero (run_of job i es score)). unfold Get, GetByPublicID.
    rewrite Hnone, Hp, Hrp. simpl. rewrite !Hr, !lookup_insert_eq.
    do 6 (split; [done|]). rewrite Hs. by destruct score as [[]|].
  - rewrite He, lookup_insert_eq. simpl. unfold stored_entries. apply list_eq. intros n.
    rewrite list_lookup_fmap, list_lookup_imap. by destruct (es !! n).
  - intros id Hid. unfold Get. by rewrite Hj, Hr, lookup_delete_ne, lookup_insert_ne.
  - intros es' now'. unfold GraduateJob. by rewrite Hnone.
Qed.

(** *** The deletion of a batch *)

(** What [refresh_domain] makes of one domain. *)
Definition refreshed (gone : gmap string (Run N)) (order : Z → list (Run N)) (n : Z) (i : Z) (d : Domain) : Domain :=
  match gone !! d_LatestRunID d with
  | None => d
  | Some _ => bump (match best_run i (order i) with Some run => latest_of (no_latest d) run | None => no_latest d end) n
  end.

Lemma refresh_domain_spec gone order s i :
  jt (refresh_domain gone order s i) = jt s ∧ rt (refresh_domain gone order s i) = rt s ∧
  batches (refresh_domain gone order s i) = batches s ∧
  ∀ j, domainsByID (dt (refresh_domain gone order s i)) !! j =
    if decide (i = j) then refreshed gone order (runs_of s i) i <$> domainsByID (dt s) !! j
    else domainsByID (dt s) !! j.
Proof.
  unfold refresh_domain, refreshed. destruct (domainsByID (dt s) !! i) as [d|] eqn:Ed.
  - destruct (gone !! d_LatestRunID d) eqn:Eg; (do 3 (split; [done|])); intros j; simpl; case_decide as Hij; subst.
    + by rewrite lookup_insert_eq, Ed; simpl; rewrite Eg.
    + by rewrite lookup_insert_ne.
    + by rewrite Ed; simpl; rewrite Eg.
    + done.
  - do 3 (split; [done|]). intros j. case_decide as Hij; [subst; by rewrite Ed|done].
Qed.

Lemma refresh_domains_spec gone order l s :
  NoDup l →
  let s' := foldl (refresh_domain gone order) s l in
  jt s' = jt s ∧ rt s' = rt s ∧ batches s' = batches s ∧
  ∀ j, domainsByID (dt s') !! j =
    if decide (j ∈ l) then refreshed gone order (runs_of s j) j <$> domainsByID (dt s) !! j
    else domainsByID (dt s) !! j.
Proof.
  intros Hnd. revert s. induction Hnd as [|i l Hi Hnd IH]; intros s; simpl; [done|].
  destruct (refresh_domain_spec gone order s i) as (E1 & E2 & E3 & E4).
  destruct (IH (refresh_domain gone order s i)) as (-> & -> & -> & Hd).
  rewrite E1, E2, E3. do 3 (split; [done|]). intros j. rewrite Hd, E4.
  assert (Ern : ∀ k, runs_of (refresh_domain gone order s i) k = runs_of s k) by (intros k; unfold runs_of; by rewrite E2).
  rewrite Ern. destruct (decide (i = j)) as [<-|Hne].
  - rewrite (decide_False (P := i ∈ l)), (decide_True (P := i ∈ i :: l)) by (done || apply list_elem_of_here). done.
  - apply decide_ext. rewrite elem_of_cons. naive_solver.
Qed.

(** The run chosen is one of the domain, and none of the domain is later. *)
Lemma best_run_spec i (order : list (Run N)) :
  match best_run i order with
  | None => ∀ r, r ∈ order → r_DomainID r ≠ i
  | Some b => b ∈ order ∧ r_DomainID b = i ∧
      ∀ r, r ∈ order → r_DomainID r = i → (r_FinishedAt r ≤ r_FinishedAt b)%Z
  end.
Proof.
  unfold best_run. induction order as [|r order IH] using rev_ind; simpl; [by intros r ?%elem_of_nil|].
  rewrite foldl_snoc. set (best := foldl _ _ _) in *. clearbody best. unfold later.
  assert (Hin : ∀ r', r' ∈ order ++ [r] ↔ r' ∈ order ∨ r' = r) by (intros; by rewrite elem_of_app, list_elem_of_singleton).
  case_decide as Hr; [destruct best as [b|]; [destruct (Z.ltb_spec (r_FinishedAt b) (r_FinishedAt r)) as [Hl|Hl]|]|destruct best].
  - destruct IH as (_ & _ & IH). split; [apply Hin; by right|]. split; [done|].
    intros r' [Hr'|Hr']%Hin Hd; [|by subst]. pose proof (IH r' Hr' Hd). lia.
  - destruct IH as (? & ? & IH). split; [apply Hin; by left|]. split; [done|].
    intros r' [Hr'|Hr']%Hin Hd; [by apply IH|by subst].
  - split; [apply Hin; by right|]. split; [done|].
    intros r' [Hr'|Hr']%Hin Hd; [by destruct (IH r' Hr')|by subst].
  - destruct IH as (? & ? & IH). split; [apply Hin; by left|]. split; [done|].
    intros r' [Hr'|Hr']%Hin Hd; [by apply IH|by subst].
  - intros r' [Hr'|Hr']%Hin; [auto|by subst].
Qed.

(** In a well-formed store the two ways to read a job agree. *)
Lemma by_public_id s p job :
  store_wf s →
  (GetByPublicID jc_zero s p = Some job ↔ ∃ id, Get jc_zero s id = Some job ∧ j_PublicID job = p).
Proof.
  intros [[J1 J2] [R1 R2 _ _ _ _] _ _ _ Hdis Hpub _ _]. unfold GetByPublicID, Get. split.
  - destruct (publicIDs (jt s) !! p) as [id|] eqn:Ep; simpl.
    + destruct (J2 p id Ep) as (_ & j & Hj & <-). rewrite Hj. intros [= <-]. exists id. by rewrite Hj.
    + destruct (runPublicIDs (rt s) !! p) as [id|] eqn:Er; simpl; [|done].
      destruct (R2 p id Er) as (r & Hr & <-). rewrite Hr. intros [= <-]. exists id.
      destruct (jobs (jt s) !! id) as [j|] eqn:Ej; [by rewrite (Hdis id j Ej) in Hr|]. by rewrite Hr.
  - intros (id & Hg & <-). destruct (jobs (jt s) !! id) as [j|] eqn:Ej.
    + injection Hg as <-. destruct (J1 id j Ej) as [_ ->]. simpl. by rewrite Ej.
    + destruct (runs (rt s) !! id) as [r|] eqn:Er; [|done]. injection Hg as <-. simpl.
      destruct (R1 id r Er) as (_ & _ & Hp). rewrite Hp. simpl. rewrite Er. simpl.
      destruct (publicIDs (jt s) !! r_PublicID r) as [id'|] eqn:Ep; [|done].
      by rewrite (Hpub _ _ Ep) in Hp.
Qed.

(** A job unless it belongs to the batch. *)
Definition outside (batchID : string) job : option (Job N C) :=
  if decide (j_BatchID job = batchID) then None else Some job.

Lemma drop_batch_run s batchID id r :
  runs (rt (drop_batch s batchID)) !! id = Some r ↔ runs (rt s) !! id = Some r ∧ r_BatchID r ≠ batchID.
Proof.
  unfold drop_batch.
  pose proof (proj1 (delete_runs_lookup s (filter (in_batch batchID) (runs (rt s)))
    (nonempty (public_ids (filter (in_batch batchID) (runs (rt s))))) id)) as E. simpl in *. rewrite E. clear E.
  destruct (filter (in_batch batchID) (runs (rt s)) !! id) as [r0|] eqn:Ef.
  - rewrite decide_True by eauto. apply map_lookup_filter_Some in Ef as [-> Hb]. unfold in_batch in Hb. naive_solver.
  - rewrite decide_False by (by intros []). apply map_lookup_filter_None in Ef as [->|Hf]; [naive_solver|].
    split; [|tauto]. intros Hr. split; [done|]. by apply Hf.
Qed.

Lemma drop_batch_job s batchID id j :
  jobs (jt (drop_batch s batchID)) !! id = Some j ↔ jobs (jt s) !! id = Some j ∧ j_BatchID j ≠ batchID.
Proof. apply map_lookup_filter_Some. Qed.

Lemma drop_batch_get s batchID id :
  store_wf s → Get jc_zero (drop_batch s batchID) id = Get jc_zero s id ≫= outside batchID.
Proof.
  intros W. apply option_eq. intros j. unfold Get, outside.
  pose proof (drop_batch_run s batchID id) as Hr. pose proof (drop_batch_job s batchID id) as Hj.
  pose proof (wf_disjoint _ W id) as Hdis.
  revert Hr Hj. generalize (drop_batch s batchID) as s1. intros s1 Hr Hj.
  destruct (jobs (jt s) !! id) as [j0|].
  - rewrite (Hdis j0 eq_refl) in Hr. simpl.
    destruct (jobs (jt s1) !! id) as [j1|].
    + destruct (proj1 (Hj j1) eq_refl) as [[= ->] Hb]. by rewrite decide_False.
    + destruct (runs (rt s1) !! id) as [r1|].
      { by destruct (proj1 (Hr r1) eq_refl). }
      destruct (decide (j_BatchID j0 = batchID)) as [E|E]; [done|]. by pose proof (proj2 (Hj j0) (conj eq_refl E)).
  - destruct (jobs (jt s1) !! id) as [j1|].
    { by destruct (proj1 (Hj j1) eq_refl). }
    destruct (runs (rt s) !! id) as [r0|], (runs (rt s1) !! id) as [r1|]; simpl; try done.
    + destruct (proj1 (Hr r1) eq_refl) as [[= ->] Hb]. by rewrite decide_False.
    + case_decide as E; [done|]. by pose proof (proj2 (Hr r0) (conj eq_refl E)).
    + by destruct (proj1 (Hr r1) eq_refl).
Qed.

(** The latest run of a domain, when it is still stored, is a run of that domain. *)
Definition latest_own s : Prop :=
  ∀ i d r, domainsByID (dt s) !! i = Some d → runs (rt s) !! d_LatestRunID d = Some r → r_DomainID r = i.

Lemma get_of_delete_batch s batchID order s' :
  store_wf s → DeleteBatch s batchID order = Ok s' →
  rt s' = rt (drop_batch s batchID) ∧ batches s' = delete batchID (batches s) ∧
  (∀ id, Get jc_zero s' id = Get jc_zero s id ≫= outside batchID) ∧
  ∀ i d, domainsByID (dt s) !! i = Some d → domainsByID (dt s') !! i = Some
    (if decide (∃ id r, runs (rt s) !! id = Some r ∧ r_BatchID r = batchID ∧ r_DomainID r = i)
     then refreshed (filter (in_batch batchID) (runs (rt s))) order (runs_of s' i) i d else d).
Proof.
  intros W (affected & -> & Hnd & Ha)%delete_batch_eq.
  destruct (refresh_domains_spec (filter (in_batch batchID) (runs (rt s))) order affected (drop_batch s batchID) Hnd)
    as (Ej & Er & Eb & Ed).
  revert Ej Er Eb Ed. generalize (foldl (refresh_domain (filter (in_batch batchID) (runs (rt s))) order) (drop_batch s batchID) affected) as s1.
  intros s1 Ej Er Eb Ed. split; [done|]. split; [by rewrite Eb|]. split.
  - intros id. rewrite <- drop_batch_get by done. unfold Get. by rewrite Ej, Er.
  - intros i d Hd. rewrite Ed. unfold runs_of. rewrite Er.
    replace (domainsByID (dt (drop_batch s batchID)) !! i) with (Some d) by done.
    destruct (dw_id _ (wf_domains _ W) i d Hd) as (_ & Hi & _).
    destruct (decide (i ∈ affected)) as [Hin|Hin]; rewrite Ha in Hin.
    + by rewrite decide_True by naive_solver.
    + rewrite decide_False; [done|]. intros Hx. apply Hin. split; [lia|done].
Qed.

(** The tables after the deletion of a batch. *)
Lemma delete_batch_tables s batchID order s' :
  DeleteBatch s batchID order = Ok s' →
  runs (rt s') = filter (λ ir, ¬ in_batch batchID ir) (runs (rt s)) ∧
  (∀ id r, runs (rt s') !! id = Some r → entries (rt s') !! id = entries (rt s) !! id) ∧
  jobs (jt s') = filter (λ ij : string * Job N C, ¬ j_BatchID ij.2 = batchID) (jobs (jt s)) ∧
  batches s' = delete batchID (batches s).
Proof.
  intros (affected & -> & Hnd & Ha)%delete_batch_eq.
  destruct (refresh_domains_spec (filter (in_batch batchID) (runs (rt s))) order affected (drop_batch s batchID) Hnd)
    as (Ej & Er & Eb & Ed). rewrite Ej, Er, Eb. clear Ej Er Eb Ed. split; [|split; [|done]].
  - apply map_eq. intros id. apply option_eq. intros r. rewrite drop_batch_run, map_lookup_filter_Some. done.
  - intros id r [Hr Hb]%drop_batch_run. destruct (delete_runs_lookup s (filter (in_batch batchID) (runs (rt s)))
      (nonempty (public_ids (filter (in_batch batchID) (runs (rt s))))) id) as (_ & He & _).
    unfold drop_batch. simpl in *. rewrite He, decide_False; [done|].
    intros [r' [Hr' Hb']%map_lookup_filter_Some]. unfold in_batch in Hb'. simpl in Hb'. congruence.
Qed.

(** What the deletion of a batch promises about one domain: its latest run is a remaining
    one that finished no earlier than the others, or there is none, and its runs are
    counted again. *)
Definition repointed s' (i : Z) (d' : Domain) : Prop :=
  d_RunCount d' = runs_of s' i ∧
  ((d_LatestRunID d' = ""%string ∧ d_LatestRunAt d' = zero_time ∧
    ∀ id r, GetRun s' id = Some r → r_DomainID r ≠ i) ∨
   ∃ r, GetRun s' (d_LatestRunID d') = Some r ∧ r_DomainID r = i ∧ d_LatestRunAt d' = r_FinishedAt r ∧
     ∀ id2 r2, GetRun s' id2 = Some r2 → r_DomainID r2 = i → (r_FinishedAt r2 ≤ r_FinishedAt r)%Z).

Lemma refreshed_repointed s' gone order i d :
  store_wf s' → (∀ r, r ∈ order i ↔ ∃ id, GetRun s' id = Some r) →
  is_Some (gone !! d_LatestRunID d) → repointed s' i (refreshed gone order (runs_of s' i) i d).
Proof.
  intros W Ho [r0 Hr0]. unfold refreshed. rewrite Hr0. split; [done|].
  pose proof (best_run_spec i (order i)) as Hb. destruct (best_run i (order i)) as [b|]; simpl.
  - right. destruct Hb as (Hin & Hi & Hmax). apply Ho in Hin as [id Hid]. exists b.
    destruct (rw_id _ (wf_runs _ W) _ _ Hid) as [E _]. rewrite E.
    split; [done|]. split; [done|]. split; [done|].
    intros id2 r2 H2. apply Hmax, Ho. eauto.
  - left. split; [done|]. split; [done|]. intros id r Hr. apply Hb, Ho. eauto.
Qed.

(** deleting a batch removes exactly its jobs and runs, under both of their
    identifiers, with their logs and chains, and its record; every other job, run, log and
    batch reads as before; and a domain whose latest run was deleted points to the most
    recent of its remaining runs and has them counted, while every other domain is as it
    was.  [order] is the order in which the remaining runs are visited. *)
Theorem delete_batch_complete s batchID order s' :
  store_wf s → latest_own s → DeleteBatch s batchID order = Ok s' →
  (∀ i r, r ∈ order i ↔ ∃ id, GetRun s' id = Some r) →
  (∀ id, Get jc_zero s' id = Get jc_zero s id ≫= outside batchID) ∧
  (∀ p, GetByPublicID jc_zero s' p = GetByPublicID jc_zero s p ≫= outside batchID) ∧
  (∀ id r, GetRun s id = Some r → r_BatchID r = batchID →
     entries (rt s') !! id = None ∧ GetRunDNSSECChain s' id = None) ∧
  (∀ id r, GetRun s id = Some r → r_BatchID r ≠ batchID →
     entries (rt s') !! id = entries (rt s) !! id ∧ GetRunDNSSECChain s' id = GetRunDNSSECChain s id) ∧
  (∀ b, GetBatch s' b = if decide (b = batchID) then None else GetBatch s b) ∧
  (∀ i d, domainsByID (dt s) !! i = Some d → ∃ d', domainsByID (dt s') !! i = Some d' ∧
     if decide (is_Some (filter (in_batch batchID) (runs (rt s)) !! d_LatestRunID d))
     then repointed s' i d' else d' = d).
Proof.
  intros W Hown Hdel Ho. pose proof (delete_batch_wf s batchID order s' W Hdel) as W'.
  destruct (get_of_delete_batch s batchID order s' W Hdel) as (Er & Eb & Hget & Hdom).
  assert (Hent : ∀ id, entries (rt s') !! id = (if decide (is_Some (filter (in_batch batchID) (runs (rt s)) !! id))
      then None else entries (rt s) !! id) ∧
    dnssecChains (rt s') !! id = (if decide (is_Some (filter (in_batch batchID) (runs (rt s)) !! id))
      then None else dnssecChains (rt s) !! id)).
  { intros id. rewrite Er. apply (delete_runs_lookup s). }
  split; [done|]. split; [|split; [|split; [|split]]].
  - intros p. apply option_eq. intros j. rewrite by_public_id, bind_Some by done.
    setoid_rewrite (by_public_id s) ; [|done]. setoid_rewrite Hget. setoid_rewrite bind_Some.
    unfold outside. split.
    + intros (id & (j0 & Hj & Ho') & <-). case_decide; simplify_eq. exists j. rewrite decide_False; eauto.
    + intros (j0 & (id & Hj & <-) & Ho'). case_decide; simplify_eq. exists id. split; [|done].
      exists j. by rewrite decide_False.
  - intros id r Hr Hb. unfold GetRunDNSSECChain. destruct (Hent id) as [-> ->].
    assert (is_Some (filter (in_batch batchID) (runs (rt s)) !! id)) by (exists r; by apply map_lookup_filter_Some).
    by rewrite !decide_True by done.
  - intros id r Hr Hb. unfold GetRunDNSSECChain. destruct (Hent id) as [-> ->].
    assert (¬ is_Some (filter (in_batch batchID) (runs (rt s)) !! id)); [|by rewrite !decide_False by done]. intros [r' [Hr' Hb']%map_lookup_filter_Some].
    unfold GetRun in Hr. unfold in_batch in Hb'. naive_solver.
  - intros b. unfold GetBatch. rewrite Eb. case_decide; subst; [apply lookup_delete_eq|by rewrite lookup_delete_ne].
  - intros i d Hd. rewrite (Hdom i d Hd). eexists. split; [reflexivity|].
    destruct (decide (is_Some (filter _ _ !! d_LatestRunID d))) as [Hs|Hs].
    + rewrite decide_True; [by apply refreshed_repointed|].
      destruct Hs as [r [Hr Hb]%map_lookup_filter_Some]. exists (d_LatestRunID d), r. split; [done|].
      split; [done|]. by eapply Hown.
    + case_decide; [|done]. unfold refreshed. by rewrite (proj2 (eq_None_not_Some _)).
Qed.
End consistency.

(** ** Concrete stores *)

Section witnesses.
#[local] Existing Instance ascii_unicode.

Definition no_oob : spec_float → Z := λ _, 0%Z.

Definition sample_copied : copied unit :=
  {| c_Priority := 0; c_Profile := ""; c_ProfileName := ""; c_EffectiveProfile := "default";
     c_NameserverTimings := []; c_Error := ""; c_ClientIP := "192.0.2.1"; c_ClientUserAgent := "";
     c_ClientVia := "http" |}.

Definition sample_job (id batch : string) (st : JobStatus) (finished : Z) : Job unit unit :=
  {| j_ID := id; j_PublicID := ""; j_BatchID := batch; j_DomainID := 0; j_Domain := "a.se";
     j_Status := st; j_FinishedAt := finished; j_SeverityTotals := None; j_CreatedAt := 1;
     j_StartedAt := 2; j_Progress := 0; j_ProfileID := None; j_copied := sample_copied;
     j_Score := None; j_Grade := None; j_config := Datatypes.tt; j_DNSSECChainJSON := "" |}.

Definition sample_log : list (LogEntry unit) :=
  [ {| le_Module := "ZONE"; le_Tag := "Z"; le_Level := "NOTICE"; le_rest := Datatypes.tt |};
    {| le_Module := "BASIC"; le_Tag := "B"; le_Level := "ERROR"; le_rest := Datatypes.tt |} ].

Definition empty_store : store unit unit unit := NewInMemoryJobStore.

(** Create a job and graduate it as finished. *)
Definition created s id batch : store unit unit unit :=
  match Create s (sample_job id batch JobQueued 0) ("pub-" +:+ id) with Ok (s', _) => s' | Err _ => s end.
Definition finished id batch t : Job unit unit :=
  with_PublicID (sample_job id batch JobSucceeded t) ("pub-" +:+ id).
Definition graduated s id batch t : store unit unit unit :=
  (GraduateJob no_oob default_weights (created s id batch) (finished id batch t) sample_log 1).1.

Lemma graduated_reachable s id batch t :
  rtc (step no_oob default_weights) empty_store s →
  jobs (jt s) !! id = None → runs (rt s) !! id = None →
  publicIDs (jt s) !! ("pub-" +:+ id) = None → runPublicIDs (rt s) !! ("pub-" +:+ id) = None →
  rtc (step no_oob default_weights) empty_store (graduated s id batch t).
Proof.
  intros Hs Hj Hr Hp Hrp.
  assert (Ec : ∃ job, Create s (sample_job id batch JobQueued 0) ("pub-" +:+ id) = Ok (created s id batch, job)).
  { unfold created, Create. simpl. rewrite Hj. by eexists. }
  destruct Ec as [job Ec].
  eapply rtc_r; [eapply rtc_r; [exact Hs|]|].
  - eapply step_create; [| |exact Ec]; [done|]. split; [done|]. by split.
  - apply step_graduate. unfold created, Create. simpl. rewrite Hj. simpl.
    intros old. rewrite lookup_insert_eq. by intros [= <-].
Qed.

(** The stores of the examples, evaluated. *)
Definition one_queued : store unit unit unit := Eval vm_compute in created empty_store "r1" "b1".
Definition one_run : store unit unit unit := Eval vm_compute in graduated empty_store "r1" "b1" 10.
Definition two_runs : store unit unit unit := Eval vm_compute in graduated one_run "r2" "b2" 20.
Definition run_one : option (Run unit) := Eval vm_compute in runs (rt two_runs) !! "r1"%string.
Definition remaining (o : option (Run unit)) : Z → list (Run unit) := λ _, option_list o.
Definition without (b : string) (o : option (Run unit)) : store unit unit unit :=
  match DeleteBatch two_runs b (remaining o) with Ok s' => s' | Err _ => two_runs end.
Definition without_b1 : store unit unit unit := Eval vm_compute in without "b1" None.
Definition without_b2 : store unit unit unit := Eval vm_compute in without "b2" run_one.
Definition purged : store unit unit unit := Eval vm_compute in (PurgeOlderThan two_runs 30).1.

Lemma two_runs_reachable : rtc (step no_oob default_weights) empty_store two_runs.
Proof.
  assert (E1 : graduated empty_store "r1" "b1" 10 = one_run) by (vm_compute; reflexivity).
  assert (E2 : graduated one_run "r2" "b2" 20 = two_runs) by (vm_compute; reflexivity).
  rewrite <- E2. apply graduated_reachable; try reflexivity.
  rewrite <- E1. apply graduated_reachable; reflexivity.
Qed.

(** the count of the runs of a domain and its pointer to the latest of them are not kept
    by every operation: deleting a batch with a run that is not the latest leaves the run
    counted, and purging leaves the purged run counted and pointed to. *)
Theorem run_count_drifts :
  (∃ s s' : store unit unit unit, rtc (step no_oob default_weights) empty_store s ∧
     DeleteBatch s "b1" (λ _, []) = Ok s' ∧ runs_of s' 1 = 1%Z ∧
     d_RunCount <$> domainsByID (dt s') !! 1%Z = Some 2%Z) ∧
  ∃ s s' : store unit unit unit, rtc (step no_oob default_weights) empty_store s ∧
     PurgeOlderThan s 30 = (s', 2%Z) ∧ runs_of s' 1 = 0%Z ∧
     d_RunCount <$> domainsByID (dt s') !! 1%Z = Some 2%Z ∧
     d_LatestRunID <$> domainsByID (dt s') !! 1%Z = Some "r2"%string ∧ GetRun s' "r2" = None.
Proof.
  split.
  - exists two_runs, without_b1. split; [apply two_runs_reachable|]. repeat split; reflexivity.
  - exists two_runs, purged. split; [apply two_runs_reachable|]. repeat split; reflexivity.
Qed.

Lemma store_consistent_witness : store_wf two_runs ∧ size (runs (rt two_runs)) = 2.
Proof.
  split; [exact (store_consistent no_oob default_weights _ two_runs_reachable)|reflexivity].
Defined.

Lemma two_runs_own : latest_own two_runs.
Proof.
  assert (Hm : map_Forall (λ i d, from_option (λ r, r_DomainID r =? i)%Z true (runs (rt two_runs) !! d_LatestRunID d) = true)
    (domainsByID (dt two_runs))) by (apply (bool_decide_unpack _); reflexivity).
  intros i d r Hd Hr. specialize (Hm i d Hd). cbv beta in Hm. rewrite Hr in Hm. by apply Z.eqb_eq.
Qed.

Lemma one_queued_wf : store_wf one_queued.
Proof.
  eapply (create_wf empty_store (sample_job "r1" "b1" JobQueued 0) "pub-r1"); [apply empty_store_wf|done|done|reflexivity].
Qed.

#[local] Opaque two_runs one_queued one_run without_b2 run_one.

Lemma graduate_roundtrip_witness :
  GraduateJob no_oob default_weights one_queued (finished "r1" "b1" 10) sample_log 1 = (one_run, Graduated) ∧
  e_log <$> default [] (entries (rt one_run) !! "r1"%string) = sample_log.
Proof.
  assert (Eg : GraduateJob no_oob default_weights one_queued (finished "r1" "b1" 10) sample_log 1 = (one_run, Graduated))
    by (vm_compute; reflexivity).
  split; [exact Eg|].
  destruct (graduate_roundtrip no_oob default_weights Datatypes.tt one_queued (finished "r1" "b1" 10) sample_log 1
    one_run) as (_ & He & _); [exact one_queued_wf| |exact Eg|exact He].
  intros old. assert (Ep : j_PublicID <$> jobs (jt one_queued) !! "r1"%string = Some "pub-r1"%string) by (vm_compute; reflexivity).
  change (j_ID (finished "r1" "b1" 10)) with "r1"%string. intros Ho. rewrite Ho in Ep. by injection Ep as ->.
Defined.

Lemma delete_batch_complete_witness :
  DeleteBatch two_runs "b2" (remaining run_one) = Ok without_b2 ∧
  Get Datatypes.tt without_b2 "r2" = None ∧
  Get Datatypes.tt without_b2 "r1" = Get Datatypes.tt two_runs "r1".
Proof.
  assert (Ed : DeleteBatch two_runs "b2" (remaining run_one) = Ok without_b2) by (vm_compute; reflexivity).
  split; [done|].
  destruct (delete_batch_complete Datatypes.tt two_runs "b2" (remaining run_one) without_b2) as (Hg & _).
  - apply (steps_wf no_oob default_weights _ _ two_runs_reachable), empty_store_wf.
  - exact two_runs_own.
  - exact Ed.
  - assert (E : ∃ r, run_one = Some r ∧ runs (rt without_b2) = {["r1"%string := r]}) by (eexists; vm_compute; split; reflexivity).
    destruct E as (r1 & E1 & E). intros i r. unfold GetRun, remaining. rewrite E, E1. simpl.
    rewrite list_elem_of_singleton. split.
    + intros ->. exists "r1"%string. by rewrite lookup_singleton_eq.
    + by intros [id [_ <-]%lookup_singleton_Some].
  - rewrite !Hg. split; vm_compute; reflexivity.
Defined.
End witnesses.
