(* ===== verification/Sorting.v ===== *)
(** * Sorting a slice and cutting it into pages

    What the listings of [server/store.go] and [server/handlers.go] share.  [sort.Slice]
    takes a comparison and promises a permutation in which no element is less than an
    earlier one; a comparison is a cascade of keys, built with [by_key] and [by_last].  On
    elements with distinct last keys the promise determines the result, so it depends
    neither on the algorithm nor on the order of the input.  A page is a window of a sorted
    slice with the cursors of its neighbours. *)

From S2P Require Import Prelude GoStrings.

Local Open Scope list_scope.
#[local] Set Default Proof Using "Type*".

(** ** Comparisons *)

Inductive direction := Asc | Desc.

(** [if l.f != r.f { return l.f < r.f }], or [>], before the rest of the cascade. *)
Definition by_key {A K} `{EqDecision K} (ltb : K → K → bool) (f : A → K) (d : direction)
    (rest : A → A → bool) (l r : A) : bool :=
  if decide (f l = f r) then rest l r
  else match d with Asc => ltb (f l) (f r) | Desc => ltb (f r) (f l) end.

(** [return l.f < r.f], or [>]. *)
Definition by_last {A K} (ltb : K → K → bool) (f : A → K) (d : direction) (l r : A) : bool :=
  match d with Asc => ltb (f l) (f r) | Desc => ltb (f r) (f l) end.

(** What [sort.Slice] asks of a comparison: a strict weak order. *)
Class StrictWeak {A} (less : A → A → bool) : Prop := {
  sw_asym : ∀ x y, less x y = true → less y x = false;
  sw_split : ∀ x y z, less x z = true → less x y = true ∨ less y z = true
}.

(** Elements the comparison does not tell apart have the same key. *)
Class Keyed {A K} (key : A → K) (less : A → A → bool) : Prop :=
  keyed : ∀ x y, less x y = false → less y x = false → key x = key y.

Lemma sw_trans {A} (less : A → A → bool) `{!StrictWeak less} x y z :
  less x y = true → less y z = true → less x z = true.
Proof. intros Hxy Hyz. destruct (sw_split x z y Hxy) as [|H]; [done|]. apply sw_asym in H. congruence. Qed.

Lemma sw_irrefl {A} (less : A → A → bool) `{!StrictWeak less} x : less x x = false.
Proof. destruct (less x x) eqn:E; [|done]. by rewrite <- E, (sw_asym x x). Qed.

#[export] Instance Zltb_weak : StrictWeak Z.ltb.
Proof. split; intros; rewrite ?Z.ltb_lt, ?Z.ltb_ge in *; lia. Qed.
#[export] Instance Zltb_keyed : Keyed (λ z, z) Z.ltb.
Proof. intros x y ? ?. rewrite !Z.ltb_ge in *. lia. Qed.

Lemma string_ltb_leb x y : String.ltb x y = false ↔ String.leb y x = true.
Proof. unfold String.ltb, String.leb. rewrite (String.compare_antisym y x). by destruct (x ?= y)%string. Qed.

#[export] Instance string_ltb_weak : StrictWeak String.ltb.
Proof.
  split.
  - intros x y. unfold String.ltb. rewrite (String.compare_antisym y x). by destruct (x ?= y)%string.
  - intros x y z Hxz. destruct (String.ltb x y) eqn:Exy; [by left|]. destruct (String.ltb y z) eqn:Eyz; [by right|].
    apply string_ltb_leb in Exy, Eyz.
    assert (Hzx : String.leb z x = true).
    { apply Is_true_true. apply (transitivity (R := String.le) (y := y)); by apply Is_true_true. }
    apply string_ltb_leb in Hzx. congruence.
Qed.
#[export] Instance string_ltb_keyed : Keyed (λ s, s) String.ltb.
Proof.
  intros x y Hxy Hyx. apply string_ltb_leb in Hxy, Hyx.
  apply (anti_symm String.le); by apply Is_true_true.
Qed.

Section cascade.
Context {A K : Type} `{EqDecision K} (ltb : K → K → bool) `{!StrictWeak ltb, !Keyed (λ k, k) ltb}.
Implicit Types (f : A → K) (d : direction) (rest : A → A → bool).

#[export] Instance by_last_weak f d : StrictWeak (by_last ltb f d).
Proof.
  split; unfold by_last; destruct d; eauto using sw_asym, sw_split; intros x y z H.
  destruct (sw_split _ (f y) _ H); eauto.
Qed.
#[export] Instance by_last_keyed f d : Keyed f (by_last ltb f d).
Proof. intros x y. unfold by_last. destruct d; intros; apply (keyed (key := λ k, k)); done. Qed.

#[export] Instance by_key_weak f d rest `{!StrictWeak rest} : StrictWeak (by_key ltb f d rest).
Proof.
  split; unfold by_key.
  - intros x y. destruct (decide (f x = f y)) as [e|n]; [rewrite decide_True by done; apply sw_asym|].
    rewrite decide_False by done. destruct d; apply sw_asym.
  - intros x y z.
    destruct (decide (f x = f y)) as [exy|nxy], (decide (f y = f z)) as [eyz|nyz].
    + rewrite decide_True by congruence. apply sw_split.
    + rewrite decide_False by congruence. rewrite exy. destruct d; auto.
    + rewrite decide_False by congruence. rewrite eyz. destruct d; auto.
    + destruct (decide (f x = f z)) as [exz|nxz].
      * intros _. rewrite exz. destruct (ltb (f z) (f y)) eqn:E1, (ltb (f y) (f z)) eqn:E2; destruct d; auto.
        all: exfalso; apply nyz, (keyed (key := λ k, k)); done.
      * destruct d; intros H; destruct (sw_split _ (f y) _ H); auto.
Qed.
#[export] Instance by_key_keyed {K'} (key : A → K') f d rest `{!Keyed key rest} :
  Keyed key (by_key ltb f d rest).
Proof.
  intros x y. unfold by_key. destruct (decide (f x = f y)) as [e|n].
  - rewrite decide_True by done. apply keyed.
  - rewrite decide_False by done. intros H1 H2. exfalso. apply n.
    destruct d; apply (keyed (key := λ k, k)); done.
Qed.
End cascade.

(** ** [sort.Slice] *)

Lemma NoDup_key_inj {A K} (key : A → K) l x y : NoDup (key <$> l) → x ∈ l → y ∈ l → key x = key y → x = y.
Proof.
  intros Hn Hx Hy Hk. apply list_elem_of_lookup in Hx as [i Hi], Hy as [j Hj].
  assert (i = j) as ->; [|congruence].
  eapply NoDup_lookup; [exact Hn|by rewrite list_lookup_fmap, Hi|by rewrite list_lookup_fmap, Hj, Hk].
Qed.

Section sort.
Context {A : Type} (less : A → A → bool).

Definition in_order (x y : A) : Prop := less y x = false.
#[export] Instance in_order_dec : RelDecision in_order.
Proof. intros x y. unfold in_order. apply _. Defined.

(** What [sort.Slice] promises of its result. *)
Definition sorted : list A → Prop := StronglySorted in_order.
Definition sort_slice : list A → list A := merge_sort in_order.

Lemma sort_slice_perm l : sort_slice l ≡ₚ l.
Proof. apply merge_sort_Permutation. Qed.

Lemma sort_slice_elem x l : x ∈ sort_slice l ↔ x ∈ l.
Proof. by rewrite sort_slice_perm. Qed.

Lemma sort_slice_length l : length (sort_slice l) = length l.
Proof. by rewrite sort_slice_perm. Qed.

Context `{!StrictWeak less}.

Lemma sort_slice_sorted l : sorted (sort_slice l).
Proof.
  apply StronglySorted_merge_sort.
  - unfold in_order. intros x y z Hxy Hyz. destruct (less z x) eqn:E; [|done].
    destruct (sw_split z y x E); congruence.
  - intros x y. unfold in_order. destruct (less y x) eqn:E; [right; by apply sw_asym|by left].
Qed.

Context {K} (key : A → K) `{!Keyed key less}.

(** The promise determines the result, whatever the algorithm. *)
Lemma sorted_determined l1 l2 : NoDup (key <$> l1) → sorted l1 → sorted l2 → l1 ≡ₚ l2 → l1 = l2.
Proof.
  intros Hn H1 H2 HP. eapply StronglySorted_unique_strong; [|exact H1|exact H2|done].
  intros x y Hx Hy ? ?. apply (NoDup_key_inj key l1); [done|done|by rewrite HP|by apply keyed].
Qed.

Lemma sort_slice_unique l l' : NoDup (key <$> l) → sorted l' → l' ≡ₚ l → l' = sort_slice l.
Proof.
  intros Hn Hs HP. apply sorted_determined; [by rewrite HP|done|apply sort_slice_sorted|].
  by rewrite HP, sort_slice_perm.
Qed.

Lemma sort_slice_ext l1 l2 : NoDup (key <$> l1) → l1 ≡ₚ l2 → sort_slice l1 = sort_slice l2.
Proof.
  intros Hn HP. symmetry. apply sort_slice_unique; [done|apply sort_slice_sorted|].
  by rewrite sort_slice_perm, HP.
Qed.

(** *** Prefixes *)

(** The elements below [t] come first in a sorted list. *)
Lemma sorted_below t l : sorted l →
  l = List.filter (λ x, less x t) l ++ List.filter (λ x, negb (less x t)) l.
Proof.
  induction 1 as [|x l Hl IH Hx]; [done|]. simpl. destruct (less x t) eqn:E; simpl; [by rewrite <- IH|].
  assert (Hnone : ∀ y, y ∈ l → less y t = false).
  { intros y Hy. rewrite Forall_forall in Hx. specialize (Hx y Hy). unfold in_order in Hx. destruct (less y t) eqn:Ey; [|done].
    destruct (sw_split y x t Ey); congruence. }
  assert (List.filter (λ x, less x t) l = []) as ->.
  { clear -Hnone. induction l as [|y l IH]; [done|]. simpl. rewrite Hnone by apply list_elem_of_here.
    apply IH. intros z Hz. apply Hnone. by apply list_elem_of_further. }
  simpl. f_equal. clear -Hnone. induction l as [|y l IH]; [done|]. simpl.
  rewrite Hnone by apply list_elem_of_here. simpl. rewrite <- IH; [done|].
  intros z Hz. apply Hnone. by apply list_elem_of_further.
Qed.

Lemma sorted_insert t l : sorted l →
  sorted (List.filter (λ x, less x t) l ++ t :: List.filter (λ x, negb (less x t)) l).
Proof.
  intros Hs. pose proof (sorted_below t l Hs) as El. rewrite El in Hs. apply StronglySorted_app in Hs as (Hab & Ha & Hb).
  apply StronglySorted_app. split; [|split; [done|]].
  - intros x y Hx [->|Hy]%elem_of_cons; [|by apply Hab].
    apply list_elem_of_In, filter_In in Hx as [_ Hx]. unfold in_order. by apply sw_asym.
  - constructor; [done|]. apply Forall_forall. intros y Hy.
    apply list_elem_of_In, filter_In in Hy as [_ Hy]. unfold in_order. by apply negb_true_iff in Hy.
Qed.

(** An element with [k] elements below it does not change the first [k]. *)
Lemma sort_slice_take_cons k t l :
  NoDup (key <$> t :: l) → k ≤ length (List.filter (λ x, less x t) l) →
  take k (sort_slice (t :: l)) = take k (sort_slice l).
Proof.
  intros Hn Hk. pose proof (sorted_below t _ (sort_slice_sorted l)) as El.
  set (a := List.filter (λ x, less x t) (sort_slice l)) in *.
  set (b := List.filter (λ x, negb (less x t)) (sort_slice l)) in *.
  assert (Hlen : length a = length (List.filter (λ x, less x t) l)).
  { unfold a. generalize (sort_slice_perm l). generalize (sort_slice l). clear. intros l' HP.
    induction HP; simpl; repeat case_match; simpl; congruence. }
  assert (Hsort : sort_slice (t :: l) = a ++ t :: b).
  { symmetry. apply sort_slice_unique; [done|apply sorted_insert, sort_slice_sorted|].
    rewrite <- Permutation_middle, <- El. by rewrite sort_slice_perm. }
  rewrite Hsort, El, !take_app_le by lia. done.
Qed.

Lemma sort_slice_take_app k ts l :
  NoDup (key <$> ts ++ l) → (∀ t, t ∈ ts → k ≤ length (List.filter (λ x, less x t) l)) →
  take k (sort_slice (ts ++ l)) = take k (sort_slice l).
Proof.
  induction ts as [|t ts IH]; [done|]. intros Hn Hk. simpl in *. apply NoDup_cons in Hn as Hn'. destruct Hn' as [_ Hn'].
  rewrite sort_slice_take_cons; [apply IH; [done|]|done|].
  - intros u Hu. apply Hk. by apply list_elem_of_further.
  - rewrite List.filter_app, length_app. specialize (Hk t (list_elem_of_here _ _)). lia.
Qed.
End sort.

Arguments sort_slice_elem {A} less x l.
Arguments sort_slice_sorted {A} less {_} l.
Arguments sort_slice_unique {A} less {_ K} key {_} l l'.
Arguments sort_slice_ext {A} less {_ K} key {_} l1 l2.
Arguments sort_slice_take_app {A} less {_ K} key {_} k ts l.

(** ** Pages *)

Local Open Scope Z_scope.

Definition len {A} (l : list A) : Z := Z.of_nat (length l).

(** [JobList], [RunList], [DomainList], [EntryList], [BatchList]; a cursor that is left out
    is the empty string. *)
Record page {A : Type} := {
  Items : list A;
  Total : Z;
  Limit : Z;
  Offset : Z;
  PrevCursor : string;
  NextCursor : string;
  SortName : string
}.
Arguments page : clear implicits.

(** [l[a:b]], which panics outside the slice. *)
Definition slice {A} (l : list A) (a b : Z) : option (list A) :=
  if (0 <=? a) && (a <=? b) && (b <=? len l) then Some (take (Z.to_nat (b - a)) (drop (Z.to_nat a) l))
  else None.

Definition norm_limit (limit : Z) : Z := if limit <=? 0 then 100 else limit.

(** The window of a sorted slice that a listing returns. *)
Definition paginate {A} (items : list A) (limit offset : Z) (sort : string) : option (page A) :=
  let total := len items in
  let limit := norm_limit limit in
  let offset := Z.max offset 0 in
  let start := Z.min offset total in
  let end_ := Z.min (wrap64 (start + limit)) total in
  window ← slice items start end_;
  Some {| Items := window; Total := total; Limit := limit; Offset := offset;
          PrevCursor := if 0 <? start then Itoa (Z.max (start - limit) 0) else "";
          NextCursor := if end_ <? total then Itoa end_ else "";
          SortName := sort |}.

(** The lists of domains and batches carry no cursors. *)
Definition without_cursors {A} (p : page A) : page A :=
  {| Items := Items p; Total := Total p; Limit := Limit p; Offset := Offset p;
     PrevCursor := ""; NextCursor := ""; SortName := SortName p |}.

(** A client that reads page after page: what it has seen when there is no next cursor. *)
Fixpoint walk {A} (fetch : Z → option (page A)) (fuel : nat) (offset : Z) : option (list A) :=
  match fuel with
  | O => None
  | S fuel =>
      p ← fetch offset;
      if decide (NextCursor p = ""%string) then Some (Items p)
      else o ← Atoi64 (NextCursor p); rest ← walk fetch fuel o; Some (Items p ++ rest)
  end.

Section pages.
Context {A : Type}.
Implicit Types (items : list A) (limit offset : Z).

Lemma norm_limit_pos limit : 0 < norm_limit limit.
Proof. unfold norm_limit. destruct (Z.leb_spec limit 0); lia. Qed.

Lemma slice_ok items a b : 0 ≤ a ≤ b → b ≤ len items →
  slice items a b = Some (take (Z.to_nat (b - a)) (drop (Z.to_nat a) items)).
Proof. intros ? ?. unfold slice. by rewrite !(proj2 (Z.leb_le _ _)) by lia. Qed.

(** The window between two clamped bounds. *)
Lemma window_take items o L : 0 ≤ o → 0 < L →
  take (Z.to_nat (Z.min (Z.min o (len items) + L) (len items) - Z.min o (len items)))
    (drop (Z.to_nat (Z.min o (len items))) items) = take (Z.to_nat L) (drop (Z.to_nat o) items).
Proof.
  intros Ho HL. unfold len. destruct (Z.le_gt_cases (Z.of_nat (length items)) o).
  - rewrite !drop_ge by lia. by rewrite !take_nil.
  - rewrite (Z.min_l o) by lia. destruct (Z.le_gt_cases (o + L) (Z.of_nat (length items))).
    + f_equal. lia.
    + rewrite !take_ge by (rewrite length_drop; lia). done.
Qed.

(** Without overflow a listing does not panic, and returns the window asked for. *)
Lemma paginate_spec items limit offset sort :
  Z.min (Z.max offset 0) (len items) + norm_limit limit < 2 ^ 63 →
  ∃ p, paginate items limit offset sort = Some p ∧
    Items p = take (Z.to_nat (norm_limit limit)) (drop (Z.to_nat offset) items) ∧
    Total p = len items ∧ len (Items p) ≤ norm_limit limit ∧ SortName p = sort ∧
    NextCursor p = if Z.max offset 0 + norm_limit limit <? len items
                   then Itoa (Z.max offset 0 + norm_limit limit) else ""%string.
Proof.
  intros Hb. unfold paginate. pose proof (norm_limit_pos limit) as Hl.
  set (L := norm_limit limit) in *. unfold len in *.
  rewrite wrap64_id by (unfold int64_ok; lia).
  rewrite slice_ok by (unfold len; lia). simpl. eexists. split; [done|]. simpl.
  pose proof (window_take items (Z.max offset 0) L ltac:(lia) Hl) as Hw. unfold len in Hw.
  replace (Z.to_nat (Z.max offset 0)) with (Z.to_nat offset) in Hw by lia.
  rewrite Hw. split; [done|]. split; [done|]. split; [rewrite length_take; lia|]. split; [done|].
  destruct (Z.ltb_spec (Z.max offset 0 + L) (Z.of_nat (length items))).
  - rewrite (proj2 (Z.ltb_lt _ _)) by lia. f_equal. lia.
  - by rewrite (proj2 (Z.ltb_ge _ _)) by lia.
Qed.

(** Following the cursors of windows gives every element once, in order. *)
Lemma walk_windows (fetch : Z → option (page A)) items L fuel offset :
  0 < L → len items + L < 2 ^ 63 →
  (∀ o, 0 ≤ o ≤ len items → ∃ p, fetch o = Some p ∧ Items p = take (Z.to_nat L) (drop (Z.to_nat o) items) ∧
     NextCursor p = if o + L <? len items then Itoa (o + L) else ""%string) →
  0 ≤ offset ≤ len items → len items - offset < Z.of_nat fuel →
  walk fetch fuel offset = Some (drop (Z.to_nat offset) items).
Proof.
  intros HL Hb Hfetch. revert offset. induction fuel as [|fuel IH]; intros offset Ho Hf; [lia|]. cbn [walk].
  destruct (Hfetch offset Ho) as (p & -> & Hi & Hn). cbn [mbind option_bind]. rewrite Hn, Hi.
  destruct (Z.ltb_spec (offset + L) (len items)).
  - destruct (Atoi_Itoa (offset + L) ltac:(lia)) as [Ha Hne]. rewrite decide_False, Ha by done. cbn [mbind option_bind].
    rewrite IH by lia. cbn [mbind option_bind]. f_equal.
    rewrite Z2Nat.inj_add, <- drop_drop by lia. apply take_drop.
  - rewrite decide_True by done. f_equal. apply take_ge. rewrite length_drop. unfold len in *. lia.
Qed.

Lemma paginate_walk items limit sort fuel :
  len items + norm_limit limit < 2 ^ 63 → len items < Z.of_nat fuel →
  walk (λ o, paginate items limit o sort) fuel 0 = Some items.
Proof.
  intros Hb Hf. pose proof (norm_limit_pos limit).
  apply (walk_windows _ items (norm_limit limit)); [done|done| |unfold len; lia|lia].
  intros o Ho. destruct (paginate_spec items limit o sort ltac:(lia)) as (p & Hp & Hi & _ & _ & _ & Hn).
  exists p. rewrite Z.max_l in Hn by lia. auto.
Qed.
End pages.

#[export] Hint Resolve norm_limit_pos : gm.
