(* ===== verification/Listing.v ===== *)
(** * The listings of the job store and of the job list of the API

    The reading side of [server/store.go]: [List], [ListRuns], [ListDomains], [QueryEntries],
    [ListTags], [ListBatches] with their filters and orders, the domain and batch summaries,
    and [parseListFilter] and [handleListJobs] of [server/handlers.go], which merge the jobs
    in flight with the runs.

    A listing ranges over maps, whose order of iteration is open: the rows in the order in
    which they are met are an argument, and so are the maps in [Store.v] what they are a
    permutation of.  A filter has Go's zero values: the empty string, zero, the zero time. *)

From S2P Require Import Prelude GoStrings Scoring RateLimit Store Sorting.

Local Open Scope Z_scope.
Local Open Scope list_scope.

(** ** Orders and filters: [server/models.go] *)

Inductive JobSort :=
| JobSortCreatedAtDesc | JobSortCreatedAtAsc | JobSortStartedAtDesc | JobSortStartedAtAsc
| JobSortDomainAsc | JobSortDomainDesc | JobSortBatchIDAsc | JobSortBatchIDDesc
| JobSortErrorDesc | JobSortCriticalDesc | JobSortFinishedAtDesc | JobSortFinishedAtAsc
| JobSortWorstLevelDesc | JobSortWorstLevelAsc | JobSortScoreDesc | JobSortScoreAsc
| JobSortDurationDesc | JobSortDurationAsc | JobSortEntryCountDesc | JobSortEntryCountAsc
| JobSortOther (s : string).

(** The text of an order. *)
Definition sort_string (v : JobSort) : string :=
  match v with
  | JobSortCreatedAtDesc => "created_at_desc" | JobSortCreatedAtAsc => "created_at_asc"
  | JobSortStartedAtDesc => "started_at_desc" | JobSortStartedAtAsc => "started_at_asc"
  | JobSortDomainAsc => "domain_asc" | JobSortDomainDesc => "domain_desc"
  | JobSortBatchIDAsc => "batch_id_asc" | JobSortBatchIDDesc => "batch_id_desc"
  | JobSortErrorDesc => "error_desc" | JobSortCriticalDesc => "critical_desc"
  | JobSortFinishedAtDesc => "finished_at_desc" | JobSortFinishedAtAsc => "finished_at_asc"
  | JobSortWorstLevelDesc => "worst_level_desc" | JobSortWorstLevelAsc => "worst_level_asc"
  | JobSortScoreDesc => "score_desc" | JobSortScoreAsc => "score_asc"
  | JobSortDurationDesc => "duration_desc" | JobSortDurationAsc => "duration_asc"
  | JobSortEntryCountDesc => "entry_count_desc" | JobSortEntryCountAsc => "entry_count_asc"
  | JobSortOther s => s
  end%string.

Definition job_sorts : list JobSort :=
  [JobSortCreatedAtDesc; JobSortCreatedAtAsc; JobSortStartedAtDesc; JobSortStartedAtAsc;
   JobSortDomainAsc; JobSortDomainDesc; JobSortBatchIDAsc; JobSortBatchIDDesc;
   JobSortErrorDesc; JobSortCriticalDesc; JobSortFinishedAtDesc; JobSortFinishedAtAsc;
   JobSortWorstLevelDesc; JobSortWorstLevelAsc; JobSortScoreDesc; JobSortScoreAsc;
   JobSortDurationDesc; JobSortDurationAsc; JobSortEntryCountDesc; JobSortEntryCountAsc].

(** The conversion [JobSort(s)]. *)
Definition job_sort (s : string) : JobSort :=
  default (JobSortOther s) (List.find (λ v, String.eqb (sort_string v) s) job_sorts).

#[export] Instance JobSort_eq_dec : EqDecision JobSort.
Proof. solve_decision. Defined.

(** The orders the job list offers. *)
Definition isValidJobSort (v : JobSort) : bool :=
  match v with
  | JobSortCreatedAtDesc | JobSortCreatedAtAsc | JobSortStartedAtDesc | JobSortStartedAtAsc
  | JobSortDomainAsc | JobSortDomainDesc | JobSortBatchIDAsc | JobSortBatchIDDesc
  | JobSortErrorDesc | JobSortCriticalDesc => true
  | _ => false
  end.

Definition normalizeJobSort (v : JobSort) : JobSort :=
  if isValidJobSort v then v else JobSortStartedAtDesc.

Inductive DomainSort :=
| DomainSortNameDesc | DomainSortLevelDesc | DomainSortLevelAsc | DomainSortScoreDesc
| DomainSortScoreAsc | DomainSortLastRunDesc | DomainSortLastRunAsc | DomainSortRunCountDesc
| DomainSortRunCountAsc | DomainSortNameAsc (* and every other text *).

Inductive JobSeverityFilter := JobSeverityAll | JobSeverityWarningsPlus | JobSeverityErrorsOnly.
#[export] Instance JobSeverityFilter_eq_dec : EqDecision JobSeverityFilter.
Proof. solve_decision. Defined.

Record JobFilter := {
  jf_Status : string; jf_BatchID : string; jf_Domain : string; jf_ClientIP : string;
  jf_Severity : JobSeverityFilter; jf_CreatedAfter : Z; jf_CreatedBefore : Z;
  jf_Limit : Z; jf_Offset : Z; jf_Sort : JobSort
}.

Record RunFilter := {
  rf_DomainID : Z; rf_Domain : string; rf_DomainExact : bool; rf_BatchID : string;
  rf_ClientIP : string; rf_Tag : string; rf_EntryTag : string; rf_Status : string;
  rf_Severity : JobSeverityFilter; rf_WorstLevel : string; rf_Grade : string;
  rf_FinishedAfter : Z; rf_FinishedBefore : Z; rf_Limit : Z; rf_Offset : Z; rf_Sort : JobSort
}.

Record DomainFilter := {
  df_Tag : string; df_Name : string; df_LatestLevel : string; df_MinLevel : string;
  df_Limit : Z; df_Offset : Z; df_Sort : DomainSort
}.

Record EntryFilter := {
  ef_RunID : string; ef_DomainID : Z; ef_Tag : string; ef_Module : string; ef_Testcase : string;
  ef_EntryTag : string; ef_Level : string; ef_LatestOnly : bool; ef_BatchID : string;
  ef_Limit : Z; ef_Offset : Z
}.

(** A condition that applies when the field of the filter is set. *)
Definition when_set (field : string) (cond : bool) : bool := String.eqb field "" || cond.
Definition when_time (field : Z) (cond : bool) : bool := (field =? zero_time) || cond.
Definition when_id (field : Z) (cond : bool) : bool := (field =? 0) || cond.

Section listings.
Context `{GoUnicode} {X N C : Type} (jc_zero : C).
Implicit Types (s : store X N C) (job : Job N C) (run : Run N).

(** ** Keys *)

Definition severityRank (level : string) : Z :=
  let l := to_upper level in
  if decide (l = "CRITICAL")%string then 4
  else if decide (l = "ERROR")%string then 3
  else if decide (l = "WARNING")%string then 2
  else if decide (l = "NOTICE")%string then 1
  else 0.

Definition effectiveStartTime job : Z :=
  if decide (j_StartedAt job = zero_time) then j_CreatedAt job else j_StartedAt job.
Definition runStartTime run : Z :=
  if decide (r_StartedAt run = zero_time) then r_CreatedAt run else r_StartedAt run.

(** [job.SeverityTotals["ERROR"]], [0] in a nil map. *)
Definition job_error job : Z := match j_SeverityTotals job with Some (_, _, e, _) => e | None => 0 end.
Definition job_critical job : Z := match j_SeverityTotals job with Some (_, _, _, c) => c | None => 0 end.
Definition jobErrorCount job : Z := job_error job + job_critical job.

Definition sev_warning run : Z := (r_Sev run).1.1.2.
Definition sev_error run : Z := (r_Sev run).1.2.
Definition sev_critical run : Z := (r_Sev run).2.
(** ** Comparisons *)

Definition job_tail : Job N C → Job N C → bool :=
  by_key Z.ltb j_CreatedAt Desc (by_last String.ltb j_ID Asc).

(** [sortJobSlice] *)
Definition job_less (so : JobSort) : Job N C → Job N C → bool :=
  match normalizeJobSort so with
  | JobSortCreatedAtAsc => by_key Z.ltb j_CreatedAt Asc job_tail
  | JobSortCreatedAtDesc => by_key Z.ltb j_CreatedAt Desc job_tail
  | JobSortStartedAtDesc => by_key Z.ltb effectiveStartTime Desc job_tail
  | JobSortStartedAtAsc => by_key Z.ltb effectiveStartTime Asc job_tail
  | JobSortDomainAsc => by_key String.ltb (λ j, to_lower (j_Domain j)) Asc job_tail
  | JobSortDomainDesc => by_key String.ltb (λ j, to_lower (j_Domain j)) Desc job_tail
  | JobSortBatchIDAsc => by_key String.ltb (λ j, to_lower (j_BatchID j)) Asc job_tail
  | JobSortBatchIDDesc => by_key String.ltb (λ j, to_lower (j_BatchID j)) Desc job_tail
  | JobSortErrorDesc => by_key Z.ltb jobErrorCount Desc (by_key Z.ltb job_critical Desc job_tail)
  | JobSortCriticalDesc => by_key Z.ltb job_critical Desc (by_key Z.ltb jobErrorCount Desc job_tail)
  | _ => job_tail
  end.
Definition sortJobSlice (so : JobSort) : list (Job N C) → list (Job N C) := sort_slice (job_less so).

Definition run_tail : Run N → Run N → bool :=
  by_key Z.ltb r_FinishedAt Desc (by_last String.ltb r_ID Asc).

(** The comparison of [ListRuns]. *)
Definition run_less (so : JobSort) : Run N → Run N → bool :=
  match so with
  | JobSortCreatedAtAsc => by_key Z.ltb r_CreatedAt Asc run_tail
  | JobSortCreatedAtDesc => by_key Z.ltb r_CreatedAt Desc run_tail
  | JobSortStartedAtDesc => by_key Z.ltb runStartTime Desc run_tail
  | JobSortStartedAtAsc => by_key Z.ltb runStartTime Asc run_tail
  | JobSortDomainAsc => by_key String.ltb r_Domain Asc run_tail
  | JobSortDomainDesc => by_key String.ltb r_Domain Desc run_tail
  | JobSortBatchIDAsc => by_key String.ltb r_BatchID Asc run_tail
  | JobSortBatchIDDesc => by_key String.ltb r_BatchID Desc run_tail
  | JobSortErrorDesc => by_key Z.ltb (λ r, sev_error r + sev_critical r) Desc run_tail
  | JobSortCriticalDesc => by_key Z.ltb sev_critical Desc run_tail
  | JobSortFinishedAtDesc => by_key Z.ltb r_FinishedAt Desc run_tail
  | JobSortFinishedAtAsc => by_key Z.ltb r_FinishedAt Asc run_tail
  | JobSortWorstLevelDesc => by_key Z.ltb (λ r, severityRank (r_WorstLevel r)) Desc run_tail
  | JobSortWorstLevelAsc => by_key Z.ltb (λ r, severityRank (r_WorstLevel r)) Asc run_tail
  | JobSortScoreDesc => by_key Z.ltb (λ r, default (-1) (r_Score r)) Desc run_tail
  | JobSortScoreAsc => by_key Z.ltb (λ r, default 9999 (r_Score r)) Asc run_tail
  | JobSortDurationDesc => by_key Z.ltb r_DurationMs Desc run_tail
  | JobSortDurationAsc => by_key Z.ltb r_DurationMs Asc run_tail
  | JobSortEntryCountDesc => by_key Z.ltb r_EntryCount Desc run_tail
  | JobSortEntryCountAsc => by_key Z.ltb r_EntryCount Asc run_tail
  | JobSortOther _ => run_tail
  end.

(** [sortDomainSlice], on domains with their tags. *)
Definition domain_less (ds : DomainSort) : Domain → Domain → bool :=
  let by_name := by_last String.ltb d_Name in
  match ds with
  | DomainSortNameDesc => by_name Desc
  | DomainSortLevelDesc => by_key Z.ltb (λ d, severityRank (d_LatestLevel d)) Desc (by_name Asc)
  | DomainSortLevelAsc => by_key Z.ltb (λ d, severityRank (d_LatestLevel d)) Asc (by_name Asc)
  | DomainSortScoreDesc => by_key Z.ltb (λ d, default (-1) (d_LatestScore d)) Desc (by_name Asc)
  | DomainSortScoreAsc => by_key Z.ltb (λ d, default 9999 (d_LatestScore d)) Asc (by_name Asc)
  | DomainSortLastRunDesc => by_key Z.ltb d_LatestRunAt Desc (by_name Asc)
  | DomainSortLastRunAsc => by_key Z.ltb d_LatestRunAt Asc (by_name Asc)
  | DomainSortRunCountDesc => by_key Z.ltb d_RunCount Desc (by_name Asc)
  | DomainSortRunCountAsc => by_key Z.ltb d_RunCount Asc (by_name Asc)
  | DomainSortNameAsc => by_name Asc
  end.

Definition entry_less : Entry X → Entry X → bool :=
  by_key String.ltb e_RunID Asc (by_last Z.ltb e_ID Asc).

(** Newest first. *)
Definition batch_less : Batch → Batch → bool :=
  by_key Z.ltb b_CreatedAt Desc (by_last String.ltb b_ID Desc).

(** ** Conditions *)

Definition contains_fold (s sub : string) : bool := contains (to_lower s) (to_lower sub).

Definition job_matches (f : JobFilter) job : bool :=
  when_set (jf_Status f) (String.eqb (status_string (j_Status job)) (jf_Status f)) &&
  when_set (jf_BatchID f) (String.eqb (j_BatchID job) (jf_BatchID f)) &&
  when_set (jf_Domain f) (contains_fold (j_Domain job) (jf_Domain f)) &&
  when_set (jf_ClientIP f) (String.eqb (c_ClientIP (j_copied job)) (jf_ClientIP f)) &&
  when_time (jf_CreatedAfter f) (negb (j_CreatedAt job <? jf_CreatedAfter f)) &&
  when_time (jf_CreatedBefore f) (negb (jf_CreatedBefore f <? j_CreatedAt job)).

Definition matchDomain (domain want : string) (exact : bool) : bool :=
  if exact then String.eqb (to_lower domain) (to_lower want)
  else contains (to_lower domain) (to_lower want).

Definition runMatchesSeverity (sev : JobSeverityFilter) run : bool :=
  match sev with
  | JobSeverityWarningsPlus => (0 <? sev_warning run) || (0 <? sev_error run) || (0 <? sev_critical run)
  | JobSeverityErrorsOnly => (0 <? sev_error run) || (0 <? sev_critical run)
  | JobSeverityAll => true
  end.

(** The log of the run has an entry with this tag. *)
Definition has_entry_tag s (runID tag : string) : bool :=
  existsb (λ e : Entry X, String.eqb (le_Tag (e_log e)) tag) (default [] (entries (rt s) !! runID)).

Definition run_matches s (f : RunFilter) run : bool :=
  when_id (rf_DomainID f) (r_DomainID run =? rf_DomainID f) &&
  when_set (rf_Tag f) (bool_decide (r_DomainID run ∈ domains_of s (rf_Tag f))) &&
  when_set (rf_EntryTag f) (has_entry_tag s (r_ID run) (rf_EntryTag f)) &&
  when_set (rf_Domain f) (matchDomain (r_Domain run) (rf_Domain f) (rf_DomainExact f)) &&
  when_set (rf_BatchID f) (String.eqb (r_BatchID run) (rf_BatchID f)) &&
  when_set (rf_ClientIP f) (String.eqb (c_ClientIP (r_copied run)) (rf_ClientIP f)) &&
  when_set (rf_Status f) (String.eqb (status_string (r_Status run)) (rf_Status f)) &&
  when_set (rf_WorstLevel f) (String.eqb (r_WorstLevel run) (rf_WorstLevel f)) &&
  runMatchesSeverity (rf_Severity f) run &&
  when_set (rf_Grade f) (match r_Grade run with Some g => String.eqb g (rf_Grade f) | None => false end) &&
  when_time (rf_FinishedAfter f) (negb (r_FinishedAt run <? rf_FinishedAfter f)) &&
  when_time (rf_FinishedBefore f) (negb (rf_FinishedBefore f <? r_FinishedAt run)).

Definition domain_matches s (f : DomainFilter) (d : Domain) : bool :=
  (if decide (df_Tag f = "__none__")%string then negb (0 <? len (tags_of s (d_ID d)))
   else when_set (df_Tag f) (bool_decide (df_Tag f ∈ tags_of s (d_ID d)))) &&
  when_set (df_Name f) (contains_fold (d_Name d) (df_Name f)) &&
  when_set (df_LatestLevel f) (String.eqb (d_LatestLevel d) (df_LatestLevel f)) &&
  when_set (df_MinLevel f) (negb (severityRank (d_LatestLevel d) <? severityRank (df_MinLevel f))).

(** ** Listings; rows are given in the order in which the map is ranged over *)

Definition List (seen : list (Job N C)) (f : JobFilter) : option (page (Job N C)) :=
  paginate (sortJobSlice (jf_Sort f) (List.filter (job_matches f) seen)) (jf_Limit f) (jf_Offset f)
    (sort_string (normalizeJobSort (jf_Sort f))).

Definition ListRuns s (seen : list (Run N)) (f : RunFilter) : option (page (Run N)) :=
  paginate (sort_slice (run_less (rf_Sort f)) (List.filter (run_matches s f) seen))
    (rf_Limit f) (rf_Offset f) "".

Definition runs_of_domain (id limit offset : Z) : RunFilter :=
  {| rf_DomainID := id; rf_Domain := ""; rf_DomainExact := false; rf_BatchID := ""; rf_ClientIP := "";
     rf_Tag := ""; rf_EntryTag := ""; rf_Status := ""; rf_Severity := JobSeverityAll; rf_WorstLevel := "";
     rf_Grade := ""; rf_FinishedAfter := zero_time; rf_FinishedBefore := zero_time; rf_Limit := limit;
     rf_Offset := offset; rf_Sort := JobSortOther "" |}.
Definition ListRunsByDomain s seen (id limit offset : Z) : option (page (Run N)) :=
  ListRuns s seen (runs_of_domain id limit offset).

(** Each domain comes with its tags. *)
Definition ListDomains s (seen : list Domain) (f : DomainFilter) : option (page (Domain * list string)) :=
  without_cursors <$> paginate
    ((λ d, (d, tags_of s (d_ID d))) <$> sort_slice (domain_less (df_Sort f)) (List.filter (domain_matches s f) seen))
    (df_Limit f) (df_Offset f) "".

Definition with_tag (tag : string) (f : DomainFilter) : DomainFilter :=
  {| df_Tag := tag; df_Name := df_Name f; df_LatestLevel := df_LatestLevel f; df_MinLevel := df_MinLevel f;
     df_Limit := df_Limit f; df_Offset := df_Offset f; df_Sort := df_Sort f |}.
Definition ListDomainsByTag s seen (tag : string) (f : DomainFilter) : option (page (Domain * list string)) :=
  ListDomains s seen (with_tag tag f).

(** [ListTags]: name, tag, number of domains. *)
Definition ListTags s (seen : list (string * Tag)) (limit offset : Z) : option (list (string * Tag * Z)) :=
  let tags := (λ nt : string * Tag, (nt, len (domains_of s nt.1))) <$>
              sort_slice (by_last String.ltb fst Asc) seen in
  let offset := Z.max offset 0 in
  if len tags <? offset then Some []
  else slice tags offset (Z.min (wrap64 (offset + norm_limit limit)) (len tags)).

Definition ListBatchesByTag (seen : list Batch) (tag : string) (limit offset : Z) : option (page Batch) :=
  without_cursors <$> paginate (sort_slice batch_less (List.filter (λ b, String.eqb (b_Tag b) tag) seen)) limit offset "".

Definition ListBatches (seen : list Batch) (tagLike : string) (limit offset : Z) : option (page Batch) :=
  let needle := to_lower tagLike in
  without_cursors <$> paginate
    (sort_slice batch_less (List.filter (λ b, when_set needle (contains (to_lower (b_Tag b)) needle)) seen)) limit offset "".

Definition ListProfiles (seen : list StoredProfile) : list StoredProfile :=
  sort_slice (by_last String.ltb p_Name Asc) seen.

(** ** Summaries *)

(** The domains of a tag by level (OK, NOTICE, WARNING, ERROR, CRITICAL) and by grade. *)
Record TagSummary := {
  ts_DomainCount : Z; ts_OK : Z; ts_Notice : Z; ts_Warning : Z; ts_Error : Z; ts_Critical : Z;
  ts_Grades : gmap string Z
}.

(** [m[k]++] *)
Definition count_key (m : gmap string Z) (k : string) : gmap string Z := <[k := default 0 (m !! k) + 1]> m.

(** The loop body of [GetTagSummary] for one domain. *)
Definition summarize s (t : TagSummary) (id : Z) : TagSummary :=
  match domainsByID (dt s) !! id with
  | None => t
  | Some d =>
      let r := severityRank (d_LatestLevel d) in
      let grade := if decide (d_LatestRunID d = "")%string then None
                   else runs (rt s) !! d_LatestRunID d ≫= r_Grade in
      {| ts_DomainCount := ts_DomainCount t;
         ts_OK := ts_OK t + (if r =? 0 then 1 else 0);
         ts_Notice := ts_Notice t + (if r =? 1 then 1 else 0);
         ts_Warning := ts_Warning t + (if r =? 2 then 1 else 0);
         ts_Error := ts_Error t + (if r =? 3 then 1 else 0);
         ts_Critical := ts_Critical t + (if r =? 4 then 1 else 0);
         ts_Grades := match grade with Some g => count_key (ts_Grades t) g | None => ts_Grades t end |}
  end.

Definition GetTagSummary s (tag : string) : option TagSummary :=
  (λ ids, foldl (summarize s)
     {| ts_DomainCount := len ids; ts_OK := 0; ts_Notice := 0; ts_Warning := 0; ts_Error := 0;
        ts_Critical := 0; ts_Grades := ∅ |} ids) <$> tagDomains (tt s) !! tag.

(** [BatchDeletePreview], without what the handler adds. *)
Record BatchDeletePreview := {
  bp_Tag : string; bp_CreatedAt : Z; bp_SnapshotIntent : bool; bp_Exists : bool;
  bp_QueuedJobs : Z; bp_RunningJobs : Z; bp_CompletedRuns : Z; bp_Entries : Z
}.

Definition jobs_of_batch s (batchID : string) (st : JobStatus) : Z :=
  Z.of_nat (size (filter (λ ij : string * Job N C, j_BatchID ij.2 = batchID ∧ j_Status ij.2 = st) (jobs (jt s)))).

(** The number of log entries of the runs [m]. *)
Definition entries_of s (m : gmap string (Run N)) : Z :=
  zsum ((λ ir : string * Run N, len (default [] (entries (rt s) !! r_ID ir.2))) <$> map_to_list m).

Definition BatchDeletePreviewStats s (batchID : string) : BatchDeletePreview :=
  let b := batches s !! batchID in
  let gone := filter (in_batch batchID) (runs (rt s)) in
  {| bp_Tag := default ""%string (b_Tag <$> b); bp_CreatedAt := default zero_time (b_CreatedAt <$> b);
     bp_SnapshotIntent := default false (b_SnapshotIntent <$> b);
     bp_Exists := bool_decide (is_Some b) ||
       bool_decide (filter (λ ij : string * Job N C, j_BatchID ij.2 = batchID) (jobs (jt s)) ≠ ∅) ||
       bool_decide (gone ≠ ∅);
     bp_QueuedJobs := jobs_of_batch s batchID JobQueued; bp_RunningJobs := jobs_of_batch s batchID JobRunning;
     bp_CompletedRuns := Z.of_nat (size gone); bp_Entries := entries_of s gone |}.

(** ** The job list: [handleListJobs] *)

Definition inFlightMergeCap : Z := 10000.

Definition with_window (limit offset : Z) (f : JobFilter) : JobFilter :=
  {| jf_Status := jf_Status f; jf_BatchID := jf_BatchID f; jf_Domain := jf_Domain f; jf_ClientIP := jf_ClientIP f;
     jf_Severity := jf_Severity f; jf_CreatedAfter := jf_CreatedAfter f; jf_CreatedBefore := jf_CreatedBefore f;
     jf_Limit := limit; jf_Offset := offset; jf_Sort := jf_Sort f |}.

(** The filter for the runs of a page; [terminal] when the status asked for is final. *)
Definition run_filter (f : JobFilter) (terminal : bool) (limit : Z) : RunFilter :=
  {| rf_DomainID := 0; rf_Domain := jf_Domain f; rf_DomainExact := false; rf_BatchID := jf_BatchID f;
     rf_ClientIP := jf_ClientIP f; rf_Tag := ""; rf_EntryTag := "";
     rf_Status := if terminal then jf_Status f else ""; rf_Severity := jf_Severity f; rf_WorstLevel := "";
     rf_Grade := ""; rf_FinishedAfter := zero_time; rf_FinishedBefore := zero_time; rf_Limit := limit;
     rf_Offset := 0; rf_Sort := jf_Sort f |}.

Definition isActiveOnly (f : JobFilter) : bool :=
  bool_decide (jf_Status f ∈ [status_string JobQueued; status_string JobRunning; status_string JobPaused]).
Definition isTerminalOnly (f : JobFilter) : bool := negb (isActiveOnly f) && negb (String.eqb (jf_Status f) "").
Definition hasSeverityFilter (f : JobFilter) : bool := bool_decide (jf_Severity f ≠ JobSeverityAll).

Definition in_flight (jobs_seen : list (Job N C)) (f : JobFilter) : option (list (Job N C)) :=
  if negb (isTerminalOnly f) && negb (hasSeverityFilter f)
  then Items <$> List jobs_seen (with_window inFlightMergeCap 0 f)
  else Some [].

(** The runs of the page, as jobs, and how many runs there are in all. *)
Definition graduates s (runs_seen : list (Run N)) (f : JobFilter) (limit : Z) : option (list (Job N C) * Z) :=
  if isActiveOnly f then Some ([], 0)
  else p ← ListRuns s runs_seen (run_filter f (isTerminalOnly f) limit);
       Some (jobFromRun jc_zero <$> Items p, Total p).

Definition handleListJobs s (jobs_seen : list (Job N C)) (runs_seen : list (Run N)) (f : JobFilter)
  : option (page (Job N C)) :=
  let offset := Z.max (jf_Offset f) 0 in
  let limit := norm_limit (jf_Limit f) in
  inFlight ← in_flight jobs_seen f;
  '(runItems, runTotal) ← graduates s runs_seen f (wrap64 (wrap64 (offset + limit) + len inFlight));
  let allItems := sortJobSlice (jf_Sort f) (inFlight ++ runItems) in
  let total := len inFlight + runTotal in
  let start := Z.min offset (len allItems) in
  let end_ := Z.min (wrap64 (start + limit)) (len allItems) in
  pageItems ← slice allItems start end_;
  let next := wrap64 (offset + len pageItems) in
  Some {| Items := pageItems; Total := total; Limit := limit; Offset := offset;
          PrevCursor := if 0 <? offset then Itoa (Z.max (offset - limit) 0) else "";
          NextCursor := if next <? total then Itoa next else "";
          SortName := sort_string (normalizeJobSort (jf_Sort f)) |}.
End listings.

(** ** [QueryEntries] *)

Section entries.
(** The test case of a log entry is part of [X]. *)
Context {X N C : Type} `{GoUnicode} (testcase : X → string).
Implicit Types (s : store X N C).

(** The conditions on the run of an entry. *)
Definition entry_run_matches s (f : EntryFilter) (runID : string) : bool :=
  when_set (ef_RunID f) (String.eqb runID (ef_RunID f)) &&
  (negb (ef_LatestOnly f) || (negb (String.eqb runID "") &&
     bool_decide (map_Exists (λ _ d, d_LatestRunID d = runID) (domainsByID (dt s))))) &&
  when_set (ef_BatchID f) (bool_decide (map_Exists (λ _ r, r_BatchID r = ef_BatchID f ∧ r_ID r = runID) (runs (rt s)))).

Definition entry_matches s (f : EntryFilter) (e : Entry X) : bool :=
  when_id (ef_DomainID f) (e_DomainID e =? ef_DomainID f) &&
  when_set (ef_Tag f) (bool_decide (e_DomainID e ∈ domains_of s (ef_Tag f))) &&
  when_set (ef_Module f) (EqualFold (le_Module (e_log e)) (ef_Module f)) &&
  when_set (ef_Testcase f) (EqualFold (testcase (le_rest (e_log e))) (ef_Testcase f)) &&
  when_set (ef_EntryTag f) (String.eqb (le_Tag (e_log e)) (ef_EntryTag f)) &&
  when_set (ef_Level f) (String.eqb (le_Level (e_log e)) (ef_Level f)).

Definition matching_entries s (f : EntryFilter) (seen : list (string * list (Entry X))) : list (Entry X) :=
  flat_map (λ ies : string * list (Entry X),
    if entry_run_matches s f ies.1 then List.filter (entry_matches s f) ies.2 else []) seen.

Definition QueryEntries s (seen : list (string * list (Entry X))) (f : EntryFilter) : option (page (Entry X)) :=
  paginate (sort_slice entry_less (matching_entries s f seen)) (ef_Limit f) (ef_Offset f) "".
End entries.

(** ** [parseListFilter] *)

Definition maxListLimit : Z := 500.

Section parse.
(** [parseTime] is [time.Parse] with the layout of RFC 3339. *)
Context `{Netip} (parseTime : string → option Z).

Definition clientIPFilter (v : string) : string :=
  let v := trim_space v in
  match ParseAddr v with Some a => AddrString (Unmap a) | None => v end.

Definition isValidJobSeverityFilter (s : string) : option JobSeverityFilter :=
  if decide (s = "warnings_plus")%string then Some JobSeverityWarningsPlus
  else if decide (s = "errors_only")%string then Some JobSeverityErrorsOnly
  else None.

(** A parameter that may be absent; an error carries the code of the response. *)
Definition optional {A} (raw : string) (unset : A) (parse : string → option A) (code : string) : result A string :=
  if decide (raw = ""%string) then Ok unset
  else match parse raw with Some a => Ok a | None => Err code end.

Definition parse_limit (raw : string) : option Z :=
  n ← Atoi64 raw; if (n <=? 0) || (maxListLimit <? n) then None else Some n.
Definition parse_offset (raw : string) : option Z :=
  n ← Atoi64 raw; if n <? 0 then None else Some n.
Definition parse_page (limit : Z) (raw : string) : option Z :=
  n ← Atoi64 raw; if n <=? 0 then None else Some (wrap64 ((n - 1) * limit)).
Definition parse_sort (raw : string) : option JobSort :=
  if isValidJobSort (job_sort raw) then Some (job_sort raw) else None.

Local Open Scope string_scope.

(** [limit], or else [page_size]. *)
Definition parse_size (q : string → string) (defaultLimit : Z) : result Z string :=
  if decide (q "limit" = "") then optional (q "page_size") defaultLimit parse_limit "invalid_page_size"
  else optional (q "limit") defaultLimit parse_limit "invalid_limit".

(** [cursor], or else [page], or else [offset]. *)
Definition parse_position (q : string → string) (limit : Z) : result Z string :=
  if decide (q "cursor" = "") then
    if decide (q "page" = "") then optional (q "offset") 0%Z parse_offset "invalid_offset"
    else optional (q "page") 0%Z (parse_page limit) "invalid_page"
  else optional (q "cursor") 0%Z parse_offset "invalid_cursor".

Definition valid_range (after before : Z) : bool :=
  negb (negb (after =? zero_time)%Z && negb (before =? zero_time)%Z && (before <? after)%Z).

(** [get] is [r.URL.Query().Get]. *)
Definition parseListFilter (get : string → string) (defaultLimit : Z) : result JobFilter string :=
  let q name := trim_space (get name) in
  let? severity := optional (q "severity") JobSeverityAll isValidJobSeverityFilter "invalid_severity" in
  let? after := optional (q "created_after") zero_time parseTime "invalid_created_after" in
  let? before := optional (q "created_before") zero_time parseTime "invalid_created_before" in
  if negb (valid_range after before) then Err "invalid_time_range"
  else
    let? sort := optional (q "sort") JobSortStartedAtDesc parse_sort "invalid_sort" in
    let? limit := parse_size q defaultLimit in
    let? offset := parse_position q limit in
    Ok {| jf_Status := q "status"; jf_BatchID := q "batch_id"; jf_Domain := q "domain";
          jf_ClientIP := clientIPFilter (get "client_ip"); jf_Severity := severity; jf_CreatedAfter := after;
          jf_CreatedBefore := before; jf_Limit := limit; jf_Offset := offset; jf_Sort := sort |}.
End parse.
