(* ===== verification/ListingFacts.v ===== *)
(** * The listings show what is there

    The comparisons of [Listing.v] determine the order of what a listing shows, following
    the cursors shows all of it, and a page of the merged job list is a window of the merged
    list when the two comparisons involved agree; when they do not, runs are skipped. *)

From S2P Require Import Prelude GoStrings Scoring RateLimit Store StoreFacts Sorting Listing.

Local Open Scope Z_scope.
Local Open Scope list_scope.

(** ** Orders *)

Section orders.
Context `{GoUnicode} {X N C : Type}.

#[export] Instance job_less_weak so : StrictWeak (job_less (N := N) (C := C) so).
Proof. unfold job_less, job_tail. destruct (normalizeJobSort so); apply _. Qed.
#[export] Instance job_less_keyed so : Keyed j_ID (job_less (N := N) (C := C) so).
Proof. unfold job_less, job_tail. destruct (normalizeJobSort so); apply _. Qed.
#[export] Instance run_less_weak so : StrictWeak (run_less (N := N) so).
Proof. unfold run_less, run_tail. destruct so; apply _. Qed.
#[export] Instance run_less_keyed so : Keyed r_ID (run_less (N := N) so).
Proof. unfold run_less, run_tail. destruct so; apply _. Qed.
#[export] Instance domain_less_weak ds : StrictWeak (domain_less ds).
Proof. destruct ds; apply _. Qed.
#[export] Instance domain_less_keyed ds : Keyed d_Name (domain_less ds).
Proof. destruct ds; apply _. Qed.
#[export] Instance entry_less_weak : StrictWeak (entry_less (X := X)).
Proof. apply _. Qed.
#[export] Instance entry_less_keyed : Keyed e_ID (entry_less (X := X)).
Proof. apply _. Qed.
End orders.

(** ** The rows of the maps *)

(** The values of a map, in some order. *)
Definition rows_of {K V} `{Countable K} (m : gmap K V) : list V := (map_to_list m).*2.

Section rows.
Context {K V : Type} `{Countable K}.

Lemma rows_of_keys (m : gmap K V) (key : V → K) :
  (∀ k v, m !! k = Some v → key v = k) → key <$> rows_of m = (map_to_list m).*1.
Proof.
  intros Hk. unfold rows_of. rewrite <- list_fmap_compose. apply list_fmap_ext.
  intros i [k v] Hi. apply Hk. apply elem_of_map_to_list. by eapply list_elem_of_lookup_2.
Qed.

Lemma rows_of_NoDup (m : gmap K V) (key : V → K) :
  (∀ k v, m !! k = Some v → key v = k) → NoDup (key <$> rows_of m).
Proof. intros Hk. rewrite rows_of_keys by done. apply NoDup_fst_map_to_list. Qed.

Lemma elem_of_rows_of (m : gmap K V) v : v ∈ rows_of m ↔ ∃ k, m !! k = Some v.
Proof.
  unfold rows_of. rewrite list_elem_of_fmap. split.
  - intros ([k v'] & -> & Hin). exists k. by apply elem_of_map_to_list.
  - intros [k Hk]. exists (k, v). split; [done|]. by apply elem_of_map_to_list.
Qed.
End rows.

Lemma NoDup_key_filter {A K} (key : A → K) (p : A → bool) l :
  NoDup (key <$> l) → NoDup (key <$> List.filter p l).
Proof.
  induction l as [|x l IH]; [done|]. simpl. intros [Hx Hl]%NoDup_cons. destruct (p x); [|by apply IH].
  simpl. apply NoDup_cons. split; [|by apply IH]. intros Hin. apply Hx.
  apply list_elem_of_fmap in Hin as (y & Hy & Hyin). apply list_elem_of_fmap. exists y. split; [done|].
  apply list_elem_of_In, filter_In in Hyin as [Hyin _]. by apply list_elem_of_In.
Qed.

Lemma filter_perm {A} (p : A → bool) l1 l2 : l1 ≡ₚ l2 → List.filter p l1 ≡ₚ List.filter p l2.
Proof. induction 1; simpl; repeat case_match; eauto using Permutation. Qed.

(** The listing of the matching rows in the order of the map does not depend on it. *)
Lemma sorted_rows_ext {A K} (less : A → A → bool) `{!StrictWeak less} (key : A → K) `{!Keyed key less}
    (p : A → bool) l1 l2 :
  NoDup (key <$> l2) → l1 ≡ₚ l2 →
  sort_slice less (List.filter p l1) = sort_slice less (List.filter p l2).
Proof.
  intros Hn HP. apply (sort_slice_ext less key); [|by apply filter_perm].
  apply NoDup_key_filter. by rewrite HP.
Qed.

Section wf.
Context `{GoUnicode} {X N C : Type}.
Implicit Types (s : store X N C) (job : Job N C) (run : Run N).

(** The domains, reached through their names. *)
Definition domain_rows s : list Domain :=
  omap (λ ni : string * Z, domainsByID (dt s) !! ni.2) (map_to_list (domains (dt s))).

(** What a listing meets when it ranges over the maps of the store. *)
Record ranged s (js : list (Job N C)) (rs : list (Run N)) (ds : list Domain)
    (es : list (string * list (Entry X))) : Prop := {
  rg_jobs : js ≡ₚ rows_of (jobs (jt s));
  rg_runs : rs ≡ₚ rows_of (runs (rt s));
  rg_domains : ds ≡ₚ domain_rows s;
  rg_entries : es ≡ₚ map_to_list (entries (rt s))
}.

Lemma jobs_NoDup s js : store_wf s → js ≡ₚ rows_of (jobs (jt s)) → NoDup (j_ID <$> js).
Proof.
  intros Hwf ->. apply rows_of_NoDup. intros id j Hj. by apply (jw_id _ (wf_jobs _ Hwf)) in Hj as [? _].
Qed.

Lemma runs_NoDup s rs : store_wf s → rs ≡ₚ rows_of (runs (rt s)) → NoDup (r_ID <$> rs).
Proof.
  intros Hwf ->. apply rows_of_NoDup. intros id j Hj. by apply (rw_id _ (wf_runs _ Hwf)) in Hj as [? _].
Qed.

Lemma domains_NoDup s ds : store_wf s → ds ≡ₚ domain_rows s → NoDup (d_Name <$> ds).
Proof.
  intros Hwf ->. unfold domain_rows.
  assert (Hin : ∀ n i, (n, i) ∈ map_to_list (domains (dt s)) → domains (dt s) !! n = Some i)
    by (intros n i; apply elem_of_map_to_list).
  pose proof (NoDup_fst_map_to_list (domains (dt s))) as Hn. revert Hin Hn.
  generalize (map_to_list (domains (dt s))). intros l.
  assert (Hname : ∀ n i d, domains (dt s) !! n = Some i → domainsByID (dt s) !! i = Some d → d_Name d = n).
  { intros n i d Hi Hd. destruct (dw_name _ (wf_domains _ Hwf) _ _ Hi) as (d' & Hd' & <-). congruence. }
  induction l as [|[n i] l IH]; [constructor|]. simpl. intros Hin [Hnl Hl]%NoDup_cons.
  assert (Hl' : NoDup (d_Name <$> omap (λ ni : string * Z, domainsByID (dt s) !! ni.2) l)).
  { apply IH; [|done]. intros n' i' Hi'. apply Hin. by apply list_elem_of_further. }
  destruct (domainsByID (dt s) !! i) as [d|] eqn:Ed; [|done]. simpl. apply NoDup_cons. split; [|done].
  intros Hd. apply Hnl. rewrite (Hname n i d) in Hd; [|apply Hin, list_elem_of_here|done].
  apply list_elem_of_fmap in Hd as (d' & Hd' & Hd''). apply list_elem_of_omap in Hd'' as ([n' i'] & Hi' & He').
  simpl in He'. rewrite (Hname n' i' d') in Hd'; [|apply Hin; by apply list_elem_of_further|done].
  subst n'. apply list_elem_of_fmap. by exists (n, i').
Qed.

(** Rows of logs are numbered uniquely, within a log and across logs. *)
Lemma entries_unique s id1 es1 e1 id2 es2 e2 :
  store_wf s → entries (rt s) !! id1 = Some es1 → entries (rt s) !! id2 = Some es2 →
  e1 ∈ es1 → e2 ∈ es2 → e_ID e1 = e_ID e2 → id1 = id2 ∧ e1 = e2.
Proof.
  intros Hwf H1 H2 [n1 Hn1]%list_elem_of_lookup [n2 Hn2]%list_elem_of_lookup He.
  destruct (rw_unique _ (wf_runs _ Hwf) _ _ _ _ _ _ _ _ H1 Hn1 H2 Hn2 He) as [<- <-]. split; [done|]. congruence.
Qed.

Lemma entries_NoDup s id es : store_wf s → entries (rt s) !! id = Some es → NoDup (e_ID <$> es).
Proof.
  intros Hwf Hes. apply NoDup_alt. intros i j x. rewrite !list_lookup_fmap.
  intros (e1 & H1 & ->)%fmap_Some (e2 & H2 & He)%fmap_Some.
  by destruct (rw_unique _ (wf_runs _ Hwf) _ _ _ _ _ _ _ _ Hes H1 Hes H2 He).
Qed.

Context `{GoUnicode} (testcase : X → string).
Abbreviation matching := (matching_entries testcase).

Lemma matching_elem s f l e :
  e ∈ matching s f l → ∃ id es, (id, es) ∈ l ∧ e ∈ es.
Proof.
  unfold matching_entries. rewrite list_elem_of_In, in_flat_map. intros ([id es] & Hin & He). exists id, es.
  split; [by apply list_elem_of_In|]. simpl in He. destruct (entry_run_matches _ _ _); [|done].
  apply filter_In in He as [He _]. by apply list_elem_of_In.
Qed.

Lemma matching_NoDup s f es :
  store_wf s → es ≡ₚ map_to_list (entries (rt s)) → NoDup (e_ID <$> matching s f es).
Proof.
  intros Hwf HP.
  assert (Hin : ∀ id rows, (id, rows) ∈ es → entries (rt s) !! id = Some rows)
    by (intros id rows; rewrite HP; apply elem_of_map_to_list).
  assert (Hn : NoDup es.*1) by (rewrite HP; apply NoDup_fst_map_to_list).
  clear HP. induction es as [|[id rows] es IH]; [constructor|]. simpl in *. apply NoDup_cons in Hn as [Hid Hn].
  rewrite fmap_app. apply NoDup_app.
  pose proof (Hin _ _ (list_elem_of_here _ _)) as Hrows. split; [|split].
  - destruct (entry_run_matches _ _ _); [|constructor]. apply NoDup_key_filter. by eapply entries_NoDup.
  - intros x Hx Hy. apply list_elem_of_fmap in Hx as (e1 & -> & H1), Hy as (e2 & He & H2).
    destruct (entry_run_matches _ _ _); [|by apply elem_of_nil in H1].
    apply list_elem_of_In, filter_In in H1 as [H1 _]. apply list_elem_of_In in H1.
    apply matching_elem in H2 as (id2 & rows2 & Hin2 & H2).
    destruct (entries_unique s id rows e1 id2 rows2 e2 Hwf) as [<- _]; auto.
    { apply Hin. by apply list_elem_of_further. }
    apply Hid, list_elem_of_fmap. by exists (id, rows2).
  - apply IH; [|done]. intros id' rows' H'. apply Hin. by apply list_elem_of_further.
Qed.

Lemma matching_perm s f l1 l2 : l1 ≡ₚ l2 → matching s f l1 ≡ₚ matching s f l2.
Proof. intros HP. unfold matching_entries. by apply Permutation_flat_map. Qed.

End wf.

Section merged.
Context `{GoUnicode} {X N C : Type} (jc_zero : C).
Implicit Types s : store X N C.
(** *** The parts of the job list *)

Abbreviation as_job := (jobFromRun jc_zero).

Lemma as_job_ID (rs : list (Run N)) : j_ID <$> (as_job <$> rs) = r_ID <$> rs.
Proof. rewrite <- list_fmap_compose. by apply list_fmap_ext. Qed.

(** No identifier occurs twice among jobs and runs. *)
Lemma merged_NoDup s js rs (p : Job N C → bool) (q : Run N → bool) :
  store_wf s → js ≡ₚ rows_of (jobs (jt s)) → rs ≡ₚ rows_of (runs (rt s)) →
  NoDup (j_ID <$> List.filter p js ++ (as_job <$> List.filter q rs)).
Proof.
  intros Hwf Hj Hr. rewrite fmap_app, as_job_ID. apply NoDup_app. split; [|split].
  - by apply NoDup_key_filter, (jobs_NoDup s).
  - intros x Hx Hy. apply list_elem_of_fmap in Hx as (j & -> & Hx), Hy as (r & He & Hy).
    apply list_elem_of_In, filter_In in Hx as [Hx _], Hy as [Hy _]. apply list_elem_of_In in Hx, Hy.
    rewrite Hj in Hx. rewrite Hr in Hy. apply elem_of_rows_of in Hx as [id Hx], Hy as [id' Hy].
    apply (jw_id _ (wf_jobs _ Hwf)) in Hx as Hx'. destruct Hx' as [Ej _].
    apply (rw_id _ (wf_runs _ Hwf)) in Hy as Hy'. destruct Hy' as [Er _].
    apply (wf_disjoint _ Hwf) in Hx. congruence.
  - by apply NoDup_key_filter, (runs_NoDup s).
Qed.
End merged.

(** ** The merged job list *)

Section job_list.
Context `{GoUnicode} {X N C : Type} (jc_zero : C).
Implicit Types (s : store X N C) (js : list (Job N C)) (rs : list (Run N)) (f : JobFilter).
Abbreviation as_job := (jobFromRun (N := N) jc_zero).

(** The jobs in flight and the runs that a filter selects. *)
Definition shown_jobs js f : list (Job N C) :=
  if negb (isTerminalOnly f) && negb (hasSeverityFilter f) then List.filter (job_matches f) js else [].
Definition shown_runs s rs f : list (Run N) :=
  if isActiveOnly f then [] else List.filter (run_matches s (run_filter f (isTerminalOnly f) 0)) rs.
Definition shown s js rs f : list (Job N C) := shown_jobs js f ++ (as_job <$> shown_runs s rs f).

Lemma len_filter {A} (p : A → bool) (l : list A) : len (List.filter p l) ≤ len l.
Proof. unfold len. pose proof (filter_length_le p l). lia. Qed.

Lemma in_flight_spec js f :
  len js ≤ inFlightMergeCap → in_flight js f = Some (sortJobSlice (jf_Sort f) (shown_jobs js f)).
Proof.
  unfold in_flight, shown_jobs, inFlightMergeCap. intros Hl. destruct (_ && _); [|done]. unfold List, sortJobSlice.
  pose proof (len_filter (job_matches f) js).
  destruct (paginate_spec (sort_slice (job_less (jf_Sort f)) (List.filter (job_matches f) js)) 10000 0
    (sort_string (normalizeJobSort (jf_Sort f)))) as (p & Hp & Hi & _).
  { unfold len in *. rewrite sort_slice_length. change (norm_limit 10000) with 10000. lia. }
  change (job_matches (N := N) (C := C) (with_window 10000 0 f)) with (job_matches (N := N) (C := C) f). simpl. rewrite Hp. simpl. rewrite Hi.
  f_equal. apply take_ge. rewrite sort_slice_length. unfold len in *. change (norm_limit 10000) with 10000. lia.
Qed.

Lemma graduates_spec s rs f limit :
  0 < limit → len rs + limit < 2 ^ 63 →
  graduates jc_zero s rs f limit =
    Some (as_job <$> take (Z.to_nat limit) (sort_slice (run_less (jf_Sort f)) (shown_runs s rs f)),
          len (shown_runs s rs f)).
Proof.
  intros Hl Hb. unfold graduates, shown_runs. destruct (isActiveOnly f); [by destruct (Z.to_nat limit)|].
  unfold ListRuns.
  change (run_matches s (run_filter f (isTerminalOnly f) limit))
    with (run_matches s (run_filter f (isTerminalOnly f) 0)).
  pose proof (len_filter (run_matches s (run_filter f (isTerminalOnly f) 0)) rs) as Hf.
  set (rows := List.filter _ rs) in *. simpl.
  assert (Hnl : norm_limit limit = limit) by (unfold norm_limit; destruct (Z.leb_spec limit 0); lia).
  destruct (paginate_spec (sort_slice (run_less (jf_Sort f)) rows) limit 0 "") as (p & -> & Hi & Ht & _).
  { unfold len in *. rewrite sort_slice_length. lia. }
  simpl. rewrite Hi, Ht, Hnl. unfold len. by rewrite sort_slice_length.
Qed.

(** The order of the runs agrees with the order of the list they are merged into. *)
Definition agree so (rs : list (Run N)) : Prop :=
  ∀ r1 r2, r1 ∈ rs → r2 ∈ rs → run_less so r1 r2 = true → job_less so (as_job r1) (as_job r2) = true.

(** Of the runs, the first [n] are enough for the first [k] of the merged list. *)
Lemma merged_prefix so k n (F : list (Job N C)) rs :
  NoDup (j_ID <$> F ++ (as_job <$> rs)) → agree so rs → (k ≤ n)%nat →
  take k (sortJobSlice so (F ++ (as_job <$> take n (sort_slice (run_less so) rs)))) =
  take k (sortJobSlice so (F ++ (as_job <$> rs))).
Proof.
  intros Hn Ha Hk. set (R := sort_slice (run_less so) rs).
  assert (HR : R ≡ₚ rs) by apply sort_slice_perm.
  assert (HP : F ++ (as_job <$> rs) ≡ₚ (as_job <$> drop n R) ++ (F ++ (as_job <$> take n R))).
  { rewrite <- HR. rewrite <- (take_drop n R) at 1. rewrite fmap_app. solve_Permutation. }
  assert (HnR : NoDup (r_ID <$> R)).
  { rewrite HR. rewrite fmap_app, as_job_ID in Hn. by apply NoDup_app in Hn as (_ & _ & Hn). }
  unfold sortJobSlice. rewrite (sort_slice_ext (job_less so) j_ID _ _ Hn HP). symmetry.
  apply (sort_slice_take_app (job_less so) j_ID); [by rewrite <- HP|].
  intros t (r & -> & Hr)%list_elem_of_fmap.
  assert (Hlen : length (take n R) = n).
  { apply list_elem_of_lookup in Hr as [i Hi]. apply lookup_lt_Some in Hi. rewrite length_drop in Hi. rewrite length_take. lia. }
  rewrite List.filter_app, length_app.
  assert (Hall : ∀ l, (∀ x, x ∈ l → job_less so (as_job x) (as_job r) = true) →
    length (List.filter (λ x, job_less so x (as_job r)) (as_job <$> l)) = length l).
  { clear. induction l as [|x l IH]; intros Hx; [done|]. cbn [fmap list_fmap List.filter].
    rewrite Hx by apply list_elem_of_here. simpl. f_equal. apply IH. intros y Hy. apply Hx. by apply list_elem_of_further. }
  rewrite Hall; [lia|]. intros x Hx.
  pose proof (sort_slice_sorted (run_less so) rs) as Hs. fold R in Hs. rewrite <- (take_drop n R) in Hs, HnR.
  apply StronglySorted_app in Hs as (Hs & _ & _). specialize (Hs x r Hx Hr).
  assert (Hxr : x ∈ rs ∧ r ∈ rs).
  { rewrite <- HR, <- (take_drop n R), !elem_of_app. auto. }
  destruct Hxr as [Hxi Hri]. apply Ha; [done|done|].
  destruct (run_less so x r) eqn:E; [done|]. exfalso.
  assert (Hid : r_ID x = r_ID r) by (by apply (keyed (less := run_less so))).
  rewrite fmap_app in HnR. apply NoDup_app in HnR as (_ & Hd & _). apply (Hd (r_ID x)).
  - by apply list_elem_of_fmap_2.
  - rewrite Hid. by apply list_elem_of_fmap_2.
Qed.

Lemma shown_NoDup s js rs f :
  store_wf s → js ≡ₚ rows_of (jobs (jt s)) → rs ≡ₚ rows_of (runs (rt s)) → NoDup (j_ID <$> shown s js rs f).
Proof.
  intros Hwf Hj Hr.
  pose proof (merged_NoDup jc_zero s js rs (job_matches f) (run_matches s (run_filter f (isTerminalOnly f) 0)) Hwf Hj Hr) as Hn.
  rewrite fmap_app in Hn. apply NoDup_app in Hn as (H1 & H2 & H3).
  unfold shown, shown_jobs, shown_runs. rewrite fmap_app. apply NoDup_app.
  destruct (_ && _), (isActiveOnly f); (split; [|split]);
    first [done | apply NoDup_nil_2 | intros x _; apply not_elem_of_nil | by intros x ?%elem_of_nil].
Qed.

(** A page of the job list is a window of the merged list. *)
Lemma job_page s js rs f :
  store_wf s → js ≡ₚ rows_of (jobs (jt s)) → rs ≡ₚ rows_of (runs (rt s)) →
  len js ≤ inFlightMergeCap → 0 ≤ jf_Offset f →
  len js + len rs + jf_Offset f + norm_limit (jf_Limit f) < 2 ^ 62 →
  agree (jf_Sort f) (shown_runs s rs f) →
  let all := sortJobSlice (jf_Sort f) (shown s js rs f) in
  let L := norm_limit (jf_Limit f) in
  ∃ p, handleListJobs jc_zero s js rs f = Some p ∧
    Items p = take (Z.to_nat L) (drop (Z.to_nat (jf_Offset f)) all) ∧ Total p = len all ∧
    NextCursor p = if jf_Offset f + L <? len all then Itoa (jf_Offset f + L) else ""%string.
Proof.
  intros Hwf Hj Hr Hcap Ho Hb Ha all L. unfold handleListJobs. fold L. rewrite Z.max_l by done.
  set (o := jf_Offset f) in *. pose proof (norm_limit_pos (jf_Limit f)) as HL. fold L in HL, Hb.
  assert (Hsj : len (shown_jobs js f) ≤ len js).
  { unfold shown_jobs. destruct (_ && _); [apply len_filter|unfold len; simpl; lia]. }
  assert (Hsr : len (shown_runs s rs f) ≤ len rs).
  { unfold shown_runs. destruct (isActiveOnly f); [unfold len; simpl; lia|apply len_filter]. }
  assert (Hall : len all = len (shown_jobs js f) + len (shown_runs s rs f)).
  { unfold all, sortJobSlice, shown, len. rewrite sort_slice_length, length_app, length_fmap. lia. }
  pose proof (shown_NoDup s js rs f Hwf Hj Hr) as Hnd.
  rewrite in_flight_spec by done. cbn [mbind option_bind].
  assert (Hlj : len (sortJobSlice (jf_Sort f) (shown_jobs js f)) = len (shown_jobs js f)).
  { unfold sortJobSlice, len. by rewrite sort_slice_length. }
  pose proof (Nat2Z.is_nonneg (length (shown_jobs js f))) as Hj0. fold (len (shown_jobs js f)) in Hj0.
  pose proof (Nat2Z.is_nonneg (length (shown_runs s rs f))) as Hr0. fold (len (shown_runs s rs f)) in Hr0.
  rewrite Hlj, (wrap64_id (o + L)), wrap64_id by (unfold int64_ok; lia).
  rewrite graduates_spec by lia. cbn [mbind option_bind].
  set (n := Z.to_nat (o + L + len (shown_jobs js f))).
  set (merged := sortJobSlice (jf_Sort f) (sortJobSlice (jf_Sort f) (shown_jobs js f) ++
    (as_job <$> take n (sort_slice (run_less (jf_Sort f)) (shown_runs s rs f))))).
  assert (Hpre : take (Z.to_nat (o + L)) merged = take (Z.to_nat (o + L)) all).
  { unfold merged, all, shown. rewrite merged_prefix; [|..].
    - f_equal. apply (sort_slice_ext (job_less (jf_Sort f)) j_ID); unfold sortJobSlice; rewrite sort_slice_perm; done.
    - unfold sortJobSlice. by rewrite sort_slice_perm.
    - done.
    - lia. }
  assert (Hm : len merged = len (shown_jobs js f) + Z.min (Z.of_nat n) (len (shown_runs s rs f))).
  { unfold merged, sortJobSlice, len. rewrite sort_slice_length, length_app, sort_slice_length, length_fmap, length_take, sort_slice_length. lia. }
  rewrite wrap64_id by (unfold int64_ok; lia). rewrite slice_ok by lia. cbn [mbind option_bind].
  assert (Hw : take (Z.to_nat L) (drop (Z.to_nat o) merged) = take (Z.to_nat L) (drop (Z.to_nat o) all)).
  { rewrite !take_drop_commute. replace (Z.to_nat o + Z.to_nat L)%nat with (Z.to_nat (o + L)) by lia. by rewrite Hpre. }
  rewrite window_take by done.
  rewrite Hw. eexists. split; [done|]. simpl. split; [done|]. split; [lia|].
  assert (Hlw : len (take (Z.to_nat L) (drop (Z.to_nat o) all)) = Z.max 0 (Z.min L (len all - o))).
  { unfold len at 1. rewrite length_take, length_drop. unfold len. lia. }
  rewrite Hlw, wrap64_id by (unfold int64_ok; lia). rewrite <- Hall.
  destruct (Z.ltb_spec (o + L) (len all)).
  - rewrite (proj2 (Z.ltb_lt _ _)) by lia. f_equal. lia.
  - by rewrite (proj2 (Z.ltb_ge _ _)) by lia.
Qed.
End job_list.

(** *** Orders by time *)

Section by_time.
Context `{GoUnicode} {N C : Type} (jc_zero : C).

(** The key of an order by time. *)
Definition time_key (so : JobSort) : option (Run N → Z) :=
  match so with
  | JobSortCreatedAtDesc | JobSortCreatedAtAsc => Some r_CreatedAt
  | JobSortStartedAtDesc | JobSortStartedAtAsc => Some runStartTime
  | _ => None
  end.

Lemma by_key_distinct {A B} (f : A → Z) (g : A → B) (f' : B → Z) d (t : A → A → bool) `{!StrictWeak t} (t' : B → B → bool) l x y :
  (∀ z, f' (g z) = f z) → NoDup (f <$> l) → x ∈ l → y ∈ l →
  by_key Z.ltb f d t x y = true → by_key Z.ltb f' d t' (g x) (g y) = true.
Proof.
  intros Hf Hn Hx Hy. unfold by_key. rewrite !Hf. destruct (decide (f x = f y)) as [E|E]; [|done].
  rewrite (NoDup_key_inj f l x y Hn Hx Hy E). by rewrite (sw_irrefl t).
Qed.

(** Distinct times leave nothing to the tails, in which the two orders differ. *)
Lemma agree_by_time so key rs : time_key so = Some key → NoDup (key <$> rs) → agree jc_zero so rs.
Proof.
  intros Hk Hn r1 r2 H1 H2. destruct so; simplify_eq/=; unfold run_less, job_less; simpl;
    (eapply by_key_distinct; [apply _|reflexivity|exact Hn|done|done]).
Qed.
End by_time.

(** ** The properties *)

Section properties.
Context `{GoUnicode} {X N C : Type} (jc_zero : C) (testcase : X → string).
Implicit Types (s : store X N C) (js : list (Job N C)) (rs : list (Run N)).
Abbreviation QueryEntries := (QueryEntries testcase).
Abbreviation matching := (matching_entries testcase).

(** Every algorithm that keeps the promise of [sort.Slice] gives what [sort_slice] gives. *)
Definition one_result {A} (less : A → A → bool) (rows : list A) : Prop :=
  ∀ l, l ≡ₚ rows → sorted less l → l = sort_slice less rows.

(** In a consistent store no listing depends on the order in which the maps are ranged
    over, nor on the algorithm behind [sort.Slice]: for every filter, jobs, runs, domains and
    log entries have one sorted order and one page, and so has the merged list. *)
Theorem listing_determined s js rs ds es :
  store_wf s → ranged s js rs ds es →
  (∀ f, List js f = List (rows_of (jobs (jt s))) f ∧ one_result (job_less (jf_Sort f)) (List.filter (job_matches f) js)) ∧
  (∀ f, ListRuns s rs f = ListRuns s (rows_of (runs (rt s))) f ∧
        one_result (run_less (rf_Sort f)) (List.filter (run_matches s f) rs)) ∧
  (∀ f, ListDomains s ds f = ListDomains s (domain_rows s) f ∧
        one_result (domain_less (df_Sort f)) (List.filter (domain_matches s f) ds)) ∧
  (∀ f, QueryEntries s es f = QueryEntries s (map_to_list (entries (rt s))) f ∧
        one_result entry_less (matching s f es)) ∧
  (∀ f, handleListJobs jc_zero s js rs f = handleListJobs jc_zero s (rows_of (jobs (jt s))) (rows_of (runs (rt s))) f).
Proof.
  intros W [Hj Hr Hd He].
  assert (HL : ∀ f, List js f = List (rows_of (jobs (jt s))) f).
  { intros f. unfold List, sortJobSlice. by rewrite (sorted_rows_ext _ j_ID _ js _ (jobs_NoDup s _ W (reflexivity _)) Hj). }
  assert (HR : ∀ f, ListRuns s rs f = ListRuns s (rows_of (runs (rt s))) f).
  { intros f. unfold ListRuns. by rewrite (sorted_rows_ext _ r_ID _ rs _ (runs_NoDup s _ W (reflexivity _)) Hr). }
  assert (HG : ∀ f limit, graduates jc_zero s rs f limit = graduates jc_zero s (rows_of (runs (rt s))) f limit).
  { intros f limit. unfold graduates. by rewrite HR. }
  split; [|split; [|split; [|split]]]; intros f.
  - split; [apply HL|]. intros l HP Hs. apply (sort_slice_unique _ j_ID); [|done|done].
    by apply NoDup_key_filter, (jobs_NoDup s).
  - split; [apply HR|]. intros l HP Hs. apply (sort_slice_unique _ r_ID); [|done|done].
    by apply NoDup_key_filter, (runs_NoDup s).
  - pose proof (domains_NoDup s ds W Hd) as Hn. split.
    + unfold ListDomains. rewrite (sorted_rows_ext _ d_Name _ ds (domain_rows s)); [done| |done]. by rewrite <- Hd.
    + intros l HP Hs. apply (sort_slice_unique _ d_Name); [by apply NoDup_key_filter|done|done].
  - pose proof (matching_NoDup testcase s f es W He) as Hn. split.
    + unfold Listing.QueryEntries. rewrite (sort_slice_ext entry_less e_ID _ (matching s f (map_to_list (entries (rt s)))) Hn);
        [done|by apply matching_perm].
    + intros l HP Hs. by apply (sort_slice_unique _ e_ID).
  - unfold handleListJobs, in_flight. rewrite HL.
    destruct (negb (isTerminalOnly f) && negb (hasSeverityFilter f)); [|cbn [mbind option_bind]; by rewrite HG].
    destruct (List _ _) as [p|]; [|done]. cbn [fmap option_fmap option_map mbind option_bind]. by rewrite HG.
Qed.

Definition runs_at (f : RunFilter) (offset : Z) : RunFilter :=
  {| rf_DomainID := rf_DomainID f; rf_Domain := rf_Domain f; rf_DomainExact := rf_DomainExact f;
     rf_BatchID := rf_BatchID f; rf_ClientIP := rf_ClientIP f; rf_Tag := rf_Tag f; rf_EntryTag := rf_EntryTag f;
     rf_Status := rf_Status f; rf_Severity := rf_Severity f; rf_WorstLevel := rf_WorstLevel f;
     rf_Grade := rf_Grade f; rf_FinishedAfter := rf_FinishedAfter f; rf_FinishedBefore := rf_FinishedBefore f;
     rf_Limit := rf_Limit f; rf_Offset := offset; rf_Sort := rf_Sort f |}.
Definition entries_at (f : EntryFilter) (offset : Z) : EntryFilter :=
  {| ef_RunID := ef_RunID f; ef_DomainID := ef_DomainID f; ef_Tag := ef_Tag f; ef_Module := ef_Module f;
     ef_Testcase := ef_Testcase f; ef_EntryTag := ef_EntryTag f; ef_Level := ef_Level f;
     ef_LatestOnly := ef_LatestOnly f; ef_BatchID := ef_BatchID f; ef_Limit := ef_Limit f; ef_Offset := offset |}.
Definition jobs_at (f : JobFilter) (offset : Z) : JobFilter := with_window (jf_Limit f) offset f.

(** A client that starts at the first page of [List], [ListRuns] or [QueryEntries] and
    follows the cursors reaches the last page and has then seen every matching row exactly
    once, in the order of the listing; no page panics.  [fuel] bounds the number of pages. *)
Theorem cursors_complete s js rs es fuel :
  (∀ f, len js + norm_limit (jf_Limit f) < 2 ^ 63 → len js < Z.of_nat fuel →
     walk (λ o, List js (jobs_at f o)) fuel 0 =
     Some (sortJobSlice (jf_Sort f) (List.filter (job_matches f) js))) ∧
  (∀ f, len rs + norm_limit (rf_Limit f) < 2 ^ 63 → len rs < Z.of_nat fuel →
     walk (λ o, ListRuns s rs (runs_at f o)) fuel 0 =
     Some (sort_slice (run_less (rf_Sort f)) (List.filter (run_matches s f) rs))) ∧
  (∀ f, len (matching s f es) + norm_limit (ef_Limit f) < 2 ^ 63 → len (matching s f es) < Z.of_nat fuel →
     walk (λ o, QueryEntries s es (entries_at f o)) fuel 0 = Some (sort_slice entry_less (matching s f es))).
Proof.
  assert (Hlen : ∀ {A} (less : A → A → bool) p l, len (sort_slice less (List.filter p l)) ≤ len l).
  { intros A less p l. unfold len at 1. rewrite sort_slice_length. apply len_filter. }
  split; [|split]; intros f Hb Hf.
  - pose proof (Hlen _ (job_less (jf_Sort f)) (job_matches f) js).
    apply (paginate_walk (sortJobSlice (jf_Sort f) (List.filter (job_matches f) js)) (jf_Limit f)
      (sort_string (normalizeJobSort (jf_Sort f)))); unfold sortJobSlice; simpl; lia.
  - pose proof (Hlen _ (run_less (rf_Sort f)) (run_matches s f) rs).
    apply (paginate_walk (sort_slice (run_less (rf_Sort f)) (List.filter (run_matches s f) rs)) (rf_Limit f) ""); simpl; lia.
  - assert (len (sort_slice entry_less (matching s f es)) = len (matching s f es)) by (unfold len; by rewrite sort_slice_length).
    apply (paginate_walk (sort_slice entry_less (matching s f es)) (ef_Limit f) ""); simpl; lia.
Qed.


(** A status that is final makes the creation times of the filter ineffective. *)
Lemma terminal_ignores_created s js rs f after before :
  isTerminalOnly f = true →
  handleListJobs jc_zero s js rs f =
  handleListJobs jc_zero s js rs
    {| jf_Status := jf_Status f; jf_BatchID := jf_BatchID f; jf_Domain := jf_Domain f; jf_ClientIP := jf_ClientIP f;
       jf_Severity := jf_Severity f; jf_CreatedAfter := after; jf_CreatedBefore := before; jf_Limit := jf_Limit f;
       jf_Offset := jf_Offset f; jf_Sort := jf_Sort f |}.
Proof.
  intros Ht. unfold handleListJobs, in_flight. simpl.
  change (isTerminalOnly {| jf_Status := jf_Status f; jf_BatchID := jf_BatchID f; jf_Domain := jf_Domain f;
    jf_ClientIP := jf_ClientIP f; jf_Severity := jf_Severity f; jf_CreatedAfter := after; jf_CreatedBefore := before;
    jf_Limit := jf_Limit f; jf_Offset := jf_Offset f; jf_Sort := jf_Sort f |}) with (isTerminalOnly f).
  by rewrite Ht.
Qed.

(** *** Nothing panics *)

Lemma graduates_total s rs f limit :
  int64_ok limit → len rs < 2 ^ 62 →
  ∃ gs n, graduates jc_zero s rs f limit = Some (gs, n) ∧ len gs ≤ len rs ∧ 0 ≤ n ≤ len rs.
Proof.
  intros Hl Hb. unfold graduates. destruct (isActiveOnly f).
  { eexists [], 0. split; [done|]. unfold len. simpl. lia. }
  unfold ListRuns. set (rows := sort_slice _ _).
  assert (Hr : len rows ≤ len rs) by (unfold rows, len; rewrite sort_slice_length; apply len_filter).
  destruct (paginate_spec rows limit 0 "") as (p & Hp & Hi & Ht & _).
  { unfold norm_limit, int64_ok, len in *. destruct (limit <=? 0); lia. }
  cbn [run_filter rf_Limit rf_Offset]. rewrite Hp. cbn [mbind option_bind]. exists (jobFromRun jc_zero <$> Items p), (Total p).
  split; [done|]. rewrite Ht, Hi. unfold len in *. rewrite length_fmap, length_take, length_drop. lia.
Qed.

Lemma in_flight_total js f : len js < 2 ^ 62 → ∃ gs, in_flight js f = Some gs ∧ len gs ≤ len js.
Proof.
  intros Hb. unfold in_flight. destruct (_ && _); [|by exists []; unfold len; simpl; split; [|lia]].
  unfold List, sortJobSlice. set (rows := sort_slice _ _).
  assert (Hr : len rows ≤ len js) by (unfold rows, len; rewrite sort_slice_length; apply len_filter).
  destruct (paginate_spec rows (jf_Limit (with_window inFlightMergeCap 0 f)) 0
    (sort_string (normalizeJobSort (jf_Sort f)))) as (p & Hp & Hi & _).
  { change (norm_limit _) with 10000. lia. }
  cbn [with_window jf_Limit jf_Offset jf_Sort] in *. rewrite Hp. exists (Items p). split; [done|]. rewrite Hi.
  unfold len in *. rewrite length_take, length_drop. lia.
Qed.

Lemma handle_total s js rs f :
  norm_limit (jf_Limit f) < 2 ^ 61 → len js + len rs < 2 ^ 62 →
  ∃ p, handleListJobs jc_zero s js rs f = Some p ∧ len (Items p) ≤ norm_limit (jf_Limit f).
Proof.
  intros Hl Hb. pose proof (norm_limit_pos (jf_Limit f)). unfold handleListJobs.
  assert (0 ≤ len js ∧ 0 ≤ len rs) as [??] by (unfold len; lia).
  destruct (in_flight_total js f ltac:(lia)) as (fl & -> & Hfl). cbn [mbind option_bind].
  destruct (graduates_total s rs f (wrap64 (wrap64 (Z.max (jf_Offset f) 0 + norm_limit (jf_Limit f)) + len fl))
    (wrap64_ok _) ltac:(lia)) as (gs & n & -> & Hgs & Hn). cbn [mbind option_bind].
  set (all := sortJobSlice (jf_Sort f) (fl ++ gs)).
  assert (Hall : len all = len fl + len gs) by (unfold all, sortJobSlice, len; rewrite sort_slice_length, length_app; lia).
  rewrite wrap64_id by (unfold int64_ok, len in *; lia). rewrite slice_ok by (unfold len in *; lia).
  eexists. split; [reflexivity|]. simpl. unfold len at 1. rewrite length_take. lia.
Qed.
End properties.

(** ** Parsing the request *)

Section parsing.
Context `{GoUnicode} `{Netip} {X N C : Type} (jc_zero : C) (parseTime : string → option Z).

Lemma optional_ok {A} raw (d : A) p code a (P : A → Prop) :
  optional raw d p code = Ok a → P d → (∀ r b, p r = Some b → P b) → P a.
Proof. unfold optional. intros Ho Hd Hp. case_decide; [by simplify_eq|]. destruct (p raw) eqn:E; simplify_eq. by eapply Hp. Qed.

Lemma parse_limit_range raw n : parse_limit raw = Some n → 1 ≤ n ≤ 500.
Proof. unfold parse_limit, maxListLimit. intros (m & _ & Hm)%bind_Some. destruct (_ || _) eqn:E; simplify_eq. breflect. lia. Qed.

Lemma Atoi64_ok raw n : Atoi64 raw = Some n → int64_ok n.
Proof. unfold Atoi64, int64_ok. destruct (Atoi raw); [|done]. destruct (_ && _) eqn:E; intros; simplify_eq. breflect. lia. Qed.

Lemma parse_size_range q n : parse_size q 100 = Ok n → 1 ≤ n ≤ 500.
Proof.
  unfold parse_size. intros Hs. case_decide; apply (optional_ok _ _ _ _ _ (λ n, 1 ≤ n ≤ 500)) in Hs; auto; try lia;
    apply parse_limit_range.
Qed.

Lemma parse_position_ok q limit n : parse_position q limit = Ok n → int64_ok n.
Proof.
  assert (Ho : ∀ r b, parse_offset r = Some b → int64_ok b).
  { unfold parse_offset. intros r b (m & Hm & Hb)%bind_Some. apply Atoi64_ok in Hm. destruct (m <? 0); by simplify_eq. }
  assert (Hp : ∀ r b, parse_page limit r = Some b → int64_ok b).
  { unfold parse_page. intros r b (m & _ & Hb)%bind_Some. destruct (m <=? 0); simplify_eq. apply wrap64_ok. }
  unfold parse_position. intros Hn. repeat case_decide; eapply (optional_ok _ _ _ _ _ int64_ok); eauto; by unfold int64_ok.
Qed.

(** A request that [parseListFilter] accepts has a limit from 1 to 500, an order the list
    knows and an offset of 64 bits, and [handleListJobs] answers it: whatever offset, cursor
    or page the client sends, no slice expression is out of range, although the sum of
    offset, limit and jobs in flight may wrap around; the page has at most that many jobs. *)
Theorem job_list_total (get : string → string) (s : store X N C) js rs f :
  parseListFilter parseTime get 100 = Ok f → len js + len rs < 2 ^ 62 →
  1 ≤ jf_Limit f ≤ 500 ∧ int64_ok (jf_Offset f) ∧ isValidJobSort (jf_Sort f) = true ∧
  valid_range (jf_CreatedAfter f) (jf_CreatedBefore f) = true ∧
  ∃ p, handleListJobs jc_zero s js rs f = Some p ∧ len (Items p) ≤ jf_Limit f.
Proof.
  unfold parseListFilter. intros Hf Hb. unfold rbind in Hf.
  destruct (optional _ JobSeverityAll _ _) as [sev|]; [|done].
  destruct (optional _ _ parseTime "invalid_created_after") as [after|]; [|done].
  destruct (optional _ _ parseTime "invalid_created_before") as [before|]; [|done].
  destruct (valid_range after before) eqn:Ev; [|done].
  destruct (optional _ _ parse_sort _) as [so|] eqn:Es; [|done].
  destruct (parse_size _ _) as [n|] eqn:En; [|done]. destruct (parse_position _ _) as [o|] eqn:Eo; [|done].
  simplify_eq/=. apply parse_size_range in En. apply parse_position_ok in Eo.
  split; [done|]. split; [done|]. split; [|split; [done|]].
  { eapply (optional_ok _ _ _ _ _ (λ v, isValidJobSort v = true)); [exact Es|done|].
    intros r b. unfold parse_sort. destruct (isValidJobSort (job_sort r)) eqn:E; by intros; simplify_eq. }
  assert (Hn : norm_limit n = n) by (unfold norm_limit; destruct (Z.leb_spec n 0); lia).
  match goal with |- ∃ p, handleListJobs _ _ _ _ ?f = _ ∧ _ => destruct (handle_total jc_zero s js rs f) as (p & Hp & Hl) end;
    cbn [jf_Limit] in *; [lia|lia|]. exists p. split; [done|]. lia.
Qed.
End parsing.

(** ** The preview of the deletion of a batch *)

Section sums.
Context {K V : Type} `{Countable K}.

Lemma zsum_perm (l1 l2 : list Z) : l1 ≡ₚ l2 → zsum l1 = zsum l2.
Proof. unfold zsum. induction 1; simpl; lia. Qed.

(** The sum of a measure over a map. *)
Definition map_sum (g : K * V → Z) (m : gmap K V) : Z := zsum (g <$> map_to_list m).

Lemma map_sum_disj g (m1 m2 : gmap K V) : m1 ##ₘ m2 → map_sum g (m1 ∪ m2) = map_sum g m1 + map_sum g m2.
Proof.
  intros Hd. unfold map_sum. rewrite <- zsum_app, <- fmap_app. apply zsum_perm, fmap_Permutation.
  apply NoDup_Permutation; [apply NoDup_map_to_list| |].
  - apply NoDup_app. split; [apply NoDup_map_to_list|]. split; [|apply NoDup_map_to_list].
    intros [k v] H1%elem_of_map_to_list H2%elem_of_map_to_list. by apply (map_disjoint_spec m1 m2) with k v v in Hd.
  - intros [k v]. rewrite elem_of_app, !elem_of_map_to_list. by apply lookup_union_Some.
Qed.

Lemma map_sum_filter g (P : K * V → Prop) `{∀ x, Decision (P x)} (m : gmap K V) :
  map_sum g m = map_sum g (filter P m) + map_sum g (filter (λ x, ¬ P x) m).
Proof.
  rewrite <- (map_filter_union_complement P m) at 1. apply map_sum_disj, map_disjoint_filter_complement.
Qed.

Lemma map_sum_ext g1 g2 (m : gmap K V) : (∀ k v, m !! k = Some v → g1 (k, v) = g2 (k, v)) → map_sum g1 m = map_sum g2 m.
Proof.
  intros Hg. unfold map_sum. f_equal. apply list_fmap_ext. intros i [k v] Hi.
  apply Hg, elem_of_map_to_list. by eapply list_elem_of_lookup_2.
Qed.

Lemma map_size_sum (m : gmap K V) : Z.of_nat (size m) = map_sum (λ _, 1) m.
Proof.
  unfold map_sum. rewrite <- length_map_to_list. induction (map_to_list m) as [|x l IH]; [done|].
  cbn [length fmap list_fmap zsum foldr] in *. unfold zsum in IH. lia.
Qed.
End sums.

Section preview.
Context {X N C : Type}.
Implicit Types s : store X N C.

(** All rows of all logs. *)
Definition log_rows s : Z := map_sum (λ ies, len ies.2) (entries (rt s)).

Lemma log_rows_runs s : store_wf s → log_rows s = entries_of s (runs (rt s)).
Proof.
  intros W. unfold log_rows, entries_of.
  assert (He : entries (rt s) = (λ r, default [] (entries (rt s) !! r_ID r)) <$> runs (rt s)).
  { apply map_eq. intros id. rewrite lookup_fmap. destruct (runs (rt s) !! id) as [r|] eqn:Er.
    - destruct (rw_entries _ (wf_runs _ W) _ _ Er) as (es & Hes & _).
      destruct (rw_id _ (wf_runs _ W) _ _ Er) as [Eid _]. simpl. by rewrite Eid, Hes.
    - simpl. by apply (rw_none _ (wf_runs _ W)). }
  unfold map_sum. rewrite He at 1. rewrite map_to_list_fmap. f_equal. rewrite <- list_fmap_compose.
  apply list_fmap_ext. by intros i [id r].
Qed.

(** The preview of a deletion tells the truth: the runs and log entries it counts are
    what [DeleteBatch] then removes, so are the queued and the running jobs when nothing
    else is in flight, and a batch that does not exist according to the preview has no job,
    run or record to delete. *)
Theorem batch_preview_exact s batchID order s' :
  store_wf s → DeleteBatch s batchID order = Ok s' →
  let p := BatchDeletePreviewStats s batchID in
  Z.of_nat (size (runs (rt s))) = Z.of_nat (size (runs (rt s'))) + bp_CompletedRuns p ∧
  log_rows s = log_rows s' + bp_Entries p ∧
  ((∀ id j, jobs (jt s) !! id = Some j → j_BatchID j = batchID → j_Status j ∈ [JobQueued; JobRunning]) →
   Z.of_nat (size (jobs (jt s))) = Z.of_nat (size (jobs (jt s'))) + bp_QueuedJobs p + bp_RunningJobs p) ∧
  (bp_Exists p = false → jobs (jt s') = jobs (jt s) ∧ runs (rt s') = runs (rt s) ∧
     batches s' = batches s ∧ log_rows s' = log_rows s).
Proof.
  intros W Hd p. pose proof (delete_batch_wf s batchID order s' W Hd) as W'.
  assert (Hr : runs (rt s') = filter (λ ir, ¬ in_batch batchID ir) (runs (rt s)) ∧
      (∀ id r, runs (rt s') !! id = Some r → entries (rt s') !! id = entries (rt s) !! id) ∧
      jobs (jt s') = filter (λ ij : string * Job N C, ¬ j_BatchID ij.2 = batchID) (jobs (jt s)) ∧
      batches s' = delete batchID (batches s)) by (by eapply delete_batch_tables).
  destruct Hr as (Hr & He & Hj & Hb).
  assert (Hruns : Z.of_nat (size (runs (rt s))) = Z.of_nat (size (runs (rt s'))) + bp_CompletedRuns p).
  { unfold p. simpl. rewrite Hr, !map_size_sum, (map_sum_filter _ (in_batch batchID) (runs (rt s))). lia. }
  assert (Hrows : log_rows s = log_rows s' + bp_Entries p).
  { rewrite !log_rows_runs by done. unfold p. simpl. unfold entries_of.
    fold (map_sum (λ ir : string * Run N, len (default [] (entries (rt s) !! r_ID ir.2))) (runs (rt s))).
    rewrite (map_sum_filter _ (in_batch batchID) (runs (rt s))), Z.add_comm. unfold map_sum at 2. f_equal.
    rewrite <- Hr. apply map_sum_ext. intros id r Hid. simpl.
    destruct (rw_id _ (wf_runs _ W') _ _ Hid) as [-> _]. by rewrite (He _ _ Hid). }
  split; [done|]. split; [done|]. split.
  - intros Hst. unfold p. simpl. unfold jobs_of_batch. rewrite Hj, !map_size_sum.
    rewrite (map_sum_filter _ (λ ij : string * Job N C, j_BatchID ij.2 = batchID) (jobs (jt s))).
    rewrite (map_sum_filter _ (λ ij : string * Job N C, j_Status ij.2 = JobQueued) (filter _ (jobs (jt s)))).
    rewrite !map_filter_filter. rewrite Z.add_comm. rewrite <- Z.add_assoc. f_equal. f_equal.
    + f_equal. apply map_filter_ext. intros id j _. simpl. tauto.
    + f_equal. apply map_filter_ext. intros id j Hid. simpl. split; [|by intros [? ->]].
      intros [Hq Hbt]. split; [done|]. by apply (Hst _ _ Hid), elem_of_cons in Hbt as [?|?%list_elem_of_singleton].
  - unfold p. simpl. rewrite !orb_false_iff, !bool_decide_eq_false. intros [[Hx Hjn] Hrn].
    apply dec_stable in Hjn, Hrn. apply eq_None_not_Some in Hx.
    assert (Ej : jobs (jt s') = jobs (jt s)).
    { rewrite Hj. apply map_filter_id. exact (map_empty_filter_1 _ _ Hjn). }
    assert (Er : runs (rt s') = runs (rt s)).
    { rewrite Hr. apply map_filter_id. exact (map_empty_filter_1 _ _ Hrn). }
    split; [done|]. split; [done|]. split; [by rewrite Hb, delete_id|].
    unfold p in Hrows. simpl in Hrows. rewrite Hrn in Hrows. unfold entries_of in Hrows.
    rewrite map_to_list_empty in Hrows. simpl in Hrows. lia.
Qed.
End preview.

(** ** Concrete lists *)

Section examples.
#[local] Existing Instance ascii_unicode.

(** The filter of a request that names an order and a limit only. *)
Definition by_order (so : JobSort) (limit : Z) : JobFilter :=
  {| jf_Status := ""; jf_BatchID := ""; jf_Domain := ""; jf_ClientIP := ""; jf_Severity := JobSeverityAll;
     jf_CreatedAfter := zero_time; jf_CreatedBefore := zero_time; jf_Limit := limit; jf_Offset := 0; jf_Sort := so |}.

Definition two_rows : list (Run unit) := Eval vm_compute in rows_of (runs (rt two_runs)).

(** The identifiers a client sees that follows the cursors. *)
Definition seen_ids (s : store unit unit unit) rs so limit : option (list string) :=
  List.map j_ID <$> walk (λ o, handleListJobs Datatypes.tt s [] rs (with_window limit o (by_order so limit))) 5 0.

(** Where the two orders part, runs are never shown: in a reachable store with two runs
    of the same times of creation and start, the pages of one run each show the run that
    finished last twice and the other not at all, under every order but that by batch, the
    default order included, although every page says there are two. *)
Theorem job_list_skips_runs so :
  so ∈ [JobSortCreatedAtDesc; JobSortCreatedAtAsc; JobSortStartedAtDesc; JobSortStartedAtAsc;
        JobSortDomainAsc; JobSortDomainDesc; JobSortErrorDesc; JobSortCriticalDesc] →
  rtc (step no_oob default_weights) empty_store two_runs ∧
  rows_of (runs (rt two_runs)) = two_rows ∧ jobs (jt two_runs) = ∅ ∧
  j_ID <$> shown Datatypes.tt two_runs [] two_rows (by_order so 1) = ["r1"; "r2"]%string ∧
  seen_ids two_runs two_rows so 1 = Some ["r2"; "r2"]%string ∧
  (Total <$> handleListJobs Datatypes.tt two_runs [] two_rows (by_order so 1)) = Some 2.
Proof.
  intros Hso. split; [apply two_runs_reachable|]. split; [reflexivity|]. split; [reflexivity|].
  repeat (apply elem_of_cons in Hso as [->|Hso]; [split; [|split]; vm_compute; reflexivity|]).
  by apply elem_of_nil in Hso.
Qed.

Lemma job_list_skips_runs_witness :
  seen_ids two_runs two_rows JobSortErrorDesc 1 = Some ["r2"; "r2"]%string.
Proof.
  destruct (job_list_skips_runs JobSortErrorDesc) as (_ & _ & _ & _ & Hs & _); [|exact Hs].
  apply list_elem_of_In. simpl. tauto.
Defined.

(** A store with a run and a job in flight. *)
Definition mixed : store unit unit unit := Eval vm_compute in created one_run "r3" "b3".
Definition mixed_jobs : list (Job unit unit) := Eval vm_compute in rows_of (jobs (jt mixed)).
Definition mixed_runs : list (Run unit) := Eval vm_compute in rows_of (runs (rt mixed)).
Definition mixed_domains : list Domain := Eval vm_compute in domain_rows mixed.
Definition mixed_entries : list (string * list (Entry unit)) := Eval vm_compute in map_to_list (entries (rt mixed)).

Lemma mixed_wf : store_wf mixed.
Proof.
  assert (E1 : graduated empty_store "r1" "b1" 10 = one_run) by (vm_compute; reflexivity).
  eapply (create_wf one_run (sample_job "r3" "b3" JobQueued 0) "pub-r3"); [|vm_compute; reflexivity| |vm_compute; reflexivity].
  - apply (steps_wf no_oob default_weights empty_store); [|apply empty_store_wf].
    rewrite <- E1. apply graduated_reachable; reflexivity || apply rtc_refl.
  - repeat split; vm_compute; congruence.
Qed.

Lemma mixed_ranged : ranged mixed mixed_jobs mixed_runs mixed_domains mixed_entries.
Proof.
  split; [replace mixed_jobs with (rows_of (jobs (jt mixed)))|replace mixed_runs with (rows_of (runs (rt mixed)))
    |replace mixed_domains with (domain_rows mixed)|replace mixed_entries with (map_to_list (entries (rt mixed)))];
    reflexivity || (vm_compute; reflexivity).
Qed.

Definition no_testcase : unit → string := λ _, ""%string.

Lemma listing_determined_witness :
  sort_slice (job_less (N := unit) (C := unit) JobSortDomainAsc) mixed_jobs = mixed_jobs.
Proof.
  destruct (listing_determined Datatypes.tt no_testcase mixed _ _ _ _ mixed_wf mixed_ranged)
    as (Hj & _). destruct (Hj (by_order JobSortDomainAsc 1)) as [_ Hone].
  symmetry. apply Hone; [reflexivity|repeat constructor].
Defined.

Lemma cursors_complete_witness :
  walk (λ o, ListRuns two_runs two_rows (runs_at (runs_of_domain 1 1 0) o)) 3 0 =
  Some (sort_slice (run_less (JobSortOther "")) (List.filter (run_matches two_runs (runs_of_domain 1 1 0)) two_rows)) ∧
  length (List.filter (run_matches two_runs (runs_of_domain 1 1 0)) two_rows) = 2%nat.
Proof.
  split; [|vm_compute; reflexivity].
  destruct (cursors_complete no_testcase two_runs [] two_rows [] 3) as (_ & Hr & _).
  apply (Hr (runs_of_domain 1 1 0)); vm_compute; reflexivity.
Defined.


Lemma batch_preview_exact_witness :
  DeleteBatch two_runs "b2" (remaining run_one) = Ok without_b2 ∧
  log_rows two_runs = log_rows without_b2 + bp_Entries (BatchDeletePreviewStats two_runs "b2") ∧
  bp_Entries (BatchDeletePreviewStats two_runs "b2") = 2.
Proof.
  assert (Ed : DeleteBatch two_runs "b2" (remaining run_one) = Ok without_b2) by (vm_compute; reflexivity).
  destruct (batch_preview_exact two_runs "b2" (remaining run_one) without_b2) as (_ & Hr & _).
  - apply (steps_wf no_oob default_weights _ _ two_runs_reachable), empty_store_wf.
  - exact Ed.
  - split; [exact Ed|]. split; [exact Hr|vm_compute; reflexivity].
Defined.

(** A request as a list of parameters. *)
Definition request (params : list (string * string)) (name : string) : string :=
  default ""%string (assoc name params).
Definition parsed params : result JobFilter string :=
  @parseListFilter text_netip (λ _, None) (request params) 100.

(** A page number so large that the offset wraps around shows the first page. *)
Lemma page_number_wraps :
  jf_Offset <$> match parsed [("page", "184467440737095517")]%string with Ok f => Some f | Err _ => None end
  = Some (-16).
Proof. reflexivity. Qed.

Definition last_cursor : list (string * string) :=
  [("cursor", "9223372036854775807"); ("sort", "domain_asc"); ("limit", "500")]%string.

Lemma job_list_total_witness :
  ∃ f, parsed last_cursor = Ok f ∧ jf_Offset f = 2 ^ 63 - 1 ∧
    ∃ p, handleListJobs Datatypes.tt mixed mixed_jobs mixed_runs f = Some p ∧ len (Items p) ≤ jf_Limit f.
Proof.
  eexists. split; [reflexivity|]. split; [reflexivity|].
  eapply (@job_list_total _ text_netip unit unit unit Datatypes.tt (λ _, None) (request last_cursor) mixed mixed_jobs mixed_runs);
    [reflexivity|vm_compute; reflexivity].
Defined.
End examples.
