(* ===== verification/Calendar.v ===== *)
(** * The calendar of Go's package [time]

    Days are counted from 1970-01-01.  [days_from_civil] is the day of a date of the
    proleptic Gregorian calendar and [civil_from_days] the date of a day; they are inverse
    on valid dates ([civil_inv], [civil_roundtrip]), and the first day of a month follows the
    last of the one before ([next_month_days]), so the algorithms are the calendar. *)

From S2P Require Import Prelude.

Local Open Scope Z_scope.

(** [lia] with division and remainder by constants. *)
#[global] Ltac Zify.zify_post_hook ::= Z.to_euclidean_division_equations.

Definition leap (y : Z) : bool := (y mod 4 =? 0) && (negb (y mod 100 =? 0) || (y mod 400 =? 0)).
Definition month_days (y m : Z) : Z :=
  if m =? 2 then (if leap y then 29 else 28)
  else if (m =? 4) || (m =? 6) || (m =? 9) || (m =? 11) then 30 else 31.

(** The year begins in March, so that the leap day is its last. *)
Definition days_from_civil (y m d : Z) : Z :=
  let y := if m <=? 2 then y - 1 else y in
  let yoe := y mod 400 in
  let doy := (153 * (if m <=? 2 then m + 9 else m - 3) + 2) / 5 + d - 1 in
  (y / 400) * 146097 + (yoe * 365 + yoe / 4 - yoe / 100 + doy) - 719468.

(** The year within an era of 400 years, and the day within that year. *)
Definition year_of_era (doe : Z) : Z * Z :=
  let b := Z.min 3 (doe / 36524) in
  let r := doe - 36524 * b in
  let c := r / 1461 in
  let r := r - 1461 * c in
  let e := Z.min 3 (r / 365) in
  (100 * b + 4 * c + e, r - 365 * e).

Definition civil_from_days (n : Z) : Z * Z * Z :=
  let z := n + 719468 in
  let '(yoe, doy) := year_of_era (z mod 146097) in
  let mp := (5 * doy + 2) / 153 in
  let m := if mp <? 10 then mp + 3 else mp - 9 in
  let y := yoe + z / 146097 * 400 in
  ((if m <=? 2 then y + 1 else y), m, doy - (153 * mp + 2) / 5 + 1).

Definition civil_valid (c : Z * Z * Z) : Prop := let '(y, m, d) := c in 1 ≤ m ≤ 12 ∧ 1 ≤ d ≤ month_days y m.

(** The days before March of year [y]. *)
Definition year_days (y : Z) : Z := (y / 400) * 146097 + ((y mod 400) * 365 + (y mod 400) / 4 - (y mod 400) / 100).

Definition next_month (y m : Z) : Z * Z := if m <? 12 then (y, m + 1) else (y + 1, 1).

(** ** The two are inverse *)

Lemma year_of_era_spec doe : 0 ≤ doe < 146097 ->
  let '(yoe, doy) := year_of_era doe in
  0 ≤ yoe < 400 ∧ 0 ≤ doy ≤ 365 ∧ (doy = 365 → leap (yoe + 1) = true) ∧
  doe = yoe * 365 + yoe / 4 - yoe / 100 + doy.
Proof.
  intros H. unfold year_of_era. set (b := Z.min 3 (doe / 36524)).
  set (c := (doe - 36524 * b) / 1461). set (e := Z.min 3 ((doe - 36524 * b - 1461 * c) / 365)).
  assert (Hb : 0 ≤ b ≤ 3) by lia.
  assert (Hr : 0 ≤ doe - 36524 * b ≤ 36524 ∧ (doe - 36524 * b = 36524 → b = 3)) by lia.
  clearbody b. set (r := doe - 36524 * b) in *.
  assert (Hc : 0 ≤ c ≤ 24) by lia.
  assert (Hr1 : 0 ≤ r - 1461 * c ≤ 1460) by lia.
  assert (Hc3 : c = 24 → r - 1461 * c = 1460 → b = 3) by lia.
  clearbody c. set (r1 := r - 1461 * c) in *.
  assert (He : 0 ≤ e ≤ 3 ∧ 0 ≤ r1 - 365 * e ≤ 365 ∧ (r1 - 365 * e = 365 → e = 3 ∧ r1 = 1460)) by lia.
  clearbody e.
  assert (E4 : (100 * b + 4 * c + e) / 4 = 25 * b + c) by lia.
  assert (E100 : (100 * b + 4 * c + e) / 100 = b) by lia.
  rewrite E4, E100. split; [lia|]. split; [lia|]. split; [|lia].
  intros Hd. assert (e = 3) as -> by lia. unfold leap.
  apply andb_true_iff. split; [lia|]. apply orb_true_iff.
  destruct (decide (c = 24)) as [->|]; [right|left; lia].
  assert (b = 3) as -> by lia. done.
Qed.

Lemma year_of_era_inv yoe doy : 0 ≤ yoe < 400 → 0 ≤ doy ≤ 365 → (doy = 365 → leap (yoe + 1) = true) →
  year_of_era (yoe * 365 + yoe / 4 - yoe / 100 + doy) = (yoe, doy).
Proof.
  intros Hy Hd Hl. unfold year_of_era.
  set (b := yoe / 100). set (c := yoe / 4 - 25 * b). set (e := yoe mod 4).
  assert (E : yoe = 100 * b + 4 * c + e ∧ yoe / 4 = 25 * b + c ∧ 0 ≤ b ≤ 3 ∧ 0 ≤ c ≤ 24 ∧ 0 ≤ e ≤ 3) by lia.
  destruct E as (E & E4 & Hb & Hc & He).
  assert (Hlp : doy = 365 → e = 3 ∧ (c = 24 → b = 3)).
  { intros ->. specialize (Hl eq_refl). unfold leap in Hl. apply andb_true_iff in Hl as [H1 H2].
    apply Z.eqb_eq in H1. split; [lia|]. intros Ec. apply orb_true_iff in H2 as [H2|H2]; [|lia].
    apply negb_true_iff, Z.eqb_neq in H2. lia. }
  clearbody b c e. rewrite E4. subst yoe. clear Hl E4.
  assert (E1 : Z.min 3 (((100 * b + 4 * c + e) * 365 + (25 * b + c) - b + doy) / 36524) = b) by lia.
  rewrite E1.
  assert (E2 : ((100 * b + 4 * c + e) * 365 + (25 * b + c) - b + doy - 36524 * b) / 1461 = c) by lia.
  rewrite E2.
  assert (E3 : Z.min 3 (((100 * b + 4 * c + e) * 365 + (25 * b + c) - b + doy - 36524 * b - 1461 * c) / 365) = e) by lia.
  rewrite E3. f_equal; lia.
Qed.

Lemma leap_mod y k : leap (y + 400 * k) = leap y.
Proof.
  unfold leap. replace ((y + 400 * k) mod 4) with (y mod 4) by lia.
  replace ((y + 400 * k) mod 100) with (y mod 100) by lia. replace ((y + 400 * k) mod 400) with (y mod 400) by lia. done.
Qed.

Lemma civil_roundtrip n :
  let '(y, m, d) := civil_from_days n in civil_valid (y, m, d) ∧ days_from_civil y m d = n.
Proof.
  unfold civil_from_days. set (z := n + 719468). pose proof (year_of_era_spec (z mod 146097)) as Hs.
  destruct (year_of_era (z mod 146097)) as [yoe doy]. destruct Hs as (Hy & Hd & Hl & He); [lia|].
  set (mp := (5 * doy + 2) / 153). assert (Hmp : 0 ≤ mp ≤ 11) by lia.
  set (d := doy - (153 * mp + 2) / 5 + 1).
  assert (Hl' : doy = 365 → leap (yoe + z / 146097 * 400 + 1) = true).
  { intros E. rewrite <- (Hl E), <- (leap_mod (yoe + 1) (z / 146097)). f_equal. lia. }
  set (y0 := yoe + z / 146097 * 400) in *.
  assert (Ey : y0 / 400 = z / 146097 ∧ y0 mod 400 = yoe) by lia.
  destruct Ey as [Ey1 Ey2].
  assert (Emp : mp = 0 ∨ mp = 1 ∨ mp = 2 ∨ mp = 3 ∨ mp = 4 ∨ mp = 5 ∨ mp = 6 ∨ mp = 7 ∨ mp = 8 ∨
    mp = 9 ∨ mp = 10 ∨ mp = 11) by lia.
  assert (Hdoy : (153 * mp + 2) / 5 ≤ doy < (153 * (mp + 1) + 2) / 5) by lia.
  clearbody mp y0. unfold days_from_civil, civil_valid, month_days.
  assert (Hfeb : mp = 11 → d ≤ if leap (y0 + 1) then 29 else 28).
  { intros ->. subst d. change ((153 * 11 + 2) / 5) with 337. destruct (leap (y0 + 1)) eqn:El; [lia|].
    assert (doy ≠ 365) by (intros E; pose proof (Hl' E); congruence). lia. }
  repeat (destruct Emp as [->|Emp]); [..|subst mp]; subst d; simpl in *; rewrite ?Z.add_simpl_r, Ey1, Ey2;
    (split; [split; [lia|]; try lia|lia]).
Qed.

Lemma civil_inv y m d : civil_valid (y, m, d) → civil_from_days (days_from_civil y m d) = (y, m, d).
Proof.
  intros [Hm Hd]. unfold days_from_civil, civil_from_days.
  set (y0 := if m <=? 2 then y - 1 else y). set (mp := if m <=? 2 then m + 9 else m - 3).
  set (doy := (153 * mp + 2) / 5 + d - 1).
  assert (Hmp : 0 ≤ mp ≤ 11 ∧ m = (if mp <? 10 then mp + 3 else mp - 9) ∧ y = if m <=? 2 then y0 + 1 else y0).
  { subst mp y0. destruct (Z.leb_spec m 2); [assert ((m + 9 <? 10) = false) as -> by lia|assert ((m - 3 <? 10) = true) as -> by lia]; lia. }
  destruct Hmp as (Hmp & Em & Ey).
  assert (Hdoy : (153 * mp + 2) / 5 ≤ doy < (153 * (mp + 1) + 2) / 5 ∧ (doy = 365 → leap (y0 + 1) = true) ∧ doy ≤ 365).
  { subst doy. unfold month_days in Hd.
    assert (Emp : mp = 0 ∨ mp = 1 ∨ mp = 2 ∨ mp = 3 ∨ mp = 4 ∨ mp = 5 ∨ mp = 6 ∨ mp = 7 ∨ mp = 8 ∨
      mp = 9 ∨ mp = 10 ∨ mp = 11) by lia.
    clearbody mp y0. repeat (destruct Emp as [->|Emp]); [..|subst mp]; simpl in Em; subst m; simpl in *; subst y; try lia.
    destruct (leap (y0 + 1)); lia. }
  destruct Hdoy as (Hdoy & Hl & H365). clearbody mp y0.
  set (yoe := y0 mod 400). assert (Hyoe : 0 ≤ yoe < 400 ∧ y0 = y0 / 400 * 400 + yoe) by lia.
  assert (Hl2 : doy = 365 → leap (yoe + 1) = true).
  { intros E. rewrite <- (Hl E), <- (leap_mod (yoe + 1) (y0 / 400)). f_equal. lia. }
  set (doe := yoe * 365 + yoe / 4 - yoe / 100 + doy).
  assert (Hdoe : 0 ≤ doe < 146097) by (destruct (decide (doy = 365)) as [E|]; [|lia]; specialize (Hl2 E); unfold leap in Hl2; lia).
  assert (Ez : y0 / 400 * 146097 + doe - 719468 + 719468 = y0 / 400 * 146097 + doe) by lia. rewrite Ez.
  assert (Ed : (y0 / 400 * 146097 + doe) / 146097 = y0 / 400 ∧ (y0 / 400 * 146097 + doe) mod 146097 = doe) by lia.
  destruct Ed as [-> ->]. unfold doe. rewrite year_of_era_inv by (done || lia).
  assert (Emp : (5 * doy + 2) / 153 = mp) by lia. rewrite Emp, <- Em.
  f_equal; [f_equal|]; [|subst doy].
  - rewrite Ey. destruct (m <=? 2); lia.
  - lia.
Qed.

Lemma year_days_linear y : year_days y = 365 * y + y / 4 - y / 100 + y / 400.
Proof.
  unfold year_days. set (q := y / 400). set (r := y mod 400). assert (E : y = 400 * q + r ∧ 0 ≤ r < 400) by lia.
  clearbody q r. destruct E as [-> Hr].
  assert ((400 * q + r) / 4 = 100 * q + r / 4 ∧ (400 * q + r) / 100 = 4 * q + r / 100 ) as (-> & ->) by lia.
  lia.
Qed.

Lemma year_days_succ y : year_days y = year_days (y - 1) + if leap y then 366 else 365.
Proof.
  rewrite !year_days_linear. unfold leap.
  destruct (Z.eqb_spec (y mod 4) 0), (Z.eqb_spec (y mod 100) 0), (Z.eqb_spec (y mod 400) 0); simpl; lia.
Qed.

Lemma days_from_civil_day y m d d' : days_from_civil y m d' = days_from_civil y m d + (d' - d).
Proof. unfold days_from_civil. lia. Qed.

Lemma next_month_days y m : 1 ≤ m ≤ 12 ->
  days_from_civil (next_month y m).1 (next_month y m).2 1 = days_from_civil y m (month_days y m) + 1.
Proof.
  intros Hm. unfold days_from_civil. fold (year_days (y-1)) (year_days y).
  assert (Em : m = 1 ∨ m = 2 ∨ m = 3 ∨ m = 4 ∨ m = 5 ∨ m = 6 ∨ m = 7 ∨ m = 8 ∨ m = 9 ∨ m = 10 ∨ m = 11 ∨ m = 12) by lia.
  pose proof (year_days_succ y) as Hy. unfold year_days in Hy.
  repeat (destruct Em as [->|Em]); [..|subst m]; simpl; rewrite ?Z.add_simpl_r; unfold month_days; simpl; try lia.
  destruct (leap y); lia.
Qed.
