(* ===== verification/Recurrence.v ===== *)
(** * Package [recurrence]: calendar rules in time zones

    [server/recurrence/recurrence.go]: when the next run of a cohort is due.  A location of
    package [time] is the function from an instant (seconds since 1970) to the offset of its
    local time; the database that [time.LoadLocation] reads is the parameter [load].  A time
    is a number of nanoseconds since 1970. *)

From S2P Require Import Prelude GoStrings Calendar.

Local Open Scope Z_scope.
Local Open Scope list_scope.

(** ** Package [time] *)

Definition zone : Type := Z → Z.
Definition UTC : zone := λ _, 0.

(** [time.Date]: the offset in force when the wall clock is read as UTC is a first guess;
    the offset in force at the instant it gives is the one used. *)
Definition time_Date (loc : zone) (wall : Z) : Z := wall - loc (wall - loc wall).

Definition unix (t : Z) : Z := t / 1000000000.
Definition local (loc : zone) (x : Z) : Z := x + loc x.

(** ** Kinds, dates, sets *)

Inductive error :=
| ErrKind | ErrInterval | ErrAnchorDate | ErrWeekdays | ErrDaysOfMonth | ErrTimeOfDay
| ErrZone (name : string) | ErrNoOccurrence
| OutOfFuel. (* no error of the code: the loop of [Next] needs more fuel *)

Definition KindInterval : string := "interval".
Definition KindWeekly : string := "weekly".
Definition KindMonthly : string := "monthly".

Definition ParseKind (s : string) : result string error :=
  let k := trim_space s in
  if decide (k ∈ [KindInterval; KindWeekly; KindMonthly]) then Ok k else Err ErrKind.

Definition MaxIntervalDays : Z := 365.
Definition MaxDayOfMonth : Z := 28.
Definition validDays : Z := Z.shiftl 1 (MaxDayOfMonth + 1) - 2.

Record Date := { Year : Z; Month : Z; Day : Z }.

#[export] Instance Date_eq_dec : EqDecision Date.
Proof. solve_decision. Defined.

(** [time.Date(d.Year, d.Month, d.Day, ...)] as a day: months out of range carry into the
    year, days out of range into the month. *)
Definition midnight (d : Date) : Z :=
  days_from_civil (Year d + (Month d - 1) / 12) ((Month d - 1) mod 12 + 1) (Day d).
Definition dateOf (n : Z) : Date :=
  let '(y, m, d) := civil_from_days n in {| Year := y; Month := m; Day := d |}.

Definition zero_date : Date := {| Year := 0; Month := 0; Day := 0 |}.
Definition IsZero (d : Date) : bool := bool_decide (d = zero_date).
Definition date_valid (d : Date) : bool := negb (IsZero d) && bool_decide (dateOf (midnight d) = d).
Definition addDays (d : Date) (n : Z) : Date :=
  dateOf (midnight {| Year := Year d; Month := Month d; Day := Day d + n |}).

(** [Time.Sub] saturates at 106751 days and some hours. *)
Definition daysSince (d o : Date) : Z := Z.max (-106751) (Z.min 106751 (midnight d - midnight o)).

(** Sunday is 0; 1970-01-01 was a Thursday. *)
Definition Weekday (n : Z) : Z := (n + 4) mod 7.

Definition weekdayNames : list string := ["sun"; "mon"; "tue"; "wed"; "thu"; "fri"; "sat"]%string.

(** A bit of a mask. *)
Definition bit (s i : Z) : bool := negb (Z.land s (Z.shiftl 1 i) =? 0).

Section parsing.
Context `{GoUnicode}.

Definition add_weekday (set : Z) (name : string) : result Z error :=
  match list_find (λ n, n = to_lower (trim_space name)) weekdayNames with
  | None => Err ErrWeekdays
  | Some (i, _) => Ok (Z.lor set (Z.shiftl 1 (Z.of_nat i)))
  end.

Fixpoint ParseWeekdays_from (set : Z) (names : list string) : result Z error :=
  match names with
  | [] => Ok set
  | name :: names =>
      match add_weekday set name with
      | Err e => Err e
      | Ok set => ParseWeekdays_from set names
      end
  end.
Definition ParseWeekdays (names : list string) : result Z error := ParseWeekdays_from 0 names.
End parsing.

Definition WeekdaySet_Has (s wd : Z) : bool := bit s wd.
Definition mondayFirst : list Z := [1; 2; 3; 4; 5; 6; 0].
Definition weekday_name (wd : Z) : string := nth (Z.to_nat wd) weekdayNames ""%string.
Definition Names (s : Z) : list string := weekday_name <$> List.filter (WeekdaySet_Has s) mondayFirst.

Fixpoint ParseDays_from (set : Z) (days : list Z) : result Z error :=
  match days with
  | [] => Ok set
  | d :: days =>
      if (d <? 1) || (MaxDayOfMonth <? d) then Err ErrDaysOfMonth
      else ParseDays_from (Z.lor set (Z.shiftl 1 d)) days
  end.
Definition ParseDays (days : list Z) : result Z error := ParseDays_from 0 days.

Definition DaySet_Has (s day : Z) : bool := (0 <=? day) && (day <? 32) && bit s day.
Definition Days (s : Z) : list Z := List.filter (DaySet_Has s) (seqZ 1 MaxDayOfMonth).

(** ** Text *)

Definition digit (n : Z) : ascii := ascii_of_N (48 + Z.to_N (n mod 10)).

(** The last [w] decimal digits of [n]. *)
Fixpoint zero_padded (w : nat) (n : Z) : string :=
  match w with
  | O => ""
  | S w => zero_padded w (n / 10) +:+ String (digit n) ""
  end.

(** An integer zero-padded to [w] digits, the sign not counted. *)
Definition append_int (w : nat) (n : Z) : string :=
  let a := Z.abs n in
  let s := if a <? 10 ^ Z.of_nat w then zero_padded w a else Itoa a in
  if n <? 0 then "-" +:+ s else s.

(** [fmt]'s [%02d], whose width counts the sign. *)
Definition sprintf_02d (n : Z) : string :=
  if n <? 0 then append_int 1 n else append_int 2 n.

Record TimeOfDay := { Hour : Z; Minute : Z }.

Definition time_valid (t : TimeOfDay) : bool :=
  (0 <=? Hour t) && (Hour t <? 24) && (0 <=? Minute t) && (Minute t <? 60).

(** [strings.Cut] at a byte. *)
Fixpoint cut (sep : ascii) (s : string) : option (string * string) :=
  match s with
  | "" => None
  | String c r => if decide (c = sep) then Some (""%string, r)
                  else '(h, t) ← cut sep r; Some (String c h, t)
  end%string.

Definition ParseTimeOfDay (s : string) : result TimeOfDay error :=
  match cut ":" (trim_space s) with
  | None => Err ErrTimeOfDay
  | Some (h, m) =>
      if decide (String.length h = 2%nat ∧ String.length m = 2%nat) then
        match Atoi h, Atoi m with
        | Some hour, Some minute =>
            let tod := {| Hour := hour; Minute := minute |} in
            if time_valid tod then Ok tod else Err ErrTimeOfDay
        | _, _ => Err ErrTimeOfDay
        end
      else Err ErrTimeOfDay
  end.
Definition TimeOfDay_String (t : TimeOfDay) : string := sprintf_02d (Hour t) +:+ ":" +:+ sprintf_02d (Minute t).

Definition Date_String (d : Date) : string :=
  if IsZero d then ""
  else let d := dateOf (midnight d) in
       append_int 4 (Year d) +:+ "-" +:+ append_int 2 (Month d) +:+ "-" +:+ append_int 2 (Day d).

(** [time.Parse] with the layout [2006-01-02]: exactly four, two and two digits, a month
    and a day of that month. *)
Definition parse_date_only (s : string) : option (Z * Z * Z) :=
  match s with
  | String y1 (String y2 (String y3 (String y4 (String "-"
      (String m1 (String m2 (String "-" (String d1 (String d2 "")))))))))%string =>
      y ← digits (String y1 (String y2 (String y3 (String y4 ""))));
      m ← digits (String m1 (String m2 ""));
      d ← digits (String d1 (String d2 ""));
      if (1 <=? m) && (m <=? 12) && (1 <=? d) && (d <=? month_days y m) then Some (y, m, d) else None
  | _ => None
  end.
Definition ParseDate (s : string) : result Date error :=
  match parse_date_only (trim_space s) with
  | None => Err ErrAnchorDate
  | Some (y, m, d) => Ok (dateOf (days_from_civil y m d))
  end.

(** ** Rules *)

Record Rule := {
  Kind : string;
  IntervalDays : Z;
  AnchorDate : Date;
  Weekdays : Z;      (* uint8 *)
  DaysOfMonth : Z;   (* uint32 *)
  LastDay : bool;
  TimeOfDay_ : TimeOfDay;
  Zone : string
}.

Section rules.
(** The time zone database. *)
Context (load : string → option zone).
Implicit Types r : Rule.

Definition location r : result zone error :=
  if decide (Zone r = "")%string then Ok UTC
  else if decide (Zone r = "Local")%string then Err (ErrZone (Zone r))
  else match load (Zone r) with Some loc => Ok loc | None => Err (ErrZone (Zone r)) end.

(** The checks of [Validate] on the fields of the kind. *)
Definition validate_kind r : option error :=
  if decide (Kind r = KindInterval) then
    if (IntervalDays r <? 1) || (MaxIntervalDays <? IntervalDays r) then Some ErrInterval
    else if negb (date_valid (AnchorDate r)) then Some ErrAnchorDate
    else None
  else if decide (Kind r = KindWeekly) then
    if (Weekdays r =? 0) || (Z.shiftl 1 7 <=? Weekdays r) then Some ErrWeekdays else None
  else if decide (Kind r = KindMonthly) then
    if negb (Z.ldiff (DaysOfMonth r) validDays =? 0) || ((DaysOfMonth r =? 0) && negb (LastDay r))
    then Some ErrDaysOfMonth else None
  else Some ErrKind.

Definition Validate r : option error :=
  match validate_kind r with
  | Some e => Some e
  | None =>
      if negb (time_valid (TimeOfDay_ r)) then Some ErrTimeOfDay
      else match location r with Ok _ => None | Err e => Some e end
  end.

Definition Canonical r : Rule :=
  let interval := bool_decide (Kind r = KindInterval) in
  let weekly := bool_decide (Kind r = KindWeekly) in
  let monthly := bool_decide (Kind r = KindMonthly) in
  {| Kind := Kind r;
     IntervalDays := if interval then IntervalDays r else 1;
     AnchorDate := if interval then AnchorDate r else zero_date;
     Weekdays := if weekly then Weekdays r else 0;
     DaysOfMonth := if monthly then DaysOfMonth r else 0;
     LastDay := if monthly then LastDay r else false;
     TimeOfDay_ := TimeOfDay_ r;
     Zone := if decide (Zone r = "")%string then "UTC"%string else Zone r |}.

Definition matches r (d : Date) : bool :=
  if decide (Kind r = KindWeekly) then WeekdaySet_Has (Weekdays r) (Weekday (midnight d))
  else if decide (Kind r = KindMonthly) then
    DaySet_Has (DaysOfMonth r) (Day d) || (LastDay r && (Day (addDays d 1) =? 1))
  else false.

(** The wall clock of an instant: date, hour and minute. *)
Definition wall (loc : zone) (x : Z) : Date * Z * Z :=
  let l := local loc x in (dateOf (l / 86400), l mod 86400 / 3600, l mod 3600 / 60).
Definition sameWall (loc : zone) (a b : Z) : bool := bool_decide (wall loc a = wall loc b).

(** The first instant of a wall clock, in seconds. *)
Definition first_instant (loc : zone) (w : Z) : Z :=
  let t := time_Date loc w in
  let cur := loc t in
  let prev := loc (t - 3 * 3600) in
  if cur <? prev then
    let e := t - (prev - cur) in if sameWall loc e t then e else t
  else t.

Definition wall_of r (d : Date) : Z := midnight d * 86400 + Hour (TimeOfDay_ r) * 3600 + Minute (TimeOfDay_ r) * 60.
Definition at_ r (d : Date) (loc : zone) : Z := first_instant loc (wall_of r d) * 1000000000.

(** The unbounded loop of an interval rule, from its [k]-th date. *)
Fixpoint interval_from (fuel : nat) r (loc : zone) (t k : Z) : result Z error :=
  match fuel with
  | O => Err OutOfFuel
  | S fuel =>
      let u := at_ r (addDays (AnchorDate r) (k * IntervalDays r)) loc in
      if t <? u then Ok u else interval_from fuel r loc t (k + 1)
  end.

(** The loop over [n] days of the other rules. *)
Fixpoint days_loop (n : nat) r (loc : zone) (t : Z) (start : Date) (i : Z) {struct n} : result Z error :=
  match n with
  | O => Err ErrNoOccurrence
  | S n =>
      let d := addDays start i in
      if matches r d && (t <? at_ r d loc) then Ok (at_ r d loc)
      else days_loop n r loc t start (i + 1)
  end.

(** The first interval on or after [start]. *)
Definition first_k r (start : Date) : Z :=
  let gap := daysSince start (AnchorDate r) in
  if 0 <? gap then Z.quot (gap + IntervalDays r - 1) (IntervalDays r) else 0.

Definition start_of (loc : zone) (t : Z) : Date := addDays (dateOf (local loc (unix t) / 86400)) (-1).

(** Enough for the dates up to three days after [start]. *)
Definition loop_fuel r (start : Date) : nat :=
  Z.to_nat (Z.max 0 (midnight start + 4 - midnight (AnchorDate r))) + 1.

Definition Next r (t : Z) : result Z error :=
  match Validate r, location r with
  | Some e, _ | None, Err e => Err e
  | None, Ok loc =>
      let start := start_of loc t in
      if decide (Kind r = KindInterval) then interval_from (loop_fuel r start) r loc t (first_k r start)
      else days_loop 64 r loc t start 0
  end.

Fixpoint Preview r (t : Z) (n : nat) {struct n} : result (list Z) error :=
  match n with
  | O => Ok []
  | S n =>
      match Next r t with
      | Err e => Err e
      | Ok next => match Preview r next n with Err e => Err e | Ok out => Ok (next :: out) end
      end
  end.
End rules.

(** ** Rules in English *)

Definition joinAnd (items : list string) : string :=
  if bool_decide (length items < 2)%nat then join "" items
  else (join ", " (removelast items) +:+ " and " +:+ List.last items "")%string.

Definition weekday_long : list string :=
  ["Sunday"; "Monday"; "Tuesday"; "Wednesday"; "Thursday"; "Friday"; "Saturday"]%string.
Definition Weekday_String (wd : Z) : string := nth (Z.to_nat wd) weekday_long ""%string.

Definition rule_what (r : Rule) : option string :=
  if decide (Kind r = KindInterval) then
    Some (if IntervalDays r =? 1 then "Every day from " +:+ Date_String (AnchorDate r)
          else "Every " +:+ Itoa (IntervalDays r) +:+ " days from " +:+ Date_String (AnchorDate r))
  else if decide (Kind r = KindWeekly) then
    Some ("Weekly, " +:+ joinAnd (Weekday_String <$> List.filter (WeekdaySet_Has (Weekdays r)) mondayFirst))
  else if decide (Kind r = KindMonthly) then
    let parts := Itoa <$> Days (DaysOfMonth r) in
    let label := if (1 <? length parts)%nat then "days "%string else "day "%string in
    Some (match parts with
          | [] => "Monthly, the last day"
          | _ => if LastDay r then "Monthly, " +:+ label +:+ joinAnd (parts ++ ["the last day"%string])
                 else "Monthly, " +:+ label +:+ joinAnd parts
          end%string)
  else None.

Definition Rule_String (r : Rule) : string :=
  match rule_what r with
  | None => Kind r
  | Some what => what +:+ ", " +:+ TimeOfDay_String (TimeOfDay_ r) +:+ " " +:+
                 (if decide (Zone r = "")%string then "UTC" else Zone r)
  end.
