(* ===== verification/RecurrenceFacts.v ===== *)
(** * Recurrence rules: the next occurrence, gaps and overlaps, round trips

    The facts about [Recurrence.v] rest on what time zones look like: offsets of less than
    sixteen hours, at most one switch of at most a day within any six days. *)

From stdpp Require Import pretty.
From S2P Require Import Prelude GoStrings Calendar Recurrence.

Local Open Scope Z_scope.
Local Open Scope list_scope.

(** ** Zones *)

Definition hour : Z := 3600.
Definition day : Z := 86400.

(** Between [a] and [a + 6 days] the offset switches from [o1] to [o2] at [T]. *)
Definition switches (loc : zone) (a T o1 o2 : Z) : Prop :=
  Z.abs (o1 - o2) ≤ day ∧ ∀ x, a ≤ x < a + 6 * day → loc x = if x <? T then o1 else o2.

Record zone_ok (loc : zone) : Prop := {
  zo_bound : ∀ x, Z.abs (loc x) < 16 * hour;
  zo_switch : ∀ a, ∃ T o1 o2, switches loc a T o1 o2
}.

(** The reading of a wall clock, for seconds [w] since 1970 read as UTC. *)
Definition in_window (a w : Z) : Prop := a + 40 * hour ≤ w ∧ w + 16 * hour < a + 6 * day.

Ltac zone_cases :=
  repeat match goal with
  | |- context [?x <? ?y] => destruct (Z.ltb_spec x y)
  | H : context [?x <? ?y] |- _ => destruct (Z.ltb_spec x y)
  end.

(** The two offsets of a window are offsets the zone has. *)
Lemma time_Date_cases loc a T o1 o2 w :
  zone_ok loc → switches loc a T o1 o2 → in_window a w →
  time_Date loc w = w - o1 ∧ (w - o1 < T ∨ (T ≤ w ∧ w - o2 < T)) ∨
  time_Date loc w = w - o2 ∧ (T ≤ w - o2 ∨ (w < T ∧ T ≤ w - o1)).
Proof.
  intros [Hb _] [Hd Hs] [Ha1 Ha2]. unfold time_Date, hour, day in *.
  pose proof (Hb w) as Hw. rewrite (Hs w) in * by lia.
  rewrite (Hs (w - _)) by (destruct (w <? T); lia).
  zone_cases; lia.
Qed.

Lemma first_instant_cases loc a T o1 o2 w :
  zone_ok loc → switches loc a T o1 o2 → in_window a w →
  first_instant loc w = w - o1 ∨ first_instant loc w = w - o2.
Proof.
  intros Hz Hsw Hw. pose proof (time_Date_cases loc a T o1 o2 w Hz Hsw Hw) as Ht.
  destruct Hz as [Hb _]. destruct Hsw as [Hd Hs]. destruct Hw as [Ha1 Ha2].
  unfold first_instant, hour, day in *. pose proof (Hb (w - loc (w - loc w))) as Hx.
  assert (Hr : w - 16 * 3600 < time_Date loc w < w + 16 * 3600).
  { unfold time_Date. pose proof (Hb (w - loc w)). lia. }
  clear Hx. set (t := time_Date loc w) in *. clearbody t.
  rewrite !(Hs t), !(Hs (t - 3 * 3600)) by lia.
  destruct (Z.ltb_spec t T), (Z.ltb_spec (t - 3 * 3600) T); zone_cases; try lia.
  all: destruct (sameWall _ _ _); lia.
Qed.

(** ** Dates *)

Lemma midnight_dateOf n : midnight (dateOf n) = n.
Proof.
  unfold dateOf. pose proof (civil_roundtrip n) as H. destruct (civil_from_days n) as [[y m] d].
  destruct H as [[Hm _] H]. unfold midnight. simpl. rewrite <- H. f_equal; lia.
Qed.

Lemma dateOf_inj n m : dateOf n = dateOf m → n = m.
Proof. intros E. by rewrite <- (midnight_dateOf n), E, midnight_dateOf. Qed.

Lemma addDays_dateOf d n : addDays d n = dateOf (midnight d + n).
Proof.
  unfold addDays. f_equal. unfold midnight. simpl.
  rewrite (days_from_civil_day _ _ (Day d) (Day d + n)). lia.
Qed.

Lemma midnight_addDays d n : midnight (addDays d n) = midnight d + n.
Proof. by rewrite addDays_dateOf, midnight_dateOf. Qed.

Lemma addDays_addDays d n m : addDays (addDays d n) m = addDays d (n + m).
Proof. rewrite !(addDays_dateOf _), midnight_dateOf. f_equal. lia. Qed.

(** ** The instant of a wall clock *)

Lemma sameWall_spec loc a b : sameWall loc a b = true ↔ local loc a / 60 = local loc b / 60.
Proof.
  unfold sameWall. rewrite bool_decide_eq_true. unfold wall. split.
  - intros [[Hd%dateOf_inj Hh]%pair_equal_spec Hm]%pair_equal_spec. lia.
  - intros E. assert (E1 : local loc a / 86400 = local loc b / 86400) by lia. rewrite E1.
    f_equal; [f_equal|]; lia.
Qed.

(** No fall back by more than three hours. *)
Definition short_overlaps (loc : zone) : Prop := ∀ x y, x ≤ y → y < x + 6 * day → loc x - loc y ≤ 3 * hour.

Definition window_of (w : Z) : Z := w - 40 * hour.
Lemma window_of_ok w : in_window (window_of w) w.
Proof. unfold in_window, window_of, hour, day. lia. Qed.

(** whatever the switches of a zone, the instant computed for a wall clock (a whole
    minute) that the zone shows is the first one at which it does. *)
Theorem at_first loc w x :
  zone_ok loc → short_overlaps loc → w mod 60 = 0 → local loc x = w →
  local loc (first_instant loc w) = w ∧ first_instant loc w ≤ x.
Proof.
  intros Hz Hov Hw Hx. destruct (zo_switch _ Hz (window_of w)) as (T & o1 & o2 & Hsw).
  pose proof (time_Date_cases loc _ T o1 o2 w Hz Hsw (window_of_ok w)) as Ht.
  unfold local, window_of, hour, day, short_overlaps in *. destruct Hsw as [Hd Hs]. pose proof (zo_bound _ Hz) as Hb.
  unfold hour, day in *. pose proof (Hb x) as Hbx. assert (Ex : loc x = if x <? T then o1 else o2) by (apply Hs; lia). rewrite Ex in Hx, Hbx. clear Ex.
  unfold first_instant. set (t := time_Date loc w) in *.
  assert (Hr : w - 16 * 3600 < t < w + 16 * 3600).
  { unfold t, time_Date. pose proof (Hb (w - loc w)). lia. }
  assert (Hov' : T - 3 * 3600 < w + 16 * 3600 → w - 16 * 3600 < T → o1 - o2 ≤ 3 * 3600).
  { intros Hl1 Hl2. pose proof (Hov (T - 1) T) as Ho. rewrite !Hs in Ho by lia. zone_cases; lia. }
  clearbody t.
  destruct (Z.ltb_spec (loc t) (loc (t - 3 * 3600))) as [Hc|Hc].
  - destruct (sameWall loc (t - (loc (t - 3 * 3600) - loc t)) t) eqn:Esw.
    + apply sameWall_spec in Esw. unfold local in Esw.
      rewrite !(Hs t), !(Hs (t - 3 * 3600)) in * by lia.
      rewrite (Hs (t - _)) in * by (zone_cases; lia). zone_cases; try lia.
    + assert (En : ¬ (local loc (t - (loc (t - 3 * 3600) - loc t)) / 60 = local loc t / 60)) by (rewrite <- sameWall_spec, Esw; done).
      unfold local in En. rewrite !(Hs t), !(Hs (t - 3 * 3600)) in * by lia.
      rewrite (Hs (t - _)) in * by (zone_cases; lia). zone_cases; try lia.
  - rewrite !(Hs t), !(Hs (t - 3 * 3600)) in * by lia. zone_cases; try lia.
Qed.

(** a wall clock that a switch skips is moved by the length of the gap, forward only
    when the zone is ahead of UTC at the switch (it happens no later than the wall clock read
    as UTC), and backward otherwise. *)
Theorem gap_direction loc w T o1 o2 :
  zone_ok loc → switches loc (window_of w) T o1 o2 → T + o1 ≤ w < T + o2 →
  local loc (first_instant loc w) = if T <=? w then w + (o2 - o1) else w - (o2 - o1).
Proof.
  intros Hz Hsw Hg. pose proof (time_Date_cases loc _ T o1 o2 w Hz Hsw (window_of_ok w)) as Ht.
  pose proof (zo_bound _ Hz) as Hb. destruct Hsw as [Hd Hs]. unfold local, window_of, hour, day in *.
  assert (Hr : w - 16 * 3600 < time_Date loc w < w + 16 * 3600).
  { unfold time_Date. pose proof (Hb (w - loc w)). lia. }
  unfold first_instant. set (t := time_Date loc w) in *. clearbody t.
  rewrite !(Hs t), !(Hs (t - 3 * 3600)) by lia.
  destruct (Z.ltb_spec (if t <? T then o1 else o2) (if t - 3 * 3600 <? T then o1 else o2)) as [Hc|Hc];
    [zone_cases; lia|].
  rewrite (Hs t) by lia. destruct (Z.leb_spec T w); zone_cases; lia.
Qed.

(** ** The order of occurrences *)

Lemma first_instant_next loc w : zone_ok loc → first_instant loc w ≤ first_instant loc (w + day).
Proof.
  intros Hz. destruct (zo_switch _ Hz (window_of w)) as (T & o1 & o2 & Hsw).
  assert (Hw' : in_window (window_of w) (w + day)) by (unfold in_window, window_of, hour, day; lia).
  pose proof (first_instant_cases loc _ T o1 o2 w Hz Hsw (window_of_ok w)).
  pose proof (first_instant_cases loc _ T o1 o2 (w + day) Hz Hsw Hw').
  destruct Hsw as [Hd _]. unfold day in *. lia.
Qed.

Lemma first_instant_mono loc w (n : Z) : zone_ok loc → 0 ≤ n → first_instant loc w ≤ first_instant loc (w + n * day).
Proof.
  intros Hz. revert n. apply natlike_ind; [by replace (w + 0 * day) with w by lia|].
  intros n Hn IH. pose proof (first_instant_next loc (w + n * day) Hz).
  replace (w + Z.succ n * day) with (w + n * day + day) by lia. lia.
Qed.

Section next.
Context (loc : zone) (r : Rule) (Hz : zone_ok loc) (Ht : time_valid (TimeOfDay_ r) = true).
#[local] Set Default Proof Using "Type*".

Lemma wall_of_days (d : Date) n : wall_of r (addDays d n) = wall_of r d + n * day.
Proof. unfold wall_of, day. rewrite midnight_addDays. lia. Qed.

Lemma wall_of_range (d : Date) : midnight d * day ≤ wall_of r d < (midnight d + 1) * day.
Proof.
  unfold time_valid in Ht. rewrite !andb_true_iff, !Z.leb_le, !Z.ltb_lt in Ht. unfold wall_of, day. lia.
Qed.

Lemma at_mono (d : Date) n : 0 ≤ n → at_ r d loc ≤ at_ r (addDays d n) loc.
Proof.
  intros Hn. unfold at_. rewrite wall_of_days.
  pose proof (first_instant_mono loc (wall_of r d) n Hz Hn). lia.
Qed.

(** Two local days before the time, an occurrence is past; two days after, it is to come. *)
Lemma at_unix t d : t < at_ r d loc ↔ unix t < first_instant loc (wall_of r d).
Proof. unfold at_, unix. lia. Qed.

Lemma occurrence_past t d : midnight d = local loc (unix t) / day - 2 → at_ r d loc ≤ t.
Proof.
  intros Hd. apply Z.nlt_ge. rewrite at_unix. pose proof (wall_of_range d) as Hw. rewrite Hd in Hw.
  set (w := wall_of r d) in *. set (x := unix t) in *. clearbody w x.
  pose proof (zo_bound _ Hz x) as Hx. unfold local in Hw.
  destruct (zo_switch _ Hz (window_of w)) as (T & o1 & o2 & Hsw).
  pose proof (first_instant_cases loc _ T o1 o2 w Hz Hsw (window_of_ok w)) as Hf.
  destruct Hsw as [Hd' Hs]. unfold window_of, hour, day in *.
  assert (Ex : loc x = o1 ∨ loc x = o2) by (rewrite Hs by lia; zone_cases; auto). lia.
Qed.

Lemma occurrence_to_come t d : midnight d = local loc (unix t) / day + 2 → t < at_ r d loc.
Proof.
  intros Hd. rewrite at_unix. pose proof (wall_of_range d) as Hw. rewrite Hd in Hw.
  set (w := wall_of r d) in *. set (x := unix t) in *. clearbody w x.
  pose proof (zo_bound _ Hz x) as Hx. unfold local in Hw.
  destruct (zo_switch _ Hz (x - 36 * hour)) as (T & o1 & o2 & Hsw).
  assert (Hin : in_window (x - 36 * hour) w) by (unfold in_window, hour, day in *; lia).
  pose proof (first_instant_cases loc _ T o1 o2 w Hz Hsw Hin) as Hf.
  destruct Hsw as [Hd' Hs]. unfold in_window, hour, day in *.
  assert (Ex : loc x = o1 ∨ loc x = o2) by (rewrite Hs by lia; zone_cases; auto). lia.
Qed.

Lemma at_before_start t d : midnight d < midnight (start_of loc t) → at_ r d loc ≤ t.
Proof.
  intros Hd. unfold start_of in Hd. rewrite midnight_addDays, midnight_dateOf in Hd.
  set (n := local loc (unix t) / 86400 - 2 - midnight d).
  etransitivity; [apply (at_mono d n); unfold n; lia|]. apply occurrence_past.
  rewrite midnight_addDays. unfold n, day. lia.
Qed.

Lemma at_after_start t d : midnight (start_of loc t) + 3 ≤ midnight d → t < at_ r d loc.
Proof.
  intros Hd. unfold start_of in Hd. rewrite midnight_addDays, midnight_dateOf in Hd.
  set (n := midnight d - (local loc (unix t) / 86400 + 2)).
  eapply Z.lt_le_trans; [apply (occurrence_to_come t (addDays d (- n)))|].
  - rewrite midnight_addDays. unfold n, day. lia.
  - etransitivity; [apply (at_mono _ n); unfold n; lia|]. rewrite addDays_addDays.
    replace (- n + n) with 0 by lia. unfold at_. rewrite wall_of_days. by replace (wall_of r d + 0 * day) with (wall_of r d) by lia.
Qed.
End next.

(** ** Masks *)

Lemma bit_testbit s i : 0 ≤ i → bit s i = Z.testbit s i.
Proof.
  intros Hi. unfold bit. destruct (Z.testbit s i) eqn:E.
  - apply negb_true_iff, Z.eqb_neq. intros H0. assert (Ht : Z.testbit (Z.land s (Z.shiftl 1 i)) i = false) by (rewrite H0; apply Z.testbit_0_l).
    rewrite Z.land_spec, E, Z.shiftl_1_l, Z.pow2_bits_true in Ht by lia. done.
  - apply negb_false_iff, Z.eqb_eq, Z.bits_inj_0. intros j. rewrite Z.land_spec, Z.shiftl_1_l.
    destruct (decide (j = i)) as [->|Hj]; [by rewrite E|]. rewrite Z.pow2_bits_false by lia. apply andb_false_r.
Qed.

Lemma validDays_testbit i : 0 ≤ i → Z.testbit validDays i = (1 <=? i) && (i <=? 28).
Proof.
  intros Hi. destruct (Z.leb_spec i 28); [|rewrite andb_false_r; apply Z.bits_above_log2; [by vm_compute|change (Z.log2 validDays) with 28; lia]].
  assert (Hall : forallb (λ i, Bool.eqb (Z.testbit validDays i) ((1 <=? i) && true)) (seqZ 0 29) = true) by reflexivity.
  rewrite forallb_forall in Hall. apply eqb_prop, Hall, list_elem_of_In, elem_of_seqZ. lia.
Qed.

(** The fields of a rule are machine integers. *)
Definition rule_typed (r : Rule) : Prop := 0 ≤ Weekdays r < 2 ^ 8 ∧ 0 ≤ DaysOfMonth r < 2 ^ 32.

Lemma some_weekday s : 0 < s < 128 → ∃ wd, 0 ≤ wd < 7 ∧ bit s wd = true.
Proof.
  intros Hs. exists (Z.log2 s). assert (Hl : 0 ≤ Z.log2 s < 7).
  { split; [apply Z.log2_nonneg|]. apply Z.log2_lt_pow2; lia. }
  split; [done|]. rewrite bit_testbit by lia. apply Z.bit_log2; lia.
Qed.

Lemma some_day s : 0 < s → Z.ldiff s validDays = 0 → ∃ d, 1 ≤ d ≤ 28 ∧ DaySet_Has s d = true.
Proof.
  intros Hs Hd. exists (Z.log2 s). pose proof (Z.log2_nonneg s) as Hl. pose proof (Z.bit_log2 s Hs) as Hb.
  assert (Hv : Z.testbit (Z.ldiff s validDays) (Z.log2 s) = false) by (rewrite Hd; apply Z.testbit_0_l).
  rewrite Z.ldiff_spec, Hb, validDays_testbit in Hv by lia.
  assert (Hr : 1 ≤ Z.log2 s ≤ 28) by (simpl in Hv; lia).
  split; [done|]. unfold DaySet_Has. rewrite bit_testbit, Hb by lia. lia.
Qed.

(** ** Matching days are at most a month apart *)

Lemma dateOf_civil y m d : civil_valid (y, m, d) → dateOf (days_from_civil y m d) = {| Year := y; Month := m; Day := d |}.
Proof. intros Hv. unfold dateOf. by rewrite civil_inv. Qed.

Lemma month_days_range y m : 28 ≤ month_days y m ≤ 31.
Proof. unfold month_days. destruct (leap y); repeat case_match; lia. Qed.

Lemma next_month_valid y m d : 1 ≤ m ≤ 12 → 1 ≤ d ≤ 28 → civil_valid ((next_month y m).1, (next_month y m).2, d).
Proof.
  intros Hm Hd. pose proof (month_days_range (next_month y m).1 (next_month y m).2).
  split; [|lia]. unfold next_month. destruct (Z.ltb_spec m 12); simpl; lia.
Qed.

(** Within 31 days from any day there is a given day of the month, and a last day. *)
Lemma day_within_month s k : 1 ≤ k ≤ 28 → ∃ j, 0 ≤ j ≤ 30 ∧ Day (dateOf (s + j)) = k.
Proof.
  intros Hk. pose proof (civil_roundtrip s) as Hc. destruct (civil_from_days s) as [[y m] d].
  destruct Hc as [[Hm Hd] Hs]. pose proof (month_days_range y m).
  destruct (decide (d ≤ k)).
  - exists (k - d). split; [lia|]. rewrite <- Hs, <- (days_from_civil_day y m d k), dateOf_civil; [done|].
    split; [done|lia].
  - exists (month_days y m - d + k). split; [lia|]. replace (s + (month_days y m - d + k)) with
      (days_from_civil (next_month y m).1 (next_month y m).2 k).
    + rewrite dateOf_civil; [done|]. by apply next_month_valid.
    + rewrite (days_from_civil_day _ _ 1 k), next_month_days, (days_from_civil_day y m d) by done. lia.
Qed.

Lemma last_day_within_month s : ∃ j, 0 ≤ j ≤ 30 ∧ Day (addDays (dateOf (s + j)) 1) = 1.
Proof.
  pose proof (civil_roundtrip s) as Hc. destruct (civil_from_days s) as [[y m] d].
  destruct Hc as [[Hm Hd] Hs]. pose proof (month_days_range y m).
  exists (month_days y m - d). split; [lia|]. rewrite addDays_dateOf, midnight_dateOf.
  replace (s + (month_days y m - d) + 1) with (days_from_civil (next_month y m).1 (next_month y m).2 1).
  - rewrite dateOf_civil; [done|]. apply next_month_valid; lia.
  - rewrite next_month_days, (days_from_civil_day y m d) by done. lia.
Qed.

Lemma matching_day (r : Rule) s :
  rule_typed r → validate_kind r = None → Kind r ≠ KindInterval →
  ∃ j, 3 ≤ j ≤ 33 ∧ matches r (dateOf (s + j)) = true.
Proof.
  intros [Hw Hd] Hv Hk. unfold validate_kind in Hv. rewrite decide_False in Hv by done. unfold matches.
  destruct (decide (Kind r = KindWeekly)) as [E|E].
  - destruct (_ || _) eqn:Eb in Hv; [done|]. change (Z.shiftl 1 7) with 128 in Eb.
    destruct (some_weekday (Weekdays r)) as (wd & Hwd & Hbit); [lia|].
    exists (3 + (wd - (s + 3 + 4)) mod 7). split; [lia|]. unfold WeekdaySet_Has, Weekday. rewrite midnight_dateOf.
    replace ((s + (3 + (wd - (s + 3 + 4)) mod 7) + 4) mod 7) with wd by lia. done.
  - destruct (decide (Kind r = KindMonthly)) as [E2|E2]; [|done].
    destruct (_ || _) eqn:Eb in Hv; [done|]. apply orb_false_iff in Eb as [E1 E3].
    apply negb_false_iff, Z.eqb_eq in E1. destruct (LastDay r) eqn:El.
    + destruct (last_day_within_month (s + 3)) as (j & Hj & Hday). exists (3 + j). split; [lia|].
      rewrite Z.add_assoc, Hday. apply orb_true_r.
    + destruct (some_day (DaysOfMonth r)) as (k & Hkr & Hhas); [simpl in E3; lia|done|].
      destruct (day_within_month (s + 3) k Hkr) as (j & Hj & Hday). exists (3 + j). split; [lia|].
      by rewrite Z.add_assoc, Hday, Hhas.
Qed.

(** ** [Next] *)

Lemma at_same (r r' : Rule) d loc : TimeOfDay_ r' = TimeOfDay_ r → at_ r' d loc = at_ r d loc.
Proof. unfold at_, wall_of. by intros ->. Qed.

#[local] Opaque dateOf midnight addDays at_ first_instant.

(** The dates of a rule. *)
Definition occurrence_date (r : Rule) (d : Date) : Prop :=
  d = dateOf (midnight d) ∧
  if decide (Kind r = KindInterval) then ∃ k, 0 ≤ k ∧ midnight d = midnight (AnchorDate r) + k * IntervalDays r
  else matches r d = true.

(** [u] is the earliest occurrence after [t]. *)
Definition earliest (loc : zone) (r : Rule) (t u : Z) : Prop :=
  t < u ∧ (∃ d, occurrence_date r d ∧ u = at_ r d loc) ∧
  ∀ d, occurrence_date r d → t < at_ r d loc → u ≤ at_ r d loc.

Section next_loops.
Context (loc : zone) (r : Rule) (Hz : zone_ok loc) (Ht : time_valid (TimeOfDay_ r) = true).
#[local] Set Default Proof Using "Type*".

Lemma at_midnight d d' : d = dateOf (midnight d) → d' = dateOf (midnight d') → midnight d ≤ midnight d' →
  at_ r d loc ≤ at_ r d' loc.
Proof.
  intros Hd Hd' Hle. replace d' with (addDays d (midnight d' - midnight d)).
  - by apply at_mono; [..|lia].
  - rewrite addDays_dateOf, Hd'. rewrite midnight_dateOf. f_equal. lia.
Qed.

Lemma days_loop_spec t start n i j :
  i ≤ j < i + Z.of_nat n → matches r (addDays start j) = true → t < at_ r (addDays start j) loc →
  ∃ k, i ≤ k ∧ days_loop n r loc t start i = Ok (at_ r (addDays start k) loc) ∧
    matches r (addDays start k) = true ∧ t < at_ r (addDays start k) loc ∧
    ∀ k', i ≤ k' < k → matches r (addDays start k') = true → at_ r (addDays start k') loc ≤ t.
Proof.
  revert i. induction n as [|n IH]; intros i Hj Hm Hat; [lia|]. simpl.
  destruct (matches r (addDays start i) && (t <? at_ r (addDays start i) loc)) eqn:E.
  - apply andb_true_iff in E as [E1 E2%Z.ltb_lt]. exists i. split; [lia|]. split; [done|]. split; [done|].
    split; [done|]. intros k' Hk'. lia.
  - assert (i ≠ j) by (intros ->; rewrite Hm in E; simpl in E; apply Z.ltb_ge in E; lia).
    destruct (IH (i + 1)) as (k & Hk & Hok & Hmk & Hatk & Hno); [lia|done|done|].
    exists k. split; [lia|]. split; [done|]. split; [done|]. split; [done|].
    intros k' Hk' Hmk'. destruct (decide (k' = i)) as [->|]; [|apply Hno; [lia|done]].
    rewrite Hmk' in E. simpl in E. by apply Z.ltb_ge in E.
Qed.

Lemma interval_from_spec t fuel k :
  1 ≤ IntervalDays r → 0 ≤ k →
  midnight (start_of loc t) + 3 - (midnight (AnchorDate r) + k * IntervalDays r) < Z.of_nat fuel → (1 ≤ fuel)%nat →
  (∀ k', 0 ≤ k' < k → at_ r (addDays (AnchorDate r) (k' * IntervalDays r)) loc ≤ t) →
  ∃ k1, 0 ≤ k1 ∧ interval_from fuel r loc t k = Ok (at_ r (addDays (AnchorDate r) (k1 * IntervalDays r)) loc) ∧
    t < at_ r (addDays (AnchorDate r) (k1 * IntervalDays r)) loc ∧
    ∀ k', 0 ≤ k' < k1 → at_ r (addDays (AnchorDate r) (k' * IntervalDays r)) loc ≤ t.
Proof.
  intros Hn. revert k. induction fuel as [|fuel IH]; intros k Hk Hf H1 Hpast; [lia|]. simpl.
  destruct (Z.ltb_spec t (at_ r (addDays (AnchorDate r) (k * IntervalDays r)) loc)) as [E|E]; [by exists k|].
  assert (Hlt : midnight (AnchorDate r) + k * IntervalDays r < midnight (start_of loc t) + 3).
  { apply Z.nlt_ge in E. apply Z.nle_gt. intros Hge. apply E, at_after_start; [done|done|].
    rewrite midnight_addDays. lia. }
  apply IH; [lia|nia|lia|]. intros k' Hk'. destruct (decide (k' = k)) as [->|]; [done|]. apply Hpast. lia.
Qed.

Lemma first_k_past t k :
  1 ≤ IntervalDays r → 0 ≤ k < first_k r (start_of loc t) →
  at_ r (addDays (AnchorDate r) (k * IntervalDays r)) loc ≤ t.
Proof.
  intros Hn Hk. apply at_before_start; [done|done|]. rewrite midnight_addDays. unfold first_k, daysSince in Hk.
  set (A := midnight (AnchorDate r)) in *. set (S := midnight (start_of loc t)) in *. clearbody A S.
  destruct (Z.ltb_spec 0 (Z.max (-106751) (Z.min 106751 (S - A)))) as [Hg|Hg]; [|lia].
  set (g := Z.max _ _) in *. assert (Hle : g ≤ S - A) by lia. clearbody g.
  rewrite Z.quot_div_nonneg in Hk by lia.
  pose proof (Z.mul_div_le (g + IntervalDays r - 1) (IntervalDays r)). nia.
Qed.

Lemma first_k_nonneg start : 1 ≤ IntervalDays r → 0 ≤ first_k r start.
Proof. intros Hn. unfold first_k. case_match; [|lia]. apply Z.quot_pos; lia. Qed.
End next_loops.

Lemma validate_parts load r :
  Validate load r = None →
  validate_kind r = None ∧ time_valid (TimeOfDay_ r) = true ∧ ∃ loc, location load r = Ok loc.
Proof.
  unfold Validate. destruct (validate_kind r); [done|]. destruct (time_valid (TimeOfDay_ r)); [|done].
  simpl. destruct (location load r) as [loc|]; [|done]. eauto.
Qed.

Lemma valid_date d : date_valid d = true → d = dateOf (midnight d).
Proof. unfold date_valid. intros [_ H%bool_decide_eq_true]%andb_true_iff. done. Qed.

Lemma interval_next load r loc t :
  Validate load r = None → zone_ok loc → location load r = Ok loc → Kind r = KindInterval →
  ∃ u, Next load r t = Ok u ∧ earliest loc r t u.
Proof.
  intros Hv Hz Hl Hk. destruct (validate_parts _ _ Hv) as (Hvk & Ht & _).
  unfold validate_kind in Hvk. rewrite decide_True in Hvk by done.
  destruct (_ || _) eqn:En in Hvk; [done|]. destruct (negb _) eqn:Ed in Hvk; [done|].
  apply negb_false_iff, valid_date in Ed. assert (Hn : 1 ≤ IntervalDays r) by lia. clear En Hvk.
  pose proof (first_k_nonneg r Ht (start_of loc t) Hn) as Hk0.
  destruct (interval_from_spec loc r Hz Ht t (loop_fuel r (start_of loc t)) (first_k r (start_of loc t)))
    as (k1 & Hk1 & Hok & Hat & Hpast); [done|done|unfold loop_fuel; nia|unfold loop_fuel; lia| |].
  { intros k' Hk'. by apply first_k_past. }
  eexists. unfold Next. rewrite Hv, Hl, decide_True by done. split; [exact Hok|]. split; [done|]. split.
  - eexists. split; [|reflexivity]. split; [by rewrite midnight_addDays, addDays_dateOf|].
    rewrite decide_True by done. exists k1. split; [done|]. by rewrite midnight_addDays.
  - intros d' [Hd' Hocc] Hat'. rewrite decide_True in Hocc by done. destruct Hocc as (k' & Hk' & Em).
    apply at_midnight; [done|done|by rewrite midnight_addDays, addDays_dateOf|done|].
    rewrite midnight_addDays, Em. apply Z.nlt_ge. intros Hlt.
    assert (Hlt' : k' < k1) by nia. specialize (Hpast k' (conj Hk' Hlt')).
    replace (addDays (AnchorDate r) (k' * IntervalDays r)) with d' in Hpast; [lia|].
    by rewrite Hd', addDays_dateOf, Em.
Qed.

Lemma days_next load r loc t :
  Validate load r = None → zone_ok loc → location load r = Ok loc → rule_typed r → Kind r ≠ KindInterval →
  ∃ u, Next load r t = Ok u ∧ earliest loc r t u.
Proof.
  intros Hv Hz Hl Hty Hk. destruct (validate_parts _ _ Hv) as (Hvk & Ht & _).
  set (start := start_of loc t) in *.
  assert (Hadd : ∀ j, addDays start j = dateOf (midnight start + j)) by (intros; apply addDays_dateOf).
  destruct (matching_day r (midnight start) Hty Hvk Hk) as (j & Hj & Hm). rewrite <- Hadd in Hm.
  destruct (days_loop_spec loc r Hz Ht t start 64 0 j) as (k & Hk0 & Hok & Hmk & Hat & Hno); [lia|done| |].
  { apply at_after_start; [done|done|]. fold start. rewrite midnight_addDays. lia. }
  eexists. unfold Next. rewrite Hv, Hl, decide_False by done. split; [exact Hok|]. split; [done|]. split.
  - eexists. split; [|reflexivity]. split; [by rewrite midnight_addDays, addDays_dateOf|]. by rewrite decide_False.
  - intros d' [Hd' Hocc] Hat'. rewrite decide_False in Hocc by done.
    apply at_midnight; [done|done|by rewrite midnight_addDays, addDays_dateOf|done|].
    rewrite midnight_addDays. apply Z.nlt_ge. intros Hlt.
    assert (Hge : midnight start ≤ midnight d').
    { apply Z.nlt_ge. intros Hb. pose proof (at_before_start loc r Hz Ht t d' Hb). lia. }
    assert (Hd2 : d' = addDays start (midnight d' - midnight start)).
    { rewrite Hadd, Hd'. rewrite midnight_dateOf. f_equal. lia. }
    rewrite Hd2 in Hocc, Hat'. pose proof (Hno (midnight d' - midnight start)). specialize (H ltac:(lia) Hocc). lia.
Qed.

(** C12: [Next] of a valid rule always returns, and what it returns is the earliest
    occurrence strictly after the given time: the instant of a date of the rule, with no
    date of the rule in between, across every switch of the zone.  In particular the
    unbounded loop of interval rules ends, and 64 days are enough for the others. *)
Theorem next_earliest load r loc t :
  Validate load r = None → location load r = Ok loc → zone_ok loc → rule_typed r →
  ∃ u, Next load r t = Ok u ∧ earliest loc r t u.
Proof.
  intros Hv Hl Hz Hty. destruct (decide (Kind r = KindInterval)).
  - by apply interval_next.
  - by apply days_next.
Qed.

Lemma next_sound load r loc t u :
  location load r = Ok loc → zone_ok loc → rule_typed r → Next load r t = Ok u → earliest loc r t u.
Proof.
  intros Hl Hz Hty Hn. destruct (Validate load r) eqn:Hv; [unfold Next in Hn; by rewrite Hv in Hn|].
  destruct (decide (Kind r = KindInterval)).
  - destruct (interval_next load r loc t Hv Hz Hl) as (u' & Hu & He); [done|]. congruence.
  - destruct (days_next load r loc t Hv Hz Hl Hty) as (u' & Hu & He); [done|]. congruence.
Qed.

(** a preview of a valid rule has the number of instants asked for, in strictly
    increasing order, all later than the given time, and no occurrence up to the last of
    them is left out. *)
Theorem preview_complete load r loc t n :
  Validate load r = None → location load r = Ok loc → zone_ok loc → rule_typed r →
  ∃ l, Preview load r t n = Ok l ∧ length l = n ∧ StronglySorted Z.lt (t :: l) ∧
    ∀ d, occurrence_date r d → t < at_ r d loc ≤ List.last l t → at_ r d loc ∈ l.
Proof.
  intros Hv Hl Hz Hty. revert t. induction n as [|n IH]; intros t.
  - exists []. split; [done|]. split; [done|]. split; [repeat constructor|]. simpl. intros d _ Hd. lia.
  - assert (Hn : ∃ u, Next load r t = Ok u ∧ earliest loc r t u).
    { destruct (decide (Kind r = KindInterval)); [by apply interval_next|by apply days_next]. }
    destruct Hn as (u & Hu & Hlt & _ & Hmin). destruct (IH u) as (l & Hpl & Hlen & Hs & Hall).
    exists (u :: l). simpl. rewrite Hu, Hpl. split; [done|]. split; [by rewrite Hlen|]. split.
    + constructor; [done|]. constructor; [done|]. apply StronglySorted_inv in Hs as [_ Hf].
      eapply Forall_impl; [exact Hf|]. simpl. intros x Hx. lia.
    + intros d Hocc Hd. destruct (decide (at_ r d loc = u)) as [->|Hne]; [apply list_elem_of_here|].
      apply list_elem_of_further, Hall; [done|]. specialize (Hmin d Hocc).
      destruct l as [|x l]; simpl in *; [lia|].
      assert (El : List.last (x :: l) t = List.last (x :: l) u).
      { clear. revert x. induction l as [|y l IH]; intros x; [done|]. apply (IH y). }
      simpl in El. lia.
Qed.

Lemma interval_from_same r r' loc t fuel k :
  TimeOfDay_ r' = TimeOfDay_ r → AnchorDate r' = AnchorDate r → IntervalDays r' = IntervalDays r →
  interval_from fuel r' loc t k = interval_from fuel r loc t k.
Proof.
  intros Et Ea Ei. revert k. induction fuel as [|fuel IH]; intros k; [done|]. cbn [interval_from].
  by rewrite Ea, Ei, (at_same r r'), IH.
Qed.

Lemma days_loop_same r r' loc t start n i :
  TimeOfDay_ r' = TimeOfDay_ r → (∀ d, matches r' d = matches r d) →
  days_loop n r' loc t start i = days_loop n r loc t start i.
Proof.
  intros Et Em. revert i. induction n as [|n IH]; intros i; [done|]. cbn [days_loop].
  by rewrite Em, (at_same r r'), IH.
Qed.

Lemma canonical_validate load r :
  load "UTC"%string = Some UTC →
  Validate load (Canonical r) = Validate load r ∧ location load (Canonical r) = location load r.
Proof.
  intros Hutc. assert (Hloc : location load (Canonical r) = location load r).
  { unfold location, Canonical. cbn [Zone]. destruct (decide (Zone r = "")%string) as [E|E]; [|by rewrite decide_False].
    by rewrite !decide_False, Hutc. }
  split; [|done]. unfold Validate. rewrite Hloc.
  assert (Hk : validate_kind (Canonical r) = validate_kind r); [|by rewrite Hk].
  unfold validate_kind, Canonical. cbn [Kind IntervalDays AnchorDate Weekdays DaysOfMonth LastDay].
  destruct (decide (Kind r = KindInterval)); [by rewrite bool_decide_true|].
  destruct (decide (Kind r = KindWeekly)); [by rewrite bool_decide_true|].
  destruct (decide (Kind r = KindMonthly)); [|done]. by rewrite bool_decide_true.
Qed.

(** clearing the fields a kind does not use changes nothing: the canonical rule is due
    exactly when the rule is, and is its own canonical form. *)
Theorem canonical_same load r t :
  load "UTC"%string = Some UTC →
  Next load (Canonical r) t = Next load r t ∧ Canonical (Canonical r) = Canonical r.
Proof.
  intros Hutc. destruct (canonical_validate load r Hutc) as [Hv Hl]. split.
  - unfold Next. rewrite Hv, Hl. destruct (Validate load r); [done|].
    destruct (location load r) as [loc|]; [|done].
    change (Kind (Canonical r)) with (Kind r). case_decide as Ek.
    + assert (Ea : AnchorDate (Canonical r) = AnchorDate r) by (unfold Canonical; cbn [AnchorDate]; by rewrite bool_decide_true).
      assert (Ei : IntervalDays (Canonical r) = IntervalDays r) by (unfold Canonical; cbn [IntervalDays]; by rewrite bool_decide_true).
      unfold loop_fuel, first_k. rewrite Ea, Ei. by apply interval_from_same.
    + apply days_loop_same; [done|]. intros d. unfold matches, Canonical. cbn [Kind Weekdays DaysOfMonth LastDay].
      destruct (decide (Kind r = KindWeekly)); [by rewrite bool_decide_true|].
      destruct (decide (Kind r = KindMonthly)); [|done]. by rewrite bool_decide_true.
  - unfold Canonical. cbn [Kind IntervalDays AnchorDate Weekdays DaysOfMonth LastDay TimeOfDay_ Zone].
    assert (Ez : ∀ z : string, (if decide ((if decide (z = "") then "UTC" else z) = "") then "UTC" else if decide (z = "") then "UTC" else z)%string =
      (if decide (z = "") then "UTC" else z)%string) by (intros z; by repeat case_decide).
    rewrite Ez. by destruct (bool_decide (Kind r = KindInterval)), (bool_decide (Kind r = KindWeekly)), (bool_decide (Kind r = KindMonthly)).
Qed.

(** ** Round trips *)

Lemma mod10_cases (n : Z) :
  n mod 10 = 0 ∨ n mod 10 = 1 ∨ n mod 10 = 2 ∨ n mod 10 = 3 ∨ n mod 10 = 4 ∨ n mod 10 = 5 ∨ n mod 10 = 6 ∨
  n mod 10 = 7 ∨ n mod 10 = 8 ∨ n mod 10 = 9.
Proof. lia. Qed.

Lemma digit_value_digit n : digit_value (digit n) = Some (n mod 10).
Proof. unfold digit. by destruct (mod10_cases n) as [->|[->|[->|[->|[->|[->|[->|[->|[->| ->]]]]]]]]]. Qed.

(** A digit begins no space, forwards or backwards. *)
Lemma digit_no_space n s :
  list_find (λ e, has_prefix e (String (digit n) s) = true) space_encodings = None ∧
  list_find (λ e, has_prefix e (String (digit n) s) = true) (map string_rev space_encodings) = None.
Proof. unfold digit. by destruct (mod10_cases n) as [->|[->|[->|[->|[->|[->|[->|[->|[->| ->]]]]]]]]]. Qed.

(** What begins and ends with a digit is not trimmed. *)
Lemma trim_digits n m s r :
  s = String (digit n) (r) → (∃ q, string_rev s = String (digit m) q) → string_rev (string_rev s) = s → trim_space s = s.
Proof.
  intros Hs [q Hq] Hrev. unfold trim_space, trim_with, trim_right, trim_left.
  assert (El : trim_left_fuel space_encodings (String.length s) s = s).
  { rewrite Hs at 1 2. cbn [String.length trim_left_fuel]. by rewrite (proj1 (digit_no_space n r)), Hs. }
  rewrite El, Hq. cbn [String.length trim_left_fuel]. by rewrite (proj2 (digit_no_space m q)), <- Hq.
Qed.

Lemma digits2 n : 0 ≤ n < 100 → digits (String (digit (n / 10)) (String (digit n) "")) = Some n.
Proof.
  intros Hn. unfold digits. rewrite decide_False by done. cbn [digits_from].
  rewrite !digit_value_digit. simpl. f_equal. lia.
Qed.

Lemma pad2 n : 0 ≤ n < 100 → append_int 2 n = String (digit (n / 10)) (String (digit n) "").
Proof.
  intros Hn. unfold append_int. rewrite Z.abs_eq by lia. change (10 ^ Z.of_nat 2) with 100.
  destruct (Z.ltb_spec n 100); [|lia]. destruct (Z.ltb_spec n 0); [lia|]. reflexivity.
Qed.

Lemma digits4 n :
  0 ≤ n < 10000 →
  digits (String (digit (n / 10 / 10 / 10)) (String (digit (n / 10 / 10)) (String (digit (n / 10)) (String (digit n) "")))) = Some n.
Proof.
  intros Hn. unfold digits. rewrite decide_False by done. cbn [digits_from].
  rewrite !digit_value_digit. simpl. f_equal. lia.
Qed.

Lemma pad4 n : 0 ≤ n < 10000 → append_int 4 n =
  String (digit (n / 10 / 10 / 10)) (String (digit (n / 10 / 10)) (String (digit (n / 10)) (String (digit n) ""))).
Proof.
  intros Hn. unfold append_int. rewrite Z.abs_eq by lia. change (10 ^ Z.of_nat 4) with 10000.
  destruct (Z.ltb_spec n 10000); [|lia]. destruct (Z.ltb_spec n 0); [lia|]. reflexivity.
Qed.

(** A digit is neither a sign nor a colon. *)
Lemma digit_sign n s :
  Atoi (String (digit n) s) = digits (String (digit n) s) ∧
  cut ":" (String (digit n) s) = '(h, t) ← cut ":" s; Some (String (digit n) h, t).
Proof. unfold digit. by destruct (mod10_cases n) as [->|[->|[->|[->|[->|[->|[->|[->|[->| ->]]]]]]]]]. Qed.

Lemma time_of_day_roundtrip t : time_valid t = true → ParseTimeOfDay (TimeOfDay_String t) = Ok t.
Proof.
  destruct t as [h m]. intros Hv. pose proof Hv as Hv'. unfold time_valid in Hv'. simpl in Hv'.
  rewrite !andb_true_iff, !Z.leb_le, !Z.ltb_lt in Hv'.
  unfold TimeOfDay_String, sprintf_02d, ParseTimeOfDay. simpl.
  destruct (Z.ltb_spec h 0); [lia|]. destruct (Z.ltb_spec m 0); [lia|]. rewrite !pad2 by lia.
  erewrite (trim_digits (h / 10) m); [|reflexivity|eexists; reflexivity|reflexivity].
  assert (Ec : cut ":" (String (digit (h / 10)) (String (digit h) "") +:+ String ":" ("" +:+ String (digit (m / 10)) (String (digit m) "")))
    = Some (String (digit (h / 10)) (String (digit h) ""), String (digit (m / 10)) (String (digit m) ""))).
  { cbn [String.app]. rewrite (proj2 (digit_sign _ _)), (proj2 (digit_sign _ _)). reflexivity. }
  rewrite Ec, decide_True by done. rewrite !(proj1 (digit_sign _ _)), !digits2 by lia. by rewrite Hv.
Qed.

Lemma date_roundtrip d : date_valid d = true → 0 ≤ Year d < 10000 → ParseDate (Date_String d) = Ok d.
Proof.
  intros Hv Hy. pose proof (valid_date _ Hv) as Hd. unfold date_valid in Hv. apply andb_true_iff in Hv as [Hz _].
  unfold Date_String. apply negb_true_iff in Hz. rewrite Hz, <- Hd.
  assert (Hc : civil_valid (Year d, Month d, Day d) ∧ days_from_civil (Year d) (Month d) (Day d) = midnight d).
  { rewrite Hd at 1 2 3 4 5 6. with_strategy transparent [dateOf] unfold dateOf.
    pose proof (civil_roundtrip (midnight d)) as Hr. by destruct (civil_from_days (midnight d)) as [[y m] dd]. }
  destruct Hc as [[Hm Hdd] Hn]. pose proof (month_days_range (Year d) (Month d)) as Hmd.
  rewrite pad4, !pad2 by lia. unfold ParseDate.
  erewrite (trim_digits (Year d / 10 / 10 / 10) (Day d)); [|reflexivity|eexists; reflexivity|reflexivity].
  unfold parse_date_only. cbn [String.app]. rewrite digits4, !digits2 by lia. cbn [mbind option_bind].
  destruct (_ && _) eqn:E.
  - by rewrite Hn, <- Hd.
  - exfalso. assert (Ht : (1 <=? Month d) && (Month d <=? 12) && (1 <=? Day d) && (Day d <=? month_days (Year d) (Month d)) = true) by lia.
    congruence.
Qed.

Lemma ParseDays_spec l acc :
  Forall (λ d, 1 ≤ d ≤ 28) l →
  ∃ s, ParseDays_from acc l = Ok s ∧ ∀ i, 0 ≤ i → Z.testbit s i = Z.testbit acc i || bool_decide (i ∈ l).
Proof.
  revert acc. induction l as [|d l IH]; intros acc Hl.
  - exists acc. split; [done|]. intros i _. rewrite bool_decide_false by apply not_elem_of_nil. by rewrite orb_false_r.
  - apply Forall_cons in Hl as [Hd Hl]. simpl. unfold MaxDayOfMonth.
    assert ((d <? 1) || (28 <? d) = false) as -> by lia.
    destruct (IH (Z.lor acc (Z.shiftl 1 d)) Hl) as (s & Hs & Hbits). exists s. split; [done|].
    intros i Hi. rewrite Hbits, Z.lor_spec, Z.shiftl_1_l by done. rewrite <- orb_assoc. f_equal.
    destruct (decide (i = d)) as [->|Hne].
    + rewrite Z.pow2_bits_true by lia. symmetry. apply bool_decide_eq_true, list_elem_of_here.
    + rewrite Z.pow2_bits_false by lia. simpl. apply bool_decide_ext. rewrite elem_of_cons. naive_solver.
Qed.

Lemma days_roundtrip s : 0 ≤ s → Z.ldiff s validDays = 0 → ParseDays (Days s) = Ok s.
Proof.
  intros Hs Hv. assert (Hin : ∀ i, i ∈ Days s ↔ (1 ≤ i ≤ 28) ∧ DaySet_Has s i = true).
  { intros i. unfold Days. rewrite list_elem_of_In, filter_In, <- list_elem_of_In, elem_of_seqZ. unfold MaxDayOfMonth. split; intros []; split; (done || lia). }
  destruct (ParseDays_spec (Days s) 0) as (s' & Hs' & Hbits); [by apply Forall_forall; intros i [? _]%Hin|].
  unfold ParseDays. rewrite Hs'. f_equal. apply Z.bits_inj'. intros i Hi. rewrite Hbits, Z.testbit_0_l by done. simpl.
  assert (Hl : Z.testbit (Z.ldiff s validDays) i = false) by (rewrite Hv; apply Z.testbit_0_l).
  rewrite Z.ldiff_spec, validDays_testbit in Hl by done.
  destruct (Z.testbit s i) eqn:E.
  - apply bool_decide_eq_true, Hin. assert (1 ≤ i ≤ 28) by (simpl in Hl; lia). split; [done|].
    unfold DaySet_Has. rewrite bit_testbit, E by lia. lia.
  - apply bool_decide_eq_false. intros [Hr Hh]%Hin. unfold DaySet_Has in Hh. rewrite bit_testbit, E in Hh by lia.
    rewrite andb_false_r in Hh. done.
Qed.

Lemma weekdays_roundtrip `{GoUnicode} s : 0 ≤ s < 128 → ParseWeekdays (Names s) = Ok s.
Proof.
  intros Hs. assert (Hall : forallb (λ s, match ParseWeekdays (Names s) with Ok m => m =? s | Err _ => false end) (seqZ 0 128) = true)
    by (vm_compute; reflexivity).
  rewrite forallb_forall in Hall. specialize (Hall s).
  assert (Hin : In s (seqZ 0 128)) by (apply list_elem_of_In, elem_of_seqZ; lia).
  apply Hall in Hin. destruct (ParseWeekdays (Names s)) as [m|e]; [|done]. f_equal. by apply Z.eqb_eq.
Qed.

(** what the printers write, the parsers read back: the names of a set of weekdays, the
    days of a set of days of the month, a time of day, and a date of a four-digit year. *)
Theorem parse_print `{GoUnicode} :
  (∀ s, 0 ≤ s < 128 → ParseWeekdays (Names s) = Ok s) ∧
  (∀ s, 0 ≤ s → Z.ldiff s validDays = 0 → ParseDays (Days s) = Ok s) ∧
  (∀ t, time_valid t = true → ParseTimeOfDay (TimeOfDay_String t) = Ok t) ∧
  (∀ d, date_valid d = true → 0 ≤ Year d < 10000 → ParseDate (Date_String d) = Ok d).
Proof.
  split; [intros; by apply weekdays_roundtrip|]. split; [intros; by apply days_roundtrip|].
  split; intros; [by apply time_of_day_roundtrip|by apply date_roundtrip].
Qed.

(** the parser of times of day takes a sign for a digit: texts that are not [HH:MM] are
    read as times, and print as another text. *)
Theorem signed_time_of_day :
  ParseTimeOfDay "+9:+5" = Ok {| Hour := 9; Minute := 5 |} ∧
  ParseTimeOfDay "-0:-0" = Ok {| Hour := 0; Minute := 0 |} ∧
  TimeOfDay_String {| Hour := 9; Minute := 5 |} = "09:05"%string.
Proof. repeat split; vm_compute; reflexivity. Qed.

(** ** Concrete zones and rules *)

(** Stockholm and New York in 2026, with the switches of that year. *)
Definition stockholm : zone := λ x, if (1774746000 <=? x) && (x <? 1792890000) then 7200 else 3600.
Definition new_york : zone := λ x, if (1772953200 <=? x) && (x <? 1793512800) then -14400 else -18000.

Definition sample_load (name : string) : option zone :=
  if decide (name = "Europe/Stockholm")%string then Some stockholm
  else if decide (name = "America/New_York")%string then Some new_york
  else if decide (name = "UTC")%string then Some UTC else None.

Definition nightly (z : string) : Rule :=
  {| Kind := KindInterval; IntervalDays := 1; AnchorDate := {| Year := 2026; Month := 3; Day := 1 |};
     Weekdays := 0; DaysOfMonth := 0; LastDay := false; TimeOfDay_ := {| Hour := 2; Minute := 30 |}; Zone := z |}.
Definition month_end (z : string) : Rule :=
  {| Kind := KindMonthly; IntervalDays := 0; AnchorDate := zero_date;
     Weekdays := 0; DaysOfMonth := 0; LastDay := true; TimeOfDay_ := {| Hour := 2; Minute := 30 |}; Zone := z |}.

(** A zone that leaves [o] for [o'] between two instants far apart. *)
Lemma summer_ok a b o o' :
  a + 6 * day ≤ b → Z.abs o < 16 * hour → Z.abs o' < 16 * hour → Z.abs (o - o') ≤ 3 * hour →
  let z : zone := λ x, if (a <=? x) && (x <? b) then o' else o in zone_ok z ∧ short_overlaps z.
Proof.
  intros Hab Ho Ho' Hd z. unfold hour, day in *. split; [split|].
  - intros x. unfold z, hour. destruct (_ && _); lia.
  - intros c. unfold switches, z, day. destruct (decide (c ≤ a)); [exists a, o, o'|exists b, o', o];
      (split; [lia|]; intros x Hx; destruct (Z.leb_spec a x), (Z.ltb_spec x b), (Z.ltb_spec x a); simpl; try lia; done).
  - intros x y Hx Hy. unfold z, hour. destruct (_ && _), (_ && _); lia.
Qed.

Lemma stockholm_ok : zone_ok stockholm ∧ short_overlaps stockholm.
Proof. apply (summer_ok 1774746000 1792890000 3600 7200); unfold day, hour; lia. Qed.
Lemma new_york_ok : zone_ok new_york ∧ short_overlaps new_york.
Proof. apply (summer_ok 1772953200 1793512800 (-18000) (-14400)); unfold day, hour; lia. Qed.

(** Half past two of the night the clocks go back in Stockholm: shown twice, taken first. *)
Lemma at_first_witness :
  local stockholm 1792891800 = 1792895400 ∧ local stockholm 1792888200 = 1792895400 ∧
  first_instant stockholm 1792895400 ≤ 1792888200.
Proof.
  split; [reflexivity|]. split; [reflexivity|].
  apply (at_first stockholm 1792895400 1792888200); [apply stockholm_ok|apply stockholm_ok|reflexivity|reflexivity].
Defined.

(** Half past two of the night the clocks go forward in New York: not shown, and taken to be
    half past one. *)
Lemma gap_direction_witness :
  local new_york (first_instant new_york 1772937000) = 1772937000 - 3600.
Proof.
  rewrite (gap_direction new_york 1772937000 1772953200 (-18000) (-14400)); [reflexivity|apply new_york_ok| |lia].
  split; [unfold day; lia|]. intros x Hx. unfold window_of, hour, day, new_york in *.
  destruct (Z.leb_spec 1772953200 x), (Z.ltb_spec x 1793512800), (Z.ltb_spec x 1772953200); simpl; lia.
Defined.

Lemma nightly_typed z : rule_typed (nightly z).
Proof. split; simpl; lia. Qed.
Lemma month_end_typed z : rule_typed (month_end z).
Proof. split; simpl; lia. Qed.

Lemma next_earliest_witness :
  Next sample_load (nightly "America/New_York") 1772928000000000000 = Ok 1772951400000000000 ∧
  earliest new_york (nightly "America/New_York") 1772928000000000000 1772951400000000000.
Proof.
  assert (Hn : Next sample_load (nightly "America/New_York") 1772928000000000000 = Ok 1772951400000000000) by (vm_compute; reflexivity).
  split; [exact Hn|].
  destruct (next_earliest sample_load (nightly "America/New_York") new_york 1772928000000000000) as (u & Hu & He);
    [vm_compute; reflexivity|reflexivity|apply new_york_ok|apply nightly_typed|].
  rewrite Hn in Hu. injection Hu as <-. exact He.
Defined.

Lemma preview_complete_witness :
  ∃ l, Preview sample_load (month_end "Europe/Stockholm") 1772928000000000000 3 = Ok l ∧ length l = 3%nat.
Proof.
  destruct (preview_complete sample_load (month_end "Europe/Stockholm") stockholm 1772928000000000000 3) as (l & Hl & Hn & _);
    [vm_compute; reflexivity|reflexivity|apply stockholm_ok|apply month_end_typed|].
  exists l. split; [exact Hl|exact Hn].
Defined.

Lemma canonical_same_witness :
  Next sample_load (Canonical (month_end "")) 1772928000000000000 = Next sample_load (month_end "") 1772928000000000000.
Proof. apply (canonical_same sample_load (month_end "") 1772928000000000000). reflexivity. Defined.
