(* ===== verification/Schedules.v ===== *)
(** * Cohort schedules: [server/store.go], [server/models.go], [server/scheduler.go]

    The catalogue of analysis cohorts with their schedules, as the in-memory store keeps it,
    the wire form of a schedule, and the scheduler that fires the schedules that are due.
    Times are nanoseconds since 1970, as in [Recurrence.v].  Submitting a batch and counting
    its outstanding jobs are the business of other parts of the server: a firing gets their
    answers as an [env]. *)

From S2P Require Import Prelude GoStrings Calendar Recurrence.

Local Open Scope Z_scope.
Local Open Scope list_scope.

(** Go's zero time, 0001-01-01. *)
Definition zero_time : Z := -62135596800 * 1000000000.

(** ** The wire form of a rule: [server/models.go] *)

Record ScheduleRuleFields := {
  f_kind : string;
  f_interval_days : Z;
  f_anchor_date : string;
  f_weekdays : list string;
  f_days_of_month : list Z;
  f_last_day : bool;
  f_time_of_day : string;
  f_timezone : string
}.

Section wire.
Context `{GoUnicode} (load : string → option zone).

(** The fields the kind uses. *)
Definition parse_kind_fields (kind : string) (f : ScheduleRuleFields) : result (Z * Date * Z * Z * bool) error :=
  if decide (kind = KindInterval) then
    match ParseDate (f_anchor_date f) with
    | Ok d => Ok (f_interval_days f, d, 0, 0, false)
    | Err e => Err e
    end
  else if decide (kind = KindWeekly) then
    match ParseWeekdays (f_weekdays f) with
    | Ok s => Ok (0, zero_date, s, 0, false)
    | Err e => Err e
    end
  else if decide (kind = KindMonthly) then
    match ParseDays (f_days_of_month f) with
    | Ok s => Ok (0, zero_date, 0, s, f_last_day f)
    | Err e => Err e
    end
  else Ok (0, zero_date, 0, 0, false).

(** [ScheduleRuleFields.Rule] *)
Definition fields_rule (f : ScheduleRuleFields) : result Rule error :=
  match ParseKind (f_kind f) with
  | Err e => Err e
  | Ok kind =>
      match parse_kind_fields kind f with
      | Err e => Err e
      | Ok (n, d, w, m, l) =>
          match ParseTimeOfDay (f_time_of_day f) with
          | Err e => Err e
          | Ok tod =>
              let r := Canonical {| Kind := kind; IntervalDays := n; AnchorDate := d; Weekdays := w;
                                    DaysOfMonth := m; LastDay := l; TimeOfDay_ := tod;
                                    Zone := trim_space (f_timezone f) |} in
              match Validate load r with None => Ok r | Some e => Err e end
          end
      end
  end.
End wire.

Definition scheduleRuleFields (r : Rule) : ScheduleRuleFields :=
  let r := Canonical r in
  {| f_kind := Kind r; f_interval_days := IntervalDays r; f_anchor_date := Date_String (AnchorDate r);
     f_weekdays := Names (Weekdays r); f_days_of_month := Days (DaysOfMonth r); f_last_day := LastDay r;
     f_time_of_day := TimeOfDay_String (TimeOfDay_ r); f_timezone := Zone r |}.

(** ** Cohorts and schedules *)

Record Schedule := {
  s_CohortID : Z;
  s_SourceTag : string;
  s_Label : string;
  s_Enabled : bool;
  s_Rule : Rule;
  s_ProfileID : option Z;
  s_PromoteDefault : bool;
  s_CatchUp : bool;
  s_NextRunAt : Z;
  s_LastRunAt : Z;
  s_LastBatchID : string;
  s_LastOutcome : string;
  s_LastError : string;
  s_CreatedAt : Z;
  s_UpdatedAt : Z
}.

Record ScheduleJSON := {
  w_CohortID : Z;
  w_SourceTag : string;
  w_Label : string;
  w_Enabled : bool;
  w_fields : ScheduleRuleFields;
  w_ProfileID : option Z;
  w_PromoteDefault : bool;
  w_CatchUp : bool;
  w_Summary : string;
  w_NextRunAt : Z;
  w_LastRunAt : option Z;
  w_LastBatchID : string;
  w_LastOutcome : string;
  w_LastError : string;
  w_CreatedAt : Z;
  w_UpdatedAt : Z
}.

(** The structure [MarshalJSON] hands to [encoding/json]. *)
Definition MarshalJSON (s : Schedule) : ScheduleJSON :=
  {| w_CohortID := s_CohortID s; w_SourceTag := s_SourceTag s; w_Label := s_Label s; w_Enabled := s_Enabled s;
     w_fields := scheduleRuleFields (s_Rule s); w_ProfileID := s_ProfileID s;
     w_PromoteDefault := s_PromoteDefault s; w_CatchUp := s_CatchUp s; w_Summary := Rule_String (s_Rule s);
     w_NextRunAt := s_NextRunAt s;
     w_LastRunAt := if s_LastRunAt s =? zero_time then None else Some (s_LastRunAt s);
     w_LastBatchID := s_LastBatchID s; w_LastOutcome := s_LastOutcome s; w_LastError := s_LastError s;
     w_CreatedAt := s_CreatedAt s; w_UpdatedAt := s_UpdatedAt s |}.

(** What [UnmarshalJSON] makes of the decoded structure. *)
Definition UnmarshalJSON `{GoUnicode} (load : string → option zone) (w : ScheduleJSON) : result Schedule error :=
  match fields_rule load (w_fields w) with
  | Err e => Err e
  | Ok rule =>
      Ok {| s_CohortID := w_CohortID w; s_SourceTag := w_SourceTag w; s_Label := w_Label w; s_Enabled := w_Enabled w;
            s_Rule := rule; s_ProfileID := w_ProfileID w; s_PromoteDefault := w_PromoteDefault w;
            s_CatchUp := w_CatchUp w; s_NextRunAt := w_NextRunAt w;
            s_LastRunAt := default zero_time (w_LastRunAt w);
            s_LastBatchID := w_LastBatchID w; s_LastOutcome := w_LastOutcome w; s_LastError := w_LastError w;
            s_CreatedAt := w_CreatedAt w; s_UpdatedAt := w_UpdatedAt w |}
  end.

Definition with_rule (s : Schedule) (r : Rule) : Schedule :=
  {| s_CohortID := s_CohortID s; s_SourceTag := s_SourceTag s; s_Label := s_Label s; s_Enabled := s_Enabled s;
     s_Rule := r; s_ProfileID := s_ProfileID s; s_PromoteDefault := s_PromoteDefault s; s_CatchUp := s_CatchUp s;
     s_NextRunAt := s_NextRunAt s; s_LastRunAt := s_LastRunAt s; s_LastBatchID := s_LastBatchID s;
     s_LastOutcome := s_LastOutcome s; s_LastError := s_LastError s; s_CreatedAt := s_CreatedAt s;
     s_UpdatedAt := s_UpdatedAt s |}.

Section catalogue.
(** [K]: the fields of a cohort that are only stored. *)
Context {K : Type}.

Record Cohort := {
  c_ID : Z;
  c_SourceType : string;
  c_SourceTag : string;
  c_Label : string;
  c_AnalysisEnabled : bool;
  c_SortOrder : Z;
  c_MaterializationStatus : string;
  c_DefaultSnapshotPolicy : string;
  c_CreatedAt : Z;
  c_UpdatedAt : Z;
  c_rest : K
}.

Record catalogue := { cohorts : gmap Z Cohort; cohortCounter : Z; schedules : gmap Z Schedule }.

Definition empty_catalogue : catalogue := {| cohorts := ∅; cohortCounter := 0; schedules := ∅ |}.
Definition with_schedules (st : catalogue) (m : gmap Z Schedule) : catalogue :=
  {| cohorts := cohorts st; cohortCounter := cohortCounter st; schedules := m |}.

Definition same_source (ty tag : string) (ic : Z * Cohort) : Prop := c_SourceType ic.2 = ty ∧ c_SourceTag ic.2 = tag.
#[export] Instance same_source_dec ty tag ic : Decision (same_source ty tag ic).
Proof. unfold same_source. apply _. Defined.

Definition GetAnalysisCohort (st : catalogue) (id : Z) : option Cohort := cohorts st !! id.

(** The first cohort met with the source; [map_to_list] stands for the order of iteration,
    which makes no difference when there is at most one. *)
Definition find_source (st : catalogue) (ty tag : string) : option (Z * Cohort) :=
  snd <$> list_find (same_source ty tag) (map_to_list (cohorts st)).
Definition GetAnalysisCohortBySource (st : catalogue) (ty tag : string) : option Cohort := snd <$> find_source st ty tag.

Definition or_default (v d : string) : string := if decide (v = "")%string then d else v.
Definition or_time (v d : Z) : Z := if v =? zero_time then d else v.

(** The cohort as it is stored, under [id] with the times given. *)
Definition stored_cohort (c : Cohort) (id created updated : Z) : Cohort :=
  {| c_ID := id; c_SourceType := c_SourceType c; c_SourceTag := c_SourceTag c;
     c_Label := or_default (c_Label c) (c_SourceTag c); c_AnalysisEnabled := c_AnalysisEnabled c;
     c_SortOrder := c_SortOrder c;
     c_MaterializationStatus := or_default (c_MaterializationStatus c) "pending";
     c_DefaultSnapshotPolicy := or_default (c_DefaultSnapshotPolicy c) "auto_latest";
     c_CreatedAt := created; c_UpdatedAt := updated; c_rest := c_rest c |}.

Definition UpsertAnalysisCohort (st : catalogue) (c : Cohort) (now : Z) : result (catalogue * Cohort) string :=
  if decide (c_SourceType c = "")%string then Err "source_type is required"%string
  else if decide (c_SourceTag c = "")%string then Err "source_tag is required"%string
  else
    match find_source st (c_SourceType c) (c_SourceTag c) with
    | Some (id, existing) =>
        let c := stored_cohort c id (or_time (c_CreatedAt c) (c_CreatedAt existing)) (or_time (c_UpdatedAt c) now) in
        Ok ({| cohorts := <[id := c]> (cohorts st); cohortCounter := cohortCounter st; schedules := schedules st |}, c)
    | None =>
        let counter := if c_ID c =? 0 then cohortCounter st + 1 else cohortCounter st in
        let id := if c_ID c =? 0 then counter else c_ID c in
        let created := or_time (c_CreatedAt c) now in
        let c := stored_cohort c id created (or_time (c_UpdatedAt c) created) in
        Ok ({| cohorts := <[id := c]> (cohorts st); cohortCounter := counter; schedules := schedules st |}, c)
    end.

Definition DeleteAnalysisCohort (st : catalogue) (id : Z) : catalogue :=
  {| cohorts := delete id (cohorts st); cohortCounter := cohortCounter st; schedules := delete id (schedules st) |}.

Definition GetAnalysisCohortSchedule (st : catalogue) (id : Z) : option Schedule := schedules st !! id.

Definition PutAnalysisCohortSchedule (st : catalogue) (s : Schedule) (now : Z) : result (catalogue * Schedule) string :=
  if (s_CohortID s <=? 0) || (s_NextRunAt s =? zero_time) then Err "cohort_id and next_run_at are required"%string
  else
    let old := schedules st !! s_CohortID s in
    let s := {| s_CohortID := s_CohortID s; s_SourceTag := ""; s_Label := ""; s_Enabled := s_Enabled s;
                s_Rule := Canonical (s_Rule s); s_ProfileID := s_ProfileID s; s_PromoteDefault := s_PromoteDefault s;
                s_CatchUp := s_CatchUp s; s_NextRunAt := s_NextRunAt s;
                s_LastRunAt := default zero_time (s_LastRunAt <$> old);
                s_LastBatchID := default ""%string (s_LastBatchID <$> old);
                s_LastOutcome := default ""%string (s_LastOutcome <$> old);
                s_LastError := default ""%string (s_LastError <$> old);
                s_CreatedAt := default now (s_CreatedAt <$> old); s_UpdatedAt := now |} in
    Ok (with_schedules st (<[s_CohortID s := s]> (schedules st)), s).

Definition DeleteAnalysisCohortSchedule (st : catalogue) (id : Z) : catalogue :=
  with_schedules st (delete id (schedules st)).

(** Sorting by [sort.Slice]: the comparisons are total orders on what is sorted, so the
    result is the sorted list. *)
Definition by_cohort (a b : Schedule) : Prop := s_CohortID a ≤ s_CohortID b.
Definition by_due (a b : Schedule) : Prop :=
  s_NextRunAt a < s_NextRunAt b ∨ s_NextRunAt a = s_NextRunAt b ∧ s_CohortID a ≤ s_CohortID b.
#[export] Instance by_cohort_dec : RelDecision by_cohort.
Proof. intros a b. unfold by_cohort. apply _. Defined.
#[export] Instance by_due_dec : RelDecision by_due.
Proof. intros a b. unfold by_due. apply _. Defined.

Definition ListAnalysisCohortSchedules (st : catalogue) : list Schedule :=
  merge_sort by_cohort (snd <$> map_to_list (schedules st)).

Definition due (now : Z) (s : Schedule) : Prop := s_Enabled s = true ∧ s_NextRunAt s ≤ now.
#[export] Instance due_dec now s : Decision (due now s).
Proof. unfold due. apply _. Defined.

Definition ListDueAnalysisCohortSchedules (st : catalogue) (now : Z) : list Schedule :=
  merge_sort by_due (filter (due now) (snd <$> map_to_list (schedules st))).

Definition with_next (s : Schedule) (next : Z) : Schedule :=
  {| s_CohortID := s_CohortID s; s_SourceTag := s_SourceTag s; s_Label := s_Label s; s_Enabled := s_Enabled s;
     s_Rule := s_Rule s; s_ProfileID := s_ProfileID s; s_PromoteDefault := s_PromoteDefault s; s_CatchUp := s_CatchUp s;
     s_NextRunAt := next; s_LastRunAt := s_LastRunAt s; s_LastBatchID := s_LastBatchID s;
     s_LastOutcome := s_LastOutcome s; s_LastError := s_LastError s; s_CreatedAt := s_CreatedAt s;
     s_UpdatedAt := s_UpdatedAt s |}.

Definition ClaimAnalysisCohortSchedule (st : catalogue) (id expected next : Z) : catalogue * bool :=
  match schedules st !! id with
  | None => (st, false)
  | Some s =>
      if negb (s_Enabled s) || negb (s_NextRunAt s =? expected) then (st, false)
      else (with_schedules st (<[id := with_next s next]> (schedules st)), true)
  end.

Definition with_outcome (s : Schedule) (ranAt : Z) (batchID outcome err : string) : Schedule :=
  {| s_CohortID := s_CohortID s; s_SourceTag := s_SourceTag s; s_Label := s_Label s; s_Enabled := s_Enabled s;
     s_Rule := s_Rule s; s_ProfileID := s_ProfileID s; s_PromoteDefault := s_PromoteDefault s; s_CatchUp := s_CatchUp s;
     s_NextRunAt := s_NextRunAt s; s_LastRunAt := ranAt;
     s_LastBatchID := if decide (batchID = "")%string then s_LastBatchID s else batchID;
     s_LastOutcome := outcome; s_LastError := err; s_CreatedAt := s_CreatedAt s; s_UpdatedAt := s_UpdatedAt s |}.

Definition RecordAnalysisCohortScheduleOutcome (st : catalogue) (id ranAt : Z) (batchID outcome err : string) : catalogue :=
  match schedules st !! id with
  | None => st
  | Some s => with_schedules st (<[id := with_outcome s ranAt batchID outcome err]> (schedules st))
  end.
End catalogue.
Arguments Cohort : clear implicits.
Arguments catalogue : clear implicits.

(** ** The scheduler: [server/scheduler.go] *)

Definition missedRunGrace : Z := 3600 * 1000000000.
Definition ScheduleOutcomeSubmitted : string := "submitted".
Definition ScheduleOutcomeSkippedMissed : string := "skipped_missed".
Definition ScheduleOutcomeSkippedDisabled : string := "skipped_disabled".
Definition ScheduleOutcomeSkippedActive : string := "skipped_active".
Definition ScheduleOutcomeSkippedEmpty : string := "skipped_empty".
Definition ScheduleOutcomeError : string := "error".

(** [Time.Sub] saturates. *)
Definition sub_time (a b : Z) : Z := Z.max (- 2 ^ 63) (Z.min (2 ^ 63 - 1) (a - b)).

(** A failed submission: the code and the message of the error. *)
Record request_error := { re_code : string; re_message : string }.

(** What the rest of the server answers during one firing: whether the server is stopping
    before the firing and before its submission, the outstanding jobs of a batch, and the
    submission of a batch of the domains of a tag. *)
Record env := {
  stopped : bool;
  stopping : bool;
  outstanding : string → result Z string;
  submitBatch : string → option Z → bool → result string request_error
}.

Section scheduler.
Context {K : Type} (load : string → option zone) (error_text : error → string).
Implicit Types (st : catalogue K) (s : Schedule).

(** [scheduledRun]: outcome, batch and error.  A cohort that does not exist is the zero one,
    whose identifier is 0. *)
Definition scheduledRun (e : env) s (cohort : option (Cohort K)) (now : Z) : string * string * string :=
  if negb (s_CatchUp s) && (missedRunGrace <? sub_time now (s_NextRunAt s))
  then (ScheduleOutcomeSkippedMissed, "", "")%string
  else
    match cohort with
    | None => (ScheduleOutcomeSkippedDisabled, "", "")%string
    | Some c =>
        if (c_ID c =? 0) || negb (c_AnalysisEnabled c) then (ScheduleOutcomeSkippedDisabled, "", "")%string
        else
          let busy := if decide (s_LastBatchID s = "")%string then Ok 0 else outstanding e (s_LastBatchID s) in
          match busy with
          | Err err => (ScheduleOutcomeError, ""%string, err)
          | Ok n =>
              if 0 <? n then (ScheduleOutcomeSkippedActive, "", "")%string
              else if stopping e then (ScheduleOutcomeError, "", "server stopping")%string
              else
                match submitBatch e (c_SourceTag c) (s_ProfileID s) (s_PromoteDefault s) with
                | Ok batchID => (ScheduleOutcomeSubmitted, batchID, ""%string)
                | Err re => if decide (re_code re = "missing_domain")%string
                            then (ScheduleOutcomeSkippedEmpty, "", "")%string
                            else (ScheduleOutcomeError, ""%string, re_message re)
                end
          end
    end.

Definition disabled s : Schedule :=
  {| s_CohortID := s_CohortID s; s_SourceTag := s_SourceTag s; s_Label := s_Label s; s_Enabled := false;
     s_Rule := s_Rule s; s_ProfileID := s_ProfileID s; s_PromoteDefault := s_PromoteDefault s; s_CatchUp := s_CatchUp s;
     s_NextRunAt := s_NextRunAt s; s_LastRunAt := s_LastRunAt s; s_LastBatchID := s_LastBatchID s;
     s_LastOutcome := s_LastOutcome s; s_LastError := s_LastError s; s_CreatedAt := s_CreatedAt s;
     s_UpdatedAt := s_UpdatedAt s |}.

(** [clock] is the time at which the store writes. *)
Definition disableBrokenSchedule st s (now : Z) (cause : error) (clock : Z) : catalogue K * option string :=
  match PutAnalysisCohortSchedule st (disabled s) clock with
  | Err _ => (st, None)
  | Ok (st, _) =>
      (RecordAnalysisCohortScheduleOutcome st (s_CohortID s) now "" ScheduleOutcomeError (error_text cause),
       Some ScheduleOutcomeError)
  end.

(** The store after a firing, and the outcome that is recorded and counted, if any. *)
Definition fireSchedule st (e : env) s (now clock : Z) : catalogue K * option string :=
  match Next load (s_Rule s) now with
  | Err cause => disableBrokenSchedule st s now cause clock
  | Ok next =>
      let '(st, claimed) := ClaimAnalysisCohortSchedule st (s_CohortID s) (s_NextRunAt s) next in
      if claimed then
        let '(outcome, batchID, err) := scheduledRun e s (GetAnalysisCohort st (s_CohortID s)) now in
        (RecordAnalysisCohortScheduleOutcome st (s_CohortID s) now batchID outcome err, Some outcome)
      else (st, None)
  end.

(** The loop of [runDueSchedules], with the outcomes by cohort; [envs] gives the answers
    during the firing of each cohort. *)
Fixpoint fire_all st (envs : Z → env) (l : list Schedule) (now clock : Z) : catalogue K * list (Z * string) :=
  match l with
  | [] => (st, [])
  | s :: l =>
      if stopped (envs (s_CohortID s)) then (st, [])
      else
        let '(st, o) := fireSchedule st (envs (s_CohortID s)) s now clock in
        let '(st, log) := fire_all st envs l now clock in
        (st, match o with Some o => (s_CohortID s, o) :: log | None => log end)
  end.

Definition runDueSchedules st (enabled : bool) (envs : Z → env) (now clock : Z) : catalogue K * list (Z * string) :=
  if enabled then fire_all st envs (ListDueAnalysisCohortSchedules st now) now clock else (st, []).

(** *** Several servers on one store

    A server lists the due schedules, then claims one after the other; the batch of a claim
    it has won is submitted and recorded before the next claim.  Every access to the store
    is atomic; between them the other servers, and the administrators, go on. *)
Inductive server :=
| Idle
| Working (now : Z) (todo : list Schedule)
| Running (now : Z) (s : Schedule) (todo : list Schedule).

(** What happened to the schedule of a cohort: an occurrence was claimed, or the schedule
    was written anew. *)
Inductive event := Fired (cohort occurrence : Z) | Rewritten (cohort : Z).

Record world := { w_store : catalogue K; w_servers : list server; w_log : list event }.

Definition set_server (w : world) (i : nat) (v : server) (st : catalogue K) (ev : list event) : world :=
  {| w_store := st; w_servers := <[i := v]> (w_servers w); w_log := w_log w ++ ev |}.

Inductive world_step : world → world → Prop :=
| tick w i now :
    w_servers w !! i = Some Idle →
    world_step w (set_server w i (Working now (ListDueAnalysisCohortSchedules (w_store w) now)) (w_store w) [])
| stop w i now todo :
    w_servers w !! i = Some (Working now todo) → world_step w (set_server w i Idle (w_store w) [])
| fire_claimed w i now s todo next st :
    w_servers w !! i = Some (Working now (s :: todo)) → Next load (s_Rule s) now = Ok next →
    ClaimAnalysisCohortSchedule (w_store w) (s_CohortID s) (s_NextRunAt s) next = (st, true) →
    world_step w (set_server w i (Running now s todo) st [Fired (s_CohortID s) (s_NextRunAt s)])
| fire_lost w i now s todo next st :
    w_servers w !! i = Some (Working now (s :: todo)) → Next load (s_Rule s) now = Ok next →
    ClaimAnalysisCohortSchedule (w_store w) (s_CohortID s) (s_NextRunAt s) next = (st, false) →
    world_step w (set_server w i (Working now todo) st [])
| fire_broken w i now s todo cause clock :
    w_servers w !! i = Some (Working now (s :: todo)) → Next load (s_Rule s) now = Err cause →
    world_step w (set_server w i (Working now todo)
                    (disableBrokenSchedule (w_store w) s now cause clock).1 [Rewritten (s_CohortID s)])
| run w i now s todo e :
    w_servers w !! i = Some (Running now s todo) →
    world_step w (set_server w i (Working now todo)
      (let '(outcome, batchID, err) := scheduledRun e s (GetAnalysisCohort (w_store w) (s_CohortID s)) now in
       RecordAnalysisCohortScheduleOutcome (w_store w) (s_CohortID s) now batchID outcome err) [])
| put w s clock st s' :
    PutAnalysisCohortSchedule (w_store w) s clock = Ok (st, s') →
    world_step w {| w_store := st; w_servers := w_servers w; w_log := w_log w ++ [Rewritten (s_CohortID s)] |}
| upsert w c now st c' :
    UpsertAnalysisCohort (w_store w) c now = Ok (st, c') →
    world_step w {| w_store := st; w_servers := w_servers w; w_log := w_log w |}
| delete_schedule w id :
    world_step w {| w_store := DeleteAnalysisCohortSchedule (w_store w) id; w_servers := w_servers w; w_log := w_log w |}
| delete_cohort w id :
    world_step w {| w_store := DeleteAnalysisCohort (w_store w) id; w_servers := w_servers w; w_log := w_log w |}.
End scheduler.
Arguments world : clear implicits.
