(* ===== verification/SchedulesFacts.v ===== *)
(** * Schedules: a tick fires what is due, an occurrence is claimed once, the wire form

    Facts about [Schedules.v], on top of those about recurrence rules. *)

From stdpp Require Import sorting.
From S2P Require Import Prelude GoStrings Calendar Recurrence RecurrenceFacts Schedules.

Local Open Scope Z_scope.
Local Open Scope list_scope.

(** An occurrence found is later than the time. *)
Lemma Next_after load r t u : Next load r t = Ok u → t < u.
Proof.
  unfold Next. destruct (Validate load r); [done|]. destruct (location load r) as [loc|]; [|done].
  case_decide.
  - generalize (loop_fuel r (start_of loc t)) as n. generalize (first_k r (start_of loc t)) as k.
    intros k n. revert k. induction n as [|n IH]; intros k; [done|]. cbn [interval_from].
    destruct (Z.ltb_spec t (at_ r (addDays (AnchorDate r) (k * IntervalDays r)) loc)); [by intros [= <-]|apply IH].
  - generalize 64%nat as n. generalize (start_of loc t) as d. intros d n. generalize 0.
    induction n as [|n IH]; intros i; [done|]. cbn [days_loop].
    destruct (matches r (addDays d i) && (t <? at_ r (addDays d i) loc)) eqn:E; [|apply IH].
    intros [= <-]. apply andb_true_iff in E as [_ E]. by apply Z.ltb_lt.
Qed.

Section facts.
Context {K : Type} (load : string → option zone) (error_text : error → string).
Implicit Types (st : catalogue K) (s : Schedule).

(** ** Well-formed catalogues *)

Record catalogue_wf st : Prop := {
  cw_cohort : ∀ id c, cohorts st !! id = Some c → c_ID c = id ∧ c_SourceType c ≠ ""%string ∧ c_SourceTag c ≠ ""%string;
  cw_unique : ∀ id id' c c', cohorts st !! id = Some c → cohorts st !! id' = Some c' →
    c_SourceType c = c_SourceType c' → c_SourceTag c = c_SourceTag c' → id = id';
  cw_schedule : ∀ id s, schedules st !! id = Some s → s_CohortID s = id ∧ 0 < id ∧ s_NextRunAt s ≠ zero_time
}.

Lemma find_source_Some st ty tag id c :
  find_source st ty tag = Some (id, c) → cohorts st !! id = Some c ∧ c_SourceType c = ty ∧ c_SourceTag c = tag.
Proof.
  unfold find_source. destruct (list_find _ _) as [[i [id' c']]|] eqn:E; [|done]. simpl. intros [= <- <-].
  apply list_find_Some in E as (Hl & Hs & _). split; [|done].
  by apply elem_of_map_to_list, list_elem_of_lookup_2 with i.
Qed.

Lemma find_source_None st ty tag id c :
  find_source st ty tag = None → cohorts st !! id = Some c → ¬ (c_SourceType c = ty ∧ c_SourceTag c = tag).
Proof.
  unfold find_source. destruct (list_find _ _) as [[i [id' c']]|] eqn:E; [done|]. intros _ Hc.
  apply list_find_None in E. rewrite Forall_forall in E. apply (E (id, c)). by apply elem_of_map_to_list.
Qed.

Lemma upsert_wf st c now st' c' : catalogue_wf st → UpsertAnalysisCohort st c now = Ok (st', c') → catalogue_wf st'.
Proof.
  intros [W1 W2 W3]. unfold UpsertAnalysisCohort. case_decide as H1; [done|]. case_decide as H2; [done|].
  destruct (find_source st (c_SourceType c) (c_SourceTag c)) as [[id e]|] eqn:Ef; intros [= <- _].
  - apply find_source_Some in Ef as (He & E1 & E2). split; simpl; [| |done].
    + intros i d [[<- <-]|[Hi Hd]]%lookup_insert_Some; [done|by apply W1].
    + intros i j d d' [[<- <-]|[Hi Hd]]%lookup_insert_Some [[<- <-]|[Hj Hd']]%lookup_insert_Some; simpl; intros Ea Eb.
      * done.
      * apply (W2 _ _ e d' He Hd'); congruence.
      * apply (W2 _ _ d e Hd He); congruence.
      * by apply (W2 _ _ d d').
  - split; simpl; [| |done].
    + intros i d [[<- <-]|[Hi Hd]]%lookup_insert_Some; [done|by apply W1].
    + intros i j d d' [[<- <-]|[Hi Hd]]%lookup_insert_Some [[<- <-]|[Hj Hd']]%lookup_insert_Some; simpl; intros Ea Eb.
      * done.
      * by destruct (find_source_None _ _ _ _ _ Ef Hd').
      * by destruct (find_source_None _ _ _ _ _ Ef Hd).
      * by apply (W2 _ _ d d').
Qed.

(** Writing one schedule. *)
Lemma schedule_wf st id s :
  catalogue_wf st → s_CohortID s = id → 0 < id → s_NextRunAt s ≠ zero_time →
  catalogue_wf (with_schedules st (<[id := s]> (schedules st))).
Proof.
  intros [W1 W2 W3] Hid Hpos Hne. split; simpl; [done|done|].
  intros i t [[<- <-]|[Hi Ht]]%lookup_insert_Some; [done|by apply W3].
Qed.

Lemma delete_schedule_wf st id :
  catalogue_wf st → catalogue_wf (with_schedules st (delete id (schedules st))).
Proof. intros [W1 W2 W3]. split; simpl; [done|done|]. intros i t [_ Ht]%lookup_delete_Some. by apply W3. Qed.

Lemma put_spec st s clock st' s' :
  PutAnalysisCohortSchedule st s clock = Ok (st', s') →
  st' = with_schedules st (<[s_CohortID s := s']> (schedules st)) ∧ s_CohortID s' = s_CohortID s ∧
  0 < s_CohortID s ∧ s_NextRunAt s' = s_NextRunAt s ∧ s_NextRunAt s ≠ zero_time ∧ s_Enabled s' = s_Enabled s.
Proof.
  unfold PutAnalysisCohortSchedule. destruct (_ || _) eqn:E; [done|]. intros [= <- <-].
  apply orb_false_iff in E as [E1 E2]. simpl. repeat split; lia.
Qed.

Lemma claim_spec st id expected next st' :
  ClaimAnalysisCohortSchedule st id expected next = (st', true) →
  ∃ s, schedules st !! id = Some s ∧ s_Enabled s = true ∧ s_NextRunAt s = expected ∧
    st' = with_schedules st (<[id := with_next s next]> (schedules st)).
Proof.
  unfold ClaimAnalysisCohortSchedule. destruct (schedules st !! id) as [s|]; [|done].
  destruct (negb _ || _) eqn:E; [done|]. intros [= <-]. apply orb_false_iff in E as [E1 E2].
  apply negb_false_iff in E1, E2. exists s. split; [done|]. split; [done|]. split; [lia|done].
Qed.

Lemma claim_lost st id expected next st' : ClaimAnalysisCohortSchedule st id expected next = (st', false) → st' = st.
Proof. unfold ClaimAnalysisCohortSchedule. repeat case_match; by intros [= <-]. Qed.

Lemma record_spec st id s ranAt b o e :
  schedules st !! id = Some s →
  RecordAnalysisCohortScheduleOutcome st id ranAt b o e = with_schedules st (<[id := with_outcome s ranAt b o e]> (schedules st)).
Proof. intros Hs. unfold RecordAnalysisCohortScheduleOutcome. by rewrite Hs. Qed.

(** ** One tick *)

Lemma due_elem st now s : s ∈ ListDueAnalysisCohortSchedules st now ↔ due now s ∧ ∃ id, schedules st !! id = Some s.
Proof.
  unfold ListDueAnalysisCohortSchedules. rewrite (merge_sort_Permutation by_due), list_elem_of_filter, list_elem_of_fmap.
  split; intros [Hd H]; (split; [done|]).
  - destruct H as ([id t] & -> & Ht%elem_of_map_to_list). by exists id.
  - destruct H as [id Ht]. exists (id, s). split; [done|]. by apply elem_of_map_to_list.
Qed.

Lemma due_ids_nodup st now : catalogue_wf st → NoDup (s_CohortID <$> ListDueAnalysisCohortSchedules st now).
Proof.
  intros W. unfold ListDueAnalysisCohortSchedules. rewrite (merge_sort_Permutation by_due).
  assert (Hk : s_CohortID <$> (snd <$> map_to_list (schedules st)) = fst <$> map_to_list (schedules st)).
  { rewrite <- list_fmap_compose. apply list_fmap_ext. intros i [id s] Hl. simpl.
    apply list_elem_of_lookup_2, elem_of_map_to_list in Hl. by apply (cw_schedule _ W). }
  assert (Hn : NoDup (s_CohortID <$> (snd <$> map_to_list (schedules st)))) by (rewrite Hk; apply NoDup_fst_map_to_list).
  revert Hn. generalize (snd <$> map_to_list (schedules st)) as l. induction l as [|s l IH]; simpl; [done|].
  intros [Hs Hl]%NoDup_cons. rewrite filter_cons. case_decide; [|by apply IH]. simpl. apply NoDup_cons. split; [|by apply IH].
  intros (t & E & Ht)%list_elem_of_fmap. apply list_elem_of_filter in Ht as [_ Ht]. apply Hs. rewrite E. by apply list_elem_of_fmap_2.
Qed.

(** The schedule after the firing of a due occurrence. *)
Definition fired (now : Z) s s' (o : string) : Prop :=
  s_LastRunAt s' = now ∧ s_LastOutcome s' = o ∧
  match Next load (s_Rule s) now with
  | Ok next => s_Enabled s' = true ∧ s_NextRunAt s' = next
  | Err _ => s_Enabled s' = false
  end.

Lemma fire_spec st e s now clock :
  catalogue_wf st → zero_time ≤ now → schedules st !! s_CohortID s = Some s → due now s →
  let '(st', o) := fireSchedule load error_text st e s now clock in
  ∃ o' s', o = Some o' ∧ catalogue_wf st' ∧ schedules st' = <[s_CohortID s := s']> (schedules st) ∧ fired now s s' o'.
Proof.
  intros W Hz Hs [He Hn]. destruct (cw_schedule _ W _ _ Hs) as (_ & Hpos & Hne). unfold fireSchedule, fired.
  destruct (Next load (s_Rule s) now) as [next|cause] eqn:En.
  - pose proof (Next_after _ _ _ _ En) as Hlt.
    destruct (ClaimAnalysisCohortSchedule st (s_CohortID s) (s_NextRunAt s) next) as [st1 [|]] eqn:Ec.
    + apply claim_spec in Ec as (s0 & Hs0 & _ & _ & ->). rewrite Hs in Hs0. injection Hs0 as <-.
      destruct (scheduledRun e s _ now) as [[o b] err].
      rewrite (record_spec _ _ (with_next s next)) by (simpl; by rewrite lookup_insert_eq).
      exists o, (with_outcome (with_next s next) now b o err). split; [done|]. simpl. rewrite insert_insert_eq.
      split; [|split; [done|done]]. apply (schedule_wf st); [done|done|done|]. simpl. lia.
    + exfalso. unfold ClaimAnalysisCohortSchedule in Ec. rewrite Hs, He, Z.eqb_refl in Ec. done.
  - unfold disableBrokenSchedule. destruct (PutAnalysisCohortSchedule st (disabled s) clock) as [[st1 s1]|] eqn:Ep.
    + apply put_spec in Ep as (-> & Hid & _ & Hnx & _ & Hen). simpl in Hid, Hnx, Hen.
      rewrite (record_spec _ _ s1) by (simpl; by rewrite lookup_insert_eq).
      eexists _, (with_outcome s1 now "" ScheduleOutcomeError (error_text cause)). split; [done|].
      simpl. rewrite insert_insert_eq. split; [|split; [done|done]].
      apply (schedule_wf st); [done|done|done|]. simpl. by rewrite Hnx.
    + exfalso. unfold PutAnalysisCohortSchedule in Ep. simpl in Ep.
      assert (E : (s_CohortID s <=? 0) || (s_NextRunAt s =? zero_time) = false) by lia. by rewrite E in Ep.
Qed.

Lemma fire_all_spec st envs l now clock :
  catalogue_wf st → zero_time ≤ now → (∀ c, stopped (envs c) = false) → NoDup (s_CohortID <$> l) →
  (∀ s, s ∈ l → schedules st !! s_CohortID s = Some s ∧ due now s) →
  let '(st', log) := fire_all load error_text st envs l now clock in
  catalogue_wf st' ∧ fst <$> log = s_CohortID <$> l ∧
  (∀ s, s ∈ l → ∃ s' o, schedules st' !! s_CohortID s = Some s' ∧ (s_CohortID s, o) ∈ log ∧ fired now s s' o) ∧
  (∀ c, c ∉ (s_CohortID <$> l) → schedules st' !! c = schedules st !! c).
Proof.
  intros W Hz Hstop. revert st W. induction l as [|s l IH]; intros st W Hnd Hl; simpl.
  { split; [done|]. split; [done|]. split; [by intros ? ?%elem_of_nil|done]. }
  rewrite Hstop. destruct (Hl s (list_elem_of_here _ _)) as [Hs Hdue].
  pose proof (fire_spec st (envs (s_CohortID s)) s now clock W Hz Hs Hdue) as Hf.
  destruct (fireSchedule load error_text st (envs (s_CohortID s)) s now clock) as [st1 o].
  destruct Hf as (o' & s' & -> & W1 & Es & Hfired). simpl in Hnd. apply NoDup_cons in Hnd as [Hnin Hnd].
  specialize (IH st1 W1 Hnd). destruct (fire_all load error_text st1 envs l now clock) as [st2 log].
  destruct IH as (W2 & Hlog & Hall & Hrest).
  { intros t Ht. destruct (Hl t (list_elem_of_further _ _ _ Ht)) as [Ht1 Ht2]. split; [|done].
    rewrite Es, lookup_insert_ne; [done|]. intros E. apply Hnin. rewrite E. by apply list_elem_of_fmap_2. }
  split; [done|]. split; [by rewrite fmap_cons, Hlog|]. split.
  - intros t [->|Ht]%elem_of_cons.
    + exists s', o'. split; [by rewrite Hrest, Es, lookup_insert_eq|]. split; [apply list_elem_of_here|done].
    + destruct (Hall t Ht) as (t' & ot & H1 & H2 & H3). exists t', ot. split; [done|]. split; [by apply list_elem_of_further|done].
  - intros c [Hc1 Hc2]%not_elem_of_cons. rewrite Hrest, Es, lookup_insert_ne; done.
Qed.

(** C13: a tick fires every schedule that is due exactly once, the oldest first: afterwards
    each has run now, with the outcome recorded, and either waits for the next occurrence of
    its rule, which is later than now however long the server was down, or is disabled when
    its rule has none; the schedules that were not due are as they were, and nothing is due
    any more. *)
Theorem tick_fires_due st envs now clock :
  catalogue_wf st → zero_time ≤ now → (∀ c, stopped (envs c) = false) →
  let '(st', log) := runDueSchedules load error_text st true envs now clock in
  fst <$> log = s_CohortID <$> ListDueAnalysisCohortSchedules st now ∧ NoDup (fst <$> log) ∧
  StronglySorted by_due (ListDueAnalysisCohortSchedules st now) ∧
  (∀ c s, schedules st !! c = Some s → due now s →
     ∃ s' o, schedules st' !! c = Some s' ∧ (c, o) ∈ log ∧ fired now s s' o ∧ ¬ due now s') ∧
  (∀ c s, schedules st !! c = Some s → ¬ due now s → schedules st' !! c = Some s) ∧
  ListDueAnalysisCohortSchedules st' now = [].
Proof.
  intros W Hz Hstop. unfold runDueSchedules.
  pose proof (fire_all_spec st envs (ListDueAnalysisCohortSchedules st now) now clock W Hz Hstop (due_ids_nodup st now W)) as Hf.
  destruct (fire_all load error_text st envs _ now clock) as [st' log].
  destruct Hf as (W' & Hlog & Hall & Hrest).
  { intros s [Hd [id Hs]]%due_elem. by destruct (cw_schedule _ W _ _ Hs) as [-> _]. }
  assert (Hfired : ∀ s s' o, fired now s s' o → ¬ due now s').
  { intros s s' o (_ & _ & Hm) [He Hn]. destruct (Next load (s_Rule s) now) as [u|] eqn:En; [|congruence].
    apply Next_after in En. destruct Hm as [_ Hm]. lia. }
  assert (Hdone : ∀ c s, schedules st !! c = Some s → due now s →
     ∃ s' o, schedules st' !! c = Some s' ∧ (c, o) ∈ log ∧ fired now s s' o ∧ ¬ due now s').
  { intros c s Hs Hd. destruct (Hall s) as (s' & o & H1 & H2 & H3); [apply due_elem; eauto|].
    destruct (cw_schedule _ W _ _ Hs) as [<- _]. exists s', o. eauto 6. }
  assert (Hkept : ∀ c s, schedules st !! c = Some s → ¬ due now s → schedules st' !! c = Some s).
  { intros c s Hs Hd. rewrite Hrest; [done|]. intros (t & -> & [Hdt [id Ht]]%due_elem)%list_elem_of_fmap.
    destruct (cw_schedule _ W _ _ Ht) as [E _]. rewrite E, Ht in Hs. congruence. }
  split; [done|]. split; [rewrite Hlog; by apply due_ids_nodup|].
  split; [apply StronglySorted_merge_sort; [intros a b c; unfold by_due; lia|intros a b; unfold by_due; lia]|].
  split; [done|]. split; [done|].
  apply elem_of_nil_inv. intros s' [Hd [c Hs']]%due_elem.
  destruct (schedules st !! c) as [s|] eqn:Es.
  - destruct (decide (due now s)) as [Hds|Hds].
    + destruct (Hdone c s Es Hds) as (s2 & o & H1 & _ & _ & H2). congruence.
    + rewrite (Hkept c s Es Hds) in Hs'. congruence.
  - rewrite Hrest, Es in Hs'; [done|]. intros (t & -> & [Hdt [id Ht]]%due_elem)%list_elem_of_fmap.
    destruct (cw_schedule _ W _ _ Ht) as [E _]. rewrite E in Es. congruence.
Qed.

(** ** Several servers *)

(** The occurrence of a cohort claimed last since its schedule was last written. *)
Definition latest_event (c : Z) (o : option Z) (ev : event) : option Z :=
  match ev with
  | Fired c' e => if c =? c' then Some e else o
  | Rewritten c' => if c =? c' then None else o
  end.
Definition latest (c : Z) (log : list event) : option Z := foldl (latest_event c) None log.

Definition start st (n : nat) : world K := {| w_store := st; w_servers := replicate n Idle; w_log := [] |}.

Definition on_time (v : server) : Prop :=
  match v with
  | Idle => True
  | Working now todo | Running now _ todo => Forall (λ s, s_NextRunAt s ≤ now) todo
  end.

(** Servers hold schedules whose time has come, what is stored of a schedule lies after its
    last claim, and so does every claim. *)
Record world_good (w : world K) : Prop := {
  wg_servers : Forall on_time (w_servers w);
  wg_store : ∀ c e s, latest c (w_log w) = Some e → schedules (w_store w) !! c = Some s → e < s_NextRunAt s;
  wg_log : ∀ pre c e post, w_log w = pre ++ Fired c e :: post → ∀ e0, latest c pre = Some e0 → e0 < e
}.

Lemma latest_snoc c log ev : latest c (log ++ [ev]) = latest_event c (latest c log) ev.
Proof. apply foldl_snoc. Qed.

Lemma log_snoc log ev :
  (∀ pre c e post, log = pre ++ Fired c e :: post → ∀ e0, latest c pre = Some e0 → e0 < e) →
  (∀ c e e0, ev = Fired c e → latest c log = Some e0 → e0 < e) →
  ∀ pre c e post, log ++ [ev] = pre ++ Fired c e :: post → ∀ e0, latest c pre = Some e0 → e0 < e.
Proof.
  intros Hold Hnew pre c e post E. destruct post as [|x post _] using rev_ind.
  - apply app_inj_tail in E as [-> ->]. intros e0. by apply Hnew.
  - rewrite app_comm_cons, app_assoc in E. apply app_inj_tail in E as [-> _]. by apply (Hold pre c e post).
Qed.

(** A step that adds nothing to the log and moves no schedule. *)
Lemma good_quiet (w : world K) servers st :
  world_good w → Forall on_time servers →
  (∀ c s', schedules st !! c = Some s' → ∃ s, schedules (w_store w) !! c = Some s ∧ s_NextRunAt s' = s_NextRunAt s) →
  world_good {| w_store := st; w_servers := servers; w_log := w_log w |}.
Proof.
  intros [G1 G2 G3] Hs Hst. split; simpl; [done| |done].
  intros c e s' He Hs'. destruct (Hst c s' Hs') as (s & Hs2 & ->). by apply (G2 c).
Qed.

(** A step that writes one schedule and says so. *)
Lemma good_rewritten (w : world K) servers st c0 :
  world_good w → Forall on_time servers →
  (∀ c, c ≠ c0 → schedules st !! c = schedules (w_store w) !! c) →
  world_good {| w_store := st; w_servers := servers; w_log := w_log w ++ [Rewritten c0] |}.
Proof.
  intros [G1 G2 G3] Hs Hst. split; simpl; [done| |].
  - intros c e s. rewrite latest_snoc. simpl. destruct (Z.eqb_spec c c0) as [->|Hne]; [done|].
    rewrite Hst by done. apply G2.
  - by apply log_snoc.
Qed.

Lemma record_next st id ranAt b o e c s' :
  schedules (RecordAnalysisCohortScheduleOutcome st id ranAt b o e) !! c = Some s' →
  ∃ s, schedules st !! c = Some s ∧ s_NextRunAt s' = s_NextRunAt s.
Proof.
  unfold RecordAnalysisCohortScheduleOutcome. destruct (schedules st !! id) as [s|] eqn:Es; [|eauto]. simpl.
  intros [[<- <-]|[Hne Hc]]%lookup_insert_Some; eauto.
Qed.

Lemma disable_other st s now cause clock c :
  c ≠ s_CohortID s → schedules (disableBrokenSchedule error_text st s now cause clock).1 !! c = schedules st !! c.
Proof.
  intros Hc. unfold disableBrokenSchedule.
  destruct (PutAnalysisCohortSchedule st (disabled s) clock) as [[st1 s1]|] eqn:Ep; [|done].
  apply put_spec in Ep as (-> & _). simpl. unfold RecordAnalysisCohortScheduleOutcome.
  destruct (schedules _ !! s_CohortID s); simpl; by rewrite ?lookup_insert_ne.
Qed.

Lemma todo_tail now s todo v : v = Working now (s :: todo) → on_time v → s_NextRunAt s ≤ now ∧ on_time (Working now todo).
Proof. intros ->. simpl. by intros [? ?]%Forall_cons. Qed.

Lemma world_good_step w w' : world_step load error_text w w' → world_good w → world_good w'.
Proof.
  intros Hst G. pose proof (wg_servers _ G) as Hsv.
  assert (Hat : ∀ i v, w_servers w !! i = Some v → on_time v) by (intros i v; by apply Forall_lookup_1).
  assert (Hset : ∀ i v, on_time v → Forall on_time (<[i := v]> (w_servers w))) by (intros; by apply Forall_insert).
  destruct Hst as [w i now Hi|w i now todo Hi|w i now s todo next st Hi Hn Hc|w i now s todo next st Hi Hn Hc|
    w i now s todo cause clock Hi Hn|w i now s todo e Hi|w s clock st s' Hp|w c now st c' Hu|w id|w id].
  - unfold set_server. rewrite app_nil_r. apply good_quiet; [done| |eauto]. apply Hset. simpl.
    apply Forall_forall. intros s [[_ Hd] _]%due_elem. done.
  - unfold set_server. rewrite app_nil_r. apply good_quiet; [done|by apply Hset|eauto].
  - destruct (todo_tail now s todo _ eq_refl (Hat i _ Hi)) as [Hs Ht]. pose proof (Next_after _ _ _ _ Hn) as Hlt.
    apply claim_spec in Hc as (s0 & Hs0 & _ & Hexp & ->). destruct G as [G1 G2 G3]. split; simpl; [by apply Hset| |].
    + intros c e t. rewrite latest_snoc. simpl. destruct (Z.eqb_spec c (s_CohortID s)) as [->|Hne].
      * rewrite lookup_insert_eq. intros [= <-] [= <-]. simpl. lia.
      * rewrite lookup_insert_ne by done. apply G2.
    + apply log_snoc; [done|]. intros c e e0 [= <- <-] He. rewrite <- Hexp. by apply (G2 (s_CohortID s)).
  - destruct (todo_tail now s todo _ eq_refl (Hat i _ Hi)) as [Hs Ht]. apply claim_lost in Hc as ->.
    unfold set_server. rewrite app_nil_r. apply good_quiet; [done|by apply Hset|eauto].
  - destruct (todo_tail now s todo _ eq_refl (Hat i _ Hi)) as [Hs Ht].
    apply good_rewritten; [done|by apply Hset|]. intros c Hc. by apply disable_other.
  - pose proof (Hat i _ Hi) as Ht. unfold set_server. rewrite app_nil_r. apply good_quiet; [done|by apply Hset|].
    intros c s'. destruct (scheduledRun e s _ now) as [[o b] err]. apply record_next.
  - apply put_spec in Hp as (-> & _). apply good_rewritten; [done|done|]. intros c Hc. simpl. by rewrite lookup_insert_ne.
  - apply good_quiet; [done|done|]. unfold UpsertAnalysisCohort in Hu. repeat case_match; simplify_eq; simpl; eauto.
  - apply good_quiet; [done|done|]. simpl. intros c s [_ Hs]%lookup_delete_Some. eauto.
  - apply good_quiet; [done|done|]. simpl. intros c s [_ Hs]%lookup_delete_Some. eauto.
Qed.

(** C14: however many servers tick on one store and however their claims interleave, between
    two writes of a schedule by the administrators no occurrence of it is claimed twice: every
    claim is of a later occurrence than the last claim since the schedule was last written.
    A write may put back an occurrence that was claimed before it. *)
Theorem claims_exclusive st n w :
  rtc (world_step load error_text) (start st n) w →
  ∀ pre c e post, w_log w = pre ++ Fired c e :: post → ∀ e0, latest c pre = Some e0 → e0 < e.
Proof.
  intros Hw. apply wg_log. assert (H0 : world_good (start st n)).
  { split; simpl; [by apply Forall_replicate|done|]. intros pre c e post E. by destruct pre. }
  revert H0. induction Hw as [|w1 w2 w3 Hst _ IH]; [done|]. intros G. by apply IH, (world_good_step w1).
Qed.
End facts.

(** ** The wire form *)

Section wire.
Context `{GoUnicode} (load : string → option zone).

Lemma kind_cases r : validate_kind r = None → Kind r = KindInterval ∨ Kind r = KindWeekly ∨ Kind r = KindMonthly.
Proof. unfold validate_kind. repeat case_decide; auto; done. Qed.

Lemma ParseKind_ok k : k = KindInterval ∨ k = KindWeekly ∨ k = KindMonthly → ParseKind k = Ok k.
Proof. by intros [->|[->| ->]]; vm_compute. Qed.

(** A rule whose zone has no blanks around it and whose start date has a four-digit year. *)
Definition printable_rule (r : Rule) : Prop :=
  rule_typed r ∧ trim_space (Zone r) = Zone r ∧ 0 ≤ Year (AnchorDate r) < 10000.

Lemma kind_fields_roundtrip r :
  validate_kind r = None → printable_rule r →
  parse_kind_fields (Kind r) (scheduleRuleFields r) =
    Ok (if decide (Kind r = KindInterval) then (IntervalDays r, AnchorDate r, 0, 0, false)
        else if decide (Kind r = KindWeekly) then (0, zero_date, Weekdays r, 0, false)
        else (0, zero_date, 0, DaysOfMonth r, LastDay r)).
Proof.
  intros Hv ([Hw Hd] & _ & Hy). pose proof (kind_cases r Hv) as Hk. unfold validate_kind in Hv.
  unfold parse_kind_fields, scheduleRuleFields, Canonical.
  cbn [f_anchor_date f_weekdays f_days_of_month f_interval_days f_last_day AnchorDate Weekdays DaysOfMonth IntervalDays LastDay].
  destruct (decide (Kind r = KindInterval)) as [Ei|Ei].
  - rewrite bool_decide_true by done. destruct (_ || _) in Hv; [done|].
    destruct (date_valid (AnchorDate r)) eqn:Ed; [|done]. by rewrite date_roundtrip.
  - destruct (decide (Kind r = KindWeekly)) as [Ew|Ew].
    + rewrite bool_decide_true by done. destruct (_ || _) eqn:Eb in Hv; [done|]. change (Z.shiftl 1 7) with 128 in Eb.
      by rewrite weekdays_roundtrip by lia.
    + destruct (decide (Kind r = KindMonthly)) as [Em|Em]; [|by destruct Hk as [?|[?|?]]].
      rewrite bool_decide_true by done. destruct (_ || _) eqn:Eb in Hv; [done|].
      apply orb_false_iff in Eb as [Eb _]. apply negb_false_iff, Z.eqb_eq in Eb. by rewrite days_roundtrip by (done || lia).
Qed.

Lemma rule_wire_roundtrip r :
  load "UTC"%string = Some UTC → Validate load r = None → printable_rule r →
  fields_rule load (scheduleRuleFields r) = Ok (Canonical r).
Proof.
  intros Hutc Hv Hp. pose proof (kind_cases r (proj1 (validate_parts _ _ Hv))) as Hk.
  destruct (validate_parts _ _ Hv) as (Hvk & Ht & _). unfold fields_rule.
  change (f_kind (scheduleRuleFields r)) with (Kind r). rewrite ParseKind_ok, kind_fields_roundtrip by done.
  change (f_time_of_day (scheduleRuleFields r)) with (TimeOfDay_String (TimeOfDay_ r)).
  change (f_timezone (scheduleRuleFields r)) with (if decide (Zone r = "")%string then "UTC"%string else Zone r).
  assert (Hz : trim_space (if decide (Zone r = "")%string then "UTC"%string else Zone r) =
    if decide (Zone r = "")%string then "UTC"%string else Zone r) by (case_decide; [by vm_compute|apply Hp]).
  rewrite Hz. set (z := if decide (Zone r = "")%string then "UTC"%string else Zone r).
  assert (Ez : (if decide (z = "")%string then "UTC"%string else z) = z) by (unfold z; by repeat case_decide).
  assert (Hc : ∀ n d w m l,
    (n, d, w, m, l) = (if decide (Kind r = KindInterval) then (IntervalDays r, AnchorDate r, 0, 0, false)
        else if decide (Kind r = KindWeekly) then (0, zero_date, Weekdays r, 0, false)
        else (0, zero_date, 0, DaysOfMonth r, LastDay r)) →
    Canonical {| Kind := Kind r; IntervalDays := n; AnchorDate := d; Weekdays := w; DaysOfMonth := m; LastDay := l;
                 TimeOfDay_ := TimeOfDay_ r; Zone := z |} = Canonical r).
  { intros n d w m l E. unfold Canonical. cbn [Kind IntervalDays AnchorDate Weekdays DaysOfMonth LastDay TimeOfDay_ Zone].
    rewrite Ez. destruct Hk as [Ek|[Ek|Ek]]; rewrite Ek in *; by injection E as -> -> -> -> ->. }
  destruct (if decide (Kind r = KindInterval) then _ else _) as [[[[n d] w] m] l].
  rewrite time_of_day_roundtrip, (Hc n d w m l) by done.
  by rewrite (proj1 (canonical_validate load r Hutc)), Hv.
Qed.

(** a schedule with a valid rule survives the wire: decoding what was encoded gives the
    same schedule, its rule in canonical form. *)
Theorem schedule_json_roundtrip s :
  load "UTC"%string = Some UTC → Validate load (s_Rule s) = None → printable_rule (s_Rule s) →
  UnmarshalJSON load (MarshalJSON s) = Ok (with_rule s (Canonical (s_Rule s))).
Proof.
  intros Hutc Hv Hp. unfold UnmarshalJSON. change (w_fields (MarshalJSON s)) with (scheduleRuleFields (s_Rule s)).
  rewrite rule_wire_roundtrip by done. unfold MarshalJSON, with_rule. cbn [w_LastRunAt w_CohortID w_SourceTag w_Label
    w_Enabled w_ProfileID w_PromoteDefault w_CatchUp w_NextRunAt w_LastBatchID w_LastOutcome w_LastError w_CreatedAt w_UpdatedAt].
  destruct (Z.eqb_spec (s_LastRunAt s) zero_time) as [E|E]; [by rewrite <- E|done].
Qed.
End wire.

(** ** A concrete catalogue *)

Definition sample_schedule (c next : Z) (z : string) : Schedule :=
  {| s_CohortID := c; s_SourceTag := ""; s_Label := ""; s_Enabled := true; s_Rule := nightly z; s_ProfileID := None;
     s_PromoteDefault := false; s_CatchUp := true; s_NextRunAt := next; s_LastRunAt := zero_time;
     s_LastBatchID := ""; s_LastOutcome := ""; s_LastError := ""; s_CreatedAt := 0; s_UpdatedAt := 0 |}.

(** Two cohorts due at the noon of 2026-03-08, one of them in a zone that is not known. *)
Definition sample_now : Z := 1772971200000000000.
Definition sample_catalogue : catalogue unit :=
  {| cohorts := {[1 := {| c_ID := 1; c_SourceType := "tag"; c_SourceTag := "se"; c_Label := "se"; c_AnalysisEnabled := true;
       c_SortOrder := 0; c_MaterializationStatus := "pending"; c_DefaultSnapshotPolicy := "auto_latest"; c_CreatedAt := 0;
       c_UpdatedAt := 0; c_rest := tt |}]};
     cohortCounter := 1;
     schedules := {[1 := sample_schedule 1 1772951400000000000 "America/New_York"; 2 := sample_schedule 2 1772951300000000000 "Mars"]} |}.
Definition sample_env (_ : Z) : env :=
  {| stopped := false; stopping := false; outstanding := λ _, Ok 0; submitBatch := λ tag _ _, Ok ("batch-" +:+ tag) |}.

Lemma sample_wf : catalogue_wf sample_catalogue.
Proof.
  split; simpl.
  - intros id c [<- <-]%lookup_singleton_Some. done.
  - intros id id' c c' [<- _]%lookup_singleton_Some [<- _]%lookup_singleton_Some. done.
  - intros id s [[<- <-]|[_ [<- <-]%lookup_singleton_Some]]%lookup_insert_Some; (split; [done|]; split; [lia|]; by vm_compute).
Qed.

Lemma tick_fires_due_witness :
  let '(st', log) := runDueSchedules sample_load (λ _, ""%string) sample_catalogue true sample_env sample_now 0 in
  log = [(2, "error"%string); (1, "submitted"%string)] ∧ ListDueAnalysisCohortSchedules st' sample_now = [].
Proof.
  pose proof (tick_fires_due sample_load (λ _, ""%string) sample_catalogue sample_env sample_now 0 sample_wf) as Ht.
  assert (Hl : (runDueSchedules sample_load (λ _, ""%string) sample_catalogue true sample_env sample_now 0).2 =
    [(2, "error"%string); (1, "submitted"%string)]) by (vm_compute; reflexivity).
  destruct (runDueSchedules _ _ _ _ _ _ _) as [st' log]. split; [exact Hl|].
  apply Ht; [vm_compute; discriminate|reflexivity].
Defined.

(** Two servers meet the same occurrence; the second finds it claimed. *)
Definition claimed_catalogue : catalogue unit :=
  (ClaimAnalysisCohortSchedule sample_catalogue 1 1772951400000000000 1773037800000000000).1.

Lemma claims_exclusive_witness :
  ∃ w, rtc (world_step sample_load (λ _, ""%string)) (start sample_catalogue 2) w ∧
    w_log w = [Rewritten 2; Fired 1 1772951400000000000] ∧
    ∀ e0, latest 1 [Rewritten 2] = Some e0 → e0 < 1772951400000000000.
Proof.
  set (s1 := sample_schedule 1 1772951400000000000 "America/New_York").
  set (s2 := sample_schedule 2 1772951300000000000 "Mars").
  set (w1 := set_server (start sample_catalogue 2) 0 (Working sample_now [s2; s1]) sample_catalogue []).
  set (w2 := set_server w1 0 (Working sample_now [s1]) (disableBrokenSchedule (λ _, ""%string) sample_catalogue s2 sample_now (ErrZone "Mars") 0).1 [Rewritten 2]).
  set (w3 := set_server w2 0 (Running sample_now s1 []) (ClaimAnalysisCohortSchedule (w_store w2) 1 1772951400000000000 1773037800000000000).1
    [Fired 1 1772951400000000000]).
  assert (Hw : rtc (world_step sample_load (λ _, ""%string)) (start sample_catalogue 2) w3).
  { eapply rtc_l; [|eapply rtc_l; [|eapply rtc_l; [|apply rtc_refl]]].
    - assert (El : ListDueAnalysisCohortSchedules sample_catalogue sample_now = [s2; s1]) by (vm_compute; reflexivity).
      unfold w1. rewrite <- El.
      apply (tick sample_load (λ _, ""%string) (start sample_catalogue 2) 0 sample_now). reflexivity.
    - by apply (fire_broken sample_load (λ _, ""%string) w1 0 sample_now s2 [s1] (ErrZone "Mars") 0).
    - apply (fire_claimed sample_load (λ _, ""%string) w2 0 sample_now s1 [] 1773037800000000000); vm_compute; reflexivity. }
  exists w3. split; [exact Hw|]. split; [reflexivity|].
  exact (claims_exclusive sample_load (λ _, ""%string) sample_catalogue 2 w3 Hw [Rewritten 2] 1 1772951400000000000 [] eq_refl).
Defined.

Lemma schedule_json_roundtrip_witness :
  let s := sample_schedule 1 1772951400000000000 "America/New_York" in
  UnmarshalJSON (H := ascii_unicode) sample_load (MarshalJSON s) = Ok (with_rule s (Canonical (s_Rule s))).
Proof.
  apply (schedule_json_roundtrip (H := ascii_unicode) sample_load (sample_schedule 1 1772951400000000000 "America/New_York"));
    [reflexivity|vm_compute; reflexivity|].
  split; [apply nightly_typed|]. split; [vm_compute; reflexivity|simpl; lia].
Defined.
