(* ===== verification/Progress.v ===== *)
(** * The progress of a job

    [server/progress.go] turns the log of a run into a percentage,
    [server/progress_write.go] decides which percentages are worth a write, and
    [updateJobProgress] in [server/worker.go] writes them. *)

From S2P Require Import Prelude GoStrings Store Plan.

Local Open Scope Z_scope.
Local Open Scope list_scope.

(** ** The tracker *)

Section tracker.
Context `{GoUnicode}.

Definition normalizeTestcase (name : string) : string := to_lower (trim_space name).

(** The keys of the maps that hold true. *)
Record progressTracker := {
  total : Z;
  completed : Z;
  started_ : gset string;
  completedSet : gset string;
  planned : gset string
}.

Definition tracker_of (names : list string) : option progressTracker :=
  let plannedSet := list_to_set (List.filter (λ key, negb (String.eqb key "")) (normalizeTestcase <$> names)) : gset string in
  if decide (plannedSet = ∅) then None
  else Some {| total := Z.of_nat (size plannedSet); completed := 0; started_ := ∅; completedSet := ∅;
               planned := plannedSet |}.

Definition newProgressTracker (req : RunRequest) : option progressTracker :=
  match PlannedTestcases req with Err _ => None | Ok names => tracker_of names end.

(** A log entry as the tracker reads it. *)
Record marker := { mk_Tag : string; mk_Testcase : string }.

(** [update]: the percentage passed on.  The quotient of numbers that are not negative. *)
Definition percent (p : progressTracker) (current : Z) : Z := Z.quot (current * 100) (total p).

Definition onStart (p : progressTracker) (key : string) : progressTracker * option Z :=
  if decide (key ∈ started_ p) then (p, None)
  else
    let p := {| total := total p; completed := completed p; started_ := {[key]} ∪ started_ p;
                completedSet := completedSet p; planned := planned p |} in
    (p, Some (percent p (Z.min (completed p + 1) (total p)))).

Definition complete (p : progressTracker) (key : string) : progressTracker * option Z :=
  let p := {| total := total p; completed := completed p + 1; started_ := {[key]} ∪ started_ p;
              completedSet := {[key]} ∪ completedSet p; planned := planned p |} in
  (p, Some (percent p (Z.min (completed p) (total p)))).

Definition onEnd (p : progressTracker) (key : string) : progressTracker * option Z :=
  if decide (key ∈ completedSet p) then (p, None) else complete p key.

Definition onNonMarker (p : progressTracker) (key : string) : progressTracker * option Z :=
  if decide (key ∈ started_ p ∨ key ∈ completedSet p) then (p, None) else complete p key.

Definition Callback (p : progressTracker) (e : marker) : progressTracker * option Z :=
  if decide (total p = 0) then (p, None)
  else
    let key := normalizeTestcase (mk_Testcase e) in
    if decide (key = ""%string) then (p, None)
    else if decide (key ∉ planned p) then (p, None)
    else if decide (mk_Tag e = "TEST_CASE_START"%string) then onStart p key
    else if decide (mk_Tag e = "TEST_CASE_END"%string) then onEnd p key
    else onNonMarker p key.

(** ** The writes *)

Record progressWriteState := { lastPersisted : Z; lastPersistedAt : Z; maxSeen : Z }.
#[export] Instance progressWriteState_inhabited : Inhabited progressWriteState :=
  populate {| lastPersisted := 0; lastPersistedAt := zero_time; maxSeen := 0 |}.

Definition effectiveMinStep (step : Z) : Z := if step <? 1 then 1 else step.
Definition effectiveMinInterval (interval : Z) : Z := if interval <? 0 then 0 else interval.

Definition initProgressWriteState (pw : gmap string progressWriteState) (jobID : string) (progress now : Z)
  : gmap string progressWriteState :=
  if decide (jobID = ""%string) then pw
  else <[jobID := {| lastPersisted := progress; lastPersistedAt := now; maxSeen := progress |}]> pw.

Definition clearProgressWriteState (pw : gmap string progressWriteState) (jobID : string)
  : gmap string progressWriteState := if decide (jobID = ""%string) then pw else delete jobID pw.

(** Whether a percentage is worth a write: the chain of conditions. *)
Definition shouldPersist (minStep minInterval : Z) (st : progressWriteState) (progress now : Z) : bool :=
  (100 <=? progress) || (minStep <=? progress - lastPersisted st) || (minInterval =? 0) ||
  (negb (lastPersistedAt st =? zero_time) && (minInterval <=? now - lastPersistedAt st)).

Definition prepareProgressPersist (step interval : Z) (pw : gmap string progressWriteState)
    (jobID : string) (progress now : Z) : gmap string progressWriteState * bool :=
  if decide (jobID = ""%string) then (pw, false)
  else
    let st := default inhabitant (pw !! jobID) in
    if progress <=? maxSeen st then (pw, false)
    else
      let ok := shouldPersist (effectiveMinStep step) (effectiveMinInterval interval) st progress now in
      (<[jobID := {| lastPersisted := if ok then progress else lastPersisted st;
                     lastPersistedAt := if ok then now else lastPersistedAt st;
                     maxSeen := progress |}]> pw, ok).

(** The row of the job, if it is still there, with its progress: what is written to it. *)
Definition updateJobProgress (step interval : Z) (pw : gmap string progressWriteState) (row : option Z)
    (jobID : string) (progress now : Z) : gmap string progressWriteState * option Z :=
  let progress := Z.max 0 (Z.min 100 progress) in
  match prepareProgressPersist step interval pw jobID progress now with
  | (pw, false) => (pw, None)
  | (pw, true) => (pw, match row with
                       | Some old => if progress <=? old then None else Some progress
                       | None => None
                       end)
  end.

(** ** A run: entries with the times at which they come *)

Record progress_state := {
  ps_tracker : progressTracker;
  ps_writes : gmap string progressWriteState;
  ps_row : option Z
}.

Definition log_entry (step interval : Z) (jobID : string) (st : progress_state) (e : marker * Z)
  : progress_state * option (Z * Z) :=
  match Callback (ps_tracker st) e.1 with
  | (p, None) => ({| ps_tracker := p; ps_writes := ps_writes st; ps_row := ps_row st |}, None)
  | (p, Some pct) =>
      let '(pw, w) := updateJobProgress step interval (ps_writes st) (ps_row st) jobID pct e.2 in
      ({| ps_tracker := p; ps_writes := pw; ps_row := match w with Some _ => w | None => ps_row st end |},
       (λ x, (x, e.2)) <$> w)
  end.

(** The writes of a run, in order. *)
Fixpoint log_run (step interval : Z) (jobID : string) (st : progress_state) (es : list (marker * Z))
  : progress_state * list (Z * Z) :=
  match es with
  | [] => (st, [])
  | e :: es =>
      let '(st, w) := log_entry step interval jobID st e in
      let '(st, ws) := log_run step interval jobID st es in
      (st, match w with Some w => w :: ws | None => ws end)
  end.

(** [runJob] as it starts the engine. *)
Definition progress_start (p : progressTracker) (jobID : string) (now : Z) : progress_state :=
  {| ps_tracker := p; ps_writes := initProgressWriteState ∅ jobID 0 now; ps_row := Some 0 |}.

(** ** The tracker counts what has ended *)

Record tracker_wf (p : progressTracker) : Prop := {
  tw_total : total p = Z.of_nat (size (planned p));
  tw_some : 0 < total p;
  tw_count : completed p = Z.of_nat (size (completedSet p));
  tw_started : completedSet p ⊆ started_ p;
  tw_planned : started_ p ⊆ planned p;
  tw_named : ""%string ∉ planned p
}.

Lemma tracker_of_wf names p : tracker_of names = Some p → tracker_wf p ∧ started_ p = ∅ ∧ completedSet p = ∅.
Proof.
  unfold tracker_of. case_decide as Hd; [done|]. intros [= <-]. split; [|done]. split; simpl; try done; try set_solver.
  2: { intros Hin%elem_of_list_to_set. apply list_elem_of_In, List.filter_In in Hin as [_ ?]. done. }
  assert (size (list_to_set (List.filter (λ key, negb (String.eqb key "")) (normalizeTestcase <$> names)) : gset string) ≠ 0%nat);
    [|lia]. rewrite size_non_empty_iff. by intros ?%leibniz_equiv.
Qed.

Lemma tracker_completed p : tracker_wf p → 0 <= completed p <= total p.
Proof.
  intros [H1 H2 H3 H4 H5 _]. rewrite H1, H3. assert (completedSet p ⊆ planned p) as H6%subseteq_size by set_solver. lia.
Qed.

Lemma percent_bounds p c : tracker_wf p → 0 <= c <= total p → 0 <= percent p c <= 100 ∧ (percent p c = 100 → c = total p).
Proof.
  intros T Hc. pose proof (tw_some _ T). unfold percent. rewrite Z.quot_div_nonneg by lia.
  split; [split; [apply Z.div_pos; lia|apply Z.div_le_upper_bound; lia]|].
  intros E. assert (100 * total p <= c * 100); [|lia].
  rewrite <- E at 1. rewrite Z.mul_comm. apply Z.mul_div_le. lia.
Qed.

Lemma percent_mono p c d : tracker_wf p → 0 <= c <= d → percent p c <= percent p d.
Proof.
  intros T Hc. pose proof (tw_some _ T). unfold percent. rewrite !Z.quot_div_nonneg by lia. apply Z.div_le_mono; lia.
Qed.

Lemma percent_total p : tracker_wf p → percent p (total p) = 100.
Proof. intros T. pose proof (tw_some _ T). unfold percent. rewrite Z.mul_comm, Z.quot_mul; lia. Qed.

(** What one entry does, in any case. *)
Record called p (p' : progressTracker) (o : option Z) : Prop := {
  ca_wf : tracker_wf p';
  ca_planned : planned p' = planned p;
  ca_total : total p' = total p;
  ca_completed : completed p <= completed p' <= completed p + 1;
  ca_silent : o = None → completed p' = completed p;
  ca_shown : ∀ v, o = Some v → v = percent p (Z.min (completed p + 1) (total p))
}.

Lemma complete_called p key : tracker_wf p → key ∈ planned p → key ∉ completedSet p →
  called p (complete p key).1 (complete p key).2.
Proof.
  intros [H1 H2 H3 H4 H5 H6] Hk Hn. split; simpl; try done; try lia.
  - split; simpl; try done; try set_solver. rewrite size_union by set_solver. rewrite size_singleton. lia.
  - by intros v [= <-].
Qed.

Lemma Callback_called p e : tracker_wf p → called p (Callback p e).1 (Callback p e).2.
Proof.
  intros T. assert (Hsame : called p p None) by (split; try done; lia).
  unfold Callback. pose proof (tw_some _ T). rewrite decide_False by lia.
  set (key := normalizeTestcase (mk_Testcase e)). case_decide; [done|]. case_decide as Hk; [done|].
  assert (Hp : key ∈ planned p) by (destruct (decide (key ∈ planned p)); tauto).
  case_decide; [|case_decide].
  - unfold onStart. case_decide; [done|]. split; simpl; try done; try lia.
    + destruct T. split; simpl; try done; set_solver.
    + by intros v [= <-].
  - unfold onEnd. case_decide; [done|]. by apply complete_called.
  - unfold onNonMarker. case_decide; [done|]. apply complete_called; [done|done|tauto].
Qed.

Definition track (p : progressTracker) (es : list marker) : progressTracker := foldl (λ p e, (Callback p e).1) p es.

Lemma track_wf p es : tracker_wf p → tracker_wf (track p es) ∧ planned (track p es) = planned p.
Proof.
  revert p. induction es as [|e es IH]; intros p T; simpl; [done|].
  pose proof (Callback_called p e T) as C. destruct (IH _ (ca_wf _ _ _ C)) as [? ->]. split; [done|]. apply C.
Qed.

(** The test case of an entry, and whether the entry is one of its two markers. *)
Definition key_of (e : marker) : string := normalizeTestcase (mk_Testcase e).
Definition is_start (e : marker) : Prop := mk_Tag e = "TEST_CASE_START"%string.
Definition is_end (e : marker) : Prop := mk_Tag e = "TEST_CASE_END"%string.

(** A test case has ended when its end was logged, or when its first entry is no marker. *)
Definition has_ended (es : list marker) (key : string) : Prop :=
  (∃ e, e ∈ es ∧ key_of e = key ∧ is_end e) ∨
  ∃ before e after, es = before ++ e :: after ∧ key_of e = key ∧ ¬ is_start e ∧ Forall (λ e, key_of e ≠ key) before.

Lemma Callback_sets p e :
  tracker_wf p →
  (∀ x, x ∈ started_ (Callback p e).1 ↔ x ∈ started_ p ∨ x = key_of e ∧ key_of e ∈ planned p) ∧
  (∀ x, x ∈ completedSet (Callback p e).1 ↔
     x ∈ completedSet p ∨ x = key_of e ∧ key_of e ∈ planned p ∧ (is_end e ∨ ¬ is_start e ∧ key_of e ∉ started_ p)).
Proof.
  intros T. pose proof (tw_some _ T). pose proof (tw_started _ T) as Hcs. pose proof (tw_named _ T).
  unfold Callback, is_end, is_start. fold (key_of e). rewrite decide_False by lia. set (k := key_of e).
  case_decide as Hk; [rewrite Hk; set_solver|]. case_decide as Hp; [set_solver|].
  assert (Hp' : k ∈ planned p) by (destruct (decide (k ∈ planned p)); tauto).
  case_decide as Hs; [|case_decide as He].
  - assert (mk_Tag e ≠ "TEST_CASE_END"%string) by congruence. unfold onStart. case_decide; simpl; set_solver.
  - unfold onEnd, complete. case_decide; simpl; set_solver.
  - unfold onNonMarker, complete. case_decide; simpl; set_solver.
Qed.

Lemma track_completed p es x :
  tracker_wf p →
  x ∈ completedSet (track p es) ↔
  x ∈ completedSet p ∨ x ∈ planned p ∧
    ((∃ e, e ∈ es ∧ key_of e = x ∧ is_end e) ∨
     (x ∉ started_ p) ∧ ∃ before e after, es = before ++ e :: after ∧ key_of e = x ∧ ¬ is_start e ∧
                                        Forall (λ e, key_of e ≠ x) before).
Proof.
  revert p. induction es as [|e es IH]; intros p T; simpl.
  { split; [by left|]. intros [?|[_ [(e & []%elem_of_nil & _)|(_ & [|] & ? & ? & ? & _)]]]; done. }
  pose proof (Callback_called p e T) as C. destruct (Callback_sets p e T) as [Hst Hco].
  rewrite (IH _ (ca_wf _ _ _ C)), Hco, (ca_planned _ _ _ C), Hst.
  destruct (decide (x = key_of e)) as [->|Hne].
  - split.
    + intros [[?|(_ & Hp & [He|[Hs Hn]])]|[Hp [(e' & ? & ?)|[Hn _]]]].
      * by left.
      * right. split; [done|]. left. exists e. split; [by left|done].
      * right. split; [done|]. right. split; [done|]. by exists [], e, es.
      * right. split; [done|]. left. exists e'. split; [by right|done].
      * tauto.
    + intros [?|[Hp [(e' & [->|Hin]%elem_of_cons & Hk & He)|(Hn & before & e' & after & E & Hk & Hs & Hb)]]].
      * left. by left.
      * left. right. split_and!; [done|done|by left].
      * right. split; [done|]. left. by exists e'.
      * left. right. split_and!; [done..|]. right. split; [|done]. destruct before as [|b before]; simplify_eq/=; [done|].
        apply Forall_cons in Hb as [? _]. done.
  - split.
    + intros [[?|[? _]]|[Hp [(e' & ? & ?)|(Hn & before & e' & after & -> & ? & ? & Hb)]]]; [by left|done| |].
      * right. split; [done|]. left. exists e'. split; [by right|done].
      * right. split; [done|]. right. split; [tauto|]. exists (e :: before), e', after. split_and!; try done.
        by constructor.
    + intros [?|[Hp [(e' & [->|Hin]%elem_of_cons & Hk & He)|(Hn & before & e' & after & E & Hk & Hs & Hb)]]].
      * left. by left.
      * congruence.
      * right. split; [done|]. left. by exists e'.
      * right. split; [done|]. right. split; [tauto|]. destruct before as [|b before]; simplify_eq/=.
        apply Forall_cons in Hb as [_ Hb]. by exists before, e', after.
Qed.

(** the tracker counts exactly the planned test cases that have ended.  Whatever the
    entries and their order, with markers repeated, missing or of test cases that are not
    planned, a test case is counted once, when its end is logged, or when its first entry is
    no marker; it never counts more than there are. *)
Theorem tracker_counts names p es :
  tracker_of names = Some p →
  (∀ key, key ∈ completedSet (track p es) ↔ key ∈ planned p ∧ has_ended es key) ∧
  completed (track p es) = Z.of_nat (size (completedSet (track p es))) ∧
  0 <= completed (track p es) <= total (track p es).
Proof.
  intros Hp. destruct (tracker_of_wf _ _ Hp) as (T & Es & Ec). destruct (track_wf p es T) as [T' _].
  split; [|split; [apply T'|by apply tracker_completed]].
  intros key. rewrite (track_completed _ _ _ T), Es, Ec. unfold has_ended. set_solver.
Qed.

(** ** The writes climb *)

(** A write of [b] at [tb] after one of [a] at [ta] is worth it. *)
Definition worth (step interval : Z) (a ta b tb : Z) : Prop :=
  b = 100 ∨ effectiveMinStep step <= b - a ∨ interval <= 0 ∨ interval <= tb - ta.

Fixpoint climbs (step interval : Z) (a ta : Z) (ws : list (Z * Z)) : Prop :=
  match ws with
  | [] => True
  | (b, tb) :: ws => a < b <= 100 ∧ worth step interval a ta b tb ∧ climbs step interval b tb ws
  end.

(** The last write, or what was there before. *)
Definition last_write (r : Z) (ws : list (Z * Z)) : Z := default r (last ws.*1).

Record running_wf (jobID : string) (st : progress_state) (r t : Z) : Prop := {
  rw_tracker : tracker_wf (ps_tracker st);
  rw_row : ps_row st = Some r;
  rw_seen : ∃ m, ps_writes st !! jobID = Some {| lastPersisted := r; lastPersistedAt := t; maxSeen := m |} ∧
    0 <= r <= m ∧ m <= 100 ∧ (m = 100 → r = 100) ∧
    m <= percent (ps_tracker st) (Z.min (completed (ps_tracker st) + 1) (total (ps_tracker st))) ∧
    (completed (ps_tracker st) = total (ps_tracker st) → m = 100)
}.

Lemma should_worth step interval st p now :
  shouldPersist (effectiveMinStep step) (effectiveMinInterval interval) st p now = true → p <= 100 →
  worth step interval (lastPersisted st) (lastPersistedAt st) p now.
Proof.
  unfold shouldPersist, worth, effectiveMinInterval. rewrite !orb_true_iff, andb_true_iff, !Z.leb_le, Z.eqb_eq.
  intros [[[?|?]|?]|[_ ?]] ?; destruct (Z.ltb_spec interval 0); lia.
Qed.

(** One entry: at most one write, and the run goes on. *)
Lemma log_entry_spec step interval jobID st r t e :
  jobID ≠ ""%string → running_wf jobID st r t →
  let '(st', w) := log_entry step interval jobID st e in
  match w with
  | None => running_wf jobID st' r t
  | Some (b, tb) => r < b <= 100 ∧ worth step interval r t b tb ∧ running_wf jobID st' b tb
  end ∧ ps_tracker st' = (Callback (ps_tracker st) e.1).1.
Proof.
  intros Hid [T Er (m & Em & Hr & Hm & H100 & Hp & Hend)]. unfold log_entry.
  pose proof (Callback_called _ e.1 T) as C. destruct (Callback (ps_tracker st) e.1) as [p o]. simpl in *.
  pose proof (ca_completed _ _ _ C) as Hco. pose proof (ca_total _ _ _ C) as Hto. pose proof (ca_wf _ _ _ C) as T'.
  assert (Hpct : ∀ c, percent p c = percent (ps_tracker st) c) by (intros; unfold percent; by rewrite Hto).
  destruct o as [v|]; simpl.
  2: { pose proof (ca_silent _ _ _ C eq_refl) as Hsil. split; [|done]. split; simpl; [done|done|]. exists m.
       by rewrite Hpct, Hsil, Hto. }
  pose proof (ca_shown _ _ _ C v eq_refl) as Hv. pose proof (tracker_completed _ T). pose proof (tracker_completed _ T') as Hc'.
  pose proof (tw_some _ T).
  destruct (percent_bounds (ps_tracker st) (Z.min (completed (ps_tracker st) + 1) (total (ps_tracker st))) T) as [Hb H100v]; [lia|].
  rewrite <- Hv in Hb, H100v, Hp.
  assert (Hvp : v <= percent p (Z.min (completed p + 1) (total p))).
  { rewrite Hv, Hpct, Hto. apply percent_mono; [done|]. lia. }
  assert (Hvend : completed p = total p → v = 100).
  { intros E. rewrite Hv, Z.min_r by lia. by apply percent_total. }
  unfold updateJobProgress, prepareProgressPersist. rewrite decide_False by done. rewrite Em. simpl.
  replace (Z.max 0 (Z.min 100 v)) with v by lia.
  destruct (Z.leb_spec v m) as [Hvm|Hvm].
  { simpl. split; [|done]. split; simpl; [done|done|]. exists m. split; [done|].
    split_and!; lia. }
  set (ok := shouldPersist _ _ _ _ _). assert (Hok : v = 100 → ok = true).
  { intros ->. done. }
  destruct ok eqn:Eok; simpl.
  - rewrite Er. destruct (Z.leb_spec v r); [lia|]. simpl. split; [|done]. split; [lia|]. split.
    + apply (should_worth _ _ {| lastPersisted := r; lastPersistedAt := t; maxSeen := m |}); [exact Eok|lia].
    + split; simpl; [done|done|]. exists v. rewrite lookup_insert_eq. split; [done|]. split_and!; lia.
  - split; [|done]. split; simpl; [done|done|]. exists v. rewrite lookup_insert_eq. split; [done|].
    assert (v ≠ 100) by (intros E; by apply Hok in E). split_and!; try lia.
Qed.

Lemma last_write_cons r w ws : last_write r (w :: ws) = last_write w.1 ws.
Proof. unfold last_write. rewrite fmap_cons, last_cons. by destruct (last ws.*1). Qed.

Lemma log_run_spec step interval jobID es st r t st' ws :
  jobID ≠ ""%string → running_wf jobID st r t → log_run step interval jobID st es = (st', ws) →
  climbs step interval r t ws ∧ (∃ t', running_wf jobID st' (last_write r ws) t') ∧
  ps_tracker st' = track (ps_tracker st) es.*1.
Proof.
  intros Hid. revert st r t st' ws. induction es as [|e es IH]; intros st r t st' ws R E; simpl in E.
  { injection E as <- <-. split; [done|]. split; [by exists t|done]. }
  pose proof (log_entry_spec step interval jobID st r t e Hid R) as He.
  destruct (log_entry step interval jobID st e) as [st1 w]. destruct He as [Hw Ht].
  destruct (log_run step interval jobID st1 es) as [st2 ws2] eqn:E2. injection E as <- <-. simpl. rewrite <- Ht.
  destruct w as [[b tb]|].
  - destruct Hw as (? & ? & R1). destruct (IH _ _ _ _ _ R1 E2) as (? & [t' R2] & ?). split; [done|]. split; [|done].
    exists t'. by rewrite last_write_cons.
  - by eapply IH.
Qed.

(** C34: the progress in the store only climbs, and is written sparingly.  From 0 at the
    start, whatever the entries of the run and their times, each write is of a larger
    percentage, at most 100, and it is the final 100, or a minimal step above the write before
    it, or a minimal interval after it; the row holds the last write, and 100 as soon as every
    planned test case has ended. *)
Theorem progress_climbs step interval jobID names p now es st ws :
  tracker_of names = Some p → jobID ≠ ""%string →
  log_run step interval jobID (progress_start p jobID now) es = (st, ws) →
  climbs step interval 0 now ws ∧ ps_row st = Some (last_write 0 ws) ∧
  ((∀ key, key ∈ planned p → has_ended es.*1 key) → ps_row st = Some 100).
Proof.
  intros Hp Hid E. destruct (tracker_of_wf _ _ Hp) as (T & Es & Ec).
  pose proof (tw_some _ T) as Hs. pose proof (tw_count _ T) as Hc. rewrite Ec, size_empty in Hc. simpl in Hc.
  assert (R : running_wf jobID (progress_start p jobID now) 0 now).
  { split; [done|done|]. exists 0. unfold progress_start, initProgressWriteState; simpl. rewrite decide_False by done.
    rewrite lookup_insert_eq. split; [done|]. split_and!; try lia.
    destruct (percent_bounds p (Z.min (completed p + 1) (total p)) T); lia. }
  destruct (log_run_spec _ _ _ _ _ _ _ _ _ Hid R E) as (Hcl & [t' R'] & Ht). split; [done|]. split; [apply R'|].
  intros Hall. rewrite (rw_row _ _ _ _ R'). destruct (rw_seen _ _ _ _ R') as (m & _ & _ & _ & H100 & _ & Hend).
  rewrite H100; [done|]. apply Hend. simpl in Ht. rewrite Ht.
  destruct (track_wf p es.*1 T) as [T' Epl]. rewrite (tw_total _ T'), (tw_count _ T'), Epl.
  f_equal. f_equal. apply set_eq. intros key. rewrite (track_completed _ _ _ T), Es, Ec.
  split; [set_solver|]. intros Hk. right. split; [done|]. specialize (Hall key Hk). unfold has_ended in Hall. set_solver.
Qed.
End tracker.

Section witness.
#[local] Existing Instance ascii_unicode.

Definition two_tests : list string := ["Basic01"; " zone01 "; "basic01"]%string.
Definition two_tracker : progressTracker := Eval vm_compute in default {| total := 0; completed := 0; started_ := ∅; completedSet := ∅; planned := ∅ |} (tracker_of two_tests).
Lemma two_tracker_of : tracker_of two_tests = Some two_tracker.
Proof. vm_compute. reflexivity. Qed.

Definition two_entries : list (marker * Z) :=
  [({| mk_Tag := "TEST_CASE_START"; mk_Testcase := "BASIC01" |}, 10);
   ({| mk_Tag := "TEST_CASE_END"; mk_Testcase := "Basic01" |}, 20);
   ({| mk_Tag := "SOA_SERIAL"; mk_Testcase := "Zone01" |}, 30);
   ({| mk_Tag := "TEST_CASE_END"; mk_Testcase := "Zone02" |}, 40)]%string.

Lemma tracker_counts_witness :
  completed (track two_tracker two_entries.*1) = 2 ∧
  ("zone01"%string ∈ completedSet (track two_tracker two_entries.*1) ↔
   "zone01"%string ∈ planned two_tracker ∧ has_ended two_entries.*1 "zone01").
Proof.
  split; [vm_compute; reflexivity|].
  exact (proj1 (tracker_counts two_tests two_tracker two_entries.*1 two_tracker_of) "zone01"%string).
Defined.

Lemma progress_climbs_witness :
  (log_run 5 200 "j1" (progress_start two_tracker "j1" 1) two_entries).2 = [(50, 10); (100, 30)] ∧
  climbs 5 200 0 1 [(50, 10); (100, 30)].
Proof.
  assert (E : (log_run 5 200 "j1" (progress_start two_tracker "j1" 1) two_entries).2 = [(50, 10); (100, 30)])
    by (vm_compute; reflexivity).
  split; [exact E|]. rewrite <- E.
  apply (progress_climbs 5 200 "j1" two_tests two_tracker 1 two_entries
           (log_run 5 200 "j1" (progress_start two_tracker "j1" 1) two_entries).1); [exact two_tracker_of|done|].
  by destruct (log_run _ _ _ _ _).
Defined.
End witness.
