(* ===== verification/Lifecycle.v ===== *)
(** * The life of a job between the queue and the store

    The goroutines that move a job: the handlers that submit and cancel it, the workers that
    run it and the reaper, in [server/worker.go], [server/cancel.go], [server/reaper.go],
    [server/handlers.go] and [server/handlers_batches.go].  They meet in the job store, the
    queue and the registry of cancel functions, each behind a lock of its own; between two
    accesses anything can happen.  A goroutine is a [thread] whose constructor says which
    access comes next, and [advance] is that access.

    The store is the interface [JobStore]: the methods a job goes through, with the laws the
    clients rely on in [JobStoreLaws]; [LifecycleFacts.v] shows that the store of [Store.v]
    has them.  A store with a database can also fail: that is [e_fault].

    A worker that waits for a job is [Idle]: that its wait ends is the matter of
    [JobQueue.v].  What deletes runs (purges, the deletion of a batch) is no step here, and
    the writes of progress that [Progress.v] leaves out are writes that do not happen. *)

From S2P Require Import Prelude GoStrings Store JobQueue.

Local Open Scope Z_scope.
Local Open Scope list_scope.

(** ** The job store as its clients see it *)

Class JobStore (S X N C : Type) := {
  job_rows : S → gmap string (Job N C);
  (* the runs, as the jobs that [Get] answers for them *)
  run_rows : S → gmap string (Job N C);
  store_create : S → Job N C → string → result (S * Job N C) string;
  store_update : S → Job N C → result S string;
  store_graduate : S → Job N C → list (LogEntry X) → Z → S * graduation
}.

Definition store_get {S X N C} `{!JobStore S X N C} (s : S) (id : string) : option (Job N C) :=
  match job_rows s !! id with Some job => Some job | None => run_rows s !! id end.

Class JobStoreLaws (S X N C : Type) `{!JobStore S X N C} := {
  (* what a store keeps for itself *)
  store_ok : S → Prop;
  create_law s job generated s' job' : store_create s job generated = Ok (s', job') →
    (store_ok s → store_ok s') ∧ job_rows s !! j_ID job = None ∧ j_ID job' = j_ID job ∧ j_Status job' = j_Status job ∧
    job_rows s' = <[j_ID job := job']> (job_rows s) ∧ run_rows s' = run_rows s;
  update_law s job :
    match job_rows s !! j_ID job with
    | Some _ => ∃ s', store_update s job = Ok s' ∧ (store_ok s → store_ok s') ∧
                      job_rows s' = <[j_ID job := job]> (job_rows s) ∧ run_rows s' = run_rows s
    | None => ∃ e, store_update s job = Err e
    end;
  graduate_law s job es now s' g : store_graduate s job es now = (s', g) →
    (store_ok s → store_ok s') ∧
    match g with
    | Graduated => is_Some (job_rows s !! j_ID job) ∧ job_rows s' = delete (j_ID job) (job_rows s) ∧
                   ∃ run, run_rows s' = <[j_ID job := run]> (run_rows s) ∧ j_ID run = j_ID job ∧ j_Status run = j_Status job
    | NotFound => job_rows s !! j_ID job = None ∧ job_rows s' = job_rows s ∧ run_rows s' = run_rows s
    | GradPanic => (store_ok s → j_Status job = JobSucceeded) ∧ job_rows s' = job_rows s ∧ run_rows s' = run_rows s
    end
}.

Section lifecycle.
Context {S X N C : Type} `{!JobStore S X N C}.
Implicit Types (job : Job N C) (id : string).

(** ** What is written to a job *)

Definition job_with job (st : JobStatus) (started finished progress : Z) (c : copied N) (chain : string) : Job N C :=
  {| j_ID := j_ID job; j_PublicID := j_PublicID job; j_BatchID := j_BatchID job; j_DomainID := j_DomainID job;
     j_Domain := j_Domain job; j_Status := st; j_FinishedAt := finished;
     j_SeverityTotals := j_SeverityTotals job; j_CreatedAt := j_CreatedAt job; j_StartedAt := started;
     j_Progress := progress; j_ProfileID := j_ProfileID job; j_copied := c; j_Score := j_Score job;
     j_Grade := j_Grade job; j_config := j_config job; j_DNSSECChainJSON := chain |}.

Definition with_error (c : copied N) (e : string) : copied N :=
  {| c_Priority := c_Priority c; c_Profile := c_Profile c; c_ProfileName := c_ProfileName c;
     c_EffectiveProfile := c_EffectiveProfile c; c_NameserverTimings := c_NameserverTimings c; c_Error := e;
     c_ClientIP := c_ClientIP c; c_ClientUserAgent := c_ClientUserAgent c; c_ClientVia := c_ClientVia c |}.

(** [runJob]: the job as it starts. *)
Definition started job (now : Z) : Job N C :=
  job_with job JobRunning now (j_FinishedAt job) 0 (j_copied job) (j_DNSSECChainJSON job).

(** [updateJobProgress] *)
Definition with_progress job (p : Z) : Job N C :=
  job_with job (j_Status job) (j_StartedAt job) (j_FinishedAt job) p (j_copied job) (j_DNSSECChainJSON job).

(** [failUngraduatedJob] *)
Definition failed job (reason : string) (now : Z) : Job N C :=
  job_with job JobFailed (j_StartedAt job) (if decide (j_FinishedAt job = zero_time) then now else j_FinishedAt job)
    (j_Progress job) (with_error (j_copied job) reason) (j_DNSSECChainJSON job).

(** [handleCancelJob], [handleQueueRemove], [cancelBatchJobs] *)
Definition canceled job (why : string) (now : Z) : Job N C :=
  job_with job JobCanceled (j_StartedAt job) now 100 (with_error (j_copied job) why) (j_DNSSECChainJSON job).

(** [reapStuckJobs] *)
Definition abandoned job (timeout : string) (now : Z) : Job N C :=
  job_with job JobFailed (j_StartedAt job) now (j_Progress job)
    (with_error (j_copied job) ("abandoned at running for over " +:+ timeout)) (j_DNSSECChainJSON job).

(** The state of a job's context; the first of cancellation and deadline is its cause. *)
Inductive job_ctx := Live | CtxCanceled | CtxTimedOut.
#[global] Instance job_ctx_eq_dec : EqDecision job_ctx.
Proof. solve_decision. Defined.

Definition cancel_ctx (c : job_ctx) : job_ctx := match c with Live => CtxCanceled | _ => c end.
Definition expire_ctx (c : job_ctx) : job_ctx := match c with Live => CtxTimedOut | _ => c end.

(** What a run of the engine leaves: its error, the log, and what is stored with the job. *)
Record artifacts := {
  a_err : option string;
  a_entries : list (LogEntry X);
  a_effectiveProfile : string;
  a_nsTimings : list N;
  a_dnssecChainJSON : string
}.

(** The status and error of a job whose engine has returned. *)
Definition outcome (c : job_ctx) (runErr : option string) : JobStatus * option string :=
  match c, runErr with
  | CtxTimedOut, _ => (JobFailed, Some "timed out"%string)
  | CtxCanceled, _ => (JobCanceled, Some "canceled"%string)
  | Live, Some e => (JobFailed, Some e)
  | Live, None => (JobSucceeded, None)
  end.

Definition ended job (c : job_ctx) (a : artifacts) (now : Z) : Job N C :=
  let '(st, err) := outcome c (a_err a) in
  let cp := j_copied job in
  job_with job st (j_StartedAt job) now 100
    {| c_Priority := c_Priority cp; c_Profile := c_Profile cp; c_ProfileName := c_ProfileName cp;
       c_EffectiveProfile := a_effectiveProfile a; c_NameserverTimings := a_nsTimings a;
       c_Error := default (c_Error cp) err; c_ClientIP := c_ClientIP cp;
       c_ClientUserAgent := c_ClientUserAgent cp; c_ClientVia := c_ClientVia cp |} (a_dnssecChainJSON a).

(** ** The goroutines *)

Inductive thread :=
(* a worker: [workerLoop], [runJob] *)
| Idle                                          (* [Dequeue] *)
| Dequeued id                                   (* [store.Get] *)
| Loaded job                                    (* [registerCancel] *)
| Registered job (c : job_ctx)                  (* the update to running *)
| Requeue job                                   (* [Enqueue] after a failed update *)
| Engine job (c : job_ctx)                      (* the engine runs *)
| Progress job (c : job_ctx) (row : Job N C)    (* [updateJobProgress] between [Get] and [Update] *)
| Ended job (es : list (LogEntry X))            (* [GraduateJob] *)
| Failing job                                   (* [failUngraduatedJob] after a failed graduation *)
| Leaving id                                    (* [unregisterCancel] *)
| Panicked job                                  (* the same, on the way to the recovery *)
| Recovering job                                (* [failUngraduatedJob] after a panic *)
(* requests *)
| Submitting job                                (* [Enqueue] after [Create] *)
| Canceling job (why : string)                  (* [queue.Remove] *)
| Graduating job                                (* [GraduateJob] by a handler or the reaper *)
| Interrupting job (delete_batch : bool)        (* [cancelJob] of a job read as running *)
| Unqueued id                                   (* [store.Get] of [handleQueueRemove] *)
| Reaping job.                                  (* [isJobLive] of [reapStuckJobs] *)

Record world := {
  w_store : S;
  w_queue : InMemoryQueue;
  (* [Server.cancels]: the goroutine whose context the function cancels *)
  w_cancels : gmap string nat;
  w_threads : gmap nat thread
}.

(** [cancel.go].  [registerCancel] is never called with a nil function. *)
Definition registerCancel (cs : gmap string nat) id (t : nat) : gmap string nat :=
  if decide (id = ""%string) then cs else <[id := t]> cs.
Definition unregisterCancel (cs : gmap string nat) id : gmap string nat :=
  if decide (id = ""%string) then cs else delete id cs.
Definition cancelJob (cs : gmap string nat) id : option nat :=
  if decide (id = ""%string) then None else cs !! id.
Definition isJobLive (cs : gmap string nat) id : bool := bool_decide (is_Some (cs !! id)).

(** One goroutine goes on, or ends. *)
Definition put (w : world) (s : S) (q : InMemoryQueue) (cs : gmap string nat) (t : nat) (th : option thread) : world :=
  {| w_store := s; w_queue := q; w_cancels := cs; w_threads := partial_alter (λ _, th) t (w_threads w) |}.
Definition goto (w : world) (t : nat) (th : thread) : world :=
  put w (w_store w) (w_queue w) (w_cancels w) t (Some th).
Definition exit (w : world) (t : nat) : world := put w (w_store w) (w_queue w) (w_cancels w) t None.

(** What an access finds that the program does not decide: the time, whether the database
    fails, what the engine leaves, and a text (of an error, or a duration). *)
Record env := { e_now : Z; e_fault : bool; e_art : artifacts; e_reason : string }.

(** [Update], which may fail on a database. *)
Definition try_update (w : world) (e : env) job : option S :=
  if e_fault e then None else match store_update (w_store w) job with Ok s => Some s | Err _ => None end.

(** [Get] of [runJob]: what the worker does with the answer. *)
Definition load (job : option (Job N C)) : thread :=
  match job with
  | None => Idle
  | Some job => if decide (j_Status job = JobCanceled ∨ j_Status job = JobPaused) then Idle else Loaded job
  end.

Definition ctx_of (th : thread) : option job_ctx :=
  match th with Registered _ c | Engine _ c | Progress _ c _ => Some c | _ => None end.
Definition set_ctx (f : job_ctx → job_ctx) (th : thread) : thread :=
  match th with
  | Registered job c => Registered job (f c)
  | Engine job c => Engine job (f c)
  | Progress job c row => Progress job (f c) row
  | th => th
  end.

Definition signal (w : world) (f : job_ctx → job_ctx) (t : nat) : world :=
  {| w_store := w_store w; w_queue := w_queue w; w_cancels := w_cancels w;
     w_threads := alter (set_ctx f) t (w_threads w) |}.

(** [failUngraduatedJob], and on to [th]; a failed update is only logged. *)
Definition park (w : world) (t : nat) (e : env) job (th : thread) : world :=
  put w (default (w_store w) (try_update w e (failed job (e_reason e) (e_now e)))) (w_queue w) (w_cancels w) t (Some th).

(** The next access of goroutine [t]; [None] when it has none: it does not exist, or waits
    for a job. *)
Definition advance (w : world) (t : nat) (e : env) : option world :=
  let s := w_store w in let q := w_queue w in let cs := w_cancels w in
  th ← w_threads w !! t;
  match th with
  | Idle => match dequeue_lock q with
            | (q', DqJob id) => Some (put w s q' cs t (Some (Dequeued id)))
            | _ => None
            end
  | Dequeued id => Some (goto w t (load (store_get s id)))
  | Loaded job => Some (put w s q (registerCancel cs (j_ID job) t) t (Some (Registered job Live)))
  | Registered job c =>
      let job := started job (e_now e) in
      Some (match try_update w e job with
            | Some s' => put w s' q cs t (Some (Engine job c))
            | None => goto w t (Requeue job)
            end)
  | Requeue job => Some (put w s (Enqueue q (j_ID job) (c_Priority (j_copied job))).1 cs t (Some (Leaving (j_ID job))))
  | Engine job c => Some (goto w t (Ended (ended job c (e_art e) (e_now e)) (a_entries (e_art e))))
  | Progress job c row => Some (put w (default s (try_update w e row)) q cs t (Some (Engine job c)))
  | Ended job es =>
      if e_fault e then Some (goto w t (Failing job))
      else let '(s', g) := store_graduate s job es (e_now e) in
           Some (put w s' q cs t (Some (match g with
             | Graduated => Leaving (j_ID job) | NotFound => Failing job | GradPanic => Panicked job end)))
  | Failing job => Some (park w t e job (Leaving (j_ID job)))
  | Leaving id => Some (put w s q (unregisterCancel cs id) t (Some Idle))
  | Panicked job => Some (put w s q (unregisterCancel cs (j_ID job)) t (Some (Recovering job)))
  | Recovering job => Some (park w t e job Idle)
  | Submitting job => Some (put w s (Enqueue q (j_ID job) (c_Priority (j_copied job))).1 cs t None)
  | Canceling job why => Some (put w s (Remove q (j_ID job)).1 cs t (Some (Graduating (canceled job why (e_now e)))))
  | Graduating job =>
      Some (if e_fault e then exit w t
            else put w (store_graduate s job [] (e_now e)).1 q cs t None)
  | Interrupting job delete_batch =>
      Some (match cancelJob cs (j_ID job) with
            | Some t' => signal (exit w t) cancel_ctx t'
            | None => if delete_batch then goto w t (Graduating (canceled job "deleted_by_admin" (e_now e)))
                      else exit w t
            end)
  | Unqueued id => Some (match store_get s id with
                         | Some job => if decide (j_Status job = JobQueued)
                                       then goto w t (Graduating (canceled job "removed_from_queue" (e_now e)))
                                       else exit w t
                         | None => exit w t
                         end)
  | Reaping job => Some (if isJobLive cs (j_ID job) then exit w t
                         else goto w t (Graduating (abandoned job (e_reason e) (e_now e))))
  end.

(** ** What starts from outside *)

Inductive request :=
| Submit job (generated : string)  (* [handleCreateJob], one job of [submitBatch] *)
| Cancel id                        (* [handleCancelJob] *)
| CancelForDelete id               (* one job of [cancelBatchJobs] *)
| QueueRemove id                   (* one job of [handleQueueRemove] *)
| Reap id (cutoff : Z)             (* one candidate of [reapStuckJobs] *)
| AddWorker.                       (* [startWorker] *)

(** Each is served by a new goroutine [t], up to its second access. *)

Definition createJob (w : world) (t : nat) job (generated : string) : option world :=
  match store_create (w_store w) job generated with
  | Ok (s, job) => Some (put w s (w_queue w) (w_cancels w) t (Some (Submitting job)))
  | Err _ => None
  end.

Definition handleCancelJob (w : world) (t : nat) id : option world :=
  job ← store_get (w_store w) id;
  match j_Status job with
  | JobQueued => Some (goto w t (Canceling job "canceled"))
  | JobRunning => Some (goto w t (Interrupting job false))
  | _ => None
  end.

Definition cancelBatchJob (w : world) (t : nat) id : option world :=
  job ← job_rows (w_store w) !! id;
  match j_Status job with
  | JobQueued | JobPaused => Some (goto w t (Canceling job "deleted_by_admin"))
  | JobRunning => Some (goto w t (Interrupting job true))
  | _ => None
  end.

Definition handleQueueRemove (w : world) (t : nat) id : option world :=
  match Remove (w_queue w) id with
  | (q, None) => Some (put w (w_store w) q (w_cancels w) t (Some (Unqueued id)))
  | _ => None
  end.

Definition reapStuckJob (w : world) (t : nat) id (cutoff : Z) : option world :=
  job ← job_rows (w_store w) !! id;
  if decide (j_Status job = JobRunning ∧ j_StartedAt job ≠ zero_time ∧ (j_StartedAt job <= cutoff))
  then Some (goto w t (Reaping job)) else None.

Definition startWorker (w : world) (t : nat) : world := goto w t Idle.

Definition arrive (w : world) (t : nat) (r : request) : option world :=
  match r with
  | Submit job generated => createJob w t job generated
  | Cancel id => handleCancelJob w t id
  | CancelForDelete id => cancelBatchJob w t id
  | QueueRemove id => handleQueueRemove w t id
  | Reap id cutoff => reapStuckJob w t id cutoff
  | AddWorker => Some (startWorker w t)
  end.

(** The engine of [t] reports a progress: [updateJobProgress] up to its update. *)
Definition report (w : world) (t : nat) (progress : Z) : option world :=
  match w_threads w !! t with
  | Some (Engine job c) =>
      let p := Z.max 0 (Z.min 100 progress) in
      match store_get (w_store w) (j_ID job) with
      | Some row => if decide (p <= j_Progress row) then None else Some (goto w t (Progress job c (with_progress row p)))
      | None => None
      end
  | _ => None
  end.

(** The deadline of the job of [t] passes. *)
Definition expire (w : world) (t : nat) : world := signal w expire_ctx t.

(** An idle worker of a shrunk pool ends. *)
Definition retire (w : world) (t : nat) : option world :=
  match w_threads w !! t with Some Idle => Some (exit w t) | _ => None end.

Definition set_queue (w : world) (q : InMemoryQueue) : world :=
  {| w_store := w_store w; w_queue := q; w_cancels := w_cancels w; w_threads := w_threads w |}.

(** ** The server as a transition system *)

(** The jobs a goroutine has in hand. *)
Definition job_of (th : thread) : option string :=
  match th with
  | Idle => None
  | Dequeued id | Leaving id | Unqueued id => Some id
  | Loaded job | Registered job _ | Requeue job | Engine job _ | Progress job _ _ | Ended job _ | Failing job
  | Panicked job | Recovering job | Submitting job | Canceling job _ | Graduating job | Interrupting job _
  | Reaping job => Some (j_ID job)
  end.

(** An identifier that nothing refers to: what [newID] returns. *)
Definition unused (w : world) (id : string) : Prop :=
  id ≠ ""%string ∧ job_rows (w_store w) !! id = None ∧ run_rows (w_store w) !! id = None ∧ (id ∉ pending (w_queue w)) ∧
  w_cancels w !! id = None ∧ ∀ t th, w_threads w !! t = Some th → job_of th ≠ Some id.

(** The steps of the goroutines that exist, without their engines' reports. *)
Inductive work (fault : bool) : world → world → Prop :=
| work_advance w t e w' : (e_fault e = true → fault = true) → advance w t e = Some w' → work fault w w'.

(** What goes wrong is allowed by [fault]: an access to the store fails, or an administrator
    orders the queue by a list that repeats an identifier, which the queue accepts
    ([JobQueue.reorder_drops_job]). *)
Inductive step (fault : bool) : world → world → Prop :=
| step_work w w' : work fault w w' → step fault w w'
| step_arrive w t r w' :
    w_threads w !! t = None →
    (∀ job g, r = Submit job g → unused w (j_ID job) ∧ j_Status job = JobQueued) →
    arrive w t r = Some w' → step fault w w'
| step_report w t p w' : report w t p = Some w' → step fault w w'
| step_expire w t : step fault w (expire w t)
| step_retire w t w' : retire w t = Some w' → step fault w w'
| step_pause w : step fault w (set_queue w (Pause (w_queue w)).1)
| step_resume w : step fault w (set_queue w (Resume (w_queue w)).1)
| step_reorder w ids :
    (¬ NoDup ids → fault = true) → step fault w (set_queue w (Reorder (w_queue w) ids).1).

(** The same, executable: a history is a list of events. *)
Inductive event :=
| Advance (t : nat) (e : env) | Arrive (t : nat) (r : request) | Report (t : nat) (progress : Z)
| Expire (t : nat) | Retire (t : nat) | PauseQueue | ResumeQueue | ReorderQueue (ids : list string).

Definition is_unused (w : world) (id : string) : bool :=
  bool_decide (id ≠ ""%string) && bool_decide (job_rows (w_store w) !! id = None) &&
  bool_decide (run_rows (w_store w) !! id = None) && bool_decide (id ∉ pending (w_queue w)) &&
  bool_decide (w_cancels w !! id = None) &&
  forallb (λ tth, bool_decide (job_of tth.2 ≠ Some id)) (map_to_list (w_threads w)).

Definition happen (fault : bool) (w : world) (ev : event) : option world :=
  match ev with
  | Advance t e => if e_fault e && negb fault then None else advance w t e
  | Arrive t r =>
      match w_threads w !! t, r with
      | Some _, _ => None
      | None, Submit job _ => if is_unused w (j_ID job) && bool_decide (j_Status job = JobQueued)
                              then arrive w t r else None
      | None, _ => arrive w t r
      end
  | Report t p => report w t p
  | Expire t => Some (expire w t)
  | Retire t => retire w t
  | PauseQueue => Some (set_queue w (Pause (w_queue w)).1)
  | ResumeQueue => Some (set_queue w (Resume (w_queue w)).1)
  | ReorderQueue ids =>
      if bool_decide (NoDup ids) || fault then Some (set_queue w (Reorder (w_queue w) ids).1) else None
  end.

Fixpoint history (fault : bool) (w : world) (evs : list event) : option world :=
  match evs with
  | [] => Some w
  | ev :: evs => match happen fault w ev with Some w => history fault w evs | None => None end
  end.

(** After [RecoverJobs]: the jobs found queued in the store are in the queue again. *)
Definition enqueue_all (q : InMemoryQueue) (rows : list (string * Z)) : InMemoryQueue :=
  foldl (λ q row, (Enqueue q row.1 row.2).1) q rows.

Definition start (s : S) (rows : list (string * Z)) (workers : nat) : world :=
  {| w_store := s; w_queue := enqueue_all NewInMemoryQueue rows; w_cancels := ∅;
     w_threads := list_to_map ((λ t, (t, Idle)) <$> seq 0 workers) |}.
End lifecycle.
Arguments thread : clear implicits.
Arguments artifacts : clear implicits.
Arguments env : clear implicits.
Arguments request : clear implicits.
Arguments world : clear implicits.
Arguments event : clear implicits.
