(* ===== verification/LifecycleInvariant.v ===== *)
(** * The invariant of jobs on their way through the server

    The store in memory as a [JobStore], the invariant [good] of the server of [Lifecycle.v],
    and that its steps keep it.  The invariant is a conjunction over jobs: a step touches one
    job ([touches]), the others do not see it ([good_frame]), and for that one job a step is
    a [handover] from one place in the code to the next. *)

From S2P Require Import Prelude GoStrings Scoring Store JobQueue Lifecycle.
From Stdlib Require Import SpecFloat.

Local Open Scope list_scope.

(** ** The store in memory is a job store *)

Section instance.
Context `{GoUnicode} {X N C : Type} (jc_zero : C).
Context (oob : spec_float → Z) (weights : list (string * spec_float)).

Definition memory_store : JobStore (store X N C) X N C := {|
  job_rows := λ s, jobs (jt s);
  run_rows := λ s, jobFromRun jc_zero <$> runs (rt s);
  store_create := Create;
  store_update := Update;
  store_graduate := GraduateJob oob weights
|}.

Lemma memory_get (s : store X N C) id :
  @store_get _ _ _ _ memory_store s id = Get jc_zero s id.
Proof. unfold store_get, Get; simpl. by rewrite lookup_fmap. Qed.

(** A name that has a number has a domain. *)
Definition domains_ok (s : store X N C) : Prop :=
  ∀ n i, domains (dt s) !! n = Some i → is_Some (domainsByID (dt s) !! i).

Lemma domain_ok s name now :
  domains_ok s → let '(s', i) := getOrCreateDomainLocked s name now in
                 domains_ok s' ∧ is_Some (domainsByID (dt s') !! i).
Proof.
  intros D. unfold getOrCreateDomainLocked. destruct (domains (dt s) !! name) as [i|] eqn:E; [by eauto|].
  split; simpl; [|rewrite lookup_insert_eq; by eauto].
  intros n i; simpl; intros [[<- <-]|[Hn Hi]]%lookup_insert_Some; apply lookup_insert_is_Some'; eauto.
Qed.

Lemma domain_tables (s : store X N C) name now :
  let '(s', i) := getOrCreateDomainLocked s name now in jt s' = jt s ∧ rt s' = rt s.
Proof. unfold getOrCreateDomainLocked. by destruct (domains (dt s) !! name). Qed.

#[export] Program Instance memory_laws : @JobStoreLaws _ _ _ _ memory_store := {| store_ok := domains_ok |}.
Next Obligation.
  intros s job g s' job' E. simpl in *. unfold Create in E.
  destruct (jobs (jt s) !! j_ID job) eqn:Ej; [done|]. injection E as <- <-.
  split; [done|]. repeat split; try done; simpl; by case_decide.
Qed.
Next Obligation.
  intros s job. simpl. unfold Update. destruct (jobs (jt s) !! j_ID job); [|by eauto]. by eexists.
Qed.
Next Obligation.
  intros s job es now s' g E. simpl in *. unfold GraduateJob in E.
  destruct (jobs (jt s) !! j_ID job) eqn:Ej; [|by injection E as <- <-].
  pose proof (domain_ok s (j_Domain job) now) as Hok. pose proof (domain_tables s (j_Domain job) now) as Ht.
  destruct (getOrCreateDomainLocked s (j_Domain job) now) as [s1 i]. destruct Ht as [Hj Hr].
  destruct (score_of _ _ _ _ _ _) as [score|] eqn:Es;
    [destruct (domainsByID (dt s1) !! i) as [d|] eqn:Ed|]; injection E as <- <-.
  - split; [|rewrite Hj, Hr; simpl; split; [by eauto|]; split; [done|]].
    + intros [D _]%Hok n k Hk. simpl in *. apply lookup_insert_is_Some'. right. by apply (D n).
    + eexists. by rewrite fmap_insert.
  - split; [by intros [? _]%Hok|]. rewrite Hj, Hr. split; [|done].
    intros [_ [? ?]]%Hok. congruence.
  - split; [by intros [? _]%Hok|]. rewrite Hj, Hr. split; [|done].
    intros _. unfold score_of in Es. by case_decide.
Qed.
End instance.

(** ** The invariant *)

Section roles.
Context {X N C : Type}.
Implicit Types th : thread X N C.

(** The goroutine holds the ticket of its job: the job is in no queue, and in no other hand. *)
Definition carrier th : bool :=
  match th with
  | Submitting _ | Dequeued _ | Loaded _ | Registered _ _ | Requeue _ | Engine _ _ | Progress _ _ _ | Ended _ _
  | Failing _ | Panicked _ | Recovering _ => true
  | _ => false
  end.
(** Its function is in the registry. *)
Definition registered th : bool :=
  match th with
  | Registered _ _ | Requeue _ | Engine _ _ | Progress _ _ _ | Ended _ _ | Failing _ | Panicked _ | Leaving _ => true
  | _ => false
  end.
(** It has read its job and means to run it, or is past that. *)
Definition held th : bool :=
  match th with Submitting _ | Dequeued _ => false | _ => carrier th end.
(** It runs the engine. *)
Definition engaged th : bool := match th with Engine _ _ | Progress _ _ _ => true | _ => false end.
(** It accounts for a job that is queued in the store, or for one that is running. *)
Definition waits th : bool :=
  match th with
  | Submitting _ | Dequeued _ | Loaded _ | Registered _ _ | Unqueued _ | Graduating _ => true
  | _ => false
  end.
Definition runs_job th : bool :=
  match th with Engine _ _ | Progress _ _ _ | Ended _ _ | Panicked _ | Recovering _ => true | _ => false end.
End roles.

Section invariant.
Context {S X N C : Type} {JS : JobStore S X N C} {JL : @JobStoreLaws S X N C JS}.
Implicit Types (w : world S X N C) (th : thread X N C) (job : Job N C) (id : string) (t : nat).

Definition row_status w id : option JobStatus := j_Status <$> job_rows (w_store w) !! id.
Definition run_status w id : option JobStatus := j_Status <$> run_rows (w_store w) !! id.

Definition queued w id : Prop := row_status w id = Some JobQueued.
Definition running w id : Prop := row_status w id = Some JobRunning.
Definition gone w id : Prop := row_status w id = None.
Definition dead w id : Prop := gone w id ∧ run_status w id = Some JobCanceled.

(** Goroutine [t] is at [th], with the job [id]. *)
Definition at_ w t th id : Prop := w_threads w !! t = Some th ∧ job_of th = Some id.

Definition thread_ok w id th : Prop :=
  match th with
  | Submitting _ | Dequeued _ | Loaded _ | Registered _ _ => queued w id ∨ dead w id
  | Requeue _ => dead w id
  | Engine _ _ | Panicked _ | Recovering _ => running w id ∨ gone w id
  | Ended job _ => isTerminalStatus (j_Status job) = true ∧ (running w id ∨ gone w id)
  | Progress _ _ row => j_ID row = id ∧ (running w id ∧ j_Status row = JobRunning ∨ gone w id)
  | Failing _ | Leaving _ => gone w id
  | Interrupting _ _ | Reaping _ => ¬ queued w id
  | Graduating job =>
      j_Status job = JobCanceled ∨
      j_Status job = JobFailed ∧ ¬ queued w id ∧ ∀ t' th', at_ w t' th' id → engaged th' = false
  | Idle | Canceling _ _ | Unqueued _ => True
  end.

(** What holds of one job. *)
Record good_id w id : Prop := {
  gi_named : ∀ t th, at_ w t th id → id ≠ ""%string;
  gi_once : run_status w id = None ∨ gone w id;
  gi_ticket : id ∈ pending (w_queue w) → queued w id ∨ dead w id;
  gi_pending : id ∈ pending (w_queue w) → ∀ t th, at_ w t th id → carrier th = false;
  gi_carrier : ∀ t th t' th', at_ w t th id → at_ w t' th' id → carrier th = true → carrier th' = true → t = t';
  gi_thread : ∀ t th, at_ w t th id → thread_ok w id th;
  gi_registry : ∀ t, w_cancels w !! id = Some t ↔ ∃ th, at_ w t th id ∧ registered th = true;
  gi_leaving : ∀ t t' th, at_ w t (Leaving id) id → at_ w t' th id → held th = false;
  gi_queued : queued w id → id ∈ pending (w_queue w) ∨ ∃ t th, at_ w t th id ∧ waits th = true;
  gi_running : running w id → ∃ t th, at_ w t th id ∧ runs_job th = true
}.

Record store_good (s : S) : Prop := {
  sg_rows : ∀ id job, job_rows s !! id = Some job → j_ID job = id ∧ id ≠ ""%string;
  sg_runs : ∀ id job, run_rows s !! id = Some job → j_ID job = id ∧ id ≠ ""%string;
  sg_ok : store_ok s
}.

Record queue_good (q : InMemoryQueue) : Prop := {
  qg_open : closed q = false;
  qg_nodup : NoDup (pending q)
}.

Record good w : Prop := {
  g_store : store_good (w_store w);
  g_queue : queue_good (w_queue w);
  g_id : ∀ id, good_id w id
}.

Ltac light := try done; try tauto; try (intros; destruct_or?; simplify_eq; simpl in *; tauto);
  try (intros; simplify_eq; split; [simpl; tauto|by intros]).
(** The same, with the contents of the queue. *)
Ltac light_queue Hp :=
  light; try (rewrite ?Hp; tauto); try (intros i ?; rewrite (Hp i); tauto);
  try (intros; simplify_eq; rewrite Hp; tauto).

(** *** One step touches one job *)

Record touches w w' t id : Prop := {
  to_rows : ∀ id', id' ≠ id → job_rows (w_store w') !! id' = job_rows (w_store w) !! id';
  to_runs : ∀ id', id' ≠ id → run_rows (w_store w') !! id' = run_rows (w_store w) !! id';
  to_queue : ∀ id', id' ≠ id → id' ∈ pending (w_queue w') ↔ id' ∈ pending (w_queue w);
  to_cancels : ∀ id', id' ≠ id → w_cancels w' !! id' = w_cancels w !! id';
  to_threads : ∀ t', t' ≠ t → w_threads w' !! t' = w_threads w !! t';
  to_before : ∀ th, w_threads w !! t = Some th → job_of th = None ∨ job_of th = Some id;
  to_after : ∀ th, w_threads w' !! t = Some th → job_of th = None ∨ job_of th = Some id
}.

Lemma touches_at w w' t id t' th id' : touches w w' t id → id' ≠ id → at_ w' t' th id' ↔ at_ w t' th id'.
Proof.
  intros T Hne. unfold at_. destruct (decide (t' = t)) as [->|Ht]; [|by rewrite (to_threads _ _ _ _ T)].
  split; intros [H1 H2].
  - destruct (to_after _ _ _ _ T _ H1); congruence.
  - destruct (to_before _ _ _ _ T _ H1); congruence.
Qed.

Lemma touches_status w w' t id id' :
  touches w w' t id → id' ≠ id → row_status w' id' = row_status w id' ∧ run_status w' id' = run_status w id'.
Proof. intros T Hne. unfold row_status, run_status. by rewrite (to_rows _ _ _ _ T), (to_runs _ _ _ _ T). Qed.

Lemma good_frame w w' t id id' : touches w w' t id → id' ≠ id → good_id w id' → good_id w' id'.
Proof.
  intros T Hne [G0 G1 G2 G3 G4 G5 G6 G7 G8 G9].
  destruct (touches_status _ _ _ _ _ T Hne) as [Er Eu].
  pose proof (λ t' th, touches_at _ _ _ _ t' th _ T Hne) as A.
  unfold dead, gone, queued, running in *.
  split; unfold dead, gone, queued, running in *; rewrite ?Er, ?Eu, ?(to_queue _ _ _ _ T), ?(to_cancels _ _ _ _ T) by done;
    try setoid_rewrite A; try done.
  intros t' th Ht%G5. unfold thread_ok in *. unfold dead, gone, queued, running in *. rewrite Er, ?Eu.
  destruct th; try done. setoid_rewrite A. done.
Qed.

(** *** A goroutine goes on *)

Definition has (f : thread X N C → bool) (o : option (thread X N C)) : bool := from_option f false o.

(** Nobody has this job in hand. *)
Definition unclaimed w id : Prop := ∀ t th, ¬ at_ w t th id.

(** What a step does to the job of its goroutine: [old] is where the goroutine was, if it
    was there, and [new] is where it is now. *)
Record handover w w' t id (old new : option (thread X N C)) : Prop := {
  h_old : w_threads w !! t = old;
  h_new : w_threads w' !! t = new;
  h_touches : touches w w' t id;
  h_named : id ≠ ""%string;
  h_once : run_status w' id = None ∨ gone w' id;
  h_ticket : id ∈ pending (w_queue w') → queued w' id ∨ dead w' id;
  h_token : id ∈ pending (w_queue w') ∨ has carrier new = true →
    id ∈ pending (w_queue w) ∨ has carrier old = true ∨ unclaimed w id;
  h_one_token : id ∈ pending (w_queue w') → has carrier new = false;
  h_status : row_status w' id = row_status w id ∧ run_status w' id = run_status w id
    ∨ has carrier old = true ∧ (gone w id → gone w' id) ∧ (queued w' id → queued w id)
    ∨ gone w' id ∧ ¬ gone w id ∧ (queued w id → dead w' id)
    ∨ unclaimed w id;
  h_thread : ∀ th, new = Some th → thread_ok w' id th;
  h_registry : ∀ t', w_cancels w' !! id = Some t' ↔
    t' = t ∧ has registered new = true ∨ t' ≠ t ∧ w_cancels w !! id = Some t';
  h_engaged : has engaged new = true → has engaged old = true ∨ queued w id;
  h_leaving : new = Some (Leaving id) → has carrier old = true;
  h_held : has held new = true → has held old = true ∨ ¬ gone w id ∨ ∀ t', ¬ at_ w t' (Leaving id) id;
  h_queued : queued w' id → id ∈ pending (w_queue w') ∨ has waits new = true ∨
    queued w id ∧ has waits old = false ∧ (id ∈ pending (w_queue w) → id ∈ pending (w_queue w'));
  h_running : running w' id → has runs_job new = true ∨ running w id ∧ has runs_job old = false
}.

Lemma roles_job th :
  job_of th = None → carrier th = false ∧ registered th = false ∧ held th = false ∧ engaged th = false ∧
                     waits th = false ∧ runs_job th = false.
Proof. by destruct th. Qed.

(** The goroutine of the step is one of those of the job, or has no role. *)
Lemma handover_at w w' t id old new t' th :
  handover w w' t id old new →
  at_ w' t' th id ↔ t' = t ∧ new = Some th ∧ job_of th = Some id ∨ t' ≠ t ∧ at_ w t' th id.
Proof.
  intros H. unfold at_. destruct (decide (t' = t)) as [->|Ht].
  - rewrite (h_new _ _ _ _ _ _ H). naive_solver.
  - rewrite (to_threads _ _ _ _ (h_touches _ _ _ _ _ _ H)) by done. naive_solver.
Qed.

Lemma handover_role w w' t id old new (f : thread X N C → bool) :
  handover w w' t id old new → (∀ th, job_of th = None → f th = false) →
  (has f old = true → ∃ th, at_ w t th id ∧ f th = true ∧ old = Some th) ∧
  (has f new = true → ∃ th, at_ w' t th id ∧ f th = true ∧ new = Some th).
Proof.
  intros H Hf. pose proof (h_touches _ _ _ _ _ _ H) as T. pose proof (h_old _ _ _ _ _ _ H). pose proof (h_new _ _ _ _ _ _ H).
  split; [destruct old as [th|]|destruct new as [th|]]; simpl; try done; intros Hth; exists th; unfold at_.
  - split; [|done]. split; [done|]. destruct (to_before _ _ _ _ T th) as [E|]; try done. by rewrite Hf in Hth.
  - split; [|done]. split; [done|]. destruct (to_after _ _ _ _ T th) as [E|]; try done. by rewrite Hf in Hth.
Qed.

(** What the others say of a job stays true. *)
Lemma handover_others w w' t id old new t' th :
  good_id w id → handover w w' t id old new → t' ≠ t → at_ w t' th id → thread_ok w' id th.
Proof.
  intros G H Ht Ha. pose proof (gi_thread _ _ G _ _ Ha) as Hok.
  assert (He : ¬ queued w id → (∀ t2 th2, at_ w t2 th2 id → engaged th2 = false) →
               ∀ t2 th2, at_ w' t2 th2 id → engaged th2 = false).
  { intros Hq Hall t2 th2 [(-> & E & Hj)|[_ Ha2]]%(handover_at _ _ _ _ _ _ _ _ H); [|by eauto].
    destruct (engaged th2) eqn:Eth; [|done]. destruct (h_engaged _ _ _ _ _ _ H); [by subst| |done].
    destruct (handover_role _ _ _ _ _ _ engaged H) as [Hr _]; [intros ? ?%roles_job; tauto|].
    destruct Hr as (th0 & Ha0 & ? & _); [done|]. by rewrite (Hall _ _ Ha0) in *. }
  destruct (h_status _ _ _ _ _ _ H) as [[Er Eu]|[(Hc & Hg & Hq)|[(Hg & Hng & Hd)|Hno]]]; [..|by destruct (Hno _ _ Ha)].
  - unfold thread_ok, dead, gone, queued, running in *. rewrite Er, Eu. destruct th; try done. naive_solver.
  - destruct (handover_role _ _ _ _ _ _ carrier H) as [Hr _]; [intros ? ?%roles_job; tauto|].
    destruct Hr as (th0 & Ha0 & Hc0 & _); [done|].
    assert (Hnc : carrier th = false).
    { destruct (carrier th) eqn:E; [|done]. by destruct Ht; apply (gi_carrier _ _ G _ _ _ _ Ha Ha0). }
    unfold thread_ok in *. destruct th; try done; tauto.
  - assert (Hnq : ¬ queued w' id) by (unfold queued; by rewrite Hg).
    unfold thread_ok in *. destruct th; try done; unfold dead in *; tauto.
Qed.

Lemma good_handover w w' t id old new : good_id w id → handover w w' t id old new → good_id w' id.
Proof.
  intros G H. pose proof (λ t' th, handover_at _ _ _ _ _ _ t' th H) as A.
  destruct (handover_role _ _ _ _ _ _ carrier H) as [Hco Hcn]; [intros ? ?%roles_job; tauto|].
  destruct (handover_role _ _ _ _ _ _ registered H) as [Hro Hrn]; [intros ? ?%roles_job; tauto|].
  destruct (handover_role _ _ _ _ _ _ waits H) as [Hwo Hwn]; [intros ? ?%roles_job; tauto|].
  destruct (handover_role _ _ _ _ _ _ runs_job H) as [Hjo Hjn]; [intros ? ?%roles_job; tauto|].
  destruct (handover_role _ _ _ _ _ _ held H) as [Hho Hhn]; [intros ? ?%roles_job; tauto|].
  (* whoever has the token excludes the others *)
  assert (Htok : id ∈ pending (w_queue w) ∨ has carrier old = true ∨ unclaimed w id →
                 ∀ t' th, t' ≠ t → at_ w t' th id → carrier th = false).
  { intros [Hp|[(th0 & Ha0 & Hc0 & _)%Hco|Hno]] t' th Ht Ha;
      [by apply (gi_pending _ _ G Hp _ _ Ha)| |by destruct (Hno _ _ Ha)].
    destruct (carrier th) eqn:E; [|done]. by destruct Ht; apply (gi_carrier _ _ G _ _ _ _ Ha Ha0). }
  assert (Hntok : ∀ t' th, has carrier new = true → t' ≠ t → at_ w t' th id → carrier th = false)
    by (intros t' th Hn; apply Htok, (h_token _ _ _ _ _ _ H); by right).
  split.
  - intros _ _ _. apply H.
  - apply H.
  - apply H.
  - intros Hp t' th [(-> & E & _)|[Ht Ha]]%A.
    + pose proof (h_one_token _ _ _ _ _ _ H Hp) as Hn. by rewrite E in Hn.
    + eapply Htok; try done. apply (h_token _ _ _ _ _ _ H). by left.
  - intros t1 th1 t2 th2 [(-> & E1 & ?)|[Ht1 Ha1]]%A [(-> & E2 & ?)|[Ht2 Ha2]]%A Hc1 Hc2; try done.
    + rewrite (Hntok t2 th2) in Hc2; [done|by rewrite E1|done..].
    + rewrite (Hntok t1 th1) in Hc1; [done|by rewrite E2|done..].
    + by apply (gi_carrier _ _ G _ th1 _ th2).
  - intros t' th [(-> & E & _)|[Ht Ha]]%A; [by apply (h_thread _ _ _ _ _ _ H)|].
    by apply (handover_others _ _ _ _ _ _ _ _ G H Ht Ha).
  - intros t'. rewrite (h_registry _ _ _ _ _ _ H), (gi_registry _ _ G). split.
    + intros [(-> & (th & Ha & Hr & _)%Hrn)|(Ht & th & Ha & Hr)]; exists th; [done|]. split; [|done]. apply A. by right.
    + intros (th & [(-> & E & _)|[Ht Ha]]%A & Hr); [left; by rewrite E|right]. by eauto.
  - intros t1 t2 th [(-> & E1 & ?)|[Ht1 Ha1]]%A [(-> & E2 & ?)|[Ht2 Ha2]]%A.
    + rewrite E1 in E2. by injection E2 as <-.
    + pose proof (Htok (or_intror (or_introl (h_leaving _ _ _ _ _ _ H E1))) _ _ Ht2 Ha2). by destruct th.
    + destruct (held th) eqn:Eh; [|done]. destruct (h_held _ _ _ _ _ _ H) as [Ho|[Ho|Ho]].
      * by rewrite E2.
      * destruct (Hho Ho) as (th0 & Ha0 & Hh & _). by rewrite (gi_leaving _ _ G _ _ _ Ha1 Ha0) in Hh.
      * by destruct Ho; apply (gi_thread _ _ G _ _ Ha1).
      * by destruct (Ho t1).
    + by apply (gi_leaving _ _ G _ _ _ Ha1 Ha2).
  - intros Hq. destruct (h_queued _ _ _ _ _ _ H Hq) as [?|[(th & ? & ? & _)%Hwn|(Hq0 & Hw & Hp)]]; [by left|by eauto|].
    destruct (gi_queued _ _ G Hq0) as [?|(t' & th & Ha & Hth)]; [by eauto|]. right. exists t', th. split; [|done].
    apply A. right. split; [|done]. intros ->. destruct Ha as [Ha _]. rewrite (h_old _ _ _ _ _ _ H) in Ha.
    rewrite Ha in Hw. simpl in Hw. congruence.
  - intros Hr. destruct (h_running _ _ _ _ _ _ H Hr) as [(th & ? & ? & _)%Hjn|(Hr0 & Hw)]; [by eauto|].
    destruct (gi_running _ _ G Hr0) as (t' & th & Ha & Hth). exists t', th. split; [|done].
    apply A. right. split; [|done]. intros ->. destruct Ha as [Ha _]. rewrite (h_old _ _ _ _ _ _ H) in Ha.
    rewrite Ha in Hw. simpl in Hw. congruence.
Qed.

Lemma handover_good w w' t id old new :
  good w → handover w w' t id old new → store_good (w_store w') → queue_good (w_queue w') → good w'.
Proof.
  intros G H Hs Hq. split; [done..|]. intros id'. destruct (decide (id' = id)) as [->|Hne].
  - by eapply good_handover, H; apply G.
  - by eapply good_frame; [apply H|..|apply G].
Qed.

(** *** What the queue and the store do *)

Lemma enqueue_effect q id p :
  queue_good q → id ∉ pending q →
  queue_good (Enqueue q id p).1 ∧ ∀ id', id' ∈ pending (Enqueue q id p).1 ↔ id' = id ∨ id' ∈ pending q.
Proof.
  intros [Ho Hn] Hid.
  assert (H : closed (Enqueue q id p).1 = false ∧ pending (Enqueue q id p).1 ≡ₚ id :: pending q).
  { unfold Enqueue, signalOneLocked, send_notify, pending. rewrite Ho.
    destruct (p =? PriorityBatch)%Z; simpl; repeat (case_match; simpl); split; try done; solve_Permutation. }
  destruct H as [Hc Hp]. split; [split; [done|]|].
  - rewrite Hp. by constructor.
  - intros id'. rewrite Hp. set_solver.
Qed.

Lemma dequeue_effect q q' id :
  dequeue_lock q = (q', DqJob id) → queue_good q →
  id ∈ pending q ∧ queue_good q' ∧ ∀ id', id' ∈ pending q' ↔ id' ≠ id ∧ id' ∈ pending q.
Proof.
  intros E [Ho Hn]. unfold dequeue_lock in E. rewrite Ho in E. destruct (paused q); [done|].
  assert (Hp : closed q' = false ∧ pending q = id :: pending q').
  { unfold pending. destruct (normal q) as [|x n]; [destruct (batch q) as [|x b]; [done|]|];
      injection E as <- <-; done. }
  destruct Hp as [Hc Hp]. rewrite Hp in Hn |- *. inversion Hn; subst. split; [by left|]. split; [by split|].
  intros id'. rewrite elem_of_cons. naive_solver.
Qed.

Lemma remove_first_effect id l l' :
  remove_first id l = Some l' → ∃ l1 l2, l = l1 ++ id :: l2 ∧ l' = l1 ++ l2.
Proof.
  revert l'. induction l as [|x l IH]; intros l' E; simpl in E; [done|]. case_decide; [subst|].
  - injection E as <-. by exists [], l.
  - destruct (remove_first id l) as [l2|]; [|done]. injection E as <-.
    destruct (IH _ eq_refl) as (a & b & -> & ->). by exists (x :: a), b.
Qed.

Lemma remove_first_none id l : remove_first id l = None → id ∉ l.
Proof.
  induction l as [|x l IH]; simpl; [set_solver|]. case_decide; [done|].
  destruct (remove_first id l); [done|]. set_solver.
Qed.

Lemma remove_effect q id :
  queue_good q → ""%string ∉ pending q →
  queue_good (Remove q id).1 ∧ ∀ id', id' ∈ pending (Remove q id).1 ↔ id' ≠ id ∧ id' ∈ pending q.
Proof.
  intros [Ho Hn] He. unfold Remove. case_decide as Hid; [|rewrite Ho].
  { simpl. split; [by split|]. intros id'. split; [|tauto]. intros Hp. split; [|done]. by intros ->; subst. }
  assert (Hout : ∀ l1 l2, pending q = l1 ++ id :: l2 → NoDup (l1 ++ l2) ∧ ∀ id', id' ∈ l1 ++ l2 ↔ id' ≠ id ∧ id' ∈ pending q).
  { intros l1 l2 E. rewrite E in Hn |- *. apply NoDup_app in Hn as (? & H1 & [? ?]%NoDup_cons).
    split; [apply NoDup_app; set_solver|]. set_solver. }
  destruct (remove_first id (normal q)) as [n|] eqn:E1; [|destruct (remove_first id (batch q)) as [b|] eqn:E2]; simpl.
  - apply remove_first_effect in E1 as (a & b & E1 & ->). destruct (Hout a (b ++ batch q)) as [? ?].
    { unfold pending. by rewrite E1, <- app_assoc. }
    unfold pending; simpl. rewrite <- app_assoc. split; [split; [done|]|done]. unfold pending; simpl. by rewrite <- app_assoc.
  - apply remove_first_effect in E2 as (a & b' & E2 & ->). destruct (Hout (normal q ++ a) b') as [? ?].
    { unfold pending. by rewrite E2, <- app_assoc. }
    unfold pending; simpl. rewrite app_assoc. split; [split; [done|]|done]. unfold pending; simpl. by rewrite app_assoc.
  - split; [by split|]. intros id'. split; [|tauto]. intros Hp. split; [|done]. intros ->.
    apply elem_of_app in Hp as [Hp|Hp]; [by apply (remove_first_none _ _ E1)|by apply (remove_first_none _ _ E2)].
Qed.

Lemma update_effect (s s' : S) job :
  store_good s → store_update s job = Ok s' →
  is_Some (job_rows s !! j_ID job) ∧ store_good s' ∧
  job_rows s' = <[j_ID job := job]> (job_rows s) ∧ run_rows s' = run_rows s.
Proof.
  intros [H1 H2 H3] E. pose proof (update_law s job) as L. destruct (job_rows s !! j_ID job) as [old|] eqn:Eo.
  - destruct L as (s2 & E2 & Hok & Er & Eu). rewrite E in E2. injection E2 as <-. split; [done|]. split; [|done].
    split; [|by rewrite Eu|by apply Hok].
    rewrite Er. intros id j [[<- <-]|[_ ?]]%lookup_insert_Some; [|by apply H1]. split; [done|]. by apply (H1 _ _ Eo).
  - destruct L as [e E2]. by rewrite E in E2.
Qed.

Lemma update_fails (s : S) job e : store_update s job = Err e → job_rows s !! j_ID job = None.
Proof using JL.
  intros E. pose proof (update_law s job) as L. destruct (job_rows s !! j_ID job); [|done].
  destruct L as (s2 & E2 & _). by rewrite E in E2.
Qed.

Lemma graduate_effect (s s' : S) job es now g :
  store_good s → store_graduate s job es now = (s', g) →
  store_good s' ∧
  match g with
  | Graduated => is_Some (job_rows s !! j_ID job) ∧ job_rows s' = delete (j_ID job) (job_rows s) ∧
                 ∃ run, run_rows s' = <[j_ID job := run]> (run_rows s) ∧ j_Status run = j_Status job
  | NotFound => job_rows s !! j_ID job = None ∧ job_rows s' = job_rows s ∧ run_rows s' = run_rows s
  | GradPanic => j_Status job = JobSucceeded ∧ job_rows s' = job_rows s ∧ run_rows s' = run_rows s
  end.
Proof.
  intros [H1 H2 H3] E. pose proof (graduate_law s job es now s' g E) as [Hok L]. destruct g.
  - destruct L as ([old Ho] & Er & run & Eu & Ei & Es). split; [|by eauto]. split; [..|by apply Hok].
    + rewrite Er. intros id j [_ ?]%lookup_delete_Some. by apply H1.
    + rewrite Eu. intros id j [[<- <-]|[_ ?]]%lookup_insert_Some; [|by apply H2]. split; [done|]. by apply (H1 _ _ Ho).
  - destruct L as (Hn & Er & Eu). split; [|done]. by split; [rewrite Er|rewrite Eu|apply Hok].
  - destruct L as (Hs & Er & Eu). split; [by split; [rewrite Er|rewrite Eu|apply Hok]|]. by split; [apply Hs|].
Qed.

(** ** Every step keeps the invariant *)

Lemma touches_put w s q cs t id new :
  (∀ th, w_threads w !! t = Some th ∨ new = Some th → job_of th = None ∨ job_of th = Some id) →
  (∀ id', id' ≠ id → job_rows s !! id' = job_rows (w_store w) !! id' ∧ run_rows s !! id' = run_rows (w_store w) !! id') →
  (∀ id', id' ≠ id → id' ∈ pending q ↔ id' ∈ pending (w_queue w)) →
  (∀ id', id' ≠ id → cs !! id' = w_cancels w !! id') →
  touches w (put w s q cs t new) t id.
Proof.
  intros Hj Hs Hq Hc. split; simpl; try (intros id' Hne; by apply Hs); try done.
  - intros t' Ht. by rewrite lookup_partial_alter_ne.
  - intros th Hth. apply Hj. by left.
  - intros th Hth. rewrite lookup_partial_alter_eq in Hth. apply Hj. by right.
Qed.

(** A goroutine goes on without a change to what it shares with the others. *)
Lemma quiet_good w t id new :
  good w →
  id ≠ ""%string →
  let old := w_threads w !! t in
  (∀ th, old = Some th ∨ new = Some th → job_of th = None ∨ job_of th = Some id) →
  (has carrier new = true → has carrier old = true) →
  has registered new = has registered old →
  (has engaged new = true → has engaged old = true) →
  (new = Some (Leaving id) → has carrier old = true) →
  (has held new = true → has held old = true ∨ ¬ gone w id ∨ ∀ t', ¬ at_ w t' (Leaving id) id) →
  (queued w id → has waits old = true → has waits new = true) →
  (running w id → has runs_job old = true → has runs_job new = true) →
  (∀ th, new = Some th → thread_ok w id th) →
  good (put w (w_store w) (w_queue w) (w_cancels w) t new).
Proof.
  intros G Hid old Hj Hc Hr He Hl Hh Hq Hu Hok. pose proof (g_id _ G id) as Gi.
  assert (Hat : ∀ f th0, f th0 = true → (f = carrier ∨ f = registered ∨ f = engaged) → w_threads w !! t = Some th0 → at_ w t th0 id).
  { intros f th0 Hf Hor Eo. split; [done|]. destruct (Hj th0) as [E|]; [by left| |done].
    apply roles_job in E. destruct_and?. destruct Hor as [->|[->| ->]]; congruence. }
  eapply (handover_good w _ t id old new G); [|apply G..].
  split; simpl; try done; try apply Gi.
  - by rewrite lookup_partial_alter_eq.
  - by apply touches_put.
  - tauto.
  - intros Hp. destruct (has carrier new) eqn:En; [|done]. specialize (Hc eq_refl). subst old.
    destruct (w_threads w !! t) as [th|] eqn:Eo; [|done]. simpl in Hc.
    rewrite (gi_pending _ _ Gi Hp t th) in Hc; [done|]. apply (Hat carrier); tauto.
  - by left.
  - intros th E. specialize (Hok th E). destruct th as [| | | | | | | | | | | | | |job| | |]; try done.
    destruct Hok as [?|(? & ? & Hno)]; [by left|]. right. split; [done|]. split; [done|].
    intros t' th' [E2 Ej]. simpl in E2. destruct (decide (t' = t)) as [->|Ht].
    + rewrite lookup_partial_alter_eq in E2. rewrite E2 in E. by injection E as ->.
    + rewrite lookup_partial_alter_ne in E2 by done. by apply (Hno t').
  - intros t'. rewrite Hr. destruct (decide (t' = t)) as [->|]; [|naive_solver].
    rewrite (gi_registry _ _ Gi). split.
    + intros (th & [E _] & Hth). left. split; [done|]. subst old. by rewrite E.
    + intros [[_ E]|[? ?]]; [|done]. subst old. destruct (w_threads w !! t) as [th|] eqn:Eo; [|done].
      exists th. split; [|done]. apply (Hat registered); tauto.
  - tauto.
  - intros Hqd. destruct (has waits old); [|by right; right]. right. left. by apply Hq.
  - intros Hrd. destruct (has runs_job old); [|by right]. left. by apply Hu.
Qed.

(** The steps that change the queue or the registry, or both. *)
Lemma shared_good w q cs t id old new :
  good w → w_threads w !! t = old → queue_good q → id ≠ ""%string →
  (∀ th', old = Some th' ∨ new = Some th' → job_of th' = None ∨ job_of th' = Some id) →
  (∀ id', id' ≠ id → id' ∈ pending q ↔ id' ∈ pending (w_queue w)) →
  (∀ id', id' ≠ id → cs !! id' = w_cancels w !! id') →
  (id ∈ pending q → queued w id ∨ dead w id) →
  (id ∈ pending q ∨ has carrier new = true → id ∈ pending (w_queue w) ∨ has carrier old = true) →
  (id ∈ pending q → has carrier new = false) →
  (∀ t', cs !! id = Some t' ↔ t' = t ∧ has registered new = true ∨ t' ≠ t ∧ w_cancels w !! id = Some t') →
  (has engaged new = true → has engaged old = true) →
  (new = Some (Leaving id) → has carrier old = true) →
  (has held new = true → has held old = true ∨ ¬ gone w id ∨ ∀ t', ¬ at_ w t' (Leaving id) id) →
  (queued w id → id ∈ pending q ∨ has waits new = true ∨ has waits old = false ∧ (id ∈ pending (w_queue w) → id ∈ pending q)) →
  (running w id → has runs_job new = true ∨ has runs_job old = false) →
  (∀ th', new = Some th' → thread_ok w id th' ∧ ∀ job, th' = Graduating job → j_Status job = JobCanceled) →
  good (put w (w_store w) q cs t new).
Proof.
  intros G Eo Hqg Hid Hj Hq Hc Hti Hto H1 Hr He Hl Hh Hqd Hrd Hok. pose proof (g_id _ G id) as Gi.
  eapply (handover_good w _ t id old new G); [|apply G|done].
  split; simpl; try done; try apply Gi.
  - by rewrite lookup_partial_alter_eq.
  - apply touches_put; try done. intros th' [E|?]; apply Hj; [left; congruence|by right].
  - tauto.
  - by left.
  - intros th' E. destruct (Hok th' E) as [Ht Hg]. destruct th'; try done. left. by apply Hg.
  - intros En. left. by apply He.
  - naive_solver.
  - naive_solver.
Qed.

Lemma registry_keep w t id th b :
  good_id w id → w_threads w !! t = Some th → (registered th = true → job_of th = Some id) → b = registered th →
  ∀ t', w_cancels w !! id = Some t' ↔ t' = t ∧ b = true ∨ t' ≠ t ∧ w_cancels w !! id = Some t'.
Proof.
  intros G E Hj -> t'. destruct (decide (t' = t)) as [->|]; [|naive_solver].
  rewrite (gi_registry _ _ G). split; [|intros [[_ Hr]|[? ?]]; [|done]].
  - intros (th' & [E' _] & Hr). left. split; [done|]. congruence.
  - exists th. split; [|done]. split; [done|]. by apply Hj.
Qed.

(** Jobs have a name. *)
Lemma known_id w id : good w → queued w id ∨ dead w id → id ≠ ""%string.
Proof.
  intros G [Hq|[_ Hd]].
  - unfold queued, row_status in Hq. destruct (job_rows (w_store w) !! id) as [job|] eqn:E; [|done].
    by apply (sg_rows _ (g_store _ G) _ _ E).
  - unfold run_status in Hd. destruct (run_rows (w_store w) !! id) as [job|] eqn:E; [|done].
    by apply (sg_runs _ (g_store _ G) _ _ E).
Qed.

Lemma dequeue_good w t q id :
  good w → w_threads w !! t = Some Idle → dequeue_lock (w_queue w) = (q, DqJob id) →
  good (put w (w_store w) q (w_cancels w) t (Some (Dequeued id))).
Proof.
  intros G Eo E. pose proof (g_id _ G id) as Gi. destruct (dequeue_effect _ _ _ E (g_queue _ G)) as (Hin & Hq & Hp).
  assert (Hid : id ≠ ""%string) by (by apply (known_id w id G), Gi).
  apply (shared_good _ _ _ _ id _ _ G Eo Hq Hid); simpl; light_queue Hp.
  - by apply (registry_keep _ _ _ _ _ Gi Eo).
  - intros ? [= <-]. split; [|done]. by apply (gi_ticket _ _ Gi).
Qed.

Lemma register_good w t job :
  good w → w_threads w !! t = Some (Loaded job) →
  good (put w (w_store w) (w_queue w) (registerCancel (w_cancels w) (j_ID job) t) t (Some (Registered job Live))).
Proof.
  intros G Eo. set (id := j_ID job). pose proof (g_id _ G id) as Gi.
  assert (Ha : at_ w t (Loaded job) id) by done.
  pose proof (gi_thread _ _ Gi _ _ Ha) as Hok. pose proof (gi_named _ _ Gi _ _ Ha) as Hid.
  pose proof (λ t', gi_leaving _ _ Gi t' t (Loaded job)) as Hl.
  unfold registerCancel. rewrite decide_False by done.
  apply (shared_good _ _ _ _ id _ _ G Eo (g_queue _ G) Hid); simpl; light; try apply Gi.
  - intros id' Hne. by rewrite lookup_insert_ne.
  - intros Hp. by pose proof (gi_pending _ _ Gi Hp _ _ Ha).
  - intros t'. rewrite lookup_insert_eq. destruct (decide (t' = t)) as [->|Ht]; [naive_solver|].
    split; [naive_solver|]. intros [?|[_ Hc]]; [naive_solver|].
    apply (gi_registry _ _ Gi) in Hc as (th & Ht2 & Hr). destruct (carrier th) eqn:Ec.
    + by destruct Ht; apply (gi_carrier _ _ Gi _ _ _ _ Ht2 Ha).
    + destruct Ht2 as [? Hj]. destruct th; try done. simpl in Hj. injection Hj as ->.
      assert (held (Loaded job) = false) by (by apply (Hl t')). done.
Qed.

Lemma requeue_good w t job :
  good w → w_threads w !! t = Some (Requeue job) →
  good (put w (w_store w) (Enqueue (w_queue w) (j_ID job) (c_Priority (j_copied job))).1 (w_cancels w) t
          (Some (Leaving (j_ID job)))).
Proof.
  intros G Eo. set (id := j_ID job). pose proof (g_id _ G id) as Gi.
  assert (Ha : at_ w t (Requeue job) id) by done. pose proof (gi_thread _ _ Gi _ _ Ha) as Hok. pose proof (gi_named _ _ Gi _ _ Ha) as Hid.
  assert (Hp : id ∉ pending (w_queue w)) by (intros Hp; by pose proof (gi_pending _ _ Gi Hp _ _ Ha)).
  destruct (enqueue_effect (w_queue w) id (c_Priority (j_copied job)) (g_queue _ G) Hp) as [Hq He].
  apply (shared_good _ _ _ _ id _ _ G Eo Hq Hid); simpl; light_queue He.
  - by apply (registry_keep _ _ _ _ _ Gi Eo).
  - intros ? [= <-]. split; [|done]. apply Hok.
Qed.

Lemma submit_good w t job :
  good w → w_threads w !! t = Some (Submitting job) →
  good (put w (w_store w) (Enqueue (w_queue w) (j_ID job) (c_Priority (j_copied job))).1 (w_cancels w) t None).
Proof.
  intros G Eo. set (id := j_ID job). pose proof (g_id _ G id) as Gi.
  assert (Ha : at_ w t (Submitting job) id) by done. pose proof (gi_thread _ _ Gi _ _ Ha) as Hok. pose proof (gi_named _ _ Gi _ _ Ha) as Hid.
  assert (Hp : id ∉ pending (w_queue w)) by (intros Hp; by pose proof (gi_pending _ _ Gi Hp _ _ Ha)).
  destruct (enqueue_effect (w_queue w) id (c_Priority (j_copied job)) (g_queue _ G) Hp) as [Hq He].
  apply (shared_good _ _ _ _ id _ _ G Eo Hq Hid); simpl; light_queue He.
  by apply (registry_keep _ _ _ _ _ Gi Eo).
Qed.

Lemma cancel_good w t job why now :
  good w → w_threads w !! t = Some (Canceling job why) →
  good (put w (w_store w) (Remove (w_queue w) (j_ID job)).1 (w_cancels w) t (Some (Graduating (canceled job why now)))).
Proof.
  intros G Eo. set (id := j_ID job). pose proof (g_id _ G id) as Gi.
  assert (Hid : id ≠ ""%string) by (by apply (gi_named _ _ Gi t (Canceling job why))).
  destruct (remove_effect (w_queue w) id (g_queue _ G)) as [Hq He].
  { intros Hp. by destruct (known_id w _ G (gi_ticket _ _ (g_id _ G _) Hp)). }
  apply (shared_good _ _ _ _ id _ _ G Eo Hq Hid); simpl; light_queue He.
  - by apply (registry_keep _ _ _ _ _ Gi Eo).
  - intros ? [= <-]. split; [by left|]. by intros ? [= <-].
Qed.

Lemma unregister_good w t th new id :
  good w → w_threads w !! t = Some th →
  th = Leaving id ∧ new = Idle ∨ (∃ job, id = j_ID job ∧ th = Panicked job ∧ new = Recovering job) →
  good (put w (w_store w) (w_queue w) (unregisterCancel (w_cancels w) id) t (Some new)).
Proof.
  intros G Eo Hth. pose proof (g_id _ G id) as Gi.
  assert (Ha : at_ w t th id ∧ registered th = true) by (unfold at_; naive_solver). destruct Ha as [Ha Hr].
  pose proof (gi_named _ _ Gi _ _ Ha) as Hid. unfold unregisterCancel. rewrite decide_False by done.
  pose proof (gi_thread _ _ Gi _ _ Ha) as Hok. pose proof (gi_pending _ _ Gi) as Hpend.
  assert (Hnew : registered new = false) by naive_solver.
  apply (shared_good _ _ _ _ id _ _ G Eo (g_queue _ G) Hid); simpl; try done; try apply Gi.
  2: { intros id' Hne. by rewrite lookup_delete_ne. }
  3: { intros Hp. specialize (Hpend Hp _ _ Ha). naive_solver. }
  3: { rewrite Hnew. intros t'. rewrite lookup_delete_eq. split; [done|]. intros [[_ ?]|[Ht Hc]]; [done|].
       assert (w_cancels w !! id = Some t) by (apply (gi_registry _ _ Gi); by exists th). congruence. }
  all: destruct Hth as [[-> ->]|(job & -> & -> & ->)]; simpl; try naive_solver.
Qed.

Lemma row_present w id : is_Some (job_rows (w_store w) !! id) ↔ ¬ gone w id.
Proof.
  unfold gone, row_status. destruct (job_rows (w_store w) !! id); naive_solver.
Qed.

(** An update: the row of the job is replaced by one of another status. *)
Lemma updated_good w s' t id th new job :
  good w → w_threads w !! t = Some th → job_of th = Some id → job_of new = None ∨ job_of new = Some id →
  j_ID job = id → store_update (w_store w) job = Ok s' →
  carrier th = true → registered new = registered th →
  (carrier new = true → carrier th = true) → (held new = true → held th = true) →
  (engaged new = true → engaged th = true ∨ queued w id) → (∀ i, new ≠ Leaving i) →
  j_Status job ≠ JobQueued → (j_Status job = JobRunning → runs_job new = true) →
  (∀ w', row_status w' id = Some (j_Status job) → thread_ok w' id new) →
  good (put w s' (w_queue w) (w_cancels w) t (Some new)).
Proof.
  intros G Eo Hj Hjn Hid Eu Hc Hr Hcn Hh He Hl Hnq Hrun Hok. pose proof (g_id _ G id) as Gi.
  assert (Ha : at_ w t th id) by done. pose proof (gi_named _ _ Gi _ _ Ha) as Hne.
  destruct (update_effect _ _ _ (g_store _ G) Eu) as (Hrow & Hs & Er & Eru). rewrite Hid in Hrow, Er.
  assert (Hng : ¬ gone w id) by by apply row_present.
  assert (Hst : ∀ o, row_status (put w s' (w_queue w) (w_cancels w) t o) id = Some (j_Status job) ∧
                     run_status (put w s' (w_queue w) (w_cancels w) t o) id = run_status w id).
  { intros o. unfold row_status, run_status; simpl. by rewrite Er, Eru, lookup_insert_eq. }
  destruct (Hst (Some new)) as [Hst1 Hst2].
  assert (Hnp : id ∉ pending (w_queue w)) by (intros Hp; pose proof (gi_pending _ _ Gi Hp _ _ Ha); congruence).
  eapply (handover_good w _ t id (Some th) (Some new) G); [|done|apply G].
  split; simpl; try done; unfold queued, running, gone, dead; rewrite ?Hst1, ?Hst2.
  - by rewrite lookup_partial_alter_eq.
  - apply touches_put; try done; [naive_solver|]. intros id' Hn. by rewrite Er, Eru, lookup_insert_ne.
  - destruct (gi_once _ _ Gi) as [?|?]; [by left|done].
  - tauto.
  - right. left. split; [done|]. split; [done|]. intros E. by injection E.
  - intros ? [= <-]. by apply Hok.
  - apply (registry_keep _ _ _ _ _ Gi Eo); [done|congruence].
  - intros Hn. left. by apply Hh.
  - intros E. by injection E.
  - intros E. injection E as E. left. by apply Hrun.
Qed.

Lemma start_good w s' t job c now :
  good w → w_threads w !! t = Some (Registered job c) → store_update (w_store w) (started job now) = Ok s' →
  good (put w s' (w_queue w) (w_cancels w) t (Some (Engine (started job now) c))).
Proof.
  intros G Eo Eu. set (id := j_ID job). pose proof (gi_thread _ _ (g_id _ G id) t (Registered job c) ltac:(done)) as Hok.
  destruct (update_effect _ _ _ (g_store _ G) Eu) as (Hrow%row_present & _).
  apply (updated_good _ _ _ id _ _ (started job now) G Eo); simpl; try done; try by right.
  - intros _. right. destruct Hok as [?|[? _]]; [done|]. by destruct Hrow.
  - intros w' E. left. unfold running. by rewrite E.
Qed.

Lemma progress_good w s' t job c row :
  good w → w_threads w !! t = Some (Progress job c row) → store_update (w_store w) row = Ok s' →
  good (put w s' (w_queue w) (w_cancels w) t (Some (Engine job c))).
Proof.
  intros G Eo Eu. set (id := j_ID job).
  destruct (gi_thread _ _ (g_id _ G id) t (Progress job c row) ltac:(done)) as [Hid Hok].
  destruct (update_effect _ _ _ (g_store _ G) Eu) as (Hrow%row_present & _). rewrite Hid in Hrow.
  destruct Hok as [[Hr Hs]|?]; [|done].
  apply (updated_good _ _ _ id _ _ row G Eo); simpl; try done; try by right.
  - by left.
  - by rewrite Hs.
  - intros w' E. left. unfold running. by rewrite E, Hs.
Qed.

Lemma recover_good w s' t job why now :
  good w → w_threads w !! t = Some (Recovering job) → store_update (w_store w) (failed job why now) = Ok s' →
  good (put w s' (w_queue w) (w_cancels w) t (Some Idle)).
Proof.
  intros G Eo Eu. apply (updated_good _ _ _ (j_ID job) _ _ (failed job why now) G Eo); simpl; try done; by left.
Qed.

(** A graduation: the row goes, and the run is recorded. *)
Lemma graduated_good w s' t th new job es now :
  good w → w_threads w !! t = Some th → store_graduate (w_store w) job es now = (s', Graduated) →
  (∃ es, th = Ended job es) ∧ new = Some (Leaving (j_ID job)) ∨ th = Graduating job ∧ new = None →
  good (put w s' (w_queue w) (w_cancels w) t new).
Proof.
  intros G Eo Eg Hth. set (id := j_ID job). pose proof (g_id _ G id) as Gi.
  assert (Ha : at_ w t th id) by (unfold at_; naive_solver).
  pose proof (gi_named _ _ Gi _ _ Ha) as Hne. pose proof (gi_thread _ _ Gi _ _ Ha) as Hok.
  destruct (graduate_effect _ _ _ _ _ _ (g_store _ G) Eg) as (Hs & Hrow%row_present & Er & run & Eu & Es).
  fold id in Hrow, Er, Eu.
  assert (Hst : gone (put w s' (w_queue w) (w_cancels w) t new) id ∧
                run_status (put w s' (w_queue w) (w_cancels w) t new) id = Some (j_Status job)).
  { unfold gone, row_status, run_status; simpl. by rewrite Er, Eu, lookup_delete_eq, lookup_insert_eq, <- Es. }
  destruct Hst as [Hg Hst].
  assert (Hq : queued w id → j_Status job = JobCanceled).
  { intros Hq. destruct Hth as [[(es' & ->) _]|[-> _]]; simpl in Hok; [|naive_solver].
    destruct Hok as [_ [Hrun|?]]; [|done]. unfold queued, running in *. congruence. }
  eapply (handover_good w _ t id (Some th) new G); [|done|apply G].
  split; simpl; try done; unfold queued, running, dead; rewrite ?Hst, ?Hg.
  - by rewrite lookup_partial_alter_eq.
  - apply touches_put; try done; [naive_solver|]. intros id' Hn. by rewrite Er, Eu, lookup_delete_ne, lookup_insert_ne.
  - by right.
  - intros [Hqd|[? _]]%(gi_ticket _ _ Gi); [|done]. right. by rewrite Hq.
  - naive_solver.
  - naive_solver.
  - right. right. left. split; [done|]. split; [done|]. intros Hqd. by rewrite Hq.
  - destruct Hth as [[_ ->]|[_ ->]]; [|done]. by intros ? [= <-].
  - apply (registry_keep _ _ _ _ _ Gi Eo); naive_solver.
  - naive_solver.
  - naive_solver.
  - naive_solver.
  - done.
  - done.
Qed.

(** A graduation that fails changes nothing that the server sees. *)
Definition same_tables w (s' : S) : Prop := job_rows s' = job_rows (w_store w) ∧ run_rows s' = run_rows (w_store w).

Lemma same_good w s' : good w → store_good s' → same_tables w s' →
  good {| w_store := s'; w_queue := w_queue w; w_cancels := w_cancels w; w_threads := w_threads w |}.
Proof.
  intros G Hs [Er Eu]. split; [done|apply G|]. intros id. destruct (g_id _ G id).
  assert (Hst : row_status {| w_store := s'; w_queue := w_queue w; w_cancels := w_cancels w; w_threads := w_threads w |} id
                  = row_status w id ∧
                run_status {| w_store := s'; w_queue := w_queue w; w_cancels := w_cancels w; w_threads := w_threads w |} id
                  = run_status w id)
    by (unfold row_status, run_status; simpl; by rewrite Er, Eu).
  destruct Hst as [E1 E2]. unfold dead, gone, queued, running in *.
  split; unfold dead, gone, queued, running; rewrite ?E1, ?E2; try done.
  intros t th Ha. specialize (gi_thread0 t th Ha). unfold thread_ok, dead, gone, queued, running in *.
  by rewrite E1, E2.
Qed.

(** Contexts are no part of the invariant. *)
Lemma signal_good w f t : good w → good (signal w f t).
Proof.
  intros G. split; [apply G..|]. intros id. destruct (g_id _ G id).
  set (look := λ t' th, if decide (t' = t) then set_ctx f th else th : thread X N C).
  assert (A : ∀ t' th, at_ (signal w f t) t' th id ↔ ∃ th0, at_ w t' th0 id ∧ th = look t' th0).
  { intros t' th. unfold at_, look; simpl. destruct (decide (t' = t)) as [->|Hne].
    - rewrite lookup_alter_eq. destruct (w_threads w !! t) as [th0|]; simpl; [|naive_solver].
      split; [intros [[= <-] Hj]|intros (? & [[= <-] ?] & ->)]; [exists th0; split; [split; [done|]|done]|split; [done|]];
        by destruct th0.
    - rewrite lookup_alter_ne by done. naive_solver. }
  assert (R : ∀ t' th, carrier (look t' th) = carrier th ∧ registered (look t' th) = registered th ∧
                       held (look t' th) = held th ∧ engaged (look t' th) = engaged th ∧
                       waits (look t' th) = waits th ∧ runs_job (look t' th) = runs_job th ∧
                       (look t' th = Leaving id → th = Leaving id)).
  { intros t' th. unfold look. destruct (decide _); [|done]. by destruct th. }
  split; try done.
  - intros t' th (th0 & Ha & _)%A. eauto.
  - intros Hp t' th (th0 & Ha & ->)%A. destruct (R t' th0) as (-> & _). eauto.
  - intros t1 th1 t2 th2 (th3 & Ha1 & ->)%A (th4 & Ha2 & ->)%A. destruct (R t1 th3) as (-> & _), (R t2 th4) as (-> & _). eauto.
  - intros t' th (th0 & Ha & ->)%A. specialize (gi_thread0 _ _ Ha). unfold look. destruct (decide _); [|].
    + destruct th0; try done. destruct gi_thread0 as [?|(? & ? & Hno)]; [by left|right; split_and!; try done].
      intros t2 th2 (th3 & Ha2 & ->)%A. destruct (R t2 th3) as (_ & _ & _ & -> & _). eauto.
    + destruct th0; try done. destruct gi_thread0 as [?|(? & ? & Hno)]; [by left|right; split_and!; try done].
      intros t2 th2 (th3 & Ha2 & ->)%A. destruct (R t2 th3) as (_ & _ & _ & -> & _). eauto.
  - intros t'. rewrite gi_registry0. split; intros (th & Ha & Hr).
    + exists (look t' th). destruct (R t' th) as (_ & -> & _). split; [apply A; eauto|done].
    + apply A in Ha as (th0 & Ha & ->). destruct (R t' th0) as (_ & E & _). exists th0. by rewrite <- E.
  - intros t1 t2 th (th3 & Ha1 & E)%A (th4 & Ha2 & ->)%A. destruct (R t1 th3) as (_ & _ & _ & _ & _ & _ & E3).
    symmetry in E. apply E3 in E as ->. destruct (R t2 th4) as (_ & _ & -> & _). eauto.
  - intros Hq. destruct (gi_queued0 Hq) as [?|(t' & th & Ha & Hw)]; [by left|right]. exists t', (look t' th).
    destruct (R t' th) as (_ & _ & _ & _ & -> & _). split; [apply A; eauto|done].
  - intros Hq. destruct (gi_running0 Hq) as (t' & th & Ha & Hw). exists t', (look t' th).
    destruct (R t' th) as (_ & _ & _ & _ & _ & -> & _). split; [apply A; eauto|done].
Qed.

(** A goroutine that is there goes on quietly. *)
Lemma goto_good w t th new :
  good w → w_threads w !! t = Some th →
  ∀ id, job_of th = Some id →
  (∀ th', new = Some th' → job_of th' = None ∨ job_of th' = Some id) →
  (has carrier new = true → carrier th = true) →
  has registered new = registered th →
  (has engaged new = true → engaged th = true) →
  (new = Some (Leaving id) → carrier th = true) →
  (has held new = true → held th = true ∨ ¬ gone w id ∨ ∀ t', ¬ at_ w t' (Leaving id) id) →
  (queued w id → waits th = true → has waits new = true) →
  (running w id → runs_job th = true → has runs_job new = true) →
  (thread_ok w id th → ∀ th', new = Some th' → thread_ok w id th') →
  good (put w (w_store w) (w_queue w) (w_cancels w) t new).
Proof.
  intros G Eo id Hj Hn Hc Hr He Hl Hh Hq Hu Hok.
  assert (Ha : at_ w t th id) by done.
  apply quiet_good with id; rewrite ?Eo; simpl; try done.
  - by apply (gi_named _ _ (g_id _ G id) t th).
  - intros th' [[= <-]|?]; [by right|by apply Hn].
  - by apply Hok, (gi_thread _ _ (g_id _ G id) t).
Qed.

Lemma exit_good w t th :
  good w → w_threads w !! t = Some th →
  match th with
  | Canceling _ _ | Interrupting _ _ | Reaping _ => True
  | Unqueued id => ¬ queued w id
  | Graduating job => ¬ queued w (j_ID job)
  | _ => False
  end → good (exit w t).
Proof.
  intros G Eo Hth. unfold exit. destruct th; try done; eapply (goto_good _ _ _ _ G Eo); simpl; done.
Qed.

Lemma load_cases w t id :
  good w → w_threads w !! t = Some (Dequeued id) →
  queued w id ∧ (∃ job, load (store_get (w_store w) id) = (Loaded job : thread X N C) ∧ j_ID job = id) ∨
  ¬ queued w id ∧ load (store_get (w_store w) id) = (Idle : thread X N C).
Proof.
  intros G Eo. assert (Ha : at_ w t (Dequeued id) id) by done.
  pose proof (gi_thread _ _ (g_id _ G id) _ _ Ha) as Hok. simpl in Hok.
  unfold store_get, queued, dead, gone, row_status, run_status in *.
  destruct (job_rows (w_store w) !! id) as [job|] eqn:E; simpl in *.
  - left. destruct Hok as [[= Hs]|[? _]]; [|done]. rewrite Hs. split; [done|]. exists job.
    split; [by rewrite decide_False by naive_solver|]. by apply (sg_rows _ (g_store _ G)).
  - right. split; [done|]. destruct Hok as [?|[_ Hd]]; [done|].
    destruct (run_rows (w_store w) !! id) as [job|]; [|done]. injection Hd as Hd. simpl.
    by rewrite decide_True by (by left).
Qed.

Lemma loading_good w t id :
  good w → w_threads w !! t = Some (Dequeued id) → good (goto w t (load (store_get (w_store w) id))).
Proof.
  intros G Eo. pose proof (load_cases _ _ _ G Eo) as Hl.
  unfold goto. destruct Hl as [[Hq (job & -> & Hid)]|[Hq ->]]; eapply (goto_good _ _ _ _ G Eo); simpl; try done.
  - intros ? [= <-]. right. simpl. by rewrite Hid.
  - intros _. right. left. unfold gone, queued in *. by rewrite Hq.
  - intros _ ? [= <-]. by left.
  - by intros ? [= <-]; left.
  - by intros _ ? [= <-].
Qed.

(** *** Every access *)

Lemma try_update_ok w e job s' : try_update w e job = Some s' → store_update (w_store w) job = Ok s'.
Proof. unfold try_update. destruct (e_fault e); [done|]. by destruct (store_update _ _); [intros [= ->]|]. Qed.

Lemma try_update_gone w e job : e_fault e = false → try_update w e job = None → gone w (j_ID job).
Proof using JL.
  unfold try_update. intros -> E. destruct (store_update _ _) as [|err] eqn:Eu; [done|].
  apply update_fails in Eu. unfold gone, row_status. by rewrite Eu.
Qed.

Lemma ended_job job c (a : artifacts X N) now :
  j_ID (ended job c a now) = j_ID job ∧ isTerminalStatus (j_Status (ended job c a now)) = true.
Proof. unfold ended, outcome. by destruct c, (a_err a). Qed.

(** [goto_good], for a known goroutine. *)
Ltac quietly G Eo := unfold goto; eapply (goto_good _ _ _ _ G Eo); simpl; light; try naive_solver.

Lemma worker_good w t e w' th :
  good w → e_fault e = false → w_threads w !! t = Some th → carrier th = true → advance w t e = Some w' → good w'.
Proof.
  intros G Ef Eo Hc Ha. unfold advance in Ha. rewrite Eo in Ha. simpl in Ha.
  destruct th as [|id|job|job c|job|job c|job c row|job es|job|id|job|job|job|job why|job|job d|id|job]; try done.
  - injection Ha as <-. by apply loading_good.
  - injection Ha as <-. by apply register_good.
  - injection Ha as <-. destruct (try_update w e (started job (e_now e))) as [s'|] eqn:Eu.
    + by apply start_good, try_update_ok with e.
    + apply try_update_gone in Eu; [|done]. quietly G Eo.
      * unfold queued, gone in *. simpl in *. congruence.
      * intros [?|?] ? [= <-]; [|done]. unfold queued, gone in *. simpl in *. congruence.
  - injection Ha as <-. by apply requeue_good.
  - injection Ha as <-. destruct (ended_job job c (e_art e) (e_now e)) as [Ei Et]. quietly G Eo.
    intros ? [= <-]. right. simpl. by rewrite Ei.
  - injection Ha as <-. destruct (try_update w e row) as [s'|] eqn:Eu; simpl.
    + by eapply progress_good, try_update_ok.
    + quietly G Eo.
  - rewrite Ef in Ha. destruct (store_graduate (w_store w) job es (e_now e)) as [s' g] eqn:Eg. injection Ha as <-.
    destruct (graduate_effect _ _ _ _ _ _ (g_store _ G) Eg) as [Hs Hg]. destruct g.
    + eapply graduated_good; try done. left. by eauto.
    + destruct Hg as (Hn & Ht). pose proof (same_good w s' G Hs Ht) as G'. destruct Ht as [Er _].
      quietly G' Eo; [|intros _ ? [= <-]]; unfold thread_ok, running, gone, row_status; simpl; by rewrite Er, Hn.
    + destruct Hg as (_ & Ht). apply (same_good w s' G Hs) in Ht as G'. quietly G' Eo.
  - injection Ha as <-. unfold park. destruct (try_update _ _ _) as [s'|] eqn:Eu; simpl.
    + apply try_update_ok, (update_effect _ _ _ (g_store _ G)) in Eu as [Hrow%row_present _].
      destruct Hrow. by apply (gi_thread _ _ (g_id _ G (j_ID job)) t (Failing job)).
    + quietly G Eo.
  - injection Ha as <-. eapply unregister_good; [done..|]. right. by eauto.
  - injection Ha as <-. unfold park. destruct (try_update _ _ _) as [s'|] eqn:Eu; simpl.
    + by eapply recover_good, try_update_ok.
    + apply try_update_gone in Eu; [|done]. quietly G Eo. unfold running, gone in *. simpl in *. congruence.
  - injection Ha as <-. by apply submit_good.
Qed.

Lemma reaping_good w t job timeout now :
  good w → w_threads w !! t = Some (Reaping job) → isJobLive (w_cancels w) (j_ID job) = false →
  good (goto w t (Graduating (abandoned job timeout now))).
Proof.
  intros G Eo Hl. pose proof (g_id _ G (j_ID job)) as Gi. quietly G Eo. intros Hq ? [= <-]. right.
  split; [done|]. split; [done|]. intros t' th Ha. destruct (engaged th) eqn:Eth; [|done].
  assert (Hc : w_cancels w !! j_ID job = Some t') by (apply (gi_registry _ _ Gi); exists th; by destruct th).
  unfold isJobLive in Hl. rewrite Hc in Hl. by rewrite bool_decide_eq_true_2 in Hl.
Qed.

Lemma handler_good w t e w' th :
  good w → e_fault e = false → w_threads w !! t = Some th → carrier th = false → advance w t e = Some w' → good w'.
Proof.
  intros G Ef Eo Hc Ha. unfold advance in Ha. rewrite Eo in Ha. simpl in Ha.
  destruct th as [|id|job|job c|job|job c|job c row|job es|job|id|job|job|job|job why|job|job d|id|job]; try done.
  - destruct (dequeue_lock (w_queue w)) as [q [|id|]] eqn:Eq; try done. injection Ha as <-. by apply dequeue_good.
  - injection Ha as <-. eapply unregister_good; [done..|]. by left.
  - injection Ha as <-. by apply cancel_good.
  - rewrite Ef in Ha. destruct (store_graduate (w_store w) job [] (e_now e)) as [s' g] eqn:Eg. injection Ha as <-.
    destruct (graduate_effect _ _ _ _ _ _ (g_store _ G) Eg) as [Hs Hg]. destruct g; simpl.
    + eapply graduated_good; try done. by right.
    + destruct Hg as (Hn & Ht). pose proof (same_good w s' G Hs Ht) as G'. destruct Ht as [Er _].
      apply (exit_good _ t (Graduating job) G' Eo). unfold queued, row_status; simpl. by rewrite Er, Hn.
    + destruct Hg as [Hsu _]. assert (Hok : thread_ok w (j_ID job) (Graduating job)) by (by apply (gi_thread _ _ (g_id _ G _) t)).
      simpl in Hok. rewrite Hsu in Hok. naive_solver.
  - injection Ha as <-. destruct (cancelJob _ _) as [t'|].
    + by apply signal_good, (exit_good _ _ _ G Eo).
    + destruct d; [|by apply (exit_good _ _ _ G Eo)]. quietly G Eo.
  - injection Ha as <-. assert (Hg : queued w id → ∃ job, store_get (w_store w) id = Some job ∧ j_ID job = id ∧ j_Status job = JobQueued).
    { unfold queued, row_status, store_get. destruct (job_rows (w_store w) !! id) as [job|] eqn:E; [|done].
      intros [= Hst]. exists job. split; [done|]. split; [|done]. by apply (sg_rows _ (g_store _ G)). }
    assert (Hk : ∀ job, store_get (w_store w) id = Some job → j_ID job = id).
    { unfold store_get. intros job. destruct (job_rows (w_store w) !! id) eqn:E; [intros [= ->]|];
        [by apply (sg_rows _ (g_store _ G))|by apply (sg_runs _ (g_store _ G))]. }
    destruct (store_get (w_store w) id) as [job|] eqn:Esg; [case_decide|].
    + quietly G Eo.
    + apply (exit_good _ _ _ G Eo). naive_solver.
    + apply (exit_good _ _ _ G Eo). naive_solver.
  - injection Ha as <-. destruct (isJobLive (w_cancels w) (j_ID job)) eqn:El.
    + by apply (exit_good _ _ _ G Eo).
    + by apply reaping_good.
Qed.

Lemma advance_good w t e w' : good w → e_fault e = false → advance w t e = Some w' → good w'.
Proof.
  intros G Ef Ha. pose proof Ha as Ha2. unfold advance in Ha2. destruct (w_threads w !! t) as [th|] eqn:Eo; [|done]. clear Ha2.
  destruct (carrier th) eqn:Ec; [by eapply worker_good|by eapply handler_good].
Qed.

(** A new goroutine that only looked at a job. *)
Lemma arrived_good w t id th :
  good w → w_threads w !! t = None → id ≠ ""%string → job_of th = None ∨ job_of th = Some id →
  carrier th = false → registered th = false → (∀ i, th ≠ Leaving i) → thread_ok w id th → good (goto w t th).
Proof.
  intros G Eo Hid Hj Hc Hr Hl Hok. unfold goto. apply quiet_good with id; rewrite ?Eo; simpl; light.
  - rewrite Hc. done.
  - intros E. exfalso. revert Hc E. by destruct th.
  - intros E. exfalso. revert Hc E. by destruct th.
Qed.

Lemma submitted_good w s' t job g job' :
  good w → w_threads w !! t = None → unused w (j_ID job) → j_Status job = JobQueued →
  store_create (w_store w) job g = Ok (s', job') →
  good (put w s' (w_queue w) (w_cancels w) t (Some (Submitting job'))).
Proof.
  intros G Eo (Hid & Hrow & Hrun & Hp & Hc & Hno) Hst E. set (id := j_ID job) in *.
  destruct (create_law _ _ _ _ _ E) as (Hok & _ & Ei & Es & Er & Eu). fold id in Er, Ei.
  assert (Hstat : row_status (put w s' (w_queue w) (w_cancels w) t (Some (Submitting job'))) id = Some JobQueued ∧
                  run_status (put w s' (w_queue w) (w_cancels w) t (Some (Submitting job'))) id = None).
  { unfold row_status, run_status; simpl. rewrite Er, Eu, lookup_insert_eq, Hrun. simpl. by rewrite Es, Hst. }
  destruct Hstat as [Hq Hn].
  assert (Hun : unclaimed w id) by (intros t' th [H1 H2]; by apply (Hno t' th)).
  eapply (handover_good w _ t id None (Some (Submitting job')) G); [| |apply G].
  - split; simpl; try done; unfold queued, running, dead; rewrite ?Hq; try tauto; try naive_solver.
    + by rewrite lookup_partial_alter_eq.
    + apply touches_put; try done; [|intros id' Hne; by rewrite Er, Eu, lookup_insert_ne].
      intros th [E1|E1]; [congruence|]. injection E1 as <-. right. simpl. by rewrite Ei.
  - destruct (g_store _ G) as [H1 H2 H3]. split; simpl; [..|by apply Hok].
    + rewrite Er. intros i j [[<- <-]|[_ ?]]%lookup_insert_Some; [done|by apply H1].
    + by rewrite Eu.
Qed.

Lemma removed_good w t q id :
  good w → w_threads w !! t = None → Remove (w_queue w) id = (q, None) →
  good (put w (w_store w) q (w_cancels w) t (Some (Unqueued id))).
Proof.
  intros G Eo Eq. pose proof (g_id _ G id) as Gi.
  assert (Hid : id ≠ ""%string) by (intros ->; by unfold Remove in Eq).
  destruct (remove_effect (w_queue w) id (g_queue _ G)) as [Hq He].
  { intros Hp. by destruct (known_id w _ G (gi_ticket _ _ (g_id _ G _) Hp)). }
  rewrite Eq in Hq, He. simpl in *.
  apply (shared_good _ _ _ _ id _ _ G Eo Hq Hid); simpl; light_queue He.
  intros t'. destruct (decide (t' = t)) as [->|]; [|naive_solver]. rewrite (gi_registry _ _ Gi).
  split; [intros (th & [? _] & _); congruence|naive_solver].
Qed.

Lemma get_known w id job : good w → store_get (w_store w) id = Some job →
  j_ID job = id ∧ id ≠ ""%string ∧ (queued w id → j_Status job = JobQueued) ∧ (running w id → j_Status job = JobRunning).
Proof.
  intros G. unfold store_get, queued, running, row_status.
  destruct (job_rows (w_store w) !! id) as [row|] eqn:E; simpl.
  - intros [= ->]. destruct (sg_rows _ (g_store _ G) _ _ E). split_and!; try done; congruence.
  - intros Eu. by destruct (sg_runs _ (g_store _ G) _ _ Eu).
Qed.

Lemma row_get w id job : job_rows (w_store w) !! id = Some job → store_get (w_store w) id = Some job.
Proof. unfold store_get. by intros ->. Qed.

Lemma arrive_good w t r w' :
  good w → w_threads w !! t = None → (∀ job g, r = Submit job g → unused w (j_ID job) ∧ j_Status job = JobQueued) →
  arrive w t r = Some w' → good w'.
Proof.
  intros G Eo Hr Ha. destruct r as [job g|id|id|id|id cutoff|]; simpl in Ha;
    unfold createJob, handleCancelJob, cancelBatchJob, handleQueueRemove, reapStuckJob, startWorker in Ha.
  - destruct (store_create _ _ _) as [[s' job']|] eqn:E; [|done]. injection Ha as <-.
    destruct (Hr _ _ eq_refl). by eapply submitted_good.
  - destruct (store_get _ _) as [job|] eqn:E; [|done]. simpl in Ha. destruct (get_known _ _ _ G E) as (Hi & Hne & Hq & _).
    destruct (j_Status job) eqn:Es; try done; injection Ha as <-; apply (arrived_good _ _ id); simpl; try done;
      try (right; congruence). intros ?%Hq. congruence.
  - destruct (job_rows _ !! _) as [job|] eqn:E; [|done]. simpl in Ha.
    destruct (get_known _ _ _ G (row_get _ _ _ E)) as (Hi & Hne & Hq & _).
    destruct (j_Status job) eqn:Es; try done; injection Ha as <-; apply (arrived_good _ _ id); simpl; try done;
      try (right; congruence). intros ?%Hq. congruence.
  - destruct (Remove (w_queue w) id) as [q o] eqn:Eq. destruct o; [done|]. injection Ha as <-. by apply removed_good.
  - destruct (job_rows _ !! _) as [job|] eqn:E; [|done]. simpl in Ha.
    destruct (get_known _ _ _ G (row_get _ _ _ E)) as (Hi & Hne & Hq & _). case_decide as Hd; [|done]. injection Ha as <-.
    destruct Hd as [Es _]. apply (arrived_good _ _ id); simpl; try done; try (right; congruence). intros ?%Hq. congruence.
  - injection Ha as <-. apply (arrived_good _ _ "worker"); simpl; try done. by left.
Qed.

Lemma report_good w t p w' : good w → report w t p = Some w' → good w'.
Proof.
  intros G. unfold report. destruct (w_threads w !! t) as [th|] eqn:Eo; [|done]. destruct th as [| | | | |job c| | | | | | | | | | | |]; try done.
  destruct (store_get _ _) as [row|] eqn:E; [|done]. case_decide; [done|]. intros [= <-].
  destruct (get_known _ _ _ G E) as (Hi & Hne & _ & Hrun). quietly G Eo.
Qed.

Lemma set_queue_good w q :
  good w → queue_good q → (∀ id, id ∈ pending q ↔ id ∈ pending (w_queue w)) → good (set_queue w q).
Proof.
  intros G Hq Hp. split; [apply G|done|]. intros id. destruct (g_id _ G id). split; simpl; rewrite ?Hp; try done.
Qed.

Lemma Pause_effect q : queue_good q → queue_good (Pause q).1 ∧ pending (Pause q).1 = pending q.
Proof. intros [Ho Hn]. unfold Pause. rewrite Ho. by repeat split. Qed.

Lemma send_many_jobs k q : closed (send_many k q) = closed q ∧ pending (send_many k q) = pending q.
Proof.
  revert q. induction k as [|k IH]; intros q; simpl; [done|]. case_match; [|done].
  destruct (IH (send_notify q)) as [-> ->]. unfold send_notify, pending. by case_match.
Qed.

Lemma Resume_effect q : queue_good q → queue_good (Resume q).1 ∧ pending (Resume q).1 = pending q.
Proof.
  intros [Ho Hn]. unfold Resume. rewrite Ho. simpl. unfold signalAvailableLocked.
  assert (E : closed (set_paused q false) = false ∧ pending (set_paused q false) = pending q) by done.
  repeat case_match; try (destruct E; split; [split; congruence|done]).
  all: match goal with |- context [send_many ?k ?q] => destruct (send_many_jobs k q) as [E1 E2] end.
  all: destruct E as [E3 E4]; rewrite E2; split; [split; [by rewrite E1|by rewrite E2, E4]|done].
Qed.

Lemma Reorder_effect q ids :
  queue_good q → NoDup ids →
  queue_good (Reorder q ids).1 ∧ ∀ id, id ∈ pending (Reorder q ids).1 ↔ id ∈ pending q.
Proof.
  intros [Ho Hn] Hids. pose proof (reorder_distinct_iff q ids Ho Hn Hids) as Hspec.
  destruct (Reorder q ids) as [q' [e|]] eqn:E; simpl; [by destruct Hspec as [-> _]|].
  destruct Hspec as (_ & Hnorm & Hbatch).
  assert (Hp : pending q' ≡ₚ pending q) by (unfold pending; by rewrite Hnorm, Hbatch).
  split; [|intros id; by rewrite Hp]. split; [|by rewrite Hp].
  apply Reorder_ok_inv in E as (_ & _ & _ & ->). case_match; [done|]. unfold signalAvailableLocked.
  case_match; [done|]. by match goal with |- context [send_many ?k ?q] => destruct (send_many_jobs k q) as [-> _] end.
Qed.

Lemma step_good w w' : step false w w' → good w → good w'.
Proof.
  intros Hst G. destruct Hst as [w w' [w1 t e w1' Hf Ha]|w t r w' Eo Hr Ha|w t p w' Ha|w t|w t w' Ha|w|w|w ids Hids].
  - eapply advance_good; [done| |done]. destruct (e_fault e); [by discriminate Hf|done].
  - by eapply arrive_good.
  - by eapply report_good.
  - by apply signal_good.
  - unfold retire in Ha. destruct (w_threads w !! t) as [th|] eqn:Eo; [|done]. destruct th; try done. injection Ha as <-.
    unfold exit. apply quiet_good with "worker"; rewrite ?Eo; simpl; try done. intros th [[= <-]|?]; [by left|done].
  - destruct (Pause_effect _ (g_queue _ G)) as [? E]. apply set_queue_good; [done..|]. intros id. by rewrite E.
  - destruct (Resume_effect _ (g_queue _ G)) as [? E]. apply set_queue_good; [done..|]. intros id. by rewrite E.
  - destruct (decide (NoDup ids)) as [Hn|Hn]; [|by discriminate (Hids Hn)].
    destruct (Reorder_effect _ ids (g_queue _ G) Hn). by apply set_queue_good.
Qed.

Lemma steps_good w w' : rtc (step false) w w' → good w → good w'.
Proof. induction 1; [done|]. eauto using step_good. Qed.
End invariant.
