(* ===== verification/LifecycleFacts.v ===== *)
(** * What holds of a job on its way through the server

    From the invariant of [LifecycleInvariant.v]: no job is lost, one worker runs it, what is
    registered is what can be canceled, the reaper spares what runs, a result is recorded
    once, the queue drains.  Then what the code does not do: traces of [Lifecycle.v] that
    end where they should not. *)

From S2P Require Import Prelude GoStrings Scoring Store JobQueue Lifecycle LifecycleInvariant.

Local Open Scope list_scope.

Section facts.
Context {S X N C : Type} {JS : JobStore S X N C} {JL : @JobStoreLaws S X N C JS}.
Implicit Types (w : world S X N C) (th : thread X N C) (job : Job N C) (id : string) (t : nat).

(** ** Where the server starts *)

(** The store is consistent, what it has queued is in the queue, and nothing runs. *)
Record start_ok (s : S) (rows : list (string * Z)) : Prop := {
  so_store : store_good s;
  so_once : ∀ id, job_rows s !! id = None ∨ run_rows s !! id = None;
  so_runs : ∀ id run, run_rows s !! id = Some run → isTerminalStatus (j_Status run) = true;
  so_rows : NoDup rows.*1;
  so_queued : ∀ id, id ∈ rows.*1 ↔ ∃ job, job_rows s !! id = Some job ∧ j_Status job = JobQueued;
  so_running : ∀ id job, job_rows s !! id = Some job → j_Status job ≠ JobRunning
}.

Lemma enqueue_all_effect rows q :
  queue_good q → NoDup rows.*1 → (∀ id, id ∈ rows.*1 → id ∉ pending q) →
  queue_good (enqueue_all q rows) ∧ ∀ id, id ∈ pending (enqueue_all q rows) ↔ id ∈ rows.*1 ∨ id ∈ pending q.
Proof.
  revert q. induction rows as [|[id p] rows IH]; intros q Hq Hn Hd; simpl; [split; [done|set_solver]|].
  apply NoDup_cons in Hn as [Hid Hn]. simpl in *.
  destruct (enqueue_effect q id p Hq) as [Hq' He]; [apply Hd; by left|].
  destruct (IH (Enqueue q id p).1 Hq' Hn) as [Hg Hp].
  { intros id' Hin. rewrite He. intros [->|Hp]; [done|]. apply (Hd id'); [by right|done]. }
  split; [done|]. intros id'. rewrite Hp, He. set_solver.
Qed.

Lemma start_threads (s : S) rows n t th : w_threads (start s rows n : world S X N C) !! t = Some th → th = Idle.
Proof.
  simpl. intros Hin%elem_of_list_to_map_2. apply list_elem_of_fmap in Hin as (t' & [= _ ->] & _). done.
Qed.

Lemma start_good_world s rows n : start_ok s rows → good (start s rows n : world S X N C).
Proof.
  intros [Hs Ho _ Hn Hq Hr]. destruct (enqueue_all_effect rows NewInMemoryQueue) as [Hg Hp]; [|done|set_solver|].
  { split; [done|constructor]. }
  assert (Hno : ∀ id t th, ¬ at_ (start s rows n) t th id) by (intros id t th [->%start_threads ?]; done).
  split; [done|done|]. intros id.
  assert (Hqd : queued (start s rows n : world S X N C) id ↔ id ∈ pending (enqueue_all NewInMemoryQueue rows)).
  { simpl. rewrite Hp, Hq. unfold queued, row_status; simpl. unfold pending; simpl.
    split.
    - destruct (job_rows s !! id) as [job|]; [|done]. intros [= E]. left. by exists job.
    - intros [(job & -> & E)|Hin]; [|by apply elem_of_nil in Hin]. simpl. by rewrite E. }
  split; simpl.
  - intros t th []%Hno.
  - unfold run_status, gone, row_status; simpl. destruct (Ho id) as [->| ->]; [by right|by left].
  - intros Hin. left. by apply Hqd.
  - intros _ t th []%Hno.
  - intros t th t' th' []%Hno.
  - intros t th []%Hno.
  - intros t. rewrite lookup_empty. split; [done|]. intros (th & []%Hno & _).
  - intros t t' th []%Hno.
  - intros Hin%Hqd. by left.
  - unfold running, row_status; simpl. destruct (job_rows s !! id) as [job|] eqn:E; [|done].
    intros [= Hst]. by destruct (Hr _ _ E).
Qed.

Lemma reachable_good s rows n w : start_ok s rows → rtc (step false) (start s rows n) w → good w.
Proof. intros Hs Hr. by eapply steps_good, start_good_world. Qed.

(** ** Jobs *)

(** C4: no job is lost, and none is run twice, as long as no access to the store fails and no
    administrator orders the queue by a list that repeats a job.  At every moment a job that the store has
    as queued is in the queue or in the hands of one goroutine that will queue, run or cancel
    it, and a job that the store has as running is in the hands of a worker that has not yet
    graduated it; no job is in the queue twice, or in the queue and with a worker, or with
    two workers. *)
Theorem jobs_accounted s rows n w id :
  start_ok s rows → rtc (step false) (start s rows n) w →
  (queued w id → id ∈ pending (w_queue w) ∨ ∃ t th, at_ w t th id ∧ waits th = true) ∧
  (running w id → ∃ t th, at_ w t th id ∧ runs_job th = true) ∧
  NoDup (pending (w_queue w)) ∧
  (∀ t th, at_ w t th id → carrier th = true → (id ∉ pending (w_queue w)) ∧
     ∀ t' th', at_ w t' th' id → carrier th' = true → t' = t).
Proof.
  intros Hs Hr. pose proof (reachable_good _ _ _ _ Hs Hr) as G. pose proof (g_id _ G id) as Gi.
  split_and!; [apply Gi|apply Gi|apply G|]. intros t th Ha Hc. split.
  - intros Hp. by rewrite (gi_pending _ _ Gi Hp _ _ Ha) in Hc.
  - intros t' th' Ha' Hc'. by apply (gi_carrier _ _ Gi _ _ _ _ Ha' Ha).
Qed.

(** C27: the registry of cancel functions is exact, as long as no access to the store fails
    and no administrator orders the queue by a list that repeats a job.  It has a function for a job exactly
    while a worker is between registering the job and leaving it, and it is the function of
    that worker. *)
Theorem registry_exact s rows n w id t :
  start_ok s rows → rtc (step false) (start s rows n) w →
  w_cancels w !! id = Some t ↔ ∃ th, at_ w t th id ∧ registered th = true.
Proof. intros Hs Hr. apply (g_id _ (reachable_good _ _ _ _ Hs Hr) id). Qed.

(** C29: the reaper spares the jobs that run, as long as no access to the store fails and no
    administrator orders the queue by a list that repeats a job.  When it is about to graduate a job as
    abandoned, no engine is running for that job, and none will be: its graduation does not
    end the work of a live worker, however slow. *)
Theorem reaper_spares_running s rows n w t job :
  start_ok s rows → rtc (step false) (start s rows n) w →
  w_threads w !! t = Some (Graduating job) → j_Status job = JobFailed →
  ¬ queued w (j_ID job) ∧ ∀ t' th, at_ w t' th (j_ID job) → engaged th = false.
Proof.
  intros Hs Hr Ht Hf. pose proof (reachable_good _ _ _ _ Hs Hr) as G.
  destruct (gi_thread _ _ (g_id _ G (j_ID job)) t (Graduating job)) as [Hc|(_ & ? & ?)]; [done| |done].
  congruence.
Qed.

(** ** Results *)

(** What one access of a goroutine does to the store. *)
Definition graduates th job : Prop := (∃ es, th = Ended job es) ∨ th = Graduating job.

Lemma advance_store w t e w' :
  advance w t e = Some w' →
  w_store w' = w_store w ∨ (∃ job, store_update (w_store w) job = Ok (w_store w')) ∨
  ∃ th job es g, w_threads w !! t = Some th ∧ graduates th job ∧
    store_graduate (w_store w) job es (e_now e) = (w_store w', g).
Proof.
  unfold advance. destruct (w_threads w !! t) as [th|] eqn:Eo; [|done]. simpl. intros Ha.
  assert (Hup : ∀ job, w_store w = default (w_store w) (try_update w e job) ∨
                       ∃ job', store_update (w_store w) job' = Ok (default (w_store w) (try_update w e job))).
  { intros job. destruct (try_update w e job) as [s|] eqn:E; [right|by left]. exists job. simpl. by apply try_update_ok with e. }
  destruct th as [|id|job|job c|job|job c|job c row|job es|job|id|job|job|job|job why|job|job d|id|job]; simplify_eq; try by left.
  - destruct (dequeue_lock _) as [q [|id|]]; simplify_eq. by left.
  - destruct (try_update w e _) as [s|] eqn:E; [right; left|by left]. apply try_update_ok in E. by eexists; exact E.
  - destruct (Hup row) as [?|?]; [by left|right; by left].
  - destruct (e_fault e); simplify_eq; [by left|]. destruct (store_graduate _ _ _ _) as [s g] eqn:E; simplify_eq.
    right. right. exists (Ended job es), job, es, g. split; [done|]. split; [left; by eexists|done].
  - destruct (Hup (failed job (e_reason e) (e_now e))) as [?|[? ?]]; [by left|right; left; by eexists].
  - destruct (Hup (failed job (e_reason e) (e_now e))) as [?|[? ?]]; [by left|right; left; by eexists].
  - destruct (e_fault e); simplify_eq; [by left|]. right. right. exists (Graduating job), job, [].
    destruct (store_graduate _ _ _ _) as [s g] eqn:E. exists g. split; [done|]. split; [by right|done].
  - left. by repeat case_match.
  - left. by repeat case_match.
  - left. by case_match.
Qed.

(** The same for the tables: of the job of the goroutine and of any other. *)
Lemma advance_tables w t e w' id :
  advance w t e = Some w' →
  ((gone w' id ↔ gone w id) ∧ run_rows (w_store w') !! id = run_rows (w_store w) !! id) ∨
  ∃ th job run, w_threads w !! t = Some th ∧ graduates th job ∧ j_ID job = id ∧ ¬ gone w id ∧ gone w' id ∧
    run_rows (w_store w') !! id = Some run ∧ j_Status run = j_Status job.
Proof using JL.
  intros Ha. unfold gone, row_status.
  destruct (advance_store _ _ _ _ Ha) as [->|[(job & E)|(th & job & es & g & Ht & Hg & E)]]; [by left|left|].
  - pose proof (update_law (w_store w) job) as L. rewrite E in L.
    destruct (job_rows (w_store w) !! j_ID job) as [old|] eqn:Eo; [|by destruct L].
    destruct L as (s' & [= <-] & _ & -> & ->). split; [|done].
    destruct (decide (id = j_ID job)) as [->|Hne]; [by rewrite lookup_insert_eq, Eo|by rewrite lookup_insert_ne].
  - apply graduate_law in E as [_ L]. destruct g; [|by destruct L as (_ & -> & ->); left..].
    destruct L as ([old Eo] & -> & run & -> & Hid & Hst). destruct (decide (id = j_ID job)) as [->|Hne].
    + right. exists th, job, run. rewrite lookup_delete_eq, lookup_insert_eq, Eo. by split_and!.
    + left. by rewrite lookup_delete_ne, lookup_insert_ne.
Qed.

(** A goroutine graduates a job with a final status. *)
Definition final th : Prop := ∀ job, graduates th job → isTerminalStatus (j_Status job) = true.
Definition all_final w : Prop := ∀ t th, w_threads w !! t = Some th → final th.

Lemma put_final w s q cs t new : all_final w → from_option final True new → all_final (put w s q cs t new).
Proof.
  intros Hw Hn t' th. simpl. destruct (decide (t' = t)) as [->|Hne].
  - rewrite lookup_partial_alter_eq. by intros ->.
  - rewrite lookup_partial_alter_ne by done. apply Hw.
Qed.

Lemma plain_final th :
  match th with Ended _ _ | Graduating _ => False | _ => True end → final th.
Proof. intros Hth job [[es ->]| ->]; done. Qed.
Lemma graduating_final job : isTerminalStatus (j_Status job) = true → final (Graduating job).
Proof. intros Hst job' [[es ?]|[= <-]]; done. Qed.
Lemma ended_final job es : isTerminalStatus (j_Status job) = true → final (Ended job es).
Proof. intros Hst job' [[es' [= <- _]]|?]; done. Qed.

Lemma signal_final w f t : all_final w → all_final (signal w f t).
Proof.
  intros Hw t' th. simpl. destruct (decide (t' = t)) as [->|Hne]; [|rewrite lookup_alter_ne by done; apply Hw].
  rewrite lookup_alter_eq. destruct (w_threads w !! t) as [th0|] eqn:E; [|done]. simpl. intros [= <-].
  specialize (Hw _ _ E). destruct th0; try done; by apply plain_final.
Qed.

Ltac final_step :=
  apply put_final; [done|simpl; first [done|by apply plain_final|by apply graduating_final|apply ended_final, ended_job]].

Lemma advance_final w t e w' : all_final w → advance w t e = Some w' → all_final w'.
Proof.
  intros Hw. unfold advance. destruct (w_threads w !! t) as [th|] eqn:Eo; [|done]. simpl. intros Ha.
  destruct th as [|id|job|job c|job|job c|job c row|job es|job|id|job|job|job|job why|job|job d|id|job]; simplify_eq;
    unfold goto, exit, park, load in *; repeat case_match; simplify_eq; try apply signal_final; final_step.
Qed.

(** What holds of the results, whatever fails. *)
Record recorded w : Prop := {
  rc_once : ∀ id, run_rows (w_store w) !! id = None ∨ gone w id;
  rc_final : ∀ id run, run_rows (w_store w) !! id = Some run → isTerminalStatus (j_Status run) = true;
  rc_threads : all_final w
}.

Lemma arrive_recorded w t r w' :
  (∀ job g, r = Submit job g → unused w (j_ID job) ∧ j_Status job = JobQueued) →
  arrive w t r = Some w' → recorded w → recorded w' ∧ run_rows (w_store w') = run_rows (w_store w).
Proof using JL.
  intros Hr Ha [H1 H2 H3].
  assert (Hcase : w_store w' = w_store w ∨ ∃ job g s job', r = Submit job g ∧ store_create (w_store w) job g = Ok (s, job') ∧ w_store w' = s).
  { destruct r as [job g|id|id|id|id cutoff|]; simpl in Ha; unfold createJob, handleCancelJob, cancelBatchJob, handleQueueRemove, reapStuckJob, startWorker in Ha;
    [destruct (store_create _ _ _) as [[s job']|] eqn:E; [|done];
      right; injection Ha as <-; by eexists _, _, _, _| left..]; unfold mbind, option_bind in Ha; repeat case_match; simplify_eq; done. }
  assert (Hf : all_final w').
  { destruct r as [job g|id|id|id|id cutoff|]; simpl in Ha; unfold createJob, handleCancelJob, cancelBatchJob, handleQueueRemove, reapStuckJob, startWorker in Ha; unfold goto, mbind, option_bind in Ha; repeat case_match; simplify_eq; final_step. }
  destruct Hcase as [E|(job & g & s & job' & -> & E & <-)].
  - rewrite E. split; [|done]. split; unfold gone, row_status; rewrite ?E; done.
  - apply create_law in E as (_ & _ & _ & _ & Er & Eu). destruct (Hr _ _ eq_refl) as [(_ & _ & Hn & _) _].
    rewrite Eu. split; [|done]. split; unfold gone, row_status; rewrite ?Er, ?Eu; try done.
    intros id. destruct (decide (id = j_ID job)) as [->|Hne]; [by left|]. rewrite lookup_insert_ne by done. apply H1.
Qed.

Lemma advance_recorded w t e w' :
  advance w t e = Some w' → recorded w → recorded w' ∧
  ∀ id run, run_rows (w_store w) !! id = Some run → run_rows (w_store w') !! id = Some run.
Proof using JL.
  intros Ha [H1 H2 H3]. split; [split|].
  - intros i. destruct (advance_tables _ _ _ _ i Ha) as [[Hg ->]|(_ & _ & _ & _ & _ & _ & _ & Hg & _)]; [|by right].
    rewrite Hg. apply H1.
  - intros i r Hi. destruct (advance_tables _ _ _ _ i Ha) as [[_ E]|(th & job & r' & Ht & Hg & _ & _ & _ & Er & Es)].
    + rewrite E in Hi. by apply (H2 i).
    + rewrite Er in Hi. injection Hi as <-. rewrite Es. by apply (H3 t th).
  - by apply (advance_final w t e).
  - intros id run Hi. destruct (advance_tables _ _ _ _ id Ha) as [[_ ->]|(_ & _ & _ & _ & _ & _ & Hn & _)]; [done|].
    destruct (H1 id); [congruence|done].
Qed.

Lemma step_recorded fault w w' :
  step fault w w' → recorded w → recorded w' ∧
  ∀ id run, run_rows (w_store w) !! id = Some run → run_rows (w_store w') !! id = Some run.
Proof using JL.
  intros Hst R. destruct Hst as [w w' [w1 t e w1' _ Ha]|w t r w' _ Hr Ha|w t p w' Ha|w t|w t w' Ha|w|w|w ids _].
  - by eapply advance_recorded.
  - destruct (arrive_recorded _ _ _ _ Hr Ha R) as [? ->]. done.
  - unfold report, goto in Ha. repeat case_match; simplify_eq. split; [|done]. destruct R. split; try done. final_step.
  - split; [|done]. destruct R. split; try done. by apply signal_final.
  - unfold retire, exit in Ha. repeat case_match; simplify_eq. split; [|done]. destruct R. split; try done. final_step.
  - split; [|done]. by destruct R.
  - split; [|done]. by destruct R.
  - split; [|done]. by destruct R.
Qed.

Lemma steps_recorded fault w w' :
  rtc (step fault) w w' → recorded w → recorded w' ∧
  ∀ id run, run_rows (w_store w) !! id = Some run → run_rows (w_store w') !! id = Some run.
Proof using JL.
  induction 1 as [|w1 w2 w3 H1 _ IH]; [done|]. intros R.
  destruct (step_recorded _ _ _ H1 R) as [R2 ?]. destruct (IH R2). eauto.
Qed.

Lemma start_recorded s rows n : start_ok s rows → recorded (start s rows n : world S X N C).
Proof.
  intros Hs. split; simpl.
  - intros id. unfold gone, row_status; simpl. destruct (so_once _ _ Hs id) as [->|?]; [by right|by left].
  - apply Hs.
  - intros t th ->%start_threads. by apply plain_final.
Qed.

(** C28: a result is recorded once.  Whatever accesses of the workers, of the handlers that
    create, cancel, remove and order jobs and of the reaper follow, failed ones included, a run that is in the store stays as it is, it has a final
    status, and the job it came from is not in the store any more and does not come back. *)
Theorem result_once fault s rows n w w' id run :
  start_ok s rows → rtc (step fault) (start s rows n) w → rtc (step fault) w w' →
  run_rows (w_store w) !! id = Some run →
  run_rows (w_store w') !! id = Some run ∧ isTerminalStatus (j_Status run) = true ∧ job_rows (w_store w') !! id = None.
Proof.
  intros Hs Hr Hr' Hrun.
  destruct (steps_recorded _ _ _ Hr) as [R _]; [by apply start_recorded|].
  destruct (steps_recorded _ _ _ Hr' R) as [R' Hk]. specialize (Hk _ _ Hrun).
  split; [done|]. split; [by apply (rc_final _ R id)|]. destruct (rc_once _ R' id) as [?|Hg]; [congruence|].
  unfold gone, row_status in Hg. by destruct (job_rows (w_store w') !! id).
Qed.

(** ** The queue drains *)

(** The accesses left for a job in the queue: many for one that is in the store, few for one
    that was canceled. *)
Definition ticket_weight (s : S) id : nat := match job_rows s !! id with Some _ => 12 | None => 3 end.

Definition weight (s : S) th : nat :=
  match th with
  | Idle => 0
  | Dequeued id => ticket_weight s id - 1
  | Loaded _ => 10 | Registered _ _ => 9 | Requeue _ => 8 | Progress _ _ _ => 8 | Engine _ _ => 7
  | Ended _ _ => 6 | Failing _ => 5 | Panicked _ => 5 | Recovering _ => 4 | Leaving _ => 1
  | Submitting job => ticket_weight s (j_ID job) + 1
  | Canceling _ _ => 3 | Interrupting _ _ => 3 | Unqueued _ => 3 | Reaping _ => 3 | Graduating _ => 2
  end.

Definition threads_weight (s : S) (m : gmap nat (thread X N C)) : nat := map_fold (λ _ th n, weight s th + n) 0 m.
Definition queue_weight (s : S) (ids : list string) : nat := sum_list_with (ticket_weight s) ids.
Definition world_weight w : nat :=
  threads_weight (w_store w) (w_threads w) + queue_weight (w_store w) (pending (w_queue w)).

Lemma threads_weight_insert s m t th :
  m !! t = None → threads_weight s (<[t := th]> m) = weight s th + threads_weight s m.
Proof. intros Hm. unfold threads_weight. rewrite map_fold_insert_L; [done|intros; cbn beta; lia|done]. Qed.

Lemma threads_weight_delete s m t :
  threads_weight s m = from_option (weight s) 0 (m !! t) + threads_weight s (delete t m).
Proof.
  destruct (m !! t) as [th|] eqn:E; simpl.
  - rewrite <- (insert_delete_id m t th E) at 1. by rewrite threads_weight_insert by apply lookup_delete_eq.
  - by rewrite delete_id.
Qed.

Lemma threads_weight_put s m t o :
  threads_weight s (partial_alter (λ _, o) t m) + from_option (weight s) 0 (m !! t) =
  threads_weight s m + from_option (weight s) 0 o.
Proof.
  rewrite (threads_weight_delete s m t), (threads_weight_delete s (partial_alter _ _ _) t), lookup_partial_alter_eq.
  assert (E : delete t (partial_alter (λ _, o) t m) = delete t m).
  { apply map_eq. intros i. destruct (decide (i = t)) as [->|]; [by rewrite !lookup_delete_eq|].
    by rewrite !lookup_delete_ne, lookup_partial_alter_ne. }
  rewrite E. lia.
Qed.

Lemma threads_weight_mono s s' m :
  (∀ id, ticket_weight s' id ≤ ticket_weight s id) → threads_weight s' m ≤ threads_weight s m.
Proof.
  intros H. induction m as [|t th m Hm IH] using map_ind; [done|]. rewrite !threads_weight_insert by done.
  assert (weight s' th ≤ weight s th); [|lia]. destruct th; simpl; try lia.
  - specialize (H id). lia.
  - specialize (H (j_ID job)). lia.
Qed.

Lemma queue_weight_mono s s' ids :
  (∀ id, ticket_weight s' id ≤ ticket_weight s id) → queue_weight s' ids ≤ queue_weight s ids.
Proof. intros H. unfold queue_weight. induction ids as [|id ids IH]; simpl; [done|]. specialize (H id). lia. Qed.

Lemma signal_weight w f t : world_weight (signal w f t) = world_weight w.
Proof.
  unfold world_weight; simpl. f_equal. set (m := w_threads w).
  assert (E : alter (set_ctx f) t m = partial_alter (λ _, set_ctx f <$> m !! t) t m).
  { apply map_eq. intros i. destruct (decide (i = t)) as [->|].
    - by rewrite lookup_alter_eq, lookup_partial_alter_eq.
    - by rewrite lookup_alter_ne, lookup_partial_alter_ne. }
  rewrite E. pose proof (threads_weight_put (w_store w) m t (set_ctx f <$> m !! t)) as H.
  destruct (m !! t) as [th|]; simpl in *; [|lia].
  assert (weight (w_store w) (set_ctx f th) = weight (w_store w) th) by (by destruct th). lia.
Qed.

(** A step weighs less after than before. *)
Lemma put_weight w s q cs t th new :
  w_threads w !! t = Some th →
  (∀ id, ticket_weight s id ≤ ticket_weight (w_store w) id) →
  queue_weight s (pending q) + from_option (weight s) 0 new <
    queue_weight s (pending (w_queue w)) + weight s th →
  world_weight (put w s q cs t new) < world_weight w.
Proof.
  intros E Hs Hlt. unfold world_weight; simpl.
  pose proof (threads_weight_put s (w_threads w) t new) as H. rewrite E in H. simpl in H.
  pose proof (threads_weight_mono _ _ (w_threads w) Hs). pose proof (queue_weight_mono _ _ (pending (w_queue w)) Hs). lia.
Qed.

Lemma queue_weight_add s q q' id :
  NoDup (pending q) → NoDup (pending q') → id ∉ pending q → (∀ id', id' ∈ pending q' ↔ id' = id ∨ id' ∈ pending q) →
  queue_weight s (pending q') = ticket_weight s id + queue_weight s (pending q).
Proof.
  intros Hn Hn' Hid Hq. unfold queue_weight.
  assert (Hp : pending q' ≡ₚ id :: pending q).
  { apply NoDup_Permutation; [done|by constructor|]. intros id'. by rewrite Hq, elem_of_cons. }
  by rewrite Hp.
Qed.

Lemma queue_weight_remove s q q' id :
  NoDup (pending q) → NoDup (pending q') → (∀ id', id' ∈ pending q' ↔ id' ≠ id ∧ id' ∈ pending q) →
  queue_weight s (pending q') + (if decide (id ∈ pending q) then ticket_weight s id else 0) = queue_weight s (pending q).
Proof.
  intros Hn Hn' Hq. destruct (decide (id ∈ pending q)) as [Hid|Hid].
  - rewrite (queue_weight_add s q' q id); [lia|done..| |]; [rewrite Hq; tauto|].
    intros id'. rewrite Hq. destruct (decide (id' = id)); naive_solver.
  - unfold queue_weight. assert (Hp : pending q' ≡ₚ pending q) by (apply NoDup_Permutation; naive_solver).
    rewrite Hp. lia.
Qed.

Lemma ticket_positive s id : 3 ≤ ticket_weight s id.
Proof. unfold ticket_weight. case_match; lia. Qed.

Lemma updated_weight s s' job id : store_update s job = Ok s' → ticket_weight s' id = ticket_weight s id.
Proof using JL.
  intros E. pose proof (update_law s job) as L. rewrite E in L.
  destruct (job_rows s !! j_ID job) as [old|] eqn:Eo; [|by destruct L].
  destruct L as (? & [= <-] & _ & Er & _). unfold ticket_weight. rewrite Er.
  destruct (decide (id = j_ID job)) as [->|]; [by rewrite lookup_insert_eq, Eo|by rewrite lookup_insert_ne].
Qed.

Lemma try_updated_weight w e job id :
  ticket_weight (default (w_store w) (try_update w e job)) id = ticket_weight (w_store w) id.
Proof using JL.
  destruct (try_update w e job) as [s|] eqn:E; [|done]. apply try_update_ok in E. simpl. by eapply updated_weight.
Qed.

Lemma graduated_weight s job es now s' g id :
  store_graduate s job es now = (s', g) → ticket_weight s' id ≤ ticket_weight s id.
Proof using JL.
  intros [_ L]%graduate_law. unfold ticket_weight. destruct g; [|by destruct L as (_ & -> & _)..].
  destruct L as (_ & -> & _). destruct (decide (id = j_ID job)) as [->|]; [|by rewrite lookup_delete_ne].
  rewrite lookup_delete_eq. case_match; lia.
Qed.

Lemma queue_weight_ext s s' ids :
  (∀ id, ticket_weight s' id = ticket_weight s id) → queue_weight s' ids = queue_weight s ids.
Proof. intros H. unfold queue_weight. induction ids as [|id ids IH]; simpl; [done|]. rewrite H. lia. Qed.

(** The same when the queue stays. *)
Lemma put_store_weight w s cs t th new :
  w_threads w !! t = Some th → (∀ id, ticket_weight s id ≤ ticket_weight (w_store w) id) →
  from_option (weight s) 0 new < weight s th →
  world_weight (put w s (w_queue w) cs t new) < world_weight w.
Proof. intros E Hs Hlt. apply put_weight with th; [done|done|lia]. Qed.

Lemma enqueue_weight w t id p new th :
  good w → id ∉ pending (w_queue w) → w_threads w !! t = Some th →
  ticket_weight (w_store w) id + from_option (weight (w_store w)) 0 new < weight (w_store w) th →
  world_weight (put w (w_store w) (Enqueue (w_queue w) id p).1 (w_cancels w) t new) < world_weight w.
Proof.
  intros G Hid E Hlt. destruct (enqueue_effect (w_queue w) id p (g_queue _ G) Hid) as [Hq He].
  apply put_weight with th; [done|done|]. rewrite (queue_weight_add _ (w_queue w) _ id); [lia|apply G|apply Hq|done|done].
Qed.

Lemma carrier_pending w t th id : good w → at_ w t th id → carrier th = true → id ∉ pending (w_queue w).
Proof. intros G Ha Hc Hp. by rewrite (gi_pending _ _ (g_id _ G id) Hp _ _ Ha) in Hc. Qed.

Lemma dequeue_weight w t q id :
  good w → w_threads w !! t = Some Idle → dequeue_lock (w_queue w) = (q, DqJob id) →
  world_weight (put w (w_store w) q (w_cancels w) t (Some (Dequeued id))) < world_weight w.
Proof.
  intros G Eo E. destruct (dequeue_effect _ _ _ E (g_queue _ G)) as (Hin & Hq & Hp).
  apply put_weight with Idle; [done|done|]. simpl.
  pose proof (queue_weight_remove (w_store w) (w_queue w) q id) as Hw. rewrite decide_True in Hw by done.
  rewrite <- Hw; [|apply G|apply Hq|done]. pose proof (ticket_positive (w_store w) id). lia.
Qed.

Lemma cancel_weight w t job why new :
  good w → w_threads w !! t = Some (Canceling job why) → from_option (weight (w_store w)) 0 new < 3 →
  world_weight (put w (w_store w) (Remove (w_queue w) (j_ID job)).1 (w_cancels w) t new) < world_weight w.
Proof.
  intros G Eo Hn. destruct (remove_effect (w_queue w) (j_ID job) (g_queue _ G)) as [Hq He].
  { intros Hp. by destruct (known_id w _ G (gi_ticket _ _ (g_id _ G _) Hp)). }
  apply put_weight with (Canceling job why); [done|done|]. simpl.
  rewrite <- (queue_weight_remove (w_store w) (w_queue w) (Remove (w_queue w) (j_ID job)).1 (j_ID job));
    [lia|apply G|apply Hq|done].
Qed.

Lemma load_weight w t id :
  good w → w_threads w !! t = Some (Dequeued id) →
  world_weight (goto w t (load (store_get (w_store w) id))) < world_weight w.
Proof.
  intros G Eo. apply (put_store_weight _ _ _ _ _ _ Eo); [done|]. pose proof (ticket_positive (w_store w) id).
  destruct (load_cases _ _ _ G Eo) as [[Hq (job & -> & _)]|[_ ->]]; simpl; [|lia].
  unfold queued, row_status, ticket_weight in *. destruct (job_rows (w_store w) !! id); [lia|done].
Qed.

Lemma signaled_weight w t th t' :
  w_threads w !! t = Some th → 0 < weight (w_store w) th →
  world_weight (signal (exit w t) cancel_ctx t') < world_weight w.
Proof. intros E Hw. rewrite signal_weight. by apply (put_store_weight _ _ _ _ _ _ E). Qed.

(** Every access of a goroutine is one less to go. *)
Lemma work_weight w t e w' :
  good w → e_fault e = false → advance w t e = Some w' → world_weight w' < world_weight w.
Proof.
  intros G Ef Ha. unfold advance in Ha. destruct (w_threads w !! t) as [th|] eqn:Eo; [|done]. simpl in Ha.
  assert (Hu : ∀ job id, ticket_weight (default (w_store w) (try_update w e job)) id ≤ ticket_weight (w_store w) id)
    by (intros; by rewrite try_updated_weight).
  destruct th as [|id|job|job c|job|job c|job c row|job es|job|id|job|job|job|job why|job|job d|id|job]; simplify_eq;
    unfold park; try (apply (put_store_weight _ _ _ _ _ _ Eo); [done|simpl; lia]).
  - destruct (dequeue_lock _) as [q [|id|]] eqn:E; simplify_eq. by apply dequeue_weight.
  - by apply load_weight.
  - destruct (try_update w e _) as [s|] eqn:E; apply (put_store_weight _ _ _ _ _ _ Eo); simpl; try lia; try done.
    intros id. apply try_update_ok in E. by rewrite (updated_weight _ _ _ _ E).
  - assert (Hd : dead w (j_ID job)) by (by apply (gi_thread _ _ (g_id _ G _) t (Requeue job))).
    apply enqueue_weight with (Requeue job); [done|by apply (carrier_pending _ t (Requeue job))|done|].
    destruct Hd as [Hg _]. unfold gone, row_status, ticket_weight in *. simpl.
    destruct (job_rows (w_store w) !! j_ID job); [done|]. lia.
  - rewrite Ef in Ha. destruct (store_graduate _ _ _ _) as [s g] eqn:E; simplify_eq.
    apply (put_store_weight _ _ _ _ _ _ Eo); [intros id; by eapply graduated_weight|]. destruct g; simpl; lia.
  - apply enqueue_weight with (Submitting job); [done|by apply (carrier_pending _ t (Submitting job))|done|]. simpl. lia.
  - apply cancel_weight with why; [done|done|simpl; lia].
  - rewrite Ef. destruct (store_graduate _ _ _ _) as [s g] eqn:E. apply (put_store_weight _ _ _ _ _ _ Eo); [|simpl; lia].
    intros id. by eapply graduated_weight.
  - destruct (cancelJob _ _); [apply (signaled_weight _ _ _ _ Eo); simpl; lia|].
    destruct d; apply (put_store_weight _ _ _ _ _ _ Eo); simpl; try lia; done.
  - repeat case_match; apply (put_store_weight _ _ _ _ _ _ Eo); simpl; try lia; done.
  - case_match; apply (put_store_weight _ _ _ _ _ _ Eo); simpl; try lia; done.
Qed.

(** *** Where the work stops *)

(** A goroutine of the pool. *)
Definition worker th : bool :=
  match th with
  | Submitting _ | Canceling _ _ | Graduating _ | Interrupting _ _ | Unqueued _ | Reaping _ => false
  | _ => true
  end.
Definition has_worker w : Prop := ∃ t th, w_threads w !! t = Some th ∧ worker th = true.

Lemma work_good w w' : work false w w' → good w → good w'.
Proof. intros H. apply step_good. by apply step_work. Qed.

Lemma work_terminates w : good w → sn (work false) w.
Proof.
  remember (world_weight w) as n eqn:En. revert w En. induction (lt_wf n) as [n _ IH]; intros w -> G.
  constructor. intros w' Hw. eapply (IH (world_weight w')); [|done|by eapply work_good].
  destruct Hw as [w t e w' Hf Ha]. eapply work_weight; [done| |done]. destruct (e_fault e); [by discriminate Hf|done].
Qed.

Lemma put_worker w s q cs t th new :
  has_worker w → w_threads w !! t = Some th → (worker th = true → from_option worker false new = true) →
  has_worker (put w s q cs t new).
Proof.
  intros (t0 & th0 & E0 & Hw0) E Hn. destruct (decide (t0 = t)) as [->|Hne].
  - rewrite E in E0. injection E0 as <-. specialize (Hn Hw0). destruct new as [th'|]; [|done].
    exists t, th'. simpl. by rewrite lookup_partial_alter_eq.
  - exists t0, th0. simpl. by rewrite lookup_partial_alter_ne.
Qed.

Lemma signal_worker w f t : has_worker w → has_worker (signal w f t).
Proof.
  intros (t0 & th0 & E0 & Hw0). destruct (decide (t0 = t)) as [->|Hne].
  - exists t, (set_ctx f th0). simpl. rewrite lookup_alter_eq, E0. split; [done|]. by destruct th0.
  - exists t0, th0. simpl. by rewrite lookup_alter_ne.
Qed.

(** The pool and the pause stay. *)
Lemma work_keeps w w' : work false w w' → has_worker w → has_worker w' ∧ paused (w_queue w') = paused (w_queue w).
Proof.
  intros [w1 t e w1' _ Ha] Hw. unfold advance in Ha. destruct (w_threads w1 !! t) as [th|] eqn:Eo; [|done]. simpl in Ha.
  assert (Hd : ∀ q o, dequeue_lock (w_queue w1) = (q, o) → paused q = paused (w_queue w1))
    by (unfold dequeue_lock; intros q o E; repeat case_match; by simplify_eq).
  assert (He : ∀ id p, paused (Enqueue (w_queue w1) id p).1 = paused (w_queue w1))
    by (intros; unfold Enqueue, signalOneLocked, send_notify; repeat (case_match; simpl); done).
  assert (Hr : ∀ id, paused (Remove (w_queue w1) id).1 = paused (w_queue w1))
    by (intros; unfold Remove; repeat (case_match; simpl); done).
  destruct th as [|id|job|job c|job|job c|job c row|job es|job|id|job|job|job|job why|job|job d|id|job]; simplify_eq;
    unfold goto, exit, park, load in *; repeat case_match; simplify_eq;
    (split; [try apply signal_worker; apply (put_worker _ _ _ _ _ _ _ Hw Eo); done|simpl; try done]).
  all: eauto.
Qed.

Lemma works_keep w w' : rtc (work false) w w' → good w → has_worker w →
  good w' ∧ has_worker w' ∧ paused (w_queue w') = paused (w_queue w).
Proof.
  induction 1 as [|w1 w2 w3 H1 _ IH]; [done|]. intros G Hw. destruct (work_keeps _ _ H1 Hw) as [Hw2 E2].
  destruct (IH (work_good _ _ H1 G) Hw2) as (? & ? & E3). by rewrite E3, E2.
Qed.

(** Something the environment may answer. *)
Definition some_env : env X N :=
  {| e_now := 0; e_fault := false; e_reason := "";
     e_art := {| a_err := None; a_entries := []; a_effectiveProfile := ""; a_nsTimings := []; a_dnssecChainJSON := "" |} |}.

Lemma advance_can w t th : w_threads w !! t = Some th → th ≠ Idle → is_Some (advance w t some_env).
Proof.
  intros E Hi. unfold advance. rewrite E. simpl. destruct th; try done; eauto.
  by destruct (store_graduate _ _ _ _).
Qed.

Lemma stuck_idle w t th : nf (work false) w → w_threads w !! t = Some th → th = Idle.
Proof.
  intros Hn E. assert (Hd : th = Idle ∨ th ≠ Idle) by (destruct th; auto). destruct Hd as [|Hi]; [done|].
  destruct (advance_can _ _ _ E Hi) as [w' Ha]. destruct Hn. exists w'. by apply work_advance with t some_env.
Qed.

Lemma stuck_empty w : good w → nf (work false) w → has_worker w → paused (w_queue w) = false → pending (w_queue w) = [].
Proof.
  intros G Hn (t & th & E & _) Hp. pose proof (stuck_idle _ _ _ Hn E) as ->.
  destruct (dequeue_lock (w_queue w)) as [q o] eqn:Eq.
  assert (Ho : ∀ id, o ≠ DqJob id).
  { intros id ->. destruct Hn. eexists. apply work_advance with t some_env; [done|]. unfold advance. rewrite E. simpl.
    by rewrite Eq. }
  unfold dequeue_lock in Eq. rewrite (qg_open _ (g_queue _ G)), Hp in Eq. unfold pending.
  destruct (normal (w_queue w)) as [|x n]; [|by injection Eq as _ <-; destruct (Ho x)].
  destruct (batch (w_queue w)) as [|x b]; [done|by injection Eq as _ <-; destruct (Ho x)].
Qed.

(** C5: the server finishes its work, as long as no access to the store fails and no
    administrator orders the queue by a list that repeats a job.  Left alone, its goroutines
    stop after finitely many accesses; where they stop, if there is a worker and the queue is
    not paused, the queue is empty, nothing is registered and no job in the store is queued or
    running. *)
Theorem server_drains s rows n w :
  start_ok s rows → rtc (step false) (start s rows n) w →
  sn (work false) w ∧
  ∀ w', rtc (work false) w w' → nf (work false) w' → has_worker w → paused (w_queue w) = false →
    pending (w_queue w') = [] ∧ w_cancels w' = ∅ ∧
    ∀ id job, job_rows (w_store w') !! id = Some job → j_Status job ≠ JobQueued ∧ j_Status job ≠ JobRunning.
Proof.
  intros Hs Hr. pose proof (reachable_good _ _ _ _ Hs Hr) as G. split; [by apply work_terminates|].
  intros w' Hw Hn Hp Hu. destruct (works_keep _ _ Hw G Hp) as (G' & Hp' & Eu). rewrite Hu in Eu.
  pose proof (stuck_empty _ G' Hn Hp' Eu) as He.
  assert (Hno : ∀ id t th, ¬ at_ w' t th id) by (intros id t th [E Hj]; by rewrite (stuck_idle _ _ _ Hn E) in Hj).
  split; [done|]. split.
  - apply map_eq. intros id. rewrite lookup_empty. destruct (w_cancels w' !! id) as [t|] eqn:E; [|done].
    apply (gi_registry _ _ (g_id _ G' id)) in E as (th & []%Hno & _).
  - intros id job E. pose proof (g_id _ G' id) as Gi. split; intros Hst.
    + destruct (gi_queued _ _ Gi) as [Hin|(t & th & []%Hno & _)]; [by unfold queued, row_status; rewrite E; simpl; rewrite Hst|].
      rewrite He in Hin. by apply elem_of_nil in Hin.
    + destruct (gi_running _ _ Gi) as (t & th & []%Hno & _). unfold running, row_status. by rewrite E; simpl; rewrite Hst.
Qed.

(** ** Cancellation *)

(** The run of this goroutine cannot succeed any more. *)
Definition cursed th : Prop :=
  match th with
  | Registered _ c | Engine _ c | Progress _ c _ => c ≠ Live
  | Ended job _ => j_Status job ≠ JobSucceeded
  | _ => False
  end.

Definition unsuccessful w id : Prop :=
  (∃ st, run_status w id = Some st ∧ st ≠ JobSucceeded) ∨
  ¬ gone w id ∧ ∃ t th, at_ w t th id ∧ cursed th.

(** The run of a doomed goroutine, and of no other, ends the job. *)
Lemma cursed_advance w t e w' th id :
  good w → e_fault e = false → at_ w t th id → cursed th → ¬ gone w id → advance w t e = Some w' → unsuccessful w' id.
Proof.
  intros G Ef [Eo Hj] Hc Hng Ha. pose proof (gi_thread _ _ (g_id _ G id) t th ltac:(done)) as Hok.
  pose proof (advance_tables _ _ _ _ id Ha) as Ht. unfold advance in Ha. rewrite Eo in Ha. simpl in Ha.
  assert (Hput : ∀ s q cs th', at_ (put w s q cs t (Some th')) t th' id ↔ job_of th' = Some id).
  { intros. unfold at_; simpl. rewrite lookup_partial_alter_eq. naive_solver. }
  assert (Hsame : ∀ th', at_ w' t th' id → cursed th' → (∀ job, ¬ graduates th job) → unsuccessful w' id).
  { intros th' Ha' Hc' Hgr. right. destruct Ht as [[Hg _]|(th2 & job & run & E2 & Hgr2 & _)]; [|].
    - split; [by rewrite Hg|by eexists _, _].
    - rewrite Eo in E2. injection E2 as <-. by destruct (Hgr job). }
  destruct th as [| | |job c| |job c|job c row|job es| | | | | | | | | |]; try done; simpl in Hj.
  - destruct (try_update w e (started job (e_now e))) as [s|] eqn:E; simplify_eq.
    + eapply Hsame; [by apply Hput|done|by intros ? [[? ?]|?]].
    + apply try_update_gone in E; [|done]. by destruct Hng.
  - simplify_eq. eapply (Hsame (Ended _ _)); [apply Hput; by rewrite <- (proj1 (ended_job job c (e_art e) (e_now e)))| |by intros ? [[? ?]|?]].
    simpl. unfold ended, outcome. by destruct c, (a_err (e_art e)).
  - simplify_eq. eapply Hsame; [by apply Hput|done|by intros ? [[? ?]|?]].
  - rewrite Ef in Ha. destruct (store_graduate (w_store w) job es (e_now e)) as [s g] eqn:E. injection Hj as <-.
    destruct (graduate_effect _ _ _ _ _ _ (g_store _ G) E) as [_ Hg].
    destruct g; simplify_eq.
    + left. destruct Hg as (_ & _ & run & Er & Es). exists (j_Status job). split; [|done].
      unfold run_status; simpl. by rewrite Er, lookup_insert_eq, <- Es.
    + destruct Hg as [Hn _]. destruct Hng. unfold gone, row_status. by rewrite Hn.
    + by destruct Hg.
Qed.

Lemma set_ctx_cursed f th : (∀ c, c ≠ Live → f c ≠ Live) → cursed th → cursed (set_ctx f th).
Proof. intros Hf. destruct th; simpl; auto. Qed.

Lemma cancel_ctx_live c : c ≠ Live → cancel_ctx c ≠ Live.
Proof. by destruct c. Qed.
Lemma expire_ctx_live c : c ≠ Live → expire_ctx c ≠ Live.
Proof. by destruct c. Qed.

Lemma signal_cursed w f t t' th id :
  (∀ c, c ≠ Live → f c ≠ Live) → at_ w t th id → cursed th →
  ∃ th', at_ (signal w f t') t th' id ∧ cursed th'.
Proof.
  intros Hf [E Hj] Hc. destruct (decide (t' = t)) as [->|Hne].
  - exists (set_ctx f th). split; [|by apply set_ctx_cursed]. split; [simpl; by rewrite lookup_alter_eq, E|by destruct th].
  - exists th. split; [|done]. split; [simpl; by rewrite lookup_alter_ne|done].
Qed.

(** The other goroutines leave a goroutine alone, but for its context. *)
Lemma advance_other w t e w' t' th id :
  advance w t e = Some w' → t' ≠ t → at_ w t' th id → cursed th → ∃ th', at_ w' t' th' id ∧ cursed th'.
Proof.
  intros Ha Hne Hat Hc. unfold advance in Ha. destruct (w_threads w !! t) as [th0|] eqn:Eo; [|done]. simpl in Ha.
  assert (Hput : ∀ s q cs o, at_ (put w s q cs t o) t' th id) by (intros; unfold at_; simpl; by rewrite lookup_partial_alter_ne).
  destruct th0 as [|i|job|job c|job|job c|job c row|job es|job|i|job|job|job|job why|job|job d|i|job]; simplify_eq;
    unfold goto, exit, park, load in *; repeat case_match; simplify_eq; eauto.
  apply signal_cursed with th; [apply cancel_ctx_live|apply Hput|done].
Qed.

Lemma cursed_carrier th : cursed th → carrier th = true.
Proof. by destruct th. Qed.

Lemma unsuccessful_advance w t0 e w' id t th :
  good w → e_fault e = false → advance w t0 e = Some w' → ¬ gone w id → at_ w t th id → cursed th → unsuccessful w' id.
Proof.
  intros G Ef Ha Hng Hat Hc. destruct (decide (t = t0)) as [->|Hne]; [by eapply cursed_advance|].
  destruct (advance_tables _ _ _ _ id Ha) as [[Hg _]|(th2 & job & run & E2 & Hgr & Hid & _ & _ & Er & Es)].
  - right. rewrite Hg. split; [done|]. exists t. by eapply advance_other.
  - left. exists (j_Status job). split; [unfold run_status; rewrite Er; simpl; by rewrite Es|].
    assert (Hat2 : at_ w t0 th2 id) by (split; [done|destruct Hgr as [[es ->]| ->]; simpl; congruence]).
    destruct Hgr as [[es ->]| ->].
    + destruct Hne. by apply (gi_carrier _ _ (g_id _ G id) t th t0 (Ended job es)); [..|apply cursed_carrier|].
    + destruct (gi_thread _ _ (g_id _ G id) _ _ Hat2) as [E|[E _]]; by rewrite E.
Qed.

Lemma arrive_leaves w t r w' id :
  arrive w t r = Some w' → (gone w' id → gone w id) ∧ ∀ t', t' ≠ t → w_threads w' !! t' = w_threads w !! t'.
Proof using JL.
  intros Ha. unfold arrive in Ha. unfold createJob, handleCancelJob, cancelBatchJob, handleQueueRemove, reapStuckJob, startWorker in Ha.
  unfold mbind, option_bind, goto in Ha. destruct r as [job g|i|i|i|i cutoff|].
  1: destruct (store_create _ _ _) as [[s job']|] eqn:E; [|done].
  all: repeat case_match; simplify_eq; (split; [try done|intros t' Ht; simpl; by rewrite lookup_partial_alter_ne]).
  apply create_law in E as (_ & _ & _ & _ & Er & _). unfold gone, row_status; simpl. rewrite Er.
  destruct (decide (id = j_ID job)) as [->|]; [by rewrite lookup_insert_eq|by rewrite lookup_insert_ne].
Qed.

Lemma unsuccessful_step w w' id :
  good w → recorded w → step false w w' → unsuccessful w id → unsuccessful w' id.
Proof.
  intros G R Hst [(st & Hs & Hne)|(Hng & t & th & Hat & Hc)].
  { left. exists st. split; [|done]. unfold run_status in *. destruct (run_rows (w_store w) !! id) as [run|] eqn:E; [|done].
    destruct (step_recorded _ _ _ Hst R) as [_ Hk]. by rewrite (Hk _ _ E). }
  destruct Hst as [w w' [w1 t0 e w1' Hf Ha]|w t0 r w' Eo Hr Ha|w t0 p w' Ha|w t0|w t0 w' Ha|w|w|w ids _].
  - eapply unsuccessful_advance; [done| |done..]. destruct (e_fault e); [by discriminate Hf|done].
  - destruct (arrive_leaves _ _ _ _ id Ha) as [Hg Ht]. right. split; [tauto|]. exists t, th.
    split; [|done]. destruct Hat as [E ?]. split; [|done]. rewrite Ht; [done|]. congruence.
  - right. unfold report, goto in Ha. repeat case_match; simplify_eq. split; [done|]. destruct Hat as [E Hj].
    destruct (decide (t = t0)) as [->|Hne]; simplify_eq.
    + eexists t0, _. split; [split; [simpl; by rewrite lookup_partial_alter_eq|done]|done].
    + exists t, th. split; [|done]. split; [simpl; by rewrite lookup_partial_alter_ne|done].
  - right. split; [done|]. exists t. apply (signal_cursed _ _ _ _ th); [apply expire_ctx_live|done..].
  - right. unfold retire, exit in Ha. repeat case_match; simplify_eq. split; [done|]. destruct Hat as [E Hj].
    exists t, th. split; [|done]. split; [simpl|done]. destruct (decide (t = t0)) as [->|Hne]; [by simplify_eq|].
    by rewrite lookup_partial_alter_ne.
  - right. split; [done|]. by exists t, th.
  - right. split; [done|]. by exists t, th.
  - right. split; [done|]. by exists t, th.
Qed.

Lemma unsuccessful_steps w w' id :
  rtc (step false) w w' → good w → recorded w → unsuccessful w id → unsuccessful w' id.
Proof.
  induction 1 as [|w1 w2 w3 H1 _ IH]; [done|]. intros G R Hu. apply IH.
  - by eapply step_good.
  - by apply (step_recorded _ _ _ H1 R).
  - by eapply unsuccessful_step.
Qed.

(** C26: a cancellation that finds a registered function is effective, as long as no access
    to the store fails and no administrator orders the queue by a list that repeats a job.  If
    the worker has
    not yet seen its engine return, and the job is still in the store, then whatever happens
    next the job never ends as succeeded. *)
Theorem cancel_sticks s rows n w t job d t' th' c e w' w'' run :
  start_ok s rows → rtc (step false) (start s rows n) w →
  w_threads w !! t = Some (Interrupting job d) → cancelJob (w_cancels w) (j_ID job) = Some t' →
  w_threads w !! t' = Some th' → ctx_of th' = Some c → is_Some (job_rows (w_store w) !! j_ID job) →
  e_fault e = false → advance w t e = Some w' → rtc (step false) w' w'' →
  run_rows (w_store w'') !! j_ID job = Some run → j_Status run ≠ JobSucceeded.
Proof.
  intros Hs Hr Et Hc Et' Hctx Hrow Hf Ha Hr' Hrun. pose proof (reachable_good _ _ _ _ Hs Hr) as G.
  destruct (steps_recorded _ _ _ Hr) as [R _]; [by apply start_recorded|].
  assert (Hst : step false w w') by (apply step_work, work_advance with t e; [by rewrite Hf|done]).
  assert (Hat : at_ w t' th' (j_ID job)).
  { unfold cancelJob in Hc. case_decide; [done|]. apply (gi_registry _ _ (g_id _ G _)) in Hc as (th2 & Ha2 & _).
    destruct Ha2 as [E2 Hj]. split; [done|]. congruence. }
  assert (Hu : unsuccessful w' (j_ID job)).
  { apply row_present in Hrow. unfold advance in Ha. rewrite Et in Ha. simpl in Ha. rewrite Hc in Ha. injection Ha as <-.
    right. split; [done|]. exists t', (set_ctx cancel_ctx th'). destruct Hat as [_ Hj]. split; [split|]; simpl.
    - destruct (decide (t' = t)) as [->|]; [rewrite Et in Et'; by injection Et' as <-|].
      by rewrite lookup_alter_eq, lookup_partial_alter_ne, Et'.
    - by destruct th'.
    - clear -Hctx. destruct th' as [| | |j c'| |j c'|j c' r| | | | | | | | | | |]; try done; by destruct c'. }
  assert (Hu2 : unsuccessful w'' (j_ID job)).
  { eapply unsuccessful_steps; [done|by eapply step_good|by apply (step_recorded _ _ _ Hst R)|done]. }
  assert (R2 : recorded w'') by (by apply (steps_recorded _ _ _ Hr'), (step_recorded _ _ _ Hst R)).
  destruct Hu2 as [(st & E & Hne)|[Hg _]].
  - unfold run_status in E. rewrite Hrun in E. simpl in E. congruence.
  - destruct (rc_once _ R2 (j_ID job)); [congruence|done].
Qed.

(** ** Histories *)

Lemma is_unused_spec w id : is_unused w id = true → unused w id.
Proof.
  unfold is_unused. rewrite !andb_true_iff, !bool_decide_eq_true, forallb_forall.
  intros (((((? & ?) & ?) & ?) & ?) & Hf). split_and!; try done. intros t th E.
  apply elem_of_map_to_list in E. apply list_elem_of_In in E. apply Hf in E. by apply bool_decide_eq_true in E.
Qed.

Lemma happen_step fault w ev w' : happen fault w ev = Some w' → step fault w w'.
Proof.
  destruct ev as [t e|t r|t p|t|t| | |ids]; simpl; intros E; simplify_eq; try by constructor.
  - destruct (e_fault e && negb fault) eqn:Ef; [done|]. apply step_work, work_advance with t e; [|done].
    intros Hf. rewrite Hf in Ef. by destruct fault.
  - destruct (w_threads w !! t) eqn:Et; [done|].
    assert (Ha : arrive w t r = Some w' ∧ ∀ job g, r = Submit job g → unused w (j_ID job) ∧ j_Status job = JobQueued).
    { destruct r; simplify_eq; try (split; [done|by intros]). destruct (_ && _) eqn:Eb; [|done]. split; [done|].
      apply andb_prop in Eb as [Hu Hq]. intros ? ? [= <- <-]. split; [by apply is_unused_spec|by apply bool_decide_eq_true in Hq]. }
    destruct Ha as [Ha Hs]. by apply step_arrive with t r.
  - by apply step_report with t p.
  - by apply step_retire with t.
  - destruct (_ || _) eqn:Eb; [|done]. injection E as <-. apply step_reorder. intros Hn.
    by rewrite bool_decide_eq_false_2 in Eb.
Qed.

Lemma history_steps fault w evs w' : history fault w evs = Some w' → rtc (step fault) w w'.
Proof.
  revert w. induction evs as [|ev evs IH]; simpl; intros w E; [by injection E as ->|].
  destruct (happen fault w ev) as [w1|] eqn:E1; [|done]. apply rtc_l with w1; [by eapply happen_step|by apply IH].
Qed.

(** A history without requests is work. *)
Definition is_advance (ev : event X N C) : bool := match ev with Advance _ _ => true | _ => false end.

Lemma history_works f w evs w' : forallb is_advance evs = true → history f w evs = Some w' → rtc (work f) w w'.
Proof.
  revert w. induction evs as [|ev evs IH]; simpl; intros w Hf E; [by injection E as ->|].
  apply andb_prop in Hf as [Hev Hf]. destruct (happen f w ev) as [w1|] eqn:E1; [|done].
  apply rtc_l with w1; [|by apply IH]. destruct ev as [t e| | | | | | |]; try done. simpl in E1.
  destruct (e_fault e && negb f) eqn:Ef; [done|]. apply work_advance with t e; [|done].
  intros He. rewrite He in Ef. by destruct f.
Qed.

(** Idle goroutines and an empty queue are the end. *)
Lemma idle_nf f w : (∀ t th, w_threads w !! t = Some th → th = Idle) → pending (w_queue w) = [] → nf (work f) w.
Proof.
  intros Hi Hp [w' Hw]. inversion Hw as [w1 t e w1' _ Ha]; subst.
  unfold advance in Ha. destruct (w_threads w !! t) as [th|] eqn:E; [|done].
  rewrite (Hi _ _ E) in Ha. simpl in Ha. unfold dequeue_lock in Ha. unfold pending in Hp.
  apply app_eq_nil in Hp as [En Eb]. rewrite En, Eb in Ha. by repeat case_match.
Qed.
End facts.

Section histories.
#[local] Existing Instance ascii_unicode.

Definition demo_copied : copied unit :=
  {| c_Priority := 0; c_Profile := ""; c_ProfileName := ""; c_EffectiveProfile := "default"; c_NameserverTimings := [];
     c_Error := ""; c_ClientIP := ""; c_ClientUserAgent := ""; c_ClientVia := "" |}.
Definition demo_job (id : string) : Job unit unit :=
  {| j_ID := id; j_PublicID := ""; j_BatchID := ""; j_DomainID := 0; j_Domain := "a.se"; j_Status := JobQueued;
     j_FinishedAt := zero_time; j_SeverityTotals := None; j_CreatedAt := 1; j_StartedAt := zero_time; j_Progress := 0;
     j_ProfileID := None; j_copied := demo_copied; j_Score := None; j_Grade := None; j_config := Datatypes.tt;
     j_DNSSECChainJSON := "" |}.

Definition demo_store : JobStore (store unit unit unit) unit unit unit :=
  memory_store Datatypes.tt (λ _, 0%Z) default_weights.
#[local] Existing Instance demo_store.
Definition demo_laws : JobStoreLaws (store unit unit unit) unit unit unit :=
  memory_laws Datatypes.tt (λ _, 0%Z) default_weights.
#[local] Existing Instance demo_laws.

Definition demo_start (workers : nat) : world (store unit unit unit) unit unit unit :=
  start NewInMemoryJobStore [] workers.
Definition ok (now : Z) : env unit unit :=
  {| e_now := now; e_fault := false; e_reason := "failed";
     e_art := {| a_err := None; a_entries := []; a_effectiveProfile := ""; a_nsTimings := []; a_dnssecChainJSON := "" |} |}.
Definition fault (now : Z) : env unit unit :=
  {| e_now := now; e_fault := true; e_reason := "failed"; e_art := e_art (ok now) |}.

Lemma demo_start_ok : start_ok (NewInMemoryJobStore : store unit unit unit) [].
Proof.
  assert (Er : job_rows (NewInMemoryJobStore : store unit unit unit) = ∅) by done.
  assert (Eu : run_rows (NewInMemoryJobStore : store unit unit unit) = ∅) by (vm_compute; reflexivity).
  split; rewrite ?Er, ?Eu; try (intros id; rewrite ?lookup_empty; try done).
  - split; rewrite ?Er, ?Eu; try (intros id job; by rewrite lookup_empty). intros n i. simpl. by rewrite lookup_empty.
  - by left.
  - constructor.
  - split; [by intros ?%elem_of_nil|naive_solver].
Qed.

(** One job is submitted and queued; worker 0 takes it, up to its update to running. *)
Definition submitted : list (event unit unit unit) := [Arrive 2 (Submit (demo_job "j1") "p1"); Advance 2 (ok 1)].
Definition taken_by (t : nat) : list (event unit unit unit) := [Advance t (ok 2); Advance t (ok 2); Advance t (ok 2)].

Abbreviation demo_world := (world (store unit unit unit) unit unit unit).
Definition at_end (f : bool) (w : demo_world) (evs : list (event unit unit unit)) : demo_world :=
  default w (history f w evs).

(** What a running job looks like, and what it looks like once it is done. *)
Definition running_history := submitted ++ taken_by 0 ++ [Advance 0 (ok 4)].
Definition done_history := running_history ++ [Advance 0 (ok 5); Advance 0 (ok 6); Advance 0 (ok 6)].

(** The update to running fails; the job is put back while its worker is still registered. *)
Definition requeue_history :=
  submitted ++ taken_by 0 ++ [Advance 0 (fault 3); Advance 0 (ok 3)] ++
  taken_by 1 ++ [Advance 1 (ok 4); Advance 0 (ok 4)].
Definition reap_history := [Arrive 3 (Reap "j1" 10); Advance 3 (ok 11); Advance 3 (ok 11)] : list (event unit unit unit).

Definition orphan : demo_world := Eval vm_compute in at_end true (demo_start 2) requeue_history.
Definition reaped : demo_world := Eval vm_compute in at_end true orphan reap_history.

(** C30: a job can run without being registered.  When the update to running fails,
    [runJob] puts the job back in the queue before its deferred call unregisters it; if
    another worker has taken and registered the job in between, that call removes the
    registration of the other.  The job then runs where no cancellation finds it, and the
    reaper ends it as abandoned while its engine is running. *)
Theorem requeue_unregisters :
  ∃ (w w' : demo_world) t job c run,
    rtc (step true) (demo_start 2) w ∧
    w_threads w !! t = Some (Engine job c) ∧ w_cancels w !! j_ID job = None ∧
    rtc (step true) w w' ∧ w_threads w' !! t = Some (Engine job c) ∧
    run_rows (w_store w') !! j_ID job = Some run ∧ j_Status run = JobFailed.
Proof.
  exists orphan, reaped, 1. eexists _, _, _. split_and!.
  - apply (history_steps _ _ requeue_history). vm_compute. reflexivity.
  - vm_compute. reflexivity.
  - vm_compute. reflexivity.
  - apply (history_steps _ _ reap_history). vm_compute. reflexivity.
  - vm_compute. reflexivity.
  - vm_compute. reflexivity.
  - reflexivity.
Qed.

(** The handler reads the job as queued, and graduates it when a worker has started it. *)
Definition race_history :=
  submitted ++ [Arrive 3 (Cancel "j1")] ++ taken_by 0 ++ [Advance 0 (ok 4); Advance 3 (ok 5); Advance 3 (ok 5)].
Definition raced : demo_world := Eval vm_compute in at_end false (demo_start 2) race_history.

(** a cancellation can leave its engine running.  [handleCancelJob] reads the status
    once; when a worker starts the job after that, the handler graduates the job as canceled
    without canceling its context: the engine goes on, and what it finds is thrown away. *)
Theorem cancel_misses_engine :
  ∃ (w : demo_world) t job run,
    rtc (step false) (demo_start 2) w ∧ w_threads w !! t = Some (Engine job Live) ∧
    run_rows (w_store w) !! j_ID job = Some run ∧ j_Status run = JobCanceled.
Proof.
  exists raced, 0. eexists _, _. split_and!.
  - apply (history_steps _ _ race_history). vm_compute. reflexivity.
  - vm_compute. reflexivity.
  - vm_compute. reflexivity.
  - reflexivity.
Qed.

(** The handler of a cancellation has taken the job off the queue; then it fails to graduate
    it. *)
Definition unqueue_history := submitted ++ [Arrive 3 (Cancel "j1"); Advance 3 (ok 2)].
Definition unqueued : demo_world := Eval vm_compute in at_end false (demo_start 2) unqueue_history.
Definition stranded : demo_world := Eval vm_compute in at_end true unqueued [Advance 3 (fault 2)].

(** C35: there is a run in which a failed cancellation strands a job.  Nothing has failed
    until [handleCancelJob] has taken the job off the queue and is about to graduate it as
    canceled; that graduation fails, and the handler is done.  The job is then still queued in
    the store, in no queue and in no goroutine's hands, and no goroutine has anything left to
    do. *)
Theorem cancel_strands_job :
  ∃ (w w' : demo_world) t job e,
    rtc (step false) (demo_start 2) w ∧ w_threads w !! t = Some (Graduating job) ∧ j_Status job = JobCanceled ∧
    e_fault e = true ∧ advance w t e = Some w' ∧
    queued w' (j_ID job) ∧ pending (w_queue w') = [] ∧ (∀ t' th, ¬ at_ w' t' th (j_ID job)) ∧ nf (work false) w'.
Proof.
  assert (Em : map_to_list (w_threads stranded) = [(1, Idle); (0, Idle)]) by (vm_compute; reflexivity).
  assert (Hidle : ∀ t th, w_threads stranded !! t = Some th → th = Idle).
  { intros t th E. apply elem_of_map_to_list in E. rewrite Em in E. set_solver. }
  exists unqueued, stranded, 3. eexists _, (fault 2). split_and!.
  - apply (history_steps _ _ unqueue_history). vm_compute. reflexivity.
  - vm_compute. reflexivity.
  - reflexivity.
  - reflexivity.
  - vm_compute. reflexivity.
  - vm_compute. reflexivity.
  - reflexivity.
  - intros t th [E Hj]. by rewrite (Hidle _ _ E) in Hj.
  - by apply idle_nf.
Qed.

(** ** The theorems at work *)

Definition busy_world : demo_world := Eval vm_compute in at_end false (demo_start 2) running_history.
Definition done_world : demo_world := Eval vm_compute in at_end false (demo_start 2) done_history.

Lemma busy_reached : rtc (step false) (demo_start 2) busy_world.
Proof. apply (history_steps _ _ running_history). vm_compute. reflexivity. Qed.
Lemma done_reached : rtc (step false) (demo_start 2) done_world.
Proof. apply (history_steps _ _ done_history). vm_compute. reflexivity. Qed.

Lemma jobs_accounted_witness :
  running busy_world "j1" ∧ ∃ t th, at_ busy_world t th "j1" ∧ runs_job th = true.
Proof.
  assert (Hr : running busy_world "j1") by (vm_compute; reflexivity). split; [exact Hr|].
  exact (proj1 (proj2 (jobs_accounted _ _ _ busy_world "j1" demo_start_ok busy_reached)) Hr).
Defined.

Lemma registry_exact_witness : ∃ th, at_ busy_world 0 th "j1" ∧ registered th = true.
Proof.
  apply (registry_exact _ _ _ busy_world "j1" 0 demo_start_ok busy_reached). vm_compute. reflexivity.
Defined.

(** The reaper read the job as running, and the worker is done since. *)
Definition late_history :=
  running_history ++ [Arrive 3 (Reap "j1" 10); Advance 0 (ok 5); Advance 0 (ok 6); Advance 0 (ok 6); Advance 3 (ok 11)].
Definition late_world : demo_world := Eval vm_compute in at_end false (demo_start 2) late_history.

Lemma late_reached : rtc (step false) (demo_start 2) late_world.
Proof. apply (history_steps _ _ late_history). vm_compute. reflexivity. Qed.

Lemma reaper_spares_running_witness :
  ∃ job, w_threads late_world !! 3 = Some (Graduating job) ∧ ¬ queued late_world (j_ID job).
Proof.
  eexists. split; [vm_compute; reflexivity|].
  apply (reaper_spares_running _ _ _ late_world 3 _ demo_start_ok late_reached); [vm_compute; reflexivity|reflexivity].
Defined.

Lemma result_once_witness :
  ∃ run, run_rows (w_store done_world) !! "j1"%string = Some run ∧ job_rows (w_store done_world) !! "j1"%string = None.
Proof.
  eexists. split; [vm_compute; reflexivity|].
  eapply (result_once false _ _ _ done_world done_world "j1"); [exact demo_start_ok|exact done_reached|apply rtc_refl|].
  vm_compute. reflexivity.
Defined.

Definition queued_world : demo_world := Eval vm_compute in at_end false (demo_start 2) submitted.
Definition work_history : list (event unit unit unit) :=
  taken_by 1 ++ [Advance 1 (ok 4); Advance 1 (ok 5); Advance 1 (ok 6); Advance 1 (ok 6)].
Definition drained_world : demo_world := Eval vm_compute in at_end false queued_world work_history.

Lemma queued_reached : rtc (step false) (demo_start 2) queued_world.
Proof. apply (history_steps _ _ submitted). vm_compute. reflexivity. Qed.
Lemma drained_reached : rtc (work false) queued_world drained_world.
Proof. apply (history_works _ _ work_history); [reflexivity|]. vm_compute. reflexivity. Qed.
Lemma drained_stuck : nf (work false) drained_world.
Proof.
  apply idle_nf; [|reflexivity]. intros t th E. apply elem_of_map_to_list in E.
  assert (Em : map_to_list (w_threads drained_world) = [(1, Idle); (0, Idle)]) by (vm_compute; reflexivity).
  rewrite Em in E. set_solver.
Qed.

Lemma server_drains_witness :
  pending (w_queue queued_world) = ["j1"%string] ∧ w_cancels drained_world = ∅ ∧
  run_status drained_world "j1" = Some JobSucceeded.
Proof.
  split; [reflexivity|]. split; [|vm_compute; reflexivity].
  destruct (server_drains _ _ _ queued_world demo_start_ok queued_reached) as [_ H].
  apply (H drained_world drained_reached drained_stuck); [|reflexivity]. exists 0, Idle. split; [vm_compute; reflexivity|done].
Defined.

(** The job is canceled while its engine runs, and the engine returns without an error. *)
Definition canceling_world : demo_world :=
  Eval vm_compute in at_end false busy_world [Arrive 3 (Cancel "j1")].
Definition canceled_world : demo_world := Eval vm_compute in at_end false canceling_world [Advance 3 (ok 5)].
Definition ended_world : demo_world :=
  Eval vm_compute in at_end false canceled_world [Advance 0 (ok 6); Advance 0 (ok 6)].

Lemma canceling_reached : rtc (step false) (demo_start 2) canceling_world.
Proof. apply (history_steps _ _ (running_history ++ [Arrive 3 (Cancel "j1")])). vm_compute. reflexivity. Qed.

Lemma cancel_sticks_witness :
  ∃ run, run_rows (w_store ended_world) !! "j1"%string = Some run ∧ j_Status run ≠ JobSucceeded.
Proof.
  eexists. split; [vm_compute; reflexivity|].
  eapply (cancel_sticks _ _ _ canceling_world 3 _ _ 0 _ _ (ok 5) canceled_world ended_world _ demo_start_ok canceling_reached).
  - vm_compute. reflexivity.
  - vm_compute. reflexivity.
  - vm_compute. reflexivity.
  - reflexivity.
  - vm_compute. by eexists.
  - reflexivity.
  - vm_compute. reflexivity.
  - apply (history_steps _ _ [Advance 0 (ok 6); Advance 0 (ok 6)]). vm_compute. reflexivity.
  - vm_compute. reflexivity.
Defined.
End histories.
