(* ===== verification/Recovery.v ===== *)
(** * Recovery at startup

    [server/recovery.go]: what [RecoverJobs] makes of the jobs a server left behind, so that
    the next one can start as [Lifecycle.v] lets it. *)

From S2P Require Import Prelude GoStrings Scoring Store JobQueue Lifecycle LifecycleInvariant LifecycleFacts.

Local Open Scope list_scope.

Section recovery.
Context {S X N C : Type} {JS : JobStore S X N C} {JL : @JobStoreLaws S X N C JS}.
Implicit Types (s : S) (job : Job N C) (id : string).

(** The loop body: a job that is neither queued nor paused is failed. *)
Definition orphan_failed job (now : Z) : Job N C :=
  job_with job JobFailed (j_StartedAt job) (if decide (j_FinishedAt job = zero_time) then now else j_FinishedAt job)
    (j_Progress job)
    (if decide (c_Error (j_copied job) = ""%string) then with_error (j_copied job) "server restarted during job"
     else j_copied job) (j_DNSSECChainJSON job).

(** The database may fail a graduation or an update. *)
Context (graduate_fails update_fails : string → bool).

Definition recover_one (now : Z) s job : S :=
  if decide (j_Status job = JobQueued ∨ j_Status job = JobPaused) then s
  else
    let job := orphan_failed job now in
    let '(s, g) := if graduate_fails (j_ID job) then (s, NotFound) else store_graduate s job [] now in
    match g with
    | Graduated => s
    | _ => if update_fails (j_ID job) then s
           else match store_update s job with Ok s' => s' | Err _ => s end
    end.

(** [rows] is what the first [List] returns. *)
Definition recover_rows (now : Z) s (rows : list (Job N C)) : S := foldl (recover_one now) s rows.

(** The query of the queued jobs, over the rows in the order of their creation. *)
Definition queued_query s (order : list string) : list (string * Z) :=
  omap (λ id, match job_rows s !! id with
              | Some job => if decide (j_Status job = JobQueued) then Some (id, c_Priority (j_copied job)) else None
              | None => None
              end) order.

(** [List] is called with a limit of 100000. *)
Definition recover_limit : nat := Z.to_nat 100000.
Lemma recover_limit_two : 2 ≤ recover_limit.
Proof. unfold recover_limit. lia. Qed.
#[global] Opaque recover_limit.

(** [sql] says whether the store is a [*SQLJobStore]; any other store is left alone, and its
    server starts with an empty queue. *)
Definition RecoverJobs (sql : bool) (now : Z) s (rows : list (Job N C)) (order : list string) (workers : nat) : world S X N C :=
  if negb sql then start s [] workers else
  let s := recover_rows now s (take recover_limit rows) in
  start s (queued_query s order) workers.

(** ** What it leaves *)

(** Nothing is in two tables, and runs are final. *)
Record tables_ok s : Prop := {
  tb_store : store_good s;
  tb_once : ∀ id, job_rows s !! id = None ∨ run_rows s !! id = None;
  tb_final : ∀ id run, run_rows s !! id = Some run → isTerminalStatus (j_Status run) = true
}.

Definition orphaned job : Prop := j_Status job ≠ JobQueued ∧ j_Status job ≠ JobPaused.
#[local] Instance orphaned_dec job : Decision (orphaned job) := _.

(** What one round does: [s'] comes from [s], where [job] was. *)
Record recovered_as s s' job : Prop := {
  ra_tables : tables_ok s';
  ra_other : ∀ id, id ≠ j_ID job → job_rows s' !! id = job_rows s !! id ∧ run_rows s' !! id = run_rows s !! id;
  ra_kept : ¬ orphaned job → job_rows s' !! j_ID job = job_rows s !! j_ID job;
  ra_gone : orphaned job → graduate_fails (j_ID job) = false →
    job_rows s' !! j_ID job = None ∧ ∃ run, run_rows s' !! j_ID job = Some run ∧ j_Status run = JobFailed;
  ra_parked : orphaned job → graduate_fails (j_ID job) = true → update_fails (j_ID job) = false →
    ∃ row, job_rows s' !! j_ID job = Some row ∧ j_Status row = JobFailed
}.

Lemma graduated_tables s s' job now :
  tables_ok s → is_Some (job_rows s !! j_ID job) → j_Status job = JobFailed →
  store_graduate s job [] now = (s', Graduated) →
  tables_ok s' ∧ job_rows s' = delete (j_ID job) (job_rows s) ∧
  ∃ run, run_rows s' = <[j_ID job := run]> (run_rows s) ∧ j_Status run = JobFailed.
Proof.
  intros [H1 H2 H3] Hrow Hst E. destruct (graduate_effect _ _ _ _ _ _ H1 E) as (Hs & _ & Er & run & Eu & Es).
  rewrite Hst in Es. split; [|by eauto]. split; [done|..]; rewrite ?Er, ?Eu; intros id.
  - destruct (decide (id = j_ID job)) as [->|Hne]; [left; by rewrite lookup_delete_eq|].
    rewrite lookup_delete_ne, lookup_insert_ne by done. apply H2.
  - intros r [[<- <-]|[_ Hr]]%lookup_insert_Some; [by rewrite Es|by apply (H3 id)].
Qed.

Lemma updated_tables s s' job :
  tables_ok s → store_update s job = Ok s' →
  tables_ok s' ∧ job_rows s' = <[j_ID job := job]> (job_rows s) ∧ run_rows s' = run_rows s.
Proof.
  intros [H1 H2 H3] E. destruct (update_effect _ _ _ H1 E) as ([old Eo] & Hs & Er & Eu). split; [|done].
  split; [done|..]; rewrite ?Er, ?Eu; [|done]. intros id. destruct (decide (id = j_ID job)) as [->|Hne].
  - destruct (H2 (j_ID job)); [congruence|by right].
  - rewrite lookup_insert_ne by done. apply H2.
Qed.

Lemma recover_one_spec now s job :
  tables_ok s → job_rows s !! j_ID job = Some job → recovered_as s (recover_one now s job) job.
Proof.
  intros T Ej. unfold recover_one. case_decide as Hq; [split; try done; unfold orphaned; naive_solver|].
  assert (Ho : orphaned job) by (unfold orphaned; tauto). set (job' := orphan_failed job now).
  assert (Ei : j_ID job' = j_ID job) by done. assert (Es : j_Status job' = JobFailed) by done.
  destruct (graduate_fails (j_ID job')) eqn:Ef; [destruct (update_fails (j_ID job')) eqn:Eu|]; rewrite Ei in *.
  - split; try done; congruence.
  - pose proof (update_law s job') as L. rewrite Ei, Ej in L. destruct L as (s' & E & _). rewrite E.
    destruct (updated_tables _ _ _ T E) as (T' & Er & Eru). rewrite Ei in Er. split; try done.
    + intros id Hne. by rewrite Er, Eru, lookup_insert_ne.
    + congruence.
    + intros _ _ _. exists job'. by rewrite Er, lookup_insert_eq.
  - destruct (store_graduate s job' [] now) as [s' g] eqn:E.
    pose proof (graduate_effect _ _ _ _ _ _ (tb_store _ T) E) as [_ Hg]. rewrite Ei in Hg. destruct g.
    + destruct (graduated_tables s s' job' now) as (T' & Er & run & Eru & Ers); rewrite ?Ei; [done|by eexists|done|done|].
      rewrite Ei in *. split; try done.
      * intros id Hne. by rewrite Er, Eru, lookup_delete_ne, lookup_insert_ne.
      * intros _ _. rewrite Er, Eru, lookup_delete_eq, lookup_insert_eq. by eauto.
      * congruence.
    + destruct Hg; congruence.
    + destruct Hg; congruence.
Qed.

(** A recorded run stays. *)
Lemma recover_rows_keeps now rows s id run :
  tables_ok s → NoDup (j_ID <$> rows) → (∀ job, job ∈ rows → job_rows s !! j_ID job = Some job) →
  run_rows s !! id = Some run → run_rows (recover_rows now s rows) !! id = Some run.
Proof.
  revert s. induction rows as [|job rows IH]; intros s T Hn Hrows Hrun; simpl; [done|].
  apply NoDup_cons in Hn as [Hid Hn].
  assert (Ej : job_rows s !! j_ID job = Some job) by (apply Hrows; by left).
  pose proof (recover_one_spec now s job T Ej) as [T1 Ho _ _ _].
  apply IH; [done|done| |].
  - intros job' Hj. assert (j_ID job' ≠ j_ID job) by (intros E; destruct Hid; rewrite <- E; by apply list_elem_of_fmap_2).
    rewrite (proj1 (Ho _ ltac:(done))). apply Hrows. by right.
  - assert (id ≠ j_ID job) by (intros ->; destruct (tb_once _ T (j_ID job)); congruence).
    by rewrite (proj2 (Ho _ ltac:(done))).
Qed.

Lemma recover_rows_spec now rows s :
  tables_ok s → NoDup (j_ID <$> rows) → (∀ job, job ∈ rows → job_rows s !! j_ID job = Some job) →
  let s' := recover_rows now s rows in
  tables_ok s' ∧
  (∀ id, id ∉ j_ID <$> rows → job_rows s' !! id = job_rows s !! id) ∧
  ∀ job, job ∈ rows →
    (¬ orphaned job → job_rows s' !! j_ID job = Some job) ∧
    (orphaned job → graduate_fails (j_ID job) = false →
       job_rows s' !! j_ID job = None ∧ ∃ run, run_rows s' !! j_ID job = Some run ∧ j_Status run = JobFailed) ∧
    (orphaned job → graduate_fails (j_ID job) = true → update_fails (j_ID job) = false →
       ∃ row, job_rows s' !! j_ID job = Some row ∧ j_Status row = JobFailed).
Proof.
  revert s. induction rows as [|job rows IH]; intros s T Hn Hrows; simpl.
  { split; [done|]. split; [done|]. by intros job ?%elem_of_nil. }
  apply NoDup_cons in Hn as [Hid Hn].
  assert (Ej : job_rows s !! j_ID job = Some job) by (apply Hrows; by left).
  pose proof (recover_one_spec now s job T Ej) as [T1 Ho Hk Hg Hp].
  assert (Hne : ∀ job', job' ∈ rows → j_ID job' ≠ j_ID job).
  { intros job' Hin E. destruct Hid. rewrite <- E. by apply list_elem_of_fmap_2. }
  destruct (IH (recover_one now s job) T1 Hn) as (T2 & Hout & Hin).
  { intros job' Hj. rewrite (proj1 (Ho _ (Hne _ Hj))). apply Hrows. by right. }
  assert (Hrun : ∀ run, run_rows (recover_one now s job) !! j_ID job = Some run →
                        run_rows (recover_rows now (recover_one now s job) rows) !! j_ID job = Some run).
  { intros run. apply recover_rows_keeps; [done|done|]. intros job' Hj. rewrite (proj1 (Ho _ (Hne _ Hj))). apply Hrows. by right. }
  split; [done|]. split.
  - intros id Hni. rewrite Hout by set_solver. apply Ho. set_solver.
  - intros job' [->|Hj]%elem_of_cons; [|by apply Hin].
    rewrite (Hout _ Hid). split_and!; [by intros ?%Hk; congruence| |by apply Hp].
    intros H1 H2. destruct (Hg H1 H2) as [? (run & Hr & ?)]. split; [done|]. exists run. split; [by apply Hrun|done].
Qed.

Lemma queued_query_spec s order :
  NoDup order → (∀ id job, job_rows s !! id = Some job → id ∈ order) →
  NoDup (queued_query s order).*1 ∧
  ∀ id, id ∈ (queued_query s order).*1 ↔ ∃ job, job_rows s !! id = Some job ∧ j_Status job = JobQueued.
Proof.
  intros Hn Hall.
  assert (Hsub : (queued_query s order).*1 = List.filter (λ id, bool_decide ((j_Status <$> job_rows s !! id) = Some JobQueued)) order).
  { clear Hn Hall. unfold queued_query. induction order as [|id order IH]; [done|]. simpl.
    destruct (job_rows s !! id) as [job|]; simpl; [|done]. destruct (decide (j_Status job = JobQueued)) as [E|E]; simpl.
    - rewrite bool_decide_eq_true_2 by (by rewrite E). f_equal. exact IH.
    - rewrite bool_decide_eq_false_2 by congruence. done. }
  rewrite Hsub. split.
  - apply NoDup_ListNoDup, List.NoDup_filter. by apply NoDup_ListNoDup.
  - intros id. rewrite list_elem_of_In, filter_In, bool_decide_eq_true. split.
    + intros [_ E]. destruct (job_rows s !! id) as [job|]; [|done]. exists job. split; [done|]. by injection E.
    + intros (job & E & Es). split; [by apply list_elem_of_In, (Hall id job)|]. by rewrite E; simpl; rewrite Es.
Qed.


(** The rows of a store, as a [List] without conditions returns them. *)
Definition all_rows s : list (Job N C) := (map_to_list (job_rows s)).*2.

Lemma all_rows_spec s :
  store_good s →
  (j_ID <$> all_rows s) = (map_to_list (job_rows s)).*1 ∧
  ∀ id job, job_rows s !! id = Some job ↔ job ∈ all_rows s ∧ j_ID job = id.
Proof.
  intros Hs. assert (Hk : ∀ id job, (id, job) ∈ map_to_list (job_rows s) → j_ID job = id).
  { intros id job Hin%elem_of_map_to_list. by apply (sg_rows _ Hs). }
  split.
  - unfold all_rows. induction (map_to_list (job_rows s)) as [|[id job] l IH]; [done|]. simpl.
    rewrite (Hk id job) by (by left). f_equal. apply IH. intros i j Hin. apply Hk. by right.
  - intros id job. unfold all_rows. rewrite list_elem_of_fmap. split.
    + intros E%elem_of_map_to_list. split; [by exists (id, job)|by apply Hk].
    + intros [([id' job'] & -> & Hin) <-]. simpl in *. rewrite (Hk _ _ Hin). by apply elem_of_map_to_list.
Qed.
End recovery.

Section witness.
#[local] Existing Instance ascii_unicode.
#[local] Existing Instance demo_store.
#[local] Existing Instance demo_laws.

Abbreviation demo_world := (world (store unit unit unit) unit unit unit).

(** The server dies while it runs one job and has another in the queue; the tables of
    [demo_store] stand in for those of the database. *)
Definition crash_history := running_history ++ [Arrive 2 (Submit (demo_job "j2") "p2"); Advance 2 (ok 5)].
Definition crashed : demo_world := Eval vm_compute in at_end false (demo_start 2) crash_history.
Definition restarted : demo_world :=
  Eval vm_compute in RecoverJobs (λ _, false) (λ _, false) true 9 (w_store crashed) (all_rows (w_store crashed)) ["j1"; "j2"]%string 2.

Lemma crashed_tables : tables_ok (w_store crashed).
Proof.
  assert (Hr : rtc (step false) (demo_start 2) crashed) by (apply (history_steps _ _ crash_history); vm_compute; reflexivity).
  pose proof (reachable_good _ _ _ _ demo_start_ok Hr) as G.
  destruct (steps_recorded _ _ _ Hr (start_recorded _ _ _ demo_start_ok)) as [R _].
  split; [apply G| |apply R]. intros id. destruct (rc_once _ R id) as [?|Hg]; [by right|left].
  unfold gone, row_status in Hg. by destruct (job_rows (w_store crashed) !! id).
Qed.

Lemma two_ids : NoDup ["j1"; "j2"]%string.
Proof. repeat constructor; set_solver. Qed.

#[local] Opaque crashed.

End witness.
