(* ===== verification/Names.v ===== *)
(** * Domain names: [engine/dnsname] and [engine/normalization]

    A name is a list of labels; [Dnsname] has the operations of [engine/dnsname/name.go]
    and [escape.go], [Normalization] the checks a name typed by a user goes through before
    it is tested.  The IDNA conversion ([golang.org/x/net/idna]), address parsing
    ([net/netip]) and reverse names ([dnsutil]) are parameters.  The regular expressions of
    [normalization.go] are predicates on bytes. *)

From S2P Require Import Prelude GoStrings RateLimit.

Local Open Scope string_scope.
Local Open Scope nat_scope.
Local Open Scope list_scope.

Definition dot : ascii := "."%char.

(** [strings.Compare]: -1, 0 or 1. *)
Definition strings_Compare (a b : string) : Z :=
  match String.compare a b with Lt => -1 | Eq => 0 | Gt => 1 end%Z.

Section unicode.
Context `{GoUnicode}.

(** ** [engine/dnsname] *)

(** [Name]; [cached] is what [FromString] keeps of the text. *)
Record Name := { labels : list string; cached : option string }.

(** The loop of [splitDomain], on the parts from the last to the first. *)
Fixpoint drop_empty (parts : list string) : list string :=
  match parts with
  | "" :: rest => drop_empty rest
  | _ => parts
  end.
Definition splitDomain (domain : string) : list string :=
  reverse (drop_empty (reverse (split dot domain))).

Definition trimTrailingDot (value : string) : string :=
  if has_suffix "." value && (1 <? String.length value) then trim_suffix value "." else value.

(** The error [FromString] returns is always nil. *)
Definition FromString (domain : string) : Name :=
  if decide (domain = "") then {| labels := []; cached := Some "" |}
  else {| labels := splitDomain domain; cached := Some (trimTrailingDot domain) |}.

Definition New (domain : string) : Name :=
  if decide (domain = "") then {| labels := []; cached := None |}
  else {| labels := splitDomain domain; cached := None |}.

Definition NewFromLabels (ls : list string) : Name := {| labels := ls; cached := None |}.
Definition Labels (n : Name) : list string := labels n.

(** [Name.String] *)
Definition NameString (n : Name) : string :=
  match cached n with
  | Some c => c
  | None => let joined := join "." (labels n) in if decide (joined = "") then "." else joined
  end.

Definition FQDN (n : Name) : string :=
  match labels n with [] => "." | ls => join "." ls +:+ "." end.

Definition Compare (n other : Name) : Z :=
  strings_Compare (to_upper (NameString n)) (to_upper (NameString other)).
Definition CompareString (n : Name) (other : string) : Z :=
  strings_Compare (to_upper (NameString n)) (to_upper (trimTrailingDot other)).

(** The parent, or [None] for the root. *)
Definition NextHigher (n : Name) : option Name :=
  match labels n with
  | [] => None
  | _ :: ls => Some {| labels := ls; cached := None |}
  end.

Definition reverseCopy (input : list string) : list string := reverse input.

(** The loop of [Common], on the labels from the right. *)
Fixpoint common_loop (me them : list string) (count : nat) : nat :=
  match me, them with
  | m :: me', t :: them' =>
      if decide (to_upper m = to_upper t) then common_loop me' them' (S count) else count
  | _, _ => count
  end.
Definition Common (n other : Name) : nat :=
  common_loop (reverseCopy (labels n)) (reverseCopy (labels other)) 0.

Definition IsInBailiwick (n other : Name) : bool := length (labels n) =? Common n other.

Definition Prepend (n : Name) (label : string) : Name :=
  {| labels := label :: labels n; cached := None |}.

Definition StringLower (n : Name) : string := to_lower (NameString n).
Definition StringUpper (n : Name) : string := to_upper (NameString n).

(** *** [escape.go] *)

Definition needs_escape (c : ascii) : bool := ((byte_code c <=? 32) || (127 <=? byte_code c))%N.

Definition writeDecimal (c : ascii) : string :=
  let n := byte_code c in
  let d k := String (ascii_of_N (48 + k)) "" in
  "\" +:+ d (n / 100)%N +:+ d ((n / 10) `mod` 10)%N +:+ d (n `mod` 10)%N.

(** The second loop of [Escape]; the first only finds out whether there is work. *)
Fixpoint escape_bytes (s : string) : string :=
  match s with
  | "" => ""
  | String c r => (if needs_escape c then writeDecimal c else String c "") +:+ escape_bytes r
  end.
Definition EscapeName (s : string) : string :=
  if string_forallb (λ c, negb (needs_escape c)) s then s else escape_bytes s.

(** ** [engine/normalization] *)

(** [Error]; the parameters are keyed by their name. *)
Record NormError := { Tag : string; Params : gmap string string }.

Definition quote : string := String (ascii_of_N 34) "".

Definition errorSpecs : list (string * (string * list string)) :=
  [("AMBIGUOUS_DOWNCASING",
     ("Ambiguous downcasing of character " +:+ quote +:+ "{unicode_name}" +:+ quote
        +:+ " in the domain name. Use all lower case instead.", ["unicode_name"]));
   ("DOMAIN_NAME_TOO_LONG", ("Domain name is too long (more than 253 characters with no final dot).", []));
   ("EMPTY_DOMAIN_NAME", ("Domain name is empty.", []));
   ("INITIAL_DOT", ("Domain name starts with dot.", []));
   ("INVALID_ASCII",
     ("Domain name has an ASCII label (" +:+ quote +:+ "{label}" +:+ quote
        +:+ ") with a character not permitted.", ["label"]));
   ("INVALID_U_LABEL",
     ("Domain name has a non-ASCII label (" +:+ quote +:+ "{label}" +:+ quote
        +:+ ") which is not a valid U-label.", ["label"]));
   ("REPEATED_DOTS", ("Domain name has repeated dots.", []));
   ("LABEL_TOO_LONG",
     ("Domain name has a label that is too long (more than 63 characters), " +:+ quote +:+ "{label}"
        +:+ quote +:+ ".", ["label"]))].

(** The loop over [spec.args]. *)
Fixpoint resolve_args (args : list string) (params : gmap string string)
    (resolved : gmap string string) : result (gmap string string) string :=
  match args with
  | [] => Ok resolved
  | arg :: rest =>
      match params !! arg with
      | None => Err ("missing argument " +:+ arg)
      | Some value => resolve_args rest params (<[arg := value]> resolved)
      end
  end.

Definition NewError (tag : string) (params : gmap string string) : result NormError string :=
  match assoc tag errorSpecs with
  | None => Err ("unknown error tag: " +:+ tag)
  | Some (_, args) =>
      let? resolved := resolve_args args params ∅ in Ok {| Tag := tag; Params := resolved |}
  end.

(** [strings.ReplaceAll] for a non-empty [old]; [skip] counts the bytes of an occurrence
    still to be left out. *)
Fixpoint replace_from (old new : string) (skip : nat) (s : string) : string :=
  match s with
  | "" => ""
  | String c r =>
      match skip with
      | S k => replace_from old new k r
      | O => if has_prefix old s then new +:+ replace_from old new (String.length old - 1) r
             else String c (replace_from old new 0 r)
      end
  end.
Definition ReplaceAll (s old new : string) : string := replace_from old new 0 s.

(** [Error.Message]; the parameters are replaced one by one in the order of the map. *)
Definition Message (e : NormError) : string :=
  match assoc (Tag e) errorSpecs with
  | None => ""
  | Some (msg, _) =>
      foldl (λ msg '(key, value), ReplaceAll msg ("{" +:+ key +:+ "}") value) msg
        (map_to_list (Params e))
  end.

(** What [err, _ := NewError(...)] leaves: the zero [Error] when [NewError] fails. *)
Definition error_of (tag : string) (params : gmap string string) : NormError :=
  match NewError tag params with Ok e => e | Err _ => {| Tag := ""; Params := ∅ |} end.

(** [^[A-Za-z0-9/_-]+$] and [^[\x00-\x7F]+$] *)
Definition valid_byte (c : ascii) : bool :=
  is_upper_byte c || is_lower_byte c || is_digit_byte c
  || bool_decide (c = "/"%char) || bool_decide (c = "_"%char) || bool_decide (c = "-"%char).
Definition validASCII (s : string) : bool :=
  negb (bool_decide (s = "")) && string_forallb valid_byte s.
Definition asciiOnly (s : string) : bool := negb (bool_decide (s = "")) && is_ascii s.

(** The UTF-8 encodings of the three other full stops: U+FF0E, U+3002 and U+FF61. *)
Definition full_stops : list string := map bytes [[239; 188; 142]; [227; 128; 130]; [239; 189; 161]]%N.
Fixpoint replace_full_stops (s : string) : string :=
  match s with
  | "" => ""
  | String a s1 =>
      match s1 with
      | String b (String c r) =>
          if bool_decide (String a (String b (String c "")) ∈ full_stops)
          then String dot (replace_full_stops r) else String a (replace_full_stops s1)
      | _ => String a (replace_full_stops s1)
      end
  end.

(** U+0130, the only rune of [ambiguousRunes]. *)
Definition ambiguousRune : string := bytes [196; 176]%N.

(** The encodings of [whitespaceRunes]. *)
Definition whitespace_encodings : list string :=
  map bytes
    ([[32]; [9]; [194; 160]; [225; 154; 128]]
     ++ map (λ n, [226; 128; n]) [128; 129; 130; 131; 132; 133; 134; 135; 136; 137; 138]
     ++ [[226; 129; 159]; [227; 128; 128]])%N.
Definition TrimSpace (str : string) : string := trim_with whitespace_encodings str.

(** [idna.Lookup.ToASCII]; [None] is an error. *)
Variable ToASCII : string → option string.

Definition NormalizeLabel (label : string) : list NormError * string :=
  if validASCII label then
    let alabel := to_lower label in
    if 63 <? String.length alabel then ([error_of "LABEL_TOO_LONG" {["label" := label]}], "")
    else ([], alabel)
  else if asciiOnly label then ([error_of "INVALID_ASCII" {["label" := label]}], "")
  else match ToASCII label with
       | None => ([error_of "INVALID_U_LABEL" {["label" := label]}], "")
       | Some alabel =>
           if 63 <? String.length alabel then ([error_of "LABEL_TOO_LONG" {["label" := label]}], "")
           else ([], alabel)
       end.

(** The loop of [NormalizeName] over the labels. *)
Fixpoint normalize_labels (ls : list string) (errors : list NormError) (normalized : list string)
  : list NormError * list string :=
  match ls with
  | [] => (errors, normalized)
  | label :: rest =>
      let '(labelErrors, alabel) := NormalizeLabel label in
      normalize_labels rest (errors ++ labelErrors) (normalized ++ [alabel])
  end.

Definition NormalizeName (name : string) : list NormError * string :=
  if decide (name = "") then ([error_of "EMPTY_DOMAIN_NAME" ∅], "")
  else if contains name ambiguousRune then
    ([error_of "AMBIGUOUS_DOWNCASING" {["unicode_name" := "LATIN CAPITAL LETTER I WITH DOT ABOVE"]}], "")
  else
    let uname := replace_full_stops name in
    if decide (uname = ".") then ([], uname)
    else if has_prefix "." uname then ([error_of "INITIAL_DOT" ∅], "")
    else if contains uname ".." then ([error_of "REPEATED_DOTS" ∅], "")
    else
      let uname := trim_suffix uname "." in
      let '(errors, normalized) := normalize_labels (split dot uname) [] [] in
      if decide (errors ≠ []) then (errors, "")
      else
        let finalName := join "." normalized in
        if 253 <? String.length finalName then ([error_of "DOMAIN_NAME_TOO_LONG" ∅], "")
        else ([], finalName).

(** [Addr.Zone] and [dnsutil.ReverseAddr]. *)
Context `{Netip} (Zone ReverseAddr : Addr → string).

Definition NormalizeTarget (name : string) : list NormError * string :=
  match ParseAddr name with
  | Some addr =>
      if decide (Zone addr = "") then ([], trim_suffix (ReverseAddr addr) ".")
      else NormalizeName name
  | None => NormalizeName name
  end.
End unicode.
