(* ===== verification/NamesFacts.v ===== *)
(** * Facts about domain names

    What parsing and printing a name, comparing labels from the right and normalising a
    typed name promise, for the definitions of [Names]. *)

From S2P Require Import Prelude GoStrings RateLimit Names.

Local Open Scope string_scope.
Local Open Scope nat_scope.
Local Open Scope list_scope.

(** ** Strings and labels *)

(** What follows the last dot of [s] is its last label. *)
Lemma split_snoc_dot s : split dot (s +:+ ".") = split dot s ++ [""].
Proof. apply split_app_any. Qed.

Lemma has_suffix_dot s : has_suffix "." s = true ↔ ∃ ps, split dot s = ps ++ [""] ∧ ps ≠ [].
Proof.
  rewrite has_suffix_iff. split.
  - intros [r ->]. rewrite split_snoc_dot. eauto using split_not_nil.
  - intros (ps & E & Hps). exists (join "." ps).
    rewrite <- (join_split dot s), E. clear E. fold dot.
    induction ps as [|p ps IH]; [done|]. destruct (decide (ps = [])) as [->|Hn]; [done|].
    simpl app. rewrite !join_cons by (by destruct ps). rewrite IH by done.
    by rewrite !string_app_assoc.
Qed.

Lemma join_not_empty ps : Forall (λ p, p ≠ "") ps → ps ≠ [] → join "." ps ≠ "".
Proof. destruct 1 as [|p ps Hp _]; [done|]. intros _. destruct p, ps; done. Qed.

(** *** Repeated dots *)

Lemma contains_dots_cons c s :
  contains (String c s) ".." = (bool_decide (c = dot) && has_prefix "." s) || contains s "..".
Proof.
  change (contains (String c s) "..") with (has_prefix ".." (String c s) || contains s "..").
  f_equal. cbn [has_prefix]. f_equal. apply bool_decide_ext. unfold dot. split; congruence.
Qed.

Lemma has_prefix_dot s : has_prefix "." s = true ↔ ∃ ps, split dot s = "" :: ps ∧ ps ≠ [].
Proof.
  destruct s as [|c s]; [split; [done|naive_solver]|]. cbn [has_prefix split].
  rewrite andb_true_r, bool_decide_eq_true. destruct (bool_decide (c = dot)) eqn:E; breflect.
  - subst. split; [eauto using split_not_nil|done].
  - split; [intros <-; done|]. intros (ps & H & ?). destruct (split dot s); simplify_eq.
Qed.

(** Two dots in a row are an empty label that is neither the first nor the last. *)
Lemma contains_dots s :
  contains s ".." = false ↔ Forall (λ p, p ≠ "") (removelast (tail (split dot s))).
Proof.
  induction s as [|c s IH]; [split; [constructor|done]|].
  rewrite contains_dots_cons, orb_false_iff, IH. cbn [split].
  destruct (bool_decide (c = dot)) eqn:E; cbn [andb tail].
  - destruct (has_prefix "." s) eqn:Hp.
    + apply has_prefix_dot in Hp as ([|q qs] & Hs & ?); [done|]. rewrite Hs.
      cbn [removelast]. rewrite Forall_cons. naive_solver.
    + destruct (split dot s) as [|p [|q qs]] eqn:Hs; [done|naive_solver|].
      cbn [tail removelast]. rewrite Forall_cons. split; [|naive_solver]. intros [_ ?]. split; [|done].
      intros ->. apply not_true_iff_false in Hp. apply Hp, has_prefix_dot. rewrite Hs. eauto.
  - destruct (split dot s) as [|p ps] eqn:Hs; [by destruct (split_not_nil dot s)|].
    simpl. naive_solver.
Qed.

(** The checks of [NormalizeName] leave a name whose labels are not empty. *)
Lemma dots_checked u :
  u ≠ "" → u ≠ "." →
  has_prefix "." u = false ∧ contains u ".." = false ↔
  Forall (λ p, p ≠ "") (split dot (trim_suffix u ".")).
Proof.
  intros Hne Hnd. rewrite contains_dots, <- not_true_iff_false, has_prefix_dot.
  destruct (has_suffix "." u) eqn:Hs.
  - apply has_suffix_iff in Hs as [r ->]. rewrite trim_suffix_app, split_snoc_dot.
    destruct (split dot r) as [|p ps] eqn:Hr; [by destruct (split_not_nil dot r)|].
    simpl. rewrite removelast_last, Forall_cons. split.
    + intros [H1 H2]. split; [|done]. intros ->. apply H1.
      exists (ps ++ [""]). split; [done|by destruct ps].
    + intros [H1 H2]. split; [|done]. intros (qs & Eq & _). naive_solver.
  - rewrite trim_suffix_none by done. apply not_true_iff_false in Hs. rewrite has_suffix_dot in Hs.
    destruct (split dot u) as [|p ps] eqn:Hu; [by destruct (split_not_nil dot u)|].
    simpl. rewrite Forall_cons. destruct (decide (ps = [])) as [->|Hps].
    { split; [|intros []; split; [naive_solver|constructor]]. intros _. split; [|done]. intros ->.
      apply Hne. rewrite <- (join_split dot u), Hu. done. }
    destruct (exists_last Hps) as (qs & q & ->). rewrite removelast_last, Forall_app, Forall_singleton.
    split.
    + intros [H1 H2]. repeat split; [|done|]; intros ->.
      * apply H1. by eauto.
      * apply Hs. exists (p :: qs). done.
    + intros (H1 & H2 & _). split; [naive_solver|done].
Qed.

Section unicode.
Context `{GoUnicode}.

(** ** Parsing and printing *)

Lemma new_labels d : labels (New d) = splitDomain d.
Proof. unfold New. case_decide; by subst. Qed.

Lemma drop_empty_app ps : drop_empty ("" :: ps) = drop_empty ps.
Proof. done. Qed.
Lemma drop_empty_head p ps : p ≠ "" → drop_empty (p :: ps) = p :: ps.
Proof. by destruct p. Qed.
Lemma drop_empty_not ps qs : drop_empty ps ≠ "" :: qs.
Proof. induction ps as [|[|c p] ps IH]; done. Qed.
Lemma drop_empty_suffix ps : ∃ k, ps = k ++ drop_empty ps.
Proof.
  induction ps as [|[|c p] ps [k IH]]; [by exists []| |by exists []].
  exists ("" :: k). simpl. by f_equal.
Qed.

(** The labels of a parsed name: free of dots, the last one not empty. *)
Definition proper (ls : list string) : Prop :=
  Forall (λ p, contains_byte dot p = false) ls ∧ last ls ≠ Some "".

Lemma splitDomain_proper d : proper (splitDomain d).
Proof.
  unfold splitDomain. split.
  - rewrite Forall_reverse. destruct (drop_empty_suffix (reverse (split dot d))) as [k Hk].
    pose proof (split_free dot d) as Hf. rewrite <- Forall_reverse, Hk, Forall_app in Hf. apply Hf.
  - destruct (drop_empty (reverse (split dot d))) as [|q qs] eqn:E; [done|].
    rewrite reverse_cons, last_snoc. intros [= ->]. by apply drop_empty_not in E.
Qed.

Lemma splitDomain_join ls : proper ls → ls ≠ [] → splitDomain (join "." ls) = ls.
Proof.
  intros [Hd Hl] Hne. unfold splitDomain. rewrite split_join by done.
  destruct (exists_last Hne) as (ps & p & ->). rewrite last_snoc in Hl.
  rewrite reverse_snoc.
  rewrite drop_empty_head by congruence. by rewrite reverse_cons, reverse_involutive.
Qed.

Lemma splitDomain_dot d : splitDomain (d +:+ ".") = splitDomain d.
Proof. unfold splitDomain. by rewrite split_snoc_dot, reverse_snoc. Qed.

Lemma join_proper ls : proper ls → join "." ls = "" → ls = [].
Proof.
  intros [_ Hl] Hj. destruct ls as [|p [|q ps]]; [done|simpl in Hj; by subst|].
  simpl in Hj. by destruct p.
Qed.

Lemma new_string_parse d : splitDomain (NameString (New d)) = splitDomain d.
Proof.
  unfold NameString. replace (cached (New d)) with (@None string) by (unfold New; by case_decide).
  rewrite new_labels. cbv zeta. case_decide as E.
  - apply join_proper in E; [by rewrite E|apply splitDomain_proper].
  - apply splitDomain_join; [apply splitDomain_proper|]. intros E'. by rewrite E' in E.
Qed.

(** printing a parsed name, without or with the final dot, and parsing it again gives
    the same labels; a final dot of the text never matters, and two texts have the same
    labels exactly when they print alike. *)
Theorem new_string_roundtrip d e :
  labels (New (NameString (New d))) = labels (New d) ∧
  labels (New (FQDN (New d))) = labels (New d) ∧
  labels (New (d +:+ ".")) = labels (New d) ∧
  (labels (New d) = labels (New e) ↔ NameString (New d) = NameString (New e)).
Proof.
  rewrite !new_labels, splitDomain_dot, new_string_parse. repeat split.
  - unfold FQDN. rewrite new_labels.
    destruct (splitDomain d) as [|p ps] eqn:E; [done|].
    rewrite splitDomain_dot. apply splitDomain_join; [|done]. rewrite <- E. apply splitDomain_proper.
  - intros E. unfold NameString.
    replace (cached (New d)) with (cached (New e)) by (unfold New; by repeat case_decide).
    by rewrite !new_labels, E.
  - intros E. by rewrite <- (new_string_parse d), E, new_string_parse.
Qed.

(** ** Comparing labels from the right *)

Definition folded (n : Name) : list string := to_upper <$> labels n.

Lemma common_loop_spec me them k :
  let c := common_loop me them k - k in
  k ≤ common_loop me them k ∧ c ≤ length me ∧ c ≤ length them ∧
  take c (to_upper <$> me) = take c (to_upper <$> them) ∧
  ∀ ks, ks `prefix_of` (to_upper <$> me) → ks `prefix_of` (to_upper <$> them) → length ks ≤ c.
Proof.
  revert them k. induction me as [|m me IH]; intros them k; simpl.
  { rewrite Nat.sub_diag. repeat split; [lia..|]. intros ks Hk _. by apply prefix_nil_inv in Hk as ->. }
  destruct them as [|t them].
  { rewrite Nat.sub_diag. repeat split; [lia..|]. intros ks _ Hk. by apply prefix_nil_inv in Hk as ->. }
  case_decide as E.
  - destruct (IH them (S k)) as (H1 & H2 & H3 & H4 & H5).
    replace (common_loop me them (S k) - k) with (S (common_loop me them (S k) - S k)) by lia.
    repeat split; simpl; [lia..| |].
    + rewrite E. f_equal. exact H4.
    + intros [|u ks] Hm Ht; simpl; [lia|]. apply prefix_cons_inv_2 in Hm, Ht.
      specialize (H5 _ Hm Ht). lia.
  - rewrite Nat.sub_diag. repeat split; [lia..|].
    intros [|u ks] Hm Ht; [done|]. apply prefix_cons_inv_1 in Hm, Ht. congruence.
Qed.

(** [Common] counts the labels of the longest common suffix of two names, compared
    without case, and [IsInBailiwick] holds exactly when the whole name is such a suffix. *)
Theorem common_longest_suffix n o :
  ∃ ls, ls `suffix_of` folded n ∧ ls `suffix_of` folded o ∧ length ls = Common n o ∧
    (∀ ks, ks `suffix_of` folded n → ks `suffix_of` folded o → ks `suffix_of` ls) ∧
    (IsInBailiwick n o = true ↔ folded n `suffix_of` folded o).
Proof.
  unfold IsInBailiwick, Common, reverseCopy.
  destruct (common_loop_spec (reverse (labels n)) (reverse (labels o)) 0) as (_ & H1 & H2 & H3 & H4).
  set (c := common_loop _ _ 0) in *. rewrite Nat.sub_0_r in *. rewrite !length_reverse in *.
  rewrite !fmap_reverse in *. fold (folded n) (folded o) in *.
  assert (Hn : length (folded n) = length (labels n)) by apply length_fmap.
  set (p := take c (reverse (folded n))) in *.
  assert (Hp : length p = c) by (unfold p; rewrite length_take, length_reverse; lia).
  assert (Hmax : ∀ ks, ks `suffix_of` folded n → ks `suffix_of` folded o → length ks ≤ c).
  { intros ks Ha Hb. rewrite <- (length_reverse ks).
    apply H4; apply suffix_prefix_reverse; by rewrite ?reverse_involutive. }
  assert (Hsn : reverse p `suffix_of` folded n).
  { apply suffix_prefix_reverse. rewrite reverse_involutive. apply prefix_take. }
  assert (Hso : reverse p `suffix_of` folded o).
  { apply suffix_prefix_reverse. rewrite reverse_involutive, H3. apply prefix_take. }
  exists (reverse p). repeat split; [done..|by rewrite length_reverse| | |].
  - intros ks Ha Hb. destruct (suffix_weak_total _ _ _ Ha Hsn) as [?|Hc]; [done|].
    apply suffix_length in Hc as Hl. rewrite length_reverse in Hl.
    specialize (Hmax _ Ha Hb). destruct Hc as [q Hq].
    rewrite Hq, length_app, length_reverse in Hmax. destruct q; [by rewrite Hq|simpl in *; lia].
  - intros E%Nat.eqb_eq. destruct Hsn as [q Hq].
    assert (q = []) as ->.
    { apply (f_equal length) in Hq. rewrite length_app, length_reverse in Hq. destruct q; [done|simpl in *; lia]. }
    by rewrite Hq.
  - intros E. apply Nat.eqb_eq. specialize (Hmax _ ltac:(reflexivity) E). lia.
Qed.

(** ** Normalisation *)

(** What a label of a normalised name is. *)
Definition label_ok (l : string) : Prop :=
  l ≠ "" ∧ string_forallb valid_byte l = true ∧ String.length l ≤ 63.

#[export] Instance label_ok_dec l : Decision (label_ok l).
Proof. unfold label_ok. apply _. Defined.

Lemma valid_byte_ascii c : valid_byte c = true → is_ascii_byte c = true.
Proof. destruct c as [[] [] [] [] [] [] [] []]; by vm_compute. Qed.
Lemma valid_byte_lower c : valid_byte (byte_lower c) = valid_byte c.
Proof. destruct c as [[] [] [] [] [] [] [] []]; by vm_compute. Qed.
Lemma valid_byte_dot c : valid_byte c = true → c ≠ dot.
Proof. by intros H' ->. Qed.
Lemma byte_lower_dot c : byte_lower c = dot ↔ c = dot.
Proof. split; [|by intros ->]. destruct c as [[] [] [] [] [] [] [] []]; by vm_compute. Qed.

Lemma valid_ascii l : string_forallb valid_byte l = true → is_ascii l = true.
Proof. apply string_forallb_impl, valid_byte_ascii. Qed.

Lemma valid_lower l : is_ascii l = true →
  string_forallb valid_byte (to_lower l) = string_forallb valid_byte l.
Proof.
  intros Hl. rewrite to_lower_ascii by done. rewrite string_forallb_map.
  apply string_forallb_ext, valid_byte_lower.
Qed.

Lemma valid_no_dot l : string_forallb valid_byte l = true → contains_byte dot l = false.
Proof.
  intros Hl. unfold contains_byte. apply negb_false_iff. revert Hl. apply string_forallb_impl.
  intros c Hc. apply negb_true_iff, bool_decide_eq_false. intros <-. by apply valid_byte_dot in Hc.
Qed.

Lemma to_lower_empty l : is_ascii l = true → to_lower l = "" → l = "".
Proof. intros Ha E. rewrite to_lower_ascii in E by done. by destruct l. Qed.

Lemma label_ok_lower l : label_ok l → label_ok (to_lower l).
Proof.
  intros (H1 & H2 & H3). pose proof (valid_ascii l H2) as Ha. split_and!.
  - intros E. by apply H1, to_lower_empty.
  - by rewrite valid_lower.
  - by rewrite to_lower_length.
Qed.

Lemma string_map_join f l : f dot = dot → string_map f (join "." l) = join "." (string_map f <$> l).
Proof.
  intros Hf. induction l as [|p l IH]; [done|].
  destruct (decide (l = [])) as [->|Hl]; [done|].
  rewrite fmap_cons, !join_cons by (by destruct l). rewrite <- IH.
  assert (Happ : ∀ a b, string_map f (a +:+ b) = string_map f a +:+ string_map f b).
  { clear. induction a as [|c a IH]; intros b; simpl; [done|]. by rewrite IH. }
  rewrite !Happ. simpl. unfold dot in Hf. by rewrite Hf.
Qed.

Lemma is_ascii_join l : is_ascii (join "." l) = true ↔ Forall (λ p, is_ascii p = true) l.
Proof.
  unfold is_ascii. induction l as [|p l IH]; [split; [constructor|done]|].
  destruct (decide (l = [])) as [->|Hl].
  { rewrite Forall_singleton. done. }
  rewrite join_cons, !string_forallb_app, !andb_true_iff, IH, Forall_cons by done. naive_solver.
Qed.

Lemma to_lower_join l : Forall (λ p, is_ascii p = true) l →
  to_lower (join "." l) = join "." (to_lower <$> l).
Proof.
  intros Hl. rewrite to_lower_ascii by by apply is_ascii_join. rewrite string_map_join by done.
  f_equal. apply list_fmap_ext. intros i p Hp. rewrite Forall_lookup in Hl.
  by rewrite to_lower_ascii by eauto.
Qed.

Context (ToASCII : string → option string).

Lemma normalize_labels_spec ls errs norm :
  normalize_labels ToASCII ls errs norm =
    (errs ++ concat ((λ l, (NormalizeLabel ToASCII l).1) <$> ls),
     norm ++ ((λ l, (NormalizeLabel ToASCII l).2) <$> ls)).
Proof.
  revert errs norm. induction ls as [|l ls IH]; intros; simpl; [by rewrite !app_nil_r|].
  destruct (NormalizeLabel ToASCII l) as [es a] eqn:E. rewrite IH. simpl. by rewrite <- !app_assoc.
Qed.

Lemma label_lower_bound l : String.length (to_lower l) ≤ 63 ↔ (63 <? String.length (to_lower l)) = false.
Proof. rewrite Nat.ltb_ge. done. Qed.

(** What a label that is accepted becomes. *)
Lemma normalize_label_ok l :
  label_ok l → NormalizeLabel ToASCII l = ([], to_lower l).
Proof.
  intros (H1 & H2 & H3). unfold NormalizeLabel, validASCII.
  rewrite bool_decide_eq_false_2, H2 by done. cbn [negb andb].
  rewrite (proj1 (label_lower_bound l)); [done|]. by rewrite to_lower_length by by apply valid_ascii.
Qed.

Lemma normalize_label_ascii l :
  is_ascii l = true → l ≠ "" → (NormalizeLabel ToASCII l).1 = [] → label_ok l.
Proof.
  intros Ha Hne. unfold NormalizeLabel, validASCII, asciiOnly.
  rewrite bool_decide_eq_false_2, Ha by done. cbn [negb andb].
  destruct (string_forallb valid_byte l) eqn:Hv; [|done].
  case_match eqn:E; [done|]. intros _. apply label_lower_bound in E.
  rewrite to_lower_length in E by done. done.
Qed.

(** Every accepted label is short, and the text of an error never comes with a label. *)
Lemma normalize_label_bound l es a :
  NormalizeLabel ToASCII l = (es, a) → String.length a ≤ 63 ∧ (es ≠ [] → a = "").
Proof.
  unfold NormalizeLabel. intros E. repeat case_match; simplify_eq; simpl; split; try lia; try done;
    by apply Nat.ltb_ge.
Qed.

Lemma concat_nil {A} (ls : list (list A)) : concat ls = [] ↔ Forall (λ l, l = []) ls.
Proof.
  induction ls as [|l ls IH]; simpl; [split; [constructor|done]|].
  rewrite app_nil, IH, Forall_cons. done.
Qed.

Lemma replace_full_stops_ascii s : is_ascii s = true → replace_full_stops s = s.
Proof.
  unfold is_ascii. induction s as [|a s IH]; [done|].
  intros Hs. apply andb_true_iff in Hs as [Ha Hs]. specialize (IH Hs).
  cbn [replace_full_stops]. rewrite IH. destruct s as [|b [|c s]]; [done..|].
  rewrite bool_decide_eq_false_2; [done|]. intros Hin.
  cut (a = ascii_of_N 239 ∨ a = ascii_of_N 227); [by intros [->| ->]|].
  revert Hin. unfold full_stops. rewrite list_elem_of_fmap. intros (x & Hx & Hi).
  revert Hx. repeat (apply elem_of_cons in Hi as [->|Hi]; [intros Hx; injection Hx; auto|]).
  by apply elem_of_nil in Hi.
Qed.

Lemma contains_app s t sub : has_prefix sub t = true → contains (s +:+ t) sub = true.
Proof.
  intros Hp. induction s as [|c s IH].
  - destruct t; cbn [append contains]; by rewrite Hp.
  - change (String c s +:+ t) with (String c (s +:+ t)). cbn [contains]. by rewrite IH, orb_true_r.
Qed.

Lemma contains_split s sub : contains s sub = true → ∃ a b, s = a +:+ sub +:+ b.
Proof.
  induction s as [|c s IH]; simpl; rewrite orb_true_iff; intros [Hp|Hc].
  - apply has_prefix_iff in Hp as [r ->]. by exists "", r.
  - done.
  - apply has_prefix_iff in Hp as [r Hr]. exists "", r. done.
  - destruct (IH Hc) as (a & b & ->). by exists (String c a), b.
Qed.

Lemma contains_ambiguous s : is_ascii s = true → contains s ambiguousRune = false.
Proof.
  intros Hs. apply not_true_iff_false. intros Hc.
  apply contains_split in Hc as (a & b & ->). unfold is_ascii in Hs.
  rewrite string_forallb_app in Hs. apply andb_true_iff in Hs as [_ Hs]. by vm_compute in Hs.
Qed.

(** A name whose labels are all accepted. *)
Definition host_name (n : string) : Prop :=
  Forall label_ok (split dot n) ∧ String.length n ≤ 253.

#[export] Instance host_name_dec n : Decision (host_name n).
Proof. unfold host_name. apply _. Defined.

Lemma labels_ascii v : is_ascii v = true ↔ Forall (λ l, is_ascii l = true) (split dot v).
Proof. rewrite <- (join_split dot v) at 1. apply is_ascii_join. Qed.

Lemma to_lower_split v : is_ascii v = true → to_lower v = join "." (to_lower <$> split dot v).
Proof. intros Ha. rewrite <- (join_split dot v) at 1. apply to_lower_join, labels_ascii, Ha. Qed.

(** The part of [NormalizeName] behind its checks of the whole text. *)
Definition after_checks (v : string) : list NormError * string :=
  let es := concat ((λ l, (NormalizeLabel ToASCII l).1) <$> split dot v) in
  let n := join "." ((λ l, (NormalizeLabel ToASCII l).2) <$> split dot v) in
  if decide (es ≠ []) then (es, "")
  else if 253 <? String.length n then ([error_of "DOMAIN_NAME_TOO_LONG" ∅], "") else ([], n).

Lemma normalize_name_cases s n :
  let u := replace_full_stops s in
  NormalizeName ToASCII s = ([], n) →
  s ≠ "" ∧ contains s ambiguousRune = false ∧
  (u = "." ∧ n = "." ∨
   u ≠ "." ∧ has_prefix "." u = false ∧ contains u ".." = false ∧
     after_checks (trim_suffix u ".") = ([], n)).
Proof.
  intros u. unfold NormalizeName. fold u. case_decide as He; [done|].
  destruct (contains s ambiguousRune) eqn:Ha; [done|]. case_decide as Hu; [naive_solver|].
  destruct (has_prefix "." u) eqn:Hp; [done|]. destruct (contains u "..") eqn:Hd; [done|].
  rewrite normalize_labels_spec. auto 10.
Qed.

Lemma normalize_name_run s n :
  let u := replace_full_stops s in
  s ≠ "" → contains s ambiguousRune = false → u ≠ "." →
  has_prefix "." u = false → contains u ".." = false → after_checks (trim_suffix u ".") = ([], n) →
  NormalizeName ToASCII s = ([], n).
Proof.
  intros u He Ha Hu Hp Hd Hn. unfold NormalizeName. fold u.
  rewrite decide_False, Ha, decide_False, Hp, Hd by done. by rewrite normalize_labels_spec.
Qed.

Lemma replace_full_stops_empty s : replace_full_stops s = "" → s = "".
Proof. destruct s as [|a [|b [|c s]]]; cbn [replace_full_stops]; [done..|]. by case_match. Qed.

(** Accepted labels make an accepted name. *)
Lemma after_checks_host v : host_name v → after_checks v = ([], to_lower v).
Proof.
  intros [Hl Hlen]. unfold after_checks.
  assert (Hls : ∀ {B} (f : list NormError * string → B),
    (λ l, f (NormalizeLabel ToASCII l)) <$> split dot v = (λ l, f ([], to_lower l)) <$> split dot v).
  { intros B f. apply list_fmap_ext. intros i l Hi. rewrite Forall_lookup in Hl.
    by rewrite normalize_label_ok by eauto. }
  rewrite (Hls _ fst), (Hls _ snd). simpl.
  replace (concat _) with (@nil NormError) by (symmetry; apply concat_nil, Forall_fmap, Forall_true; done).
  rewrite decide_False by auto.
  assert (Ha : is_ascii v = true).
  { apply labels_ascii. eapply Forall_impl; [exact Hl|]. intros l (_ & Hv & _). by apply valid_ascii. }
  rewrite <- to_lower_split, to_lower_length by done.
  by rewrite (proj2 (Nat.ltb_ge _ _)).
Qed.

Lemma after_checks_ascii v n : is_ascii v = true → Forall (λ p, p ≠ "") (split dot v) →
  after_checks v = ([], n) → host_name v ∧ n = to_lower v.
Proof.
  intros Ha Hne Hn.
  assert (Hl : Forall label_ok (split dot v)).
  { unfold after_checks in Hn. case_decide as He; [naive_solver|].
    rewrite concat_nil, Forall_fmap in He.
    apply labels_ascii in Ha. rewrite !Forall_lookup in *. intros i l Hi.
    apply normalize_label_ascii; [by eapply Ha|by eapply Hne|by eapply He]. }
  destruct (decide (String.length v ≤ 253)) as [Hlen|Hlen].
  - rewrite after_checks_host in Hn by done. split; [done|congruence].
  - exfalso. unfold after_checks in Hn. case_decide as He; [naive_solver|].
    replace ((λ l, (NormalizeLabel ToASCII l).2) <$> split dot v) with (to_lower <$> split dot v) in Hn.
    + rewrite <- to_lower_split, to_lower_length in Hn by done.
      rewrite (proj2 (Nat.ltb_lt _ _)) in Hn by lia. done.
    + apply list_fmap_ext. intros i l Hi. rewrite Forall_lookup in Hl.
      by rewrite normalize_label_ok by eauto.
Qed.

Lemma is_ascii_trim s : is_ascii s = true → is_ascii (trim_suffix s ".") = true.
Proof.
  intros Hs. destruct (has_suffix "." s) eqn:E; [|by rewrite trim_suffix_none].
  apply has_suffix_iff in E as [r ->]. rewrite trim_suffix_app. unfold is_ascii in *.
  rewrite string_forallb_app in Hs. by apply andb_true_iff in Hs as [? _].
Qed.

(** C21: an ASCII name is accepted exactly when it is the root, or a host name after one
    final dot is removed: every label has 1 to 63 letters, digits, hyphens, underscores or
    slashes, and the whole has at most 253 characters.  It becomes its lower case. *)
Theorem normalize_ascii s n : is_ascii s = true →
  NormalizeName ToASCII s = ([], n) ↔
  s = "." ∧ n = "." ∨
  host_name (trim_suffix s ".") ∧ n = to_lower (trim_suffix s ".").
Proof.
  intros Ha. pose proof (replace_full_stops_ascii s Ha) as Hr. split.
  - intros Hn%normalize_name_cases. cbv zeta in Hn. rewrite Hr in Hn.
    destruct Hn as (Hne & _ & [?|(Hd & Hp & Hc & Hn)]); [by left|right].
    apply after_checks_ascii in Hn; [done|by apply is_ascii_trim|]. by apply dots_checked.
  - intros [[-> ->]|[Hh ->]]; [done|].
    assert (Hne : s ≠ "") by (intros ->; destruct Hh as [Hl _]; by inversion Hl as [|?? []]).
    assert (Hd : s ≠ ".") by (intros ->; destruct Hh as [Hl _]; by inversion Hl as [|?? []]).
    destruct (proj2 (dots_checked s Hne Hd)) as [Hp Hc].
    { eapply Forall_impl; [apply Hh|]. by intros ? []. }
    apply normalize_name_run; rewrite ?Hr; auto using contains_ambiguous, after_checks_host.
Qed.

Lemma split_nonempty_checked v n : Forall label_ok (split dot v) → after_checks v = ([], n) →
  host_name v ∧ n = to_lower v.
Proof.
  intros Hl. apply after_checks_ascii.
  - apply labels_ascii. eapply Forall_impl; [exact Hl|]. intros l (_ & Hv & _). by apply valid_ascii.
  - eapply Forall_impl; [exact Hl|]. by intros ? [].
Qed.

(** What the strict lookup profile of IDNA yields for a label it accepts: lower-case
    letters, digits and hyphens, possibly none at all. *)
Definition idna_label (a : string) : Prop :=
  string_forallb valid_byte a = true ∧ to_lower a = a.

(** A label of a result: one [NormalizeName] accepts, or an empty one. *)
Definition result_label (a : string) : Prop := a = "" ∨ label_ok a.

Lemma normalize_label_idna l a :
  (∀ x y, asciiOnly x = false → ToASCII x = Some y → idna_label y) →
  NormalizeLabel ToASCII l = ([], a) → result_label a ∧ to_lower a = a.
Proof.
  intros Hidna. unfold NormalizeLabel. destruct (validASCII l) eqn:Hv.
  - case_match eqn:E; [done|]. intros [= <-]. unfold validASCII in Hv. breflect.
    pose proof (valid_ascii l ltac:(done)) as Ha.
    split; [|by apply to_lower_idemp]. right. apply label_ok_lower. split_and!; [done..|].
    rewrite to_lower_length in E by done. exact E.
  - destruct (asciiOnly l) eqn:Hl; [done|]. destruct (ToASCII l) as [y|] eqn:Hy; [|done].
    destruct (Hidna _ _ Hl Hy). case_match eqn:E; [done|]. intros [= <-].
    apply Nat.ltb_ge in E. split; [|done]. destruct (decide (y = "")); [by left|by right].
Qed.

Lemma result_label_ascii a : result_label a → is_ascii a = true ∧ contains_byte dot a = false.
Proof.
  intros [->|(_ & Hv & _)]; [done|].
  auto using valid_ascii, valid_no_dot.
Qed.

Lemma after_checks_idna v n :
  (∀ x y, asciiOnly x = false → ToASCII x = Some y → idna_label y) →
  after_checks v = ([], n) →
  String.length n ≤ 253 ∧ Forall (λ a, result_label a ∧ to_lower a = a) (split dot n).
Proof.
  intros Hidna. unfold after_checks. case_decide as He; [naive_solver|].
  rewrite concat_nil, Forall_fmap in He. case_match eqn:Hlen; [done|]. intros [= <-].
  set (ns := (λ l, (NormalizeLabel ToASCII l).2) <$> split dot v) in *.
  assert (Hns : Forall (λ a, result_label a ∧ to_lower a = a) ns).
  { apply Forall_fmap, Forall_lookup. intros i l Hi. rewrite Forall_lookup in He.
    apply (normalize_label_idna l); [done|]. specialize (He _ _ Hi). simpl in *.
    destruct (NormalizeLabel ToASCII l); simpl in *; congruence. }
  rewrite split_join; [split; [by apply Nat.ltb_ge|done]|..].
  - unfold ns. destruct (split dot v) eqn:E; [by destruct (split_not_nil dot v)|done].
  - eapply Forall_impl; [exact Hns|]. intros a [Ha _]. by apply result_label_ascii.
Qed.

(** An ASCII name in lower case is its own normal form exactly when it is the root or a host
    name. *)
Lemma normal_form_iff n : is_ascii n = true → to_lower n = n →
  NormalizeName ToASCII n = ([], n) ↔ n = "." ∨ host_name n.
Proof.
  intros Ha Hlow. pose proof (replace_full_stops_ascii n Ha) as Hr. split.
  - intros (Hne & _ & [[Hd _]|(Hd & Hp & Hc & Hn)])%normalize_name_cases; rewrite Hr in *; [by left|].
    right. apply after_checks_ascii in Hn as [Hh En]; [|by apply is_ascii_trim|by apply dots_checked].
    destruct (has_suffix "." n) eqn:Hs; [|by rewrite trim_suffix_none in Hh].
    apply (f_equal String.length) in En. rewrite to_lower_length in En by by apply is_ascii_trim.
    apply has_suffix_iff in Hs as [r Er]. rewrite Er, trim_suffix_app, string_app_length in En.
    cbn in En. lia.
  - intros [->|Hh]; [done|].
    assert (Hs : has_suffix "." n = false).
    { apply not_true_iff_false. rewrite has_suffix_dot. intros (ps & E & _).
      destruct Hh as [Hl _]. rewrite E, Forall_app, Forall_singleton in Hl. by destruct Hl as [_ []]. }
    assert (Hne : n ≠ "") by (intros ->; destruct Hh as [Hl _]; by inversion Hl as [|?? []]).
    assert (Hd : n ≠ ".") by by intros ->.
    destruct (proj2 (dots_checked n Hne Hd)) as [Hp Hc].
    { rewrite trim_suffix_none by done. eapply Forall_impl; [apply Hh|]. by intros ? []. }
    apply normalize_name_run; rewrite ?Hr; auto using contains_ambiguous.
    rewrite trim_suffix_none by done. rewrite <- Hlow at 2. by apply after_checks_host.
Qed.

(** C32: when IDNA turns the labels it accepts into lower-case letters, digits and hyphens,
    possibly none, the result of [NormalizeName] is the root, or has at most 253 characters
    and labels that are empty or acceptable in lower case; normalising it again changes nothing
    exactly when it is the root or a host name, that is unless IDNA left a label empty. *)
Theorem normalize_stable s n :
  (∀ x y, asciiOnly x = false → ToASCII x = Some y → idna_label y) →
  NormalizeName ToASCII s = ([], n) →
  (n = "." ∨ String.length n ≤ 253 ∧ Forall result_label (split dot n) ∧ to_lower n = n) ∧
  (NormalizeName ToASCII n = ([], n) ↔ n = "." ∨ host_name n).
Proof.
  intros Hidna Hn. apply normalize_name_cases in Hn as (_ & _ & [[_ ->]|(_ & _ & _ & Hn)]).
  { split; [by left|]. by apply normal_form_iff. }
  apply after_checks_idna in Hn as [Hlen Hl]; [|done].
  assert (Ha : Forall (λ l, is_ascii l = true) (split dot n)).
  { eapply Forall_impl; [exact Hl|]. intros a [Ha _]. by apply result_label_ascii. }
  assert (Hlow : to_lower n = n).
  { rewrite to_lower_split by by apply labels_ascii. rewrite <- (join_split dot n) at 2.
    f_equal. rewrite <- (list_fmap_id (split dot n)) at 2. apply list_fmap_ext. intros i a Hi.
    rewrite Forall_lookup in Hl. by destruct (Hl _ _ Hi). }
  split; [right; split_and!; [done| |done]|].
  - eapply Forall_impl; [exact Hl|]. by intros a [].
  - apply normal_form_iff; [by apply labels_ascii|done].
Qed.

(** U+00AD, SOFT HYPHEN: IDNA maps it to nothing. *)
Definition soft_hyphen : string := bytes [194; 173]%N.

(** a label that IDNA maps to the empty string without an error is accepted: the soft
    hyphen alone becomes the empty name, and in front of [.com] it becomes [.com]; typed as
    such, both are errors. *)
Theorem ignored_label_accepted :
  ToASCII soft_hyphen = Some "" →
  NormalizeName ToASCII soft_hyphen = ([], "") ∧
  NormalizeName ToASCII (soft_hyphen +:+ ".com") = ([], ".com") ∧
  (NormalizeName ToASCII "").1 = [error_of "EMPTY_DOMAIN_NAME" ∅] ∧
  (NormalizeName ToASCII ".com").1 = [error_of "INITIAL_DOT" ∅].
Proof.
  intros E.
  assert (Hl : NormalizeLabel ToASCII soft_hyphen = ([], "")).
  { unfold NormalizeLabel. change (validASCII soft_hyphen) with false.
    change (asciiOnly soft_hyphen) with false. by rewrite E. }
  repeat split; try done; (apply normalize_name_run; try (vm_compute; congruence)); unfold after_checks.
  - change (split dot _) with [soft_hyphen]. cbn [fmap list_fmap]. by rewrite Hl.
  - change (split dot _) with [soft_hyphen; "com"]. cbn [fmap list_fmap]. by rewrite Hl.
Qed.

(** *** Escaping *)

Lemma needs_escape_digit n : (n < 10)%N → needs_escape (ascii_of_N (48 + n)) = false.
Proof.
  intros Hn. assert (n = 0 ∨ n = 1 ∨ n = 2 ∨ n = 3 ∨ n = 4 ∨ n = 5 ∨ n = 6 ∨ n = 7 ∨ n = 8 ∨ n = 9)%N as Hy by lia.
  repeat (destruct Hy as [->|Hy]; [done|]). by subst.
Qed.

Lemma string_forallb_cons f c s : string_forallb f (String c s) = f c && string_forallb f s.
Proof. done. Qed.

Lemma escape_name_plain s : string_forallb (λ c, negb (needs_escape c)) (EscapeName s) = true.
Proof.
  unfold EscapeName. destruct (string_forallb _ s) eqn:E; [done|]. clear E.
  induction s as [|c s IH]; [done|]. cbn [escape_bytes]. rewrite string_forallb_app, IH, andb_true_r.
  destruct (needs_escape c) eqn:Hc; [|cbn; by rewrite Hc].
  assert (byte_code c < 256)%N by (destruct c as [[] [] [] [] [] [] [] []]; by vm_compute).
  unfold writeDecimal. rewrite !string_forallb_app, !string_forallb_cons.
  rewrite !needs_escape_digit; [done| | |].
  - apply N.mod_lt. done.
  - apply N.mod_lt. done.
  - apply N.div_lt_upper_bound; lia.
Qed.

(** what [Escape] writes consists of printable ASCII without spaces, a name that
    already does is left alone, and escaping twice is escaping once. *)
Theorem escape_name_safe s :
  string_forallb (λ c, negb (needs_escape c)) (EscapeName s) = true ∧
  (string_forallb (λ c, negb (needs_escape c)) s = true → EscapeName s = s) ∧
  EscapeName (EscapeName s) = EscapeName s.
Proof.
  pose proof (escape_name_plain s) as Hs. repeat split; [done|by unfold EscapeName; intros ->|].
  unfold EscapeName at 1. by rewrite Hs.
Qed.
End unicode.

(** ** Witnesses *)

#[local] Existing Instance ascii_unicode.

(** An IDNA that knows one word. *)
Definition one_word (l : string) : option string :=
  if decide (l = bytes [195; 164]%N) then Some "xn--4ca" else None.

Lemma one_word_label x y : asciiOnly x = false → one_word x = Some y → idna_label y.
Proof. unfold one_word. case_decide; [|done]. intros _ [= <-]. by repeat split. Qed.

Lemma normalize_ascii_witness :
  is_ascii "Example.COM." = true ∧
  (NormalizeName one_word "Example.COM." = ([], "example.com") ↔
   "Example.COM." = "." ∧ "example.com" = "." ∨
   host_name (trim_suffix "Example.COM." ".") ∧ "example.com" = to_lower (trim_suffix "Example.COM." ".")).
Proof. split; [reflexivity|]. apply normalize_ascii. reflexivity. Defined.

Lemma normalize_stable_witness :
  NormalizeName one_word (bytes [195; 164; 46; 83; 69]%N) = ([], "xn--4ca.se") ∧
  ("xn--4ca.se" = "." ∨ String.length "xn--4ca.se" ≤ 253 ∧
     Forall result_label (split dot "xn--4ca.se") ∧ to_lower "xn--4ca.se" = "xn--4ca.se") ∧
  (NormalizeName one_word "xn--4ca.se" = ([], "xn--4ca.se") ↔
   "xn--4ca.se" = "." ∨ host_name "xn--4ca.se").
Proof.
  split; [vm_compute; reflexivity|].
  apply (normalize_stable one_word (bytes [195; 164; 46; 83; 69]%N)).
  - apply one_word_label.
  - vm_compute. reflexivity.
Defined.

(** An IDNA that drops soft hyphens. *)
Definition drops_hyphen (l : string) : option string :=
  if decide (l = soft_hyphen) then Some "" else None.

Lemma ignored_label_accepted_witness :
  drops_hyphen soft_hyphen = Some "" ∧ NormalizeName drops_hyphen soft_hyphen = ([], "").
Proof.
  split; [reflexivity|]. apply (ignored_label_accepted drops_hyphen). reflexivity.
Defined.
