(* ===== verification/Packet.v ===== *)
(** * Messages and what the tests read from them: [engine/packet] and [engine/ednsopt]

    A [dns.Msg] of the library is a record of the fields this code uses; the tables that
    turn numbers into text, the text of a record and Unicode case folding are the
    interface [DnsLib].  A packet's logger is left out, and so are [String] and [Data], which
    call the library's printer and packer. *)

From S2P Require Import Prelude GoStrings RateLimit Names.

Local Open Scope string_scope.
Local Open Scope Z_scope.
Local Open Scope list_scope.

(** ** Records *)

(** An EDNS option; [Option] stands for the types the code does not look into. *)
Inductive edns0 :=
| COOKIE (client server : string)
| EDE (infoCode : Z) (extraText : string)
| Option (code : Z) (data : string).

(** An element of the pseudo section: an option, or a record such as TSIG. *)
Inductive pseudo := Edns (o : edns0) | NotEdns (rrtype : Z).

(** The data of a record, by its Go type. *)
Inductive rdata (Addr : Type) :=
| RA (addr : Addr)
| RAAAA (addr : Addr)
| RNS (ns : string)
| RCNAME (target : string)
| RSOA
| ROPT (options : list edns0)
| ROther (rrtype : Z) (data : string).
Arguments RA {Addr} addr.
Arguments RAAAA {Addr} addr.
Arguments RNS {Addr} ns.
Arguments RCNAME {Addr} target.
Arguments RSOA {Addr}.
Arguments ROPT {Addr} options.
Arguments ROther {Addr} rrtype data.

(** A record: its header's [Name], [Class] and [TTL], and its data. *)
Record RR (Addr : Type) := { RRName : string; RRClass : Z; RRTTL : Z; RRData : rdata Addr }.
Arguments RRName {Addr} r.
Arguments RRClass {Addr} r.
Arguments RRTTL {Addr} r.
Arguments RRData {Addr} r.
Arguments Build_RR {Addr}.

(** [dns.RRToType] *)
Definition RRToType {Addr} (rr : RR Addr) : Z :=
  match RRData rr with
  | RA _ => 1 | RNS _ => 2 | RCNAME _ => 5 | RSOA => 6 | RAAAA _ => 28 | ROPT _ => 41
  | ROther t _ => t
  end.

(** [dns.Msg] *)
Record Msg (Addr : Type) := {
  ID : Z; Opcode : Z; Rcode : Z;
  Authoritative : bool; RecursionAvailable : bool; Truncated : bool;
  Security : bool; CompactAnswers : bool; Delegation : bool;
  UDPSize : Z; Version : Z; ZField : Z;
  Question : list (RR Addr); Answer : list (RR Addr); Ns : list (RR Addr); Extra : list (RR Addr);
  Pseudo : list pseudo
}.
Arguments ID {Addr} m.
Arguments Opcode {Addr} m.
Arguments Rcode {Addr} m.
Arguments Authoritative {Addr} m.
Arguments RecursionAvailable {Addr} m.
Arguments Truncated {Addr} m.
Arguments Security {Addr} m.
Arguments CompactAnswers {Addr} m.
Arguments Delegation {Addr} m.
Arguments UDPSize {Addr} m.
Arguments Version {Addr} m.
Arguments ZField {Addr} m.
Arguments Question {Addr} m.
Arguments Answer {Addr} m.
Arguments Ns {Addr} m.
Arguments Extra {Addr} m.
Arguments Pseudo {Addr} m.
Arguments Build_Msg {Addr}.

(** [Packet], without its logger; [packet_msg] is [None] for the zero packet. *)
Record Packet (Addr : Type) := {
  packet_msg : option (Msg Addr);
  AnswerFrom : string;
  QueryTime : Z;
  Timestamp : Z;
  Protocol : string
}.
Arguments packet_msg {Addr} p.
Arguments AnswerFrom {Addr} p.
Arguments QueryTime {Addr} p.
Arguments Timestamp {Addr} p.
Arguments Protocol {Addr} p.
Arguments Build_Packet {Addr}.

(** The library's tables and the text of a record. *)
Class DnsLib (Addr : Type) := {
  OpcodeToString : Z → string;
  RcodeToString : Z → string;
  TypeToString : Z → string;
  rr_text : RR Addr → string
}.

(** ** The OPT header: [engine/ednsopt] *)

Section opt.
Context {Addr : Type}.
Implicit Types rr : RR Addr.

Definition flagDO : Z := Z.shiftl 1 15.
Definition FlagCO : Z := Z.shiftl 1 14.
Definition FlagDE : Z := Z.shiftl 1 13.
Definition maskRcode : Z := 0xFF000000.
Definition maskVersion : Z := 0x00FF0000.
Definition maskZ : Z := 0x1FFF.

Definition set_class rr (c : Z) : RR Addr := Build_RR (RRName rr) c (RRTTL rr) (RRData rr).
Definition set_ttl rr (t : Z) : RR Addr := Build_RR (RRName rr) (RRClass rr) t (RRData rr).

Definition opt_UDPSize rr : Z := RRClass rr.
Definition SetUDPSize rr (size : Z) := set_class rr size.
Definition opt_Version rr : Z := Z.land (Z.shiftr (Z.land (RRTTL rr) maskVersion) 16) 0xFF.
Definition SetVersion rr (v : Z) :=
  set_ttl rr (Z.lor (Z.ldiff (RRTTL rr) maskVersion) (wrapu32 (Z.shiftl v 16))).
Definition opt_Rcode rr : Z := Z.land (Z.shiftl (Z.land (Z.shiftr (Z.land (RRTTL rr) maskRcode) 24) 0xFFFF) 4) 0xFFFF.
Definition SetRcode rr (v : Z) :=
  set_ttl rr (Z.lor (Z.ldiff (RRTTL rr) maskRcode) (wrapu32 (Z.shiftl (Z.shiftr v 4) 24))).
Definition opt_Z rr : Z := Z.land (RRTTL rr) maskZ.
Definition SetZ rr (z : Z) := set_ttl rr (Z.lor (Z.ldiff (RRTTL rr) maskZ) (Z.land z maskZ)).

Definition opt_flag (bit : Z) rr : bool := Z.land (RRTTL rr) bit =? bit.
Definition setFlag rr (bit : Z) (on : bool) :=
  if on then set_ttl rr (Z.lor (RRTTL rr) bit) else set_ttl rr (Z.ldiff (RRTTL rr) bit).
Definition opt_Security := opt_flag flagDO.
Definition SetSecurity rr (on : bool) := setFlag rr flagDO on.
Definition opt_CompactAnswers := opt_flag FlagCO.
Definition SetCompactAnswers rr (on : bool) := setFlag rr FlagCO on.
Definition opt_Delegation := opt_flag FlagDE.
Definition SetDelegation rr (on : bool) := setFlag rr FlagDE on.

(** *** [explicit.go] *)

Definition isOPT rr : bool := match RRData rr with ROPT _ => true | _ => false end.

(** The loop over [msg.Pseudo]: [None] when a record is not an option. *)
Fixpoint edns_options (ps : list pseudo) (options : list edns0) : option (list edns0) :=
  match ps with
  | [] => Some options
  | Edns o :: rest => edns_options rest (options ++ [o])
  | NotEdns _ :: _ => None
  end.

Definition MinMsgSize : Z := 512.

Definition ApplyExplicit (msg : Msg Addr) (z : option Z) : Msg Addr :=
  match edns_options (Pseudo msg) [] with
  | None => msg
  | Some options =>
      let has (bit : Z) := match z with Some v => negb (Z.land v bit =? 0) | None => false end in
      let compactAnswers := CompactAnswers msg || has FlagCO in
      let delegation := Delegation msg || has FlagDE in
      let zValue := default (ZField msg) z in
      let opt := Build_RR "." 0 0 (ROPT options) in
      let opt := SetUDPSize opt (Z.max (UDPSize msg) MinMsgSize) in
      let opt := SetVersion opt (Version msg) in
      let opt := SetSecurity opt (Security msg) in
      let opt := SetCompactAnswers opt compactAnswers in
      let opt := SetDelegation opt delegation in
      let opt := SetRcode opt (Rcode msg) in
      let opt := SetZ opt zValue in
      {| ID := ID msg; Opcode := Opcode msg; Rcode := Z.land (Rcode msg) 0xF;
         Authoritative := Authoritative msg; RecursionAvailable := RecursionAvailable msg;
         Truncated := Truncated msg; Security := false; CompactAnswers := false; Delegation := false;
         UDPSize := 0; Version := 0; ZField := 0;
         Question := Question msg; Answer := Answer msg; Ns := Ns msg;
         Extra := List.filter (λ rr, negb (isOPT rr)) (Extra msg) ++ [opt]; Pseudo := [] |}
  end.
End opt.

(** ** [engine/packet] *)

Section packet.
Context {Addr : Type} `{GoUnicode} `{!DnsLib Addr}.
Implicit Types (p : Packet Addr) (rr : RR Addr).

(** [New] *)
Definition NewPacket (msg : option (Msg Addr)) : Packet Addr := Build_Packet msg "" 0 0 "".

(** A method that returns a zero value for the packet without a message. *)
Definition of_msg {A} (zero : A) (f : Msg Addr → A) p : A :=
  match packet_msg p with Some m => f m | None => zero end.

Definition p_ID := of_msg 0 ID.
Definition p_Opcode := of_msg "" (λ m, OpcodeToString (Opcode m)).
Definition p_Rcode := of_msg "" (λ m, RcodeToString (Rcode m)).
Definition AA := of_msg false Authoritative.
Definition p_RA := of_msg false RecursionAvailable.
Definition TC := of_msg false Truncated.
Definition p_Question := of_msg [] Question.
Definition p_Answer := of_msg [] Answer.
Definition Authority := of_msg [] Ns.
Definition Additional := of_msg [] Extra.

Definition ednsOPT (m : Msg Addr) : option (RR Addr) := List.find isOPT (Extra m).

Definition HasEdns := of_msg false (λ m,
  (0 <? UDPSize m) || Security m || negb (bool_decide (Pseudo m = [])) || bool_decide (is_Some (ednsOPT m))).

Definition EdnsSize := of_msg 0 (λ m,
  if 0 <? UDPSize m then UDPSize m
  else match ednsOPT m with Some opt => opt_UDPSize opt | None => 0 end).

Definition EdnsRcode := of_msg 0 (λ m,
  if 0xF <? Rcode m then Z.shiftr (Rcode m) 4
  else match ednsOPT m with Some opt => Z.shiftr (opt_Rcode opt) 4 | None => 0 end).

Definition EdnsVersion := of_msg 0 (λ m,
  if negb (Version m =? 0) then Version m
  else match ednsOPT m with Some opt => opt_Version opt | None => 0 end).

Definition EdnsZ := of_msg 0 (λ m,
  if negb (ZField m =? 0) then ZField m
  else match ednsOPT m with Some opt => opt_Z opt | None => 0 end).

Definition opt_options rr : list edns0 := match RRData rr with ROPT os => os | _ => [] end.

Definition EdnsData := of_msg [] (λ m,
  match Pseudo m with
  | [] => match ednsOPT m with Some opt => Edns <$> opt_options opt | None => [] end
  | ps => ps
  end).

Definition Cookie p : option (string * string) :=
  match List.find (λ o, match o with Edns (COOKIE _ _) => true | _ => false end) (EdnsData p) with
  | Some (Edns (COOKIE c s)) => Some (c, s)
  | _ => None
  end.

Definition ExtendedErrors p : list (Z * string) :=
  omap (λ o, match o with Edns (EDE c t) => Some (c, t) | _ => None end) (EdnsData p).

Definition DO := of_msg false (λ m,
  if Security m then true
  else match ednsOPT m with Some opt => opt_Security opt | None => false end).

Definition RcodeSuccess : Z := 0.
Definition RcodeNameError : Z := 3.

Definition hasType (rrs : list (RR Addr)) (want : Z) : bool := existsb (λ rr, RRToType rr =? want) rrs.

(** [Packet.Type] *)
Definition Type_ := of_msg "" (λ m,
  if Rcode m =? RcodeNameError then "nxdomain"
  else if negb (Rcode m =? RcodeSuccess) then "error"
  else if bool_decide (Answer m = []) && hasType (Ns m) 6 then "nodata"
  else if bool_decide (Answer m = []) && hasType (Ns m) 2 then "referral"
  else "answer").

Definition NoSuchRecord p : bool := bool_decide (Type_ p = "nodata").
Definition NoSuchName p : bool := bool_decide (Type_ p = "nxdomain").
Definition IsRedirect p : bool := bool_decide (Type_ p = "referral").

Definition AnswerFromString p : string :=
  if decide (AnswerFrom p = "") then "<unknown>" else AnswerFrom p.

Definition filterRRs (rrs : list (RR Addr)) (wantType : string) : list (RR Addr) :=
  List.filter (λ rr, EqualFold (TypeToString (RRToType rr)) wantType) rrs.

Definition normalizeSections (sections : list string) : list string :=
  match sections with
  | [] => ["answer"; "authority"; "additional"]
  | _ => to_lower <$> sections
  end.

(** One section of a message, by its name. *)
Definition section (m : Msg Addr) (name : string) : list (RR Addr) :=
  if decide (name = "answer") then Answer m
  else if decide (name = "authority") then Ns m
  else if decide (name = "additional") then Extra m
  else [].

Definition GetRecords p (rrtype : string) (sections : list string) : list (RR Addr) :=
  of_msg [] (λ m,
    let wantType := to_upper rrtype in
    concat ((λ s, filterRRs (section m s) wantType) <$> normalizeSections sections)) p.

Definition GetRecordsForName p (rrtype : string) (name : Name) (sections : list string) : list (RR Addr) :=
  List.filter (λ rr, EqualFold (NameString (New (RRName rr))) (NameString name))
    (GetRecords p rrtype sections).

Definition HasRRsOfTypeForName p (rrtype : string) (name : Name) (sections : list string) : bool :=
  (0 <? Z.of_nat (length (GetRecordsForName p rrtype name sections))).

(** [UniquePush] appends to the section of the message. *)
Definition with_section (m : Msg Addr) (name : string) (rrs : list (RR Addr)) : Msg Addr :=
  {| ID := ID m; Opcode := Opcode m; Rcode := Rcode m; Authoritative := Authoritative m;
     RecursionAvailable := RecursionAvailable m; Truncated := Truncated m; Security := Security m;
     CompactAnswers := CompactAnswers m; Delegation := Delegation m; UDPSize := UDPSize m;
     Version := Version m; ZField := ZField m; Question := Question m;
     Answer := if decide (name = "answer") then rrs else Answer m;
     Ns := if decide (name = "authority") then rrs else Ns m;
     Extra := if decide (name = "additional") then rrs else Extra m; Pseudo := Pseudo m |}.

Definition UniquePush p (name : string) rr : Packet Addr * bool :=
  match packet_msg p with
  | None => (p, false)
  | Some m =>
      let name := to_lower name in
      if decide (name ∈ ["answer"; "authority"; "additional"]) then
        if existsb (λ existing, EqualFold (rr_text existing) (rr_text rr)) (section m name) then (p, false)
        else (Build_Packet (Some (with_section m name (section m name ++ [rr]))) (AnswerFrom p)
                (QueryTime p) (Timestamp p) (Protocol p), true)
      else (p, false)
  end.
End packet.
