(* ===== verification/PacketFacts.v ===== *)
(** * Facts about packets

    The OPT header packs five fields in one 32-bit word: reading a field after writing
    another is reading it before.  [ApplyExplicit] moves a message's EDNS settings into an
    OPT record without changing what a packet shows of them. *)

From S2P Require Import Prelude GoStrings RateLimit Names Packet.

Local Open Scope string_scope.
Local Open Scope Z_scope.
Local Open Scope list_scope.

(** ** Fields of a word *)

(** The [w] bits of [t] from bit [s] on, and the word with them replaced by [v]. *)
Definition field (t s w : Z) : Z := Z.land (Z.shiftr t s) (Z.ones w).
Definition put (t s w v : Z) : Z := Z.lor (Z.ldiff t (Z.shiftl (Z.ones w) s)) (Z.shiftl v s).

Lemma ones_bit w i : 0 ≤ w → 0 ≤ i → Z.testbit (Z.ones w) i = (i <? w).
Proof.
  intros Hw Hi. destruct (Z.ltb_spec i w).
  - apply Z.ones_spec_low. lia.
  - apply Z.ones_spec_high. lia.
Qed.

Lemma field_bit t s w i : 0 ≤ s → 0 ≤ w → 0 ≤ i →
  Z.testbit (field t s w) i = Z.testbit t (i + s) && (i <? w).
Proof. intros. unfold field. by rewrite Z.land_spec, Z.shiftr_spec, ones_bit by lia. Qed.

Lemma small_bit v w i : 0 ≤ v < 2 ^ w → 0 ≤ w ≤ i → Z.testbit v i = false.
Proof.
  intros Hv Hi. destruct (decide (v = 0)) as [->|]; [apply Z.bits_0|].
  apply Z.bits_above_log2; [lia|]. apply Z.log2_lt_pow2; [lia|].
  apply Z.lt_le_trans with (2 ^ w); [lia|]. apply Z.pow_le_mono_r; lia.
Qed.

Lemma put_bit t s w v i : 0 ≤ s → 0 ≤ w → 0 ≤ v < 2 ^ w → 0 ≤ i →
  Z.testbit (put t s w v) i =
    if (s <=? i) && (i <? s + w) then Z.testbit v (i - s) else Z.testbit t i.
Proof.
  intros Hs Hw Hv Hi. unfold put. rewrite Z.lor_spec, Z.ldiff_spec, !Z.shiftl_spec by lia.
  destruct (Z.leb_spec s i); simpl.
  - rewrite ones_bit by lia. destruct (Z.ltb_spec (i - s) w), (Z.ltb_spec i (s + w)); try lia; simpl.
    + by rewrite andb_false_r.
    + by rewrite andb_true_r, (small_bit v w), orb_false_r by lia.
  - rewrite !(λ x, Z.testbit_neg_r x (i - s)) by lia. by rewrite andb_true_r, orb_false_r.
Qed.

(** Reading the field just written, and reading another. *)
Lemma field_put_same t s w v : 0 ≤ s → 0 ≤ w → 0 ≤ v < 2 ^ w → field (put t s w v) s w = v.
Proof.
  intros Hs Hw Hv. apply Z.bits_inj'. intros i Hi. rewrite field_bit, put_bit by lia.
  destruct (Z.ltb_spec i w).
  - rewrite (proj2 (Z.leb_le _ _)), (proj2 (Z.ltb_lt _ _)) by lia. simpl. rewrite andb_true_r. f_equal. lia.
  - rewrite andb_false_r. symmetry. apply (small_bit v w); lia.
Qed.

Lemma field_put_other t s w v s' w' : 0 ≤ s → 0 ≤ w → 0 ≤ v < 2 ^ w → 0 ≤ s' → 0 ≤ w' →
  s' + w' ≤ s ∨ s + w ≤ s' → field (put t s w v) s' w' = field t s' w'.
Proof.
  intros Hs Hw Hv Hs' Hw' Hd. apply Z.bits_inj'. intros i Hi. rewrite !field_bit, put_bit by lia.
  destruct (Z.ltb_spec i w'); [|by rewrite !andb_false_r].
  destruct (Z.leb_spec s (i + s')), (Z.ltb_spec (i + s') (s + w)); try lia; done.
Qed.

(** The masks of the code select fields. *)
Lemma field_masked t s w : 0 ≤ s → 0 ≤ w →
  Z.shiftr (Z.land t (Z.shiftl (Z.ones w) s)) s = field t s w.
Proof.
  intros. apply Z.bits_inj'. intros i Hi.
  rewrite field_bit, Z.shiftr_spec, Z.land_spec, Z.shiftl_spec, ones_bit by lia. do 2 f_equal. lia.
Qed.

Lemma field_range t s w : 0 ≤ s → 0 ≤ w → 0 ≤ field t s w < 2 ^ w.
Proof.
  intros. unfold field. rewrite Z.land_ones by done. apply Z.mod_pos_bound. lia.
Qed.

Lemma land_small v w : 0 ≤ w → 0 ≤ v < 2 ^ w → Z.land v (Z.ones w) = v.
Proof. intros. rewrite Z.land_ones by done. by apply Z.mod_small. Qed.

(** ** The fields of the OPT header *)

Section opt.
Context {Addr : Type}.
Implicit Types rr : RR Addr.

Lemma get_Version rr : opt_Version rr = field (RRTTL rr) 16 8.
Proof.
  unfold opt_Version. change maskVersion with (Z.shiftl (Z.ones 8) 16).
  rewrite field_masked by lia. apply (land_small _ 8); [lia|]. by apply field_range.
Qed.
Lemma get_Rcode rr : opt_Rcode rr = Z.shiftl (field (RRTTL rr) 24 8) 4.
Proof.
  unfold opt_Rcode. change maskRcode with (Z.shiftl (Z.ones 8) 24).
  rewrite field_masked by lia. pose proof (field_range (RRTTL rr) 24 8 ltac:(lia) ltac:(lia)) as Hr.
  change 65535 with (Z.ones 16). rewrite (land_small (field _ _ _) 16) by lia.
  apply (land_small _ 16); [lia|]. rewrite Z.shiftl_mul_pow2 by lia. lia.
Qed.
Lemma get_Z rr : opt_Z rr = field (RRTTL rr) 0 13.
Proof. done. Qed.
Lemma get_flag rr k : 0 ≤ k → opt_flag (Z.shiftl 1 k) rr = (field (RRTTL rr) k 1 =? 1).
Proof.
  intros Hk. unfold opt_flag. rewrite <- field_masked by lia. change (Z.ones 1) with 1.
  set (a := Z.land (RRTTL rr) (Z.shiftl 1 k)).
  assert (Ha : a = 0 ∨ a = Z.shiftl 1 k).
  { assert (Hb : ∀ i, 0 ≤ i → Z.testbit (Z.shiftl 1 k) i = bool_decide (i = k)).
    { intros i Hi. rewrite Z.shiftl_1_l, Z.pow2_bits_eqb by done. by destruct (Z.eqb_spec k i), (bool_decide_reflect (i = k)). }
    destruct (Z.testbit (RRTTL rr) k) eqn:E; [right|left]; apply Z.bits_inj'; intros i Hi; unfold a;
      rewrite Z.land_spec, ?Z.bits_0, Hb by done; destruct (bool_decide_reflect (i = k)) as [->|];
      by rewrite ?E, ?andb_false_r. }
  assert (Z.shiftl 1 k ≠ 0) by (rewrite Z.shiftl_1_l; lia).
  destruct Ha as [-> | ->].
  - rewrite Z.shiftr_0_l. destruct (Z.eqb_spec 0 (Z.shiftl 1 k)); [lia|done].
  - rewrite Z.shiftr_shiftl_l, Z.sub_diag, Z.shiftl_0_r, Z.eqb_refl by lia. done.
Qed.

Lemma ttl_Version rr v : 0 ≤ v < 2 ^ 8 → RRTTL (SetVersion rr v) = put (RRTTL rr) 16 8 v.
Proof.
  intros Hv. unfold SetVersion, put, set_ttl, wrapu32. cbn [RRTTL]. f_equal.
  apply Z.mod_small. rewrite Z.shiftl_mul_pow2 by lia. lia.
Qed.
Lemma ttl_Rcode rr v : 0 ≤ v < 2 ^ 12 → RRTTL (SetRcode rr v) = put (RRTTL rr) 24 8 (Z.shiftr v 4).
Proof.
  intros Hv. unfold SetRcode, put, set_ttl, wrapu32. cbn [RRTTL]. f_equal.
  apply Z.mod_small. rewrite Z.shiftl_mul_pow2, Z.shiftr_div_pow2 by lia.
  assert (0 ≤ v / 2 ^ 4 < 2 ^ 8); [|lia]. split; [apply Z.div_pos; lia|apply Z.div_lt_upper_bound; lia].
Qed.
Lemma ttl_Z rr v : RRTTL (SetZ rr v) = put (RRTTL rr) 0 13 (Z.land v maskZ).
Proof. unfold SetZ, put. cbn. by rewrite Z.shiftl_0_r. Qed.
Lemma ttl_flag rr k on : 0 ≤ k → RRTTL (setFlag rr (Z.shiftl 1 k) on) = put (RRTTL rr) k 1 (Z.b2z on).
Proof.
  intros Hk. unfold setFlag, put. change (Z.ones 1) with 1. destruct on; cbn -[Z.lor Z.ldiff Z.shiftl].
  - apply Z.bits_inj'. intros i Hi. rewrite !Z.lor_spec, Z.ldiff_spec.
    destruct (Z.testbit (RRTTL rr) i), (Z.testbit (Z.shiftl 1 k) i); done.
  - by rewrite Z.shiftl_0_l, Z.lor_0_r.
Qed.

Lemma edns_options_spec ps acc os :
  edns_options ps acc = Some os → ∃ xs, os = acc ++ xs ∧ ps = Edns <$> xs.
Proof.
  revert acc. induction ps as [|[o|t] ps IH]; intros acc E; simpl in E; simplify_eq.
  - exists []. by rewrite app_nil_r.
  - destruct (IH _ E) as (xs & -> & ->). exists (o :: xs). by rewrite <- app_assoc.
Qed.

Lemma find_none_filter (l : list (RR Addr)) :
  List.find isOPT (List.filter (λ rr, negb (isOPT rr)) l) = None.
Proof. induction l as [|rr l IH]; simpl; [done|]. destruct (isOPT rr) eqn:E; simpl; by rewrite ?E. Qed.

Lemma find_app {A} (f : A → bool) l1 l2 :
  List.find f (l1 ++ l2) = match List.find f l1 with Some x => Some x | None => List.find f l2 end.
Proof. induction l1 as [|x l1 IH]; simpl; [done|]. by destruct (f x). Qed.

Lemma filter_twice {A} (f : A → bool) (l : list A) :
  List.filter f (List.filter (λ x, negb (f x)) l) = [] ∧
  List.filter (λ x, negb (f x)) (List.filter (λ x, negb (f x)) l) = List.filter (λ x, negb (f x)) l.
Proof.
  induction l as [|x l [IH1 IH2]]; simpl; [done|]. destruct (f x) eqn:E; simpl; rewrite ?E; simpl; [done|].
  by rewrite IH1, IH2.
Qed.

(** The record [ApplyExplicit] builds. *)
Lemma explicit_opt (m : Msg Addr) z options :
  edns_options (Pseudo m) [] = Some options →
  0 ≤ Version m < 2 ^ 8 → 0 ≤ Rcode m < 2 ^ 12 →
  let has bit := match z with Some v => negb (Z.land v bit =? 0) | None => false end in
  ∃ opt, isOPT opt = true ∧
    Extra (ApplyExplicit m z) = List.filter (λ rr, negb (isOPT rr)) (Extra m) ++ [opt] ∧
    opt_options opt = options ∧
    opt_UDPSize opt = Z.max (UDPSize m) MinMsgSize ∧
    opt_Version opt = Version m ∧ opt_Rcode opt = Z.shiftl (Z.shiftr (Rcode m) 4) 4 ∧
    opt_Z opt = Z.land (default (ZField m) z) maskZ ∧ opt_Security opt = Security m ∧
    opt_CompactAnswers opt = (CompactAnswers m || has FlagCO) ∧
    opt_Delegation opt = (Delegation m || has FlagDE).
Proof.
  intros Ho Hv Hr has. unfold ApplyExplicit. rewrite Ho. fold has.
  eexists. split; [|split; [reflexivity|]].
  { by destruct (Security m), (CompactAnswers m || _), (Delegation m || _). }
  unfold opt_Security, opt_CompactAnswers, opt_Delegation, flagDO, FlagCO, FlagDE.
  rewrite !get_flag, get_Version, get_Rcode, get_Z by lia.
  unfold SetSecurity, SetCompactAnswers, SetDelegation, flagDO, FlagCO, FlagDE.
  rewrite ttl_Z, ttl_Rcode, !ttl_flag, ttl_Version by lia.
  assert (Hz : ∀ v, 0 ≤ Z.land v maskZ < 2 ^ 13) by (intros v; by apply (field_range v 0 13)).
  assert (Hc : 0 ≤ Z.shiftr (Rcode m) 4 < 2 ^ 8).
  { rewrite Z.shiftr_div_pow2 by lia. split; [apply Z.div_pos; lia|apply Z.div_lt_upper_bound; lia]. }
  assert (Hb : ∀ b, 0 ≤ Z.b2z b < 2 ^ 1) by (intros []; simpl; lia).
  assert (Hb1 : ∀ b, (Z.b2z b =? 1) = b) by by intros [].
  set (zv := Z.land _ maskZ) in *. specialize (Hz (default (ZField m) z)). fold zv in Hz.
  repeat split; try done;
    try (by destruct (Security m), (CompactAnswers m || _), (Delegation m || _));
    repeat (first [rewrite field_put_same by (auto with lia) | rewrite field_put_other by (auto with lia)]);
    by rewrite ?Hb1.
Qed.
End opt.

(** ** What a packet shows after [ApplyExplicit] *)

(** C31: when every element of the pseudo section is an option, [ApplyExplicit] leaves the
    message with exactly one OPT record, last in the additional section, and with no EDNS
    field of its own; size (at least 512), version, DO, CO and DE, the low 13 bits of Z, the
    options and the 12-bit rcode read back from it are those of the message and the caller. *)
Theorem explicit_keeps_edns {Addr} (m : Msg Addr) z options :
  edns_options (Pseudo m) [] = Some options →
  0 ≤ Version m < 2 ^ 8 → 0 ≤ Rcode m < 2 ^ 12 →
  let m' := ApplyExplicit m z in
  let p := NewPacket (Some m') in
  let has bit := match z with Some v => negb (Z.land v bit =? 0) | None => false end in
  HasEdns p = true ∧ EdnsSize p = Z.max (UDPSize m) 512 ∧ EdnsVersion p = Version m ∧
  DO p = Security m ∧ EdnsZ p = Z.land (default (ZField m) z) 0x1FFF ∧ EdnsData p = Pseudo m ∧
  16 * EdnsRcode p + Rcode m' = Rcode m ∧
  ∃ opt, Extra m' = List.filter (λ rr, negb (isOPT rr)) (Extra m) ++ [opt] ∧
    List.filter isOPT (Extra m') = [opt] ∧
    opt_CompactAnswers opt = (CompactAnswers m || has FlagCO) ∧
    opt_Delegation opt = (Delegation m || has FlagDE).
Proof.
  intros Ho Hv Hr m' p has.
  destruct (explicit_opt m z options Ho Hv Hr) as (opt & H0 & H1 & H2 & H3 & H4 & H5 & H6 & H7 & H8 & H9).
  destruct (edns_options_spec _ _ _ Ho) as (xs & Hxs & Hps). simpl in Hxs. subst xs.
  assert (Hopt : ednsOPT m' = Some opt).
  { unfold ednsOPT, m'. rewrite H1, find_app, find_none_filter. simpl. by rewrite H0. }
  assert (Hf : UDPSize m' = 0 ∧ Security m' = false ∧ Version m' = 0 ∧ ZField m' = 0 ∧ Pseudo m' = []
    ∧ Rcode m' = Z.land (Rcode m) 0xF) by (unfold m', ApplyExplicit; rewrite Ho; done).
  destruct Hf as (F1 & F2 & F3 & F4 & F5 & F6).
  assert (Hlow : Rcode m' = Rcode m mod 16).
  { rewrite F6. change 15 with (Z.ones 4). by rewrite Z.land_ones. }
  unfold HasEdns, EdnsSize, EdnsVersion, DO, EdnsZ, EdnsData, EdnsRcode, of_msg, p, NewPacket. cbn [packet_msg].
  rewrite Hopt, F1, F2, F3, F4, F5, H2, H3, H4, H6, H7. cbn [negb Z.ltb Z.eqb Z.compare].
  assert (Hle : Rcode m' ≤ 15) by (rewrite Hlow; pose proof (Z.mod_pos_bound (Rcode m) 16 eq_refl); lia).
  rewrite (proj2 (Z.ltb_ge 15 (Rcode m')) Hle). repeat split; try done.
  - rewrite H5, Hlow, Z.shiftr_shiftl_l, Z.sub_diag, Z.shiftl_0_r, Z.shiftr_div_pow2 by lia.
    change (2 ^ 4) with 16. by rewrite <- Z.div_mod.
  - exists opt. unfold m'. rewrite H1, List.filter_app. destruct (filter_twice isOPT (Extra m)) as [-> _].
    simpl. by rewrite H0.
Qed.

(** A message with a DO bit, a Z value and a cookie. *)
Definition demo_msg : Msg N :=
  {| ID := 1; Opcode := 0; Rcode := 16; Authoritative := true; RecursionAvailable := false;
     Truncated := false; Security := true; CompactAnswers := false; Delegation := false; UDPSize := 100;
     Version := 1; ZField := 0; Question := []; Answer := []; Ns := []; Extra := [];
     Pseudo := [Edns (COOKIE "c" "s")] |}.

Lemma explicit_keeps_edns_witness :
  EdnsSize (NewPacket (Some (ApplyExplicit demo_msg (Some 0x6005)))) = 512 ∧
  EdnsZ (NewPacket (Some (ApplyExplicit demo_msg (Some 0x6005)))) = 5.
Proof.
  destruct (explicit_keeps_edns demo_msg (Some 0x6005) [COOKIE "c" "s"]) as (_ & H1 & _ & _ & H2 & _).
  - reflexivity.
  - by split.
  - by split.
  - split; [exact H1|exact H2].
Defined.
