(* ===== verification/RecursorCache.v ===== *)
(** * What a recursor remembers: [recursor.go], [referral.go], [cache_persist.go]

    The state of a [Recursor]: root hints and undelegated data, the cache of finished
    lookups, lookups in flight and the cached root referrals.  The mutex makes each
    operation one step.  [time.Now] is the oracle [clock], read at a count of readings that
    goes up; times are nanoseconds.  Packing and unpacking of messages is the library's. *)

From S2P Require Import Prelude GoStrings RateLimit NsGuards Names Packet.

Local Open Scope string_scope.
Local Open Scope Z_scope.
Local Open Scope list_scope.

(** ** Errors: [cname_error.go] *)

Inductive CNAMEReason := CNAMETooMany | CNAMEChainTooLong | CNAMEUnresolved.

Record CNAMEError := { Reason : CNAMEReason; cname_Name : string; Target : string; Detail : string }.

Definition ReasonString (r : CNAMEReason) : string :=
  match r with
  | CNAMETooMany => "too-many" | CNAMEChainTooLong => "chain-too-long" | CNAMEUnresolved => "unresolved"
  end.

Definition CNAMEErrorText (e : CNAMEError) : string :=
  let reason := ReasonString (Reason e) in
  let reason := if decide (Detail e ≠ "") then reason +:+ "/" +:+ Detail e else reason in
  if decide (Target e ≠ "") then "cname " +:+ reason +:+ ": " +:+ cname_Name e +:+ " -> " +:+ Target e
  else "cname " +:+ reason +:+ ": " +:+ cname_Name e.

(** The errors of a lookup. *)
Inductive rerror := ErrCNAME (e : CNAMEError) | ErrOther (msg : string).

Definition IgnoreCNAMEError (err : option rerror) : option rerror :=
  match err with Some (ErrCNAME _) => None | _ => err end.

Section recursor.
Context `{GoUnicode} `{Netip} `{Countable Addr} `{!DnsLib Addr}.

Definition packet := Packet Addr.
Definition no_packet : packet := NewPacket None.
Definition has_msg (p : packet) : bool := bool_decide (is_Some (packet_msg p)).

(** [nameserver.Nameserver], and its constructor: [NewWithContext] of [nameserver.go] in a
    context that carries a cache store. *)
Record Nameserver := { NsName : Name; Address : Addr }.

Definition NewWithContext (name address : string) : result Nameserver rerror :=
  match ParseAddr address with
  | None => Err (ErrOther ("invalid nameserver address " +:+ address))
  | Some addr =>
      let nameKey := if decide (name = "") then "$$$noname" else to_lower name in
      Ok {| NsName := New nameKey; Address := Unmap addr |}
  end.

(** [recurseCacheEntry]: [entry_resp] is [None] for a negative entry, [expires] is [None] for
    one that does not expire. *)
Record recurseCacheEntry := {
  entry_resp : option packet; entry_err : option rerror; expires : option Z
}.

#[local] Abbreviation byClass := (gmap string recurseCacheEntry).
#[local] Abbreviation byType := (gmap string byClass).

Record referralEntry := { ref_resp : packet; ref_expires : Z }.

Record Recursor := {
  fakeAddresses : gmap string (gmap string (list Addr));
  recurseCache : gmap string byType;
  recurseCount : Z;
  inflight : gset string;
  negativeCacheTTL : Z;
  undelegatedRoot : bool;
  referrals : gmap string referralEntry;
  referralClaims : gset string;
  readings : nat              (* how often the clock was read and a server asked *)
}.

Definition with_fake r f := {| fakeAddresses := f; recurseCache := recurseCache r;
  recurseCount := recurseCount r; inflight := inflight r; negativeCacheTTL := negativeCacheTTL r;
  undelegatedRoot := undelegatedRoot r; referrals := referrals r; referralClaims := referralClaims r;
  readings := readings r |}.
Definition with_cache r c n := {| fakeAddresses := fakeAddresses r; recurseCache := c;
  recurseCount := n; inflight := inflight r; negativeCacheTTL := negativeCacheTTL r;
  undelegatedRoot := undelegatedRoot r; referrals := referrals r; referralClaims := referralClaims r;
  readings := readings r |}.
Definition with_inflight r i := {| fakeAddresses := fakeAddresses r; recurseCache := recurseCache r;
  recurseCount := recurseCount r; inflight := i; negativeCacheTTL := negativeCacheTTL r;
  undelegatedRoot := undelegatedRoot r; referrals := referrals r; referralClaims := referralClaims r;
  readings := readings r |}.
Definition with_referrals r m := {| fakeAddresses := fakeAddresses r; recurseCache := recurseCache r;
  recurseCount := recurseCount r; inflight := inflight r; negativeCacheTTL := negativeCacheTTL r;
  undelegatedRoot := undelegatedRoot r; referrals := m; referralClaims := referralClaims r;
  readings := readings r |}.
Definition with_claims r c := {| fakeAddresses := fakeAddresses r; recurseCache := recurseCache r;
  recurseCount := recurseCount r; inflight := inflight r; negativeCacheTTL := negativeCacheTTL r;
  undelegatedRoot := undelegatedRoot r; referrals := referrals r; referralClaims := c;
  readings := readings r |}.
Definition with_readings r n := {| fakeAddresses := fakeAddresses r; recurseCache := recurseCache r;
  recurseCount := recurseCount r; inflight := inflight r; negativeCacheTTL := negativeCacheTTL r;
  undelegatedRoot := undelegatedRoot r; referrals := referrals r; referralClaims := referralClaims r;
  readings := n |}.

Context (clock : nat → Z).

(** [time.Now()] *)
Definition now (r : Recursor) : Z := clock (readings r).
Definition ticked (r : Recursor) : Recursor := with_readings r (S (readings r)).

Definition SetNegativeCacheTTL (r : Recursor) (ttl : Z) : Recursor :=
  {| fakeAddresses := fakeAddresses r; recurseCache := recurseCache r; recurseCount := recurseCount r;
     inflight := inflight r; negativeCacheTTL := ttl; undelegatedRoot := undelegatedRoot r;
     referrals := referrals r; referralClaims := referralClaims r; readings := readings r |}.

Definition clearReferrals (r : Recursor) : Recursor := with_referrals r ∅.

(** ** Fake addresses *)

(** The body of the loop over the names of [AddFakeAddresses]; the addresses of one call are
    a set, visited in the order of [elements]. *)
Fixpoint parse_ips (ips : list string) (unique : gset Addr) : result (gset Addr) rerror :=
  match ips with
  | [] => Ok unique
  | ip :: rest =>
      match ParseAddr ip with
      | None => Err (ErrOther ("invalid IP " +:+ ip))
      | Some addr => parse_ips rest ({[addr]} ∪ unique)
      end
  end.

Fixpoint add_names (data : list (string * list string)) (m : gmap string (list Addr))
  : gmap string (list Addr) * option rerror :=
  match data with
  | [] => (m, None)
  | (name, ips) :: rest =>
      let name := to_lower name in
      let m := match m !! name with Some _ => m | None => <[name := []]> m end in
      match parse_ips ips ∅ with
      | Err e => (m, Some e)
      | Ok unique => add_names rest (<[name := default [] (m !! name) ++ elements unique]> m)
      end
  end.

Definition AddFakeAddresses (r : Recursor) (domain : string) (data : list (string * list string))
  : Recursor * option rerror :=
  let domain := to_lower domain in
  let r := if decide (domain = ".") then clearReferrals r else r in
  let '(m, err) := add_names data (default ∅ (fakeAddresses r !! domain)) in
  (with_fake r (<[domain := m]> (fakeAddresses r)), err).

Definition HasFakeAddresses (r : Recursor) (domain : string) : bool :=
  bool_decide (is_Some (fakeAddresses r !! to_lower domain)).

Definition GetFakeAddresses (r : Recursor) (domain nsname : string) : list Addr :=
  default [] (default ∅ (fakeAddresses r !! to_lower domain) !! to_lower nsname).

(** The names of a domain, in the order of the map. *)
Definition GetFakeNames (r : Recursor) (domain : string) : list string :=
  elements (dom (default ∅ (fakeAddresses r !! to_lower domain))).

Definition RemoveFakeAddresses (r : Recursor) (domain : string) : Recursor :=
  let domain := to_lower domain in
  let r := if decide (domain = ".") then clearReferrals r else r in
  with_fake r (delete domain (fakeAddresses r)).

Definition SetUndelegatedRoot (r : Recursor) (data : list (string * list string))
  : Recursor * option rerror :=
  let r := RemoveFakeAddresses r "." in
  let r := {| fakeAddresses := fakeAddresses r; recurseCache := recurseCache r;
    recurseCount := recurseCount r; inflight := inflight r; negativeCacheTTL := negativeCacheTTL r;
    undelegatedRoot := true; referrals := referrals r; referralClaims := referralClaims r;
    readings := readings r |} in
  AddFakeAddresses r "." data.

Definition Undelegated (r : Recursor) (domain : string) : bool :=
  if decide (to_lower domain = ".") then undelegatedRoot r else HasFakeAddresses r domain.

(** The loops of [RootServers]. *)
Fixpoint servers_of (name : string) (addrs : list Addr) : result (list Nameserver) rerror :=
  match addrs with
  | [] => Ok []
  | addr :: rest =>
      let? ns := NewWithContext name (AddrString addr) in
      let? servers := servers_of name rest in Ok (ns :: servers)
  end.
Fixpoint root_servers (r : Recursor) (names : list string) : result (list Nameserver) rerror :=
  match names with
  | [] => Ok []
  | name :: rest =>
      let? servers := servers_of name (GetFakeAddresses r "." name) in
      let? others := root_servers r rest in Ok (servers ++ others)
  end.
Definition RootServers (r : Recursor) : result (list Nameserver) rerror :=
  root_servers r (merge_sort String.le (GetFakeNames r ".")).

(** ** The cache of finished lookups: [resolve.go] *)

Definition recurseCacheMaxEntries : Z := 10000.

Definition evictCacheEntryLocked (r : Recursor) (name qtype qclass : string) : Recursor :=
  match recurseCache r !! name with
  | None => r
  | Some bt =>
      match bt !! qtype with
      | None => r
      | Some bc =>
          let n := match bc !! qclass with
                   | Some _ => if 0 <? recurseCount r then recurseCount r - 1 else recurseCount r
                   | None => recurseCount r
                   end in
          let bc := delete qclass bc in
          let bt := if decide (bc = ∅) then delete qtype bt else <[qtype := bc]> bt in
          with_cache r (if decide (bt = ∅) then delete name (recurseCache r)
                        else <[name := bt]> (recurseCache r)) n
      end
  end.

Definition cache_get (c : gmap string byType) (name qtype qclass : string) : option recurseCacheEntry :=
  bt ← c !! name; bc ← bt !! qtype; bc !! qclass.

(** The cached packet and error, or [None]; an expired entry is evicted. *)
Definition cacheLookupLocked (r : Recursor) (name qtype qclass : string)
  : Recursor * option (packet * option rerror) :=
  match cache_get (recurseCache r) name qtype qclass with
  | None => (r, None)
  | Some e =>
      let hit := (default no_packet (entry_resp e), entry_err e) in
      match expires e with
      | None => (r, Some hit)
      | Some t =>
          let r' := ticked r in
          if now r <? t then (r', Some hit)
          else (evictCacheEntryLocked r' name qtype qclass, None)
      end
  end.
Definition cacheLookup := cacheLookupLocked.

Definition storeEntryLocked (r : Recursor) (name qtype qclass : string) (entry : recurseCacheEntry)
  : Recursor :=
  let bt := default ∅ (recurseCache r !! name) in
  let bc := default ∅ (bt !! qtype) in
  let n := match bc !! qclass with Some _ => recurseCount r | None => recurseCount r + 1 end in
  if (0 <? recurseCacheMaxEntries) && (recurseCacheMaxEntries <? n) then
    with_cache r {[name := {[qtype := {[qclass := entry]}]}]} 1
  else with_cache r (<[name := <[qtype := <[qclass := entry]> bc]> bt]> (recurseCache r)) n.

Definition cacheStore (r : Recursor) (name qtype qclass : string) (resp : packet) : Recursor :=
  if has_msg resp then
    storeEntryLocked r name qtype qclass {| entry_resp := Some resp; entry_err := None; expires := None |}
  else r.

Definition cacheStoreNegative (r : Recursor) (name qtype qclass : string) (err : option rerror) : Recursor :=
  match err with
  | Some _ =>
      if 0 <? negativeCacheTTL r then
        storeEntryLocked (ticked r) name qtype qclass
          {| entry_resp := None; entry_err := err; expires := Some (now r + negativeCacheTTL r) |}
      else storeEntryLocked r name qtype qclass {| entry_resp := None; entry_err := err; expires := None |}
  | None =>
      if negativeCacheTTL r <=? 0 then r
      else storeEntryLocked (ticked r) name qtype qclass
             {| entry_resp := None; entry_err := None; expires := Some (now r + negativeCacheTTL r) |}
  end.

Definition ClearCache (r : Recursor) : Recursor := with_referrals (with_cache r ∅ 0) ∅.

(** *** Keys, and lookups in flight *)

(** The parts of a key that names servers. *)
Definition key_part (server : Nameserver) : string :=
  to_lower (NameString (NsName server)) +:+ "@" +:+ AddrString (Address server).
Definition cacheNameKey (name : Name) (ns : list Nameserver) : string :=
  match ns with
  | [] => "root|" +:+ NameString name
  | _ => "ns|" +:+ join "," (merge_sort String.le (key_part <$> ns)) +:+ "|" +:+ NameString name
  end.

Definition recurseLookupKey (name qtype qclass : string) : string :=
  name +:+ "|" +:+ qtype +:+ "|" +:+ qclass.

(** The answer of [cacheLookupOrWaitOrRegister]: a cached result, another lookup to wait
    for, or the duty to look up. *)
Inductive registration := Cached (hit : packet * option rerror) | Wait | Registered.

Definition cacheLookupOrWaitOrRegister (r : Recursor) (name qtype qclass : string)
  : Recursor * registration :=
  match cacheLookupLocked r name qtype qclass with
  | (r, Some hit) => (r, Cached hit)
  | (r, None) =>
      let key := recurseLookupKey name qtype qclass in
      if decide (key ∈ inflight r) then (r, Wait)
      else (with_inflight r ({[key]} ∪ inflight r), Registered)
  end.

Definition finishInflightLookup (r : Recursor) (name qtype qclass : string) : Recursor :=
  with_inflight r (inflight r ∖ {[recurseLookupKey name qtype qclass]}).

(** *** [cache_persist.go] *)

Record NameserverRef := { RefName : string; RefAddress : string }.

Fixpoint parse_parts (parts : list string) : result (list NameserverRef) rerror :=
  match parts with
  | [] => Ok []
  | part :: rest =>
      match last_index "@" part with
      | None => Err (ErrOther ("invalid nameserver token " +:+ part))
      | Some (n, a) =>
          let? refs := parse_parts rest in Ok ({| RefName := n; RefAddress := a |} :: refs)
      end
  end.

Definition parseCacheKey (key : string) : result (string * list NameserverRef) rerror :=
  if has_prefix "root|" key then Ok (trim_prefix key "root|", [])
  else if has_prefix "ns|" key then
    match last_index "|" (trim_prefix key "ns|") with
    | None => Err (ErrOther ("invalid ns cache key " +:+ key))
    | Some (nsPart, name) =>
        let? refs := parse_parts (split "," nsPart) in Ok (name, refs)
    end
  else Err (ErrOther ("unknown cache key prefix in " +:+ key)).

Fixpoint refsToNameservers (refs : list NameserverRef) : result (list Nameserver) rerror :=
  match refs with
  | [] => Ok []
  | ref :: rest =>
      let nsName := trim_space (RefName ref) in
      let addrStr := trim_space (RefAddress ref) in
      if decide (nsName = "") then Err (ErrOther "name is required")
      else if decide (addrStr = "") then Err (ErrOther "address is required")
      else match ParseAddr addrStr with
           | None => Err (ErrOther ("invalid address " +:+ addrStr))
           | Some addr =>
               let? others := refsToNameservers rest in
               Ok ({| NsName := New nsName; Address := addr |} :: others)
           end
  end.

(** [CacheEntry] with its message unpacked. *)
Record CacheEntry := {
  ce_Name : string; ce_QType : string; ce_QClass : string;
  ce_Nameservers : list NameserverRef; ce_Message : Msg Addr
}.

(** [slices.Sorted(maps.Keys(m))] *)
Definition sorted_keys {A} (m : gmap string A) : list string := merge_sort String.le (elements (dom m)).

(** The three nested loops of [ExportCacheEntries], with their keys. *)
Definition flat_entries (c : gmap string byType) : list (string * string * string * Msg Addr) :=
  name ← sorted_keys c;
  qtype ← sorted_keys (default ∅ (c !! name));
  qclass ← sorted_keys (default ∅ (default ∅ (c !! name) !! qtype));
  match cache_get c name qtype qclass with
  | Some e => match entry_resp e with
              | Some p => match packet_msg p with Some m => [(name, qtype, qclass, m)] | None => [] end
              | None => []
              end
  | None => []
  end.

Fixpoint export_entries (flat : list (string * string * string * Msg Addr))
  : result (list CacheEntry) rerror :=
  match flat with
  | [] => Ok []
  | (key, qtype, qclass, m) :: rest =>
      let? (name, refs) := parseCacheKey key in
      let? entries := export_entries rest in
      Ok ({| ce_Name := name; ce_QType := qtype; ce_QClass := qclass; ce_Nameservers := refs;
             ce_Message := m |} :: entries)
  end.
Definition ExportCacheEntries (r : Recursor) : result (list CacheEntry) rerror :=
  export_entries (flat_entries (recurseCache r)).

(** The loop of [ImportCacheEntries]: what was stored stays when a later entry is bad. *)
Fixpoint ImportCacheEntries (r : Recursor) (entries : list CacheEntry) : Recursor * option rerror :=
  match entries with
  | [] => (r, None)
  | e :: rest =>
      let name := trim_space (ce_Name e) in
      let qtype := to_upper (trim_space (ce_QType e)) in
      let qclass := to_upper (trim_space (ce_QClass e)) in
      let qclass := if decide (qclass = "") then "IN" else qclass in
      if decide (name = "") then (r, Some (ErrOther "name is required"))
      else if decide (qtype = "") then (r, Some (ErrOther "qtype is required"))
      else match refsToNameservers (ce_Nameservers e) with
           | Err err => (r, Some err)
           | Ok nsList =>
               let key := cacheNameKey (New name) nsList in
               ImportCacheEntries (cacheStore r key qtype qclass (NewPacket (Some (ce_Message e)))) rest
           end
  end.

(** ** Root referrals: [referral.go] *)

(** The shortest TTL of the NS records. *)
Definition min_ttl (first : Z) (rest : list (RR Addr)) : Z := foldl (λ t rr, Z.min t (RRTTL rr)) first rest.

Definition storeReferral (r : Recursor) (zone : string) (resp : packet) (qname : Name) : Recursor :=
  let cut := New zone in
  match GetRecords resp "NS" [] with
  | [] => r
  | rr :: rest =>
      if negb (Common cut qname =? length (labels cut))%nat then r
      else
        let ttl := min_ttl (RRTTL rr) rest in
        if ttl =? 0 then r
        else with_referrals (ticked r)
               (<[to_lower (NameString cut) := {| ref_resp := resp; ref_expires := now r + ttl * 10 ^ 9 |}]>
                  (referrals r))
  end.

(** The loop of [cachedReferralLocked]: [rest] are the labels from position [i] on. *)
Fixpoint cached_from (r : Recursor) (rest : list string) : Recursor * option (string * packet) :=
  match rest with
  | [] => (r, None)
  | _ :: higher =>
      let cut := to_lower (join "." rest) in
      match referrals r !! cut with
      | None => cached_from r higher
      | Some entry =>
          let r' := ticked r in
          if negb (now r <? ref_expires entry) then cached_from (with_referrals r' (delete cut (referrals r))) higher
          else (r', Some (cut, ref_resp entry))
      end
  end.
Definition cachedReferralLocked (r : Recursor) (name : Name) : Recursor * option (string * packet) :=
  cached_from r (tail (labels name)).

Definition dropReferral (r : Recursor) (cut : string) : Recursor :=
  with_referrals r (delete cut (referrals r)).

(** [awaitReferral]: a cached referral, or a claim on the root step of a TLD.  A walk that
    finds the claim taken waits, and looks at the cache again; the wait is one reading of the
    clock, and [cancelled] says whether the context ends it. *)
Inductive awaited := Found (cut : string) (resp : packet) | Claim (tld : string) | Nothing | Interrupted.

Definition awaitReferral (cancelled : nat → bool) (r : Recursor) (name : Name) : Recursor * awaited :=
  if (length (labels name) <? 2)%nat then (r, Nothing)
  else
    let tld := to_lower (default "" (last (labels name))) in
    match cachedReferralLocked r name with
    | (r, Some (cut, resp)) => (r, Found cut resp)
    | (r, None) =>
        if decide (tld ∈ referralClaims r) then
          if cancelled (readings r) then (ticked r, Interrupted)
          else match cachedReferralLocked (ticked r) name with
               | (r, Some (cut, resp)) => (r, Found cut resp)
               | (r, None) => (r, Nothing)
               end
        else (with_claims r ({[tld]} ∪ referralClaims r), Claim tld)
    end.

(** [releaseClaim]: the claim of a walk, if it holds one. *)
Definition releaseClaim (r : Recursor) (claim : option string) : Recursor :=
  match claim with
  | None => r
  | Some tld => with_claims r (referralClaims r ∖ {[tld]})
  end.
End recursor.
