(* ===== verification/Recursor.v ===== *)
(** * The recursive walk: [engine/recursor/recurse.go] and [resolve.go]

    A walk asks servers about a name, follows their referrals, resolves the addresses of
    servers that come without glue by walks of their own, and follows aliases by yet another
    walk.  Servers are the oracle [ask], which may answer differently each time it is asked.

    [mode] says how the servers of a walk are asked.  In the ordered mode a batch of up to
    [Resolver.Defaults.Parallel] servers is asked, and the results are looked at in the order
    of the batch.  In the unordered mode all servers are asked, and [arrivals] stands for the
    race of their results, for [batchTimeout] and for the end of the batch: it says which
    results are looked at, in order of arrival, and which other servers are asked in vain.

    The queries of a batch share the maps of their walk and the recursor's memory; they take
    effect here one after another, one of the interleavings of the code.  The state of a walk
    is passed by value; nested walks of a server's address share [inProgress] and [glue] with
    their parent and hand them back, or work on copies that are merged when [Parallel] is
    above 1.  A query that is cut short by the end of its context is an error of [ask].
    Walks recurse through the parameter [loop]; fuel bounds the length of a chain of turns, each
    turn a later one of the same walk or the first of a walk it starts.  [tseen] is written
    and never read by the code, and is left out; so are logging and the query's context, apart
    from [ctxErr]. *)

From S2P Require Import Prelude GoStrings RateLimit NsGuards Sorting Names Packet RecursorCache.

Local Open Scope string_scope.
Local Open Scope Z_scope.
Local Open Scope list_scope.

(** [engine/constants] *)
Definition CNAMEMaxChainLength : nat := 10.
Definition CNAMEMaxRecords : nat := 9.

(** The key of a name: its lower case, without a final dot. *)
Definition name_key `{GoUnicode} (name : string) : string := to_lower (NameString (New name)).

Section cname.
Context `{GoUnicode} {Addr : Type} `{!DnsLib Addr}.

(** ** Aliases of one answer: [resolveCNAME] *)

(** A CNAME record: class, owner and target. *)
Record alias := { alias_class : Z; alias_owner : string; alias_target : string }.
Definition as_alias (rr : RR Addr) : option alias :=
  match RRData rr with
  | RCNAME t => Some {| alias_class := RRClass rr; alias_owner := RRName rr; alias_target := t |}
  | _ => None
  end.

Definition dup_key (c : alias) : string :=
  Itoa (alias_class c) +:+ "/CNAME/" +:+ to_lower (alias_owner c) +:+ "/" +:+ to_lower (alias_target c).

(** The first loop: records seen before are dropped. *)
Fixpoint unique_aliases (l : list alias) (seen : gset string) : list alias :=
  match l with
  | [] => []
  | c :: rest =>
      if decide (dup_key c ∈ seen) then unique_aliases rest seen
      else c :: unique_aliases rest ({[dup_key c]} ∪ seen)
  end.

Definition unresolved (name : Name) (target detail : string) : CNAMEError :=
  {| Reason := CNAMEUnresolved; cname_Name := NameString name; Target := target; Detail := detail |}.

(** The second loop: the map of aliases, unless an owner or target comes up twice. *)
Fixpoint alias_map (name : Name) (l : list alias) (seenTargets forbiddenTargets : gset string)
    (cnames : gmap string string) : result (gmap string string) CNAMEError :=
  match l with
  | [] => Ok cnames
  | c :: rest =>
      let ownerKey := name_key (alias_owner c) in
      let targetKey := name_key (alias_target c) in
      if decide (ownerKey ∈ forbiddenTargets) then Err (unresolved name targetKey "loop")
      else if decide (ownerKey = targetKey ∨ targetKey ∈ seenTargets ∨ targetKey ∈ forbiddenTargets)
      then Err (unresolved name targetKey "loop")
      else alias_map name rest ({[targetKey]} ∪ seenTargets) ({[ownerKey]} ∪ forbiddenTargets)
             (<[ownerKey := targetKey]> cnames)
  end.

(** The third loop: from the name to the end of the chain.  It turns at most
    [CNAMEMaxRecords + 1] times before its own bound stops it, so [fuel] of
    [CNAMEMaxRecords + 2] never runs out. *)
Fixpoint follow (name : Name) (cnames : gmap string string) (targetKey : string) (counter fuel : nat)
  : result (string * nat) CNAMEError :=
  match cnames !! targetKey with
  | None => Ok (targetKey, counter)
  | Some next =>
      if (CNAMEMaxRecords <? counter)%nat then
        Err {| Reason := CNAMETooMany; cname_Name := NameString name; Target := targetKey; Detail := "" |}
      else match fuel with
           | O => Ok (targetKey, counter)
           | S fuel => follow name cnames next (S counter) fuel
           end
  end.

(** The end of the chain of aliases of [name] in [cnameRRs], where all records belong to it. *)
Definition chain_end (name : Name) (cnameRRs : list (RR Addr)) : result string CNAMEError :=
  let unique := unique_aliases (omap as_alias cnameRRs) ∅ in
  if (CNAMEMaxRecords <? length unique)%nat then
    Err {| Reason := CNAMETooMany; cname_Name := NameString name; Target := ""; Detail := "" |}
  else
    let? cnames := alias_map name unique ∅ ∅ ∅ in
    let? (targetKey, counter) :=
      follow name cnames (to_lower (NameString name)) 0 (CNAMEMaxRecords + 2) in
    if negb (counter =? length unique)%nat then Err (unresolved name targetKey "broken-chain")
    else Ok targetKey.
End cname.

Section recursor.
Context `{GoUnicode} `{Netip} `{Countable Addr} `{!DnsLib Addr}.

(** ** The state of a walk *)

(** [queryer]: a server with an address, or one whose address is not known yet
    ([lazyNameserver]); its state is the one of the walk it was found in. *)
Inductive queryer := Server (ns : Nameserver) | Lazy (name : string).

Record traceEntry := { zoneName : string; source : queryer; answerFrom : string }.

Record recurseState := {
  ns : list queryer;
  count : Z;
  common : nat;
  seen : gset string;
  inProgress : gset (string * string);
  tcount : nat;
  qname : option Name;
  candidate : packet;
  trace : list traceEntry;
  glue : gmap string (gset Addr);
  answerSource : option queryer;
  atRoot : bool;
  skipReferrals : bool;
  claim : option string
}.

(** [&recurseState{}] *)
Definition new_state : recurseState :=
  {| ns := []; count := 0; common := 0; seen := ∅; inProgress := ∅; tcount := 0; qname := None;
     candidate := no_packet; trace := []; glue := ∅; answerSource := None; atRoot := false;
     skipReferrals := false; claim := None |}.

Definition set_ns (s : recurseState) v := {| ns := v; count := count s; common := common s; seen := seen s;
  inProgress := inProgress s; tcount := tcount s; qname := qname s; candidate := candidate s;
  trace := trace s; glue := glue s; answerSource := answerSource s; atRoot := atRoot s;
  skipReferrals := skipReferrals s; claim := claim s |}.
Definition set_maps (s : recurseState) (p : gset (string * string)) g := {| ns := ns s; count := count s;
  common := common s; seen := seen s; inProgress := p; tcount := tcount s; qname := qname s;
  candidate := candidate s; trace := trace s; glue := g; answerSource := answerSource s;
  atRoot := atRoot s; skipReferrals := skipReferrals s; claim := claim s |}.
Definition set_glue (s : recurseState) g := set_maps s (inProgress s) g.
Definition set_tcount (s : recurseState) v := {| ns := ns s; count := count s; common := common s; seen := seen s;
  inProgress := inProgress s; tcount := v; qname := qname s; candidate := candidate s;
  trace := trace s; glue := glue s; answerSource := answerSource s; atRoot := atRoot s;
  skipReferrals := skipReferrals s; claim := claim s |}.
Definition set_candidate (s : recurseState) v := {| ns := ns s; count := count s; common := common s; seen := seen s;
  inProgress := inProgress s; tcount := tcount s; qname := qname s; candidate := v;
  trace := trace s; glue := glue s; answerSource := answerSource s; atRoot := atRoot s;
  skipReferrals := skipReferrals s; claim := claim s |}.
Definition set_answer (s : recurseState) v := {| ns := ns s; count := count s; common := common s; seen := seen s;
  inProgress := inProgress s; tcount := tcount s; qname := qname s; candidate := candidate s;
  trace := trace s; glue := glue s; answerSource := Some v; atRoot := atRoot s;
  skipReferrals := skipReferrals s; claim := claim s |}.
Definition set_claim (s : recurseState) v := {| ns := ns s; count := count s; common := common s; seen := seen s;
  inProgress := inProgress s; tcount := tcount s; qname := qname s; candidate := candidate s;
  trace := trace s; glue := glue s; answerSource := answerSource s; atRoot := atRoot s;
  skipReferrals := skipReferrals s; claim := v |}.
(** What [recurse] fills in before the walk. *)
Definition set_started (s : recurseState) n key := {| ns := ns s; count := count s; common := common s; seen := seen s;
  inProgress := {[key]} ∪ inProgress s; tcount := tcount s;
  qname := Some (default n (qname s)); candidate := candidate s;
  trace := trace s; glue := glue s; answerSource := answerSource s; atRoot := atRoot s;
  skipReferrals := skipReferrals s; claim := claim s |}.
(** A referral: the zone is seen, [common] grows, the walk leaves the root, and the trace
    grows at its head. *)
Definition set_seen (s : recurseState) z := {| ns := ns s; count := count s; common := common s; seen := {[z]} ∪ seen s;
  inProgress := inProgress s; tcount := tcount s; qname := qname s; candidate := candidate s;
  trace := trace s; glue := glue s; answerSource := answerSource s; atRoot := atRoot s;
  skipReferrals := skipReferrals s; claim := claim s |}.
Definition set_common (s : recurseState) c := {| ns := ns s; count := count s; common := c; seen := seen s;
  inProgress := inProgress s; tcount := tcount s; qname := qname s; candidate := candidate s;
  trace := trace s; glue := glue s; answerSource := answerSource s; atRoot := atRoot s;
  skipReferrals := skipReferrals s; claim := claim s |}.
Definition leave_root (s : recurseState) := {| ns := ns s; count := count s; common := common s; seen := seen s;
  inProgress := inProgress s; tcount := tcount s; qname := qname s; candidate := candidate s;
  trace := trace s; glue := glue s; answerSource := answerSource s; atRoot := false;
  skipReferrals := skipReferrals s; claim := None |}.
Definition set_next (s : recurseState) next := {| ns := next; count := count s + 1; common := common s; seen := seen s;
  inProgress := inProgress s; tcount := tcount s; qname := qname s; candidate := candidate s;
  trace := trace s; glue := glue s; answerSource := answerSource s; atRoot := atRoot s;
  skipReferrals := skipReferrals s; claim := claim s |}.
Definition push_trace (s : recurseState) e := {| ns := ns s; count := count s; common := common s; seen := seen s;
  inProgress := inProgress s; tcount := tcount s; qname := qname s; candidate := candidate s;
  trace := e :: trace s; glue := glue s; answerSource := answerSource s; atRoot := atRoot s;
  skipReferrals := skipReferrals s; claim := claim s |}.
(** The state [startAtRoot] and [seedReferral] leave. *)
Definition at_root (s : recurseState) servers := {| ns := servers; count := count s; common := common s; seen := seen s;
  inProgress := inProgress s; tcount := tcount s; qname := qname s; candidate := candidate s;
  trace := trace s; glue := glue s; answerSource := answerSource s; atRoot := true;
  skipReferrals := skipReferrals s; claim := claim s |}.
Definition seeded (s : recurseState) servers cut c := {| ns := servers; count := count s + 1; common := c; seen := {[cut]};
  inProgress := inProgress s; tcount := tcount s; qname := qname s; candidate := candidate s;
  trace := trace s; glue := glue s; answerSource := answerSource s; atRoot := atRoot s;
  skipReferrals := skipReferrals s; claim := claim s |}.

Definition isInProgress (s : recurseState) (name qtype : string) : bool :=
  bool_decide ((name_key name, to_upper qtype) ∈ inProgress s).
Definition clearInProgress (s : recurseState) (name qtype : string) : recurseState :=
  set_maps s (inProgress s ∖ {[(name_key name, to_upper qtype)]}) (glue s).

(** The result of a walk: packet and error, the state object it was given, and the state it
    returns when that is another object (the state of the walk an alias led to). *)
Record walked := { answer : result packet rerror; own : recurseState; other : option recurseState }.
Definition returned (o : walked) : recurseState := default (own o) (other o).

(** ** Referrals and addresses *)

Definition redirectName (resp : packet) : option string :=
  match GetRecords resp "NS" [] with
  | [] => None
  | rr :: _ => Some (NameString (New (RRName rr)))
  end.

(** The first loop of [getNSFrom]: the names by key (first spelling), the keys glue is taken
    for, and the owner of the records. *)
Fixpoint scan_ns (rrs : list (RR Addr)) (byKey : gmap string string) (glueAllowed : gset string)
    (owner : string) : gmap string string * gset string * string :=
  match rrs with
  | [] => (byKey, glueAllowed, owner)
  | rr :: rest =>
      match RRData rr with
      | RNS target =>
          let nsName := New target in
          let key := to_lower (NameString nsName) in
          let byKey := match byKey !! key with Some _ => byKey | None => <[key := NameString nsName]> byKey end in
          let zoneName := New (RRName rr) in
          let owner := if decide (owner = "") then to_lower (NameString zoneName) else owner in
          let glueAllowed := if IsInBailiwick zoneName nsName then {[key]} ∪ glueAllowed else glueAllowed in
          scan_ns rest byKey glueAllowed owner
      | _ => scan_ns rest byKey glueAllowed owner
      end
  end.

(** [netip.Addr.IsValid] *)
Context (IsValid : Addr → bool).

Definition address_of (rr : RR Addr) : option Addr :=
  match RRData rr with RA a | RAAAA a => Some a | _ => None end.

Definition add_glue (key : string) (a : Addr) (g : gmap string (gset Addr)) : gmap string (gset Addr) :=
  <[key := {[a]} ∪ default ∅ (g !! key)]> g.

(** The loops over the A and the AAAA records. *)
Fixpoint collect_glue (rrs : list (RR Addr)) (glueAllowed : gset string) (g : gmap string (gset Addr))
  : gmap string (gset Addr) :=
  match rrs with
  | [] => g
  | rr :: rest =>
      let owner := name_key (RRName rr) in
      match address_of rr with
      | Some a =>
          if decide (owner ∈ glueAllowed) then
            collect_glue rest glueAllowed (if IsValid a then add_glue owner a g else g)
          else collect_glue rest glueAllowed g
      | None => collect_glue rest glueAllowed g
      end
  end.

(** The loop that splits the names into servers with glue and names without. *)
Fixpoint split_names (names : list string) (g : gmap string (gset Addr))
  : result (list Nameserver * list string) rerror :=
  match names with
  | [] => Ok ([], [])
  | name :: rest =>
      let key := name_key name in
      match elements (default ∅ (g !! key)) with
      | [] => let? (withGlue, extra) := split_names rest g in Ok (withGlue, name :: extra)
      | addrs =>
          let? servers := servers_of name (Limits.CapAddresses AddrString addrs).1 in
          let? (withGlue, extra) := split_names rest g in Ok (servers ++ withGlue, extra)
      end
  end.

(** The order of the servers with glue. *)
Definition server_less (a b : Nameserver) : bool :=
  by_key String.ltb (λ s, to_lower (NameString (NsName s))) Asc
    (by_last String.ltb (λ s, AddrString (Address s)) Asc) a b.

Definition getNSFrom (resp : packet) (s : recurseState)
  : recurseState * result (list queryer) rerror :=
  match GetRecords resp "NS" [] with
  | [] => (s, Ok [])
  | nsRecords =>
      let '(byKey, glueAllowed, owner) := scan_ns nsRecords ∅ ∅ "" in
      let names := omap (λ key, byKey !! key) (Limits.CapNames (sorted_keys byKey)).1 in
      let g := collect_glue (GetRecords resp "A" []) glueAllowed (glue s) in
      let g := collect_glue (GetRecords resp "AAAA" []) glueAllowed g in
      (set_glue s g,
       let? (withGlue, extra) := split_names names g in
       Ok ((Server <$> sort_slice server_less withGlue) ++ (Lazy <$> merge_sort String.le extra)))
  end.

Definition collectCNAMEs (resp : packet) (target : Name) : gset string :=
  if has_msg resp then
    list_to_set (omap (λ rr, match RRData rr with RCNAME t => Some (name_key t) | _ => None end)
                   (GetRecordsForName resp "CNAME" target []))
  else ∅.

Definition collectAddresses (resp : packet) (target : Name) (cnames : gset string) : list Addr :=
  if has_msg resp then
    let targetKey := to_lower (NameString target) in
    let pick rr :=
      let owner := name_key (RRName rr) in
      match address_of rr with
      | Some a => if bool_decide (owner = targetKey ∨ owner ∈ cnames) && IsValid a then Some a else None
      | None => None
      end in
    omap pick (GetRecords resp "A" []) ++ omap pick (GetRecords resp "AAAA" [])
  else [].

Definition firstSOAOwner (resp : packet) : string :=
  match GetRecords resp "SOA" ["answer"] with
  | [] => ""
  | rr :: _ => NameString (New (RRName rr))
  end.

(** ** Walks *)

(** [Resolver.Defaults.Unordered] and [Parallel], and the order of events in the unordered
    mode: of the servers of a batch, those whose results are looked at before its time is up
    or the batch decided, in order of arrival, and those asked without their results being
    looked at. *)
Inductive mode :=
| Ordered (Parallel : Z)
| UnorderedBy (arrivals : nat → list queryer → list queryer * list queryer).

Context (clock : nat → Z) (cancelled ctxErr : nat → bool) (Mode : mode).

(** The number of queries at a time, as the walks for addresses see it. *)
Definition parallelism : nat :=
  match Mode with Ordered Parallel => Z.to_nat (Z.max Parallel 1) | UnorderedBy _ => 1 end.
(** A server's answer to the [n]-th question. *)
Context (ask : nat → Nameserver → string → string → string → result packet rerror).

Section walks.
(** The loop over the servers of a walk. *)
Context (loop : string → string → string → recurseState → Recursor → option (walked * Recursor)).

(** [recurse] *)
Definition recurse (name qtype qclass : string) (s : recurseState) (r : Recursor)
  : option (walked * Recursor) :=
  let qtype := to_upper (if decide (qtype = "") then "A" else qtype) in
  let qclass := to_upper (if decide (qclass = "") then "IN" else qclass) in
  let key := (name_key name, qtype) in
  if decide (key ∈ inProgress s) then
    Some ({| answer := Ok no_packet; own := set_started s (New name) key; other := None |}, r)
  else loop name qtype qclass (set_started s (New name) key) r.

Definition seedReferral (name : Name) (cut : string) (resp : packet) (s : recurseState)
  : recurseState * result bool rerror :=
  match getNSFrom resp s with
  | (s, Err e) => (s, Err e)
  | (s, Ok []) => (s, Ok false)
  | (s, Ok servers) => (seeded s servers cut (Common (New cut) name), Ok true)
  end.

(** [startAtRoot], then [recurse]; the claim of the walk is released when it is over. *)
Definition walk_from_root (name qtype qclass : string) (s : recurseState) (r : Recursor)
  : option (walked * Recursor) :=
  match RootServers r with
  | Err e => Some ({| answer := Err e; own := s; other := None |}, releaseClaim r (claim s))
  | Ok servers =>
      match recurse name qtype qclass (at_root s (Server <$> servers)) r with
      | None => None
      | Some (o, r) => Some (o, releaseClaim r (claim (own o)))
      end
  end.

(** [recurseFromRoot]; [newState] builds a state from the maps it shares with its parent. *)
Definition recurseFromRoot (name qtype qclass : string)
    (newState : gset (string * string) * gmap string (gset Addr) → recurseState)
    (shared : gset (string * string) * gmap string (gset Addr)) (r : Recursor)
  : option (walked * Recursor) :=
  let s := newState shared in
  if skipReferrals s || isInProgress s name qtype then walk_from_root name qtype qclass s r
  else
    let nameObj := New name in
    match awaitReferral clock cancelled r nameObj with
    | (r, Interrupted) =>
        Some ({| answer := Err (ErrOther "context"); own := s; other := None |}, r)
    | (r, Nothing) => walk_from_root name qtype qclass s r
    | (r, Claim tld) => walk_from_root name qtype qclass (set_claim s (Some tld)) r
    | (r, Found cut resp) =>
        match seedReferral nameObj cut resp s with
        | (s, Err e) => Some ({| answer := Err e; own := s; other := None |}, r)
        | (s, Ok false) =>
            walk_from_root name qtype qclass (newState (inProgress s, glue s)) r
        | (s, Ok true) =>
            match recurse name qtype qclass s r with
            | None => None
            | Some (o, r) =>
                let done := match answer o with Err _ => true | Ok resp => has_msg resp end in
                if done || ctxErr (readings r) then Some (o, r)
                else
                  let r := dropReferral r cut in
                  let s := match other o with
                           | None => clearInProgress (own o) name qtype
                           | Some _ => own o
                           end in
                  walk_from_root name qtype qclass (newState (inProgress s, glue s)) r
            end
        end
    end.

(** The state of the walk for an address of a server found in [s]. *)
Definition address_state (s : recurseState) (shared : gset (string * string) * gmap string (gset Addr))
  : recurseState :=
  let n := set_maps new_state shared.1 shared.2 in
  {| ns := ns n; count := count s; common := common n; seen := ∅; inProgress := inProgress n;
     tcount := tcount n; qname := qname n; candidate := candidate n; trace := trace n; glue := glue n;
     answerSource := answerSource n; atRoot := atRoot n; skipReferrals := skipReferrals n;
     claim := claim n |}.

(** [mergeInProgressMaps] and [mergeGlueMaps] of the maps of another state. *)
Definition merge_maps (s src : recurseState) : recurseState :=
  set_maps s (inProgress s ∪ inProgress src) (union_with (λ a b, Some (a ∪ b)) (glue s) (glue src)).

(** The addresses of [name] in the two answers. *)
Definition both_addresses (name : string) (pa paaaa : packet) : list Addr :=
  let target := New name in
  let cnames := collectCNAMEs pa target ∪ collectCNAMEs paaaa target in
  let res := collectAddresses pa target cnames ++ collectAddresses paaaa target cnames in
  (Limits.CapAddresses AddrString res).1.

(** One walk after the other, on the maps of [s]. *)
Definition addresses_in_turn (name : string) (s : recurseState) (r : Recursor)
  : option (result (list Addr) rerror * recurseState * Recursor) :=
  match recurseFromRoot name "A" "IN" (address_state s) (inProgress s, glue s) r with
  | None => None
  | Some (o, r) =>
      let s := set_maps s (inProgress (own o)) (glue (own o)) in
      match answer o with
      | Err e => Some (Err e, s, r)
      | Ok pa =>
          if NoSuchName pa then Some (Ok [], s, r)
          else
            match recurseFromRoot name "AAAA" "IN" (address_state s) (inProgress s, glue s) r with
            | None => None
            | Some (o, r) =>
                let s := set_maps s (inProgress (own o)) (glue (own o)) in
                match answer o with
                | Err e => Some (Err e, s, r)
                | Ok paaaa => Some (Ok (both_addresses name pa paaaa), s, r)
                end
            end
      end
  end.

(** Both walks, on copies of the maps. *)
Definition addresses_at_once (name : string) (s : recurseState) (r : Recursor)
  : option (result (list Addr) rerror * recurseState * Recursor) :=
  let base := (inProgress s, glue s) in
  match recurseFromRoot name "A" "IN" (λ _, address_state s base) base r with
  | None => None
  | Some (o1, r) =>
      match recurseFromRoot name "AAAA" "IN" (λ _, address_state s base) base r with
      | None => None
      | Some (o2, r) =>
          let s := merge_maps s (returned o1) in
          match answer o1 with
          | Err e => Some (Err e, s, r)
          | Ok pa =>
              if NoSuchName pa then Some (Ok [], s, r)
              else
                let s := merge_maps s (returned o2) in
                match answer o2 with
                | Err e => Some (Err e, s, r)
                | Ok paaaa => Some (Ok (both_addresses name pa paaaa), s, r)
                end
          end
      end
  end.

Definition getAddressesFor (name : string) (s : recurseState) (r : Recursor)
  : option (result (list Addr) rerror * recurseState * Recursor) :=
  if (parallelism =? 1)%nat then addresses_in_turn name s r else addresses_at_once name s r.

(** [queryAddresses], one address after the other: the first that answers. *)
Fixpoint ask_in_turn (name : string) (addrs : list Addr) (qname qtype qclass : string) (r : Recursor)
  : result packet rerror * Recursor :=
  match addrs with
  | [] => (Ok no_packet, r)
  | addr :: rest =>
      match NewWithContext name (AddrString addr) with
      | Err _ => ask_in_turn name rest qname qtype qclass r
      | Ok server =>
          match ask (readings r) server qname qtype qclass with
          | Ok resp => if has_msg resp then (Ok resp, ticked r)
                       else ask_in_turn name rest qname qtype qclass (ticked r)
          | Err _ => ask_in_turn name rest qname qtype qclass (ticked r)
          end
      end
  end.

(** All addresses are asked: the first in their order that answered. *)
Fixpoint ask_at_once (name : string) (addrs : list Addr) (qname qtype qclass : string) (r : Recursor)
  : result packet rerror * Recursor :=
  match addrs with
  | [] => (Ok no_packet, r)
  | addr :: rest =>
      match NewWithContext name (AddrString addr) with
      | Err _ => ask_at_once name rest qname qtype qclass r
      | Ok server =>
          let reply := ask (readings r) server qname qtype qclass in
          let '(later, r) := ask_at_once name rest qname qtype qclass (ticked r) in
          match reply with
          | Ok resp => if has_msg resp then (Ok resp, r) else (later, r)
          | Err _ => (later, r)
          end
      end
  end.

Definition queryAddresses (name : string) (addrs : list Addr) (qname qtype qclass : string) (r : Recursor)
  : result packet rerror * Recursor :=
  if (parallelism <=? 1)%nat || (length addrs =? 1)%nat then ask_in_turn name addrs qname qtype qclass r
  else ask_at_once name addrs qname qtype qclass r.

(** [lazyNameserver.QueryWithClass] *)
Definition query_lazy (lname qname qtype qclass : string) (s : recurseState) (r : Recursor)
  : option (result packet rerror * recurseState * Recursor) :=
  let nameKey := name_key lname in
  let '(cachedAddrs, s) :=
    match glue s !! nameKey with
    | Some addrs => (elements addrs, s)
    | None => ([], set_glue s (<[nameKey := ∅]> (glue s)))
    end in
  match cachedAddrs with
  | _ :: _ =>
      let '(resp, r) := queryAddresses lname (Limits.CapAddresses AddrString cachedAddrs).1 qname qtype qclass r in
      Some (resp, s, r)
  | [] =>
      match getAddressesFor lname s r with
      | None => None
      | Some (Err e, s, r) => Some (Err e, s, r)
      | Some (Ok addrs, s, r) =>
          let s := set_glue s (<[nameKey := list_to_set addrs ∪ default ∅ (glue s !! nameKey)]> (glue s)) in
          let '(resp, r) := queryAddresses lname addrs qname qtype qclass r in
          Some (resp, s, r)
      end
  end.

(** [QueryWithClass] of a [queryer]. *)
Definition QueryWithClass (q : queryer) (name qtype qclass : string) (s : recurseState) (r : Recursor)
  : option (result packet rerror * recurseState * Recursor) :=
  match q with
  | Server server => Some (ask (readings r) server name qtype qclass, s, ticked r)
  | Lazy lname => query_lazy lname name qtype qclass s r
  end.

(** [resolveCNAME] *)
Definition resolveCNAME (name : Name) (qtype qclass : string) (resp : packet) (s : recurseState)
    (r : Recursor) : option (walked * Recursor) :=
  let r := releaseClaim r (claim s) in
  let s := set_claim s None in
  let stop a s := Some ({| answer := a; own := s; other := None |}, r) in
  match GetRecords resp "CNAME" ["answer"] with
  | [] => stop (Ok resp) s
  | cnameRRs =>
      match chain_end name cnameRRs with
      | Err e => stop (Err (ErrCNAME e)) s
      | Ok targetKey =>
          let targetName := New targetKey in
          if negb (bool_decide (GetRecords resp qtype ["answer"] = [])) then
            if HasRRsOfTypeForName resp qtype targetName ["answer"] then stop (Ok resp) s
            else stop (Err (ErrCNAME (unresolved name targetKey "qtype-mismatch"))) s
          else if decide ((targetKey, qtype) ∈ inProgress s) then
            stop (Err (ErrCNAME (unresolved name targetKey "loop-outer"))) s
          else
            let s := set_tcount s (S (tcount s)) in
            if (CNAMEMaxChainLength <? tcount s)%nat then
              stop (Err (ErrCNAME {| Reason := CNAMEChainTooLong; cname_Name := NameString name;
                                     Target := targetKey; Detail := "" |})) s
            else if negb (IsInBailiwick name targetName) then
              let newState _ :=
                {| ns := []; count := 0; common := 0; seen := ∅; inProgress := ∅; tcount := tcount s;
                   qname := None; candidate := no_packet; trace := []; glue := ∅;
                   answerSource := None; atRoot := false; skipReferrals := skipReferrals s;
                   claim := None |} in
              match recurseFromRoot (NameString targetName) qtype qclass newState (∅, ∅) r with
              | None => None
              | Some (o, r) => Some ({| answer := answer o; own := s; other := Some (returned o) |}, r)
              end
            else stop (Ok resp) s
      end
  end.

(** What both modes do with a referral to a zone that passed their checks. *)
Definition follow_referral (zname : string) (source : queryer) (resp : packet) (s : recurseState)
    (r : Recursor) : recurseState * result bool rerror * Recursor :=
  let '(s, r) :=
    if atRoot s then
      (leave_root s,
       releaseClaim (storeReferral clock r zname resp (default (New "") (qname s))) (claim s))
    else (s, r) in
  match getNSFrom resp s with
  | (s, Err e) => (s, Err e, r)
  | (s, Ok next) =>
      let s := set_next s next in
      if 20 <? count s then (s, Ok false, r)
      else (push_trace s {| zoneName := zname; source := source; answerFrom := AnswerFrom resp |}, Ok true, r)
  end.

(** What a response means for the walk: ask on, stop, or ask the servers of a zone. *)
Inductive action := Continue | Return (o : walked) | Redirect.

(** Does the answer hold aliases of the name in place of the records asked for? *)
Definition needs_cname (name : Name) (qtype : string) (resp : packet) : bool :=
  negb (HasRRsOfTypeForName resp qtype name ["answer"])
  && negb (bool_decide (GetRecordsForName resp "CNAME" name ["answer"] = [])).

Definition stop_with (a : result packet rerror) (s : recurseState) : action :=
  Return {| answer := a; own := s; other := None |}.

(** [REFUSED] and [SERVFAIL] answers are kept for when nothing better comes. *)
Definition is_candidate (resp : packet) : bool :=
  bool_decide (p_Rcode resp = "REFUSED" ∨ p_Rcode resp = "SERVFAIL").

(** The part of the treatment of a response in the ordered mode that concerns answers. *)
Definition process_answer (name : Name) (qtype qclass : string) (s : recurseState) (source : queryer)
    (resp : packet) (r : Recursor)
    (redirect : option (recurseState * action * Recursor)) : option (recurseState * action * Recursor) :=
  if NoSuchRecord resp || NoSuchName resp then
    let s := set_answer s source in Some (s, stop_with (Ok resp) s, r)
  else if decide (Type_ resp = "answer") then
    if needs_cname name qtype resp then
      match resolveCNAME name qtype qclass resp s r with
      | None => None
      | Some (o, r) => Some (own o, Return o, r)
      end
    else let s := set_answer s source in Some (s, stop_with (Ok resp) s, r)
  else if IsRedirect resp then redirect
  else Some (s, Continue, r).

(** The end of a referral. *)
Definition redirected (zname : string) (source : queryer) (resp : packet) (s : recurseState) (r : Recursor)
  : option (recurseState * action * Recursor) :=
  match follow_referral zname source resp s r with
  | (s, Err e, r) => Some (s, stop_with (Err e) s, r)
  | (s, Ok false, r) => Some (s, stop_with (Ok no_packet) s, r)
  | (s, Ok true, r) => Some (s, Redirect, r)
  end.

(** [processOrderedResponse] *)
Definition processOrderedResponse (name : Name) (qtype qclass : string) (s : recurseState)
    (source : queryer) (reply : result packet rerror) (r : Recursor)
  : option (recurseState * action * Recursor) :=
  match reply with
  | Err _ => Some (s, Continue, r)
  | Ok resp =>
      if negb (has_msg resp) then Some (s, Continue, r)
      else if is_candidate resp then Some (set_candidate s resp, Continue, r)
      else process_answer name qtype qclass s source resp r
             (match redirectName resp with
              | None => Some (s, Continue, r)
              | Some zname =>
                  if decide (zname = ".") then Some (s, Continue, r)
                  else if decide (to_lower zname ∈ seen s) then Some (s, Continue, r)
                  else
                    let s := set_seen s (to_lower zname) in
                    let c := Common (New zname) (default (New "") (qname s)) in
                    if (c <? common s)%nat then Some (s, Continue, r)
                    else redirected zname source resp (set_common s c) r
              end)
  end.

(** What the result loop of [recurseUnordered] makes of a result: nothing, the answer of the
    walk ([needsCNAME] for an alias), or a referral. *)
Inductive verdict :=
| Undecided
| Decided (resp : packet) (needsCNAME : bool)
| Redirected (source : queryer) (resp : packet) (zname : string) (c : nat).

(** The body of the result loop. *)
Definition look_at (name : Name) (qtype : string) (s : recurseState) (source : queryer)
    (reply : result packet rerror) : recurseState * verdict :=
  match reply with
  | Err _ => (s, Undecided)
  | Ok resp =>
      if negb (has_msg resp) then (s, Undecided)
      else if is_candidate resp then
        (if has_msg (candidate s) then s else set_candidate s resp, Undecided)
      else if NoSuchRecord resp || NoSuchName resp then (set_answer s source, Decided resp false)
      else if decide (Type_ resp = "answer") then
        if needs_cname name qtype resp then (s, Decided resp true)
        else (set_answer s source, Decided resp false)
      else if IsRedirect resp then
        match redirectName resp with
        | None => (s, Undecided)
        | Some zname =>
            if decide (zname = ".") then (s, Undecided)
            else if decide (to_lower zname ∈ seen s) then (s, Undecided)
            else
              let c := Common (New zname) (default (New "") (qname s)) in
              if (c <? common s)%nat then (s, Undecided) else (s, Redirected source resp zname c)
        end
      else (s, Undecided)
  end.

(** The result loop: results are looked at until one decides. *)
Fixpoint look_through (name qtype qclass : string) (looked : list queryer) (s : recurseState) (r : Recursor)
  : option (recurseState * verdict * Recursor) :=
  match looked with
  | [] => Some (s, Undecided, r)
  | q :: rest =>
      match QueryWithClass q name qtype qclass s r with
      | None => None
      | Some (reply, s, r) =>
          match look_at (New name) qtype s q reply with
          | (s, Undecided) => look_through name qtype qclass rest s r
          | (s, v) => Some (s, v, r)
          end
      end
  end.

(** What follows the result loop. *)
Definition conclude (name : Name) (qtype qclass : string) (s : recurseState) (v : verdict) (r : Recursor)
  : option (recurseState * action * Recursor) :=
  match v with
  | Undecided => Some (s, Continue, r)
  | Decided resp true =>
      match resolveCNAME name qtype qclass resp s r with
      | None => None
      | Some (o, r) => Some (own o, Return o, r)
      end
  | Decided resp false => Some (s, stop_with (Ok resp) s, r)
  | Redirected source resp zname c =>
      redirected zname source resp (set_common (set_seen s (to_lower zname)) c) r
  end.

(** The servers of a batch of the ordered mode, taken from the end, and those that stay. *)
Definition take_batch (Parallel : Z) (l : list queryer) : list queryer * list queryer :=
  let p := Z.to_nat (Z.max Parallel 1) in
  let batchSize := if (1 <? p)%nat then (p `min` length l)%nat else 1%nat in
  (take batchSize (reverse l), reverse (drop batchSize (reverse l))).

(** The queries of a batch. *)
Fixpoint query_all (name qtype qclass : string) (batch : list queryer) (s : recurseState) (r : Recursor)
  : option (list (queryer * result packet rerror) * recurseState * Recursor) :=
  match batch with
  | [] => Some ([], s, r)
  | q :: rest =>
      match QueryWithClass q name qtype qclass s r with
      | None => None
      | Some (reply, s, r) =>
          match query_all name qtype qclass rest s r with
          | None => None
          | Some (results, s, r) => Some ((q, reply) :: results, s, r)
          end
      end
  end.

(** Their results, in the order of the batch. *)
Fixpoint process_batch (name qtype qclass : string) (s : recurseState)
    (results : list (queryer * result packet rerror)) (r : Recursor)
  : option (recurseState * action * Recursor) :=
  match results with
  | [] => Some (s, Continue, r)
  | (q, reply) :: rest =>
      match processOrderedResponse (New name) qtype qclass s q reply r with
      | Some (s, Continue, r) => process_batch name qtype qclass s rest r
      | decision => decision
      end
  end.

(** One batch of [recurseOrdered]. *)
Definition ordered_batch (Parallel : Z) (name qtype qclass : string) (s : recurseState) (r : Recursor)
  : option (recurseState * action * Recursor) :=
  let '(batch, rest) := take_batch Parallel (ns s) in
  match query_all name qtype qclass batch (set_ns s rest) r with
  | None => None
  | Some (results, s, r) => process_batch name qtype qclass s results r
  end.

(** One batch of [recurseUnordered]. *)
Definition unordered_batch (arrivals : nat → list queryer → list queryer * list queryer)
    (name qtype qclass : string) (s : recurseState) (r : Recursor)
  : option (recurseState * action * Recursor) :=
  let '(looked, ignored) := arrivals (readings r) (ns s) in
  match look_through name qtype qclass looked (set_ns s []) r with
  | None => None
  | Some (s, v, r) =>
      match query_all name qtype qclass ignored s r with
      | None => None
      | Some (_, s, r) => conclude (New name) qtype qclass s v r
      end
  end.

(** One turn of the loops of [recurseOrdered] and [recurseUnordered]. *)
Definition step (name qtype qclass : string) (s : recurseState) (r : Recursor)
  : option (walked * Recursor) :=
  match ns s with
  | [] => Some ({| answer := Ok (candidate s); own := s; other := None |}, r)
  | _ =>
      match match Mode with
            | Ordered Parallel => ordered_batch Parallel name qtype qclass s r
            | UnorderedBy arrivals => unordered_batch arrivals name qtype qclass s r
            end with
      | None => None
      | Some (_, Return o, r) => Some (o, r)
      | Some (s, Continue, r) => loop name qtype qclass s r
      | Some (s, Redirect, r) => loop name qtype qclass s r
      end
  end.
End walks.

(** The loop, with fuel for all its turns and those of the walks nested in them. *)
Fixpoint walk (fuel : nat) (name qtype qclass : string) (s : recurseState) (r : Recursor)
  : option (walked * Recursor) :=
  match fuel with
  | O => None
  | S fuel => step (walk fuel) name qtype qclass s r
  end.

(** ** Lookups: [resolve.go] *)

(** A lookup ends with a result, or waits for another lookup of the same key. *)
Inductive looked_up := Done (res : result packet rerror) | Waiting.

(** [recurseWithNameservers]; [None] when the fuel runs out. *)
Definition recurseWithNameservers (fuel : nat) (name qtype qclass : string) (servers : option (list Nameserver))
    (r : Recursor) : option (looked_up * Recursor) :=
  let qtype := to_upper (if decide (qtype = "") then "A" else qtype) in
  let qclass := to_upper (if decide (qclass = "") then "IN" else qclass) in
  let nameObj := New name in
  let key := cacheNameKey nameObj (default [] servers) in
  let of_hit (hit : packet * option rerror) := match hit with (p, None) => Ok p | (_, Some e) => Err e end in
  match cacheLookup clock r key qtype qclass with
  | (r, Some hit) => Some (Done (of_hit hit), r)
  | (r, None) =>
      match cacheLookupOrWaitOrRegister clock r key qtype qclass with
      | (r, Cached hit) => Some (Done (of_hit hit), r)
      | (r, Wait) => Some (Waiting, r)
      | (r, Registered) =>
          let found :=
            match servers with
            | None => recurseFromRoot (walk fuel) name qtype qclass (λ _, new_state) (∅, ∅) r
            | Some l => recurse (walk fuel) name qtype qclass (set_ns new_state (Server <$> l)) r
            end in
          match found with
          | None => None
          | Some (o, r) =>
              let live := negb (ctxErr (readings r)) in
              match answer o with
              | Err e =>
                  let r := if live then cacheStoreNegative clock r key qtype qclass (Some e) else r in
                  Some (Done (Err e), finishInflightLookup r key qtype qclass)
              | Ok resp =>
                  let r := if has_msg resp then cacheStore r key qtype qclass resp
                           else if live then cacheStoreNegative clock r key qtype qclass None else r in
                  Some (Done (Ok resp), finishInflightLookup r key qtype qclass)
              end
          end
      end
  end.

Definition Recurse (fuel : nat) (name qtype qclass : string) (r : Recursor) :=
  recurseWithNameservers fuel name qtype qclass None r.
Definition RecurseWithNameservers (fuel : nat) (name qtype qclass : string) (servers : list Nameserver) (r : Recursor) :=
  recurseWithNameservers fuel name qtype qclass (Some servers) r.

(** [GetAddressesFor] *)
Definition GetAddressesFor (fuel : nat) (name : string) (r : Recursor)
  : option (result (list Addr) rerror * Recursor) :=
  match getAddressesFor (walk fuel) name new_state r with
  | None => None
  | Some (res, _, r) => Some (res, r)
  end.

(** [strings.EqualFold] of two names. *)
Definition same_name (a b : Name) : bool := EqualFold (NameString a) (NameString b).

(** The zone [Parent] finds in the trace, and the server it will ask about a zone in between. *)
Definition traced_parent (name : Name) (s : recurseState) (first : traceEntry) (others : list traceEntry)
  : string * Name * option queryer :=
  let pname := zoneName first in
  if same_name (New pname) name then
    match others with
    | e :: _ => (zoneName e, New (zoneName e), Some (source first))
    | [] => match NextHigher name with
            | Some higher => (NameString higher, higher, Some (source first))
            | None => (pname, New pname, Some (source first))
            end
    end
  else (pname, New pname, answerSource s).

(** [Parent] *)
Definition Parent (fuel : nat) (name : string) (r : Recursor)
  : option (result (string * packet) rerror * Recursor) :=
  let nameObj := New name in
  if decide (NameString nameObj = ".") then Some (Ok (".", no_packet), r)
  else match RootServers r with
  | Err e => Some (Err e, r)
  | Ok root =>
      let s := {| ns := Server <$> root; count := 0; common := 0; seen := ∅; inProgress := ∅; tcount := 0;
                  qname := None; candidate := no_packet; trace := []; glue := ∅; answerSource := None;
                  atRoot := true; skipReferrals := true; claim := None |} in
      match recurse (walk fuel) (NameString nameObj) "SOA" "IN" s r with
      | None => None
      | Some (o, r) =>
          match answer o with
          | Err e => Some (Err e, r)
          | Ok resp =>
              let s := returned o in
              match trace s with
              | [] =>
                  if (length (labels nameObj) =? 1)%nat then
                    match NextHigher nameObj with
                    | Some higher => Some (Ok (NameString higher, resp), r)
                    | None => Some (Ok ("", resp), r)
                    end
                  else Some (Ok ("", resp), r)
              | first :: others =>
                  let '(pname, pnameObj, probe) := traced_parent nameObj s first others in
                  match NextHigher nameObj with
                  | Some higher =>
                      if same_name higher pnameObj then Some (Ok (pname, resp), r)
                      else
                        let src := default (source first) probe in
                        match QueryWithClass (walk fuel) src (NameString higher) "SOA" "IN" s r with
                        | None => None
                        | Some (Ok pp, _, r) =>
                            if has_msg pp && AA pp && negb (bool_decide (firstSOAOwner pp = ""))
                            then Some (Ok (firstSOAOwner pp, resp), r)
                            else Some (Ok (pname, resp), r)
                        | Some (Err _, _, r) => Some (Ok (pname, resp), r)
                        end
                  | None => Some (Ok (pname, resp), r)
                  end
              end
          end
      end
  end.
End recursor.
