(* ===== verification/RecursorLoop.v ===== *)
(** * A lookup that never ends

    [getAddressesFor] starts its walks without the alias count of the walk that needs the
    address, and [resolveCNAME] starts its walk with an empty [inProgress] and a referral
    count of zero.  Two delegations to servers whose names are aliases into each other's zone
    therefore send the recursor round in a circle, in the ordered mode for any [Parallel],
    whatever the clock, as long as the servers go on answering.  In the unordered mode
    [batchTimeout] ends the queries of the outermost walk, and with them the circle. *)

From S2P Require Import Prelude GoStrings RateLimit Names Packet RecursorCache Recursor.

Local Open Scope string_scope.
Local Open Scope Z_scope.
Local Open Scope list_scope.

(** ** Concrete interfaces *)

Definition text_addresses : Netip :=
  {| Addr := string; Prefix := string; ParseAddr := Some; ParsePrefix := Some; Unmap := λ a, a;
     AddrString := λ a, a; Contains := λ _ _, false; HostPrefix := λ a, a;
     Is6 := λ _, false; Is4In6 := λ _, false; Masked64 := λ a, a |}.

(** The rows of the library's tables the walks look at. *)
Definition few_tables {A} : DnsLib A :=
  {| OpcodeToString := λ _, ""; RcodeToString := λ n, if n =? 2 then "SERVFAIL" else if n =? 5 then "REFUSED" else "";
     TypeToString := λ t, if t =? 1 then "A" else if t =? 2 then "NS" else if t =? 5 then "CNAME"
                          else if t =? 6 then "SOA" else if t =? 28 then "AAAA" else "";
     rr_text := λ rr, RRName rr |}.

#[local] Existing Instance ascii_unicode.
#[local] Existing Instance text_addresses.
#[local] Existing Instance few_tables.
#[local] Instance text_addr_eq : EqDecision Addr := _ : EqDecision string.
#[local] Instance text_addr_countable : Countable Addr := _ : Countable string.

Definition message (rcode : Z) (answer authority extra : list (RR string)) : Packet string :=
  NewPacket (Some {| ID := 0; Opcode := 0; Rcode := rcode; Authoritative := true; RecursionAvailable := false;
    Truncated := false; Security := false; CompactAnswers := false; Delegation := false; UDPSize := 0;
    Version := 0; ZField := 0; Question := []; Answer := answer; Ns := authority; Extra := extra; Pseudo := [] |}).

Definition rr_of (name : string) (ttl : Z) (d : rdata string) : RR string :=
  {| RRName := name; RRClass := 1; RRTTL := ttl; RRData := d |}.

(** Every address is valid. *)
Definition valid : @Addr text_addresses → bool := λ _, true.

(** A recursor that knows one root server, the lookups in flight and nothing else. *)
Definition fresh (pending : gset string) (n : nat) : Recursor :=
  {| fakeAddresses := {["." := {["a.root" := ["198.41.0.4"]]}]}; recurseCache := ∅; recurseCount := 0;
     inflight := pending; negativeCacheTTL := 0; undelegatedRoot := false; referrals := ∅; referralClaims := ∅;
     readings := n |}.

(** ** Two delegations in a circle *)

(** The root's answers: [z1] is served by [n2] and [z2] by [n1], both without glue; [n1] is
    an alias into [z1] and [n2] an alias into [z2]. *)
Definition circle (qname : string) : Packet string :=
  if decide (qname = "t1.z1") then message 0 [] [rr_of "z1." 0 (RNS "n2.")] []
  else if decide (qname = "t2.z2") then message 0 [] [rr_of "z2." 0 (RNS "n1.")] []
  else if decide (qname = "n1") then message 0 [rr_of "n1." 0 (RCNAME "t1.z1.")] [] []
  else if decide (qname = "n2") then message 0 [rr_of "n2." 0 (RCNAME "t2.z2.")] [] []
  else message 3 [] [] [].

Section circle.
Context (clock : nat → Z) (cancelled ctxErr : nat → bool) (Parallel : Z) (pending : gset string).

Definition circle_ask (_ : nat) (_ : Nameserver) (qname _ _ : string) : result packet rerror :=
  Ok (circle qname).

Definition root_list : list queryer := [Server {| NsName := New "a.root"; Address := "198.41.0.4" |}].

(** The state of a walk for [t] in zone [z], at the root and holding the claim for [z]. *)
Definition at_zone (n : nat) (z t : string) : recurseState :=
  set_started (at_root (set_claim (set_tcount new_state n) (Some z)) root_list) (New t) (t, "A").
Definition claimed (z : string) (k : nat) : Recursor := with_claims (fresh pending k) {[z]}.

(** The same walk behind the referral to [z], served by [h]. *)
Definition at_lazy (n : nat) (z t h : string) : recurseState :=
  push_trace (set_next (leave_root (set_common (set_seen (set_ns (at_zone n z t) []) z) 1)) [Lazy h])
    {| zoneName := z; source := default (Lazy "") (head root_list); answerFrom := "" |}.

(** The walk for the address of [h] that the walk for [t] starts. *)
Definition at_host (z t h : string) : recurseState :=
  let s := set_glue (set_ns (at_lazy 0 z t h) []) {[h := ∅]} in
  set_started (at_root (address_state s (inProgress s, glue s)) root_list) (New h) (h, "A").

(** One side of the circle: zone, name in it, the zone's server, and the other zone and name. *)
Record side := { zone : string; inside : string; host : string; zone' : string; inside' : string }.
Definition side1 := {| zone := "z1"; inside := "t1.z1"; host := "n2"; zone' := "z2"; inside' := "t2.z2" |}.
Definition side2 := {| zone := "z2"; inside := "t2.z2"; host := "n1"; zone' := "z1"; inside' := "t1.z1" |}.

Section turn.
Context (loop : string → string → string → recurseState → Recursor → option (walked * Recursor)).
#[local] Abbreviation one_step := (step valid clock cancelled ctxErr (Ordered Parallel) circle_ask loop).

(** A batch of the only server. *)
Lemma take_one q : take_batch Parallel [q] = ([q], []).
Proof.
  unfold take_batch. set (p := Z.to_nat _). assert (H : (1 <= p)%nat) by lia. clearbody p.
  destruct (1 <? p)%nat; cbn [length]; [|done]. by rewrite Nat.min_r.
Qed.

Lemma step_one q name qtype qclass s r : ns s = [q] →
  one_step name qtype qclass s r =
  match QueryWithClass valid clock cancelled ctxErr (Ordered Parallel) circle_ask loop q name qtype qclass (set_ns s []) r with
  | None => None
  | Some (reply, s, r) =>
      match processOrderedResponse valid clock cancelled ctxErr loop (New name) qtype qclass s q reply r with
      | None => None
      | Some (_, Return o, r) => Some (o, r)
      | Some (s, Continue, r) => loop name qtype qclass s r
      | Some (s, Redirect, r) => loop name qtype qclass s r
      end
  end.
Proof.
  intros E. unfold step, ordered_batch. rewrite E, take_one. cbn [query_all].
  destruct (QueryWithClass _ _ _ _ _ _ _ _ _ _ _ _ _) as [[[reply s1] r1]|]; [|done]. cbn [process_batch].
  by destruct (processOrderedResponse _ _ _ _ _ _ _ _ _ _ _ _) as [[[s2 []] r2]|].
Qed.

(** The root delegates the zone. *)
Lemma turn_zone d n k : d = side1 ∨ d = side2 →
  one_step (inside d) "A" "IN" (at_zone n (zone d) (inside d)) (claimed (zone d) k) =
  loop (inside d) "A" "IN" (at_lazy n (zone d) (inside d) (host d)) (fresh pending (S k)).
Proof. intros [-> | ->]; (erewrite step_one by reflexivity); vm_compute; reflexivity. Qed.

(** A walk that is not over keeps the walk that needs its address from being over. *)
Lemma lazy_waits l name qtype qclass s r :
  ns s = [Lazy l] →
  glue s !! name_key l = None →
  let s1 := set_glue (set_ns s []) (<[name_key l := ∅]> (glue s)) in
  (∀ newState, newState (inProgress s1, glue s1) = address_state s1 (inProgress s1, glue s1) →
    recurseFromRoot valid clock cancelled ctxErr loop l "A" "IN" newState (inProgress s1, glue s1) r = None) →
  one_step name qtype qclass s r = None.
Proof.
  intros Hns Hg s1 E. rewrite (step_one (Lazy l)) by done. unfold QueryWithClass, query_lazy.
  change (glue (set_ns s [])) with (glue s). rewrite Hg.
  fold s1. unfold getAddressesFor, addresses_in_turn, addresses_at_once.
  destruct (_ =? 1)%nat; by rewrite E.
Qed.

(** What follows a walk from the root. *)
Definition after_root (o : option (walked * Recursor)) : option (walked * Recursor) :=
  match o with None => None | Some (o, r) => Some (o, releaseClaim r (claim (own o))) end.

(** The zone's server needs an address. *)
Lemma start_host d n k : d = side1 ∨ d = side2 →
  let s := set_glue (set_ns (at_lazy n (zone d) (inside d) (host d)) []) {[host d := ∅]} in
  ∀ newState, newState (inProgress s, glue s) = address_state s (inProgress s, glue s) →
  recurseFromRoot valid clock cancelled ctxErr loop (host d) "A" "IN" newState (inProgress s, glue s) (fresh pending k) =
    after_root (loop (host d) "A" "IN" (at_host (zone d) (inside d) (host d)) (fresh pending k)).
Proof.
  intros Hd s newState E. unfold recurseFromRoot. rewrite E. clear E. subst s.
  destruct Hd as [-> | ->]; vm_compute; reflexivity.
Qed.

Lemma turn_lazy d n k : d = side1 ∨ d = side2 →
  loop (host d) "A" "IN" (at_host (zone d) (inside d) (host d)) (fresh pending k) = None →
  one_step (inside d) "A" "IN" (at_lazy n (zone d) (inside d) (host d)) (fresh pending k) = None.
Proof.
  intros Hd E. apply lazy_waits with (l := host d).
  - done.
  - destruct Hd as [-> | ->]; vm_compute; reflexivity.
  - assert (Hs : <[name_key (host d) := ∅]> (glue (at_lazy n (zone d) (inside d) (host d)))
      =@{gmap string (gset string)} {[host d := ∅]})
      by (destruct Hd as [-> | ->]; vm_compute; reflexivity).
    rewrite Hs. intros newState En. rewrite start_host by done. by rewrite E.
Qed.

(** The server's name is an alias into the other zone, looked up from the root. *)
Lemma start_zone d n k : d = side1 ∨ d = side2 →
  recurseFromRoot valid clock cancelled ctxErr loop (inside d) "A" "IN" (λ _, set_tcount new_state n)
    (∅, ∅) (fresh pending k) =
  after_root (loop (inside d) "A" "IN" (at_zone n (zone d) (inside d)) (claimed (zone d) k)).
Proof. intros [-> | ->]; vm_compute; reflexivity. Qed.

(** What follows the walk an alias led to. *)
Definition after_alias (s : recurseState) (o : option (walked * Recursor)) : option (walked * Recursor) :=
  match o with
  | None => None
  | Some (o, r) => Some ({| answer := answer o; own := s; other := Some (returned o) |}, r)
  end.
Definition after_cname (o : option (walked * Recursor)) : option (recurseState * action * Recursor) :=
  match o with None => None | Some (o, r) => Some (own o, Return o, r) end.
Definition after_step (name : string) (o : option (recurseState * action * Recursor)) : option (walked * Recursor) :=
  match o with
  | None => None
  | Some (_, Return o, r) => Some (o, r)
  | Some (s, Continue, r) => loop name "A" "IN" s r
  | Some (s, Redirect, r) => loop name "A" "IN" s r
  end.

Lemma alias_host d k : d = side1 ∨ d = side2 →
  one_step (host d) "A" "IN" (at_host (zone d) (inside d) (host d)) (fresh pending k) =
  after_step (host d) (after_cname (after_alias
    (set_tcount (set_ns (at_host (zone d) (inside d) (host d)) []) 1)
    (after_root (loop (inside' d) "A" "IN" (at_zone 1 (zone' d) (inside' d)) (claimed (zone' d) (S k)))))).
Proof. intros [-> | ->]; (erewrite step_one by reflexivity); vm_compute; reflexivity. Qed.

Lemma turn_host d k : d = side1 ∨ d = side2 →
  loop (inside' d) "A" "IN" (at_zone 1 (zone' d) (inside' d)) (claimed (zone' d) (S k)) = None →
  one_step (host d) "A" "IN" (at_host (zone d) (inside d) (host d)) (fresh pending k) = None.
Proof. intros Hd E. rewrite alias_host by done. by rewrite E. Qed.
End turn.

#[local] Abbreviation walk_circle := (walk valid clock cancelled ctxErr (Ordered Parallel) circle_ask).

Lemma walk_S fuel name qtype qclass s r :
  walk_circle (S fuel) name qtype qclass s r =
  step valid clock cancelled ctxErr (Ordered Parallel) circle_ask (walk_circle fuel) name qtype qclass s r.
Proof. reflexivity. Qed.

(** A walk inside the circle is never over. *)
Lemma circle_walk fuel d n k : d = side1 ∨ d = side2 →
  walk_circle fuel (inside d) "A" "IN" (at_zone n (zone d) (inside d)) (claimed (zone d) k) = None.
Proof.
  revert d n k. induction (lt_wf fuel) as [fuel _ IH]. intros d n k Hd.
  destruct fuel as [|f]; [done|]. rewrite walk_S, turn_zone by done.
  destruct f as [|f]; [done|]. rewrite walk_S. apply turn_lazy; [done..|].
  destruct f as [|f]; [done|]. rewrite walk_S. apply turn_host; [done..|].
  destruct Hd as [-> | ->];
    [apply (IH f ltac:(lia) side2 1%nat); auto|apply (IH f ltac:(lia) side1 1%nat); auto].
Qed.

Lemma circle_from_root fuel d n k : d = side1 ∨ d = side2 →
  recurseFromRoot valid clock cancelled ctxErr (walk_circle fuel) (inside d) "A" "IN"
    (λ _, set_tcount new_state n) (∅, ∅) (fresh pending k) = None.
Proof. intros Hd. rewrite start_zone by done. by rewrite circle_walk. Qed.
End circle.

Section theorem.
Context (clock : nat → Z) (cancelled ctxErr : nat → bool) (Parallel : Z).

(** A lookup that is neither cached nor in flight is a walk. *)
Lemma lookup_walks fuel name r r' :
  cacheLookup clock r (cacheNameKey (New name) []) "A" "IN" = (r, None) →
  cacheLookupOrWaitOrRegister clock r (cacheNameKey (New name) []) "A" "IN" = (r', Registered) →
  recurseFromRoot valid clock cancelled ctxErr (walk valid clock cancelled ctxErr (Ordered Parallel) circle_ask fuel)
    name "A" "IN" (λ _, new_state) (∅, ∅) r' = None →
  Recurse valid clock cancelled ctxErr (Ordered Parallel) circle_ask fuel name "A" "IN" r = None.
Proof.
  intros E1 E2 E3. unfold Recurse, recurseWithNameservers. cbv zeta.
  change (to_upper (if decide ("A" = "") then "A" else "A")) with "A".
  change (to_upper (if decide ("IN" = "") then "IN" else "IN")) with "IN".
  change (default [] None) with (@nil Nameserver). rewrite E1, E2, E3. done.
Qed.

(** C8: in the ordered mode, servers that answer every question can keep a lookup from ever
    returning.  The root delegates [z1] to [n2] and [z2] to [n1], without glue; [n1] is an
    alias for [t1.z1] and [n2] for [t2.z2].  Whatever the fuel, the number of queries at a
    time and the clock, [Recurse] of [t1.z1] does not finish: neither the bound of 20
    referrals, nor the bound of 10 aliases, nor [inProgress] ends it. *)
Theorem circle_never_returns fuel k :
  Recurse valid clock cancelled ctxErr (Ordered Parallel) circle_ask fuel "t1.z1" "A" "IN" (fresh ∅ k) = None.
Proof.
  apply lookup_walks with (r' := fresh {["root|t1.z1|A|IN"]} k).
  - vm_compute. reflexivity.
  - vm_compute. reflexivity.
  - apply (circle_from_root clock cancelled ctxErr Parallel _ fuel side1 0 k); auto.
Qed.
End theorem.
