(* ===== verification/RecursorFacts.v ===== *)
(** * The walk ends

    For servers whose names are finitely many and never aliases, a lookup ends whatever the
    servers answer and however their answers change: [recurse_terminates].  The measure of a
    nested walk is the number of host names and address types not yet in progress; that of a
    walk is the number of referrals left, then of servers left; that of an alias the number
    of aliases left.  A computation with fuel ends when all large amounts of fuel give the
    same result, [eventually]. *)

From S2P Require Import Prelude GoStrings RateLimit NsGuards Sorting Names NamesFacts Packet RecursorCache Recursor RecursorLoop.

Local Open Scope string_scope.
Local Open Scope Z_scope.
Local Open Scope list_scope.

(** ** Computations with fuel *)

Definition eventually {A} (F : nat → option A) (Q : A → Prop) : Prop :=
  ∃ n a, (∀ m, (n ≤ m)%nat → F m = Some a) ∧ Q a.

Lemma ev_ret {A} (a : A) (Q : A → Prop) : Q a → eventually (λ _, Some a) Q.
Proof. intros Ha. by exists O, a. Qed.

Lemma ev_bind {A B} (F : nat → option A) (G : nat → A → option B) (Q : A → Prop) (R : B → Prop) :
  eventually F Q → (∀ a, Q a → eventually (λ m, G m a) R) →
  eventually (λ m, match F m with None => None | Some a => G m a end) R.
Proof.
  intros (n & a & HF & Ha) HG. destruct (HG a Ha) as (n' & b & Hb & HR).
  exists (n `max` n')%nat, b. split; [|done]. intros m Hm. rewrite HF, Hb by lia. done.
Qed.

Lemma ev_step {A} (F : nat → option A) (Q : A → Prop) :
  eventually F Q → eventually (λ m, match m with O => None | S m => F m end) Q.
Proof.
  intros (n & a & HF & Ha). exists (S n), a. split; [|done].
  intros [|m] Hm; [lia|]. apply HF. lia.
Qed.

Lemma ev_impl {A} (F : nat → option A) (Q R : A → Prop) :
  eventually F Q → (∀ a, Q a → R a) → eventually F R.
Proof. intros (n & a & HF & Ha) HQR. exists n, a. auto. Qed.

Lemma ev_ext {A} (F G : nat → option A) (Q : A → Prop) :
  (∀ m, F m = G m) → eventually G Q → eventually F Q.
Proof. intros E (n & a & HG & Ha). exists n, a. split; [|done]. intros m Hm. rewrite E. auto. Qed.

Section walks.
Context `{HGo : GoUnicode} `{HNet : Netip} `{HCount : Countable Addr} `{HDns : !DnsLib Addr}.
Context (IsValid : Addr → bool) (clock : nat → Z) (cancelled ctxErr : nat → bool) (Mode : mode).
Context (ask : nat → Nameserver → string → string → string → result packet rerror).
(** The keys of the names of servers, and the lookups in flight. *)
Context (hosts flying : gset string).

(** Results of the unordered mode come from servers of the batch. *)
Definition fair_mode : Prop :=
  match Mode with
  | Ordered _ => True
  | UnorderedBy arrivals => ∀ n l, (arrivals n l).1 ++ (arrivals n l).2 ⊆+ l
  end.

Definition ns_ok (resp : packet) : Prop :=
  ∀ rr target, rr ∈ GetRecords resp "NS" [] → RRData rr = RNS target → name_key target ∈ hosts.

Definition good_name (name : string) : Prop := name_key name ∈ hosts.
Definition good_queryer (q : queryer) : Prop :=
  match q with Server _ => True | Lazy l => good_name l end.
Definition good_state (s : recurseState) : Prop := Forall good_queryer (ns s).
Definition known_referrals (r : Recursor) : Prop := map_Forall (λ _ e, ns_ok (ref_resp e)) (referrals r).
Definition good_rec (r : Recursor) : Prop := known_referrals r ∧ inflight r = flying.

(** *** The recursor's memory *)

Lemma good_ticked r : good_rec r → good_rec (ticked r).
Proof. done. Qed.
Lemma good_release r c : good_rec r → good_rec (releaseClaim r c).
Proof. by destruct c. Qed.
Lemma good_delete r cut : good_rec r → good_rec (dropReferral r cut).
Proof.
  intros [Hr Hi]. split; [|done]. intros k e Hk. simpl in Hk.
  apply lookup_delete_Some in Hk as [_ Hk]. by apply (Hr k e).
Qed.

Lemma good_cached r rest r' res : good_rec r → cached_from clock r rest = (r', res) →
  good_rec r' ∧ ∀ cut p, res = Some (cut, p) → ns_ok p.
Proof.
  revert r. induction rest as [|l rest IH]; intros r Hr; cbn [cached_from].
  { intros [= <- <-]. by split. }
  destruct (referrals r !! _) as [e|] eqn:E; [|by apply IH].
  destruct (negb _).
  - apply IH. by apply (good_delete r).
  - intros [= <- <-]. split; [done|]. intros cut p [= <- <-]. by apply (proj1 Hr _ e E).
Qed.

Lemma good_await r name r' res : good_rec r → awaitReferral clock cancelled r name = (r', res) →
  good_rec r' ∧ match res with Found cut p => ns_ok p | _ => True end.
Proof.
  intros Hr. unfold awaitReferral, cachedReferralLocked.
  destruct (length _ <? 2)%nat; [by intros [= <- <-]|].
  destruct (cached_from clock r _) as [r1 [[cut p]|]] eqn:E;
    destruct (good_cached _ _ _ _ Hr E) as [H1 H2].
  { intros [= <- <-]. eauto. }
  case_decide; [|by intros [= <- <-]].
  destruct (cancelled _); [by intros [= <- <-]|].
  destruct (cached_from clock (ticked r1) _) as [r2 [[cut p]|]] eqn:E2;
    destruct (good_cached (ticked r1) _ _ _ H1 E2) as [H3 H4]; intros [= <- <-]; eauto.
Qed.

Lemma good_store r zone resp q : good_rec r → ns_ok resp → good_rec (storeReferral clock r zone resp q).
Proof.
  intros Hr Hp. unfold storeReferral. destruct (GetRecords resp "NS" []); [done|].
  destruct (negb _); [done|]. destruct (_ =? 0); [done|].
  split; [|apply Hr]. intros k e Hk. simpl in Hk.
  apply lookup_insert_Some in Hk as [[_ <-]|[_ Hk]]; [done|by apply (proj1 Hr k e)].
Qed.

(** *** Servers of a referral *)

Lemma name_key_string target : name_key (NameString (New target)) = name_key target.
Proof.
  unfold name_key. f_equal. unfold NameString at 1 3.
  replace (cached (New (NameString (New target)))) with (@None string) by (unfold New; by case_decide).
  replace (cached (New target)) with (@None string) by (unfold New; by case_decide).
  by rewrite !new_labels, new_string_parse.
Qed.

Lemma scan_good rrs byKey allowed owner :
  (∀ rr t, rr ∈ rrs → RRData rr = RNS t → name_key t ∈ hosts) →
  map_Forall (λ _ n, good_name n) byKey →
  map_Forall (λ _ n, good_name n) (scan_ns rrs byKey allowed owner).1.1.
Proof.
  revert byKey allowed owner. induction rrs as [|rr rrs IH]; intros byKey allowed owner Hrr Hb; [done|].
  cbn [scan_ns]. assert (Hrr' := λ rr t Hin, Hrr rr t (list_elem_of_further _ _ _ Hin)).
  destruct (RRData rr) as [| |t| | | |] eqn:E; try (by apply IH). apply IH; [done|].
  case_match; [done|]. apply map_Forall_insert_2; [|done].
  unfold good_name. rewrite name_key_string. apply (Hrr rr); [left|done].
Qed.

Lemma split_good names g servers extra :
  split_names names g = Ok (servers, extra) → ∀ n, n ∈ extra → n ∈ names.
Proof.
  revert servers extra. induction names as [|name names IH]; intros servers extra; cbn [split_names].
  { intros [= <- <-]. by intros n ?%elem_of_nil. }
  destruct (elements _) as [|a l].
  - destruct (split_names names g) as [[sv ex]|]; [|done]. intros [= <- <-] n Hn.
    apply elem_of_cons in Hn as [->|Hn]; [left|right; eauto].
  - destruct (servers_of _ _) as [sv'|]; [|done]. cbn [rbind].
    destruct (split_names names g) as [[sv ex]|]; [|done]. intros [= <- <-] n Hn. right. eauto.
Qed.

Lemma getNSFrom_good resp s s' res : getNSFrom IsValid resp s = (s', res) → ns_ok resp →
  (∃ g, s' = set_glue s g) ∧ ∀ qs, res = Ok qs → Forall good_queryer qs.
Proof.
  unfold getNSFrom. intros E Hp. destruct (GetRecords resp "NS" []) as [|rr rrs] eqn:Hns.
  { injection E as <- <-. split; [by exists (glue s); destruct s|]. intros qs [= <-]. constructor. }
  destruct (scan_ns (rr :: rrs) ∅ ∅ "") as [[byKey allowed] owner] eqn:Hscan.
  injection E as <- <-. split; [eauto|]. intros qs.
  assert (Hby : map_Forall (λ _ n, good_name n) byKey).
  { pose proof (scan_good (rr :: rrs) ∅ ∅ "") as Hs. rewrite Hscan in Hs. apply Hs.
    - intros rr' t Hin. apply Hp. by rewrite Hns.
    - apply map_Forall_empty. }
  destruct (split_names _ _) as [[withGlue extra]|] eqn:Hsp; [|done]. intros [= <-].
  apply Forall_app. split.
  - apply Forall_fmap, Forall_true. done.
  - apply Forall_fmap, Forall_forall. intros n Hn. simpl.
    rewrite merge_sort_Permutation in Hn.
    apply (split_good _ _ _ _ Hsp) in Hn. apply list_elem_of_omap in Hn as (k & _ & Hk).
    by apply (Hby k n).
Qed.

(** *** The walks a walk starts *)

#[local] Abbreviation walkf := (walk IsValid clock cancelled ctxErr Mode ask).
(** The type and class a walk asks for. *)
Definition asked (qtype : string) : string := to_upper (if decide (qtype = "") then "A" else qtype).
Definition in_class (qclass : string) : string := to_upper (if decide (qclass = "") then "IN" else qclass).
#[local] Abbreviation key_of := (λ name qtype : string, (name_key name, asked qtype)).

(** What a computation promises: the memory stays good and nothing leaves [inProgress]. *)
(** The names in progress. *)
Definition names := gset (string * string).

Definition fine (p : names) (o : walked * Recursor) : Prop :=
  good_rec o.2 ∧ p ⊆ inProgress (own o.1).

Lemma set_started_in s n key : key ∈ inProgress (set_started s n key).
Proof. simpl. set_solver. Qed.

(** [recurse]: either the name is in progress, or its walk runs. *)
Lemma recurse_ends name qtype qclass (s : recurseState) (r : Recursor) (p : names) :
  p ⊆ inProgress s → good_rec r →
  (∀ s', key_of name qtype ∉ inProgress s → s' = set_started s (New name) (key_of name qtype) →
    eventually (λ m, walkf m name (asked qtype) (in_class qclass) s' r)
      (fine (inProgress s'))) →
  eventually (λ m, recurse (walkf m) name qtype qclass s r) (fine p).
Proof.
  intros Hp Hr Hw. unfold recurse. cbv zeta. fold (asked qtype) (in_class qclass).
  destruct (decide ((name_key name, asked qtype) ∈ inProgress s)) as [Hin|Hin].
  - apply ev_ret. split; [done|]. simpl. set_solver.
  - eapply ev_impl; [by apply Hw|]. intros [o r'] [H1 H2]. split; [done|]. simpl in *. set_solver.
Qed.

Lemma walk_from_root_ends name qtype qclass (s : recurseState) (r : Recursor) (p : names) :
  p ⊆ inProgress s → good_rec r →
  (∀ s', good_state s' → tcount s' = tcount s → key_of name qtype ∉ inProgress s →
    p ⊆ inProgress s' → key_of name qtype ∈ inProgress s' →
    eventually (λ m, walkf m name (asked qtype) (in_class qclass) s' r)
      (fine (inProgress s'))) →
  eventually (λ m, walk_from_root (walkf m) name qtype qclass s r) (fine p).
Proof.
  intros Hp Hr Hw. unfold walk_from_root. destruct (RootServers r) as [servers|e].
  - apply ev_bind with (Q := fine p).
    + apply recurse_ends; [done..|]. intros s' Hnew ->. apply Hw; [|done|done|simpl in *; set_solver|set_solver].
      apply Forall_fmap, Forall_true. done.
    + intros [o r'] [H1 H2]. apply ev_ret. split; [by apply good_release|done].
  - apply ev_ret. split; [by apply good_release|done].
Qed.

(** [recurseFromRoot], for a state built from shared maps. *)
Section from_root.
Context (name qtype qclass : string) (newState : gset (string * string) * gmap string (gset Addr) → recurseState)
  (t : nat).
Hypothesis new_tcount : ∀ sh, tcount (newState sh) = t.
Hypothesis new_ns : ∀ sh, ns (newState sh) = [].
Hypothesis new_mono : ∀ sh sh', sh.1 ⊆ sh'.1 → inProgress (newState sh) ⊆ inProgress (newState sh').

Lemma from_root_ends shared r :
  shared.1 ⊆ inProgress (newState shared) ∨ (∀ sh, newState sh = newState shared) →
  good_rec r →
  (∀ s' r', good_state s' → good_rec r' → tcount s' = t →
    key_of name qtype ∉ inProgress (newState shared) →
    inProgress (newState shared) ⊆ inProgress s' → key_of name qtype ∈ inProgress s' →
    eventually (λ m, walkf m name (asked qtype) (in_class qclass) s' r')
      (fine (inProgress s'))) →
  eventually (λ m, recurseFromRoot IsValid clock cancelled ctxErr (walkf m) name qtype qclass newState shared r)
    (fine (inProgress (newState shared))).
Proof using new_tcount new_ns new_mono.
  intros Hshare Hr Hw.
  assert (Hroot : ∀ s r', inProgress (newState shared) ⊆ inProgress s → tcount s = t → good_rec r' →
    eventually (λ m, walk_from_root (walkf m) name qtype qclass s r') (fine (inProgress (newState shared)))).
  { intros s r' Hs Ht Hr'. apply walk_from_root_ends; [done..|].
    intros s' Hg Hts Hk Hp Hk'. apply Hw; [done|done|congruence|set_solver|done|done]. }
  unfold recurseFromRoot. destruct (skipReferrals _ || isInProgress _ _ _) eqn:Hskip.
  { by apply Hroot. }
  apply orb_false_iff in Hskip as [_ Hnew]. unfold isInProgress in Hnew. apply bool_decide_eq_false in Hnew.
  destruct (awaitReferral clock cancelled r (New name)) as [r1 res] eqn:Ha.
  destruct (good_await _ _ _ _ Hr Ha) as [Hr1 Hres].
  destruct res as [cut resp|tld| |].
  - unfold seedReferral. destruct (getNSFrom IsValid resp (newState shared)) as [s1 res] eqn:Hns.
    destruct (getNSFrom_good _ _ _ _ Hns Hres) as [[g ->] Hqs].
    destruct res as [[|q qs]|e].
    + apply Hroot; [|by rewrite new_tcount|done].
      simpl. destruct Hshare as [Hsub|Heq]; [by apply new_mono|by rewrite (Heq (_, _))].
    + apply ev_bind with (Q := fine (inProgress (newState shared))).
      * apply recurse_ends; [done..|]. intros s' Hk ->.
        apply Hw; [by apply Hqs|done|apply new_tcount|done|simpl; set_solver|simpl; set_solver].
      * intros [o r2] [Hr2 Hp]. cbn [fst snd] in *. destruct (_ || _); [by apply ev_ret|].
        apply Hroot; [|by rewrite new_tcount|by apply good_delete].
        destruct Hshare as [Hsub|Heq]; [|by rewrite (Heq (_, _))]. apply new_mono. cbn [fst].
        destruct (other o) as [o'|]; [set_solver|]. simpl. set_solver.
    + apply ev_ret. by split.
  - apply Hroot; [done|apply new_tcount|done].
  - apply Hroot; [done|apply new_tcount|done].
  - apply ev_ret. by split.
Qed.
End from_root.

(** *** The loop of one walk *)

Lemma take_batch_spec Parallel l batch rest : take_batch Parallel l = (batch, rest) → l ≠ [] →
  (length rest < length l)%nat ∧ l ≡ₚ batch ++ rest.
Proof.
  unfold take_batch. set (p := Z.to_nat _). assert (Hp : (1 <= p)%nat) by lia. clearbody p.
  set (k := if (1 <? p)%nat then _ else 1%nat).
  assert (Hk : l ≠ [] → (1 <= k)%nat) by (unfold k; destruct l; [done|]; cbn [length]; case_match; lia).
  clearbody k. intros [= <- <-] Hl. specialize (Hk Hl). split.
  - rewrite length_reverse, length_drop, length_reverse. destruct l; [done|simpl; lia].
  - rewrite (reverse_Permutation (drop _ _)), take_drop. by rewrite reverse_Permutation.
Qed.

Lemma in_turn_from name addrs qn qt qc r res r' :
  ask_in_turn ask name addrs qn qt qc r = (res, r') →
  (∀ resp : packet, res = Ok resp → has_msg resp = true → ∃ n srv, ask n srv qn qt qc = Ok resp) ∧
  (good_rec r → good_rec r').
Proof.
  revert r. induction addrs as [|a addrs IH]; intros r; cbn [ask_in_turn];
    [intros [= <- <-]; split; [by intros ? [= <-]|done]|].
  destruct (NewWithContext _ _) as [srv|]; [|apply IH].
  destruct (ask (readings r) srv qn qt qc) as [p|] eqn:E; [|intros Hq; by apply IH in Hq].
  destruct (has_msg p) eqn:Hm; [|intros Hq; by apply IH in Hq].
  intros [= <- <-]. split; [|done]. intros ? [= <-]. eauto.
Qed.

Lemma at_once_from name addrs qn qt qc r res r' :
  ask_at_once ask name addrs qn qt qc r = (res, r') →
  (∀ resp : packet, res = Ok resp → has_msg resp = true → ∃ n srv, ask n srv qn qt qc = Ok resp) ∧
  (good_rec r → good_rec r').
Proof.
  revert r res r'. induction addrs as [|a addrs IH]; intros r res r'; cbn [ask_at_once];
    [intros [= <- <-]; split; [by intros ? [= <-]|done]|].
  destruct (NewWithContext _ _) as [srv|]; [|apply IH]. cbv zeta.
  destruct (ask_at_once _ _ _ _ _ _ (ticked r)) as [later r1] eqn:E1. apply IH in E1 as [H1 H2].
  destruct (ask (readings r) srv qn qt qc) as [p|] eqn:E; [|by intros [= <- <-]].
  destruct (has_msg p) eqn:Hm; [|by intros [= <- <-]].
  intros [= <- <-]. split; [|done]. intros ? [= <-]. eauto.
Qed.

Lemma queryAddresses_from name addrs qn qt qc r res r' :
  queryAddresses Mode ask name addrs qn qt qc r = (res, r') →
  (∀ resp : packet, res = Ok resp → has_msg resp = true → ∃ n srv, ask n srv qn qt qc = Ok resp) ∧
  (good_rec r → good_rec r').
Proof. unfold queryAddresses. case_match; [apply in_turn_from|apply at_once_from]. Qed.

Section loop.
Context (name qtype qclass : string) (t : nat) (base : names).
(** The states of the walk: what was in progress at its start still is. *)
Definition in_walk (s : recurseState) : Prop := base ⊆ inProgress s ∧ tcount s = t.

Definition came (resp : packet) : Prop := ∃ n srv, ask n srv name qtype qclass = Ok resp.

Lemma in_walk_maps s p g : in_walk s → inProgress s ⊆ p → in_walk (set_maps s p g).
Proof. intros [Hb Ht] Hp. split; [simpl; set_solver|done]. Qed.

(** What the treatment of a reply leaves: the walk is over, goes on, or has fewer referrals
    left. *)
Definition treated (s : recurseState) (x : recurseState * action * Recursor) : Prop :=
  let '(s', a, r') := x in
  good_rec r' ∧ inProgress s ⊆ inProgress s' ∧
  match a with
  | Return o => inProgress s ⊆ inProgress (own o)
  | Continue => tcount s' = tcount s ∧ ns s' = ns s ∧ count s' = count s
  | Redirect => tcount s' = tcount s ∧ good_state s' ∧ count s' = count s + 1 ∧ count s' ≤ 20
  end.

Lemma redirected_treated zname src resp s r : ns_ok resp → good_rec r →
  ∃ x, redirected IsValid clock zname src resp s r = Some x ∧ treated s x.
Proof.
  intros Hp Hr. unfold redirected, follow_referral.
  set (sr := if atRoot s then _ else _).
  assert (Hsr : good_rec sr.2 ∧ inProgress sr.1 = inProgress s ∧ tcount sr.1 = tcount s ∧ count sr.1 = count s).
  { unfold sr. destruct (atRoot s); [|done]. split_and!; [|done..]. by apply good_release, good_store. }
  destruct sr as [s1 r1]. cbn [fst snd] in Hsr. destruct Hsr as (H1 & H2 & H3 & H4).
  destruct (getNSFrom IsValid resp s1) as [s2 res] eqn:E.
  destruct (getNSFrom_good _ _ _ _ E Hp) as [[g ->] Hqs].
  destruct res as [next|e].
  - cbn zeta. destruct (20 <? count (set_next (set_glue s1 g) next)) eqn:Hc; eexists; (split; [done|]); simpl.
    + rewrite H2. done.
    + apply Z.ltb_ge in Hc. simpl in Hc. rewrite H2, H3. split_and!; [done|done|done|by apply Hqs|lia|lia].
  - eexists. split; [done|]. simpl. by rewrite H2.
Qed.

Lemma treated_impl s s1 x : inProgress s1 = inProgress s → tcount s1 = tcount s → ns s1 = ns s →
  count s1 = count s → treated s1 x → treated s x.
Proof.
  intros Hi Ht Hn Hc. destruct x as [[s' []] r']; unfold treated; rewrite Hi, ?Ht, ?Hn, ?Hc; done.
Qed.

Hypothesis replies_ok : ∀ resp, came resp → ns_ok resp.

(** The walks for addresses and for aliases end. *)
Hypothesis address_ends : ∀ l tp (s : recurseState) r, good_name l → tp = "A" ∨ tp = "AAAA" → in_walk s → good_rec r →
  eventually (λ m, recurseFromRoot IsValid clock cancelled ctxErr (walkf m) l tp "IN" (address_state s)
                     (inProgress s, glue s) r)
    (fine (inProgress s)).
Hypothesis alias_ends : ∀ resp (s : recurseState) r, came resp → in_walk s → good_rec r →
  needs_cname (New name) qtype resp = true →
  eventually (λ m, resolveCNAME IsValid clock cancelled ctxErr (walkf m) (New name) qtype qclass resp s r)
    (fine (inProgress s)).

(** What a walk's queries may change of its state. *)
Definition grown (s s' : recurseState) : Prop := ∃ p g, inProgress s ⊆ p ∧ s' = set_maps s p g.

Lemma grown_refl s : grown s s.
Proof. exists (inProgress s), (glue s). by destruct s. Qed.
Lemma grown_trans s1 s2 s3 : grown s1 s2 → grown s2 s3 → grown s1 s3.
Proof. intros (p & g & Hp & ->) (p' & g' & Hp' & ->). exists p', g'. simpl in *. split; [by etrans|done]. Qed.
Lemma grown_merge s src : grown s (merge_maps s src).
Proof. eexists _, _. split; [|reflexivity]. apply union_subseteq_l. Qed.
Lemma grown_walk s s' : in_walk s → grown s s' → in_walk s'.
Proof. intros Hs (p & g & Hp & ->). by apply in_walk_maps. Qed.

(** A server's reply, and what stays of the state. *)
Definition replied (s : recurseState) (x : result packet rerror * recurseState * Recursor) : Prop :=
  good_rec x.2 ∧ grown s x.1.2 ∧
  (∀ resp, x.1.1 = Ok resp → has_msg resp = true → came resp).

(** A walk for addresses on copies of the maps. *)
Hypothesis copies_end : ∀ l tp (s : recurseState) r, good_name l → tp = "A" ∨ tp = "AAAA" → in_walk s → good_rec r →
  eventually (λ m, recurseFromRoot IsValid clock cancelled ctxErr (walkf m) l tp "IN"
                     (λ _, address_state s (inProgress s, glue s)) (inProgress s, glue s) r)
    (fine (inProgress s)).

Lemma getAddresses_ends l s r : good_name l → in_walk s → good_rec r →
  eventually (λ m, getAddressesFor IsValid clock cancelled ctxErr Mode (walkf m) l s r)
    (λ x, good_rec x.2 ∧ grown s x.1.2).
Proof using replies_ok address_ends alias_ends copies_end.
  intros Hl Hs Hr. unfold getAddressesFor. destruct (_ =? 1)%nat.
  - unfold addresses_in_turn.
    eapply ev_bind; [apply address_ends; eauto|]. intros [o r1] [Hr1 Hp1]. cbn [fst snd] in *.
    set (s1 := set_maps s (inProgress (own o)) (glue (own o))).
    assert (Hs1 : grown s s1) by (eexists _, _; done).
    destruct (answer o) as [pa|e]; [|by apply ev_ret].
    destruct (NoSuchName pa); [by apply ev_ret|].
    eapply ev_bind; [apply (address_ends l "AAAA" s1); eauto; by eapply grown_walk|].
    intros [o2 r2] [Hr2 Hp2]. cbn [fst snd] in *.
    assert (Hs2 : grown s (set_maps s1 (inProgress (own o2)) (glue (own o2))))
      by (eapply grown_trans; [exact Hs1|]; eexists _, _; done).
    by destruct (answer o2); apply ev_ret.
  - unfold addresses_at_once. cbv zeta.
    eapply ev_bind; [apply copies_end; eauto|]. intros [o r1] [Hr1 _]. cbn [fst snd] in *.
    eapply ev_bind; [apply copies_end; eauto|]. intros [o2 r2] [Hr2 _]. cbn [fst snd] in *.
    assert (Hs1 := grown_merge s (returned o)).
    assert (Hs2 := grown_trans _ _ _ Hs1 (grown_merge (merge_maps s (returned o)) (returned o2))).
    destruct (answer o) as [pa|e]; [|by apply ev_ret]. destruct (NoSuchName pa); [by apply ev_ret|].
    by destruct (answer o2); apply ev_ret.
Qed.

Lemma query_ends q s r : good_queryer q → in_walk s → good_rec r →
  eventually (λ m, QueryWithClass IsValid clock cancelled ctxErr Mode ask (walkf m) q name qtype qclass s r) (replied s).
Proof using replies_ok address_ends alias_ends copies_end.
  intros Hq Hs Hr. destruct q as [srv|l]; simpl.
  - apply ev_ret. split_and!; [done|apply grown_refl|]. simpl. unfold came. eauto.
  - unfold query_lazy.
    set (s1 := match glue s !! name_key l with Some _ => s | None => set_glue s (<[name_key l := ∅]> (glue s)) end).
    assert (Hs1 : grown s s1).
    { unfold s1. destruct (glue s !! name_key l); [apply grown_refl|]. by eexists _, _. }
    replace (match glue s !! name_key l with Some addrs => (elements addrs, s)
             | None => ([], set_glue s (<[name_key l := ∅]> (glue s))) end)
      with (match glue s !! name_key l with Some addrs => elements addrs | None => [] end, s1)
      by (unfold s1; by destruct (glue s !! name_key l)).
    destruct (match glue s !! name_key l with Some addrs => elements addrs | None => [] end) as [|a addrs].
    + eapply ev_bind.
      { apply (getAddresses_ends l s1 r); [done|by eapply grown_walk|done]. }
      intros [[res s2] r2] [Hr2 Hs2]. cbn [fst snd] in *. assert (Hs2' := grown_trans _ _ _ Hs1 Hs2).
      destruct res as [addrs|e]; [|by apply ev_ret].
      destruct (queryAddresses _ _ _ _ _ _ _ _) as [resp r3] eqn:E.
      destruct (queryAddresses_from _ _ _ _ _ _ _ _ E) as [H1 H2].
      apply ev_ret. split_and!; simpl; [auto| |done].
      eapply grown_trans; [exact Hs2'|]. by eexists _, _.
    + destruct (queryAddresses _ _ _ _ _ _ _ _) as [resp r3] eqn:E.
      destruct (queryAddresses_from _ _ _ _ _ _ _ _ E) as [H1 H2].
      by apply ev_ret; split_and!; simpl; auto.
Qed.

#[local] Ltac stay := eexists; split; [reflexivity|]; unfold treated; cbn; split_and!; first [done|reflexivity].
#[local] Ltac kept := apply ev_ret; unfold treated; cbn; split_and!; first [done|reflexivity|assumption].

Lemma answer_ends s src resp r redirect : came resp → in_walk s → good_rec r →
  (∃ x, redirect = Some x ∧ treated s x) →
  eventually (λ m, process_answer IsValid clock cancelled ctxErr (walkf m) (New name) qtype qclass s src resp r redirect)
    (treated s).
Proof using replies_ok address_ends alias_ends.
  intros Hc Hs Hr (x & -> & Hx). unfold process_answer.
  destruct (NoSuchRecord resp || NoSuchName resp); [kept|].
  case_decide.
  - destruct (needs_cname (New name) qtype resp) eqn:Hn; [|kept].
    eapply ev_bind; [by apply alias_ends|]. intros [o r'] [H1 H2]. kept.
  - destruct (IsRedirect resp); [by apply ev_ret|kept].
Qed.

(** The replies of a batch. *)
Definition honest (reply : result packet rerror) : Prop :=
  ∀ resp, reply = Ok resp → has_msg resp = true → came resp.

Lemma process_ends s src reply r : good_rec r → in_walk s → honest reply →
  eventually (λ m, processOrderedResponse IsValid clock cancelled ctxErr (walkf m) (New name) qtype qclass s src reply r)
    (treated s).
Proof using replies_ok address_ends alias_ends.
  intros Hr Hs Hc. unfold processOrderedResponse. destruct reply as [resp|e]; [|kept].
  destruct (has_msg resp) eqn:Hm; [|kept]. cbn [negb]. destruct (is_candidate resp); [kept|].
  specialize (Hc _ eq_refl Hm). apply answer_ends; [done..|].
  destruct (redirectName resp) as [zname|]; [|stay].
  repeat (case_decide; [stay|]). case_match; [by stay|].
  destruct (redirected_treated zname src resp (set_common (set_seen s (to_lower zname)) (Common (New zname) (default (New "") (qname s)))) r)
    as (x & Hx & Ht); [by apply replies_ok|done|]. exists x. split; [done|]. by eapply treated_impl; [..|exact Ht].
Qed.

Lemma query_all_ends batch : ∀ s r, Forall good_queryer batch → in_walk s → good_rec r →
  eventually (λ m, query_all IsValid clock cancelled ctxErr Mode ask (walkf m) name qtype qclass batch s r)
    (λ x, good_rec x.2 ∧ grown s x.1.2 ∧ Forall (λ qr, honest qr.2) x.1.1).
Proof using replies_ok address_ends alias_ends copies_end.
  induction batch as [|q batch IH]; intros s r Hb Hs Hr; cbn [query_all].
  { apply ev_ret. split_and!; [done|apply grown_refl|constructor]. }
  apply Forall_cons in Hb as [Hq Hb].
  eapply ev_bind; [by apply query_ends|]. intros [[reply s1] r1] (Hr1 & Hs1 & Hc). cbn [fst snd] in *.
  eapply ev_bind; [apply (IH s1 r1); [done|by eapply grown_walk|done]|].
  intros [[results s2] r2] (Hr2 & Hs2 & Hcs). cbn [fst snd] in *. apply ev_ret.
  split_and!; [done|by eapply grown_trans|by constructor].
Qed.

Lemma treated_trans s s1 r1 x : treated s (s1, Continue, r1) → treated s1 x → treated s x.
Proof.
  destruct x as [[s2 a] r2]. intros (_ & H1 & H2 & H3 & H4) (Hr & H5 & H6).
  split; [done|]. split; [by etrans|]. destruct a as [|o|]; [|by etrans|].
  - destruct H6 as (?&?&?). split_and!; congruence.
  - destruct H6 as (?&?&?&?). split_and!; [congruence|done|congruence|done].
Qed.

Lemma treated_refl s r : good_rec r → treated s (s, Continue, r).
Proof. done. Qed.

Lemma process_batch_ends results : ∀ s r, good_rec r → in_walk s → Forall (λ qr, honest qr.2) results →
  eventually (λ m, process_batch IsValid clock cancelled ctxErr (walkf m) name qtype qclass s results r) (treated s).
Proof using replies_ok address_ends alias_ends.
  induction results as [|[q reply] results IH]; intros s r Hr Hs Hh; cbn [process_batch].
  { by apply ev_ret, treated_refl. }
  apply Forall_cons in Hh as [Hq Hh].
  destruct (process_ends s q reply r Hr Hs Hq) as (n & [[s1 a] r1] & E & Ht).
  destruct a as [|o|]; [|exists n, (s1, Return o, r1)|exists n, (s1, Redirect, r1)];
    try (split; [intros m Hm; by rewrite E|done]).
  destruct (IH s1 r1) as (n' & x & E' & Ht'); [apply Ht| |done|].
  { destruct Ht as (_ & Hp & Ht1 & _), Hs as [Hb Ht0]. split; [by etrans|congruence]. }
  exists (n `max` n')%nat, x. split; [|by eapply treated_trans].
  intros m Hm. rewrite E by lia. apply E'. lia.
Qed.

(** What a verdict rests on. *)
Definition well_founded_verdict (v : verdict) : Prop :=
  match v with
  | Undecided => True
  | Decided resp needsCNAME => came resp ∧ (needsCNAME = true → needs_cname (New name) qtype resp = true)
  | Redirected _ resp _ _ => came resp
  end.

(** The parts of a state the result loop leaves alone. *)
Definition alike (s s' : recurseState) : Prop :=
  inProgress s ⊆ inProgress s' ∧ tcount s' = tcount s ∧ ns s' = ns s ∧ count s' = count s.

Lemma alike_trans s1 s2 s3 : alike s1 s2 → alike s2 s3 → alike s1 s3.
Proof. intros (?&?&?&?) (?&?&?&?). split; [by etrans|]. split_and!; congruence. Qed.
Lemma grown_alike s s' : grown s s' → alike s s'.
Proof. by intros (p & g & Hp & ->). Qed.
Lemma alike_walk s s' : in_walk s → alike s s' → in_walk s'.
Proof. intros [Hb Ht] (Hp & Ht' & _). split; [by etrans|congruence]. Qed.

Lemma look_at_spec s src reply s' v : honest reply → look_at (New name) qtype s src reply = (s', v) →
  alike s s' ∧ well_founded_verdict v.
Proof.
  intros Hh. unfold look_at. destruct reply as [resp|e]; [|by intros [= <- <-]].
  destruct (has_msg resp) eqn:Hm; [|by intros [= <- <-]]. cbn [negb]. specialize (Hh _ eq_refl Hm).
  destruct (is_candidate resp); [intros [= <- <-]; by destruct (has_msg (candidate s))|].
  destruct (NoSuchRecord resp || NoSuchName resp); [by intros [= <- <-]|].
  case_decide.
  { destruct (needs_cname _ _ _) eqn:Hn; by intros [= <- <-]. }
  destruct (IsRedirect resp); [|by intros [= <- <-]].
  destruct (redirectName resp); [|by intros [= <- <-]].
  do 2 (case_decide; [by intros [= <- <-]|]). cbv zeta. case_match; by intros [= <- <-].
Qed.

Lemma look_through_ends looked : ∀ s r, Forall good_queryer looked → in_walk s → good_rec r →
  eventually (λ m, look_through IsValid clock cancelled ctxErr Mode ask (walkf m) name qtype qclass looked s r)
    (λ x, good_rec x.2 ∧ alike s x.1.1 ∧ well_founded_verdict x.1.2).
Proof using replies_ok address_ends alias_ends copies_end.
  induction looked as [|q looked IH]; intros s r Hl Hs Hr; cbn [look_through]; [by apply ev_ret|].
  apply Forall_cons in Hl as [Hq Hl].
  eapply ev_bind; [by apply query_ends|]. intros [[reply s1] r1] (Hr1 & Hs1%grown_alike & Hc). cbn [fst snd] in *.
  destruct (look_at (New name) qtype s1 q reply) as [s2 v] eqn:E.
  destruct (look_at_spec _ _ _ _ _ Hc E) as [Hs2 Hv].
  assert (Hs12 := alike_trans _ _ _ Hs1 Hs2).
  destruct v; [|by apply ev_ret..].
  eapply ev_impl; [apply IH; [done|by eapply alike_walk|done]|].
  intros x (H1 & H2 & H3). split_and!; [done|by eapply alike_trans|done].
Qed.

Lemma conclude_ends s v r : good_rec r → in_walk s → well_founded_verdict v →
  eventually (λ m, conclude IsValid clock cancelled ctxErr (walkf m) (New name) qtype qclass s v r) (treated s).
Proof using replies_ok address_ends alias_ends.
  intros Hr Hs Hv. unfold conclude. destruct v as [|resp []|src resp zname c].
  - by apply ev_ret, treated_refl.
  - destruct Hv as [Hc Hn]. eapply ev_bind; [apply alias_ends; eauto|]. intros [o r'] [H1 H2]. kept.
  - kept.
  - destruct (redirected_treated zname src resp (set_common (set_seen s (to_lower zname)) c) r)
      as (x & Hx & Ht); [by apply replies_ok|done|]. rewrite Hx. apply ev_ret. by eapply treated_impl; [..|exact Ht].
Qed.

(** A batch ends the walk, or leaves fewer servers or fewer referrals. *)
Definition advanced (s : recurseState) (x : recurseState * action * Recursor) : Prop :=
  let '(s', a, r') := x in
  good_rec r' ∧ inProgress s ⊆ inProgress s' ∧
  match a with
  | Return o => inProgress s ⊆ inProgress (own o)
  | Continue => tcount s' = tcount s ∧ good_state s' ∧ count s' = count s ∧ (length (ns s') < length (ns s))%nat
  | Redirect => tcount s' = tcount s ∧ good_state s' ∧ count s' = count s + 1 ∧ count s' ≤ 20
  end.

Lemma treated_advanced s rest s1 x : alike (set_ns s rest) s1 → (length rest < length (ns s))%nat →
  Forall good_queryer rest → treated s1 x → advanced s x.
Proof.
  intros (H1 & H2 & H3 & H4) Hlen Hg. simpl in *. destruct x as [[s2 a] r2]. intros (Hr & Hp & Ha).
  split; [done|]. split; [by etrans|]. destruct a as [|o|]; [|by etrans|].
  2:{ destruct Ha as (?&?&?&?). split_and!; [congruence|done|congruence|done]. }
  destruct Ha as (Ha1 & Ha2 & Ha3). rewrite Ha2, H3. unfold good_state. rewrite Ha2, H3.
  split_and!; congruence || done.
Qed.

Lemma ordered_batch_ends Parallel s r : ns s ≠ [] → in_walk s → good_state s → good_rec r →
  eventually (λ m, ordered_batch IsValid clock cancelled ctxErr Mode ask (walkf m) Parallel name qtype qclass s r)
    (advanced s).
Proof using replies_ok address_ends alias_ends copies_end.
  intros Hne Hs Hg Hr. unfold ordered_batch. destruct (take_batch Parallel (ns s)) as [batch rest] eqn:E.
  destruct (take_batch_spec _ _ _ _ E Hne) as [Hlen Hperm].
  unfold good_state in Hg. rewrite Hperm, Forall_app in Hg. destruct Hg as [Hbatch Hrest].
  eapply ev_bind; [by apply query_all_ends|]. intros [[results s1] r1] (Hr1 & Hs1 & Hh). cbn [fst snd] in *.
  eapply ev_impl; [apply process_batch_ends; [done| |done]|].
  - by eapply grown_walk; [|exact Hs1].
  - intros x Hx. eapply treated_advanced; [by apply grown_alike|done..].
Qed.

Lemma unordered_batch_ends arrivals s r :
  (∀ n l, (arrivals n l).1 ++ (arrivals n l).2 ⊆+ l) → ns s ≠ [] → in_walk s → good_state s → good_rec r →
  eventually (λ m, unordered_batch IsValid clock cancelled ctxErr Mode ask (walkf m) arrivals name qtype qclass s r)
    (advanced s).
Proof using replies_ok address_ends alias_ends copies_end.
  intros Hfair Hne Hs Hg Hr. unfold unordered_batch. specialize (Hfair (readings r) (ns s)).
  destruct (arrivals (readings r) (ns s)) as [looked ignored]. cbn [fst snd] in Hfair.
  assert (Hall : Forall good_queryer (looked ++ ignored)).
  { unfold good_state in Hg. rewrite Forall_forall in *. intros q Hq. apply Hg. by eapply elem_of_submseteq. }
  apply Forall_app in Hall as [Hlooked Hignored].
  eapply ev_bind; [by apply look_through_ends|]. intros [[s1 v] r1] (Hr1 & Hs1 & Hv). cbn [fst snd] in *.
  assert (Hw1 : in_walk s1) by (by eapply alike_walk; [|exact Hs1]).
  eapply ev_bind; [by apply query_all_ends|]. intros [[results s2] r2] (Hr2 & Hs2 & _). cbn [fst snd] in *.
  eapply ev_impl; [apply conclude_ends; [done|by eapply grown_walk|done]|].
  intros x Hx. eapply (treated_advanced s []); [|by destruct (ns s); [|cbn; lia]|constructor|exact Hx].
  eapply alike_trans; [exact Hs1|by apply grown_alike].
Qed.

Hypothesis fair : fair_mode.

Lemma loop_ends s r : in_walk s → good_state s → good_rec r →
  eventually (λ m, walkf m name qtype qclass s r) (fine (inProgress s)).
Proof using replies_ok address_ends alias_ends copies_end fair.
  remember (Z.to_nat (21 - count s)) as k eqn:Hk. revert s r Hk.
  induction (lt_wf k) as [k _ IHk]. intros s r Hk.
  remember (length (ns s)) as len eqn:Hlen. revert s r Hk Hlen.
  induction (lt_wf len) as [len _ IHl]. intros s r Hk Hlen Hw Hg Hr.
  apply (ev_ext _ (λ m, match m with O => None | S m =>
    step IsValid clock cancelled ctxErr Mode ask (walkf m) name qtype qclass s r end)); [by intros []|].
  apply ev_step. unfold step. destruct (decide (ns s = [])) as [->|Hne]; [by apply ev_ret|].
  assert (Hadv : ∀ x, advanced s x → let '(s', a, r') := x in
    good_rec r' ∧ inProgress s ⊆ inProgress s' ∧
    match a with
    | Return o => inProgress s ⊆ inProgress (own o)
    | Continue => tcount s' = tcount s ∧ good_state s' ∧ count s' = count s ∧ (length (ns s') < len)%nat
    | Redirect => tcount s' = tcount s ∧ good_state s' ∧ count s' = count s + 1 ∧ count s' ≤ 20
    end) by (by rewrite Hlen).
  assert (Hbatch : ∀ mo, mo = Mode → eventually (λ m, match mo with
    | Ordered Parallel => ordered_batch IsValid clock cancelled ctxErr Mode ask (walkf m) Parallel name qtype qclass s r
    | UnorderedBy arrivals => unordered_batch IsValid clock cancelled ctxErr Mode ask (walkf m) arrivals name qtype qclass s r
    end) (advanced s)).
  { intros [Parallel|arrivals] E; [by apply ordered_batch_ends|].
    apply unordered_batch_ends; [|done..]. pose proof fair as Hf. unfold fair_mode in Hf. by rewrite <- E in Hf. }
  clear Hlen. destruct (ns s) as [|q rest]; [done|].
  eapply ev_bind; [by apply Hbatch|].
  intros [[s2 a] r2] (Hr2 & Hp2 & Ha)%Hadv. destruct a as [|o|].
  - destruct Ha as (Ht & Hg2 & Hcnt & Hlt).
    eapply ev_impl; [apply (IHl (length (ns s2))); [lia| |done| |done|done]|].
    + by rewrite Hcnt.
    + destruct Hw as [Hb Ht0]. split; [set_solver|congruence].
    + intros [o r3] [H1 H2]. split; [done|]. cbn [fst] in *. set_solver.
  - by apply ev_ret.
  - destruct Ha as (Ht & Hg2 & Hcnt & Hle).
    eapply ev_impl; [apply (IHk (Z.to_nat (21 - count s2))); [lia|done| |done|done]|].
    + destruct Hw as [Hb Ht0]. split; [set_solver|congruence].
    + intros [o r3] [H1 H2]. split; [done|]. cbn [fst] in *. set_solver.
Qed.
End loop.

(** *** Servers that are not aliases *)

Hypothesis fair : fair_mode.
Hypothesis servers_known : ∀ n srv q tp c resp, ask n srv q tp c = Ok resp → ns_ok resp.
Hypothesis servers_no_alias : ∀ n srv q tp c resp,
  ask n srv q tp c = Ok resp → name_key q ∈ hosts →
  GetRecordsForName resp "CNAME" (New q) ["answer"] = [].

(** The addresses that can be asked for. *)
Definition address_keys : names :=
  list_to_set ((λ h, (h, "A")) <$> elements hosts) ∪ list_to_set ((λ h, (h, "AAAA")) <$> elements hosts).

Lemma address_key h tp : h ∈ hosts → tp = "A" ∨ tp = "AAAA" → (h, tp) ∈ address_keys.
Proof.
  unfold address_keys. rewrite elem_of_union, !elem_of_list_to_set, !list_elem_of_fmap.
  intros Hh [-> | ->]; [left|right]; exists h; by rewrite elem_of_elements.
Qed.

Lemma pending_less (p p' : names) k : k ∈ address_keys → k ∉ p → k ∈ p' → p ⊆ p' →
  (size (address_keys ∖ p') < size (address_keys ∖ p))%nat.
Proof.
  clear servers_known servers_no_alias fair. generalize address_keys. intros U Hk Hn Hi Hs.
  apply subset_size. set_solver.
Qed.

Lemma pending_mono (p p' : names) : p ⊆ p' →
  (size (address_keys ∖ p') <= size (address_keys ∖ p))%nat.
Proof.
  clear servers_known servers_no_alias fair. generalize address_keys. intros U Hs. apply subseteq_size. set_solver.
Qed.

(** The walks for addresses, from any state of their parent. *)
Lemma address_walks N : ∀ l tp (s : recurseState) r,
  good_name l → tp = "A" ∨ tp = "AAAA" → good_rec r →
  (size (address_keys ∖ inProgress s) <= N)%nat →
  eventually (λ m, recurseFromRoot IsValid clock cancelled ctxErr (walkf m) l tp "IN" (address_state s)
                     (inProgress s, glue s) r)
    (fine (inProgress s)) ∧
  eventually (λ m, recurseFromRoot IsValid clock cancelled ctxErr (walkf m) l tp "IN"
                     (λ _, address_state s (inProgress s, glue s)) (inProgress s, glue s) r)
    (fine (inProgress s)).
Proof using servers_known servers_no_alias fair.
  induction (lt_wf N) as [N _ IH]. intros l tp s r Hl Htp Hr HN.
  assert (Htp' : asked tp = tp) by (by destruct Htp as [-> | ->]).
  assert (Hloop : ∀ s' r', good_state s' → good_rec r' → tcount s' = 0%nat →
    (name_key l, asked tp) ∉ inProgress s → inProgress s ⊆ inProgress s' → (name_key l, asked tp) ∈ inProgress s' →
    eventually (λ m, walkf m l (asked tp) (in_class "IN") s' r') (fine (inProgress s'))).
  2:{ change (fine (inProgress s)) with (fine (inProgress (address_state s (inProgress s, glue s)))).
      split; [apply from_root_ends with (t := 0%nat) (newState := address_state s)|
              apply from_root_ends with (t := 0%nat) (newState := λ _, address_state s (inProgress s, glue s))];
        try done; [by left|by right]. }
  rewrite Htp'. intros s' r' Hg Hr' _ Hk Hp Hk'.
  assert (Hless := pending_less _ _ _ (address_key _ _ Hl Htp) Hk Hk' Hp).
  assert (Hrec : ∀ l2 tp2 (s2 : recurseState) r2, good_name l2 → tp2 = "A" ∨ tp2 = "AAAA" →
    in_walk (tcount s') (inProgress s') s2 → good_rec r2 → _) by
    (intros l2 tp2 s2 r2 Hl2 Htp2 [Hb _] Hr2;
     apply (IH (size (address_keys ∖ inProgress s')) ltac:(lia) l2 tp2 s2 r2); [done..|by apply pending_mono]).
  apply loop_ends with (t := tcount s') (base := inProgress s'); [| | | |done|by split|done|done].
  - intros resp (n & srv & E). by apply (servers_known _ _ _ _ _ _ E).
  - intros l2 tp2 s2 r2 Hl2 Htp2 Hs2 Hr2. by apply Hrec.
  - intros resp s2 r2 (n & srv & E) _ _ Hn. exfalso. unfold needs_cname in Hn.
    rewrite (servers_no_alias _ _ _ _ _ _ E) in Hn by exact Hl. by rewrite andb_false_r in Hn.
  - intros l2 tp2 s2 r2 Hl2 Htp2 Hs2 Hr2. by apply Hrec.
Qed.

(** Walks for any name, by the number of aliases left. *)
Lemma any_walks k : ∀ name qtype qclass s r,
  good_state s → good_rec r → (CNAMEMaxChainLength - tcount s <= k)%nat →
  eventually (λ m, walkf m name qtype qclass s r) (fine (inProgress s)).
Proof using servers_known servers_no_alias fair.
  induction (lt_wf k) as [k _ IH]. intros name qtype qclass s r Hg Hr Hk.
  apply loop_ends with (t := tcount s) (base := inProgress s); [| | | |done|by split|done|done].
  - intros resp (n & srv & E). by apply (servers_known _ _ _ _ _ _ E).
  - intros l tp s2 r2 Hl Htp _ Hr2. by eapply address_walks.
  - intros resp s2 r2 _ [Hb Ht] Hr2 _. unfold resolveCNAME.
    assert (Hr3 := good_release _ (claim s2) Hr2).
    destruct (GetRecords resp "CNAME" ["answer"]) as [|rr rrs]; [by apply ev_ret|].
    destruct (chain_end _ _) as [target|e]; [|by apply ev_ret].
    destruct (negb _). { destruct (HasRRsOfTypeForName _ _ _ _); by apply ev_ret. }
    case_decide; [by apply ev_ret|]. cbv zeta.
    destruct (CNAMEMaxChainLength <? tcount _)%nat eqn:Hc; [by apply ev_ret|]. apply Nat.ltb_ge in Hc. simpl in Hc.
    destruct (negb _); [|by apply ev_ret].
    eapply ev_bind.
    + apply from_root_ends with (t := S (tcount s2)); [done|done|done|by right|done|].
      intros s' r' Hg' Hr' Ht' _ _ _. apply (IH (CNAMEMaxChainLength - tcount s')%nat); [|done..].
      rewrite Ht', Ht in *. unfold CNAMEMaxChainLength in *. lia.
    + intros [o r3] [H1 _]. by apply ev_ret.
  - intros l tp s2 r2 Hl Htp _ Hr2. by eapply address_walks.
Qed.

End walks.

Section lookups.
Context `{HGo : GoUnicode} `{HNet : Netip} `{HCount : Countable Addr} `{HDns : !DnsLib Addr}.
Context (IsValid : Addr → bool) (clock : nat → Z) (cancelled ctxErr : nat → bool) (Mode : mode).
Context (ask : nat → Nameserver → string → string → string → result packet rerror) (hosts : gset string).

(** The cache leaves referrals and the lookups in flight alone. *)
Definition same_walks (r r' : Recursor) : Prop := referrals r' = referrals r ∧ inflight r' = inflight r.

Lemma cacheLookup_walks r a b c : same_walks r (cacheLookup clock r a b c).1.
Proof. unfold cacheLookup, cacheLookupLocked, evictCacheEntryLocked. by repeat case_match. Qed.

Lemma cacheStore_walks r a b c resp : same_walks r (cacheStore r a b c resp).
Proof. unfold cacheStore, storeEntryLocked. by repeat case_match. Qed.

Lemma cacheStoreNegative_walks r a b c e : same_walks r (cacheStoreNegative clock r a b c e).
Proof. unfold cacheStoreNegative, storeEntryLocked. by repeat case_match. Qed.

Lemma register_walks r a b c r' reg : cacheLookupOrWaitOrRegister clock r a b c = (r', reg) →
  let key := recurseLookupKey a b c in
  referrals r' = referrals r ∧
  match reg with
  | Registered => ¬ key ∈ inflight r ∧ inflight r' = {[key]} ∪ inflight r
  | Wait => inflight r' = inflight r ∧ key ∈ inflight r
  | Cached _ => inflight r' = inflight r
  end.
Proof.
  unfold cacheLookupOrWaitOrRegister. pose proof (cacheLookup_walks r a b c) as Hc. unfold cacheLookup in Hc.
  destruct (cacheLookupLocked clock r a b c) as [r1 [hit|]]; destruct Hc as [H1 H2]; cbn [fst] in *.
  { by intros [= <- <-]. }
  rewrite <- H2. case_decide; by intros [= <- <-].
Qed.

(** What [recurseWithNameservers] does with the outcome of its walk. *)
Lemma finished_walks r r' key : key ∉ inflight r → inflight r' = {[key]} ∪ inflight r →
  inflight (with_inflight r' (inflight r' ∖ {[key]})) = inflight r.
Proof. intros Hk E. cbn. rewrite E. set_solver. Qed.

Hypothesis fair : fair_mode Mode.
Hypothesis servers_known : ∀ n srv q tp c resp, ask n srv q tp c = Ok resp → ns_ok hosts resp.
Hypothesis servers_no_alias : ∀ n srv q tp c resp,
  ask n srv q tp c = Ok resp → name_key q ∈ hosts →
  GetRecordsForName resp "CNAME" (New q) ["answer"] = [].

(** The walk of a lookup ends, with the lookups in flight it began with. *)
Lemma found_ends name qtype qclass servers r : known_referrals hosts r →
  eventually (λ m, match servers with
      | None => recurseFromRoot IsValid clock cancelled ctxErr (walk IsValid clock cancelled ctxErr Mode ask m)
                  name qtype qclass (λ _, new_state) (∅, ∅) r
      | Some l => recurse (walk IsValid clock cancelled ctxErr Mode ask m) name qtype qclass
                  (set_ns new_state (Server <$> l)) r
      end) (λ x, inflight x.2 = inflight r).
Proof using fair servers_known servers_no_alias.
  intros Hr. assert (Hg : good_rec hosts (inflight r) r) by done.
  assert (Hfine : ∀ p x, fine hosts (inflight r) p x → inflight x.2 = inflight r) by (by intros p x [[_ ?] _]).
  destruct servers as [l|]; (eapply ev_impl; [|by eapply Hfine]).
  - apply (recurse_ends IsValid clock cancelled ctxErr Mode ask hosts (inflight r)) with (p := ∅); [set_solver|done|].
    intros s' _ ->. eapply any_walks; [done..| |done|done]. by apply Forall_fmap, Forall_true.
  - apply (from_root_ends IsValid clock cancelled ctxErr Mode ask hosts (inflight r)) with (t := 0%nat);
      [done|done|done|by right|done|].
    intros. by eapply any_walks.
Qed.

(** C7: a lookup ends when the servers of the network are finitely many and none of their
    names is an alias: for every name, type and class, in both modes and for any number of
    queries at a time, whatever the servers answer and however their answers, the order of
    their results, the clock and the cancellation change, some amount of fuel yields an end and
    every larger amount the same one.  The lookup ends with a result, unless another lookup of
    the same key is in flight, for which it waits; and it leaves no lookup in flight that was
    not there before. *)
Theorem recurse_terminates name qtype qclass servers r :
  known_referrals hosts r →
  let key := recurseLookupKey (cacheNameKey (New name) (default [] servers)) (asked qtype) (in_class qclass) in
  ∃ fuel res r',
    (∀ m, (fuel <= m)%nat →
      recurseWithNameservers IsValid clock cancelled ctxErr Mode ask m name qtype qclass servers r = Some (res, r')) ∧
    inflight r' = inflight r ∧ (res = Waiting → key ∈ inflight r).
Proof using fair servers_known servers_no_alias.
  intros Hr key.
  enough (He : eventually (λ m, recurseWithNameservers IsValid clock cancelled ctxErr Mode ask m
    name qtype qclass servers r) (λ x, inflight x.2 = inflight r ∧ (x.1 = Waiting → key ∈ inflight r))).
  { destruct He as (n & [res r'] & E & H1 & H2). by exists n, res, r'. }
  unfold recurseWithNameservers. cbv zeta. fold (asked qtype) (in_class qclass).
  set (ck := cacheNameKey _ _) in *. pose proof (cacheLookup_walks r ck (asked qtype) (in_class qclass)) as [H1 H2].
  destruct (cacheLookup clock r _ _ _) as [r1 [hit|]]; cbn [fst] in *; [by apply ev_ret|].
  destruct (cacheLookupOrWaitOrRegister clock r1 _ _ _) as [r2 reg] eqn:E2.
  destruct (register_walks _ _ _ _ _ _ E2) as [H3 H4]. fold key in H4. rewrite H2 in H4.
  destruct reg; [by apply ev_ret|by apply ev_ret; destruct H4|]. destruct H4 as [Hnew Hfly].
  eapply ev_bind; [apply (found_ends name (asked qtype) (in_class qclass) servers r2)|].
  { unfold known_referrals. by rewrite H3, H1. }
  intros [o r3] Hr3. cbn [snd] in Hr3. rewrite Hfly in Hr3.
  destruct (answer o) as [resp|e]; apply ev_ret; (split; [|done]); unfold finishInflightLookup; fold key;
    apply finished_walks; try done; repeat case_match; try done;
    rewrite ?(proj2 (cacheStore_walks _ _ _ _ _)), ?(proj2 (cacheStoreNegative_walks _ _ _ _ _)); done.
Qed.
End lookups.

(** ** A network with a server behind a delegation without glue *)

#[local] Existing Instance ascii_unicode.
#[local] Existing Instance text_addresses.
#[local] Existing Instance few_tables.
#[local] Existing Instance text_addr_eq.
#[local] Existing Instance text_addr_countable.

Definition small_net (qname qtype : string) : Packet string :=
  if decide (qname = "ns.net") then
    if decide (qtype = "A") then message 0 [rr_of "ns.net." 60 (RA "192.0.2.1")] [] []
    else message 0 [] [rr_of "net." 60 RSOA] []
  else message 0 [] [rr_of "example." 60 (RNS "ns.net.")] [].

Definition small_ask (_ : nat) (srv : Nameserver) (qname qtype _ : string) : result packet rerror :=
  if decide (Address srv = "192.0.2.1") then Ok (message 0 [rr_of (qname +:+ ".") 60 (RA "192.0.2.80")] [] [])
  else Ok (small_net qname qtype).

(** The ordered mode with eight queries at a time, and the unordered mode with results in
    the order of the servers. *)
Definition some_mode (unordered : bool) : mode :=
  if unordered then UnorderedBy (λ _ l, (l, [])) else Ordered 8.

#[local] Abbreviation lookup unordered fuel name :=
  (Recurse valid (λ n, Z.of_nat n) (λ _, false) (λ _, false) (some_mode unordered) small_ask fuel name "A" "IN" (fresh ∅ 0)).

(** The walk asks the root, resolves the server's address, and asks the server. *)
Example small_lookup unordered :
  match lookup unordered 6 "www.example" with
  | Some (Done (Ok p), r) => p_Answer p = [rr_of "www.example." 60 (RA "192.0.2.80")] ∧ recurseCount r = 1
  | _ => False
  end.
Proof. destruct unordered; vm_compute; by split. Qed.

Lemma answer_only_ns answer authority resp :
  resp = message 0 answer authority [] → (∀ rr, rr ∈ answer ++ authority → RRToType rr ≠ 2 ∨ RRData rr = RNS "ns.net.") →
  ns_ok {["ns.net"]} resp.
Proof.
  intros -> Hrr rr target Hin E. unfold GetRecords, of_msg, normalizeSections in Hin. cbn in Hin.
  rewrite app_nil_r in Hin. unfold filterRRs in Hin.
  assert (Hin' : rr ∈ answer ++ authority).
  { apply elem_of_app. apply elem_of_app in Hin as [Hin|Hin];
      apply list_elem_of_In, List.filter_In in Hin as [Hin _]; apply list_elem_of_In in Hin; auto. }
  clear Hin. specialize (Hrr _ Hin'). destruct rr as [o c t d]. cbn in Hrr, E. subst d.
  destruct Hrr as [Hn|Hn]; [by destruct Hn|]. injection Hn as ->. apply elem_of_singleton. reflexivity.
Qed.

Lemma small_ns_ok n srv q tp c resp : small_ask n srv q tp c = Ok resp → ns_ok {["ns.net"]} resp.
Proof.
  unfold small_ask, small_net. repeat case_decide; intros E; injection E as <-;
    (eapply answer_only_ns; [reflexivity|]); intros rr; rewrite !elem_of_app, ?elem_of_cons, ?elem_of_nil;
    intros [?|?]; naive_solver.
Qed.

Lemma small_no_alias n srv q tp c resp :
  small_ask n srv q tp c = Ok resp → name_key q ∈@{gset string} {["ns.net"]} →
  GetRecordsForName resp "CNAME" (New q) ["answer"] = [].
Proof.
  unfold small_ask, small_net. repeat case_decide; intros E _; injection E as <-;
    unfold GetRecordsForName, GetRecords, of_msg; reflexivity.
Qed.

Lemma some_mode_fair unordered : fair_mode (some_mode unordered).
Proof. destruct unordered; [|done]. intros _ l. cbn. by rewrite app_nil_r. Qed.

Lemma recurse_terminates_witness :
  let key := recurseLookupKey (cacheNameKey (New "www.example") []) (asked "A") (in_class "IN") in
  ∃ fuel res r', (∀ m, (fuel <= m)%nat → lookup true m "www.example" = Some (res, r')) ∧
    inflight r' = ∅ ∧ (res = Waiting → key ∈@{gset string} ∅).
Proof.
  apply (recurse_terminates valid (λ n, Z.of_nat n) (λ _, false) (λ _, false) (some_mode true) small_ask {["ns.net"]}
    (some_mode_fair true) small_ns_ok small_no_alias "www.example" "A" "IN" None (fresh ∅ 0)).
  apply map_Forall_empty.
Defined.

(** ** The root retry behind an alias *)

(** The server of the cached zone [z] says that [ns.z] is an alias for [x.y], which no
    server answers for; the root knows the address of [ns.z]. *)
Definition stale_ask (_ : nat) (srv : Nameserver) (qname qtype _ : string) : result packet rerror :=
  if decide (Address srv = "192.0.2.9") then Ok (message 0 [rr_of "ns.z." 60 (RCNAME "x.y.")] [] [])
  else if decide (qname = "ns.z" ∧ qtype = "A") then Ok (message 0 [rr_of "ns.z." 60 (RA "192.0.2.53")] [] [])
  else Err (ErrOther "timeout").

Definition stale_cache : Recursor :=
  with_referrals (fresh ∅ 0)
    {["z" := {| ref_resp := message 0 [] [rr_of "z." 60 (RNS "s.z.")] [rr_of "s.z." 60 (RA "192.0.2.9")];
               ref_expires := 1 |}]}.

(** One query at a time. *)
Definition single_mode (unordered : bool) : mode :=
  if unordered then UnorderedBy (λ _ l, (l, [])) else Ordered 1.

(** a walk that starts at a cached referral and yields nothing is repeated from the
    root, unless it shares [inProgress] with a parent and ended behind an alias: the mark of
    the name is then cleared in the state of the alias, and the repetition stops at once.
    The same stale referral lets [Recurse] find the address and [GetAddressesFor] find none,
    in the unordered mode and for [Parallel] of 1. *)
Theorem root_retry_lost unordered :
  let recurse_z := Recurse valid (λ _, 0) (λ _, false) (λ _, false) (single_mode unordered) stale_ask 9 "ns.z" "A" "IN" stale_cache in
  let addresses_z := GetAddressesFor valid (λ _, 0) (λ _, false) (λ _, false) (single_mode unordered) stale_ask 9 "ns.z" stale_cache in
  (∃ p r, recurse_z = Some (Done (Ok p), r) ∧ p_Answer p = [rr_of "ns.z." 60 (RA "192.0.2.53")]) ∧
  (∃ r, addresses_z = Some (Ok [], r)).
Proof. split; destruct unordered; vm_compute; eauto. Qed.

(** ** Referrals aside *)

(** The servers of [com] refer a question about [bar.com] to the servers of [foo.com]. *)
Definition aside_ask (_ : nat) (srv : Nameserver) (qname qtype _ : string) : result packet rerror :=
  if decide (Address srv = "192.0.2.1") then
    Ok (message 0 [] [rr_of "foo.com." 60 (RNS "ns.foo.com.")] [rr_of "ns.foo.com." 60 (RA "192.0.2.2")])
  else if decide (Address srv = "192.0.2.2") then
    if decide (qname = "bar.com") then Ok (message 0 [] [rr_of "bar.com." 60 RSOA] []) else Ok (message 5 [] [] [])
  else Ok (message 0 [] [rr_of "com." 60 (RNS "ns.com.")] [rr_of "ns.com." 60 (RA "192.0.2.1")]).

(** a referral is followed when its zone has at least as many labels in common with the
    name as the last one had, also when it does not contain the name; [Parent] then names a
    zone that is no ancestor: the parent of [bar.com] is [foo.com]. *)
Theorem parent_aside unordered :
  IsInBailiwick (New "foo.com") (New "bar.com") = false ∧
  ∃ p r, Parent valid (λ _, 0) (λ _, false) (λ _, false) (some_mode unordered) aside_ask 9 "bar.com" (fresh ∅ 0) =
    Some (Ok ("foo.com", p), r).
Proof. split; [reflexivity|]. destruct unordered; vm_compute; eauto. Qed.
