(* ===== verification/CnameFacts.v ===== *)
(** * Which answers are alias chains

    [chain_end] accepts the CNAME records of an answer exactly when, in the order of the
    answer and without repetitions, they are a path from the name, at most nine steps long,
    that never comes back. *)

From S2P Require Import Prelude GoStrings RateLimit Names Packet RecursorCache Recursor.

Local Open Scope string_scope.
Local Open Scope nat_scope.
Local Open Scope list_scope.

Section cname.
Context `{HGo : GoUnicode} {Addr : Type}.

Definition owner (c : alias) : string := name_key (alias_owner c).
Definition target (c : alias) : string := name_key (alias_target c).

(** The aliases lead from [k] to [t], one after the other. *)
Fixpoint chain_path (k : string) (l : list alias) (t : string) : Prop :=
  match l with
  | [] => t = k
  | c :: l => owner c = k ∧ chain_path (target c) l t
  end.

(** *** The second loop *)

Fixpoint checks (l : list alias) (T F : gset string) : Prop :=
  match l with
  | [] => True
  | c :: l =>
      (owner c ∉ F) ∧ owner c ≠ target c ∧ (target c ∉ T) ∧ (target c ∉ F)
      ∧ checks l ({[target c]} ∪ T) ({[owner c]} ∪ F)
  end.

Definition to_map (cn : gmap string string) (l : list alias) : gmap string string :=
  foldl (λ m c, <[owner c := target c]> m) cn l.

Lemma alias_map_ok name l T F cn m :
  alias_map name l T F cn = Ok m ↔ checks l T F ∧ m = to_map cn l.
Proof.
  revert T F cn. induction l as [|c l IH]; intros T F cn; cbn [alias_map checks].
  { unfold to_map. simpl. naive_solver. }
  fold (owner c) (target c). case_decide as H1; [naive_solver|].
  case_decide as H2; [naive_solver|]. rewrite IH. unfold to_map. simpl. naive_solver.
Qed.

(** What the checks say about two records. *)
Lemma checks_from l T F : checks l T F →
  ∀ i c, l !! i = Some c → (owner c ∉ F) ∧ (target c ∉ T) ∧ (target c ∉ F) ∧ owner c ≠ target c ∧
    ∀ j d, j < i → l !! j = Some d → owner d ≠ owner c ∧ target d ≠ target c ∧ owner d ≠ target c.
Proof.
  revert T F. induction l as [|d l IH]; intros T F; [done|]. intros (H1 & H2 & H3 & H4 & Hl) [|i] c.
  - intros [= <-]. split_and!; try done. intros j d' Hj. lia.
  - intros Hc. destruct (IH _ _ Hl i c Hc) as (G1 & G2 & G3 & G4 & G5).
    rewrite not_elem_of_union, not_elem_of_singleton in G1, G2, G3.
    destruct G1 as [? ?], G2 as [? ?], G3 as [? ?]. split_and!; try done.
    intros [|j] d' Hj; simpl; [intros [= <-]; split_and!; congruence|]. apply G5. lia.
Qed.

Lemma checks_nodup l T F : checks l T F → NoDup (owner <$> l) ∧ NoDup (target <$> l).
Proof.
  intros Hl. pose proof (checks_from _ _ _ Hl) as Hc. split; apply NoDup_alt; intros i j x Hi Hj;
    rewrite list_lookup_fmap in Hi, Hj; apply fmap_Some in Hi as (c & Hi & ->), Hj as (d & Hj & E);
    destruct (lt_eq_lt_dec i j) as [[Hlt|?]|Hlt]; try done; exfalso;
    [destruct (Hc _ _ Hj) as (_ & _ & _ & _ & Hd)|destruct (Hc _ _ Hi) as (_ & _ & _ & _ & Hd)|
     destruct (Hc _ _ Hj) as (_ & _ & _ & _ & Hd)|destruct (Hc _ _ Hi) as (_ & _ & _ & _ & Hd)];
    edestruct Hd as (? & ? & ?); eauto.
Qed.

Lemma to_map_lookup l cn k t : NoDup (owner <$> l) →
  to_map cn l !! k = Some t ↔
  (∃ c, c ∈ l ∧ owner c = k ∧ target c = t) ∨ ((∀ c, c ∈ l → owner c ≠ k) ∧ cn !! k = Some t).
Proof.
  revert cn. induction l as [|c l IH]; intros cn Hnd; simpl.
  { split; [|intros [(c & Hc & _)|[_ ?]]; [by apply elem_of_nil in Hc|done]].
    right. split; [|done]. by intros c ?%elem_of_nil. }
  apply NoDup_cons in Hnd as [Hc Hnd]. unfold to_map in IH |- *. rewrite (IH _ Hnd). split.
  - intros [(d & Hd & ? & ?)|[Hno Hl]]; [left; exists d; split_and!; [by right|done..]|].
    apply lookup_insert_Some in Hl as [[? ?]|[Hk Hl]]; [left; exists c; split_and!; [left|done..]|].
    right. split; [|done]. intros d [->|Hd]%elem_of_cons; auto.
  - intros [(d & [->|Hd]%elem_of_cons & <- & <-)|[Hno Hl]].
    + right. split; [|by rewrite lookup_insert_eq]. intros e He E. apply Hc. rewrite <- E. by apply list_elem_of_fmap_2.
    + left. eauto.
    + right. split; [intros d Hd; apply Hno; by right|]. rewrite lookup_insert_ne; [done|]. apply Hno. left.
Qed.

(** *** The third loop *)

(** Every step goes forward in the list, so a walk that takes all records takes them in
    order. *)
Lemma follow_forward name l k cnt fuel i t cnt' : checks l ∅ ∅ →
  (∀ j c, l !! j = Some c → owner c = k → i ≤ j) → i ≤ length l →
  follow name (to_map ∅ l) k cnt fuel = Ok (t, cnt') →
  cnt' ≤ cnt + (length l - i) ∧ (cnt' = cnt + (length l - i) → chain_path k (drop i l) t).
Proof.
  intros Hch. destruct (checks_nodup _ _ _ Hch) as [Hnd _]. pose proof (checks_from _ _ _ Hch) as Hc.
  revert k cnt i. induction fuel as [|fuel IH]; intros k cnt i Hk Hi; cbn [follow].
  - destruct (to_map ∅ l !! k) as [next|] eqn:E.
    + apply to_map_lookup in E as [(c & Hin & Ho & Ht)|[_ E]]; [|done|done].
      apply list_elem_of_lookup in Hin as [j Hj]. pose proof (Hk _ _ Hj Ho).
      apply lookup_lt_Some in Hj. destruct (CNAMEMaxRecords <? cnt); [done|].
      intros [= <- <-]. split; [lia|]. lia.
    + intros [= <- <-]. split; [lia|]. intros He. rewrite drop_ge by lia. done.
  - destruct (to_map ∅ l !! k) as [next|] eqn:E.
    + apply to_map_lookup in E as [(c & Hin & Ho & Ht)|[_ E]]; [|done|done].
      apply list_elem_of_lookup in Hin as [j Hj]. pose proof (Hk _ _ Hj Ho) as Hij.
      pose proof (lookup_lt_Some _ _ _ Hj) as Hlt. destruct (CNAMEMaxRecords <? cnt); [done|]. intros Hf.
      destruct (IH next (S cnt) (S j)) as [H1 H2]; [|lia|exact Hf|].
      { intros j' c' Hj' Ho'. destruct (decide (j < j')) as [|Hn]; [lia|]. exfalso.
        destruct (decide (j = j')) as [<-|Hne].
        - rewrite Hj in Hj'. injection Hj' as <-. destruct (Hc _ _ Hj) as (_ & _ & _ & Hot & _). congruence.
        - destruct (Hc _ _ Hj) as (_ & _ & _ & _ & Hd). destruct (Hd j' c') as (_ & _ & Hx); [lia|done|]. congruence. }
      split; [lia|]. intros He. assert (j = i) as -> by lia.
      rewrite (drop_S _ _ _ Hj). split; [done|]. rewrite Ht. apply H2. lia.
    + intros [= <- <-]. split; [lia|]. intros He. rewrite drop_ge by lia. done.
Qed.

Lemma path_checks l k t T F : chain_path k l t → NoDup (k :: (target <$> l)) →
  (∀ x, x ∈ target <$> l → x ∉ T) → (∀ x, x ∈ k :: (target <$> l) → x ∉ F) → checks l T F.
Proof.
  revert k T F. induction l as [|c l IH]; intros k T F; [done|]. intros [<- Hp] Hnd HT HF. simpl in *.
  apply NoDup_cons in Hnd as [Hk Hnd]. split_and!.
  - apply HF. left.
  - intros E. apply Hk. rewrite E. left.
  - apply HT. left.
  - apply HF. right. left.
  - apply (IH (target c)); [done|done|..].
    + apply NoDup_cons in Hnd as [Ht _]. intros x Hx. rewrite not_elem_of_union, not_elem_of_singleton.
      split; [by intros ->|]. apply HT. by right.
    + intros x Hx. rewrite not_elem_of_union, not_elem_of_singleton. split; [by intros ->|].
      apply HF. by right.
Qed.

Lemma path_owners l k t : chain_path k l t → owner <$> l = take (length l) (k :: (target <$> l)).
Proof.
  revert k. induction l as [|c l IH]; intros k; [done|]. intros [<- Hp]. simpl. f_equal.
  exact (IH _ Hp).
Qed.

Lemma path_end l k t : chain_path k l t → last (k :: (target <$> l)) = Some t.
Proof.
  revert k. induction l as [|c l IH]; intros k; [by intros <-|]. intros [_ Hp]. simpl fmap.
  rewrite last_cons_cons. by apply IH.
Qed.

(** The end of the path is not an owner. *)
Lemma path_stops l k t : chain_path k l t → NoDup (k :: (target <$> l)) → t ∉ owner <$> l.
Proof.
  intros Hp Hnd Hin. rewrite (path_owners _ _ _ Hp) in Hin.
  pose proof (path_end _ _ _ Hp) as He. rewrite last_lookup in He. simpl in He.
  apply list_elem_of_lookup in Hin as [i Hi]. apply lookup_take_Some in Hi as [Hi Hlt].
  assert (i = length (target <$> l)) by (eapply NoDup_lookup; eauto). rewrite length_fmap in *. lia.
Qed.

Lemma follow_path name pre l k t cnt fuel :
  chain_path k l t → (t ∉ owner <$> pre ++ l) → NoDup (owner <$> pre ++ l) →
  cnt + length l ≤ CNAMEMaxRecords → length l ≤ fuel →
  follow name (to_map ∅ (pre ++ l)) k cnt fuel = Ok (t, cnt + length l).
Proof.
  revert pre k cnt fuel. induction l as [|c l IH]; intros pre k cnt fuel Hp Ht Hnd Hlen Hfuel.
  - simpl in Hp. subst t. assert (E : to_map ∅ (pre ++ []) !! k = None).
    { apply eq_None_not_Some. intros [x Hx]. apply to_map_lookup in Hx as [(c & Hc & <- & _)|[_ Hx]]; [|done|done].
      apply Ht. by apply list_elem_of_fmap_2. }
    destruct fuel; cbn [follow]; rewrite E; simpl; by rewrite Nat.add_0_r.
  - destruct Hp as [Ho Hp]. assert (E : to_map ∅ (pre ++ c :: l) !! k = Some (target c)).
    { apply to_map_lookup; [done|]. left. exists c. split_and!; [|done..]. apply elem_of_app. right. left. }
    simpl in Hlen, Hfuel. destruct fuel as [|fuel]; [lia|]. cbn [follow]. rewrite E.
    rewrite (proj2 (Nat.ltb_ge _ _)) by lia. change (c :: l) with ([c] ++ l) in *. rewrite app_assoc in *.
    rewrite (IH (pre ++ [c])); [|done..|lia|lia]. simpl. do 2 f_equal. lia.
Qed.

(** C9: [chain_end] yields [t] exactly when the CNAME records of the answer, without
    repetitions and in the order they stand in, are at most nine and lead one after the other
    from the name to [t] through names that are all different.  Records that make up a chain
    in another order are refused as a loop. *)
Theorem chain_end_iff name (rrs : list (RR Addr)) t :
  let l := unique_aliases (omap as_alias rrs) ∅ in
  let k := to_lower (NameString name) in
  chain_end name rrs = Ok t ↔
  length l ≤ CNAMEMaxRecords ∧ chain_path k l t ∧ NoDup (k :: (target <$> l)).
Proof.
  intros l k. unfold chain_end. fold l k. destruct (CNAMEMaxRecords <? length l) eqn:Hlen.
  { apply Nat.ltb_lt in Hlen. split; [done|lia]. }
  apply Nat.ltb_ge in Hlen.
  destruct (alias_map name l ∅ ∅ ∅) as [m|e] eqn:Hm; cbn [rbind].
  - apply alias_map_ok in Hm as [Hch ->].
    destruct (follow name (to_map ∅ l) k 0 (CNAMEMaxRecords + 2)) as [[t' cnt]|e] eqn:Hf; cbn [rbind].
    + destruct (follow_forward name l k 0 (CNAMEMaxRecords + 2) 0 t' cnt) as [_ Hpath]; [done|lia|lia|done|].
      destruct (cnt =? length l) eqn:Hc; simpl.
      * apply Nat.eqb_eq in Hc. specialize (Hpath ltac:(lia)). rewrite drop_0 in Hpath.
        split; [|intros (_ & Hp & _)].
        -- intros [= <-]. split_and!; [done..|].
           destruct (checks_nodup _ _ _ Hch) as [_ Hnd]. apply NoDup_cons. split; [|done].
           intros Hin. destruct l as [|c l']; [by apply elem_of_nil in Hin|]. destruct Hpath as [Ho _].
           rewrite <- Ho in Hin. pose proof (checks_from _ _ _ Hch) as Hall.
           apply list_elem_of_lookup in Hin as [i Hi]. rewrite list_lookup_fmap in Hi.
           apply fmap_Some in Hi as (d & Hd & E). destruct (Hall _ _ Hd) as (_ & _ & _ & Hne & Hlt).
           destruct i as [|i]; [simpl in Hd; congruence|]. destruct (Hlt 0 c) as (_ & _ & Hx); [lia|done|done].
        -- f_equal. pose proof (path_end _ _ _ Hp) as E1. rewrite (path_end _ _ _ Hpath) in E1. congruence.
      * apply Nat.eqb_neq in Hc. split; [done|]. intros (_ & Hp & Hnd). exfalso. apply Hc.
        assert (Hno : t ∉ owner <$> l) by by eapply path_stops.
        destruct (checks_nodup _ _ _ Hch) as [Hndo _].
        pose proof (follow_path name [] l k t 0 (CNAMEMaxRecords + 2) Hp Hno Hndo Hlen ltac:(lia)) as E.
        simpl app in E. rewrite Hf in E. injection E as _ ->. done.
    + split; [done|]. intros (_ & Hp & Hnd). exfalso.
      assert (Hno : t ∉ owner <$> l) by by eapply path_stops.
      destruct (checks_nodup _ _ _ Hch) as [Hndo _].
      pose proof (follow_path name [] l k t 0 (CNAMEMaxRecords + 2) Hp Hno Hndo Hlen ltac:(lia)) as E.
      simpl app in E. congruence.
  - split; [done|]. intros (_ & Hp & Hnd). exfalso.
    assert (Hok : alias_map name l ∅ ∅ ∅ = Ok (to_map ∅ l)).
    { apply alias_map_ok. split; [|done]. by eapply path_checks; [..|set_solver|set_solver]. }
    congruence.
Qed.

(** the third loop's own bound is never what ends it: after the first two loops the
    number of steps is at most the number of records, so [CNAMETooMany] is reported for the
    number of records only. *)
Theorem follow_never_too_many name (rrs : list (RR Addr)) m :
  let l := unique_aliases (omap as_alias rrs) ∅ in
  length l ≤ CNAMEMaxRecords → alias_map name l ∅ ∅ ∅ = Ok m →
  ∃ t cnt, follow name m (to_lower (NameString name)) 0 (CNAMEMaxRecords + 2) = Ok (t, cnt) ∧ cnt ≤ length l ∧
    m !! t = None.
Proof.
  intros l Hlen Hm. apply alias_map_ok in Hm as [Hch ->].
  destruct (checks_nodup _ _ _ Hch) as [Hnd _]. pose proof (checks_from _ _ _ Hch) as Hc.
  enough (Hgen : ∀ fuel k cnt i, (∀ j c, l !! j = Some c → owner c = k → i ≤ j) → i ≤ length l →
    length l - i < fuel → cnt ≤ i → ∃ t cnt', follow name (to_map ∅ l) k cnt fuel = Ok (t, cnt') ∧
      cnt' ≤ length l ∧ to_map ∅ l !! t = None).
  { apply (Hgen _ _ _ 0); [lia|lia| |lia]. unfold CNAMEMaxRecords in *. lia. }
  induction fuel as [|fuel IH]; intros k cnt i Hk Hi Hf Hcnt; [lia|]. cbn [follow].
  destruct (to_map ∅ l !! k) as [next|] eqn:E; [|exists k, cnt; split_and!; [done|lia|done]].
  apply to_map_lookup in E as [(c & Hin & Ho & Ht)|[_ E]]; [|done|done].
  apply list_elem_of_lookup in Hin as [j Hj]. pose proof (Hk _ _ Hj Ho) as Hij.
  pose proof (lookup_lt_Some _ _ _ Hj) as Hlt.
  rewrite (proj2 (Nat.ltb_ge _ _)) by (unfold CNAMEMaxRecords in *; lia).
  apply (IH _ _ (S j)); [|lia|lia|lia].
  intros j' c' Hj' Ho'. destruct (decide (j < j')) as [|Hn]; [lia|]. exfalso.
  destruct (decide (j = j')) as [<-|Hne].
  - rewrite Hj in Hj'. injection Hj' as <-. destruct (Hc _ _ Hj) as (_ & _ & _ & Hot & _). congruence.
  - destruct (Hc _ _ Hj) as (_ & _ & _ & _ & Hd). destruct (Hd j' c') as (_ & _ & Hx); [lia|done|]. congruence.
Qed.
End cname.
