(* ===== verification/RecursorCacheFacts.v ===== *)
(** * The recursor's memory keeps its promises

    The three-level cache of finished lookups behaves as one bounded map from name, type and
    class; its counter counts exactly.  A cached referral is the deepest one above the name
    that has not expired.  Keys of the cache are read back by [parseCacheKey] unless a name
    contains the separators. *)

From S2P Require Import Prelude GoStrings RateLimit NsGuards Names NamesFacts Packet RecursorCache Recursor RecursorLoop.

Local Open Scope string_scope.
Local Open Scope Z_scope.
Local Open Scope list_scope.

Section recursor.
Context `{HGo : GoUnicode} `{HNet : Netip} `{HCount : Countable Addr} `{HDns : !DnsLib Addr}.
Context (clock : nat → Z).

(** ** The cache as one map *)

#[local] Abbreviation key3 := (string * string * string)%type.
#[local] Abbreviation flat_map := (gmap key3 recurseCacheEntry).

Definition represents (c : gmap string (gmap string (gmap string recurseCacheEntry))) (f : flat_map) : Prop :=
  ∀ n t k, f !! (n, t, k) = cache_get c n t k.

Lemma cache_get_insert c n t k e n' t' k' :
  let bt := default ∅ (c !! n) in
  let bc := default ∅ (bt !! t) in
  cache_get (<[n := <[t := <[k := e]> bc]> bt]> c) n' t' k' =
    if decide ((n', t', k') = (n, t, k)) then Some e else cache_get c n' t' k'.
Proof.
  intros bt bc. unfold cache_get. destruct (decide (n' = n)) as [->|Hn].
  - rewrite lookup_insert_eq. simpl. destruct (decide (t' = t)) as [->|Ht].
    + rewrite lookup_insert_eq. simpl. destruct (decide (k' = k)) as [->|Hk].
      * rewrite lookup_insert_eq. by rewrite decide_True.
      * rewrite lookup_insert_ne by congruence. rewrite decide_False by congruence.
        unfold bc, bt. destruct (c !! n) as [m|]; simpl; [|done]. destruct (m !! t); done.
    + rewrite lookup_insert_ne by congruence. rewrite decide_False by congruence.
      unfold bt. by destruct (c !! n).
  - rewrite lookup_insert_ne by congruence. by rewrite decide_False by congruence.
Qed.

Lemma cache_get_evict (r : Recursor) n t k n' t' k' :
  cache_get (recurseCache (evictCacheEntryLocked r n t k)) n' t' k' =
    if decide ((n', t', k') = (n, t, k)) then None else cache_get (recurseCache r) n' t' k'.
Proof.
  unfold evictCacheEntryLocked. destruct (recurseCache r !! n) as [bt|] eqn:En.
  2:{ case_decide as E; [|done]. injection E as -> -> ->. unfold cache_get. by rewrite En. }
  destruct (bt !! t) as [bc|] eqn:Et.
  2:{ case_decide as E; [|done]. injection E as -> -> ->. unfold cache_get. rewrite En. simpl. by rewrite Et. }
  cbn zeta. simpl recurseCache. set (bc' := delete k bc).
  set (bt' := if decide (bc' = ∅) then delete t bt else <[t := bc']> bt).
  assert (Hbt : ∀ t' k', bt' !! t' ≫= (λ b, b !! k') =
    if decide ((t', k') = (t, k)) then None else bt !! t' ≫= (λ b, b !! k')).
  { intros t2 k2. unfold bt'. destruct (decide (t2 = t)) as [->|Ht2].
    - assert (Hb : bc' !! k2 = if decide (k2 = k) then None else bc !! k2).
      { unfold bc'. case_decide; [subst; apply lookup_delete_eq|by apply lookup_delete_ne; congruence]. }
      rewrite Et. simpl. destruct (decide (bc' = ∅)) as [Hemp|].
      + rewrite lookup_delete_eq. simpl. rewrite Hemp, lookup_empty in Hb.
        destruct (decide (k2 = k)) as [->|]; [by rewrite decide_True|rewrite decide_False by congruence; done].
      + rewrite lookup_insert_eq. simpl. rewrite Hb.
        destruct (decide (k2 = k)) as [->|]; [by rewrite decide_True|by rewrite decide_False by congruence].
    - rewrite (decide_False (P := (t2, k2) = (t, k))) by congruence. case_decide; [by rewrite lookup_delete_ne by congruence|by rewrite lookup_insert_ne by congruence]. }
  unfold cache_get. destruct (decide (n' = n)) as [->|Hn].
  - rewrite En. simpl. transitivity (bt' !! t' ≫= (λ b, b !! k')).
    + destruct (decide (bt' = ∅)) as [->|]; [by rewrite lookup_delete_eq, lookup_empty|by rewrite lookup_insert_eq].
    + rewrite Hbt. destruct (decide ((t', k') = (t, k))) as [[= -> ->]|Hne]; [by rewrite decide_True|].
      rewrite decide_False; [done|]. congruence.
  - rewrite (decide_False (P := (n', t', k') = (n, t, k))) by congruence.
    case_decide; [by rewrite lookup_delete_ne by congruence|by rewrite lookup_insert_ne by congruence].
Qed.

(** *** The map that is promised *)

(** Storing drops everything else when the map is full. *)
Definition flat_store (f : flat_map) (key : key3) (e : recurseCacheEntry) : flat_map :=
  if decide (f !! key = None ∧ recurseCacheMaxEntries ≤ Z.of_nat (size f)) then {[key := e]}
  else <[key := e]> f.

Record flat_cache := { flat : flat_map; at_reading : nat; ttl : Z }.

(** The entry of [cacheStoreNegative], if it stores one. *)
Definition negative_entry (s : flat_cache) (err : option rerror) : option (recurseCacheEntry * nat) :=
  let plain := {| entry_resp := None; entry_err := err; expires := None |} in
  let timed := {| entry_resp := None; entry_err := err; expires := Some (clock (at_reading s) + ttl s) |} in
  if 0 <? ttl s then Some (timed, S (at_reading s))
  else match err with Some _ => Some (plain, at_reading s) | None => None end.

Inductive cache_op :=
| Store (n t k : string) (p : packet)
| StoreNegative (n t k : string) (err : option rerror)
| Lookup (n t k : string)
| Clear.

Definition flat_step (s : flat_cache) (o : cache_op) : flat_cache * option (packet * option rerror) :=
  match o with
  | Store n t k p =>
      if has_msg p then
        ({| flat := flat_store (flat s) (n, t, k) {| entry_resp := Some p; entry_err := None; expires := None |};
            at_reading := at_reading s; ttl := ttl s |}, None)
      else (s, None)
  | StoreNegative n t k err =>
      match negative_entry s err with
      | Some (e, at') => ({| flat := flat_store (flat s) (n, t, k) e; at_reading := at'; ttl := ttl s |}, None)
      | None => (s, None)
      end
  | Lookup n t k =>
      match flat s !! (n, t, k) with
      | None => (s, None)
      | Some e =>
          let hit := Some (default no_packet (entry_resp e), entry_err e) in
          match expires e with
          | None => (s, hit)
          | Some x =>
              if clock (at_reading s) <? x
              then ({| flat := flat s; at_reading := S (at_reading s); ttl := ttl s |}, hit)
              else ({| flat := delete (n, t, k) (flat s); at_reading := S (at_reading s); ttl := ttl s |}, None)
          end
      end
  | Clear => ({| flat := ∅; at_reading := at_reading s; ttl := ttl s |}, None)
  end.

Definition cache_step (r : Recursor) (o : cache_op) : Recursor * option (packet * option rerror) :=
  match o with
  | Store n t k p => (cacheStore r n t k p, None)
  | StoreNegative n t k err => (cacheStoreNegative clock r n t k err, None)
  | Lookup n t k => cacheLookup clock r n t k
  | Clear => (ClearCache r, None)
  end.

Fixpoint run {S} (step : S → cache_op → S * option (packet * option rerror)) (s : S) (ops : list cache_op)
  : S * list (option (packet * option rerror)) :=
  match ops with
  | [] => (s, [])
  | o :: ops => let '(s, out) := step s o in let '(s, outs) := run step s ops in (s, out :: outs)
  end.

(** The recursor holds the map, and counts it. *)
Definition holds (r : Recursor) (s : flat_cache) : Prop :=
  represents (recurseCache r) (flat s) ∧ recurseCount r = Z.of_nat (size (flat s)) ∧
  Z.of_nat (size (flat s)) ≤ recurseCacheMaxEntries ∧ readings r = at_reading s ∧ negativeCacheTTL r = ttl s.

Lemma holds_store r s n t k e at' :
  holds r s → readings r = at' →
  holds (storeEntryLocked r n t k e) {| flat := flat_store (flat s) (n, t, k) e; at_reading := at'; ttl := ttl s |}.
Proof.
  intros (Hrep & Hn & Hmax & _ & Ht) Hat. unfold storeEntryLocked. cbv zeta.
  assert (Hget : default ∅ (default ∅ (recurseCache r !! n) !! t) !! k = flat s !! (n, t, k)).
  { rewrite Hrep. unfold cache_get. destruct (recurseCache r !! n) as [m|]; simpl; [|done]. by destruct (m !! t). }
  rewrite Hget. change (0 <? recurseCacheMaxEntries) with true. cbn [andb].
  unfold flat_store. destruct (flat s !! (n, t, k)) as [e'|] eqn:E.
  - rewrite decide_False by (by intros [? _]). rewrite (proj2 (Z.ltb_ge _ _)) by lia.
    split_and!; simpl; try done.
    + intros n' t' k'. rewrite cache_get_insert. case_decide as Hk; [rewrite Hk; apply lookup_insert_eq|].
      rewrite lookup_insert_ne by congruence. apply Hrep.
    + rewrite map_size_insert_Some by eauto. done.
    + rewrite map_size_insert_Some by eauto. done.
  - destruct (decide (None = None ∧ recurseCacheMaxEntries ≤ Z.of_nat (size (flat s)))) as [[_ Hfull]|Hroom].
    + rewrite (proj2 (Z.ltb_lt _ _)) by lia. split_and!; simpl; try done.
      * intros n' t' k'. unfold cache_get. destruct (decide (n' = n)) as [->|Hn'].
        -- rewrite lookup_singleton_eq. simpl. destruct (decide (t' = t)) as [->|Ht'].
           ++ rewrite lookup_singleton_eq. simpl. destruct (decide (k' = k)) as [->|Hk'].
              ** by rewrite !lookup_singleton_eq.
              ** rewrite !lookup_singleton_ne by congruence. done.
           ++ rewrite !lookup_singleton_ne by congruence. done.
        -- rewrite !lookup_singleton_ne by congruence. done.
      * by rewrite map_size_singleton.
      * by rewrite map_size_singleton.
    + assert (Hlt : Z.of_nat (size (flat s)) < recurseCacheMaxEntries) by (apply Z.nle_gt; auto).
      rewrite (proj2 (Z.ltb_ge _ _)) by lia. split_and!; simpl; try done.
      * intros n' t' k'. rewrite cache_get_insert. case_decide as Hk; [rewrite Hk; apply lookup_insert_eq|].
        rewrite lookup_insert_ne by congruence. apply Hrep.
      * rewrite map_size_insert_None by done. lia.
      * rewrite map_size_insert_None by done. lia.
Qed.

Lemma holds_evict r s n t k e :
  holds r s → flat s !! (n, t, k) = Some e →
  holds (evictCacheEntryLocked r n t k) {| flat := delete (n, t, k) (flat s); at_reading := at_reading s; ttl := ttl s |}.
Proof.
  intros (Hrep & Hn & Hmax & Hat & Ht) E.
  assert (Hsz : size (flat s) = S (size (delete (n, t, k) (flat s)))).
  { rewrite map_size_delete_Some by eauto.
    destruct (size (flat s)) eqn:Hz; [|simpl; lia]. apply map_size_empty_inv in Hz. rewrite Hz, lookup_empty in E. done. }
  split_and!; simpl.
  - intros n' t' k'. rewrite cache_get_evict. case_decide as Hk; [rewrite Hk; apply lookup_delete_eq|].
    rewrite lookup_delete_ne by congruence. apply Hrep.
  - rewrite Hrep in E. unfold cache_get in E. unfold evictCacheEntryLocked.
    destruct (recurseCache r !! n) as [bt|]; simpl in E; [|done].
    destruct (bt !! t) as [bc|]; simpl in E; [|done]. rewrite E. simpl.
    rewrite (proj2 (Z.ltb_lt _ _)) by lia. lia.
  - lia.
  - unfold evictCacheEntryLocked. by repeat case_match.
  - unfold evictCacheEntryLocked. by repeat case_match.
Qed.

Lemma holds_step r s o : holds r s →
  holds (cache_step r o).1 (flat_step s o).1 ∧ (cache_step r o).2 = (flat_step s o).2.
Proof.
  intros Hh. pose proof Hh as (Hrep & Hn & Hmax & Hat & Ht). destruct o as [n t k p|n t k err|n t k|]; cbn [cache_step flat_step].
  - unfold cacheStore. destruct (has_msg p); [|done]. split; [|done]. by apply holds_store.
  - unfold cacheStoreNegative, negative_entry, now. rewrite Ht, Hat. destruct (Z.ltb_spec 0 (ttl s)).
    + destruct err; [|rewrite (proj2 (Z.leb_gt _ _)) by lia]; (split; [|done]);
        (apply (holds_store (ticked r) {| flat := flat s; at_reading := S (at_reading s); ttl := ttl s |});
           [split_and!; try done; simpl; by rewrite Hat|by simpl; rewrite Hat]).
    + destruct err; [|rewrite (proj2 (Z.leb_le _ _)) by lia; done]. split; [|done]. by apply holds_store.
  - unfold cacheLookup, cacheLookupLocked. rewrite <- Hrep. destruct (flat s !! (n, t, k)) as [e|] eqn:E; [|done].
    destruct (expires e) as [x|]; [|done]. unfold now. rewrite Hat. cbv zeta.
    destruct (clock (at_reading s) <? x); (split; [|done]); cbn [fst].
    + split_and!; try done; simpl; by rewrite Hat.
    + eapply (holds_evict (ticked r) {| flat := flat s; at_reading := S (at_reading s); ttl := ttl s |}); [|exact E].
      split_and!; try done; simpl; by rewrite Hat.
  - split; [|done]. by split_and!.
Qed.

(** C19: the cache of finished lookups is one map from name, type and class, cut back to the
    newest entry when it would exceed 10000: after any operations every lookup answers as the
    map does, expired entries gone, and [recurseCount] is the number of entries. *)
Theorem cache_is_flat_map r ops :
  recurseCache r = ∅ → recurseCount r = 0 →
  let start := {| flat := ∅; at_reading := readings r; ttl := negativeCacheTTL r |} in
  (run cache_step r ops).2 = (run flat_step start ops).2 ∧
  recurseCount (run cache_step r ops).1 = Z.of_nat (size (flat (run flat_step start ops).1)) ∧
  recurseCount (run cache_step r ops).1 ≤ recurseCacheMaxEntries.
Proof.
  intros Hc Hn start.
  assert (Hh : holds r start).
  { split_and!; try done. intros n t k. rewrite Hc. done. }
  enough (Hgen : ∀ r s, holds r s → (run cache_step r ops).2 = (run flat_step s ops).2 ∧
    holds (run cache_step r ops).1 (run flat_step s ops).1).
  { destruct (Hgen r start Hh) as [H1 (_ & H2 & H3 & _)]. split_and!; [done..|by rewrite H2]. }
  clear. induction ops as [|o ops IH]; intros r s Hh; [done|].
  destruct (holds_step r s o Hh) as [H1 H2]. cbn [run].
  destruct (cache_step r o) as [r1 out1], (flat_step s o) as [s1 out2]. cbn [fst snd] in *. subst out2.
  destruct (IH r1 s1 H1) as [H3 H4].
  destruct (run cache_step r1 ops) as [r2 outs1], (run flat_step s1 ops) as [s2 outs2].
  cbn [fst snd] in *. by subst.
Qed.

(** ** Root referrals *)

(** The zone cuts above a name: the labels from position [i] on. *)
Definition cut_at (labels : list string) (i : nat) : string := to_lower (join "." (drop i labels)).

Definition live (r : Recursor) (cut : string) (t : Z) : Prop :=
  ∃ e, referrals r !! cut = Some e ∧ t < ref_expires e.

Hypothesis clock_mono : ∀ i j, (i ≤ j)%nat → clock i ≤ clock j.

Lemma live_mono r cut t t' : t ≤ t' → live r cut t' → live r cut t.
Proof. intros Ht (e & He & Hlt). exists e. split; [done|lia]. Qed.

(** What a search that starts at a position leaves. *)
Definition searched (r r' : Recursor) : Prop :=
  (readings r ≤ readings r')%nat ∧ referrals r' ⊆ referrals r ∧
  ∀ k e, referrals r !! k = Some e → clock (readings r') < ref_expires e → referrals r' !! k = Some e.

(** No live referral of the cut was there, and none is left. *)
Definition forgotten (r r' : Recursor) (cut : string) : Prop :=
  ¬ live r cut (clock (readings r')) ∧ referrals r' !! cut = None.

Lemma cached_from_spec rest r r' res : cached_from clock r rest = (r', res) →
  searched r r' ∧
  match res with
  | None => ∀ j, (j < length rest)%nat → forgotten r r' (cut_at rest j)
  | Some (cut, p) => ∃ i e, (i < length rest)%nat ∧ cut = cut_at rest i ∧ referrals r !! cut = Some e ∧
      ref_resp e = p ∧ (∃ m, (readings r ≤ m < readings r')%nat ∧ clock m < ref_expires e) ∧
      ∀ j, (j < i)%nat → forgotten r r' (cut_at rest j)
  end.
Proof using clock_mono.
  revert r. induction rest as [|l higher IH]; intros r; cbn [cached_from].
  { intros [= <- <-]. split; [|intros j Hj; simpl in Hj; lia]. split_and!; [done|done|auto]. }
  set (cut := to_lower (join "." (l :: higher))).
  destruct (referrals r !! cut) as [e|] eqn:E.
  - destruct (negb (now clock r <? ref_expires e)) eqn:Hexp; breflect.
    + (* expired: deleted, and the search goes on *)
      intros Hs. destruct (IH _ Hs) as [(H1 & H2 & H3) Hres]. simpl in H1, H2, H3.
      unfold now in Hexp.
      assert (Hdead : ¬ live r cut (clock (readings r'))).
      { intros (e' & He' & Hlt). rewrite E in He'. injection He' as <-.
        pose proof (clock_mono (readings r) (readings r') ltac:(lia)). lia. }
      assert (Hgone : referrals r' !! cut = None).
      { destruct (referrals r' !! cut) as [e'|] eqn:E'; [|done]. apply (lookup_weaken _ _ _ _ E') in H2.
        by rewrite lookup_delete_eq in H2. }
      assert (Hlive : ∀ k, live r k (clock (readings r')) → live (with_referrals (ticked r) (delete cut (referrals r))) k (clock (readings r'))).
      { intros k (e' & He' & Hlt). exists e'. split; [|done]. simpl. rewrite lookup_delete_ne; [done|].
        intros <-. apply Hdead. by exists e'. }
      assert (Hforgot : ∀ k, forgotten (with_referrals (ticked r) (delete cut (referrals r))) r' k → forgotten r r' k).
      { intros k [Hk ?]. split; [|done]. intros Hl. by apply Hk, Hlive. }
      split.
      { split_and!; [lia| |].
        - etrans; [exact H2|]. apply delete_subseteq.
        - intros k e' He' Hlt. apply H3; [|done]. rewrite lookup_delete_ne; [done|].
          intros <-. apply Hdead. by exists e'. }
      destruct res as [[cut' p]|].
      * destruct Hres as (i & e' & Hi & -> & He' & Hp & (m & Hm & Hlt) & Hj). simpl in He', Hm.
        exists (S i), e'. apply lookup_delete_Some in He' as [_ He'].
        split_and!; [simpl; lia|done|done|done|exists m; split; [lia|done]|].
        intros [|j] Hlt'; [done|]. apply Hforgot, Hj. lia.
      * intros [|j] Hlt'; [done|]. apply Hforgot, Hres. simpl in Hlt'. lia.
    + intros [= <- <-]. split.
      { split_and!; [simpl; lia|done|auto]. }
      exists O, e. split_and!; [simpl; lia|done|done|done|exists (readings r); simpl; split; [lia|done]|lia].
  - intros Hs. destruct (IH _ Hs) as [Hsr Hres]. split; [done|].
    assert (Hnone : forgotten r r' cut).
    { split; [intros (e' & He' & _); congruence|]. destruct Hsr as (_ & H2 & _).
      destruct (referrals r' !! cut) as [e'|] eqn:E'; [|done]. apply (lookup_weaken _ _ _ _ E') in H2. congruence. }
    destruct res as [[cut' p]|].
    + destruct Hres as (i & e' & Hi & Hc & He' & Hp & Hm & Hj). exists (S i), e'.
      split_and!; [simpl; lia|done|done|done|done|]. intros [|j] Hlt'; [done|]. apply Hj. lia.
    + intros [|j] Hlt'; [done|]. apply Hres. simpl in Hlt'. lia.
Qed.

(** C22: with a clock that does not go back, [cachedReferralLocked] yields the referral of
    the deepest zone cut strictly above the name that has not expired, or nothing when every
    cut above the name is unknown or expired; the cuts it passes on the way are not in the
    cache afterwards, and it forgets expired entries only. *)
Theorem cached_referral_deepest r name r' res :
  cachedReferralLocked clock r name = (r', res) →
  match res with
  | None => ∀ i, (0 < i < length (labels name))%nat → forgotten r r' (cut_at (labels name) i)
  | Some (cut, p) => ∃ i e, (0 < i < length (labels name))%nat ∧ cut = cut_at (labels name) i ∧
      referrals r !! cut = Some e ∧ ref_resp e = p ∧
      (∃ m, (readings r ≤ m < readings r')%nat ∧ clock m < ref_expires e) ∧
      ∀ j, (0 < j < i)%nat → forgotten r r' (cut_at (labels name) j)
  end ∧
  referrals r' ⊆ referrals r ∧
  ∀ k e, referrals r !! k = Some e → clock (readings r') < ref_expires e → referrals r' !! k = Some e.
Proof using clock_mono.
  unfold cachedReferralLocked. intros Hs. destruct (cached_from_spec _ _ _ _ Hs) as [(_ & H2 & H3) Hres].
  split; [|done]. destruct (labels name) as [|l rest]; simpl in *.
  { destruct res as [[cut p]|]; [|intros; lia]. destruct Hres as (i & e & Hi & _). lia. }
  destruct res as [[cut p]|].
  - destruct Hres as (i & e & Hi & Hc & He & Hp & Hm & Hj). exists (S i), e.
    split_and!; [lia|lia|done|done|done|done|]. intros [|j] Hlt; [lia|]. apply Hj. lia.
  - intros [|i] Hi; [lia|]. apply Hres. lia.
Qed.
End recursor.

(** ** Keys *)

Section keys.
Context `{HGo : GoUnicode} `{HNet : Netip}.

Definition ref_of (server : Nameserver) : NameserverRef :=
  {| RefName := to_lower (NameString (NsName server)); RefAddress := AddrString (Address server) |}.

Lemma parse_parts_keys servers :
  Forall (λ s, contains_byte "@" (AddrString (Address s)) = false) servers →
  parse_parts (key_part <$> servers) = Ok (ref_of <$> servers).
Proof.
  induction 1 as [|s servers Hs _ IH]; [done|]. rewrite fmap_cons. cbn [parse_parts].
  unfold key_part at 1. change ("@" +:+ AddrString (Address s)) with (String "@" (AddrString (Address s))).
  rewrite last_index_app by done. by rewrite IH.
Qed.

(** [parseCacheKey] reads back the keys of [cacheNameKey]: the name, and the servers in
    some order with their names in lower case, as long as the name has no bar, no server's
    part has a comma and no address an at sign. *)
Theorem cache_key_roundtrip name servers :
  contains_byte "|" (NameString name) = false →
  Forall (λ s, contains_byte "," (key_part s) = false ∧ contains_byte "@" (AddrString (Address s)) = false) servers →
  ∃ sorted, sorted ≡ₚ servers ∧
    parseCacheKey (cacheNameKey name servers) = Ok (NameString name, ref_of <$> sorted).
Proof.
  intros Hn Hs. destruct (decide (servers = [])) as [->|Hne].
  { exists []. split; [done|]. unfold cacheNameKey, parseCacheKey.
    rewrite (proj2 (has_prefix_iff "root|" _)) by eauto. by rewrite trim_prefix_app. }
  assert (Hex : ∃ sorted, sorted ≡ₚ servers ∧ merge_sort String.le (key_part <$> servers) = key_part <$> sorted).
  { pose proof (merge_sort_Permutation String.le (key_part <$> servers)) as Hp.
    apply Permutation_map_inv in Hp as (sorted & E & Hp). by exists sorted. }
  destruct Hex as (sorted & Hp & E). exists sorted. split; [done|].
  unfold cacheNameKey. destruct servers as [|s0 servers0]; [done|]. rewrite E. clear E.
  rewrite <- Hp in Hs.
  assert (Hsne : sorted ≠ []) by (intros ->; by apply Permutation_nil_cons in Hp).
  unfold parseCacheKey.
  assert (Hroot : ∀ x, has_prefix "root|" ("ns|" +:+ x) = false) by done. rewrite Hroot.
  rewrite (proj2 (has_prefix_iff "ns|" _)) by eauto. rewrite trim_prefix_app.
  change ("|" +:+ NameString name) with (String "|" (NameString name)).
  rewrite last_index_app by done. rewrite split_join.
  - rewrite parse_parts_keys; [done|]. eapply Forall_impl; [exact Hs|]. by intros ? [].
  - by destruct sorted.
  - apply Forall_fmap. eapply Forall_impl; [exact Hs|]. by intros ? [].
Qed.
End keys.

(** ** Witnesses *)

#[local] Existing Instance ascii_unicode.
#[local] Existing Instance text_addresses.
#[local] Existing Instance few_tables.
#[local] Existing Instance text_addr_eq.
#[local] Existing Instance text_addr_countable.

(** A name with a bar is read back wrongly: part of it ends up in the address. *)
Example bar_in_name :
  parseCacheKey (cacheNameKey (New "a|b") [{| NsName := New "n1"; Address := "192.0.2.1" |}]) =
    Ok ("b", [{| RefName := "n1"; RefAddress := "192.0.2.1|a" |}]).
Proof. vm_compute. reflexivity. Qed.

Lemma cache_key_roundtrip_witness :
  ∃ sorted, sorted ≡ₚ [{| NsName := New "N2"; Address := "192.0.2.2" |}; {| NsName := New "n1"; Address := "192.0.2.1" |}] ∧
    parseCacheKey (cacheNameKey (New "example.com.")
      [{| NsName := New "N2"; Address := "192.0.2.2" |}; {| NsName := New "n1"; Address := "192.0.2.1" |}]) =
    Ok (NameString (New "example.com."), ref_of <$> sorted).
Proof. apply cache_key_roundtrip; [reflexivity|repeat constructor]. Defined.

Definition demo_ops : list (@cache_op text_addresses) :=
  [Store "root|a" "A" "IN" (message 0 [] [] []); Lookup "root|a" "A" "IN"; StoreNegative "root|b" "A" "IN" None;
   Lookup "root|b" "A" "IN"].

Lemma cache_is_flat_map_witness :
  (run (cache_step Z.of_nat) (fresh ∅ 0) demo_ops).2 =
  (run (flat_step Z.of_nat) {| flat := ∅; at_reading := 0; ttl := 0 |} demo_ops).2.
Proof.
  destruct (cache_is_flat_map Z.of_nat (fresh ∅ 0) demo_ops) as [E _]; [reflexivity..|exact E].
Defined.

(** A cached referral to [com], and one to [example.com] that has expired. *)
Definition two_cuts : Recursor :=
  with_referrals (fresh ∅ 5)
    (<["com" := {| ref_resp := message 0 [] [rr_of "com." 60 (RNS "a.gtld.")] []; ref_expires := 100 |}]>
      {["example.com" := {| ref_resp := no_packet; ref_expires := 3 |}]}).

Lemma cached_referral_deepest_witness :
  ∃ r' p, cachedReferralLocked Z.of_nat two_cuts (New "www.example.com") = (r', Some ("com", p)) ∧
    referrals r' ⊆ referrals two_cuts.
Proof.
  eexists _, _. split; [vm_compute; reflexivity|].
  eapply (cached_referral_deepest Z.of_nat ltac:(intros; lia) two_cuts (New "www.example.com")).
  vm_compute. reflexivity.
Defined.
