(* ===== verification/Access.v ===== *)
(** * Who may use the server: [server/auth.go], [security.go], [public_auth.go]

    The middleware between the router and the handlers: admin tokens, their cookie, the check
    of [Origin], the host check of a server without tokens, the gate before the public pages,
    and the place of the rate limiter among them ([server/server.go], [routes]).  A handler
    takes a request and the state of the limiters; what lies behind the middleware is the
    constructor [Handled], which holds the request the handler gets.

    Which mount a path belongs to is the router of [net/http], and an argument.  Of a request
    the model has what the middleware reads; cookies are read from their header lines as
    [net/http] does.  Request identifiers, logs, metrics and panics are left out.  SHA-256,
    [url.Parse] and [net.ParseIP] are parameters. *)

From S2P Require Import Prelude GoStrings RateLimit.

Local Open Scope string_scope.
Local Open Scope Z_scope.
Local Open Scope list_scope.

(** ** What the middleware reads *)

(** A [url.URL]. *)
Record URL := { Scheme : string; URLHost : string }.

Class WebLib := {
  (* [crypto/sha256.Sum256] *)
  Sha256 : string → string;
  (* [net/url.Parse] *)
  ParseURL : string → option URL;
  (* [net.ParseIP(s).String()] *)
  CanonIP : string → option string
}.

(** [FormToken] is the value of [token] in a form body that parses, [JSONToken] the one in a
    JSON body. *)
Record Request := {
  Method : string;
  Path : string;
  Host : string;
  RemoteAddr : string;
  TLS : bool;
  Header : gmap string (list string);
  FormToken : option string;
  JSONToken : option string
}.

Definition with_header (r : Request) (h : gmap string (list string)) : Request :=
  {| Method := Method r; Path := Path r; Host := Host r; RemoteAddr := RemoteAddr r; TLS := TLS r;
     Header := h; FormToken := FormToken r; JSONToken := JSONToken r |}.

(** [r.Header.Get] *)
Definition header (r : Request) (name : string) : string :=
  match Header r !! name with Some (v :: _) => v | _ => "" end.

(** [Config], [AuthConfig], [AdminToken]; scopes are reserved. *)
Record AdminToken := { Label : string; Hash : string }.
Record AuthConfig := { AdminTokens : list AdminToken; ProtectPublic : bool }.
Record Config := { ListenAddr : string; PublicURL : string }.

(** ** Token sets *)

Record adminToken := { label : string; hash : string }.
Record tokenSet := { enabled : bool; protectPublic : bool; tokens : list adminToken }.

(** [encoding/hex] *)
Definition hex_digit (n : N) : ascii := ascii_of_N (if n <? 10 then 48 + n else 87 + n)%N.
Fixpoint EncodeToString (s : string) : string :=
  match s with
  | "" => ""
  | String c rest => String (hex_digit (byte_code c / 16)) (String (hex_digit (byte_code c mod 16)) (EncodeToString rest))
  end.
Definition hex_value (c : ascii) : option N :=
  let n := byte_code c in
  if ((48 <=? n) && (n <=? 57))%N then Some (n - 48)%N
  else if ((97 <=? n) && (n <=? 102))%N then Some (n - 87)%N
  else if ((65 <=? n) && (n <=? 70))%N then Some (n - 55)%N
  else None.
Fixpoint DecodeString (s : string) : option string :=
  match s with
  | "" => Some ""
  | String a (String b rest) =>
      x ← hex_value a; y ← hex_value b; t ← DecodeString rest;
      Some (String (ascii_of_N (16 * x + y)) t)
  | String _ "" => None
  end.

Definition tokenHashPrefix : string := "sha256:".

Inductive token_error :=
| WrongPrefix | NotHex | WrongSize
| AtToken (i : nat) (l : string) (e : token_error)
| ProtectNeedsTokens.

Section access.
Context `{GoUnicode} `{Netip} `{WebLib}.

Definition hashToken (plaintext : string) : string := tokenHashPrefix +:+ EncodeToString (Sha256 plaintext).

Definition parseTokenHash (s : string) : result string token_error :=
  let s := trim_space s in
  if has_prefix tokenHashPrefix s then
    match DecodeString (trim_prefix s tokenHashPrefix) with
    | None => Err NotHex
    | Some raw => if (String.length raw =? 32)%nat then Ok raw else Err WrongSize
    end
  else Err WrongPrefix.

(** The loop of [newTokenSet]. *)
Fixpoint parse_tokens (i : nat) (l : list AdminToken) : result (list adminToken) token_error :=
  match l with
  | [] => Ok []
  | t :: rest =>
      match parseTokenHash (Hash t) with
      | Err e => Err (AtToken i (Label t) e)
      | Ok raw => let? ts := parse_tokens (S i) rest in Ok ({| label := Label t; hash := raw |} :: ts)
      end
  end.

Definition newTokenSet (cfg : AuthConfig) : result tokenSet token_error :=
  let? ts := parse_tokens 0 (AdminTokens cfg) in
  let on := negb (bool_decide (length ts = 0%nat)) in
  if ProtectPublic cfg && negb on then Err ProtectNeedsTokens
  else Ok {| enabled := on; protectPublic := ProtectPublic cfg; tokens := ts |}.

Definition open_mode : tokenSet := {| enabled := false; protectPublic := false; tokens := [] |}.

(** The set a new server starts with. *)
Definition start_tokens (cfg : AuthConfig) : tokenSet :=
  match newTokenSet cfg with Ok ts => ts | Err _ => open_mode end.

(** [ReloadAuth] *)
Definition ReloadAuth (ts : tokenSet) (cfg : AuthConfig) : tokenSet * option token_error :=
  match newTokenSet cfg with Ok ts' => (ts', None) | Err e => (ts, Some e) end.

(** [match]: all tokens are compared, the last one that matches gives the label. *)
Definition match_token (ts : tokenSet) (plaintext : string) : option string :=
  foldl (λ found t, if bool_decide (Sha256 plaintext = hash t) then Some (label t) else found) None (tokens ts).

Definition matches (ts : tokenSet) (plaintext : string) : bool := bool_decide (is_Some (match_token ts plaintext)).

Definition protects (ts : tokenSet) : bool := enabled ts && protectPublic ts.

(** ** Credentials *)

Definition adminCookieName : string := "gm_admin".

(** Cookies as [net/http] writes and reads them. *)
Definition validCookieValueByte (c : ascii) : bool :=
  let n := byte_code c in
  ((32 <=? n) && (n <? 127))%N && negb (bool_decide (n ∈ [34; 59; 92]%N)).

Fixpoint keep_bytes (f : ascii → bool) (s : string) : string :=
  match s with
  | "" => ""
  | String c rest => if f c then String c (keep_bytes f rest) else keep_bytes f rest
  end.

Definition quote : string := String (ascii_of_N 34) "".

Definition sanitizeCookieValue (v : string) : string :=
  let v := keep_bytes validCookieValueByte v in
  if decide (v = "") then v
  else if contains_byte " " v || contains_byte "," v then quote +:+ v +:+ quote
  else v.

Definition parseCookieValue (raw : string) : option string :=
  let raw :=
    if (1 <? String.length raw)%nat && has_prefix quote raw && has_suffix quote raw
    then trim_suffix (trim_prefix raw quote) quote else raw in
  if string_forallb validCookieValueByte raw then Some raw else None.

(** [textproto.TrimString] *)
Definition trim_ascii (s : string) : string := trim_with (map bytes [[32]; [9]; [10]; [13]]%N) s.

(** The value of a part of a [Cookie] line, when its name is [name]. *)
Definition cookie_part (name part : string) : option string :=
  let part := trim_ascii part in
  if decide (part = "") then None
  else let '(n, v) := match first_index "=" part with Some nv => nv | None => (part, "") end in
       if decide (trim_ascii n = name) then parseCookieValue v else None.

(** [r.Cookie(name)] *)
Definition Cookie (r : Request) (name : string) : option string :=
  head (omap (cookie_part name) (flat_map (split ";") (default [] (Header r !! "Cookie")))).

Definition credentialToken (r : Request) : string :=
  let auth := header r "Authorization" in
  if has_prefix "Bearer " auth then trim_space (trim_prefix auth "Bearer ")
  else default "" (Cookie r adminCookieName).

Definition allows (ts : tokenSet) (r : Request) : bool :=
  let tok := credentialToken r in
  if decide (tok = "") then false else matches ts tok.

(** ** Origins and hosts *)

Definition remoteIsTrusted (remoteAddr : string) (trusted : list Prefix) : bool :=
  if decide (length trusted = 0%nat) then false
  else match ParseAddr (remote_host remoteAddr) with
       | None => false
       | Some addr => ipInPrefixes addr trusted
       end.

Definition requestScheme (r : Request) (trusted : list Prefix) : string :=
  if TLS r then "https"
  else if remoteIsTrusted (RemoteAddr r) trusted
          && bool_decide (to_lower (trim_space (header r "X-Forwarded-Proto")) = "https")
  then "https" else "http".

Definition defaultPortForScheme (scheme : string) : string :=
  let s := to_lower (trim_space scheme) in
  if decide (s = "http") then "80" else if decide (s = "https") then "443" else "".

(** [None] is [errCSRFMismatch]. *)
Definition normalizedHostPort (hostport scheme : string) : option (string * string) :=
  let hostport := trim_space hostport in
  if decide (hostport = "") then None
  else
    let parsed := match SplitHostPort hostport with
                  | Ok hp => Some hp
                  | Err e => if contains e "missing port in address" then Some (hostport, "") else None
                  end in
    match parsed with
    | None => None
    | Some (host, port) =>
        let host := trim_space (trim_suffix (trim_prefix host "[") "]") in
        if decide (host = "") then None
        else
          let host := to_lower (default host (CanonIP host)) in
          Some (host, if decide (port = "") then defaultPortForScheme scheme else port)
    end.

(** Is the request free of errors? *)
Definition validateCSRFOrigin (r : Request) (trusted : list Prefix) : bool :=
  let origin := trim_space (header r "Origin") in
  if decide (origin = "") then true
  else if EqualFold origin "null" then false
  else match ParseURL origin with
       | None => false
       | Some u =>
           if decide (URLHost u = "" ∨ Scheme u = "") then false
           else if negb (bool_decide (Scheme u = "http" ∨ Scheme u = "https")) then false
           else match normalizedHostPort (URLHost u) (Scheme u),
                      normalizedHostPort (Host r) (requestScheme r trusted) with
                | Some (originHost, originPort), Some (reqHost, reqPort) =>
                    EqualFold originHost reqHost && bool_decide (originPort = reqPort)
                | _, _ => false
                end
       end.

(** [URL.Hostname] *)
Definition Hostname (u : URL) : string :=
  let host := match last_index ":" (URLHost u) with
              | Some (h, p) => if string_forallb is_digit_byte p then h else URLHost u
              | None => URLHost u
              end in
  if has_prefix "[" host && has_suffix "]" host then trim_suffix (trim_prefix host "[") "]" else host.

Definition openModeHostAllowed (host : string) (cfg : Config) : bool :=
  let name := match SplitHostPort host with Ok (h, _) => h | Err _ => host end in
  let name := trim_suffix (to_lower (trim_with ["["; "]"] name)) "." in
  if decide (name = "") then true
  else if bool_decide (is_Some (ParseAddr name)) then true
  else if bool_decide (name = "localhost") || has_suffix ".localhost" name then true
  else if match SplitHostPort (ListenAddr cfg) with Ok (h, _) => EqualFold h name | Err _ => false end then true
  else match ParseURL (PublicURL cfg) with
       | Some u => EqualFold (trim_suffix (Hostname u) ".") name && negb (bool_decide (Hostname u = ""))
       | None => false
       end.

(** The cookie is marked secure. *)
Definition secureCookie (r : Request) (cfg : Config) (trusted : list Prefix) : bool :=
  if decide (requestScheme r trusted = "https") then true
  else match ParseURL (PublicURL cfg) with
       | Some u =>
           if negb (bool_decide (Scheme u = "https")) then false
           else match normalizedHostPort (Host r) "http" with
                | Some (host, _) => EqualFold (Hostname u) host
                | None => false
                end
       | None => false
       end.

(** ** Handlers *)

(** What the client gets: an error of the API, a limit, a page, the result of a login, or
    what the handler behind the middleware answers, with [private] caching when it is
    rewritten. *)
Inductive response :=
| ErrorResponse (status : Z) (code : string)
| TooManyRequests (retryAfter : Z)
| AssetRefused
| LoginPage (failed : bool)
| LoginCSS
| SetCookie (value : string) (secure : bool)
| ClearCookie
| Who (mode : string) (authenticated : bool)
| Handled (private : bool) (r : Request).

(** [None] is a panic of [RateLimiter.Allow]. *)
Definition handler : Type := Request → limiters → option (limiters * response).

Definition respond (x : response) : handler := λ _ l, Some (l, x).

Context (cfg : Config) (trustedProxies : list Prefix) (now : Z).

Definition safe_method (m : string) : bool := bool_decide (m ∈ ["GET"; "HEAD"; "OPTIONS"]).

(** [enforceCSRF] before [next] *)
Definition enforceCSRF (next : handler) : handler := λ r,
  if validateCSRFOrigin r trustedProxies then next r
  else respond (ErrorResponse 403 "csrf_origin_mismatch") r.

Definition csrfMiddleware (next : handler) : handler := λ r,
  if safe_method (Method r) then next r else enforceCSRF next r.

(** [requireToken] before [next] *)
Definition requireToken (ts : tokenSet) (next : handler) : handler := λ r,
  let tok := credentialToken r in
  if negb (bool_decide (tok = "")) && matches ts tok then next r
  else respond (ErrorResponse 401 "unauthorized") r.

Definition authExemptPath (p : string) : bool :=
  bool_decide (p ∈ ["/api/v1/healthz"; "/api/v1/readyz"; "/api/v1/whoami"; "/api/v1/session"]).

Definition authMiddleware (ts : tokenSet) (next : handler) : handler := λ r,
  if negb (enabled ts) then
    if openModeHostAllowed (Host r) cfg then next r
    else respond (ErrorResponse 403 "host_not_allowed") r
  else if authExemptPath (Path r) then next r
  else requireToken ts next r.

(** The rewriting of [privateCacheWriter] around [next]. *)
Definition privately (next : handler) : handler := λ r l,
  match next r l with
  | Some (l, Handled _ r) => Some (l, Handled true r)
  | x => x
  end.

Definition publicAPIAuthMiddleware (ts : tokenSet) (next : handler) : handler := λ r,
  if negb (protects ts) then next r
  else requireToken ts
         (λ r, if safe_method (Method r) then privately next r else enforceCSRF (privately next) r) r.

(** [path.Ext]: from the last dot of the last element on. *)
Definition path_ext (p : string) : string :=
  let base := match last_index "/" p with Some (_, b) => b | None => p end in
  match last_index "." base with Some (_, e) => String "." e | None => "" end.

Definition staticAssetExts : list string :=
  [".js"; ".mjs"; ".css"; ".map"; ".svg"; ".png"; ".jpg"; ".jpeg"; ".webp"; ".gif"; ".ico";
   ".webmanifest"; ".woff"; ".woff2"; ".ttf"; ".otf"].
Definition isStaticAsset (requestPath : string) : bool := bool_decide (to_lower (path_ext requestPath) ∈ staticAssetExts).

Definition adminCookie (r : Request) (value : string) : response :=
  SetCookie (sanitizeCookieValue value) (secureCookie r cfg trustedProxies).

Definition handlePageLogin (ts : tokenSet) : handler :=
  enforceCSRF (λ r,
    let tok := trim_space (default "" (FormToken r)) in
    if decide (tok = "") then respond (LoginPage true) r
    else if matches ts tok then respond (adminCookie r tok) r
    else respond (LoginPage true) r).

Definition publicPageGate (ts : tokenSet) (prefix : string) (next : handler) : handler := λ r,
  if negb (protects ts) then next r
  else if decide (Method r = "POST") then handlePageLogin ts r
  else if decide (Path r = prefix +:+ "/_auth/login.css" ∧ (Method r = "GET" ∨ Method r = "HEAD"))
  then respond LoginCSS r
  else if allows ts r then privately next r
  else if isStaticAsset (Path r) then respond AssetRefused r
  else respond (LoginPage false) r.

Definition handleWhoami (ts : tokenSet) : handler := λ r,
  if negb (enabled ts) then respond (Who "open" true) r
  else respond (Who "token" (matches ts (credentialToken r))) r.

Definition handleSession (ts : tokenSet) : handler := λ r,
  if decide (Method r = "POST") then
    match JSONToken r with
    | None => respond (ErrorResponse 400 "invalid_request") r
    | Some tok =>
        if negb (enabled ts) then respond (Who "open" true) r
        else if matches ts tok then respond (adminCookie r tok) r
        else respond (ErrorResponse 401 "unauthorized") r
    end
  else if decide (Method r = "DELETE") then respond ClearCookie r
  else respond (ErrorResponse 405 "method_not_allowed") r.

(** [rateLimitMiddleware] and [limitGET]. *)
Definition rateLimitMiddleware (next : handler) : handler := λ r l,
  if decide (Method r = "POST") then
    match allowRequest (RemoteAddr r) (header r "X-Forwarded-For") now trustedProxies (rateLimiter l) with
    | None => None
    | Some (rl, refused) =>
        let l := {| rateLimiter := rl; getRateLimiter := getRateLimiter l |} in
        match refused with Some ra => Some (l, TooManyRequests ra) | None => next r l end
    end
  else next r l.
Definition limitGET (next : handler) : handler := λ r l,
  match allowRequest (RemoteAddr r) (header r "X-Forwarded-For") now trustedProxies (getRateLimiter l) with
  | None => None
  | Some (rl, refused) =>
      let l := {| rateLimiter := rateLimiter l; getRateLimiter := rl |} in
      match refused with Some ra => Some (l, TooManyRequests ra) | None => next r l end
  end.

(** *** The mounts of [routes] *)

(** The routes behind a mount: of the admin API the two that log in, the others of each
    surface, [metered] when they are wrapped in [limitGET]; and the pages without a gate. *)
Inductive mount :=
| AdminAPI | Whoami | Session
| PublicAPI (metered : bool)
| PublicPages (metered : bool)
| AnalysisPages
| Ungated.

Definition behind (metered : bool) : handler := if metered then limitGET (λ r l, Some (l, Handled false r)) else λ r l, Some (l, Handled false r).

Definition mux (ts : tokenSet) (m : mount) : handler :=
  match m with
  | AdminAPI => authMiddleware ts (csrfMiddleware (behind false))
  | Whoami => authMiddleware ts (csrfMiddleware (handleWhoami ts))
  | Session => authMiddleware ts (csrfMiddleware (handleSession ts))
  | PublicAPI metered => publicAPIAuthMiddleware ts (rateLimitMiddleware (behind metered))
  | PublicPages metered => publicPageGate ts "/public" (behind metered)
  | AnalysisPages => publicPageGate ts "/analysis" (behind false)
  | Ungated => behind false
  end.

Definition forwardedHeaders : list string := ["X-Forwarded-For"; "X-Forwarded-Host"; "X-Forwarded-Proto"].

(** The loop of [stripUntrustedForwardedHeaders]. *)
Definition strip_headers (r : Request) : Request :=
  foldl (λ r h, if decide (header r h = "") then r else with_header r (delete h (Header r))) r forwardedHeaders.

Definition stripUntrustedForwardedHeaders (next : handler) : handler := λ r,
  next (if remoteIsTrusted (RemoteAddr r) trustedProxies then r else strip_headers r).

(** [Server.Handler] *)
Definition Handler (ts : tokenSet) (m : mount) : handler := stripUntrustedForwardedHeaders (mux ts m).

(** ** The MCP endpoint *)

(** The request [inprocTransport.RoundTrip] makes of [req] on behalf of [outer]. *)
Definition inproc_request (outer req : Request) : Request :=
  let h := delete "Authorization" (Header req) in
  let auth := header outer "Authorization" in
  {| Method := Method req; Path := Path req; Host := Host outer; RemoteAddr := RemoteAddr outer; TLS := TLS req;
     Header := if decide (auth = "") then h else <["Authorization" := [auth]]> h;
     FormToken := FormToken req; JSONToken := JSONToken req |}.

(** [mcpHandler] with [next] in place of the tools. *)
Definition mcpHandler (ts : tokenSet) (MCPEnabled : bool) (next : handler) : handler := λ r,
  if negb MCPEnabled then respond (ErrorResponse 404 "not_found") r
  else if enabled ts && negb (has_prefix "Bearer " (header r "Authorization"))
  then respond (ErrorResponse 401 "unauthorized") r
  else next r.
End access.
