(* ===== verification/AccessFacts.v ===== *)
(** * Facts about the access to the server

    For the definitions of [Access]: which requests pass the gates, which origins pass the
    check, that forwarded headers of strangers have no effect, and that a login lasts. *)

From S2P Require Import Prelude GoStrings RateLimit Access.

Local Open Scope string_scope.
Local Open Scope Z_scope.
Local Open Scope list_scope.

(** ** Hexadecimal digests *)

Lemma hex_byte c : hex_value (hex_digit (byte_code c / 16)) = Some (byte_code c / 16)%N ∧
  hex_value (hex_digit (byte_code c mod 16)) = Some (byte_code c mod 16)%N ∧
  ascii_of_N (16 * (byte_code c / 16) + byte_code c mod 16) = c ∧
  graphic (hex_digit (byte_code c / 16)) = true ∧ graphic (hex_digit (byte_code c mod 16)) = true.
Proof. destruct c as [[] [] [] [] [] [] [] []]; vm_compute; auto. Qed.

Lemma decode_encode s : DecodeString (EncodeToString s) = Some s.
Proof.
  induction s as [|c s IH]; [done|]. destruct (hex_byte c) as (H1 & H2 & H3 & _).
  cbn [EncodeToString DecodeString]. rewrite H1, H2, IH. cbn [mbind option_bind]. by rewrite H3.
Qed.

Lemma encode_graphic s : string_forallb graphic (EncodeToString s) = true.
Proof.
  induction s as [|c s IH]; [done|]. destruct (hex_byte c) as (_ & _ & _ & H1 & H2).
  cbn [EncodeToString string_forallb]. by rewrite H1, H2, IH.
Qed.

Section access.
Context `{GoUnicode} `{HNet : Netip} `{WebLib}.

(** ** Token sets *)

(** The digest of [tok] is that of a configured token. *)
Definition valid_token (ac : AuthConfig) (tok : string) : Prop :=
  ∃ a, a ∈ AdminTokens ac ∧ parseTokenHash (Hash a) = Ok (Sha256 tok).

Lemma parse_hash tok : String.length (Sha256 tok) = 32%nat → parseTokenHash (hashToken tok) = Ok (Sha256 tok).
Proof.
  intros Hl. unfold parseTokenHash, hashToken.
  rewrite trim_space_graphic by (rewrite string_forallb_app, encode_graphic; reflexivity).
  rewrite (proj2 (has_prefix_iff tokenHashPrefix _)) by eauto.
  by rewrite trim_prefix_app, decode_encode, Hl.
Qed.

Lemma parse_tokens_spec i l ts : parse_tokens i l = Ok ts →
  Forall2 (λ a t, parseTokenHash (Hash a) = Ok (hash t) ∧ label t = Label a) l ts.
Proof.
  revert i ts. induction l as [|a l IH]; intros i ts; simpl; [intros [= <-]; constructor|].
  destruct (parseTokenHash (Hash a)) eqn:E; [|done].
  destruct (parse_tokens (S i) l) eqn:E2; simpl; [|done]. intros [= <-]. constructor; eauto.
Qed.

Lemma matches_spec ts tok : matches ts tok = true ↔ ∃ t, t ∈ tokens ts ∧ hash t = Sha256 tok.
Proof.
  unfold matches, match_token. rewrite bool_decide_eq_true.
  enough (Hgen : ∀ l o, is_Some (foldl (λ found t, if bool_decide (Sha256 tok = hash t) then Some (label t) else found) o l)
    ↔ is_Some o ∨ ∃ t, t ∈ l ∧ hash t = Sha256 tok).
  { rewrite Hgen. split; [intros [[? [=]]|]; done|by right]. }
  induction l as [|t l IH]; intros o; simpl.
  - split; [by left|]. by intros [|(? & ?%elem_of_nil & _)].
  - rewrite IH. case_bool_decide as E.
    + split; [|intros _; left; eauto]. intros _. right. exists t. split; [left|done].
    + split; [intros [?|(u & Hu & ?)]; [by left|right; exists u; split; [by right|done]]|].
      intros [?|(u & [->|Hu]%elem_of_cons & Hh)]; [by left|by rewrite Hh in E|right; eauto].
Qed.

Lemma tokens_valid ac l tok :
  Forall2 (λ a t, parseTokenHash (Hash a) = Ok (hash t) ∧ label t = Label a) (AdminTokens ac) l →
  (∃ t, t ∈ l ∧ hash t = Sha256 tok) ↔ valid_token ac tok.
Proof.
  intros E. unfold valid_token. split; intros (x & Hx & Hh); apply list_elem_of_lookup in Hx as [i Hi].
  - destruct (Forall2_lookup_r _ _ _ _ _ E Hi) as (a & Ha & Hpa & _). exists a.
    split; [by apply list_elem_of_lookup_2 in Ha|by rewrite Hpa, Hh].
  - destruct (Forall2_lookup_l _ _ _ _ _ E Hi) as (t & Ht & Hpt & _). exists t.
    split; [by apply list_elem_of_lookup_2 in Ht|congruence].
Qed.

Lemma token_set_ok ac ts : newTokenSet ac = Ok ts →
  (enabled ts = true ↔ AdminTokens ac ≠ []) ∧ protectPublic ts = ProtectPublic ac ∧
  (ProtectPublic ac = true → enabled ts = true) ∧
  ∀ tok, matches ts tok = true ↔ valid_token ac tok.
Proof.
  unfold newTokenSet. destruct (parse_tokens 0 (AdminTokens ac)) as [l|e] eqn:E; simpl; [|done].
  apply parse_tokens_spec in E. pose proof (Forall2_length _ _ _ E) as Hlen.
  destruct (ProtectPublic ac && _) eqn:Hz; [done|]. intros [= <-]. simpl. split_and!.
  - rewrite negb_true_iff, bool_decide_eq_false, <- Hlen. destruct (AdminTokens ac); naive_solver.
  - done.
  - intros Hp. rewrite Hp in Hz. simpl in Hz. by destruct (bool_decide _).
  - intros tok. rewrite matches_spec. simpl. by apply tokens_valid.
Qed.

(** ** The gates *)

Context (cfg : Config) (trusted : list Prefix) (now : Z).

(** Requests to these mounts need a token: with tokens the whole admin API, apart from the
    exempt paths, and in protected mode the public surfaces. *)
Definition needs_token (ac : AuthConfig) (m : mount) (r : Request) : Prop :=
  match m with
  | AdminAPI | Whoami | Session => AdminTokens ac ≠ [] ∧ authExemptPath (Path r) = false
  | PublicAPI _ | PublicPages _ | AnalysisPages => ProtectPublic ac = true
  | Ungated => False
  end.

(** Stripping removes headers of the three names, and a header it leaves has no value. *)
Lemma strip_spec r :
  let r' := strip_headers r in
  Method r' = Method r ∧ Path r' = Path r ∧ Host r' = Host r ∧ RemoteAddr r' = RemoteAddr r ∧ TLS r' = TLS r ∧
  FormToken r' = FormToken r ∧ JSONToken r' = JSONToken r ∧
  (∀ h, h ∉ forwardedHeaders → Header r' !! h = Header r !! h) ∧
  (∀ h, h ∈ forwardedHeaders → header r' h = "").
Proof.
  unfold strip_headers, forwardedHeaders. cbn [foldl].
  enough (Hs : ∀ r h0, let r' := if decide (header r h0 = "") then r else with_header r (delete h0 (Header r)) in
    Method r' = Method r ∧ Path r' = Path r ∧ Host r' = Host r ∧ RemoteAddr r' = RemoteAddr r ∧ TLS r' = TLS r ∧
    FormToken r' = FormToken r ∧ JSONToken r' = JSONToken r ∧
    (∀ h, h ≠ h0 → Header r' !! h = Header r !! h) ∧ header r' h0 = "").
  { set (r1 := if decide (header r "X-Forwarded-For" = "") then _ else _).
    set (r2 := if decide (header r1 "X-Forwarded-Host" = "") then _ else _).
    set (r3 := if decide (header r2 "X-Forwarded-Proto" = "") then _ else _).
    destruct (Hs r "X-Forwarded-For") as (A1 & A2 & A3 & A4 & A5 & A6 & A7 & A8 & A9).
    destruct (Hs r1 "X-Forwarded-Host") as (B1 & B2 & B3 & B4 & B5 & B6 & B7 & B8 & B9).
    destruct (Hs r2 "X-Forwarded-Proto") as (C1 & C2 & C3 & C4 & C5 & C6 & C7 & C8 & C9).
    fold r1 in A1, A2, A3, A4, A5, A6, A7, A8, A9. fold r2 in B1, B2, B3, B4, B5, B6, B7, B8, B9.
    fold r3 in C1, C2, C3, C4, C5, C6, C7, C8, C9.
    assert (Hk : ∀ a b h, (Header a !! h = Header b !! h) → header b h = "" → header a h = "").
    { unfold header. by intros a b h ->. }
    split_and!; try congruence.
    - intros h Hh. rewrite !not_elem_of_cons in Hh. rewrite C8, B8, A8 by naive_solver. done.
    - intros h Hh. rewrite !elem_of_cons in Hh. destruct Hh as [->|[->|[->|[]%elem_of_nil]]]; [| |done].
      + by apply (Hk _ r2); [apply C8|apply (Hk _ r1); [apply B8|]].
      + by apply (Hk _ r2); [apply C8|]. }
  intros r0 h0. simpl. destruct (decide (header r0 h0 = "")); simpl; split_and!; try done.
  - intros h Hh. by rewrite lookup_delete_ne by done.
  - unfold header. simpl. by rewrite lookup_delete_eq.
Qed.

(** The credential does not depend on the headers of proxies. *)
Lemma credential_ext r r' :
  (∀ h, h ∉ forwardedHeaders → Header r' !! h = Header r !! h) → credentialToken r' = credentialToken r.
Proof.
  intros Hh. unfold credentialToken, Cookie, header.
  by rewrite !Hh by (unfold forwardedHeaders; rewrite !not_elem_of_cons, elem_of_nil; naive_solver).
Qed.

Ltac ok_answer := eexists; split; [reflexivity|exact I].

(** A request without a valid token is refused by [requireToken] and [allows]. *)
Lemma require_refuses ac ts next r l :
  newTokenSet ac = Ok ts → (credentialToken r = "" ∨ ¬ valid_token ac (credentialToken r)) →
  requireToken ts next r l = Some (l, ErrorResponse 401 "unauthorized") ∧ allows ts r = false.
Proof.
  intros Ht Hc. destruct (token_set_ok ac ts Ht) as (_ & _ & _ & Hm).
  unfold requireToken, allows. destruct (decide (credentialToken r = "")) as [E|E].
  { by rewrite bool_decide_eq_true_2. }
  destruct Hc as [?|Hv]; [done|]. rewrite bool_decide_eq_false_2 by done. simpl.
  destruct (matches ts (credentialToken r)) eqn:Em; [|done]. by apply Hm in Em.
Qed.

(** C6: with admin tokens configured no request without a valid one gets behind the gates:
    not to the admin API, apart from the exempt paths, and in protected mode not to the
    public API and pages.  It costs nothing of the limits, and what it gets is an error or
    the login page, or a cookie for a valid token in a login form from the same origin. *)
Theorem gates_need_token ac ts m r l :
  newTokenSet ac = Ok ts → needs_token ac m r →
  (credentialToken r = "" ∨ ¬ valid_token ac (credentialToken r)) →
  ∃ x, Handler cfg trusted now ts m r l = Some (l, x) ∧
    match x with
    | ErrorResponse _ _ | LoginPage _ | LoginCSS | AssetRefused => True
    | SetCookie _ _ => Method r = "POST" ∧ valid_token ac (trim_space (default "" (FormToken r))) ∧
        ∃ r', Header r' !! "Origin" = Header r !! "Origin" ∧ validateCSRFOrigin r' trusted = true
    | _ => False
    end.
Proof.
  intros Ht Hn Hc. destruct (token_set_ok ac ts Ht) as (He & Hp & Hpe & Hm).
  unfold Handler, stripUntrustedForwardedHeaders.
  set (r1 := if remoteIsTrusted (RemoteAddr r) trusted then r else strip_headers r).
  assert (Hr1 : Method r1 = Method r ∧ Path r1 = Path r ∧ FormToken r1 = FormToken r ∧
    credentialToken r1 = credentialToken r ∧ Header r1 !! "Origin" = Header r !! "Origin").
  { unfold r1. destruct (remoteIsTrusted _ _); [done|].
    destruct (strip_spec r) as (? & ? & _ & _ & _ & ? & _ & Hh & _). split_and!; try done.
    - by apply credential_ext.
    - apply Hh. unfold forwardedHeaders. rewrite !not_elem_of_cons, elem_of_nil. naive_solver. }
  destruct Hr1 as (Em & Epath & Ef & Ec & Eo). rewrite <- Ec in Hc.
  assert (Hr : ∀ next, requireToken ts next r1 l = Some (l, ErrorResponse 401 "unauthorized"))
    by (intros next; exact (proj1 (require_refuses ac ts next r1 l Ht Hc))).
  assert (Ha : allows ts r1 = false) by exact (proj2 (require_refuses ac ts (respond LoginCSS) r1 l Ht Hc)).
  assert (Hadmin : ∀ next, AdminTokens ac ≠ [] → authExemptPath (Path r) = false →
    authMiddleware cfg ts next r1 l = Some (l, ErrorResponse 401 "unauthorized")).
  { intros next Hne Hex. unfold authMiddleware. rewrite (proj2 He Hne), Epath, Hex. apply Hr. }
  assert (Hprot : ProtectPublic ac = true → protects ts = true).
  { intros Hpp. unfold protects. by rewrite (Hpe Hpp), Hp. }
  assert (Hpage : ∀ prefix next, ProtectPublic ac = true →
    ∃ x, publicPageGate cfg trusted ts prefix next r1 l = Some (l, x) ∧
    match x with
    | ErrorResponse _ _ | LoginPage _ | LoginCSS | AssetRefused => True
    | SetCookie _ _ => Method r = "POST" ∧ valid_token ac (trim_space (default "" (FormToken r))) ∧
        ∃ r', Header r' !! "Origin" = Header r !! "Origin" ∧ validateCSRFOrigin r' trusted = true
    | _ => False
    end).
  { intros prefix next Hpp. unfold publicPageGate. rewrite (Hprot Hpp), Ha, Em, Epath. simpl.
    unfold respond. case_decide as Epost.
    - unfold handlePageLogin, enforceCSRF, respond, adminCookie. rewrite Ef.
      destruct (validateCSRFOrigin r1 trusted) eqn:Eorigin; [|by ok_answer].
      case_decide; [by ok_answer|]. destruct (matches ts _) eqn:Ematch; [|by ok_answer].
      eexists. split; [done|]. simpl. split_and!; [done|by apply Hm|by eauto].
    - case_decide; [by ok_answer|]. destruct (isStaticAsset _); by ok_answer. }
  destruct m; simpl in Hn |- *; try (rewrite (Hadmin _ (proj1 Hn) (proj2 Hn)); by ok_answer);
    try (by apply Hpage); [|done].
  unfold publicAPIAuthMiddleware. rewrite (Hprot Hn). simpl. rewrite Hr. by ok_answer.
Qed.

(** ** Forwarded headers *)

Definition drop_forwarded (r : Request) : Request := with_header r (foldr delete (Header r) forwardedHeaders).

(** What is left to see of an answer. *)
Definition blind (x : limiters * response) : limiters * response :=
  match x with (l, Handled p r) => (l, Handled p (drop_forwarded r)) | _ => x end.

Definition alike (r1 r2 : Request) : Prop :=
  drop_forwarded r1 = drop_forwarded r2 ∧ ∀ h, h ∈ forwardedHeaders → header r1 h = header r2 h.

Lemma dropped_lookup r h : h ∉ forwardedHeaders → Header (drop_forwarded r) !! h = Header r !! h.
Proof.
  intros Hh. unfold drop_forwarded. simpl. unfold forwardedHeaders in Hh. rewrite !not_elem_of_cons in Hh.
  by rewrite !lookup_delete_ne by naive_solver.
Qed.

Lemma alike_reads r1 r2 : alike r1 r2 →
  Method r1 = Method r2 ∧ Path r1 = Path r2 ∧ Host r1 = Host r2 ∧ RemoteAddr r1 = RemoteAddr r2 ∧ TLS r1 = TLS r2 ∧
  FormToken r1 = FormToken r2 ∧ JSONToken r1 = JSONToken r2 ∧ credentialToken r1 = credentialToken r2 ∧
  ∀ h, header r1 h = header r2 h.
Proof.
  intros [Hd Hf].
  assert (Hl : ∀ h, h ∉ forwardedHeaders → Header r1 !! h = Header r2 !! h).
  { intros h Hh. by rewrite <- (dropped_lookup r1), <- (dropped_lookup r2), Hd. }
  pose proof Hd as Hd'. unfold drop_forwarded, with_header in Hd'. injection Hd' as E1 E2 E3 E4 E5 _ E6 E7.
  split_and!; try done.
  - by apply credential_ext.
  - intros h. destruct (decide (h ∈ forwardedHeaders)) as [Hh|Hh]; [by apply Hf|]. unfold header. by rewrite Hl.
Qed.

(** A handler that treats alike requests alike. *)
Definition fair (f : handler) : Prop := ∀ r1 r2 l, alike r1 r2 → blind <$> f r1 l = blind <$> f r2 l.

Ltac fair_start :=
  let r1 := fresh "r1" in let r2 := fresh "r2" in let l := fresh "l" in let Hal := fresh "Hal" in
  intros r1 r2 l Hal;
  destruct (alike_reads r1 r2 Hal) as (Em & Ep & Eh & Era & Et & Ef & Ej & Ec & Ehd).

Lemma scheme_alike r1 r2 : alike r1 r2 → requestScheme r1 trusted = requestScheme r2 trusted.
Proof.
  intros Hal. destruct (alike_reads r1 r2 Hal) as (_ & _ & Eh & Era & Et & _ & _ & _ & Ehd).
  unfold requestScheme. by rewrite Et, Era, Ehd.
Qed.

Lemma origin_alike r1 r2 : alike r1 r2 → validateCSRFOrigin r1 trusted = validateCSRFOrigin r2 trusted.
Proof.
  intros Hal. destruct (alike_reads r1 r2 Hal) as (_ & _ & Eh & _ & _ & _ & _ & _ & Ehd).
  unfold validateCSRFOrigin. by rewrite (scheme_alike _ _ Hal), Eh, Ehd.
Qed.

Lemma cookie_alike r1 r2 v : alike r1 r2 → adminCookie cfg trusted r1 v = adminCookie cfg trusted r2 v.
Proof.
  intros Hal. destruct (alike_reads r1 r2 Hal) as (_ & _ & Eh & _).
  unfold adminCookie, secureCookie. by rewrite (scheme_alike _ _ Hal), Eh.
Qed.

Lemma fair_behind metered : fair (behind trusted now metered).
Proof.
  assert (Hh : fair (λ r l, Some (l, Handled false r))).
  { intros r1 r2 l [Hd _]. simpl. by rewrite Hd. }
  destruct metered; [|done]. fair_start. unfold behind, limitGET. rewrite Era, Ehd.
  destruct (allowRequest _ _ _ _ _) as [[rl [ra|]]|]; [done|by apply Hh|done].
Qed.

Lemma fair_csrf next : fair next → fair (enforceCSRF trusted next) ∧ fair (csrfMiddleware trusted next).
Proof.
  intros Hn. assert (He : fair (enforceCSRF trusted next)).
  { fair_start. unfold enforceCSRF. rewrite (origin_alike r1 r2 Hal). case_match; [by apply Hn|done]. }
  split; [done|]. fair_start. unfold csrfMiddleware. rewrite Em. case_match; [by apply Hn|by apply He].
Qed.

Lemma fair_require ts next : fair next → fair (requireToken ts next).
Proof. intros Hn. fair_start. unfold requireToken. rewrite Ec. case_match; [by apply Hn|done]. Qed.

Lemma fair_auth ts next : fair next → fair (authMiddleware cfg ts next).
Proof.
  intros Hn. fair_start. unfold authMiddleware. rewrite Eh, Ep.
  repeat case_match; try done; by apply Hn || by apply fair_require.
Qed.

Lemma fair_private next : fair next → fair (privately next).
Proof.
  intros Hn. fair_start. specialize (Hn r1 r2 l Hal). unfold privately.
  destruct (next r1 l) as [[l1 x1]|], (next r2 l) as [[l2 x2]|]; simplify_eq/=; [|done].
  destruct x1, x2; simpl in *; congruence.
Qed.

Lemma fair_public ts next : fair next → fair (publicAPIAuthMiddleware trusted ts next).
Proof.
  intros Hn. fair_start. unfold publicAPIAuthMiddleware. case_match; [by apply Hn|].
  apply fair_require; [|done]. clear -Hn. fair_start. rewrite Em.
  case_match; [by apply fair_private|by apply (proj1 (fair_csrf _ (fair_private _ Hn)))].
Qed.

Lemma fair_limit next : fair next → fair (rateLimitMiddleware trusted now next).
Proof.
  intros Hn. fair_start. unfold rateLimitMiddleware. rewrite Em, Era, Ehd.
  case_decide; [|by apply Hn]. destruct (allowRequest _ _ _ _ _) as [[rl [ra|]]|]; [done|by apply Hn|done].
Qed.

Lemma fair_gate ts prefix next : fair next → fair (publicPageGate cfg trusted ts prefix next).
Proof.
  intros Hn. fair_start. unfold publicPageGate, allows. rewrite Em, Ep, Ec.
  case_match; [by apply Hn|]. case_decide.
  - unfold handlePageLogin, enforceCSRF, respond.
    rewrite (origin_alike r1 r2 Hal), Ef, (cookie_alike r1 r2 _ Hal). by repeat case_match.
  - case_decide; [done|]. destruct (decide (credentialToken r2 = "")) in |- *; [by case_match|].
    case_match; [by apply fair_private|by case_match].
Qed.

Lemma fair_mux ts m : fair (mux cfg trusted now ts m).
Proof.
  destruct m; unfold mux.
  - apply fair_auth, fair_csrf, fair_behind.
  - apply fair_auth, fair_csrf. fair_start. unfold handleWhoami, respond. by rewrite Ec.
  - apply fair_auth, fair_csrf. fair_start. unfold handleSession, respond.
    rewrite Em, Ej. repeat case_match; try done. by rewrite (cookie_alike r1 r2 _ Hal).
  - apply fair_public, fair_limit, fair_behind.
  - apply fair_gate, fair_behind.
  - apply fair_gate, fair_behind.
  - apply fair_behind.
Qed.

(** A handler that hands the request itself over. *)
Definition hands_over (f : handler) : Prop := ∀ r l l' p r', f r l = Some (l', Handled p r') → r' = r.

Lemma over_respond x : (∀ p r, x ≠ Handled p r) → hands_over (respond x).
Proof. intros Hx r l l' p r' [= _ E]. by apply Hx in E. Qed.
Lemma over_csrf next : hands_over next → hands_over (enforceCSRF trusted next) ∧ hands_over (csrfMiddleware trusted next).
Proof.
  intros Hn. assert (He : hands_over (enforceCSRF trusted next)).
  { intros r l l' p r'. unfold enforceCSRF. case_match; [apply Hn|by apply over_respond]. }
  split; [done|]. intros r l l' p r'. unfold csrfMiddleware. case_match; [apply Hn|apply He].
Qed.
Lemma over_token ts next : hands_over next → hands_over (requireToken ts next).
Proof. intros Hn r l l' p r'. unfold requireToken. case_match; [apply Hn|by apply over_respond]. Qed.
Lemma over_admin ts next : hands_over next → hands_over (authMiddleware cfg ts next).
Proof.
  intros Hn r l l' p r'. unfold authMiddleware. repeat (case_match; try apply Hn); [by apply over_respond|by apply over_token].
Qed.
Lemma over_private next : hands_over next → hands_over (privately next).
Proof.
  intros Hn r l l' p r'. unfold privately. destruct (next r l) as [[l1 x]|] eqn:E; [|done].
  destruct x; intros [= _ _ <-] || intros [=]; by apply Hn in E.
Qed.
Lemma over_limit next : hands_over next → hands_over (rateLimitMiddleware trusted now next) ∧ hands_over (limitGET trusted now next).
Proof.
  intros Hn. unfold rateLimitMiddleware, limitGET.
  split; intros r l l' p r' E; repeat case_match; simplify_eq; by apply Hn in E.
Qed.
Lemma over_behind metered : hands_over (behind trusted now metered).
Proof. destruct metered; [apply over_limit|]; by intros r l l' p r' [= _ _ <-]. Qed.
Lemma over_page ts prefix next : hands_over next → hands_over (publicPageGate cfg trusted ts prefix next).
Proof.
  intros Hn r l l' p r'. unfold publicPageGate, respond.
  repeat (case_match; simpl; try apply Hn; try (intros E; discriminate E)); [|by apply over_private].
  apply over_csrf. intros r0 l0 l1 p0 r1 E. unfold respond, adminCookie in E. by repeat case_match.
Qed.

(** What gets behind the gates is the request itself. *)
Lemma mux_hands_over ts m : hands_over (mux cfg trusted now ts m).
Proof.
  destruct m; simpl.
  - apply over_admin, over_csrf, (over_behind false).
  - apply over_admin, over_csrf. intros r l l' p r' E. unfold handleWhoami, respond in E. by case_match.
  - apply over_admin, over_csrf. intros r l l' p r' E. unfold handleSession, respond, adminCookie in E. by repeat case_match.
  - intros r l l' p r'. unfold publicAPIAuthMiddleware.
    destruct (over_limit _ (over_behind metered)) as [Hl _]. case_match; [apply Hl|].
    apply over_token. intros r0 l0 l1 p0 r1. case_match; [by apply over_private|by apply over_csrf, over_private].
  - apply over_page, over_behind.
  - apply over_page, (over_behind false).
  - apply (over_behind false).
Qed.

(** C25: of a request of a peer that is no trusted proxy, the handlers behind the gates of
    every surface see no forwarded header; and whatever the peer writes into these headers,
    no surface answers differently: not the gates, not the check of the origin, not the
    attribution of the request to a client of the rate limiter, not the cookie. *)
Theorem forwarded_headers_ignored ts m r l :
  remoteIsTrusted (RemoteAddr r) trusted = false →
  (∀ l' p r', Handler cfg trusted now ts m r l = Some (l', Handled p r') → ∀ h, h ∈ forwardedHeaders → header r' h = "") ∧
  ∀ r', drop_forwarded r' = drop_forwarded r →
    blind <$> Handler cfg trusted now ts m r' l = blind <$> Handler cfg trusted now ts m r l.
Proof.
  intros Ht. split.
  { unfold Handler, stripUntrustedForwardedHeaders. rewrite Ht. intros l' p r' ->%mux_hands_over h Hh. by apply strip_spec. }
  intros r' Hd. assert (Era : RemoteAddr r' = RemoteAddr r).
  { pose proof Hd as Hd'. by injection Hd'. }
  unfold Handler, stripUntrustedForwardedHeaders. rewrite Era, Ht. apply fair_mux. split.
  - assert (Hs : ∀ r, drop_forwarded (strip_headers r) = drop_forwarded r).
    { clear. intros r. destruct (strip_spec r) as (E1 & E2 & E3 & E4 & E5 & E6 & E7 & Hh & _).
      unfold drop_forwarded, with_header. f_equal; try done. apply map_eq. intros h.
      destruct (decide (h ∈ forwardedHeaders)) as [Hin|Hin].
      - assert (Hnone : ∀ m : gmap string (list string), foldr delete m forwardedHeaders !! h = None); [|by rewrite !Hnone].
        intros m. unfold forwardedHeaders in *. simpl. rewrite !elem_of_cons, elem_of_nil in Hin.
        destruct Hin as [->|[->|[->|[]]]]; rewrite ?lookup_delete_eq; try done;
          rewrite lookup_delete_ne by done; rewrite ?lookup_delete_eq; try done; by rewrite lookup_delete_ne, lookup_delete_eq by done.
      - pose proof (dropped_lookup (strip_headers r) h Hin) as H1. pose proof (dropped_lookup r h Hin) as H2.
        simpl in H1, H2. simpl. rewrite H1, H2. by apply Hh. }
    by rewrite !Hs.
  - intros h Hh. destruct (strip_spec r) as (_ & _ & _ & _ & _ & _ & _ & _ & H1).
    destruct (strip_spec r') as (_ & _ & _ & _ & _ & _ & _ & _ & H2). by rewrite H1, H2.
Qed.

(** ** Logging in *)

Lemma keep_all f s : string_forallb f s = true → keep_bytes f s = s.
Proof.
  induction s as [|c s IH]; [done|]. cbn [string_forallb keep_bytes].
  intros [Hc Hs]%andb_true_iff. by rewrite Hc, IH.
Qed.

Lemma edge_app f s t : edge f s = true → edge f t = true → edge f (s +:+ t) = true.
Proof. by destruct s. Qed.

Lemma valid_byte_facts c : validCookieValueByte c = true →
  c ≠ ";"%char ∧ c ≠ ascii_of_N 34 ∧ (c ≠ " "%char → graphic c = true).
Proof. by destruct c as [[] [] [] [] [] [] [] []]; vm_compute. Qed.

Lemma valid_free c s : string_forallb validCookieValueByte s = true →
  (∀ x, validCookieValueByte x = true → x ≠ c) → contains_byte c s = false.
Proof.
  intros Hs Hc. unfold contains_byte. apply negb_false_iff. eapply string_forallb_impl; [|exact Hs].
  intros x Hx. apply negb_true_iff, bool_decide_eq_false. intros ->. by apply (Hc x).
Qed.

(** A cookie keeps the value it is given, has no semicolon, and does not end in a space. *)
Lemma cookie_value tok : string_forallb validCookieValueByte tok = true →
  let v := sanitizeCookieValue tok in
  parseCookieValue v = Some tok ∧ contains_byte ";" v = false ∧ edge graphic (string_rev v) = true.
Proof.
  intros Hv. unfold sanitizeCookieValue. rewrite keep_all by done.
  assert (Hsemi : contains_byte ";" tok = false) by (apply valid_free; [done|]; by intros x (? & _)%valid_byte_facts).
  case_decide as E; [by subst|].
  destruct (contains_byte " " tok || contains_byte "," tok) eqn:Eq; cbv zeta.
  - split_and!.
    + unfold parseCookieValue.
      assert (Hl : (1 <? String.length (quote +:+ tok +:+ quote))%nat = true).
      { rewrite !string_app_length. simpl. apply Nat.ltb_lt. lia. }
      rewrite Hl, (proj2 (has_prefix_iff quote _)) by eauto.
      rewrite (proj2 (has_suffix_iff quote _)) by (exists (quote +:+ tok); by rewrite string_app_assoc).
      simpl andb. by rewrite trim_prefix_app, trim_suffix_app, Hv.
    + unfold contains_byte in *. rewrite !string_forallb_app. apply negb_false_iff in Hsemi. by rewrite Hsemi.
    + rewrite !string_rev_app. done.
  - apply orb_false_iff in Eq as [Esp _]. split_and!; [|done|].
    + unfold parseCookieValue. replace (has_prefix quote tok) with false; [rewrite andb_false_r; simpl; by rewrite Hv|].
      symmetry. apply not_true_iff_false. intros [r ->]%has_prefix_iff. simpl in Hv. done.
    + apply forallb_edge. rewrite string_forallb_rev. unfold contains_byte in Esp. apply negb_false_iff in Esp.
      clear -Hv Esp. induction tok as [|c tok IH]; [done|]. cbn [string_forallb] in *.
      apply andb_true_iff in Hv as [Hc Hv], Esp as [Hs Esp]. rewrite IH by done.
      rewrite (proj2 (proj2 (valid_byte_facts c Hc))); [done|].
      apply negb_true_iff, bool_decide_eq_false in Hs. congruence.
Qed.

(** The cookie in a line, behind others or not. *)
Definition sent (lead v : string) : string := lead +:+ "gm_admin=" +:+ v.

Lemma cookie_part_own sp tok : sp = "" ∨ sp = " " → string_forallb validCookieValueByte tok = true →
  cookie_part adminCookieName (sent sp (sanitizeCookieValue tok)) = Some tok.
Proof.
  intros Hsp Hv. destruct (cookie_value tok Hv) as (Hp & _ & He). set (v := sanitizeCookieValue tok) in *.
  unfold cookie_part.
  assert (Ht : trim_ascii (sent sp v) = "gm_admin=" +:+ v).
  { assert (Hid : trim_ascii ("gm_admin=" +:+ v) = "gm_admin=" +:+ v).
    { apply (trim_edges graphic); [reflexivity..|]. rewrite string_rev_app. by apply edge_app. }
    destruct Hsp as [->| ->]; [exact Hid|]. etransitivity; [|exact Hid].
    unfold trim_ascii, trim_with, sent. f_equal. }
  rewrite Ht. simpl decide. change ("gm_admin=" +:+ v) with ("gm_admin" +:+ String "=" v).
  rewrite first_index_app by reflexivity. case_decide as E; [done|]. 
  replace (trim_ascii "gm_admin") with adminCookieName by (vm_compute; reflexivity). by rewrite decide_True.
Qed.


(** ** Origins *)

(** Letters, digits, hyphens, dots and underscores. *)
Definition host_byte (c : ascii) : bool :=
  is_upper_byte c || is_lower_byte c || is_digit_byte c || bool_decide (c ∈ ["-"; "."; "_"]%char).
Definition host_ok (h : string) : Prop := h ≠ "" ∧ string_forallb host_byte h = true ∧ CanonIP h = None.
Definition port_ok (p : string) : Prop := string_forallb is_digit_byte p = true.
Definition hostport (h p : string) : string := if decide (p = "") then h else h +:+ String ":" p.
Definition port_of (scheme p : string) : string := if decide (p = "") then defaultPortForScheme scheme else p.

Lemma host_byte_facts c : host_byte c = true →
  graphic c = true ∧ is_ascii_byte c = true ∧ c ≠ ":"%char ∧ c ≠ "["%char ∧ c ≠ "]"%char.
Proof. destruct c as [[] [] [] [] [] [] [] []]; vm_compute; intuition (done || congruence). Qed.

Lemma digit_facts c : is_digit_byte c = true → host_byte c = true.
Proof. unfold host_byte. intros ->. by rewrite orb_true_r. Qed.

Lemma host_free c h : string_forallb host_byte h = true → (∀ x, host_byte x = true → x ≠ c) → contains_byte c h = false.
Proof.
  intros Hs Hc. unfold contains_byte. apply negb_false_iff. eapply string_forallb_impl; [|exact Hs].
  intros x Hx. apply negb_true_iff, bool_decide_eq_false. intros ->. by apply (Hc x).
Qed.

Lemma no_prefix c h : contains_byte c h = false → has_prefix (String c "") h = false ∧ has_suffix (String c "") h = false.
Proof.
  intros Hc. split; apply not_true_iff_false.
  - intros [r ->]%has_prefix_iff. unfold contains_byte in Hc. simpl in Hc. by rewrite bool_decide_eq_true_2 in Hc.
  - intros [r ->]%has_suffix_iff. unfold contains_byte in Hc. rewrite string_forallb_app in Hc. simpl in Hc.
    rewrite bool_decide_eq_true_2 in Hc by done. simpl in Hc. by rewrite andb_false_r in Hc.
Qed.

Lemma contains_behind s t : contains (s +:+ t) t = true.
Proof.
  induction s as [|c s IH].
  - simpl. destruct t as [|d t]; [done|]. cbn [contains].
    by rewrite (proj2 (has_prefix_iff _ _)) by (exists ""; by rewrite string_app_empty_r).
  - cbn [append contains]. by rewrite IH, orb_true_r.
Qed.

Lemma split_plain h p : h ≠ "" → string_forallb host_byte h = true → string_forallb host_byte p = true →
  SplitHostPort (h +:+ String ":" p) = Ok (h, p).
Proof.
  intros Hne Hh Hp.
  assert (Hf : ∀ c s, string_forallb host_byte s = true → c = ":"%char ∨ c = "["%char ∨ c = "]"%char → contains_byte c s = false).
  { intros c s0 Hs Hc. apply host_free; [done|]. intros x (_ & _ & ? & ? & ?)%host_byte_facts.
    by destruct Hc as [->|[->| ->]]. }
  assert (Hb : ∀ c, c = "["%char ∨ c = "]"%char → contains_byte c (h +:+ String ":" p) = false).
  { intros c Hc. pose proof (Hf c h Hh ltac:(tauto)) as H1. pose proof (Hf c p Hp ltac:(tauto)) as H2.
    unfold contains_byte in *. apply negb_false_iff in H1, H2. rewrite string_forallb_app. simpl.
    rewrite H1, H2. by destruct Hc as [->| ->]. }
  unfold SplitHostPort. rewrite last_index_app by (apply Hf; tauto).
  rewrite (Hf ":"%char h), (Hb "["%char), (Hb "]"%char) by tauto.
  destruct h as [|c h]; [done|]. cbn [append]. simpl in Hh. apply andb_true_iff in Hh as [Hc _].
  apply host_byte_facts in Hc as (_ & _ & _ & Hc & _).
  destruct c as [[] [] [] [] [] [] [] []]; done.
Qed.

Lemma normalized h p scheme : host_ok h → port_ok p →
  normalizedHostPort (hostport h p) scheme = Some (to_lower h, port_of scheme p).
Proof.
  intros (Hne & Hh & Hip) Hp0. assert (Hp : string_forallb host_byte p = true).
  { eapply string_forallb_impl; [|exact Hp0]. apply digit_facts. }
  assert (Hg : ∀ s, string_forallb host_byte s = true → string_forallb graphic s = true).
  { intros s Hs. eapply string_forallb_impl; [|exact Hs]. by intros x (? & _)%host_byte_facts. }
  assert (Hf : ∀ c, c = ":"%char ∨ c = "["%char ∨ c = "]"%char → contains_byte c h = false).
  { intros c Hc. apply host_free; [done|]. intros x (_ & _ & ? & ? & ?)%host_byte_facts.
    by destruct Hc as [->|[->| ->]]. }
  unfold normalizedHostPort.
  assert (Ht : trim_space (hostport h p) = hostport h p).
  { apply trim_space_graphic. unfold hostport. case_decide; [by apply Hg|].
    rewrite string_forallb_app. simpl. by rewrite !Hg. }
  rewrite Ht. rewrite decide_False by (unfold hostport; case_decide; by destruct h).
  assert (Hs : match SplitHostPort (hostport h p) with
               | Ok hp => Some hp
               | Err e => if contains e "missing port in address" then Some (hostport h p, "") else None
               end = Some (h, p)).
  { unfold hostport. case_decide as E.
    - subst p. unfold SplitHostPort. rewrite last_index_none by (apply Hf; tauto).
      unfold addr_error. rewrite decide_False by done.
      rewrite <- !string_app_assoc. by rewrite contains_behind.
    - by rewrite split_plain. }
  rewrite Hs. unfold trim_prefix, trim_suffix.
  rewrite (proj1 (no_prefix "[" h (Hf "["%char ltac:(tauto)))), (proj2 (no_prefix "]" h (Hf "]"%char ltac:(tauto)))).
  rewrite trim_space_graphic by by apply Hg. rewrite decide_False by done. rewrite Hip. done.
Qed.

(** What [url.Parse] promises of an origin. *)
Definition parses_origins : Prop := ∀ s h p, s = "http" ∨ s = "https" → host_ok h → port_ok p →
  ParseURL (s +:+ "://" +:+ hostport h p) = Some {| Scheme := s; URLHost := hostport h p |}.

(** The check of an origin with a host name. *)
Lemma origin_checked r s h p h' p' :
  parses_origins →
  s = "http" ∨ s = "https" → host_ok h → port_ok p → host_ok h' → port_ok p' →
  header r "Origin" = s +:+ "://" +:+ hostport h' p' → Host r = hostport h p →
  validateCSRFOrigin r trusted =
    bool_decide (to_lower h' = to_lower h ∧ port_of s p' = port_of (requestScheme r trusted) p).
Proof.
  intros Hparse Hs Hh Hp Hh' Hp' Ho Hhost.
  assert (Hgr : string_forallb (λ c, graphic c && is_ascii_byte c) (s +:+ "://" +:+ hostport h' p') = true).
  { rewrite !string_forallb_app.
    assert (Hx : ∀ x, string_forallb host_byte x = true → string_forallb (λ c, graphic c && is_ascii_byte c) x = true).
    { intros x Hx. eapply string_forallb_impl; [|exact Hx]. intros c (? & ? & _)%host_byte_facts. by apply andb_true_iff. }
    assert (Hhp : string_forallb (λ c, graphic c && is_ascii_byte c) (hostport h' p') = true).
    { unfold hostport. case_decide; [by apply Hx, Hh'|]. rewrite string_forallb_app. cbn [string_forallb].
      rewrite (Hx h') by apply Hh'. rewrite (Hx p') by (eapply string_forallb_impl; [apply digit_facts|done]). done. }
    rewrite Hhp. by destruct Hs as [->| ->]. }
  unfold validateCSRFOrigin. rewrite Ho, trim_space_graphic.
    2: { eapply string_forallb_impl; [|exact Hgr]. by intros c [? _]%andb_true_iff. }
    rewrite decide_False by (destruct Hs as [->| ->]; done).
    assert (Hasc : is_ascii (s +:+ "://" +:+ hostport h' p') = true).
    { eapply string_forallb_impl; [|exact Hgr]. by intros c [_ ?]%andb_true_iff. }
    assert (Hnull : EqualFold (s +:+ "://" +:+ hostport h' p') "null" = false).
    { unfold EqualFold. rewrite Hasc. simpl. rewrite !to_lower_ascii by done.
      apply bool_decide_eq_false. by destruct Hs as [->| ->]. }
    rewrite Hnull, Hparse by done. cbn [URLHost Scheme].
    rewrite decide_False; [|intros [E|E]; [unfold hostport in E; case_decide; destruct Hh' as (? & _); by destruct h'
                                        |by destruct Hs as [->| ->]]].
    rewrite (bool_decide_eq_true_2 (s = "http" ∨ s = "https")) by done. simpl negb. cbv iota.
    rewrite Hhost, !normalized by done.
    assert (Hl : ∀ x, host_ok x → is_ascii x = true).
    { intros x (_ & Hx & _). eapply string_forallb_impl; [|exact Hx]. by intros c (_ & ? & _)%host_byte_facts. }
    unfold EqualFold. rewrite !is_ascii_to_lower by (by apply Hl). simpl andb.
    rewrite !to_lower_idemp by (by apply Hl). apply eq_true_iff_eq.
    by rewrite andb_true_iff, !bool_decide_eq_true.
Qed.

(** C24: a request that changes something and has a valid token passes when it has no
    origin; when it has an [http] or [https] origin whose host is a name of letters, digits,
    hyphens, dots and underscores, no address, and is for such a host itself, it passes
    exactly when the two hosts and ports are the same, a missing port being the one of the scheme; the schemes
    themselves are not compared. *)
Theorem csrf_same_origin ts r l :
  safe_method (Method r) = false → enabled ts = true → authExemptPath (Path r) = false → allows ts r = true →
  (trim_space (header r "Origin") = "" → mux cfg trusted now ts AdminAPI r l = Some (l, Handled false r)) ∧
  ∀ s h p h' p', parses_origins →
    s = "http" ∨ s = "https" → host_ok h → port_ok p → host_ok h' → port_ok p' →
    header r "Origin" = s +:+ "://" +:+ hostport h' p' → Host r = hostport h p →
    mux cfg trusted now ts AdminAPI r l =
      Some (l, if decide (to_lower h' = to_lower h ∧ port_of s p' = port_of (requestScheme r trusted) p)
               then Handled false r else ErrorResponse 403 "csrf_origin_mismatch").
Proof.
  intros Hmeth Hen Hex Hal.
  assert (Hreq : ∀ next, requireToken ts next r = next r).
  { intros next. unfold requireToken. unfold allows in Hal. case_decide as E; [done|].
    by rewrite bool_decide_eq_false_2, Hal by done. }
  unfold mux, authMiddleware. rewrite Hen, Hex. simpl negb. cbv iota. rewrite Hreq.
  unfold csrfMiddleware, enforceCSRF. rewrite Hmeth. split.
  - intros Ho. unfold validateCSRFOrigin. by rewrite Ho.
  - intros s h p h' p' Hparse Hs Hh Hp Hh' Hp' Ho Hhost. rewrite (origin_checked r s h p h' p') by done.
    case_bool_decide as E; [by rewrite decide_True|by rewrite decide_False].
Qed.

(** A tool call of the MCP endpoint has the credential of its caller, whatever the request of
    the tool carries. *)
Lemma inproc_credential ts next outer req l l' x :
  enabled ts = true → mcpHandler ts true next outer l = Some (l', x) → x ≠ ErrorResponse 401 "unauthorized" →
  credentialToken (inproc_request outer req) = credentialToken outer ∧
  allows ts (inproc_request outer req) = allows ts outer.
Proof.
  intros He Hm Hx. assert (Hb : has_prefix "Bearer " (header outer "Authorization") = true).
  { unfold mcpHandler, respond in Hm. rewrite He in Hm. cbn [negb andb] in Hm. apply not_false_iff_true. intros E.
    rewrite E in Hm. simpl in Hm. congruence. }
  assert (Hc : credentialToken (inproc_request outer req) = credentialToken outer).
  { unfold credentialToken. rewrite Hb.
    assert (Hh : header (inproc_request outer req) "Authorization" = header outer "Authorization").
    { unfold header at 1, inproc_request. simpl. rewrite decide_False by (intros E; by rewrite E in Hb).
      by rewrite lookup_insert_eq. }
    by rewrite Hh, Hb. }
  split; [done|]. unfold allows. by rewrite Hc.
Qed.
End access.

(** ** Witnesses *)

#[local] Existing Instance ascii_unicode.
#[local] Existing Instance text_netip.

(** A digest that keeps 32 bytes, and a parser of origins. *)
Definition zeros : string := String.concat "" (replicate 32 "0").
#[local] Instance toy_web : WebLib :=
  {| Sha256 := λ s, take_bytes 32 (s +:+ zeros);
     ParseURL := λ s, if has_prefix "https://" s then Some {| Scheme := "https"; URLHost := trim_prefix s "https://" |}
                      else if has_prefix "http://" s then Some {| Scheme := "http"; URLHost := trim_prefix s "http://" |}
                      else None;
     CanonIP := λ _, None |}.

Lemma toy_digest s : String.length (Sha256 s) = 32%nat.
Proof. apply take_bytes_length. rewrite string_app_length. change (String.length zeros) with 32%nat. lia. Qed.

Lemma toy_parses : parses_origins.
Proof.
  intros s h p [->| ->] _ _; reflexivity.
Qed.

Definition demo_auth : AuthConfig :=
  {| AdminTokens := [{| Label := "ops"; Hash := hashToken "s3 cret" |}]; ProtectPublic := true |}.
Definition demo_set : tokenSet :=
  {| enabled := true; protectPublic := true; tokens := [{| label := "ops"; hash := Sha256 "s3 cret" |}] |}.
Definition demo_cfg : Config := {| ListenAddr := ":8080"; PublicURL := "" |}.
Definition demo_proxies : list (@Prefix text_netip) := ["192."].
Definition demo_limits : limiters := {| rateLimiter := None; getRateLimiter := None |}.
Definition request (meth path : string) (h : list (string * list string)) (tok : option string) : Request :=
  {| Method := meth; Path := path; Host := "dns.example.org:8443"; RemoteAddr := "10.0.0.9:1024"; TLS := true;
     Header := list_to_map h; FormToken := tok; JSONToken := tok |}.

Lemma demo_set_ok : newTokenSet demo_auth = Ok demo_set.
Proof. vm_compute. reflexivity. Qed.

Lemma gates_need_token_witness :
  newTokenSet demo_auth = Ok demo_set ∧
  ∃ x, Handler demo_cfg [] 0 demo_set (PublicAPI true) (request "GET" "/pub/api/v1/jobs/1" [("Cookie", ["gm_admin=guess"])] None)
    demo_limits = Some (demo_limits, x) ∧ x = ErrorResponse 401 "unauthorized".
Proof.
  split; [exact demo_set_ok|].
  destruct (gates_need_token demo_cfg [] 0 demo_auth demo_set (PublicAPI true)
    (request "GET" "/pub/api/v1/jobs/1" [("Cookie", ["gm_admin=guess"])] None) demo_limits demo_set_ok) as (x & Hx & _).
  - reflexivity.
  - right. intros (a & [->|[]%elem_of_nil]%elem_of_cons & E). vm_compute in E. discriminate.
  - exists x. split; [exact Hx|]. vm_compute in Hx. congruence.
Defined.

Lemma forwarded_headers_ignored_witness :
  let r xs := request "POST" "/pub/api/v1/jobs" (("Authorization", ["Bearer s3 cret"]) :: xs) None in
  blind <$> Handler demo_cfg demo_proxies 0 demo_set (PublicAPI false) (r [("X-Forwarded-For", ["1.2.3.4"])]) demo_limits =
  blind <$> Handler demo_cfg demo_proxies 0 demo_set (PublicAPI false) (r []) demo_limits.
Proof.
  intros r. apply (forwarded_headers_ignored demo_cfg demo_proxies 0 demo_set (PublicAPI false) (r []) demo_limits);
    vm_compute; reflexivity.
Defined.


Lemma csrf_same_origin_witness :
  mux demo_cfg [] 0 demo_set AdminAPI
    (request "POST" "/api/v1/jobs" [("Authorization", ["Bearer s3 cret"]); ("Origin", ["https://evil.example.org:8443"])] None)
    demo_limits = Some (demo_limits, ErrorResponse 403 "csrf_origin_mismatch").
Proof.
  destruct (csrf_same_origin demo_cfg [] 0 demo_set
    (request "POST" "/api/v1/jobs" [("Authorization", ["Bearer s3 cret"]); ("Origin", ["https://evil.example.org:8443"])] None)
    demo_limits) as [_ Hc]; [reflexivity..|].
  rewrite (Hc "https" "dns.example.org" "8443" "evil.example.org" "8443" toy_parses);
    try reflexivity; try (by right); repeat split; discriminate.
Defined.

(** A token with a semicolon can log in, and its cookie is refused. *)
Example semicolon_login :
  let ts := {| enabled := true; protectPublic := false; tokens := [{| label := "odd"; hash := Sha256 "a;b" |}] |} in
  handleSession demo_cfg [] ts (request "POST" "/api/v1/session" [] (Some "a;b")) demo_limits =
    Some (demo_limits, SetCookie "ab" true) ∧
  allows ts (request "GET" "/api/v1/jobs" [("Cookie", [sent "" "ab"])] None) = false.
Proof. by vm_compute. Qed.
