(* ===== verification/Query.v ===== *)
(** * A query to a nameserver: [engine/nameserver/nameserver.go], [query_helpers.go]

    [QueryWithOptions] puts the guards of [NsGuards] and the caches of [NsCache] together:
    a query is answered by an undelegated zone, by the cache, by nothing when a guard says so,
    or by the network, whose result then feeds the guards and the caches.  The state is that
    of one nameserver, a name with an address: its trackers and blacklist, the caches of its
    address, the reachability cache and the limits of the run.

    [QueryWithOptions] is one caller alone, from the call to the return.  [Callers] takes it
    apart into the pieces other callers get between: the checks of the guards, the reports to
    them and the accesses to the cache, each of which has its own lock, with the part in which
    equal queries wait for each other.  The slots of the concurrency cap are
    [NsGuards.ConcurrencyCap]; here a caller gets a slot or its context ends.  The clock, the
    context after the network and the network are in [moment]; the context is looked at once.
    Logs, traces, the counters of a nameserver and the test hook [queryFunc] are left out.
    Durations are nanoseconds. *)

From S2P Require Import Prelude GoStrings NsGuards NsCache Names.

Local Open Scope string_scope.
Local Open Scope Z_scope.
Local Open Scope list_scope.

(** ** Options and settings *)

(** [transport.EDNSDetails]; [E] is an EDNS option. *)
Record EDNSDetails {E : Type} := {
  Size : option Z; Do : option bool; Version : option Z; ZBits : option Z; Rcode : option Z; Data : list E
}.
Arguments EDNSDetails : clear implicits.

Record QueryOptions {E : Type} := {
  Class_ : string;
  UseVC : option bool; Recurse : option bool; CheckingDisabled : option bool; Fallback : option bool;
  Retry : option Z; Retrans : option Z; Timeout : option Z;
  DNSSEC : option bool; EDNSSize : option Z; EDNSDetails_ : option (EDNSDetails E);
  BlacklistingDisabled : bool; Diagnostic : bool
}.
Arguments QueryOptions : clear implicits.

(** What a query reads of the profile. *)
Record Profile := {
  IPv4 : bool; IPv6 : bool; NoNetwork : bool;
  p_Timeout : Z; p_Retry : Z; p_Retrans : Z; ErrorCacheTTL : Z; NegativeCacheTTL : Z;
  FastFailTimeoutCount : Z; NameserverMaxTotalMS : Z; NameserverConcurrency : Z
}.

Section options.
Context {E : Type} (edns_text : list E → string).
Implicit Types (opts : option (QueryOptions E)).

(** A field of options that may be missing. *)
Definition opt_field {A} (f : QueryOptions E → option A) opts : option A := o ← opts; f o.

Definition resolveDNSSEC opts : bool :=
  match d ← opt_field EDNSDetails_ opts; Do d with
  | Some b => b
  | None => default false (opt_field DNSSEC opts)
  end.
Definition resolveUseVC opts : bool := default false (opt_field UseVC opts).
Definition resolveRecurse opts : bool := default false (opt_field Recurse opts).

Definition EDNSUDPPayloadDefault : Z := 512.
Definition EDNSUDPPayloadDNSSECDefault : Z := 1232.

Definition resolveEDNSSize opts (dnssec : bool) : Z :=
  match opt_field EDNSDetails_ opts with
  | Some d =>
      match Size d with
      | Some s => s
      | None => match opt_field EDNSSize opts with
                | Some s => s
                | None => if dnssec then EDNSUDPPayloadDNSSECDefault else EDNSUDPPayloadDefault
                end
      end
  | None => match opt_field EDNSSize opts with
            | Some s => s
            | None => if dnssec then EDNSUDPPayloadDNSSECDefault else 0
            end
  end.

(** *** The key of a query *)

Definition appendCacheKeyPrefix (buf key : string) : string :=
  (if decide (buf = "") then buf else buf +:+ "|") +:+ key +:+ "=".
Definition appendCacheKeyString (buf key value : string) : string := appendCacheKeyPrefix buf key +:+ value.
Definition bool_text (b : bool) : string := if b then "true" else "false".
Definition appendCacheKeyBool (buf key : string) (b : bool) : string := appendCacheKeyString buf key (bool_text b).
Definition appendCacheKeyInt (buf key : string) (n : Z) : string := appendCacheKeyString buf key (Itoa n).
(** [appendCacheKeyUint8Ptr], [appendCacheKeyUint16Ptr] *)
Definition appendCacheKeyPtr (buf key : string) (p : option Z) : string := appendCacheKeyInt buf key (default 0 p).
Definition formatEDNSData (data : list E) : string := match data with [] => "" | _ => edns_text data end.

(** [if p != nil { buf = f(buf, key, *p) }] *)
Definition when_given {A} (f : string → string → A → string) (buf key : string) (p : option A) : string :=
  match p with Some v => f buf key v | None => buf end.

(** [buildCacheKey]: the key and the EDNS size. *)
Definition buildCacheKey (name qtype qclass : string) opts : string * Z :=
  let dnssec := resolveDNSSEC opts in
  let ednsSize := resolveEDNSSize opts dnssec in
  let buf := appendCacheKeyString "" "NAME" (NameString (New name)) in
  let buf := appendCacheKeyString buf "TYPE" qtype in
  let buf := appendCacheKeyString buf "CLASS" qclass in
  let buf := appendCacheKeyBool buf "DNSSEC" dnssec in
  let buf := appendCacheKeyBool buf "USEVC" (resolveUseVC opts) in
  let buf := appendCacheKeyBool buf "RECURSE" (resolveRecurse opts) in
  let buf := when_given appendCacheKeyBool buf "FALLBACK" (opt_field Fallback opts) in
  let buf := when_given appendCacheKeyInt buf "RETRY" (opt_field Retry opts) in
  let buf := when_given appendCacheKeyInt buf "RETRANS" (opt_field Retrans opts) in
  let buf := when_given appendCacheKeyInt buf "TIMEOUT" (opt_field Timeout opts) in
  let buf := when_given appendCacheKeyBool buf "CD" (opt_field CheckingDisabled opts) in
  let buf := match opt_field EDNSDetails_ opts with
             | None => buf
             | Some d =>
                 let buf := appendCacheKeyPtr buf "EDNS_VERSION" (Version d) in
                 let buf := appendCacheKeyPtr buf "EDNS_Z" (ZBits d) in
                 let buf := appendCacheKeyPtr buf "EDNS_RCODE" (Rcode d) in
                 appendCacheKeyString buf "EDNS_DATA" (formatEDNSData (Data d))
             end in
  (appendCacheKeyInt buf "EDNS_SIZE" ednsSize, ednsSize).

(** *** Times to live *)

Definition second : Z := 1000000000.

(** The time a query may take in all: [None] when nothing bounds an attempt, or the product
    of the code is not positive. *)
Definition query_budget (prof : Profile) opts : option Z :=
  let timeout := default (wrap64 (p_Timeout prof * second)) (opt_field Timeout opts) in
  let retries := Z.max 0 (default (p_Retry prof) (opt_field Retry opts)) in
  let retrans := default (wrap64 (p_Retrans prof * second)) (opt_field Retrans opts) in
  let perAttempt := if (timeout <=? 0) && (0 <? retrans) then retrans else timeout in
  if perAttempt <=? 0 then None
  else
    let attempts := Z.max (wrap64 (retries + 1)) 1 in
    let budget := wrap64 (perAttempt * attempts) in
    if budget <=? 0 then None else Some budget.

Definition resolveTTLWithBudget (baseSeconds : Z) (prof : Profile) opts : Z :=
  if baseSeconds <=? 0 then 0
  else
    let baseTTL := wrap64 (baseSeconds * second) in
    match query_budget prof opts with
    | None => baseTTL
    | Some budget => if budget <? baseTTL then budget else baseTTL
    end.

Definition resolveErrorCacheTTL (prof : Profile) opts : Z := resolveTTLWithBudget (ErrorCacheTTL prof) prof opts.
Definition resolveReachabilityTTL (prof : Profile) opts : Z :=
  let baseSeconds := NegativeCacheTTL prof in
  resolveTTLWithBudget (if baseSeconds <=? 0 then ErrorCacheTTL prof else baseSeconds) prof opts.

Definition resolveFastFailTimeoutCount (prof : Profile) : Z := Z.max 0 (FastFailTimeoutCount prof).
Definition resolveLatencyBudget (prof : Profile) : Z :=
  if NameserverMaxTotalMS prof <=? 0 then 0 else wrap64 (NameserverMaxTotalMS prof * 1000000).
Definition resolveNameserverConcurrencyLimit (prof : Profile) : Z := Z.max 0 (NameserverConcurrency prof).
End options.

(** ** The state of a nameserver *)

Section query.
Context `{HGo : GoUnicode} {E Packet Addr : Type} `{Countable Addr}.
Context (edns_text : list E → string) (visit : gmap string Z → list (string * Z)).
Abbreviation net_error := Reachability.net_error.

(** [nsState], with the parts of the store it shares; [blockLogged] only quietens a log. *)
Record nsState := {
  cache : QueryCache.queryCache (Packet:=Packet);
  errorCache : ErrorCache.errorCache;
  metrics : counters;
  reachability : Reachability.reachabilityCache;
  fastFail : FastFail.fastFailTracker;
  latency : Latency.latencyTracker;
  blacklisted : gset bool;
  limits : Limits.runLimits (Addr:=Addr) (Log:=unit)
}.

Definition with_cache s c M := {| cache := c; errorCache := errorCache s; metrics := M; reachability := reachability s;
  fastFail := fastFail s; latency := latency s; blacklisted := blacklisted s; limits := limits s |}.
Definition with_errors s c M := {| cache := cache s; errorCache := c; metrics := M; reachability := reachability s;
  fastFail := fastFail s; latency := latency s; blacklisted := blacklisted s; limits := limits s |}.
Definition with_reach s c := {| cache := cache s; errorCache := errorCache s; metrics := metrics s; reachability := c;
  fastFail := fastFail s; latency := latency s; blacklisted := blacklisted s; limits := limits s |}.
Definition with_fastFail s c := {| cache := cache s; errorCache := errorCache s; metrics := metrics s; reachability := reachability s;
  fastFail := c; latency := latency s; blacklisted := blacklisted s; limits := limits s |}.
Definition with_latency s c := {| cache := cache s; errorCache := errorCache s; metrics := metrics s; reachability := reachability s;
  fastFail := fastFail s; latency := c; blacklisted := blacklisted s; limits := limits s |}.
Definition with_blacklisted s b := {| cache := cache s; errorCache := errorCache s; metrics := metrics s; reachability := reachability s;
  fastFail := fastFail s; latency := latency s; blacklisted := b; limits := limits s |}.
Definition with_limits s l := {| cache := cache s; errorCache := errorCache s; metrics := metrics s; reachability := reachability s;
  fastFail := fastFail s; latency := latency s; blacklisted := blacklisted s; limits := l |}.

(** The nameserver: its address, the text of it, and what the guard of addresses that are
    not global says of it ([AllowNonGlobalTargets], [IsAllowedTarget] and [IsQueryable]). *)
Record server := { Address : Addr; AddressString : string; Is4 : bool; Is6 : bool; may_query : bool }.

(** What a call meets: the time at the checks and after the network, whether the context is
    live afterwards, whether a slot was got, how long the network took and what it gave. *)
Record moment := {
  now : Z; later : Z; ctx_ok : bool; slot : bool; elapsed : Z;
  reply : option Packet; reply_err : option net_error
}.

Record query := { qname : string; qtype : string; qopts : option (QueryOptions E); at_moment : moment }.

(** The type and class asked for. *)
Definition query_type (q : query) : string := to_upper (if decide (qtype q = "") then "A" else qtype q).
Definition query_class (q : query) : string :=
  to_upper (match qopts q with
            | Some o => if decide (Class_ o = "") then "IN" else Class_ o
            | None => "IN"
            end).
Definition query_key (q : query) : string := (buildCacheKey edns_text (qname q) (query_type q) (query_class q) (qopts q)).1.
Definition diagnostic (q : query) : bool := match qopts q with Some o => Diagnostic o | None => false end.

Context (ns : server) (prof : Profile) (max_entries : Z).
(** The answer of an undelegated zone ([fakeDSResponse], [fakeDelegationResponse]). *)
Context (fake : query → option Packet).

Inductive skip := ReachabilitySkip | ErrorCacheSkip | Blacklisted | FastFailSkip | LatencySkip.

(** The checks, in the order of the code. *)
Definition guards : list skip := [ReachabilitySkip; ErrorCacheSkip; Blacklisted; FastFailSkip; LatencySkip].

Definition check (g : skip) (s : nsState) (q : query) : nsState * bool :=
  let now := now (at_moment q) in
  let usevc := resolveUseVC (qopts q) in
  match g with
  | ReachabilitySkip =>
      if 0 <? resolveReachabilityTTL prof (qopts q) then
        let '(c, (yes, _)) := Reachability.shouldSkip (reachability s) (AddressString ns) now in (with_reach s c, yes)
      else (s, false)
  | ErrorCacheSkip =>
      if 0 <? resolveErrorCacheTTL prof (qopts q) then
        let '(c, M, (yes, _)) := ErrorCache.shouldSkip (errorCache s) (metrics s) (query_key q) now in (with_errors s c M, yes)
      else (s, false)
  | Blacklisted => (s, bool_decide (usevc ∈ blacklisted s))
  | FastFailSkip => (s, FastFail.shouldSkip (fastFail s) usevc (resolveFastFailTimeoutCount prof))
  | LatencySkip => (s, Latency.shouldSkip (latency s) (resolveLatencyBudget prof))
  end.

Fixpoint check_all (gs : list skip) (s : nsState) (q : query) : nsState * option skip :=
  match gs with
  | [] => (s, None)
  | g :: rest => let '(s, yes) := check g s q in if yes then (s, Some g) else check_all rest s q
  end.

Definition shouldSkipQuery (s : nsState) (q : query) : nsState * option skip := check_all guards s q.

(** [ns.state.cache.set], which may panic. *)
Definition remember (s : nsState) (key : string) (value : option Packet) : option nsState :=
  '(c, M) ← QueryCache.set max_entries (cache s) (metrics s) key value; Some (with_cache s c M).

(** What the network's result does to the guards: the tail of [queryNetwork], then the part of
    [QueryWithOptions] up to the cache. *)
Definition observe_latency (s : nsState) (q : query) : nsState :=
  if ctx_ok (at_moment q) && negb (diagnostic q) then
    with_latency s (Latency.observe (latency s) (elapsed (at_moment q)) (resolveLatencyBudget prof)).1
  else s.

Definition observe_fastFail (s : nsState) (q : query) : nsState :=
  if diagnostic q then s
  else with_fastFail s (FastFail.observeResult (fastFail s) (resolveUseVC (qopts q))
                          (ctx_ok (at_moment q) && FastFail.isTimeoutPatternError (reply_err (at_moment q)))
                          (resolveFastFailTimeoutCount prof)).1.

Definition failed (q : query) : bool := bool_decide (is_Some (reply_err (at_moment q))) && ctx_ok (at_moment q).

Definition observe_blacklist (s : nsState) (q : query) : nsState :=
  let ednsSize := (buildCacheKey edns_text (qname q) (query_type q) (query_class q) (qopts q)).2 in
  let disabled := match qopts q with Some o => BlacklistingDisabled o | None => false end in
  if failed q && bool_decide (query_type q = "SOA") && (ednsSize =? 0) && negb disabled
  then with_blacklisted s ({[resolveUseVC (qopts q)]} ∪ blacklisted s) else s.

Definition observe_error (s : nsState) (q : query) : nsState :=
  let ttl := resolveErrorCacheTTL prof (qopts q) in
  if failed q && negb (diagnostic q) && (0 <? ttl)
     && (negb (FastFail.isTimeoutPatternError (reply_err (at_moment q)))
         || FastFail.sawConsecutiveTimeouts (fastFail s) (resolveUseVC (qopts q)))
  then let '(c, M) := ErrorCache.set (errorCache s) (metrics s) (query_key q) ttl (later (at_moment q)) in with_errors s c M
  else s.

Definition observe_reachability (s : nsState) (q : query) : nsState :=
  if diagnostic q then s
  else if failed q && Reachability.isHardNetworkError (reply_err (at_moment q)) then
    let ttl := resolveReachabilityTTL prof (qopts q) in
    if 0 <? ttl then with_reach s (Reachability.mark visit (reachability s) (AddressString ns) ttl (later (at_moment q))) else s
  else if negb (bool_decide (is_Some (reply_err (at_moment q)))) && bool_decide (is_Some (reply (at_moment q))) then
    with_reach s (Reachability.observeSuccess (reachability s) (AddressString ns))
  else s.

(** The reports of a result, in the order of the code. *)
Inductive report := ToLatency | ToFastFail | ToBlacklist | ToErrorCache | ToReachability.
Definition reports : list report := [ToLatency; ToFastFail; ToBlacklist; ToErrorCache; ToReachability].

Definition observe (o : report) (s : nsState) (q : query) : nsState :=
  match o with
  | ToLatency => observe_latency s q
  | ToFastFail => observe_fastFail s q
  | ToBlacklist => observe_blacklist s q
  | ToErrorCache => observe_error s q
  | ToReachability => observe_reachability s q
  end.

(** The result is remembered, unless the caller's own context ended without one. *)
Definition remember_result (s : nsState) (q : query) : option nsState :=
  let m := at_moment q in
  match reply m with
  | Some p => remember s (query_key q) (Some p)
  | None => if negb (bool_decide (is_Some (reply_err m))) || ctx_ok m then remember s (query_key q) None else Some s
  end.

(** The end of a call: where the answer came from. *)
Inductive ended :=
| Blocked | Fake (p : Packet) | Refused | FromCache (p : option Packet) | NoNetworkError
| Skipped (why : skip) | NoSlot | Asked (p : option Packet) (err : option net_error)
| Joined (p : option Packet) (err : option string) | ContextDone.

(** [QueryWithOptions] up to the cache: how the call ends there, if it does. *)
Definition enter (s : nsState) (q : query) : nsState * option ended :=
  if Is4 ns && negb (IPv4 prof) then (s, Some Blocked)
  else if Is6 ns && negb (IPv6 prof) then (s, Some Blocked)
  else match fake q with
  | Some p => (s, Some (Fake p))
  | None =>
      if negb (NoNetwork prof) && negb (may_query ns) then (s, Some Refused)
      else
        let '(l, admitted) := Limits.admits (limits s) (Address ns) in
        (with_limits s l, if admitted then None else Some Refused)
  end.

(** The look at the cache. *)
Definition look_up (s : nsState) (q : query) : nsState * option ended :=
  let '(M, hit) := QueryCache.get (cache s) (metrics s) (query_key q) in
  let s := with_cache s (cache s) M in
  match hit with
  | Some p => (s, Some (FromCache p))
  | None => (s, if NoNetwork prof then Some NoNetworkError else None)
  end.

Definition gets_slot (q : query) : bool :=
  negb (0 <? resolveNameserverConcurrencyLimit prof) || slot (at_moment q).

(** [QueryWithOptions] of a caller alone; [None] is a panic. *)
Definition QueryWithOptions (s : nsState) (q : query) : option (nsState * ended) :=
  match enter s q with
  | (s, Some e) => Some (s, e)
  | (s, None) =>
      match look_up s q with
      | (s, Some e) => Some (s, e)
      | (s, None) =>
          match shouldSkipQuery s q with
          | (s, Some why) => s ← remember s (query_key q) None; Some (s, Skipped why)
          | (s, None) =>
              if gets_slot q then
                s ← remember_result (foldl (λ s o, observe o s q) s reports) q;
                Some (s, Asked (reply (at_moment q)) (reply_err (at_moment q)))
              else Some (s, NoSlot)
          end
      end
  end.

(** A series of calls. *)
Fixpoint queries (s : nsState) (qs : list query) : option (nsState * list ended) :=
  match qs with
  | [] => Some (s, [])
  | q :: rest =>
      '(s, e) ← QueryWithOptions s q;
      '(s, es) ← queries s rest;
      Some (s, e :: es)
  end.

(** The state of a nameserver nobody has asked ([newWithCache]), in a run with the given limits. *)
Definition newState (l : Limits.runLimits) (r : Reachability.reachabilityCache) (c e : option counter) (M : counters) : nsState :=
  {| cache := QueryCache.newQueryCache c; errorCache := ErrorCache.newErrorCache e; metrics := M; reachability := r;
     fastFail := FastFail.tracker0; latency := Latency.tracker0; blacklisted := ∅; limits := l |}.
End query.
