(* ===== verification/QueryFacts.v ===== *)
(** * Facts about queries to a nameserver

    For the definitions of [Query]: what the key of a query tells apart.  What holds of calls
    that run at the same time is in [CallersFacts]. *)

From stdpp Require Import pretty.
From S2P Require Import Prelude GoStrings NsGuards NsCache Names Query.

Local Open Scope string_scope.
Local Open Scope Z_scope.
Local Open Scope list_scope.

(** ** The key *)

(** What a key says of a query. *)
Record asked := {
  a_name : string; a_type : string; a_class : string;
  a_dnssec : bool; a_usevc : bool; a_recurse : bool;
  a_fallback : option bool; a_retry : option Z; a_retrans : option Z; a_timeout : option Z; a_cd : option bool;
  a_edns : option (Z * Z * Z * string); a_size : Z
}.

Definition field (tag value : string) : string := tag +:+ "=" +:+ value.
Definition optional (tag : string) (o : option string) : list string := match o with Some v => [field tag v] | None => [] end.

(** The fields of a key, in order. *)
Definition tail_fields (a : asked) : list string :=
  match a_edns a with
  | Some (v, z, r, d) => [field "EDNS_VERSION" (Itoa v); field "EDNS_Z" (Itoa z); field "EDNS_RCODE" (Itoa r); field "EDNS_DATA" d]
  | None => []
  end ++ [field "EDNS_SIZE" (Itoa (a_size a))].
Definition fields (a : asked) : list string :=
  [field "NAME" (a_name a); field "TYPE" (a_type a); field "CLASS" (a_class a); field "DNSSEC" (bool_text (a_dnssec a));
   field "USEVC" (bool_text (a_usevc a)); field "RECURSE" (bool_text (a_recurse a))]
  ++ optional "FALLBACK" (bool_text <$> a_fallback a) ++ optional "RETRY" (Itoa <$> a_retry a)
  ++ optional "RETRANS" (Itoa <$> a_retrans a) ++ optional "TIMEOUT" (Itoa <$> a_timeout a)
  ++ optional "CD" (bool_text <$> a_cd a) ++ tail_fields a.

Section key.
Context {E : Type} (edns_text : list E → string).

Definition asked_of (name qtype qclass : string) (opts : option (QueryOptions E)) : asked :=
  {| a_name := NameString (New name); a_type := qtype; a_class := qclass;
     a_dnssec := resolveDNSSEC opts; a_usevc := resolveUseVC opts; a_recurse := resolveRecurse opts;
     a_fallback := opt_field Fallback opts; a_retry := opt_field Retry opts; a_retrans := opt_field Retrans opts;
     a_timeout := opt_field Timeout opts; a_cd := opt_field CheckingDisabled opts;
     a_edns := (λ d, (default 0 (Version d), default 0 (ZBits d), default 0 (Rcode d), formatEDNSData edns_text (Data d)))
                 <$> opt_field EDNSDetails_ opts;
     a_size := resolveEDNSSize opts (resolveDNSSEC opts) |}.

Lemma join_snoc sep l x : l ≠ [] → join sep (l ++ [x]) = join sep l +:+ sep +:+ x.
Proof.
  intros Hl. induction l as [|y l IH]; [done|]. destruct (decide (l = [])) as [->|Hn]; [done|].
  change ((y :: l) ++ [x]) with (y :: (l ++ [x])).
  rewrite !join_cons by (done || by destruct l). rewrite IH by done. by rewrite !string_app_assoc.
Qed.

Lemma append_field n l key v :
  appendCacheKeyString (join "|" (field "NAME" n :: l)) key v = join "|" ((field "NAME" n :: l) ++ [field key v]).
Proof.
  rewrite join_snoc by done. unfold appendCacheKeyString, appendCacheKeyPrefix.
  rewrite decide_False; [by unfold field; rewrite !string_app_assoc|].
  destruct l; [done|]. by rewrite join_cons by done.
Qed.

Lemma append_given {A} n l key (text : A → string) (p : option A) (f : string → string → A → string) :
  (∀ b k v, f b k v = appendCacheKeyString b k (text v)) →
  when_given f (join "|" (field "NAME" n :: l)) key p = join "|" ((field "NAME" n :: l) ++ optional key (text <$> p)).
Proof. intros Hf. destruct p; cbn [when_given fmap option_fmap option_map optional]; [by rewrite Hf, append_field|by rewrite app_nil_r]. Qed.

Lemma key_fields name qtype qclass opts :
  (buildCacheKey edns_text name qtype qclass opts).1 = join "|" (fields (asked_of name qtype qclass opts)).
Proof.
  unfold buildCacheKey. cbv zeta. cbn [fst].
  change (appendCacheKeyString "" "NAME" (NameString (New name))) with (join "|" [field "NAME" (NameString (New name))]).
  set (n := NameString (New name)). unfold appendCacheKeyBool, appendCacheKeyPtr, appendCacheKeyInt.
  repeat (rewrite append_field; cbn [app]).
  repeat (first [rewrite (append_given n _ _ bool_text) by done | rewrite (append_given n _ _ Itoa) by done]; cbn [app]).
  unfold fields, tail_fields, asked_of. cbn [a_edns].
  destruct (opt_field EDNSDetails_ opts) as [d|]; simpl fmap; cbv iota beta.
  all: repeat (rewrite append_field; cbn [app]).
  all: f_equal; by rewrite <- ?app_assoc.
Qed.
End key.

Definition bar : ascii := "|"%char.
Abbreviation clean s := (contains_byte bar s = false).

Lemma clean_app s t : clean (s +:+ t) ↔ clean s ∧ clean t.
Proof. unfold contains_byte. rewrite !negb_false_iff. by rewrite string_forallb_app, andb_true_iff. Qed.

Lemma digits_clean x : ∀ s, clean s → clean (pretty_N_go x s).
Proof.
  induction (N.lt_wf_0 x) as [x _ IH]. intros s Hs.
  destruct (decide (x = 0)%N) as [->|Hx]; [by rewrite pretty_N_go_0|].
  rewrite pretty_N_go_step by lia. apply IH; [apply N.div_lt; lia|].
  change (clean (String (pretty_N_char (x `mod` 10)) "" +:+ s)). apply clean_app. split; [|done].
  assert (x `mod` 10 < 10)%N as Hm by (apply N.mod_lt; lia). revert Hm.
  generalize (x `mod` 10)%N. intros y Hy.
  assert (y = 0 ∨ y = 1 ∨ y = 2 ∨ y = 3 ∨ y = 4 ∨ y = 5 ∨ y = 6 ∨ y = 7 ∨ y = 8 ∨ y = 9)%N as Hy' by lia.
  repeat (destruct Hy' as [->|Hy']; [done|]). by subst.
Qed.

Lemma itoa_clean n : clean (Itoa n).
Proof.
  destruct n as [|p|p]; [done| |].
  - change (clean (pretty_N_go (N.pos p) "")). by apply digits_clean.
  - change (clean ("-" +:+ pretty_N_go (N.pos p) "")). apply clean_app. split; [done|]. by apply digits_clean.
Qed.

Lemma bool_clean b : clean (bool_text b).
Proof. by destruct b. Qed.

Lemma field_clean tag v : clean tag → clean v → clean (field tag v).
Proof. intros. unfold field. by rewrite !clean_app. Qed.

Lemma optional_clean tag o : clean tag → (∀ v, o = Some v → clean v) → Forall (λ s, clean s) (optional tag o).
Proof. intros Ht Hv. destruct o; repeat constructor. apply field_clean; auto. Qed.

Create HintDb clean.
#[local] Hint Resolve itoa_clean bool_clean : clean.
#[local] Hint Extern 1 (clean (field _ _)) => apply field_clean; [reflexivity|] : clean.
#[local] Hint Extern 1 (Forall _ (optional _ _)) =>
  apply optional_clean; [reflexivity|intros ? [? [? ->]]%fmap_Some_1] : clean.

(** The fields after the name. *)
Definition rest (a : asked) : list string := drop 1 (fields a).

Definition clean_asked (a : asked) : Prop :=
  clean (a_type a) ∧ clean (a_class a) ∧ (∀ e, a_edns a = Some e → clean e.2).

Lemma rest_clean a : clean_asked a → Forall (λ s, clean s) (rest a).
Proof.
  intros (Ht & Hc & He). unfold rest, fields. cbn [app drop].
  repeat (apply Forall_cons; split; [by auto with clean|]).
  repeat (apply Forall_app; split; [by auto with clean|]).
  unfold tail_fields. destruct (a_edns a) as [[[[v z] r] d]|]; cbn [app]; [specialize (He _ eq_refl)|].
  all: repeat (apply Forall_cons; split; [by auto with clean|]); constructor.
Qed.

Lemma field_inj tag v w : field tag v = field tag w → v = w.
Proof. unfold field. rewrite <- !string_app_assoc. apply (inj _). Qed.

(** A list that does not start with a field of the tag. *)
Definition starts_apart (tag : string) (l : list string) : Prop := ∀ v, head l ≠ Some (field tag v).

Lemma optional_apart tag tag' o l :
  (∀ v w, field tag' w ≠ field tag v) → starts_apart tag l → starts_apart tag (optional tag' o ++ l).
Proof. intros Ht Hl v. destruct o; cbn; [|apply Hl]. intros [= Hv]. by apply Ht in Hv. Qed.

Lemma tail_apart tag a :
  (∀ v w, field "EDNS_VERSION" w ≠ field tag v) → (∀ v w, field "EDNS_SIZE" w ≠ field tag v) → starts_apart tag (tail_fields a).
Proof.
  intros Hv Hs v. unfold tail_fields. destruct (a_edns a) as [[[[? ?] ?] ?]|]; cbn; intros [= Hx]; [by apply Hv in Hx|by apply Hs in Hx].
Qed.

Lemma optional_inj {A} (text : A → string) `{!Inj (=) (=) text} tag o o' l l' :
  starts_apart tag l → starts_apart tag l' →
  optional tag (text <$> o) ++ l = optional tag (text <$> o') ++ l' → o = o' ∧ l = l'.
Proof.
  intros Hl Hl'. destruct o as [v|], o' as [v'|]; cbn.
  - intros [= Hv%field_inj%(inj text) ->]. by subst.
  - intros <-. by destruct (Hl' (text v)).
  - intros ->. by destruct (Hl (text v')).
  - done.
Qed.

Lemma last_mark {A} (P : A → Prop) l1 x r1 l2 y r2 :
  P x → P y → Forall (λ z, ¬ P z) r1 → Forall (λ z, ¬ P z) r2 → l1 ++ x :: r1 = l2 ++ y :: r2 → l1 = l2 ∧ x :: r1 = y :: r2.
Proof.
  intros Hx Hy H1 H2 [(k & -> & Hk)|(k & -> & Hk)]%app_eq_inv; destruct k as [|z k]; cbn in Hk.
  - by rewrite app_nil_r.
  - injection Hk as -> ->. apply Forall_app in H2 as [_ H2]. by inversion H2.
  - by rewrite app_nil_r.
  - injection Hk as -> ->. apply Forall_app in H1 as [_ H1]. by inversion H1.
Qed.

Definition of_type (s : string) : Prop := ∃ v, s = field "TYPE" v.

Lemma after_type a : Forall (λ s, ¬ of_type s) (drop 1 (rest a)).
Proof.
  assert (Ho : ∀ tag o, (∀ v w, field tag w ≠ field "TYPE" v) → Forall (λ s, ¬ of_type s) (optional tag o)).
  { intros tag o Ht. destruct o; repeat constructor. intros [v Hv]. by apply Ht in Hv. }
  unfold rest, fields. cbn [app drop].
  repeat (apply Forall_cons; split; [by intros [v Hv]|]).
  repeat (apply Forall_app; split; [by apply Ho|]).
  unfold tail_fields. destruct (a_edns a) as [[[[v z] r] d]|]; cbn [app].
  all: repeat (apply Forall_cons; split; [by intros [? Hv]|]); constructor.
Qed.

#[local] Instance bool_text_inj : Inj (=) (=) bool_text.
Proof. by intros [] []. Qed.
#[local] Instance itoa_inj : Inj (=) (=) Itoa.
Proof. intros ???. by apply (inj pretty). Qed.

Lemma tail_inj a b : tail_fields a = tail_fields b → a_edns a = a_edns b ∧ a_size a = a_size b.
Proof.
  unfold tail_fields. destruct (a_edns a) as [[[[v z] r] d]|], (a_edns b) as [[[[v' z'] r'] d']|]; intros [=].
  all: repeat match goal with H : Itoa _ = Itoa _ |- _ => apply itoa_inj in H end; by simplify_eq.
Qed.

#[local] Ltac apart := repeat apply optional_apart; try apply tail_apart; done.

Lemma rest_inj a b : a_name a = a_name b → rest a = rest b → a = b.
Proof.
  intros Hn. unfold rest, fields. cbn [app drop]. intros Hr.
  injection Hr as Ht Hc Hd%bool_text_inj Hu%bool_text_inj Hre%bool_text_inj Hr.
  apply optional_inj in Hr as [Hf Hr]; [|apply _|apart..].
  apply optional_inj in Hr as [Hy Hr]; [|apply _|apart..].
  apply optional_inj in Hr as [Hrt Hr]; [|apply _|apart..].
  apply optional_inj in Hr as [Hto Hr]; [|apply _|apart..].
  apply optional_inj in Hr as [Hcd Hr]; [|apply _|apart..].
  apply tail_inj in Hr as [He Hs]. destruct a, b; cbn in *. by subst.
Qed.

Lemma fields_inj a b : clean_asked a → clean_asked b → join "|" (fields a) = join "|" (fields b) → a = b.
Proof.
  intros Ha Hb Hj.
  assert (Hsplit : ∀ a, clean_asked a → split bar (join "|" (fields a)) = split bar (field "NAME" (a_name a)) ++ rest a).
  { intros c Hc. change (fields c) with (field "NAME" (a_name c) :: rest c). rewrite join_cons by done.
    change ("|" +:+ ?t) with (String bar t). rewrite split_app_any, split_join; [done|done|by apply rest_clean]. }
  pose proof (Hsplit a Ha) as Hl. rewrite Hj, (Hsplit b Hb) in Hl.
  change (rest a) with (field "TYPE" (a_type a) :: drop 1 (rest a)) in Hl.
  change (rest b) with (field "TYPE" (a_type b) :: drop 1 (rest b)) in Hl.
  apply (last_mark of_type) in Hl as [Hn Hr]; [|by eexists|by eexists|apply after_type..].
  symmetry. apply rest_inj; [|done]. apply (f_equal (join (String bar ""))) in Hn. rewrite !join_split in Hn.
  by apply field_inj in Hn.
Qed.

(** C20: Two queries have the same cache key exactly when they agree on the name as it is
    written in queries, the type, the class, the DNSSEC, TCP and recursion flags, each optional
    setting that was given, the EDNS details and the EDNS size, provided the type, the class and
    the text of EDNS data hold no bar: neither a name with bars in it nor an omitted setting
    makes two different queries share a cached answer. *)
Theorem key_exact {E} (edns_text : list E → string) n1 t1 c1 o1 n2 t2 c2 o2 :
  clean_asked (asked_of edns_text n1 t1 c1 o1) → clean_asked (asked_of edns_text n2 t2 c2 o2) →
  (buildCacheKey edns_text n1 t1 c1 o1).1 = (buildCacheKey edns_text n2 t2 c2 o2).1
  ↔ asked_of edns_text n1 t1 c1 o1 = asked_of edns_text n2 t2 c2 o2.
Proof.
  intros H1 H2. rewrite !key_fields. split; [by apply fields_inj|by intros ->].
Qed.

Definition plain_options : QueryOptions string :=
  {| Class_ := ""; UseVC := None; Recurse := None; CheckingDisabled := None; Fallback := None; Retry := None; Retrans := None;
     Timeout := None; DNSSEC := None; EDNSSize := None; EDNSDetails_ := None; BlacklistingDisabled := false; Diagnostic := false |}.
Definition retry_options : QueryOptions string :=
  {| Class_ := ""; UseVC := None; Recurse := Some true; CheckingDisabled := None; Fallback := None; Retry := Some (-2); Retrans := None;
     Timeout := None; DNSSEC := None; EDNSSize := None; BlacklistingDisabled := false; Diagnostic := false;
     EDNSDetails_ := Some {| Size := None; Do := Some true; Version := None; ZBits := Some 3; Rcode := None; Data := ["x"] |} |}.

Lemma plain_clean : clean_asked (asked_of (join ",") "a|TYPE=A.se" "A" "IN" (Some plain_options)).
Proof. repeat split; [reflexivity..|]. intros ? [=]. Defined.
Lemma retry_clean : clean_asked (asked_of (join ",") "a.se" "A" "IN" (Some retry_options)).
Proof. repeat split; [reflexivity..|]. intros ? [= <-]. reflexivity. Defined.

Lemma key_exact_witness :
  (buildCacheKey (join ",") "a|TYPE=A.se" "A" "IN" (Some plain_options)).1 ≠
  (buildCacheKey (join ",") "a.se" "A" "IN" (Some retry_options)).1.
Proof. intros H. apply (key_exact _ _ _ _ _ _ _ _ _ plain_clean retry_clean) in H. discriminate H. Defined.
