(* ===== verification/Callers.v ===== *)
(** * Several callers of a nameserver: [QueryWithOptions] under concurrency

    The pieces of [Query.QueryWithOptions] between which other goroutines run: each check of a
    guard, each report of a result and each access to the cache takes its own lock.  A call
    that passed the guards registers its key or waits for the call that has it
    ([waitOrRegister], [finish], [abandon]).  A [phase] is where a call stands; [advance] is
    its next piece; [step] lets any call make its next piece, and new calls come.

    The calls go through one [Nameserver]; the queries another name or another run makes of
    the same address, which share its cache, and the clearing of the cache are left out, as
    are panics of the transport.  A report to the error cache reads the fast-fail tracker and
    writes its entry in one piece. *)

From stdpp Require Import relations.
From S2P Require Import Prelude GoStrings NsGuards NsCache Names Query.

Local Open Scope string_scope.
Local Open Scope Z_scope.
Local Open Scope list_scope.

Section callers.
Context `{HGo : GoUnicode} {E Packet Addr : Type} `{Countable Addr}.
Context (edns_text : list E → string) (visit : gmap string Z → list (string * Z)).
Context (ns : server (Addr:=Addr)) (prof : Profile) (max_entries : Z).
Context (fake : query (E:=E) (Packet:=Packet) → option Packet).

Abbreviation state := (nsState (Packet:=Packet) (Addr:=Addr)).
Abbreviation call := (query (E:=E) (Packet:=Packet)).
Abbreviation result := (ended (Packet:=Packet)).
Abbreviation flights := (gmap nat (QueryCache.inflightQuery (Packet:=Packet))).
Implicit Types (s : state) (q : call) (F : flights) (e : result).

(** Where a call stands; [i] is the query in flight it waits for or has registered. *)
Inductive phase :=
| Entering
| Looking
| Guarding (gs : list skip)                 (* the checks left *)
| Skipping (why : skip)
| Registering
| Waiting (i : nat)
| Acquiring (i : nat)
| Observing (i : nat) (os : list report)    (* asked; the reports left *)
| Finishing (i : nat) (e : result)
| Leaving (i : nat) (e : result)
| Over (e : result).

(** What the callers that wait are given; the errors of contexts are not told apart. *)
Definition shared (e : result) : option Packet * option string :=
  match e with
  | Asked p err => (p, Reachability.error_text <$> err)
  | _ => (None, Some "context")
  end.

Inductive move := Stuck | Panicked | Moved (s : state) (F : flights) (ph : phase).

(** The next piece of a call; [cancelled] says that its context ends while it waits. *)
Definition advance s F q (ph : phase) (cancelled : bool) : move :=
  let key := query_key edns_text q in
  match ph with
  | Entering =>
      match enter ns prof fake s q with
      | (s, Some e) => Moved s F (Over e)
      | (s, None) => Moved s F Looking
      end
  | Looking =>
      match look_up edns_text prof s q with
      | (s, Some e) => Moved s F (Over e)
      | (s, None) => Moved s F (Guarding guards)
      end
  | Guarding [] => Moved s F Registering
  | Guarding (g :: gs) =>
      let '(s, yes) := check edns_text ns prof g s q in Moved s F (if yes then Skipping g else Guarding gs)
  | Skipping why =>
      match remember max_entries s key None with
      | None => Panicked
      | Some s => Moved s F (Over (Skipped why))
      end
  | Registering =>
      let '(c, F, i, wait) := QueryCache.waitOrRegister (cache s) F key in
      Moved (with_cache s c (metrics s)) F (if wait then Waiting i else Acquiring i)
  | Waiting i =>
      if cancelled then Moved s F (Over ContextDone)
      else match F !! i with
      | Some fl =>
          if negb (QueryCache.done fl) then Stuck
          else if QueryCache.abandoned fl then Moved s F Registering
          else Moved s F (Over (Joined (QueryCache.resp fl) (QueryCache.err fl)))
      | None => Stuck
      end
  | Acquiring i => Moved s F (if gets_slot prof q then Observing i reports else Finishing i NoSlot)
  | Observing i (o :: os) => Moved (observe edns_text visit ns prof o s q) F (Observing i os)
  | Observing i [] =>
      match remember_result edns_text max_entries s q with
      | None => Panicked
      | Some s => Moved s F (Finishing i (Asked (reply (at_moment q)) (reply_err (at_moment q))))
      end
  | Finishing i e =>
      match QueryCache.finish (cache s) F key (shared e).1 (shared e).2 with
      | None => Panicked
      | Some (c, F) => Moved (with_cache s c (metrics s)) F (Leaving i e)
      end
  | Leaving i e =>
      match QueryCache.abandon (cache s) F key i with
      | None => Panicked
      | Some (c, F) => Moved (with_cache s c (metrics s)) F (Over e)
      end
  | Over _ => Stuck
  end.

(** The nameserver, the queries in flight and the calls, in the order they came. *)
Record world := { st : state; flight : flights; calls : list (call * phase) }.

(** [None] is a panic. *)
Inductive step : world → option world → Prop :=
| step_call w q :
    step w (Some {| st := st w; flight := flight w; calls := calls w ++ [(q, Entering)] |})
| step_move w j q ph cancelled s F ph' :
    calls w !! j = Some (q, ph) → advance (st w) (flight w) q ph cancelled = Moved s F ph' →
    step w (Some {| st := s; flight := F; calls := <[j := (q, ph')]> (calls w) |})
| step_panic w j q ph cancelled :
    calls w !! j = Some (q, ph) → advance (st w) (flight w) q ph cancelled = Panicked → step w None.

Definition moves (w w' : world) : Prop := step w (Some w').

Definition start (s : state) : world := {| st := s; flight := ∅; calls := [] |}.

(** A call that asks the network, or has the slot to ask it. *)
Definition on_network (ph : phase) : bool :=
  match ph with Acquiring _ | Observing _ _ => true | _ => false end.

(** A call that has been to the network. *)
Definition sent (ph : phase) : bool :=
  match ph with
  | Observing _ _ | Finishing _ (Asked _ _) | Leaving _ (Asked _ _) | Over (Asked _ _) => true
  | _ => false
  end.

(** A run of given calls: new ones come, and the call at a place makes its next piece. *)
Inductive event := Call (q : call) | Move (j : nat) (cancelled : bool).

Definition happen (w : world) (ev : event) : option world :=
  match ev with
  | Call q => Some {| st := st w; flight := flight w; calls := calls w ++ [(q, Entering)] |}
  | Move j cancelled =>
      '(q, ph) ← calls w !! j;
      match advance (st w) (flight w) q ph cancelled with
      | Moved s F ph' => Some {| st := s; flight := F; calls := <[j := (q, ph')]> (calls w) |}
      | _ => None
      end
  end.

Fixpoint happens (w : world) (evs : list event) : option world :=
  match evs with
  | [] => Some w
  | ev :: rest => w ← happen w ev; happens w rest
  end.

Lemma happens_moves evs w w' : happens w evs = Some w' → rtc moves w w'.
Proof.
  revert w. induction evs as [|ev evs IH]; intros w; cbn [happens]; [intros [= ->]; constructor|].
  intros (w1 & H1 & H2)%bind_Some. eapply rtc_l; [|by apply IH].
  destruct ev as [q|j c]; cbn in H1; [injection H1 as <-; constructor|].
  apply bind_Some in H1 as ([q ph] & Hj & H1).
  destruct (advance _ _ _ _ _) eqn:Ha; simplify_eq. by econstructor.
Qed.
End callers.
