(* ===== verification/CallersFacts.v ===== *)
(** * Facts about several callers of a nameserver

    For [Callers]: a verdict of the guards stops every call that has not passed that guard
    ([blocked_final]), a call that was answered is not repeated by calls that come later, and at
    no time are two equal queries on the network ([asked_once]).  A caller alone runs through
    [Query.QueryWithOptions] ([alone]).  What concurrency allows nevertheless:
    [asked_twice], [fast_fail_taken_back]. *)

From stdpp Require Import relations.
From S2P Require Import Prelude GoStrings NsGuards NsCache Names Query QueryFacts Callers.

Local Open Scope string_scope.
Local Open Scope Z_scope.
Local Open Scope list_scope.

#[local] Instance skip_eq : EqDecision skip.
Proof. solve_decision. Defined.
#[local] Instance report_eq : EqDecision report.
Proof. solve_decision. Defined.

Section facts.
Context {HGo : GoUnicode} {E Packet Addr : Type} `{Countable Addr}.
Context (edns_text : list E → string) (visit : gmap string Z → list (string * Z)).
Context (ns : server (Addr:=Addr)) (prof : Profile) (max_entries : Z).
Context (fake : query (E:=E) (Packet:=Packet) → option Packet).
Abbreviation state := (nsState (Packet:=Packet) (Addr:=Addr)).
Abbreviation call := (query (E:=E) (Packet:=Packet)).
Abbreviation key_of := (query_key edns_text).
Abbreviation adv := (advance edns_text visit ns prof max_entries fake).
Abbreviation moves := (moves edns_text visit ns prof max_entries fake).
Abbreviation step := (step edns_text visit ns prof max_entries fake).
Abbreviation data s := (QueryCache.data (cache s)).
Abbreviation table s := (QueryCache.inflight (cache s)).
Implicit Types (s : state) (q : call) (w : world (E:=E) (Packet:=Packet) (Addr:=Addr)).

(** ** The pieces *)

(** What a guard says of a protocol until the end of the run. *)
Definition verdict (g : skip) s (usevc : bool) : Prop :=
  match g with
  | Blacklisted => usevc ∈ blacklisted s
  | FastFailSkip => FastFail.shouldSkip (fastFail s) usevc (resolveFastFailTimeoutCount prof) = true
  | LatencySkip => Latency.shouldSkip (latency s) (resolveLatencyBudget prof) = true
  | _ => False
  end.

(** Two states whose verdicts are the same. *)
Definition same_guards s s' : Prop :=
  fastFail s' = fastFail s ∧ latency s' = latency s ∧ blacklisted s' = blacklisted s.

Lemma verdict_same g s s' v : same_guards s s' → verdict g s v → verdict g s' v.
Proof. intros (Hf & Hl & Hb). destruct g; cbn; by rewrite ?Hf, ?Hl, ?Hb. Qed.

(** The end of a call that takes no part in the traffic with the network. *)
Definition local_end (e : ended (Packet:=Packet)) : bool :=
  match e with Blocked | Fake _ | Refused | FromCache _ | NoNetworkError => true | _ => false end.

Lemma enter_spec s q :
  let '(s', o) := enter ns prof fake s q in
  same_guards s s' ∧ cache s' = cache s ∧ ∀ e, o = Some e → local_end e = true.
Proof.
  unfold enter. destruct (_ && _); [split_and!; [done..|by intros e [= <-]]|].
  destruct (_ && _); [split_and!; [done..|by intros e [= <-]]|].
  destruct (fake q); [split_and!; [done..|by intros e [= <-]]|].
  destruct (_ && _); [split_and!; [done..|by intros e [= <-]]|].
  destruct (Limits.admits _ _) as [l []]; split_and!; try done. by intros e [= <-].
Qed.

Lemma look_up_spec s q :
  let '(s', o) := look_up edns_text prof s q in
  same_guards s s' ∧ data s' = data s ∧ table s' = table s ∧
  (key_of q ∈ dom (data s) → ∃ p, o = Some (FromCache p)) ∧
  (∀ e, o = Some e → local_end e = true).
Proof.
  unfold look_up, QueryCache.get. destruct (data s !! key_of q) as [p|] eqn:Hk.
  - split_and!; [done..| |]; [eauto|]. by intros e [= <-].
  - split_and!; [done..| |].
    + intros [p Hp]%elem_of_dom. congruence.
    + intros e. case_match; [|done]. by intros [= <-].
Qed.

Lemma check_spec g s q :
  let '(s', yes) := check edns_text ns prof g s q in
  same_guards s s' ∧ cache s' = cache s ∧ (verdict g s (resolveUseVC (qopts q)) → yes = true).
Proof.
  destruct g; cbn [check].
  - destruct (0 <? _); [|done]. by destruct (Reachability.shouldSkip _ _ _) as [? [? ?]].
  - destruct (0 <? _); [|done]. by destruct (ErrorCache.shouldSkip _ _ _ _) as [[? ?] [? ?]].
  - split_and!; [done..|]. apply bool_decide_eq_true_2.
  - done.
  - done.
Qed.

Lemma fast_fail_other t p b th v :
  p ≠ v → FastFail.shouldSkip (FastFail.observeResult t p b th).1 v th = FastFail.shouldSkip t v th.
Proof.
  intros Hn. assert (Hp : Bool.eqb p v = false) by (by destruct p, v).
  unfold FastFail.observeResult, FastFail.shouldSkip. destruct (th <=? 0); [done|].
  destruct b; cbn [negb fst]; [|by rewrite FastFailFacts.state_set, Hp].
  destruct (FastFail.blocked (FastFail.stateForProtocol t p)); [done|].
  by destruct (th <=? _); cbn [fst]; rewrite FastFailFacts.state_set, Hp.
Qed.

Lemma latency_final t took budget :
  Latency.shouldSkip t budget = true → Latency.shouldSkip (Latency.observe t took budget).1 budget = true.
Proof.
  unfold Latency.shouldSkip, Latency.observe. destruct (budget <=? 0); [done|]. intros Hb. by rewrite Hb.
Qed.

(** A report keeps the verdicts, but for the one to the fast fail on its own protocol. *)
Lemma observe_verdict o g s q v :
  (g = FastFailSkip → o = ToFastFail → diagnostic q = false → resolveUseVC (qopts q) ≠ v) →
  verdict g s v → verdict g (observe edns_text visit ns prof o s q) v.
Proof.
  intros Hff. destruct o; cbn [observe].
  - unfold observe_latency. destruct (_ && _); [|done]. destruct g; [done..|]. apply latency_final.
  - unfold observe_fastFail. destruct (diagnostic q) eqn:Hd; [done|]. destruct g; [done..| |done].
    specialize (Hff eq_refl eq_refl eq_refl). cbn. by rewrite fast_fail_other.
  - unfold observe_blacklist. destruct (_ && _); [|done]. destruct g; [done..| | |]; [|done..]. apply elem_of_union_r.
  - unfold observe_error. destruct (_ && _); [|done].
    destruct (ErrorCache.set _ _ _ _ _). by apply verdict_same.
  - unfold observe_reachability. destruct (diagnostic q); [done|].
    destruct (_ && _); [destruct (0 <? _)|destruct (_ && _)]; first [done|by apply verdict_same].
Qed.

Lemma observe_cache o s q : cache (observe edns_text visit ns prof o s q) = cache s.
Proof.
  destruct o; cbn [observe].
  - unfold observe_latency. by destruct (_ && _).
  - unfold observe_fastFail. by destruct (diagnostic q).
  - unfold observe_blacklist. by destruct (_ && _).
  - unfold observe_error. destruct (_ && _); [|done]. by destruct (ErrorCache.set _ _ _ _ _).
  - unfold observe_reachability. destruct (diagnostic q); [done|].
    destruct (_ && _); [by destruct (0 <? _)|by destruct (_ && _)].
Qed.

Lemma remember_guards s key r s' : remember max_entries s key r = Some s' → same_guards s s'.
Proof. unfold remember. by intros ([c M] & _ & [= <-])%bind_Some. Qed.

Lemma remember_result_guards s q s' : remember_result edns_text max_entries s q = Some s' → same_guards s s'.
Proof.
  unfold remember_result. destruct (reply _); [apply remember_guards|].
  destruct (_ || _); [apply remember_guards|by intros [= ->]].
Qed.

(** ** Verdicts are final *)

(** A call that has not passed the guard. *)
Definition before (g : skip) (ph : phase (Packet:=Packet)) : bool :=
  match ph with Entering | Looking => true | Guarding gs => bool_decide (g ∈ gs) | _ => false end.

(** A call that ends without a query. *)
Definition stopped (ph : phase (Packet:=Packet)) : bool :=
  match ph with Skipping _ => true | Over (Asked _ _) => false | Over _ => true | _ => false end.

(** A call that may yet report to the fast fail. *)
Definition may_report q (ph : phase (Packet:=Packet)) : bool :=
  negb (diagnostic q) &&
  match ph with
  | Guarding gs => negb (bool_decide (FastFailSkip ∈ gs))
  | Registering | Waiting _ | Acquiring _ => true
  | Observing _ os => bool_decide (ToFastFail ∈ os)
  | _ => false
  end.
(** What a piece does to a call the verdict is against. *)
Lemma advance_verdict g s F q ph c s' F' ph' v :
  adv s F q ph c = Moved s' F' ph' → verdict g s v →
  (g = FastFailSkip → resolveUseVC (qopts q) = v → may_report q ph = false) →
  verdict g s' v ∧
  (resolveUseVC (qopts q) = v → before g ph || stopped ph = true → before g ph' || stopped ph' = true) ∧
  (g = FastFailSkip → resolveUseVC (qopts q) = v → may_report q ph' = false).
Proof.
  intros Ha Hv Hff. destruct ph as [| |[|g' gs]|why| |i|i|i [|o os]|i e|i e|e]; cbn [advance] in Ha.
  - pose proof (enter_spec s q) as Hs. destruct (enter _ _ _ _ _) as [s1 [e|]] eqn:He; injection Ha as <- <- <-;
      destruct Hs as (Hs & _ & Hloc); (split; [by eapply verdict_same|]).
    + split; [|intros; unfold may_report; by rewrite andb_false_r]. intros _ _. cbn.
      specialize (Hloc _ eq_refl). by destruct e.
    + split; [done|]. intros; unfold may_report; by rewrite andb_false_r.
  - pose proof (look_up_spec s q) as Hs. destruct (look_up _ _ _ _) as [s1 [e|]]; injection Ha as <- <- <-;
      destruct Hs as (Hs & _ & _ & _ & He); (split; [by eapply verdict_same|]).
    + split; [|intros; unfold may_report; by rewrite andb_false_r]. intros _ _. cbn.
      specialize (He _ eq_refl). by destruct e.
    + split; [|intros ->; unfold may_report; by rewrite andb_false_r]. intros _ _. by destruct g.
  - injection Ha as <- <- <-. split; [done|]. split; [done|exact Hff].
  - pose proof (check_spec g' s q) as Hs. destruct (check _ _ _ _ _ _) as [s1 yes].
    destruct Hs as (Hs & _ & Hyes). injection Ha as <- <- <-. split; [by eapply verdict_same|].
    destruct yes; [split; [done|]; intros; unfold may_report; by rewrite andb_false_r|].
    assert (Hg : resolveUseVC (qopts q) = v → g ≠ g') by (intros <- ->; by specialize (Hyes Hv)).
    split.
    + intros Eq Hb. rewrite orb_false_r in Hb |- *. cbn in Hb |- *. breflect.
      apply elem_of_cons in Hb as [Hb|Hb]; [by destruct (Hg Eq)|by apply bool_decide_eq_true_2].
    + intros Eg Eq. specialize (Hff Eg Eq). specialize (Hg Eq). subst g. unfold may_report in *.
      destruct (diagnostic q); [done|]. cbn in Hff |- *. apply negb_false_iff, bool_decide_eq_true in Hff.
      apply elem_of_cons in Hff as [Hff|Hff]; [done|by rewrite bool_decide_eq_true_2].
  - destruct (remember _ _ _ _) as [s1|] eqn:Hr; [|done]. injection Ha as <- <- <-.
    split; [by eapply verdict_same; [eapply remember_guards|]|]. split; [done|]. intros; unfold may_report; by rewrite andb_false_r.
  - destruct (QueryCache.waitOrRegister _ _ _) as [[[c1 F1] i] wait]. injection Ha as <- <- <-.
    split; [by eapply (verdict_same g s)|]. split; [done|]. intros Eg Eq. specialize (Hff Eg Eq). by destruct wait.
  - destruct c; [injection Ha as <- <- <-; split; [done|]; split; [done|]; intros; unfold may_report; by rewrite andb_false_r|].
    destruct (F !! i) as [fl|]; [|done]. destruct (negb _); [done|].
    destruct (QueryCache.abandoned fl); injection Ha as <- <- <-; (split; [done|]); split; try done.
    intros; unfold may_report; by rewrite andb_false_r.
  - injection Ha as <- <- <-. split; [done|]. split; [by destruct (gets_slot prof q)|]. intros Eg Eq.
    specialize (Hff Eg Eq). unfold may_report in *. destruct (diagnostic q); [done|]. done.
  - destruct (remember_result _ _ _ _) as [s1|] eqn:Hr; [|done]. injection Ha as <- <- <-.
    split; [by eapply verdict_same; [eapply remember_result_guards|]|]. split; [done|]. intros; unfold may_report; by rewrite andb_false_r.
  - injection Ha as <- <- <-. split; [|split; [done|]].
    + apply observe_verdict; [|done]. intros Eg -> Hd Eq. specialize (Hff Eg Eq).
      unfold may_report in Hff. rewrite Hd in Hff. cbn in Hff. apply bool_decide_eq_false in Hff. destruct Hff. left.
    + intros Eg Eq. specialize (Hff Eg Eq). unfold may_report in *. destruct (diagnostic q); [done|].
      cbn in Hff |- *. apply bool_decide_eq_false in Hff. apply bool_decide_eq_false. intros Hin. destruct Hff. by right.
  - destruct (QueryCache.finish _ _ _ _ _) as [[c1 F1]|]; [|done]. injection Ha as <- <- <-.
    split; [by eapply (verdict_same g s)|]. split; [done|]. intros; unfold may_report; by rewrite andb_false_r.
  - destruct (QueryCache.abandon _ _ _ _) as [[c1 F1]|]; [|done]. injection Ha as <- <- <-.
    split; [by eapply (verdict_same g s)|]. split; [by destruct g|]. intros; unfold may_report; by rewrite andb_false_r.
  - done.
Qed.
Lemma calls_after w w' : moves w w' →
  (∃ q, st w' = st w ∧ flight w' = flight w ∧ calls w' = calls w ++ [(q, Entering)]) ∨
  (∃ j q ph c ph', calls w !! j = Some (q, ph) ∧ adv (st w) (flight w) q ph c = Moved (st w') (flight w') ph' ∧
     calls w' = <[j := (q, ph')]> (calls w)).
Proof.
  intros Hm. inversion Hm as [w1 q E1 E2|w1 j q ph c s F ph' Hj Ha E1 E2|]; subst; [left; eauto|right].
  by exists j, q, ph, c, ph'.
Qed.

Lemma elem_of_snoc_lookup {A} (l : list A) x y j : (l ++ [x]) !! j = Some y → l !! j = Some y ∨ j = length l ∧ y = x.
Proof. intros [Hj|[Hj Hx]]%lookup_app_Some; [by left|right]. apply list_lookup_singleton_Some in Hx as [Hx ->]. split; [lia|done]. Qed.

Lemma before_quiet g ph : before g ph || stopped ph = true → sent ph = false ∧ on_network ph = false.
Proof. by destruct ph as [| |gs|why| |i|i|i os|i e|i e|[]]. Qed.

(** C11: When a nameserver is on the blacklist for a protocol, or its latency budget is used up,
    no call over the protocol that has not passed that check goes to the network any more,
    whatever other calls are made of it, before and after, and in whatever order their pieces
    run.  When the fast fail blocks a protocol the same holds if no call over it that is past the
    check still has its result to report. *)
Theorem blocked_final w w' g v :
  verdict g (st w) v →
  (g = FastFailSkip → ∀ j q ph, calls w !! j = Some (q, ph) → resolveUseVC (qopts q) = v → may_report q ph = false) →
  rtc moves w w' →
  verdict g (st w') v ∧
  ∀ j q ph', calls w' !! j = Some (q, ph') → resolveUseVC (qopts q) = v →
    (∀ ph, calls w !! j = Some (q, ph) → before g ph = true) → sent ph' = false ∧ on_network ph' = false.
Proof.
  intros Hv Hff Hrun.
  enough (Hinv : verdict g (st w') v ∧
    (g = FastFailSkip → ∀ j q ph, calls w' !! j = Some (q, ph) → resolveUseVC (qopts q) = v → may_report q ph = false) ∧
    ∀ j q ph', calls w' !! j = Some (q, ph') → resolveUseVC (qopts q) = v →
      (∀ ph, calls w !! j = Some (q, ph) → before g ph = true) → before g ph' || stopped ph' = true).
  { destruct Hinv as (H1 & _ & H2). split; [done|]. intros j q ph' Hj Hq Hb. by eapply before_quiet, H2. }
  pattern w'. refine (rtc_ind_r _ w _ _ w' Hrun); clear w' Hrun.
  { split_and!; [done..|]. intros j q ph' Hj Hq Hb. by rewrite (Hb _ Hj). }
  intros w1 w2 _ Hm (IHv & IHff & IH).
  apply calls_after in Hm as [(q & -> & _ & Hcs)|(j & q & ph & c & ph' & Hj & Ha & Hcs)].
  - split; [done|]. rewrite Hcs. split.
    + intros Eg j q' ph' [Hj|[-> [= -> ->]]]%elem_of_snoc_lookup; [by eapply IHff|].
      intros. unfold may_report. by rewrite andb_false_r.
    + intros j q' ph' [Hj|[-> [= -> ->]]]%elem_of_snoc_lookup; [by apply IH|done].
  - destruct (advance_verdict _ _ _ _ _ _ _ _ _ _ Ha IHv) as (Hv2 & Hb2 & Hf2); [by intros Eg; eapply IHff|].
    split; [done|]. rewrite Hcs. split.
    + intros Eg k q' ph2 [(<- & [= <- <-] & _)|[_ Hk]]%list_lookup_insert_Some; [by apply Hf2|by eapply IHff].
    + intros k q' ph2 [(<- & [= <- <-] & _)|[_ Hk]]%list_lookup_insert_Some Hq Hb; [|by eapply IH].
      apply Hb2; [done|]. by eapply IH.
Qed.
(** ** A query that was answered is not repeated *)

(** The keys of the calls made, and the cache has room for all of them. *)
Definition known w : gset string := list_to_set ((λ c, key_of c.1) <$> calls w).
Definition roomy w : Prop := max_entries <= 0 ∨ Z.of_nat (size (known w)) <= max_entries.

(** The query is answered, or has failed for another reason than the end of its context. *)
Definition settled q : Prop :=
  is_Some (reply (at_moment q)) ∨ reply_err (at_moment q) = None ∨ ctx_ok (at_moment q) = true.

(** The query in flight a call has registered. *)
Definition leads (ph : phase (Packet:=Packet)) : option nat :=
  match ph with Acquiring i | Observing i _ | Finishing i _ => Some i | _ => None end.

(** A call whose result has been remembered. *)
Definition remembered (ph : phase (Packet:=Packet)) : bool :=
  match ph with Finishing _ (Asked _ _) | Leaving _ (Asked _ _) | Over (Asked _ _) => true | _ => false end.

Definition open w i : Prop := ∃ fl, flight w !! i = Some fl ∧ QueryCache.done fl = false.

Record good w : Prop := {
  good_keys : dom (data (st w)) ⊆ known w;
  good_table key i : table (st w) !! key = Some i → open w i;
  good_inj k k' i : table (st w) !! k = Some i → table (st w) !! k' = Some i → k = k';
  good_lead j q ph i : calls w !! j = Some (q, ph) → leads ph = Some i → table (st w) !! key_of q = Some i;
  good_one j j' q q' ph ph' i : calls w !! j = Some (q, ph) → calls w !! j' = Some (q', ph') →
    leads ph = Some i → leads ph' = Some i → j = j';
  good_leave j q i e : calls w !! j = Some (q, Leaving i e) →
    ∃ fl, flight w !! i = Some fl ∧ QueryCache.done fl = true;
  good_asked j q ph : calls w !! j = Some (q, ph) → remembered ph = true → settled q → key_of q ∈ dom (data (st w))
}.

Lemma known_lookup w j q ph : calls w !! j = Some (q, ph) → key_of q ∈ known w.
Proof.
  intros Hj. apply elem_of_list_to_set, list_elem_of_fmap. exists (q, ph). split; [done|]. by eapply list_elem_of_lookup_2.
Qed.

Lemma known_moves w w' : moves w w' → known w ⊆ known w'.
Proof.
  intros [(q & _ & _ & Hcs)|(j & q & ph & c & ph' & Hj & _ & Hcs)]%calls_after; unfold known; rewrite Hcs.
  - rewrite fmap_app, list_to_set_app_L. apply union_subseteq_l.
  - rewrite list_fmap_insert. rewrite list_insert_id; [done|]. by rewrite list_lookup_fmap, Hj.
Qed.

Lemma roomy_before w w' : moves w w' → roomy w' → roomy w.
Proof.
  intros Hm%known_moves [Hr|Hr]; [by left|right].
  pose proof (subseteq_size _ _ Hm). lia.
Qed.

(** What [remember] does to a cache that has room. *)
Lemma remember_room w j q ph s r :
  roomy w → calls w !! j = Some (q, ph) → dom (data s) ⊆ known w →
  ∃ s', remember max_entries s (key_of q) r = Some s' ∧ data s' = <[key_of q := r]> (data s) ∧ table s' = table s.
Proof.
  intros Hr Hj Hd. unfold remember, QueryCache.set.
  assert ((0 <? max_entries) && (max_entries <? Z.of_nat (size (<[key_of q := r]> (data s)))) = false) as ->; [|by eexists].
  apply andb_false_iff. destruct Hr as [Hr|Hr]; [left; by apply Z.ltb_ge|right; apply Z.ltb_ge].
  rewrite <- (size_dom (D:=gset string)), dom_insert_L.
  enough (size ({[key_of q]} ∪ dom (data s)) <= size (known w))%nat by lia.
  apply subseteq_size, union_subseteq. split; [|done]. apply singleton_subseteq_l. by eapply known_lookup.
Qed.

Lemma remember_result_room w j q ph s :
  roomy w → calls w !! j = Some (q, ph) → dom (data s) ⊆ known w →
  ∃ s', remember_result edns_text max_entries s q = Some s' ∧ table s' = table s ∧
    dom (data s) ⊆ dom (data s') ∧ dom (data s') ⊆ known w ∧ (settled q → key_of q ∈ dom (data s')).
Proof.
  intros Hr Hj Hd. unfold remember_result. pose proof (known_lookup _ _ _ _ Hj) as Hk.
  assert (Hset : ∀ r, ∃ s', remember max_entries s (key_of q) r = Some s' ∧ table s' = table s ∧
    dom (data s) ⊆ dom (data s') ∧ dom (data s') ⊆ known w ∧ (settled q → key_of q ∈ dom (data s'))).
  { intros r. destruct (remember_room w j q ph s r Hr Hj Hd) as (s' & Hs & Hd' & Ht).
    exists s'. rewrite Hd', dom_insert_L. split_and!; [done..| | |].
    - apply union_subseteq_r.
    - apply union_least; [by apply singleton_subseteq_l|done].
    - intros _. by apply elem_of_union_l, elem_of_singleton_2. }
  destruct (reply (at_moment q)) as [x|] eqn:Hx; [apply Hset|].
  destruct (negb _ || _) eqn:Hb; [apply Hset|]. apply orb_false_iff in Hb as [Hb Hc]. breflect.
  exists s. split_and!; try done. unfold settled. rewrite Hx, Hc. intros [[? ?]|[Hn|?]]; [done| |done].
  rewrite Hn in Hb. by destruct Hb.
Qed.

(** A piece that leaves the queries in flight alone. *)
Lemma good_piece w j q ph s ph' :
  good w → calls w !! j = Some (q, ph) →
  table s = table (st w) → dom (data (st w)) ⊆ dom (data s) → dom (data s) ⊆ known w →
  leads ph' = leads ph ∨ leads ph' = None → (∀ i e, ph' ≠ Leaving i e) →
  (remembered ph' = true → settled q → key_of q ∈ dom (data s)) →
  good {| st := s; flight := flight w; calls := <[j := (q, ph')]> (calls w) |}.
Proof.
  intros [G1 G2 G3 G4 G5 G6 G7] Hj Ht Hd Hd' Hl Hnl Hask.
  assert (Hk : known {| st := s; flight := flight w; calls := <[j := (q, ph')]> (calls w) |} = known w).
  { unfold known. cbn. rewrite list_fmap_insert, list_insert_id; [done|]. by rewrite list_lookup_fmap, Hj. }
  assert (Hlead : ∀ k q2 ph2 i, <[j := (q, ph')]> (calls w) !! k = Some (q2, ph2) → leads ph2 = Some i →
    ∃ ph3, calls w !! k = Some (q2, ph3) ∧ leads ph3 = Some i).
  { intros k q2 ph2 i [(<- & [= <- <-] & _)|[_ Hk2]]%list_lookup_insert_Some Hi; [|eauto].
    destruct Hl as [Hl|Hl]; [|congruence]. exists ph. split; [done|congruence]. }
  split; cbn [st flight calls].
  - by rewrite Hk.
  - rewrite Ht. exact G2.
  - rewrite Ht. exact G3.
  - intros k q2 ph2 i Hk2 Hi. rewrite Ht. destruct (Hlead _ _ _ _ Hk2 Hi) as (ph3 & ? & ?). by eapply G4.
  - intros k k' q2 q3 ph2 ph3 i H1 H2 Hi Hi'.
    destruct (Hlead _ _ _ _ H1 Hi) as (? & ? & ?), (Hlead _ _ _ _ H2 Hi') as (? & ? & ?). by eapply G5.
  - intros k q2 i e [(<- & [= <- ->] & _)|[_ Hk2]]%list_lookup_insert_Some; [by destruct (Hnl i e)|by eapply G6].
  - intros k q2 ph2 [(<- & [= <- <-] & _)|[_ Hk2]]%list_lookup_insert_Some; [done|]. intros ? ?. by eapply Hd, G7.
Qed.
(** The key is registered. *)
Lemma good_registering w j q :
  good w → calls w !! j = Some (q, Registering) →
  let '(c, F, i, wait) := QueryCache.waitOrRegister (cache (st w)) (flight w) (key_of q) in
  good {| st := with_cache (st w) c (metrics (st w)); flight := F;
          calls := <[j := (q, if wait then Waiting i else Acquiring i)]> (calls w) |}.
Proof.
  intros G Hj. unfold QueryCache.waitOrRegister. destruct (table (st w) !! key_of q) as [i|] eqn:Hk.
  { apply (good_piece w j q Registering); [done|done|done|done|apply G|by left|done|done]. }
  set (i := fresh _). assert (Hi : flight w !! i = None) by (apply not_elem_of_dom, is_fresh). clearbody i.
  destruct G as [G1 G2 G3 G4 G5 G6 G7].
  assert (Hne : ∀ k i', table (st w) !! k = Some i' → i' ≠ i).
  { intros k i' Hk' ->. destruct (G2 _ _ Hk') as (fl & Hfl & _). congruence. }
  split; cbn [st flight calls with_cache cache QueryCache.data QueryCache.inflight QueryCache.set_inflight].
  - etrans; [exact G1|]. unfold known. cbn. rewrite list_fmap_insert, list_insert_id; [done|]. by rewrite list_lookup_fmap, Hj.
  - intros k i' [[<- <-]|[Hn Hk']]%lookup_insert_Some; unfold open; cbn.
    + exists QueryCache.newInflight. by rewrite lookup_insert_eq.
    + rewrite lookup_insert_ne by (apply not_eq_sym; by eapply Hne). by apply (G2 k).
  - intros k k' i' [[<- <-]|[Hn Hk1]]%lookup_insert_Some [[<- Ei]|[Hn2 Hk2]]%lookup_insert_Some; try done.
    + by destruct (Hne _ _ Hk2).
    + subst i'. by destruct (Hne _ _ Hk1).
    + by eapply G3.
  - intros k q2 ph2 i' [(<- & [= <- <-] & _)|[Hn Hk2]]%list_lookup_insert_Some Hl.
    + injection Hl as <-. by rewrite lookup_insert_eq.
    + specialize (G4 _ _ _ _ Hk2 Hl). rewrite lookup_insert_ne; [done|]. intros Eq. congruence.
  - intros k k' q2 q3 ph2 ph3 i' [(<- & [= <- <-] & _)|[Hn1 H1]]%list_lookup_insert_Some
      [(<- & [= <- <-] & _)|[Hn2 H2]]%list_lookup_insert_Some Hl1 Hl2; [done|..|by eapply G5].
    + injection Hl1 as <-. destruct (Hne _ _ (G4 _ _ _ _ H2 Hl2)). done.
    + injection Hl2 as <-. destruct (Hne _ _ (G4 _ _ _ _ H1 Hl1)). done.
  - intros k q2 i' e [(<- & [= <- ?] & _)|[Hn Hk2]]%list_lookup_insert_Some.
    destruct (G6 _ _ _ _ Hk2) as (fl & Hfl & Hd). exists fl. rewrite lookup_insert_ne; [done|]. intros <-. congruence.
  - intros k q2 ph2 [(<- & [= <- <-] & _)|[Hn Hk2]]%list_lookup_insert_Some; [done|by eapply G7].
Qed.

(** A leader hands out its result. *)
Lemma good_finish w j q i e :
  good w → calls w !! j = Some (q, Finishing i e) →
  ∃ c F, QueryCache.finish (cache (st w)) (flight w) (key_of q) (shared e).1 (shared e).2 = Some (c, F) ∧
    QueryCache.data c = data (st w) ∧
    good {| st := with_cache (st w) c (metrics (st w)); flight := F; calls := <[j := (q, Leaving i e)]> (calls w) |}.
Proof.
  intros [G1 G2 G3 G4 G5 G6 G7] Hj. pose proof (G4 _ _ _ i Hj eq_refl) as Hk.
  destruct (G2 _ _ Hk) as (fl & Hfl & Hd).
  unfold QueryCache.finish, QueryCache.close_with. rewrite Hk, Hfl, Hd. eexists _, _. split; [done|]. split; [done|].
  assert (Hne : ∀ k i', k ≠ key_of q → table (st w) !! k = Some i' → i' ≠ i) by (intros k i' Hn Hk' ->; by destruct Hn; eapply G3).
  split; cbn [st flight calls with_cache cache QueryCache.data QueryCache.inflight QueryCache.set_inflight].
  - etrans; [exact G1|]. unfold known. cbn. rewrite list_fmap_insert, list_insert_id; [done|]. by rewrite list_lookup_fmap, Hj.
  - intros k i' [Hn Hk']%lookup_delete_Some. unfold open; cbn.
    rewrite lookup_insert_ne by (apply not_eq_sym; by eapply Hne). by apply (G2 k).
  - intros k k' i' [_ Hk1]%lookup_delete_Some [_ Hk2]%lookup_delete_Some. by eapply G3.
  - intros k q2 ph2 i' [(<- & [= <- <-] & _)|[Hn Hk2]]%list_lookup_insert_Some Hl; [done|].
    rewrite lookup_delete_ne; [by eapply G4|]. intros Eq. destruct Hn.
    pose proof (G4 _ _ _ _ Hk2 Hl) as Hk3. rewrite <- Eq, Hk in Hk3. injection Hk3 as <-. by eapply G5.
  - intros k k' q2 q3 ph2 ph3 i' [(<- & [= <- <-] & _)|[Hn1 H1]]%list_lookup_insert_Some
      [(<- & [= <- <-] & _)|[Hn2 H2]]%list_lookup_insert_Some Hl1 Hl2; [done..|by eapply G5].
  - intros k q2 i' e' [(<- & [= <- <- <-] & _)|[Hn Hk2]]%list_lookup_insert_Some.
    + rewrite lookup_insert_eq. by eexists.
    + destruct (G6 _ _ _ _ Hk2) as (fl' & Hfl' & Hd'). exists fl'. rewrite lookup_insert_ne; [done|]. intros <-. congruence.
  - intros k q2 ph2 [(<- & [= <- <-] & _)|[Hn Hk2]]%list_lookup_insert_Some; [|by eapply G7].
    intros Ha. by eapply G7.
Qed.

(** The deferred [abandon] of a leader that has finished does nothing. *)
Lemma leave_nothing w j q i e : good w → calls w !! j = Some (q, Leaving i e) →
  QueryCache.abandon (cache (st w)) (flight w) (key_of q) i = Some (cache (st w), flight w).
Proof.
  intros G Hj. unfold QueryCache.abandon. case_decide as Hk; [|done].
  destruct (good_table _ G _ _ Hk) as (fl & Hfl & Hd), (good_leave _ G _ _ _ _ Hj) as (fl' & Hfl' & Hd').
  congruence.
Qed.
(** A call that takes no part in the traffic with the network. *)
Definition quiet (ph : phase (Packet:=Packet)) : bool :=
  match ph with Entering | Looking => true | Over e => local_end e | _ => false end.

Definition fine w j q (ph : phase (Packet:=Packet)) (m : move (Packet:=Packet) (Addr:=Addr)) : Prop :=
  match m with
  | Stuck => True
  | Panicked => False
  | Moved s F ph' =>
      good {| st := s; flight := F; calls := <[j := (q, ph')]> (calls w) |} ∧
      dom (data (st w)) ⊆ dom (data s) ∧ (key_of q ∈ dom (data (st w)) → quiet ph = true → quiet ph' = true)
  end.

Lemma fine_same w j q ph s ph' :
  good w → calls w !! j = Some (q, ph) →
  cache s = cache (st w) →
  leads ph' = leads ph ∨ leads ph' = None → (∀ i e, ph' ≠ Leaving i e) → (remembered ph' = true → remembered ph = true) →
  (key_of q ∈ dom (data (st w)) → quiet ph = true → quiet ph' = true) →
  fine w j q ph (Moved s (flight w) ph').
Proof.
  intros G Hj Hc Hl Hn Ha Hq. split; [|by rewrite Hc].
  apply good_piece with (ph := ph); rewrite ?Hc; try done; [apply G|]. intros Ha' Hset. by eapply good_asked; eauto.
Qed.

Lemma advance_fine w j q ph c : good w → roomy w → calls w !! j = Some (q, ph) →
  fine w j q ph (adv (st w) (flight w) q ph c).
Proof.
  intros G Hr Hj. destruct ph as [| |[|g gs]|why| |i|i|i [|o os]|i e|i e|e]; cbn [advance].
  - pose proof (enter_spec (st w) q) as Hs. destruct (enter _ _ _ _ _) as [s [e|]]; destruct Hs as (_ & Hc & He).
    + specialize (He _ eq_refl). apply fine_same; [done|done|done|by left|done|by destruct e|by intros].
    + apply fine_same; [done|done|done|by left|done..].
  - pose proof (look_up_spec (st w) q) as Hs. destruct (look_up _ _ _ _) as [s [e|]];
      destruct Hs as (_ & Hd & Ht & Hk & He); cbn [fine]; rewrite Hd; (split; [|split; [done|]]).
    + specialize (He _ eq_refl). apply good_piece with (ph := Looking); rewrite ?Hd; try done; [apply G|by left|by destruct e].
    + intros _ _. by apply He.
    + apply good_piece with (ph := Looking); rewrite ?Hd; try done; [apply G|by left].
    + intros [p Hp]%Hk. done.
  - apply fine_same; [done|done|done|by left|done..].
  - pose proof (check_spec g (st w) q) as Hs. destruct (check _ _ _ _ _ _) as [s yes]. destruct Hs as (_ & Hc & _).
    destruct yes; (apply fine_same; [done|done|done|by left|done..]).
  - destruct (remember_room w j q _ (st w) None Hr Hj (good_keys _ G)) as (s & -> & Hd & Ht). split; [|split; [|done]].
    + apply good_piece with (ph := Skipping why); try done; rewrite ?Hd, ?dom_insert_L.
      * apply union_subseteq_r.
      * apply union_least; [|apply G]. apply singleton_subseteq_l. by eapply known_lookup.
      * by left.
    + rewrite Hd, dom_insert_L. apply union_subseteq_r.
  - pose proof (good_registering w j q G Hj) as Hg.
    assert (Hdat : QueryCache.data (QueryCache.waitOrRegister (cache (st w)) (flight w) (key_of q)).1.1.1 = data (st w)).
    { unfold QueryCache.waitOrRegister. by destruct (table (st w) !! _). }
    destruct (QueryCache.waitOrRegister _ _ _) as [[[c1 F1] i] wait]. cbn [fst] in Hdat. cbn [fine]. cbn. by rewrite Hdat.
  - destruct c; [apply fine_same; [done|done|done|by right|done..]|]. destruct (flight w !! i) as [fl|]; [|done].
    destruct (negb _); [done|]. destruct (QueryCache.abandoned fl); (apply fine_same; [done|done|done|by right|done..]).
  - destruct (gets_slot prof q); (apply fine_same; [done|done|done|by left|done..]).
  - destruct (remember_result_room w j q _ (st w) Hr Hj (good_keys _ G)) as (s & -> & Ht & Hd & Hd' & Hset).
    split; [|done]. apply good_piece with (ph := Observing i []); try done. by left.
  - apply fine_same; [done|done|apply observe_cache|by left|done..].
  - destruct (good_finish w j q i e G Hj) as (c1 & F1 & -> & Hd & Hg). split; [done|]. cbn. by rewrite Hd.
  - rewrite (leave_nothing w j q i e G Hj). split; [|done].
    apply good_piece with (ph := Leaving i e); try done; [apply G|by left|]. intros Ha. by eapply good_asked.
  - done.
Qed.

Lemma good_call w q : good w → good {| st := st w; flight := flight w; calls := calls w ++ [(q, Entering)] |}.
Proof.
  intros [G1 G2 G3 G4 G5 G6 G7]. split; cbn [st flight calls]; try done.
  - etrans; [exact G1|]. unfold known. cbn. rewrite fmap_app, list_to_set_app_L. apply union_subseteq_l.
  - intros j q2 ph i [Hj|[-> [= -> ->]]]%elem_of_snoc_lookup Hl; [by eapply G4|done].
  - intros j j' q2 q3 ph ph' i [Hj|[-> [= -> ->]]]%elem_of_snoc_lookup [Hj'|[-> [= -> ->]]]%elem_of_snoc_lookup Hl Hl'; try done.
    by eapply G5.
  - intros j q2 i e [Hj|[-> [= ]]]%elem_of_snoc_lookup. by eapply G6.
  - intros j q2 ph [Hj|[-> [= -> ->]]]%elem_of_snoc_lookup Ha; [by eapply G7|done].
Qed.

Lemma good_moves w w' : good w → roomy w' → moves w w' → good w' ∧ dom (data (st w)) ⊆ dom (data (st w')).
Proof.
  intros G Hr' Hm. pose proof (roomy_before _ _ Hm Hr') as Hr.
  apply calls_after in Hm as [(q & Hst & Hf & Hcs)|(j & q & ph & c & ph' & Hj & Ha & Hcs)]; destruct w' as [s' F' cs']; cbn in *; subst.
  - split; [by apply good_call|done].
  - pose proof (advance_fine w j q ph c G Hr Hj) as Hf. rewrite Ha in Hf. by destruct Hf as (? & ? & _).
Qed.

Lemma roomy_all w w' : rtc moves w w' → roomy w' → roomy w.
Proof. induction 1 as [|w1 w2 w3 Hm _ IH]; [done|]. intros Hr. by eapply roomy_before, IH. Qed.

Lemma good_run w w' : rtc moves w w' → good w → roomy w' → good w' ∧ dom (data (st w)) ⊆ dom (data (st w')).
Proof.
  induction 1 as [|w1 w2 w3 Hm Hrun IH]; [done|]. intros G Hr.
  destruct (good_moves _ _ G (roomy_all _ _ Hrun Hr) Hm) as [G2 Hd].
  destruct (IH G2 Hr) as [G3 Hd3]. split; [done|by etrans].
Qed.

Lemma good_begin l r c e M : good (start (newState l r c e M)).
Proof. by split. Qed.

(** Calls whose key is cached when they come stay quiet. *)
Lemma quiet_run n key w w' : rtc moves w w' → good w → roomy w' → key ∈ dom (data (st w)) →
  (∀ j q ph, (n <= j)%nat → calls w !! j = Some (q, ph) → key_of q = key → quiet ph = true) →
  ∀ j q ph, (n <= j)%nat → calls w' !! j = Some (q, ph) → key_of q = key → quiet ph = true.
Proof.
  induction 1 as [|w1 w2 w3 Hm Hrun IH]; [done|]. intros G Hr Hk Hq.
  pose proof (roomy_all _ _ Hrun Hr) as Hr2. destruct (good_moves _ _ G Hr2 Hm) as [G2 Hd].
  apply (IH G2 Hr (Hd _ Hk)). clear IH. pose proof (roomy_before _ _ Hm Hr2) as Hr1.
  apply calls_after in Hm as [(q & _ & _ & ->)|(j & q & ph & c & ph' & Hj & Ha & ->)]; intros k q2 ph2 Hn.
  - intros [Hj|[-> [= -> ->]]]%elem_of_snoc_lookup; [by eapply Hq|done].
  - intros [(<- & [= <- <-] & _)|[_ Hk2]]%list_lookup_insert_Some Eq; [|by eapply Hq].
    pose proof (advance_fine w1 j q ph c G Hr1 Hj) as Hf. rewrite Ha in Hf. destruct Hf as (_ & _ & Hf).
    apply Hf; [by rewrite Eq|by eapply Hq].
Qed.

(** ** A caller alone *)

(** The same state with another table of queries in flight. *)
Definition put_table s (T : gmap string nat) : state := with_cache s (QueryCache.set_inflight (cache s) T) (metrics s).

Lemma observe_table o s q T :
  observe edns_text visit ns prof o (put_table s T) q = put_table (observe edns_text visit ns prof o s q) T.
Proof.
  destruct o; cbn [observe].
  - unfold observe_latency. by destruct (_ && _).
  - unfold observe_fastFail. by destruct (diagnostic q).
  - unfold observe_blacklist. by destruct (_ && _).
  - unfold observe_error. cbn [put_table with_cache fastFail errorCache metrics].
    destruct (_ && _); [|done]. by destruct (ErrorCache.set _ _ _ _ _).
  - unfold observe_reachability. destruct (diagnostic q); [done|].
    destruct (_ && _); [by destruct (0 <? _)|by destruct (_ && _)].
Qed.

Lemma remember_table s key r T :
  remember max_entries (put_table s T) key r = (λ s', put_table s' T) <$> remember max_entries s key r.
Proof.
  unfold remember, QueryCache.set. cbn [put_table with_cache cache QueryCache.set_inflight QueryCache.data QueryCache.order metrics].
  repeat case_match; done.
Qed.

Lemma remember_result_table s q T :
  remember_result edns_text max_entries (put_table s T) q =
  (λ s', put_table s' T) <$> remember_result edns_text max_entries s q.
Proof. unfold remember_result. repeat case_match; try apply remember_table; done. Qed.

(** The only call, at [ph], comes to its end. *)
Definition only s F q ph : world (E:=E) (Packet:=Packet) (Addr:=Addr) := {| st := s; flight := F; calls := [(q, ph)] |}.
Definition ends s F q ph s' (e : ended (Packet:=Packet)) : Prop :=
  ∃ F', rtc moves (only s F q ph) (only s' F' q (Over e)).

Lemma ends_over s F q e : ends s F q (Over e) s e.
Proof. by exists F. Qed.

Lemma ends_move s F q ph s1 F1 ph1 s' e :
  adv s F q ph false = Moved s1 F1 ph1 → ends s1 F1 q ph1 s' e → ends s F q ph s' e.
Proof.
  intros Ha [F' Hrun]. exists F'. eapply rtc_l; [|exact Hrun].
  by apply (step_move _ _ _ _ _ _ (only s F q ph) 0%nat q ph false).
Qed.

Lemma ends_guards gs : ∀ s F q s' e,
  match check_all edns_text ns prof gs s q with
  | (s1, Some why) => ends s1 F q (Skipping why) s' e
  | (s1, None) => ends s1 F q Registering s' e
  end → ends s F q (Guarding gs) s' e.
Proof.
  induction gs as [|g gs IH]; intros s F q s' e; cbn [check_all]; [by eapply ends_move|].
  destruct (check edns_text ns prof g s q) as [s1 yes] eqn:Hc. intros Hrun.
  eapply ends_move; [cbn [advance]; by rewrite Hc|]. destruct yes; [done|by apply IH].
Qed.

Lemma ends_reports os : ∀ s F q i s' e,
  ends (foldl (λ s o, observe edns_text visit ns prof o s q) s os) F q (Observing i []) s' e →
  ends s F q (Observing i os) s' e.
Proof. induction os as [|o os IH]; intros s F q i s' e Hrun; [done|]. eapply ends_move; [done|]. by apply IH. Qed.

Lemma reports_table os : ∀ s q T,
  foldl (λ s o, observe edns_text visit ns prof o s q) (put_table s T) os =
  put_table (foldl (λ s o, observe edns_text visit ns prof o s q) s os) T.
Proof. induction os as [|o os IH]; intros s q T; [done|]. cbn [foldl]. by rewrite observe_table, IH. Qed.

Lemma reports_cache os : ∀ s q, cache (foldl (λ s o, observe edns_text visit ns prof o s q) s os) = cache s.
Proof. induction os as [|o os IH]; intros s q; [done|]. cbn [foldl]. by rewrite IH, observe_cache. Qed.

Lemma check_all_cache gs : ∀ s q, cache (check_all edns_text ns prof gs s q).1 = cache s.
Proof.
  induction gs as [|g gs IH]; intros s q; cbn [check_all]; [done|].
  pose proof (check_spec g s q) as Hs. destruct (check _ _ _ _ _ _) as [s1 []]; destruct Hs as (_ & Hc & _); [done|].
  by rewrite IH.
Qed.

Lemma remember_result_kept s q s' : remember_result edns_text max_entries s q = Some s' → table s' = table s.
Proof.
  assert (Hr : ∀ r, remember max_entries s (key_of q) r = Some s' → table s' = table s).
  { unfold remember, QueryCache.set. intros r ([c M] & Hs & [= <-])%bind_Some. cbn [cache with_cache].
    revert Hs. destruct (_ && _); [destruct (_ <? _)%nat|]; [done|by intros [= <- _]..]. }
  unfold remember_result. repeat case_match; try apply Hr. by intros [= ->].
Qed.

Lemma put_same s : put_table s (table s) = s.
Proof. by destruct s as [[] ? ? ? ? ? ? ?]. Qed.

(** The result of a leader reaches nobody, and its registration is taken back. *)
Lemma ends_finish s q i e :
  table s !! key_of q = None →
  ends (put_table s (<[key_of q := i]> (table s))) {[i := QueryCache.newInflight]} q (Finishing i e) s e.
Proof.
  intros Hk. eapply ends_move.
  { cbn [advance]. unfold QueryCache.finish, QueryCache.close_with, put_table.
    cbn [with_cache cache QueryCache.set_inflight QueryCache.inflight].
    rewrite lookup_insert_eq, lookup_singleton_eq. cbn [QueryCache.done QueryCache.newInflight]. done. }
  rewrite delete_insert_id by done.
  change (with_cache (with_cache s _ _) _ _) with (put_table s (table s)). rewrite put_same.
  eapply ends_move; [|apply ends_over]. cbn [advance]. unfold QueryCache.abandon. rewrite decide_False; [by destruct s|].
  intros Hn. cbv zeta in Hn. congruence.
Qed.

(** A caller alone goes through its pieces as [QueryWithOptions] says. *)
Theorem alone s q s' e :
  table s !! key_of q = None → QueryWithOptions edns_text visit ns prof max_entries fake s q = Some (s', e) →
  ends s ∅ q Entering s' e.
Proof.
  intros Hk. unfold QueryWithOptions.
  pose proof (enter_spec s q) as Hs. destruct (enter ns prof fake s q) as [s1 [e1|]] eqn:He; destruct Hs as (_ & Hc & _).
  { intros [= <- <-]. eapply ends_move; [cbn [advance]; by rewrite He|apply ends_over]. }
  intros Hq. eapply ends_move; [cbn [advance]; by rewrite He|]. rewrite <- Hc in Hk. clear s He Hc. revert Hq.
  pose proof (look_up_spec s1 q) as Hs. destruct (look_up edns_text prof s1 q) as [s2 [e2|]] eqn:Hl;
    destruct Hs as (_ & _ & Ht & _).
  { intros [= <- <-]. eapply ends_move; [cbn [advance]; by rewrite Hl|apply ends_over]. }
  intros Hq. eapply ends_move; [cbn [advance]; by rewrite Hl|]. rewrite <- Ht in Hk. clear s1 Hl Ht.
  apply ends_guards. revert Hq. unfold shouldSkipQuery. pose proof (check_all_cache guards s2 q) as Hc.
  destruct (check_all edns_text ns prof guards s2 q) as [s3 [why|]]; cbn [fst] in Hc.
  { intros (s4 & Hr & [= <- <-])%bind_Some. eapply ends_move; [cbn [advance]; by rewrite Hr|apply ends_over]. }
  rewrite <- Hc in Hk. clear s2 Hc. intros Hq.
  eapply ends_move; [cbn [advance]; unfold QueryCache.waitOrRegister; by rewrite Hk|].
  set (i := fresh _). clearbody i. change (with_cache s3 _ _) with (put_table s3 (<[key_of q := i]> (table s3))).
  eapply ends_move; [done|]. destruct (gets_slot prof q).
  - apply bind_Some in Hq as (s4 & Hr & [= <- <-]). apply ends_reports. rewrite reports_table.
    eapply ends_move; [cbn [advance]; by rewrite remember_result_table, Hr|].
    pose proof (remember_result_kept _ _ _ Hr) as Ht. rewrite reports_cache in Ht. rewrite <- Ht in *.
    by apply ends_finish.
  - injection Hq as <- <-. by apply ends_finish.
Qed.
End facts.

(** ** Witnesses *)

#[local] Existing Instance ascii_unicode.

Definition demo_profile : Profile :=
  {| IPv4 := true; IPv6 := true; NoNetwork := false; p_Timeout := 5; p_Retry := 2; p_Retrans := 3; ErrorCacheTTL := 30;
     NegativeCacheTTL := 30; FastFailTimeoutCount := 3; NameserverMaxTotalMS := 0; NameserverConcurrency := 0 |}.
Definition demo_server : server (Addr:=N) :=
  {| Address := 1%N; AddressString := "192.0.2.1"; Is4 := true; Is6 := false; may_query := true |}.
Definition timeout : Reachability.net_error :=
  {| Reachability.net_timeout := Some true; Reachability.is_errno := λ _, false; Reachability.error_text := "i/o timeout" |}.

(** One lost packet, and the same question a minute later, to which an answer would come. *)
Definition lost_packet : query (E:=string) (Packet:=Z) :=
  {| qname := "a.se"; qtype := "ns"; qopts := Some plain_options;
     at_moment := {| now := 0; later := 1; ctx_ok := true; slot := true; elapsed := 1; reply := None; reply_err := Some timeout |} |}.
Definition asked_again : query (E:=string) (Packet:=Z) :=
  {| qname := "a.se."; qtype := "NS"; qopts := Some plain_options;
     at_moment := {| now := 60 * second; later := 61 * second; ctx_ok := true; slot := true; elapsed := 1; reply := Some 7; reply_err := None |} |}.
Definition other_protocol : query (E:=string) (Packet:=Z) :=
  {| qname := "b.se"; qtype := "NS"; at_moment := at_moment asked_again;
     qopts := Some {| Class_ := ""; UseVC := Some true; Recurse := None; CheckingDisabled := None; Fallback := None; Retry := None;
       Retrans := None; Timeout := None; DNSSEC := None; EDNSSize := None; EDNSDetails_ := None; BlacklistingDisabled := false;
       Diagnostic := false |} |}.
Definition udp_again : query (E:=string) (Packet:=Z) :=
  {| qname := "c.se"; qtype := "NS"; qopts := None; at_moment := at_moment asked_again |}.

Definition demo_start : nsState (Packet:=Z) (Addr:=N) :=
  newState Limits.newRunLimits Reachability.newReachabilityCache None None ∅.
Definition demo_run (s : nsState (Packet:=Z) (Addr:=N)) (qs : list query) :=
  snd <$> queries (join ",") map_to_list demo_server demo_profile 256 (λ _, None) s qs.

(** Made one after the other: the single lost packet keeps the query from the network for good,
    as does a blacklist entry all queries of its protocol. *)
Example lost_packet_final : demo_run demo_start [lost_packet; asked_again] = Some [Asked None (Some timeout); FromCache None].
Proof. vm_compute. reflexivity. Qed.

Definition demo_blacklisted := with_blacklisted demo_start {[false]}.
Example blacklisted_udp : demo_run demo_blacklisted [other_protocol; udp_again] = Some [Asked (Some 7) None; Skipped Blacklisted].
Proof. vm_compute. reflexivity. Qed.

(** *** Calls that run at the same time *)

#[local] Abbreviation play := (happens (join ",") map_to_list demo_server demo_profile 256 (λ _, None)).
#[local] Abbreviation demo_moves := (moves (join ",") map_to_list demo_server demo_profile 256 (λ _, None)).
#[local] Abbreviation demo_world := (world (E:=string) (Packet:=Z) (Addr:=N)).

(** The call at [j] makes [n] pieces. *)
Definition pieces (n j : nat) : list (event (E:=string) (Packet:=Z)) := replicate n (Move j false).

(** From the call to its end, [all] pieces; after ten of them the call is on the network. *)
Definition all : nat := 18.

Definition named (name : string) (q : query (E:=string) (Packet:=Z)) : query (E:=string) (Packet:=Z) :=
  {| qname := name; qtype := qtype q; qopts := qopts q; at_moment := at_moment q |}.

(** two calls with the same key that both miss the cache are both sent, one after the
    other, although the first was answered: [waitOrRegister] does not look at the cache again. *)
Theorem asked_twice :
  ∃ w : demo_world,
    play (start demo_start) ([Call asked_again; Call asked_again] ++ pieces 2 0 ++ pieces 2 1 ++ pieces 16 0 ++ pieces 16 1) = Some w ∧
    calls w = [(asked_again, Over (Asked (Some 7) None)); (asked_again, Over (Asked (Some 7) None))].
Proof. eexists. split; [vm_compute; reflexivity|]. reflexivity. Qed.

(** Three timeouts block the protocol while a query is on the network. *)
Definition blocking : list (event (E:=string) (Packet:=Z)) :=
  [Call asked_again; Call (named "b.se" lost_packet); Call (named "c.se" lost_packet); Call (named "d.se" lost_packet)]
  ++ pieces 10 0 ++ pieces all 1 ++ pieces all 2 ++ pieces all 3.

Definition blocked_world : demo_world := default (start demo_start) (play (start demo_start) blocking).

(** Its answer comes, and a new call is made. *)
Definition unblocking : list (event (E:=string) (Packet:=Z)) :=
  pieces 8 0 ++ [Call (named "e.se" asked_again)] ++ pieces all 4.

(** an answer to a query that was on the network when its protocol was blocked takes the
    block of the fast fail back: a later call goes to the network again. *)
Theorem fast_fail_taken_back :
  rtc demo_moves (start demo_start) blocked_world ∧ verdict demo_profile FastFailSkip (st blocked_world) false ∧
  ∃ w', rtc demo_moves blocked_world w' ∧ snd <$> calls w' !! 4%nat = Some (Over (Asked (Some 7) None)).
Proof.
  split; [apply happens_moves with (evs := blocking); vm_compute; reflexivity|].
  split; [vm_compute; reflexivity|]. exists (default blocked_world (play blocked_world unblocking)).
  split; [apply happens_moves with (evs := unblocking); vm_compute; reflexivity|vm_compute; reflexivity].
Qed.

(** A query is answered; then the same is asked twice more at the same time. *)
Definition first_run := [Call asked_again] ++ pieces all 0.
Definition second_run := [Call asked_again; Call asked_again] ++ pieces 1 1 ++ pieces 2 2 ++ pieces 1 1.
Definition first_world : demo_world := default (start demo_start) (play (start demo_start) first_run).
Definition second_world : demo_world := default (start demo_start) (play first_world second_run).

Lemma first_run_moves : rtc demo_moves (start demo_start) first_world.
Proof. apply happens_moves with (evs := first_run). vm_compute. reflexivity. Qed.
Lemma second_run_moves : rtc demo_moves first_world second_world.
Proof. apply happens_moves with (evs := second_run). vm_compute. reflexivity. Qed.
Lemma second_roomy : roomy (join ",") 256 second_world.
Proof. right. vm_compute. discriminate. Qed.


(** A call on the network when another call blacklists its protocol. *)
Definition listed : demo_world :=
  {| st := demo_blacklisted; flight := ∅; calls := [(asked_again, Entering); (other_protocol, Registering)] |}.
Definition listed_later : demo_world := default listed (play listed (pieces 6 0)).

Lemma blocked_final_witness :
  verdict demo_profile Blacklisted (st listed) false ∧ rtc demo_moves listed listed_later ∧
  verdict demo_profile Blacklisted (st listed_later) false ∧
  ∀ q ph, calls listed_later !! 0%nat = Some (q, ph) → resolveUseVC (qopts q) = false → sent ph = false.
Proof.
  assert (Hv : verdict demo_profile Blacklisted (st listed) false) by (apply elem_of_singleton; reflexivity).
  assert (Hm : rtc demo_moves listed listed_later)
    by (apply happens_moves with (evs := pieces 6 0); vm_compute; reflexivity).
  split; [exact Hv|]. split; [exact Hm|].
  destruct (blocked_final (join ",") map_to_list demo_server demo_profile 256 (λ _, None) listed listed_later Blacklisted false Hv
    ltac:(discriminate) Hm) as [Hv' Hs].
  split; [exact Hv'|]. intros q ph Hq Huse. apply (Hs 0%nat q ph Hq Huse). intros ph0 [= <- <-]. reflexivity.
Defined.
